(** * Physical-view dependency engine of the Legion runtime

    A shallow embedding of [runtime/legion/legion_views.cc]: the user
    epoch tables of materialized and reduction views, the task-path and
    copy-path dependency analyzers, the remote update packer and the
    reference notifications of composite nodes, together with the
    properties of the design document that are stated about them. *)

From stdpp Require Import gmap sorting.
From Stdlib Require Import NArith ZArith Lia.

Set Default Proof Using "Type".
#[local] Set Warnings "-clear-no-such-hyp".
Local Open Scope N_scope.

(** ** Field masks

    A [FieldMask] is a fixed-width bitset.  The operators used by the
    views ([&], [|], [-], [!m], [a * b]) never set a bit that is not set
    in one of their operands, so the width plays no role and a mask is
    the natural number whose binary digits are the bits. *)

Module Mask.

Definition FieldMask := N.

Definition empty : FieldMask := 0.
Definition inter (a b : FieldMask) : FieldMask := N.land a b.
Definition union (a b : FieldMask) : FieldMask := N.lor a b.
Definition diff (a b : FieldMask) : FieldMask := N.ldiff a b.
(** [!m] *)
Definition is_empty (m : FieldMask) : bool := N.eqb m 0.
(** [a * b]: no bit in common *)
Definition disjoint (a b : FieldMask) : bool := N.eqb (N.land a b) 0.
(** every field of [a] is a field of [b] *)
Definition subseteq (a b : FieldMask) : Prop := N.ldiff a b = 0.

End Mask.

Abbreviation FieldMask := Mask.FieldMask.
Infix "&&&" := Mask.inter (at level 40, left associativity).
Infix "|||" := Mask.union (at level 50, left associativity).
Infix "\\\" := Mask.diff (at level 40, left associativity).

(** ** Identifiers and usages *)

(** An event handle; [NO_EVENT] is the handle 0 and [exists()] tests for
    it. *)
Abbreviation Event := N.
Definition NO_EVENT : Event := 0.
Definition event_exists (e : Event) : bool := negb (N.eqb e 0).

(** A [ColorPoint]; the default-constructed point is not valid. *)
Definition ColorPoint := option N.
Definition is_valid (c : ColorPoint) : bool :=
  match c with Some _ => true | None => false end.
Definition color_eqb (a b : ColorPoint) : bool := bool_decide (a = b).

Inductive PrivilegeMode :=
  NO_ACCESS | READ_ONLY | READ_WRITE | WRITE_DISCARD | REDUCE.
Inductive CoherenceProperty := EXCLUSIVE | ATOMIC | SIMULTANEOUS | RELAXED.
Abbreviation ReductionOpID := N.

Record RegionUsage := mkUsage {
  privilege : PrivilegeMode;
  prop : CoherenceProperty;
  redop : ReductionOpID
}.

Inductive DependenceType :=
  | NO_DEPENDENCE
  | TRUE_DEPENDENCE
  | ANTI_DEPENDENCE
  | ATOMIC_DEPENDENCE
  | SIMULTANEOUS_DEPENDENCE.

(** Field versions: version id to the fields at that version. *)
Abbreviation VersionID := N.
Definition FieldVersions := list (VersionID * FieldMask).

(** A [PhysicalUser] is an immutable record.  A [PhysicalUser*] is the
    address of one; where the tables hold such a pointer, they hold the
    address together with the record found there, and two pointers are
    equal when the addresses are. *)
Record PhysicalUser := mkUser {
  usage : RegionUsage;
  child : ColorPoint;
  versions : option FieldVersions
}.

Definition user_redop (user : PhysicalUser) : ReductionOpID := redop (usage user).

#[global] Instance PrivilegeMode_eq_dec : EqDecision PrivilegeMode.
Proof. solve_decision. Defined.
#[global] Instance CoherenceProperty_eq_dec : EqDecision CoherenceProperty.
Proof. solve_decision. Defined.
#[global] Instance RegionUsage_eq_dec : EqDecision RegionUsage.
Proof. solve_decision. Defined.
#[global] Instance DependenceType_eq_dec : EqDecision DependenceType.
Proof. solve_decision. Defined.
#[global] Instance PhysicalUser_eq_dec : EqDecision PhysicalUser.
Proof. solve_decision. Defined.

(** ** The region tree and version information, as the views use them

    Both are external collaborators.  A region tree node answers two
    questions: its own color and whether two of its children are
    disjoint.  A version info tells whether a node is the upper bound of
    the versions it carries and which field versions it holds for a
    node. *)

Record RegionTreeNode := mkNode {
  node_id : N;
  get_color : ColorPoint;
  are_children_disjoint : ColorPoint -> ColorPoint -> bool
}.

Record VersionInfo := mkVersionInfo {
  is_upper_bound_node : RegionTreeNode -> bool;
  get_versions : RegionTreeNode -> option FieldVersions
}.

(** ** Per-event buckets of users

    An [EventUsers] holds either one user, whose mask is the summary
    mask, or a map from users to masks.  The bucket that [operator[]]
    default-constructs (single, with a null user) exists only between
    the lookup and the assignment that follows it in the same function,
    so it is represented by the key being absent from the table. *)

Inductive Users :=
  | single_user (u : N * PhysicalUser)
  | multi_users (m : gmap N (PhysicalUser * FieldMask)).

Record EventUsers := mkEventUsers {
  user_mask : FieldMask;
  users : Users
}.

Definition single (eu : EventUsers) : bool :=
  match users eu with single_user _ => true | multi_users _ => false end.

(** Iteration over a [std::map]: ascending keys. *)
Definition key_le {A} (x y : N * A) : Prop := (x.1 <= y.1)%N.

#[global] Instance key_le_dec {A} (x y : N * A) : Decision (key_le x y).
Proof. unfold key_le. apply _. Defined.

Definition entries {A} (m : gmap N A) : list (N * A) :=
  merge_sort key_le (map_to_list m).

(** ** What the views take from the rest of the runtime

    The privilege tests are macros and the dependence table is a function
    of the analysis headers; the views only call them.  They are an
    interface here, so that everything below holds for whatever they
    compute. *)

Class Analysis := {
  IS_READ_ONLY : RegionUsage -> bool;
  IS_REDUCE : RegionUsage -> bool;
  check_dependence_type : RegionUsage -> RegionUsage -> DependenceType
}.

(** Modelled from the spec: [PhysicalUser::same_versions], which lives
    with the [PhysicalUser] class outside this file.  Versions are
    recorded only for some users; a user without any never matches.
    Otherwise each recorded version that covers a tested field must be
    the version the caller holds for all of those fields. *)
Definition same_versions (user : PhysicalUser) (test_mask : FieldMask)
    (other : FieldVersions) : bool :=
  match versions user with
  | None => false
  | Some local =>
      forallb (fun vit : VersionID * FieldMask =>
        let overlap := vit.2 &&& test_mask in
        if Mask.is_empty overlap then true
        else match List.find (fun o : VersionID * FieldMask => N.eqb o.1 vit.1) other with
             | None => false
             | Some o => Mask.is_empty (overlap \\\ o.2)
             end) local
  end.

(** ** Task path: one prior user against the caller *)

Record TaskAcc := mkTaskAcc {
  preconditions : gset Event;
  observed : FieldMask;
  non_dominated : FieldMask
}.

Definition add_observed (overlap : FieldMask) (acc : TaskAcc) : TaskAcc :=
  mkTaskAcc (preconditions acc) (observed acc ||| overlap) (non_dominated acc).
Definition add_non_dominated (overlap : FieldMask) (acc : TaskAcc) : TaskAcc :=
  mkTaskAcc (preconditions acc) (observed acc) (non_dominated acc ||| overlap).
Definition add_precondition (e : Event) (acc : TaskAcc) : TaskAcc :=
  mkTaskAcc ({[e]} ∪ preconditions acc) (observed acc) (non_dominated acc).

(** The child cut-off shared by the four per-user routines: the caller
    came up from a child, and the prior user is recorded against the same
    child or against a child disjoint from it. *)
Definition same_child (child_color : ColorPoint) (prev_user : PhysicalUser) : bool :=
  is_valid child_color && color_eqb child_color (child prev_user).
Definition disjoint_children (logical_node : RegionTreeNode)
    (child_color : ColorPoint) (prev_user : PhysicalUser) : bool :=
  is_valid child_color && is_valid (child prev_user) &&
  are_children_disjoint logical_node child_color (child prev_user).

Definition find_current_preconditions `{Analysis} (logical_node : RegionTreeNode)
    (test_event : Event) (prev_user : PhysicalUser) (prev_mask : FieldMask)
    (next_user : RegionUsage) (next_mask : FieldMask) (child_color : ColorPoint)
    (acc : TaskAcc) : bool * TaskAcc :=
  let overlap := prev_mask &&& next_mask in
  if Mask.is_empty overlap then (false, acc)
  else
    let acc := add_observed overlap acc in
    if same_child child_color prev_user then
      (false, add_non_dominated overlap acc)
    else if disjoint_children logical_node child_color prev_user then
      (false, add_non_dominated overlap acc)
    else
      match check_dependence_type (usage prev_user) next_user with
      | NO_DEPENDENCE | ATOMIC_DEPENDENCE | SIMULTANEOUS_DEPENDENCE =>
          (false, add_non_dominated overlap acc)
      | TRUE_DEPENDENCE | ANTI_DEPENDENCE =>
          (true, add_precondition test_event acc)
      end.

Definition find_previous_preconditions `{Analysis} (logical_node : RegionTreeNode)
    (test_event : Event) (prev_user : PhysicalUser) (prev_mask : FieldMask)
    (next_user : RegionUsage) (next_mask : FieldMask) (child_color : ColorPoint)
    (pre : gset Event) : bool * gset Event :=
  if same_child child_color prev_user then (false, pre)
  else if disjoint_children logical_node child_color prev_user then (false, pre)
  else
    let overlap := prev_mask &&& next_mask in
    if Mask.is_empty overlap then (false, pre)
    else
      match check_dependence_type (usage prev_user) next_user with
      | NO_DEPENDENCE | ATOMIC_DEPENDENCE | SIMULTANEOUS_DEPENDENCE => (false, pre)
      | TRUE_DEPENDENCE | ANTI_DEPENDENCE => (true, {[test_event]} ∪ pre)
      end.

(** ** Copy path: one prior user against the caller *)


(** [preconditions[e] = overlap] or [finder->second |= overlap] *)
Definition record_precondition (e : Event) (overlap : FieldMask)
    (pre : gmap Event FieldMask) : gmap Event FieldMask :=
  match pre !! e with
  | None => <[e := overlap]> pre
  | Some m => <[e := m ||| overlap]> pre
  end.

Record CopyAcc := mkCopyAcc {
  copy_preconditions : gmap Event FieldMask;
  copy_observed : FieldMask;
  copy_non_dominated : FieldMask
}.

Definition copy_add_observed (overlap : FieldMask) (acc : CopyAcc) : CopyAcc :=
  mkCopyAcc (copy_preconditions acc) (copy_observed acc ||| overlap)
            (copy_non_dominated acc).
Definition copy_add_non_dominated (overlap : FieldMask) (acc : CopyAcc) : CopyAcc :=
  mkCopyAcc (copy_preconditions acc) (copy_observed acc)
            (copy_non_dominated acc ||| overlap).
Definition copy_add_precondition (e : Event) (overlap : FieldMask)
    (acc : CopyAcc) : CopyAcc :=
  mkCopyAcc (record_precondition e overlap (copy_preconditions acc))
            (copy_observed acc) (copy_non_dominated acc).

(** The test [!reading && (redop == 0) && (versions != NULL) &&
    !IS_REDUCE(user->usage) && user->same_versions(overlap, versions)] *)
Definition same_version_skip `{Analysis} (user : PhysicalUser)
    (redop : ReductionOpID) (reading : bool) (overlap : FieldMask)
    (versions : option FieldVersions) : bool :=
  negb reading && N.eqb redop 0 &&
  match versions with
  | None => false
  | Some vs => negb (IS_REDUCE (usage user)) && same_versions user overlap vs
  end.

Definition find_current_copy_preconditions `{Analysis} (logical_node : RegionTreeNode)
    (test_event : Event) (user : PhysicalUser) (mask : FieldMask)
    (redop : ReductionOpID) (reading : bool) (copy_mask : FieldMask)
    (child_color : ColorPoint) (versions : option FieldVersions)
    (acc : CopyAcc) : CopyAcc :=
  let overlap := copy_mask &&& mask in
  if Mask.is_empty overlap then acc
  else
    let acc := copy_add_observed overlap acc in
    if same_child child_color user then copy_add_non_dominated overlap acc
    else if disjoint_children logical_node child_color user then
      copy_add_non_dominated overlap acc
    else if reading && IS_READ_ONLY (usage user) then
      copy_add_non_dominated overlap acc
    else if N.ltb 0 redop && N.eqb (user_redop user) redop then
      copy_add_non_dominated overlap acc
    else if same_version_skip user redop reading overlap versions then
      copy_add_non_dominated overlap acc
    else copy_add_precondition test_event overlap acc.

Definition find_previous_copy_preconditions `{Analysis} (logical_node : RegionTreeNode)
    (test_event : Event) (user : PhysicalUser) (mask : FieldMask)
    (redop : ReductionOpID) (reading : bool) (copy_mask : FieldMask)
    (child_color : ColorPoint) (versions : option FieldVersions)
    (pre : gmap Event FieldMask) : gmap Event FieldMask :=
  if same_child child_color user then pre
  else if disjoint_children logical_node child_color user then pre
  else
    let overlap := mask &&& copy_mask in
    if Mask.is_empty overlap then pre
    else if reading && IS_READ_ONLY (usage user) then pre
    else if N.ltb 0 redop && N.eqb (user_redop user) redop then pre
    else if same_version_skip user redop reading overlap versions then pre
    else record_precondition test_event overlap pre.

(** ** Reference counts of users *)

(** Modelled from the spec: the [Collectable] base of [PhysicalUser] and
    the allocator are not in this file.  A user is reference-counted;
    the heap holds the count of every user alive and the next address
    to hand out. *)
Record UserHeap := mkHeap {
  references : gmap N nat;
  next_addr : N
}.

(** Modelled from the spec: [legion_new] hands out an address that was
    never used before; the user starts without a reference. *)
Definition legion_new (usage : RegionUsage) (child : ColorPoint)
    (versions : option FieldVersions) (h : UserHeap)
    : (N * PhysicalUser) * UserHeap :=
  ((next_addr h, mkUser usage child versions),
   mkHeap (<[next_addr h := 0%nat]> (references h)) (next_addr h + 1)).

(** Modelled from the spec: [Collectable::add_reference]. *)
Definition add_reference (user : N) (h : UserHeap) : UserHeap :=
  match references h !! user with
  | Some n => mkHeap (<[user := S n]> (references h)) (next_addr h)
  | None => h
  end.

(** Modelled from the spec: [Collectable::remove_reference] reports
    whether the last reference went away; the caller then deletes the
    user. *)
Definition remove_reference (user : N) (h : UserHeap) : bool * UserHeap :=
  match references h !! user with
  | Some n => (bool_decide (n = 1%nat),
               mkHeap (<[user := pred n]> (references h)) (next_addr h))
  | None => (false, h)
  end.

(** Modelled from the spec: [legion_delete] frees the user. *)
Definition legion_delete (user : N) (h : UserHeap) : UserHeap :=
  mkHeap (delete user (references h)) (next_addr h).

(** [if (user->remove_reference()) legion_delete(user);] *)
Definition release_user (user : N) (h : UserHeap) : UserHeap :=
  let '(last, h') := remove_reference user h in
  if last then legion_delete user h' else h'.

(** The same, for every user of a bucket. *)
Definition release_users (eu : EventUsers) (h : UserHeap) : UserHeap :=
  match users eu with
  | single_user u => release_user u.1 h
  | multi_users m => foldl (fun h kv => release_user kv.1 h) h (entries m)
  end.

(** ** The epoch tables of a materialized view *)

Record MaterializedState := mkState {
  current_epoch_users : gmap Event EventUsers;
  previous_epoch_users : gmap Event EventUsers;
  outstanding_gc_events : gset Event;
  initial_user_events : gset Event;
  heap : UserHeap
}.

Definition set_current (f : gmap Event EventUsers -> gmap Event EventUsers)
    (s : MaterializedState) : MaterializedState :=
  mkState (f (current_epoch_users s)) (previous_epoch_users s)
          (outstanding_gc_events s) (initial_user_events s) (heap s).
Definition set_previous (f : gmap Event EventUsers -> gmap Event EventUsers)
    (s : MaterializedState) : MaterializedState :=
  mkState (current_epoch_users s) (f (previous_epoch_users s))
          (outstanding_gc_events s) (initial_user_events s) (heap s).
Definition set_gc (f : gset Event -> gset Event)
    (s : MaterializedState) : MaterializedState :=
  mkState (current_epoch_users s) (previous_epoch_users s)
          (f (outstanding_gc_events s)) (initial_user_events s) (heap s).
Definition set_heap (f : UserHeap -> UserHeap)
    (s : MaterializedState) : MaterializedState :=
  mkState (current_epoch_users s) (previous_epoch_users s)
          (outstanding_gc_events s) (initial_user_events s) (f (heap s)).

(** The body shared, word for word, by [add_current_user],
    [add_previous_user] and [ReductionView::add_physical_user]: the
    bucket found (or just created) under the event takes one more user. *)
Definition insert_user (user : N * PhysicalUser) (mask : FieldMask)
    (event_users : option EventUsers) : EventUsers :=
  match event_users with
  | None => mkEventUsers mask (single_user user)
  | Some eu =>
      match users eu with
      | single_user u0 =>
          mkEventUsers (user_mask eu ||| mask)
            (multi_users (<[user.1 := (user.2, mask)]>
                            (<[u0.1 := (u0.2, user_mask eu)]> ∅)))
      | multi_users m =>
          mkEventUsers (user_mask eu ||| mask)
            (multi_users (<[user.1 := (user.2, mask)]> m))
      end
  end.

Definition add_current_user (user : N * PhysicalUser) (term_event : Event)
    (mask : FieldMask) (s : MaterializedState) : MaterializedState :=
  set_current (fun cur => <[term_event := insert_user user mask (cur !! term_event)]> cur) s.

Definition add_previous_user (user : N * PhysicalUser) (term_event : Event)
    (mask : FieldMask) (s : MaterializedState) : MaterializedState :=
  set_previous (fun prev => <[term_event := insert_user user mask (prev !! term_event)]> prev) s.

(** [filter_local_users]: the build without Legion Spy and event graph
    tracing, in which the body is compiled in. *)
Definition drop_bucket (term_event : Event) (table : gmap Event EventUsers)
    (h : UserHeap) : gmap Event EventUsers * UserHeap :=
  match table !! term_event with
  | Some eu => (delete term_event table, release_users eu h)
  | None => (table, h)
  end.

Definition filter_local_users (term_event : Event)
    (s : MaterializedState) : MaterializedState :=
  if decide (term_event ∈ outstanding_gc_events s) then
    let '(cur, h1) := drop_bucket term_event (current_epoch_users s) (heap s) in
    let '(prev, h2) := drop_bucket term_event (previous_epoch_users s) h1 in
    mkState cur prev (outstanding_gc_events s ∖ {[term_event]})
            (initial_user_events s) h2
  else s.

(** Erasing a list of keys, one [erase] call each. *)
Definition erase_all {A} (keys : list N) (m : gmap N A) : gmap N A :=
  foldl (fun m k => delete k m) m keys.

(** "See if we can shrink this back down": a map left with one entry
    becomes the single form, with that entry's mask as the summary. *)
Definition collapse (summary : FieldMask)
    (m : gmap N (PhysicalUser * FieldMask)) : EventUsers :=
  match entries m with
  | [(user, (record, mask))] => mkEventUsers mask (single_user (user, record))
  | _ => mkEventUsers summary (multi_users m)
  end.

Definition filter_previous_entry (fit : Event * FieldMask)
    (s : MaterializedState) : MaterializedState :=
  match previous_epoch_users s !! fit.1 with
  | None => s
  | Some eu =>
      let summary := user_mask eu \\\ fit.2 in
      if Mask.is_empty summary then
        set_heap (release_users eu) (set_previous (delete fit.1) s)
      else
        match users eu with
        | single_user u =>
            set_previous (<[fit.1 := mkEventUsers summary (single_user u)]>) s
        | multi_users m =>
            let m1 := (fun um : PhysicalUser * FieldMask => (um.1, um.2 \\\ fit.2)) <$> m in
            let to_delete :=
              List.filter (fun kv : N * (PhysicalUser * FieldMask) =>
                             Mask.is_empty kv.2.2) (entries m1) in
            match to_delete with
            | [] => set_previous (<[fit.1 := mkEventUsers summary (multi_users m1)]>) s
            | _ =>
                let m2 := erase_all (to_delete.*1) m1 in
                set_heap (fun h => foldl (fun h kv => release_user kv.1 h) h to_delete)
                  (set_previous (<[fit.1 := collapse summary m2]>) s)
            end
        end
  end.

Definition filter_previous_users (filter_previous : gmap Event FieldMask)
    (s : MaterializedState) : MaterializedState :=
  foldl (fun s fit => filter_previous_entry fit s) s (entries filter_previous).

(** *** [filter_current_users]

    The three shapes of a current bucket that loses [summary_overlap]:
    a single user, a map that moves back whole, a map that moves back in
    part.  Each returns what the previous bucket becomes. *)

Definition move_single (user : N * PhysicalUser)
    (current_mask summary_overlap : FieldMask)
    (prev_users : option EventUsers) (h : UserHeap) : EventUsers * UserHeap :=
  let gone := Mask.is_empty current_mask in
  match prev_users with
  | None =>
      (mkEventUsers summary_overlap (single_user user),
       if gone then h else add_reference user.1 h)
  | Some pu =>
      match users pu with
      | single_user pu_user =>
          if N.eqb pu_user.1 user.1 then
            (mkEventUsers (user_mask pu ||| summary_overlap) (single_user pu_user),
             if gone then (remove_reference user.1 h).2 else h)
          else
            (mkEventUsers (user_mask pu ||| summary_overlap)
               (multi_users (<[user.1 := (user.2, summary_overlap)]>
                               (<[pu_user.1 := (pu_user.2, user_mask pu)]> ∅))),
             if gone then h else add_reference user.1 h)
      | multi_users pm =>
          match pm !! user.1 with
          | None =>
              (mkEventUsers (user_mask pu ||| summary_overlap)
                 (multi_users (<[user.1 := (user.2, summary_overlap)]> pm)),
               if gone then h else add_reference user.1 h)
          | Some found =>
              (mkEventUsers (user_mask pu ||| summary_overlap)
                 (multi_users (<[user.1 := (found.1, found.2 ||| summary_overlap)]> pm)),
               if gone then (remove_reference user.1 h).2 else h)
          end
      end
  end.

Abbreviation UserMap := (gmap N (PhysicalUser * FieldMask)).

(** [finder->second |= mask] when the user is there (a duplicate
    reference is then dropped), an insertion otherwise. *)
Definition merge_user (it : N * (PhysicalUser * FieldMask))
    (acc : UserMap * UserHeap) : UserMap * UserHeap :=
  match acc.1 !! it.1 with
  | None => (<[it.1 := it.2]> acc.1, acc.2)
  | Some found =>
      (<[it.1 := (found.1, found.2 ||| it.2.2)]> acc.1,
       (remove_reference it.1 acc.2).2)
  end.

Definition move_all (cm : UserMap) (summary_overlap : FieldMask)
    (prev_users : option EventUsers) (h : UserHeap) : EventUsers * UserHeap :=
  match prev_users with
  | None => (mkEventUsers (Mask.empty ||| summary_overlap) (multi_users cm), h)
  | Some pu =>
      match users pu with
      | single_user user =>
          let '(cm', h') := merge_user (user.1, (user.2, user_mask pu)) (cm, h) in
          (mkEventUsers (user_mask pu ||| summary_overlap) (multi_users cm'), h')
      | multi_users pm =>
          let '(pm', h') := foldl (fun acc it => merge_user it acc) (pm, h) (entries cm) in
          (mkEventUsers (user_mask pu ||| summary_overlap) (multi_users pm'), h')
      end
  end.

Record Filtered := mkFiltered {
  kept : UserMap;          (* the current map, masks reduced *)
  sent : UserMap;          (* the map that goes to the previous epoch *)
  to_delete : list N;      (* users with nothing left in the current epoch *)
  filtered_heap : UserHeap
}.

(** The previous bucket was single: a new map is made to send back. *)
Definition send_new (summary_overlap : FieldMask)
    (it : N * (PhysicalUser * FieldMask)) (acc : Filtered) : Filtered :=
  let overlap := summary_overlap &&& it.2.2 in
  if Mask.is_empty overlap then acc
  else
    let rest := it.2.2 \\\ overlap in
    mkFiltered (<[it.1 := (it.2.1, rest)]> (kept acc))
               (<[it.1 := (it.2.1, overlap)]> (sent acc))
               (if Mask.is_empty rest then to_delete acc ++ [it.1] else to_delete acc)
               (if Mask.is_empty rest then filtered_heap acc
                else add_reference it.1 (filtered_heap acc)).

(** The previous bucket was a map already. *)
Definition send_existing (summary_overlap : FieldMask)
    (it : N * (PhysicalUser * FieldMask)) (acc : Filtered) : Filtered :=
  let overlap := summary_overlap &&& it.2.2 in
  if Mask.is_empty overlap then acc
  else
    let rest := it.2.2 \\\ overlap in
    match sent acc !! it.1 with
    | None =>
        mkFiltered (<[it.1 := (it.2.1, rest)]> (kept acc))
                   (<[it.1 := (it.2.1, overlap)]> (sent acc))
                   (if Mask.is_empty rest then to_delete acc ++ [it.1] else to_delete acc)
                   (if Mask.is_empty rest then filtered_heap acc
                    else add_reference it.1 (filtered_heap acc))
    | Some found =>
        mkFiltered (<[it.1 := (it.2.1, rest)]> (kept acc))
                   (<[it.1 := (found.1, found.2 ||| overlap)]> (sent acc))
                   (if Mask.is_empty rest then to_delete acc ++ [it.1] else to_delete acc)
                   (if Mask.is_empty rest
                    then (remove_reference it.1 (filtered_heap acc)).2
                    else filtered_heap acc)
    end.

Definition move_some (cm : UserMap) (current_mask summary_overlap : FieldMask)
    (prev_users : option EventUsers) (h : UserHeap)
    : EventUsers * EventUsers * UserHeap :=
  let '(f, prev_mask) :=
    match prev_users with
    | None =>
        (foldl (fun acc it => send_new summary_overlap it acc)
               (mkFiltered cm ∅ [] h) (entries cm), Mask.empty)
    | Some pu =>
        match users pu with
        | single_user user =>
            let f := foldl (fun acc it => send_new summary_overlap it acc)
                           (mkFiltered cm ∅ [] h) (entries cm) in
            let '(new_map, h') :=
              merge_user (user.1, (user.2, user_mask pu)) (sent f, filtered_heap f) in
            (mkFiltered (kept f) new_map (to_delete f) h', user_mask pu)
        | multi_users pm =>
            (foldl (fun acc it => send_existing summary_overlap it acc)
                   (mkFiltered cm pm [] h) (entries cm), user_mask pu)
        end
    end in
  let current :=
    match to_delete f with
    | [] => mkEventUsers current_mask (multi_users (kept f))
    | _ => collapse current_mask (erase_all (to_delete f) (kept f))
    end in
  (current, mkEventUsers (prev_mask ||| summary_overlap) (multi_users (sent f)),
   filtered_heap f).

(** What a current bucket that loses [summary_overlap] turns into: the
    bucket left in the current epoch, the bucket of the previous epoch,
    the heap, and whether the event goes on [events_to_delete]. *)
Definition move_bucket (current_users : EventUsers)
    (current_mask summary_overlap : FieldMask) (prev_users : option EventUsers)
    (h : UserHeap) : EventUsers * EventUsers * UserHeap * bool :=
  match users current_users with
  | single_user user =>
      let '(prev', h') :=
        move_single user current_mask summary_overlap prev_users h in
      (mkEventUsers current_mask (single_user user), prev', h',
       Mask.is_empty current_mask)
  | multi_users cm =>
      if Mask.is_empty current_mask then
        let '(prev', h') := move_all cm summary_overlap prev_users h in
        (mkEventUsers current_mask (multi_users cm), prev', h', true)
      else
        let '(current', prev', h') :=
          move_some cm current_mask summary_overlap prev_users h in
        (current', prev', h', false)
  end.

Definition filter_current_entry (has_triggered : Event -> bool)
    (dominated : FieldMask) (cit : Event * EventUsers)
    (acc : MaterializedState * list Event) : MaterializedState * list Event :=
  let s := acc.1 in
  let current_users := cit.2 in
  if has_triggered cit.1 then
    (set_heap (release_users current_users) s, acc.2 ++ [cit.1])
  else
    let summary_overlap := user_mask current_users &&& dominated in
    if Mask.is_empty summary_overlap then acc
    else
      let current_mask := user_mask current_users \\\ summary_overlap in
      let prev_users := previous_epoch_users s !! cit.1 in
      let '(current', prev', h, emptied) :=
        move_bucket current_users current_mask summary_overlap prev_users (heap s) in
      (mkState (<[cit.1 := current']> (current_epoch_users s))
               (<[cit.1 := prev']> (previous_epoch_users s))
               (outstanding_gc_events s) (initial_user_events s) h,
       if emptied then acc.2 ++ [cit.1] else acc.2).

Definition filter_current_users (has_triggered : Event -> bool)
    (dominated : FieldMask) (s : MaterializedState) : MaterializedState :=
  let '(s', events_to_delete) :=
    foldl (fun acc cit => filter_current_entry has_triggered dominated cit acc)
          (s, []) (entries (current_epoch_users s)) in
  set_current (erase_all events_to_delete) s'.

(** Iteration over a [std::set<Event>]: ascending. *)
Definition sorted_elements (s : gset N) : list N := merge_sort N.le (elements s).

(** ** Task path: the analysis of [add_local_user] *)

(** The users of a multi bucket, until one of them gives a dependence. *)
Fixpoint find_current_multi `{Analysis} (logical_node : RegionTreeNode)
    (test_event : Event) (l : list (N * (PhysicalUser * FieldMask)))
    (next_user : RegionUsage) (next_mask : FieldMask) (child_color : ColorPoint)
    (acc : TaskAcc) : TaskAcc :=
  match l with
  | [] => acc
  | it :: l' =>
      let r := find_current_preconditions logical_node test_event it.2.1 it.2.2
                 next_user next_mask child_color acc in
      if r.1 then r.2
      else find_current_multi logical_node test_event l' next_user next_mask
             child_color r.2
  end.

Fixpoint find_previous_multi `{Analysis} (logical_node : RegionTreeNode)
    (test_event : Event) (l : list (N * (PhysicalUser * FieldMask)))
    (next_user : RegionUsage) (next_mask : FieldMask) (child_color : ColorPoint)
    (pre : gset Event) : gset Event :=
  match l with
  | [] => pre
  | it :: l' =>
      let r := find_previous_preconditions logical_node test_event it.2.1 it.2.2
                 next_user next_mask child_color pre in
      if r.1 then r.2
      else find_previous_multi logical_node test_event l' next_user next_mask
             child_color r.2
  end.

Definition current_task_entry `{Analysis} (has_triggered : Event -> bool)
    (logical_node : RegionTreeNode) (usage : RegionUsage) (term_event : Event)
    (mask : FieldMask) (child_color : ColorPoint)
    (cit : Event * EventUsers) (st : gset Event * TaskAcc) : gset Event * TaskAcc :=
  if has_triggered cit.1 then ({[cit.1]} ∪ st.1, st.2)
  else if N.eqb cit.1 term_event then st
  else if decide (cit.1 ∈ preconditions st.2) then st
  else
    match users cit.2 with
    | single_user u =>
        (st.1, (find_current_preconditions logical_node cit.1 u.2 (user_mask cit.2)
                  usage mask child_color st.2).2)
    | multi_users m =>
        if Mask.disjoint mask (user_mask cit.2) then st
        else (st.1, find_current_multi logical_node cit.1 (entries m)
                      usage mask child_color st.2)
    end.

Record PreviousTask := mkPreviousTask {
  prev_dead_events : gset Event;
  prev_filter_previous : gmap Event FieldMask;
  prev_preconditions : gset Event
}.

(** [filter_previous[pit->first] = dom_overlap], under its two guards *)
Definition note_dominated (dominated : FieldMask) (pit : Event * EventUsers)
    (filter_previous : gmap Event FieldMask) : gmap Event FieldMask :=
  if negb (Mask.is_empty dominated) then
    let dom_overlap := user_mask pit.2 &&& dominated in
    if negb (Mask.is_empty dom_overlap) then <[pit.1 := dom_overlap]> filter_previous
    else filter_previous
  else filter_previous.

Definition previous_task_entry `{Analysis} (has_triggered : Event -> bool)
    (logical_node : RegionTreeNode) (usage : RegionUsage) (term_event : Event)
    (non_dominated dominated : FieldMask) (skip_analysis : bool)
    (child_color : ColorPoint)
    (pit : Event * EventUsers) (st : PreviousTask) : PreviousTask :=
  if has_triggered pit.1 then
    mkPreviousTask ({[pit.1]} ∪ prev_dead_events st) (prev_filter_previous st)
                   (prev_preconditions st)
  else if N.eqb pit.1 term_event then st
  else if decide (pit.1 ∈ prev_preconditions st) then st
  else
    let fp := note_dominated dominated pit (prev_filter_previous st) in
    if skip_analysis then
      mkPreviousTask (prev_dead_events st) fp (prev_preconditions st)
    else
      match users pit.2 with
      | single_user u =>
          mkPreviousTask (prev_dead_events st) fp
            (find_previous_preconditions logical_node pit.1 u.2 (user_mask pit.2)
               usage non_dominated child_color (prev_preconditions st)).2
      | multi_users m =>
          if Mask.disjoint non_dominated (user_mask pit.2) then
            mkPreviousTask (prev_dead_events st) fp (prev_preconditions st)
          else
            mkPreviousTask (prev_dead_events st) fp
              (find_previous_multi logical_node pit.1 (entries m)
                 usage non_dominated child_color (prev_preconditions st))
      end.

(** What the analysis under the read lock hands to the clean-up under the
    exclusive lock. *)
Record TaskAnalysis := mkTaskAnalysis {
  ta_observed : FieldMask;          (* after the current-epoch pass *)
  ta_non_dominated : FieldMask;     (* after the current-epoch pass *)
  ta_current_preconditions : gset Event; (* after the current-epoch pass *)
  ta_dominated : FieldMask;
  ta_skip_analysis : bool;
  ta_dead_events : gset Event;
  ta_filter_previous : gmap Event FieldMask;
  ta_preconditions : gset Event
}.

Definition task_analysis `{Analysis} (has_triggered : Event -> bool)
    (logical_node : RegionTreeNode) (usage : RegionUsage) (term_event : Event)
    (child_color : ColorPoint) (mask : FieldMask) (pre : gset Event)
    (s : MaterializedState) : TaskAnalysis :=
  let cur :=
    foldl (fun st cit => current_task_entry has_triggered logical_node usage
                           term_event mask child_color cit st)
          (∅, mkTaskAcc pre Mask.empty Mask.empty)
          (entries (current_epoch_users s)) in
  let dominated := observed cur.2 &&& (mask \\\ non_dominated cur.2) in
  let non_dominated' := mask \\\ dominated in
  let skip_analysis := Mask.is_empty non_dominated' in
  let prev :=
    foldl (fun st pit => previous_task_entry has_triggered logical_node usage
                           term_event non_dominated' dominated skip_analysis
                           child_color pit st)
          (mkPreviousTask cur.1 ∅ (preconditions cur.2))
          (entries (previous_epoch_users s)) in
  mkTaskAnalysis (observed cur.2) (non_dominated cur.2) (preconditions cur.2)
    dominated skip_analysis
    (prev_dead_events prev) (prev_filter_previous prev) (prev_preconditions prev).

(** The clean-up both analyzers run under the exclusive lock. *)
Definition apply_filters (has_triggered : Event -> bool)
    (dead_events : gset Event) (filter_previous : gmap Event FieldMask)
    (dominated : FieldMask) (s : MaterializedState) : MaterializedState :=
  let s1 := foldl (fun s e => filter_local_users e s) s (sorted_elements dead_events) in
  let s2 := if decide (filter_previous = ∅) then s1
            else filter_previous_users filter_previous s1 in
  if negb (Mask.is_empty dominated) then filter_current_users has_triggered dominated s2
  else s2.

(** The user a task or copy leaves behind: versions are recorded only
    for read-only users. *)
Definition new_user `{Analysis} (logical_node : RegionTreeNode) (usage : RegionUsage)
    (child_color : ColorPoint) (version_info : VersionInfo)
    (h : UserHeap) : (N * PhysicalUser) * UserHeap :=
  let '(user, h') :=
    if IS_READ_ONLY usage
    then legion_new usage child_color (get_versions version_info logical_node) h
    else legion_new usage child_color None h in
  (user, add_reference user.1 h').

(** The analysis runs under the read lock and the clean-up under the
    exclusive lock that is taken afterwards.  [filter_current_users] asks
    the events once more whether they have triggered, and an event may
    have triggered since the analysis asked: [has_triggered] is what the
    analysis is answered, [has_triggered'] what the clean-up is. *)
Definition add_local_user `{Analysis} (has_triggered has_triggered' : Event -> bool)
    (logical_node : RegionTreeNode) (usage : RegionUsage) (term_event : Event)
    (base_user : bool) (child_color : ColorPoint) (version_info : VersionInfo)
    (mask : FieldMask) (pre : gset Event) (s : MaterializedState)
    : bool * gset Event * MaterializedState :=
  let a := task_analysis has_triggered logical_node usage term_event child_color
             mask pre s in
  if event_exists term_event then
    let '(user, h) := new_user logical_node usage child_color version_info (heap s) in
    let s1 := apply_filters has_triggered' (ta_dead_events a) (ta_filter_previous a)
                (ta_dominated a) (set_heap (fun _ => h) s) in
    let s2 := add_current_user user term_event mask s1 in
    if decide (term_event ∈ outstanding_gc_events s2)
    then (false, ta_preconditions a, s2)
    else (base_user, ta_preconditions a, set_gc (fun gc => {[term_event]} ∪ gc) s2)
  else
    (false, ta_preconditions a,
     apply_filters has_triggered' (ta_dead_events a) (ta_filter_previous a)
       (ta_dominated a) s).

(** ** Copy path: the analysis of [find_local_copy_preconditions] *)

Definition current_copy_entry `{Analysis} (has_triggered : Event -> bool)
    (logical_node : RegionTreeNode) (redop : ReductionOpID) (reading : bool)
    (copy_mask : FieldMask) (child_color : ColorPoint)
    (versions : option FieldVersions)
    (cit : Event * EventUsers) (st : gset Event * CopyAcc) : gset Event * CopyAcc :=
  if has_triggered cit.1 then ({[cit.1]} ∪ st.1, st.2)
  else
    match users cit.2 with
    | single_user u =>
        (st.1, find_current_copy_preconditions logical_node cit.1 u.2 (user_mask cit.2)
                 redop reading copy_mask child_color versions st.2)
    | multi_users m =>
        if Mask.disjoint copy_mask (user_mask cit.2) then st
        else
          (st.1,
           foldl (fun acc (it : N * (PhysicalUser * FieldMask)) =>
                    find_current_copy_preconditions logical_node cit.1 it.2.1 it.2.2
                      redop reading copy_mask child_color versions acc)
                 st.2 (entries m))
    end.

Record PreviousCopy := mkPreviousCopy {
  prevc_dead_events : gset Event;
  prevc_filter_previous : gmap Event FieldMask;
  prevc_preconditions : gmap Event FieldMask
}.

Definition previous_copy_entry `{Analysis} (has_triggered : Event -> bool)
    (logical_node : RegionTreeNode) (redop : ReductionOpID) (reading : bool)
    (non_dominated dominated : FieldMask) (skip_analysis : bool)
    (child_color : ColorPoint) (versions : option FieldVersions)
    (pit : Event * EventUsers) (st : PreviousCopy) : PreviousCopy :=
  if has_triggered pit.1 then
    mkPreviousCopy ({[pit.1]} ∪ prevc_dead_events st) (prevc_filter_previous st)
                   (prevc_preconditions st)
  else
    let fp := note_dominated dominated pit (prevc_filter_previous st) in
    if skip_analysis then
      mkPreviousCopy (prevc_dead_events st) fp (prevc_preconditions st)
    else
      match users pit.2 with
      | single_user u =>
          mkPreviousCopy (prevc_dead_events st) fp
            (find_previous_copy_preconditions logical_node pit.1 u.2 (user_mask pit.2)
               redop reading non_dominated child_color versions
               (prevc_preconditions st))
      | multi_users m =>
          if Mask.disjoint non_dominated (user_mask pit.2) then
            mkPreviousCopy (prevc_dead_events st) fp (prevc_preconditions st)
          else
            mkPreviousCopy (prevc_dead_events st) fp
              (foldl (fun pre (it : N * (PhysicalUser * FieldMask)) =>
                        find_previous_copy_preconditions logical_node pit.1
                          it.2.1 it.2.2 redop reading non_dominated child_color
                          versions pre)
                     (prevc_preconditions st) (entries m))
      end.

Record CopyAnalysis := mkCopyAnalysis {
  ca_observed : FieldMask;          (* after the current-epoch pass *)
  ca_non_dominated : FieldMask;     (* after the current-epoch pass *)
  ca_current_preconditions : gmap Event FieldMask; (* after the current-epoch pass *)
  ca_dominated : FieldMask;
  ca_skip_analysis : bool;
  ca_dead_events : gset Event;
  ca_filter_previous : gmap Event FieldMask;
  ca_preconditions : gmap Event FieldMask
}.

Definition copy_analysis `{Analysis} (has_triggered : Event -> bool)
    (logical_node : RegionTreeNode) (redop : ReductionOpID) (reading : bool)
    (copy_mask : FieldMask) (child_color : ColorPoint)
    (versions : option FieldVersions) (pre : gmap Event FieldMask)
    (s : MaterializedState) : CopyAnalysis :=
  let cur :=
    foldl (fun st cit => current_copy_entry has_triggered logical_node redop
                           reading copy_mask child_color versions cit st)
          (∅, mkCopyAcc pre Mask.empty Mask.empty)
          (entries (current_epoch_users s)) in
  let dominated := copy_observed cur.2 &&& (copy_mask \\\ copy_non_dominated cur.2) in
  let non_dominated' := copy_mask \\\ dominated in
  let skip_analysis := Mask.is_empty non_dominated' in
  let prev :=
    foldl (fun st pit => previous_copy_entry has_triggered logical_node redop
                           reading non_dominated' dominated skip_analysis
                           child_color versions pit st)
          (mkPreviousCopy cur.1 ∅ (copy_preconditions cur.2))
          (entries (previous_epoch_users s)) in
  mkCopyAnalysis (copy_observed cur.2) (copy_non_dominated cur.2)
    (copy_preconditions cur.2) dominated skip_analysis
    (prevc_dead_events prev) (prevc_filter_previous prev) (prevc_preconditions prev).

(** As in [add_local_user], the clean-up under the exclusive lock asks
    the events again whether they have triggered. *)
Definition find_local_copy_preconditions `{Analysis}
    (has_triggered has_triggered' : Event -> bool)
    (logical_node : RegionTreeNode) (redop : ReductionOpID) (reading : bool)
    (copy_mask : FieldMask) (child_color : ColorPoint) (version_info : VersionInfo)
    (pre : gmap Event FieldMask) (s : MaterializedState)
    : gmap Event FieldMask * MaterializedState :=
  let versions :=
    if is_valid child_color then None else get_versions version_info logical_node in
  let a := copy_analysis has_triggered logical_node redop reading copy_mask
             child_color versions pre s in
  (ca_preconditions a,
   if negb (bool_decide (ca_dead_events a = ∅)) ||
      negb (bool_decide (ca_filter_previous a = ∅)) ||
      negb (Mask.is_empty (ca_dominated a))
   then apply_filters has_triggered' (ca_dead_events a) (ca_filter_previous a)
          (ca_dominated a) s
   else s).

Definition add_local_copy_user `{Analysis} (logical_node : RegionTreeNode)
    (usage : RegionUsage) (copy_term : Event) (base_user : bool)
    (child_color : ColorPoint) (version_info : VersionInfo) (copy_mask : FieldMask)
    (s : MaterializedState) : bool * MaterializedState :=
  let '(user, h) := new_user logical_node usage child_color version_info (heap s) in
  let s1 := add_current_user user copy_term copy_mask (set_heap (fun _ => h) s) in
  (base_user && bool_decide (copy_term ∉ outstanding_gc_events s1),
   set_gc (fun gc => {[copy_term]} ∪ gc) s1).

(** ** The hierarchy of materialized views

    A view, the node it covers and its parent view.  All views of a
    hierarchy share the allocation, whose use event is what
    [manager->get_use_event()] returns. *)

Record InstanceManager := mkManager { get_use_event : Event }.

#[local] Unset Elimination Schemes.
Inductive MaterializedView := mkView {
  view_state : MaterializedState;
  logical_node : RegionTreeNode;
  manager : InstanceManager;
  parent : option MaterializedView
}.
#[local] Set Elimination Schemes.

(** Induction along the parent chain. *)
Fixpoint MaterializedView_chain_ind (P : MaterializedView -> Prop)
    (Hroot : forall st node man, P (mkView st node man None))
    (Hchild : forall st node man p, P p -> P (mkView st node man (Some p)))
    (v : MaterializedView) : P v :=
  match v with
  | mkView st node man None => Hroot st node man
  | mkView st node man (Some p) =>
      Hchild st node man p (MaterializedView_chain_ind P Hroot Hchild p)
  end.

(** The ancestors are visited first, each told the color of the view the
    call came from. *)
Fixpoint add_user_above `{Analysis} (has_triggered has_triggered' : Event -> bool)
    (v : MaterializedView) (usage : RegionUsage) (term_event : Event)
    (child_color : ColorPoint) (version_info : VersionInfo) (mask : FieldMask)
    (pre : gset Event) : gset Event * MaterializedView :=
  match v with
  | mkView st node man par =>
      let '(pre', par') :=
        match par with
        | Some p =>
            if negb (is_upper_bound_node version_info node) then
              let r := add_user_above has_triggered has_triggered' p usage term_event
                         (get_color node) version_info mask pre in
              (r.1, Some r.2)
            else (pre, par)
        | None => (pre, par)
        end in
      let r := add_local_user has_triggered has_triggered' node usage term_event false
                 child_color version_info mask pre' st in
      (r.1.2, mkView r.2 node man par')
  end.

(** [add_user] returns the merge of the events it collected; the merge
    is the runtime's, so the result here is the set that is merged.  The
    flag tells whether a deferred collection was launched. *)
Definition add_user `{Analysis} (has_triggered has_triggered' : Event -> bool)
    (v : MaterializedView) (usage : RegionUsage) (term_event : Event)
    (mask : FieldMask) (version_info : VersionInfo)
    : gset Event * bool * MaterializedView :=
  let start_use_event := get_use_event (manager v) in
  let wait_on_events : gset Event :=
    if event_exists start_use_event then {[start_use_event]} else ∅ in
  let '(pre', par') :=
    match parent v with
    | Some p =>
        if negb (is_upper_bound_node version_info (logical_node v)) then
          let r := add_user_above has_triggered has_triggered' p usage term_event
                     (get_color (logical_node v)) version_info mask wait_on_events in
          (r.1, Some r.2)
        else (wait_on_events, parent v)
    | None => (wait_on_events, parent v)
    end in
  let r := add_local_user has_triggered has_triggered' (logical_node v) usage
             term_event true None version_info mask pre' (view_state v) in
  (r.1.2, r.1.1, mkView r.2 (logical_node v) (manager v) par').

Fixpoint find_copy_preconditions_above `{Analysis}
    (has_triggered has_triggered' : Event -> bool)
    (v : MaterializedView) (redop : ReductionOpID) (reading : bool)
    (copy_mask : FieldMask) (child_color : ColorPoint) (version_info : VersionInfo)
    (pre : gmap Event FieldMask) : gmap Event FieldMask * MaterializedView :=
  match v with
  | mkView st node man par =>
      let '(pre', par') :=
        match par with
        | Some p =>
            if negb (is_upper_bound_node version_info node) then
              let r := find_copy_preconditions_above has_triggered has_triggered' p
                         redop reading copy_mask (get_color node) version_info pre in
              (r.1, Some r.2)
            else (pre, par)
        | None => (pre, par)
        end in
      let r := find_local_copy_preconditions has_triggered has_triggered' node redop
                 reading copy_mask child_color version_info pre' st in
      (r.1, mkView r.2 node man par')
  end.

Definition find_copy_preconditions `{Analysis}
    (has_triggered has_triggered' : Event -> bool)
    (v : MaterializedView) (redop : ReductionOpID) (reading : bool)
    (copy_mask : FieldMask) (version_info : VersionInfo)
    (pre : gmap Event FieldMask) : gmap Event FieldMask * MaterializedView :=
  let start_use_event := get_use_event (manager v) in
  let pre0 :=
    if event_exists start_use_event
    then record_precondition start_use_event copy_mask pre
    else pre in
  let '(pre', par') :=
    match parent v with
    | Some p =>
        if negb (is_upper_bound_node version_info (logical_node v)) then
          let r := find_copy_preconditions_above has_triggered has_triggered' p redop
                     reading copy_mask (get_color (logical_node v)) version_info pre0 in
          (r.1, Some r.2)
        else (pre0, parent v)
    | None => (pre0, parent v)
    end in
  let r := find_local_copy_preconditions has_triggered has_triggered' (logical_node v)
             redop reading copy_mask None version_info pre' (view_state v) in
  (r.1, mkView r.2 (logical_node v) (manager v) par').

Fixpoint add_copy_user_above `{Analysis} (v : MaterializedView)
    (usage : RegionUsage) (copy_term : Event) (child_color : ColorPoint)
    (version_info : VersionInfo) (copy_mask : FieldMask) : MaterializedView :=
  match v with
  | mkView st node man par =>
      let par' :=
        match par with
        | Some p =>
            if negb (is_upper_bound_node version_info node) then
              Some (add_copy_user_above p usage copy_term (get_color node)
                      version_info copy_mask)
            else par
        | None => par
        end in
      mkView (add_local_copy_user node usage copy_term false child_color
                version_info copy_mask st).2 node man par'
  end.

(** The flag tells whether a deferred collection was launched. *)
Definition add_copy_user `{Analysis} (v : MaterializedView) (redop : ReductionOpID)
    (copy_term : Event) (version_info : VersionInfo) (copy_mask : FieldMask)
    (reading : bool) : bool * MaterializedView :=
  if event_exists copy_term then
    let usage :=
      mkUsage (if reading then READ_ONLY
               else if N.ltb 0 redop then REDUCE else READ_WRITE)
              EXCLUSIVE redop in
    let par' :=
      match parent v with
      | Some p =>
          if negb (is_upper_bound_node version_info (logical_node v)) then
            Some (add_copy_user_above p usage copy_term (get_color (logical_node v))
                    version_info copy_mask)
          else parent v
      | None => parent v
      end in
    let r := add_local_copy_user (logical_node v) usage copy_term true None
               version_info copy_mask (view_state v) in
    (r.1, mkView r.2 (logical_node v) (manager v) par')
  else (false, v).

Definition add_initial_user (term_event : Event) (usage : RegionUsage)
    (mask : FieldMask) (s : MaterializedState) : MaterializedState :=
  let '(user, h) := legion_new usage None None (heap s) in
  let s1 := add_current_user user term_event mask
              (set_heap (fun _ => add_reference user.1 h) s) in
  mkState (current_epoch_users s1) (previous_epoch_users s1)
          ({[term_event]} ∪ outstanding_gc_events s1)
          ({[term_event]} ∪ initial_user_events s1) (heap s1).

(** [collect_users]: the view, then its ancestors. *)
Fixpoint collect_users (term_events : gset Event) (v : MaterializedView)
    : MaterializedView :=
  match v with
  | mkView st node man par =>
      mkView (foldl (fun s e => filter_local_users e s) st
                    (sorted_elements term_events))
             node man
             (match par with
              | Some p => Some (collect_users term_events p)
              | None => None
              end)
  end.

(** ** Reduction views *)

Record ReductionState := mkRedState {
  reduction_users : gmap Event EventUsers;
  reading_users : gmap Event EventUsers;
  red_outstanding_gc_events : gset Event;
  red_initial_user_events : gset Event;
  red_heap : UserHeap
}.

Definition add_physical_user (user : N * PhysicalUser) (reading : bool)
    (term_event : Event) (mask : FieldMask) (s : ReductionState) : ReductionState :=
  if reading then
    mkRedState (reduction_users s)
      (<[term_event := insert_user user mask (reading_users s !! term_event)]>
         (reading_users s))
      (red_outstanding_gc_events s) (red_initial_user_events s) (red_heap s)
  else
    mkRedState
      (<[term_event := insert_user user mask (reduction_users s !! term_event)]>
         (reduction_users s))
      (reading_users s)
      (red_outstanding_gc_events s) (red_initial_user_events s) (red_heap s).

(** One event of the table walked by [find_copy_preconditions]: every
    user whose mask meets [copy_mask] adds its overlap under the event. *)
Definition reduction_copy_entry (copy_mask : FieldMask)
    (rit : Event * EventUsers) (pre : gmap Event FieldMask) : gmap Event FieldMask :=
  match users rit.2 with
  | single_user _ =>
      let overlap := copy_mask &&& user_mask rit.2 in
      if Mask.is_empty overlap then pre
      else record_precondition rit.1 overlap pre
  | multi_users m =>
      if Mask.disjoint copy_mask (user_mask rit.2) then pre
      else
        foldl (fun pre (it : N * (PhysicalUser * FieldMask)) =>
                 let overlap := copy_mask &&& it.2.2 in
                 if Mask.is_empty overlap then pre
                 else record_precondition rit.1 overlap pre)
              pre (entries m)
  end.

Record ReductionManager := mkRedManager {
  red_use_event : Event;
  manager_redop : ReductionOpID
}.

Definition red_find_copy_preconditions (man : ReductionManager)
    (redop : ReductionOpID) (reading : bool) (copy_mask : FieldMask)
    (pre : gmap Event FieldMask) (s : ReductionState) : gmap Event FieldMask :=
  let use_event := red_use_event man in
  let pre0 :=
    if event_exists use_event then record_precondition use_event copy_mask pre
    else pre in
  foldl (fun pre rit => reduction_copy_entry copy_mask rit pre) pre0
        (entries (if reading then reduction_users s else reading_users s)).

(** One event of the table walked by [add_user]: the event is waited on
    as soon as one of its users meets the mask. *)
Definition reduction_wait_entry (mask : FieldMask)
    (rit : Event * EventUsers) (wait_on : gset Event) : gset Event :=
  match users rit.2 with
  | single_user _ =>
      let overlap := mask &&& user_mask rit.2 in
      if Mask.is_empty overlap then wait_on else {[rit.1]} ∪ wait_on
  | multi_users m =>
      if Mask.disjoint mask (user_mask rit.2) then wait_on
      else if existsb (fun it : N * (PhysicalUser * FieldMask) =>
                         negb (Mask.is_empty (mask &&& it.2.2))) (entries m)
      then {[rit.1]} ∪ wait_on
      else wait_on
  end.

(** The result is the set of events that is merged; the flag tells
    whether a deferred collection was launched. *)
Definition red_add_user `{Analysis} (man : ReductionManager) (usage : RegionUsage)
    (term_event : Event) (mask : FieldMask) (s : ReductionState)
    : gset Event * bool * ReductionState :=
  let reading := IS_READ_ONLY usage in
  let use_event := red_use_event man in
  let wait_on : gset Event :=
    if event_exists use_event then {[use_event]} else ∅ in
  let '(user, h) := legion_new usage None None (red_heap s) in
  let wait_on' :=
    foldl (fun w rit => reduction_wait_entry mask rit w) wait_on
          (entries (if reading then reduction_users s else reading_users s)) in
  let s1 := add_physical_user user reading term_event mask
              (mkRedState (reduction_users s) (reading_users s)
                 (red_outstanding_gc_events s) (red_initial_user_events s) h) in
  (wait_on',
   bool_decide (term_event ∉ red_outstanding_gc_events s1),
   mkRedState (reduction_users s1) (reading_users s1)
     ({[term_event]} ∪ red_outstanding_gc_events s1)
     (red_initial_user_events s1) (red_heap s1)).

Definition red_add_copy_user (redop : ReductionOpID) (copy_term : Event)
    (mask : FieldMask) (reading : bool) (s : ReductionState)
    : bool * ReductionState :=
  if event_exists copy_term then
    let usage := if reading then mkUsage READ_ONLY EXCLUSIVE 0
                 else mkUsage REDUCE EXCLUSIVE redop in
    let '(user, h) := legion_new usage None None (red_heap s) in
    let s1 := add_physical_user user reading copy_term mask
                (mkRedState (reduction_users s) (reading_users s)
                   (red_outstanding_gc_events s) (red_initial_user_events s) h) in
    (bool_decide (copy_term ∉ red_outstanding_gc_events s1),
     mkRedState (reduction_users s1) (reading_users s1)
       ({[copy_term]} ∪ red_outstanding_gc_events s1)
       (red_initial_user_events s1) (red_heap s1))
  else (false, s).

Definition red_add_initial_user `{Analysis} (term_event : Event)
    (usage : RegionUsage) (mask : FieldMask) (s : ReductionState) : ReductionState :=
  let '(user, h) := legion_new usage None None (red_heap s) in
  let s1 := add_physical_user user (IS_READ_ONLY usage) term_event mask
              (mkRedState (reduction_users s) (reading_users s)
                 (red_outstanding_gc_events s) (red_initial_user_events s) h) in
  mkRedState (reduction_users s1) (reading_users s1)
    ({[term_event]} ∪ red_outstanding_gc_events s1)
    ({[term_event]} ∪ red_initial_user_events s1) (red_heap s1).

(** The users of a reduction view are deleted outright. *)
Definition delete_users (eu : EventUsers) (h : UserHeap) : UserHeap :=
  match users eu with
  | single_user u => legion_delete u.1 h
  | multi_users m => foldl (fun h kv => legion_delete kv.1 h) h (entries m)
  end.

Definition red_drop_bucket (term_event : Event) (table : gmap Event EventUsers)
    (h : UserHeap) : gmap Event EventUsers * UserHeap :=
  match table !! term_event with
  | Some eu => (delete term_event table, delete_users eu h)
  | None => (table, h)
  end.

Definition red_filter_local_users (term_event : Event)
    (s : ReductionState) : ReductionState :=
  if decide (term_event ∈ red_outstanding_gc_events s) then
    let '(red, h1) := red_drop_bucket term_event (reduction_users s) (red_heap s) in
    let '(rd, h2) := red_drop_bucket term_event (reading_users s) h1 in
    mkRedState red rd (red_outstanding_gc_events s ∖ {[term_event]})
               (red_initial_user_events s) h2
  else s.

Definition red_collect_users (term_events : gset Event)
    (s : ReductionState) : ReductionState :=
  foldl (fun s e => red_filter_local_users e s) s (sorted_elements term_events).

(** ** Composite nodes and the references they hold on views *)

(** Modelled from the spec: the counters of [DistributedCollectable],
    which are not in this file.  Every view has a gc and a valid
    reference count. *)
Record RefCounts := mkRefCounts {
  gc_references : Z;
  valid_references : Z
}.

(** The views known to the runtime, by address. *)
Definition ViewStore := gmap N RefCounts.

Definition counts (store : ViewStore) (view : N) : RefCounts :=
  default (mkRefCounts 0 0) (store !! view).

(** Modelled from the spec: the nested add and remove calls of
    [DistributedCollectable] move a counter of the view by one. *)
Definition add_nested_gc_ref (view : N) (store : ViewStore) : ViewStore :=
  <[view := mkRefCounts (gc_references (counts store view) + 1)
                        (valid_references (counts store view))]> store.
(** Modelled from the spec: see [add_nested_gc_ref]. *)
Definition remove_nested_gc_ref (view : N) (store : ViewStore) : ViewStore :=
  <[view := mkRefCounts (gc_references (counts store view) - 1)
                        (valid_references (counts store view))]> store.
(** Modelled from the spec: see [add_nested_gc_ref]. *)
Definition add_nested_valid_ref (view : N) (store : ViewStore) : ViewStore :=
  <[view := mkRefCounts (gc_references (counts store view))
                        (valid_references (counts store view) + 1)]> store.
(** Modelled from the spec: see [add_nested_gc_ref]. *)
Definition remove_nested_valid_ref (view : N) (store : ViewStore) : ViewStore :=
  <[view := mkRefCounts (gc_references (counts store view))
                        (valid_references (counts store view) - 1)]> store.

#[local] Unset Elimination Schemes.
Inductive CompositeNode := mkCompositeNode {
  valid_views : gmap N FieldMask;
  reduction_views : gmap N FieldMask;
  children : list (CompositeNode * FieldMask)
}.
#[local] Set Elimination Schemes.

(** [for (it = m.begin(); it != m.end(); it++)] *)
Definition from_begin {A} (m : gmap N A) : list (N * A) := entries m.
(** [for (it = m.end(); it != m.end(); it++)]: the walk starts past the
    last entry. *)
Definition from_end {A} (m : gmap N A) : list (N * A) :=
  drop (length (entries m)) (entries m).

Fixpoint notify_active (n : CompositeNode) (store : ViewStore) : ViewStore :=
  match n with
  | mkCompositeNode views reductions kids =>
      let s1 := foldl (fun st (it : N * FieldMask) => add_nested_gc_ref it.1 st)
                      store (from_begin views) in
      let s2 := foldl (fun st (it : N * FieldMask) => add_nested_gc_ref it.1 st)
                      s1 (from_begin reductions) in
      (fix walk (l : list (CompositeNode * FieldMask)) (st : ViewStore) : ViewStore :=
         match l with
         | [] => st
         | it :: l' => walk l' (notify_active it.1 st)
         end) kids s2
  end.

Fixpoint notify_inactive (n : CompositeNode) (store : ViewStore) : ViewStore :=
  match n with
  | mkCompositeNode views reductions kids =>
      let s1 := foldl (fun st (it : N * FieldMask) => remove_nested_gc_ref it.1 st)
                      store (from_end views) in
      let s2 := foldl (fun st (it : N * FieldMask) => remove_nested_gc_ref it.1 st)
                      s1 (from_begin reductions) in
      (fix walk (l : list (CompositeNode * FieldMask)) (st : ViewStore) : ViewStore :=
         match l with
         | [] => st
         | it :: l' => walk l' (notify_inactive it.1 st)
         end) kids s2
  end.

Fixpoint notify_valid (n : CompositeNode) (store : ViewStore) : ViewStore :=
  match n with
  | mkCompositeNode views reductions kids =>
      let s1 := foldl (fun st (it : N * FieldMask) => add_nested_valid_ref it.1 st)
                      store (from_begin views) in
      let s2 := foldl (fun st (it : N * FieldMask) => add_nested_valid_ref it.1 st)
                      s1 (from_begin reductions) in
      (fix walk (l : list (CompositeNode * FieldMask)) (st : ViewStore) : ViewStore :=
         match l with
         | [] => st
         | it :: l' => walk l' (notify_valid it.1 st)
         end) kids s2
  end.

Fixpoint notify_invalid (n : CompositeNode) (store : ViewStore) : ViewStore :=
  match n with
  | mkCompositeNode views reductions kids =>
      let s1 := foldl (fun st (it : N * FieldMask) => add_nested_valid_ref it.1 st)
                      store (from_end views) in
      let s2 := foldl (fun st (it : N * FieldMask) => add_nested_valid_ref it.1 st)
                      s1 (from_begin reductions) in
      (fix walk (l : list (CompositeNode * FieldMask)) (st : ViewStore) : ViewStore :=
         match l with
         | [] => st
         | it :: l' => walk l' (notify_invalid it.1 st)
         end) kids s2
  end.

(** ** Remote updates of a materialized view

    A [Serializer] is a byte buffer that is written and read back field
    by field; it is modelled as the list of the fields written, and a
    read that meets a field of another type fails.  [int] and [unsigned]
    are 32 bits wide. *)

Inductive Token :=
  | TBool (b : bool)
  | THandle (handle : N)
  | TDid (did : N)
  | TSize (n : N)
  | TUnsigned (n : N)
  | TInt (i : Z)
  | TEvent (e : Event)
  | TMask (mask : FieldMask)
  | TUser (record : PhysicalUser).

(** The value an [int] holds after an assignment or a decrement. *)
Definition to_int (z : Z) : Z := ((z + 2 ^ 31) mod 2 ^ 32 - 2 ^ 31)%Z.

(** The value an [unsigned] holds after an increment. *)
Definition to_unsigned (n : N) : N := n mod 2 ^ 32.

(** [needed_users], a [std::map<PhysicalUser*,int>], and the heap in
    which the references of the users are counted. *)
Record Packer := mkPacker {
  needed_users : gmap N (PhysicalUser * Z);
  pack_heap : UserHeap
}.

(** What the walk of the current epoch does for a user: the index is
    the size of the table, and the entry of the user is assigned without
    a lookup. *)
Definition pack_current_user (user : N * PhysicalUser) (p : Packer) : Z * Packer :=
  let index := to_int (Z.of_nat (size (needed_users p))) in
  (index, mkPacker (<[user.1 := (user.2, index)]> (needed_users p))
                   (add_reference user.1 (pack_heap p))).

(** What the walk of the previous epoch does: the user is looked up
    first. *)
Definition pack_previous_user (user : N * PhysicalUser) (p : Packer) : Z * Packer :=
  match needed_users p !! user.1 with
  | None =>
      let index := to_int (Z.of_nat (size (needed_users p))) in
      (index, mkPacker (<[user.1 := (user.2, index)]> (needed_users p))
                       (add_reference user.1 (pack_heap p)))
  | Some finder => (finder.2, p)
  end.

(** One user of a map of users: [count], [event_rez] and the packer. *)
Definition pack_multi_user (pack_index : N * PhysicalUser -> Packer -> Z * Packer)
    (overlap : FieldMask) (it : N * (PhysicalUser * FieldMask))
    (acc : Z * list Token * Packer) : Z * list Token * Packer :=
  let '(count, event_rez, p) := acc in
  let overlap2 := it.2.2 &&& overlap in
  if Mask.is_empty overlap2 then acc
  else
    let '(index, p') := pack_index (it.1, it.2.1) p in
    (to_int (count - 1), event_rez ++ [TInt index; TMask overlap2], p').

(** One event of an epoch table: the number of events written so far,
    the buffer of the epoch and the packer. *)
Definition pack_event (pack_index : N * PhysicalUser -> Packer -> Z * Packer)
    (update_mask : FieldMask) (it : Event * EventUsers)
    (acc : N * list Token * Packer) : N * list Token * Packer :=
  let '(events, rez, p) := acc in
  let overlap := user_mask it.2 &&& update_mask in
  if Mask.is_empty overlap then acc
  else
    match users it.2 with
    | single_user user =>
        let '(index, p') := pack_index user p in
        (to_unsigned (events + 1),
         rez ++ [TEvent it.1; TInt index; TMask overlap], p')
    | multi_users m =>
        let '(count, event_rez, p') :=
          foldl (fun acc it => pack_multi_user pack_index overlap it acc)
                ((-1)%Z, [], p) (entries m) in
        (to_unsigned (events + 1),
         rez ++ [TEvent it.1]
             ++ (if (count =? -1)%Z || (count <? -2)%Z then [TInt count] else [])
             ++ event_rez,
         p')
    end.

(** Modelled from the spec: [PhysicalUser::pack_user] is not in this
    file.  What it writes is read back by [unpack_user] as the record of
    the user: its usage, child and versions. *)
Definition pack_user (record : PhysicalUser) : list Token := [TUser record].

(** The table of users that opens the message: index and packed user,
    in the order of the addresses; the reference taken for the table is
    given back. *)
Definition pack_needed (it : N * (PhysicalUser * Z))
    (acc : list Token * UserHeap) : list Token * UserHeap :=
  (acc.1 ++ [TInt it.2.2] ++ pack_user it.2.1, release_user it.1 acc.2).

Definition send_view_updates (is_region : bool) (handle did : N)
    (update_mask : FieldMask) (s : MaterializedState)
    : list Token * MaterializedState :=
  let '(current_events, current_rez, p1) :=
    foldl (fun acc it => pack_event pack_current_user update_mask it acc)
          (0, [], mkPacker ∅ (heap s)) (entries (current_epoch_users s)) in
  let '(previous_events, previous_rez, p2) :=
    foldl (fun acc it => pack_event pack_previous_user update_mask it acc)
          (0, [], p1) (entries (previous_epoch_users s)) in
  let '(table, h) :=
    foldl (fun acc it => pack_needed it acc) ([], pack_heap p2)
          (entries (needed_users p2)) in
  ([TBool is_region; THandle handle; TDid did]
     ++ [TSize (N.of_nat (size (needed_users p2)))] ++ table
     ++ [TUnsigned current_events] ++ current_rez
     ++ [TUnsigned previous_events] ++ previous_rez,
   set_heap (fun _ => h) s).

(** *** The receiver *)

Definition read_bool (derez : list Token) : option (bool * list Token) :=
  match derez with TBool b :: rest => Some (b, rest) | _ => None end.
Definition read_handle (derez : list Token) : option (N * list Token) :=
  match derez with THandle h :: rest => Some (h, rest) | _ => None end.
Definition read_did (derez : list Token) : option (N * list Token) :=
  match derez with TDid d :: rest => Some (d, rest) | _ => None end.
Definition read_size (derez : list Token) : option (N * list Token) :=
  match derez with TSize n :: rest => Some (n, rest) | _ => None end.
Definition read_unsigned (derez : list Token) : option (N * list Token) :=
  match derez with TUnsigned n :: rest => Some (n, rest) | _ => None end.
Definition read_int (derez : list Token) : option (Z * list Token) :=
  match derez with TInt i :: rest => Some (i, rest) | _ => None end.
Definition read_event (derez : list Token) : option (Event * list Token) :=
  match derez with TEvent e :: rest => Some (e, rest) | _ => None end.
Definition read_mask (derez : list Token) : option (FieldMask * list Token) :=
  match derez with TMask m :: rest => Some (m, rest) | _ => None end.
Definition read_user (derez : list Token) : option (PhysicalUser * list Token) :=
  match derez with TUser u :: rest => Some (u, rest) | _ => None end.

(** Modelled from the spec: [PhysicalUser::unpack_user] is not in this
    file.  It makes a new user with the record that was packed and, as
    it is called with [add_reference] set, one reference. *)
Definition unpack_user (record : PhysicalUser) (h : UserHeap)
    : (N * PhysicalUser) * UserHeap :=
  let '(user, h') := legion_new (usage record) (child record) (versions record) h in
  (user, add_reference user.1 h').

(** [users[index] = unpack_user(...)], [num_users] times.  A slot of
    the vector that is not assigned holds no user; an index outside the
    vector is an error. *)
Fixpoint unpack_users (num_users : nat) (derez : list Token)
    (users : list (option (N * PhysicalUser))) (h : UserHeap)
    : option (list (option (N * PhysicalUser)) * UserHeap * list Token) :=
  match num_users with
  | O => Some (users, h, derez)
  | S n =>
      '(index, derez) ← read_int derez;
      '(record, derez) ← read_user derez;
      if (0 <=? index)%Z && (index <? Z.of_nat (length users))%Z then
        let '(user, h') := unpack_user record h in
        unpack_users n derez (<[Z.to_nat index := Some user]> users) h'
      else None
  end.

Record Update := mkUpdate {
  update_users : list (option (N * PhysicalUser));
  need_reference : list bool;
  collect_events : list Event;
  update_state : MaterializedState
}.

(** The four lines that follow the reading of an index and a mask. *)
Definition install_user
    (add : N * PhysicalUser -> Event -> FieldMask -> MaterializedState -> MaterializedState)
    (index : Z) (event : Event) (mask : FieldMask) (u : Update) : option Update :=
  if (0 <=? index)%Z then
    match update_users u !! Z.to_nat index with
    | Some (Some user) =>
        let s :=
          if default false (need_reference u !! Z.to_nat index)
          then set_heap (add_reference user.1) (update_state u)
          else update_state u in
        Some (mkUpdate (update_users u)
                       (<[Z.to_nat index := true]> (need_reference u))
                       (collect_events u) (add user event mask s))
    | _ => None
    end
  else None.

Fixpoint install_entries
    (add : N * PhysicalUser -> Event -> FieldMask -> MaterializedState -> MaterializedState)
    (count : nat) (event : Event) (derez : list Token) (u : Update)
    : option (Update * list Token) :=
  match count with
  | O => Some (u, derez)
  | S n =>
      '(index, derez) ← read_int derez;
      '(mask, derez) ← read_mask derez;
      u' ← install_user add index event mask u;
      install_entries add n event derez u'
  end.

Definition note_event (event : Event) (u : Update) : Update :=
  if decide (event ∈ outstanding_gc_events (update_state u)) then u
  else mkUpdate (update_users u) (need_reference u)
                (collect_events u ++ [event])
                (set_gc (fun gc => {[event]} ∪ gc) (update_state u)).

Definition install_event
    (add : N * PhysicalUser -> Event -> FieldMask -> MaterializedState -> MaterializedState)
    (derez : list Token) (u : Update) : option (Update * list Token) :=
  '(event, derez) ← read_event derez;
  '(index, derez) ← read_int derez;
  '(u', derez) ←
    (if (index <? 0)%Z then
       let count := to_int (to_int (- index) - 1) in
       install_entries add (Z.to_nat count) event derez u
     else
       '(mask, derez) ← read_mask derez;
       u' ← install_user add index event mask u;
       Some (u', derez));
  Some (note_event event u', derez).

Fixpoint install_events
    (add : N * PhysicalUser -> Event -> FieldMask -> MaterializedState -> MaterializedState)
    (num_events : nat) (derez : list Token) (u : Update)
    : option (Update * list Token) :=
  match num_events with
  | O => Some (u, derez)
  | S n =>
      '(u', derez) ← install_event add derez u;
      install_events add n derez u'
  end.

(** [process_update] gives the state of the view and [collect_events],
    the events for which a deferred collection is launched and which
    the parent is told of.  The users are unpacked by a loop whose index
    is an [unsigned] and whose bound is a [size_t]: with a bound of
    [2 ^ 32] or more the index wraps before it reaches the bound and
    there is no result. *)
Definition process_update (derez : list Token) (s : MaterializedState)
    : option (MaterializedState * list Event) :=
  '(num_users, derez) ← read_size derez;
  if 2 ^ 32 <=? num_users then None
  else
    '(users, h, derez) ←
      unpack_users (N.to_nat num_users) derez
                   (replicate (N.to_nat num_users) None) (heap s);
    let u := mkUpdate users (replicate (N.to_nat num_users) false) []
                      (set_heap (fun _ => h) s) in
    '(num_current, derez) ← read_unsigned derez;
    '(u, derez) ← install_events add_current_user (N.to_nat num_current) derez u;
    '(num_previous, derez) ← read_unsigned derez;
    '(u, derez) ← install_events add_previous_user (N.to_nat num_previous) derez u;
    Some (update_state u, collect_events u).

(** [handle_send_update] reads the head of the message, finds the view
    and hands it the rest. *)
Definition handle_send_update (derez : list Token) (s : MaterializedState)
    : option (MaterializedState * list Event) :=
  '(is_region, derez) ← read_bool derez;
  '(handle, derez) ← read_handle derez;
  '(did, derez) ← read_did derez;
  process_update derez s.

Definition update_gc_events (gc_events : list Event)
    (s : MaterializedState) : MaterializedState :=
  foldl (fun s e => set_gc (fun gc => {[e]} ∪ gc) s) s gc_events.

(** ** Remote updates of a reduction view: the receiver

    The message carries the users of the reducers, then those of the
    readers, and for each event the number of its users and their
    masks; the users are taken one after the other as the masks are
    read. *)

(** [red_users[idx] = unpack_user(...)], [num_users] times. *)
Fixpoint red_unpack_users (num_users : nat) (derez : list Token)
    (users : list (N * PhysicalUser)) (h : UserHeap)
    : option (list (N * PhysicalUser) * UserHeap * list Token) :=
  match num_users with
  | O => Some (users, h, derez)
  | S n =>
      '(record, derez) ← read_user derez;
      let '(user, h') := unpack_user record h in
      red_unpack_users n derez (users ++ [user]) h'
  end.

(** [reduction_index] or [reading_index], [collect_events] and the
    state of the view. *)
Record RedUpdate := mkRedUpdate {
  red_index : N;
  red_collect_events : list Event;
  red_update_state : ReductionState
}.

(** [add_physical_user(users[index++], reading, event, user_mask)],
    [count] times; an index outside the vector is an error. *)
Fixpoint red_install_entries (reading : bool) (users : list (N * PhysicalUser))
    (count : nat) (event : Event) (derez : list Token) (u : RedUpdate)
    : option (RedUpdate * list Token) :=
  match count with
  | O => Some (u, derez)
  | S n =>
      '(mask, derez) ← read_mask derez;
      user ← users !! N.to_nat (red_index u);
      red_install_entries reading users n event derez
        (mkRedUpdate (to_unsigned (red_index u + 1)) (red_collect_events u)
           (add_physical_user user reading event mask (red_update_state u)))
  end.

Definition red_note_event (event : Event) (u : RedUpdate) : RedUpdate :=
  let s := red_update_state u in
  if decide (event ∈ red_outstanding_gc_events s) then u
  else mkRedUpdate (red_index u) (red_collect_events u ++ [event])
         (mkRedState (reduction_users s) (reading_users s)
            ({[event]} ∪ red_outstanding_gc_events s)
            (red_initial_user_events s) (red_heap s)).

(** The loop over the users of an event has an [unsigned] index and a
    [size_t] bound, as the loop that unpacks the users. *)
Definition red_install_event (reading : bool) (users : list (N * PhysicalUser))
    (derez : list Token) (u : RedUpdate) : option (RedUpdate * list Token) :=
  '(event, derez) ← read_event derez;
  '(num_users, derez) ← read_size derez;
  if 2 ^ 32 <=? num_users then None
  else
    '(u', derez) ← red_install_entries reading users (N.to_nat num_users) event derez u;
    Some (red_note_event event u', derez).

Fixpoint red_install_events (reading : bool) (users : list (N * PhysicalUser))
    (num_events : nat) (derez : list Token) (u : RedUpdate)
    : option (RedUpdate * list Token) :=
  match num_events with
  | O => Some (u, derez)
  | S n =>
      '(u', derez) ← red_install_event reading users derez u;
      red_install_events reading users n derez u'
  end.

Definition red_process_update (derez : list Token) (s : ReductionState)
    : option (ReductionState * list Event) :=
  '(num_reduction_users, derez) ← read_size derez;
  if 2 ^ 32 <=? num_reduction_users then None
  else
    '(red_users, h, derez) ←
      red_unpack_users (N.to_nat num_reduction_users) derez [] (red_heap s);
    '(num_reading_users, derez) ← read_size derez;
    if 2 ^ 32 <=? num_reading_users then None
    else
      '(read_users, h, derez) ←
        red_unpack_users (N.to_nat num_reading_users) derez [] h;
      let s0 := mkRedState (reduction_users s) (reading_users s)
                  (red_outstanding_gc_events s) (red_initial_user_events s) h in
      '(num_reduction_events, derez) ← read_unsigned derez;
      '(u, derez) ←
        red_install_events false red_users (N.to_nat num_reduction_events) derez
          (mkRedUpdate 0 [] s0);
      '(num_reading_events, derez) ← read_unsigned derez;
      '(u, derez) ←
        red_install_events true read_users (N.to_nat num_reading_events) derez
          (mkRedUpdate 0 (red_collect_events u) (red_update_state u));
      Some (red_update_state u, red_collect_events u).

Definition red_handle_send_update (derez : list Token) (s : ReductionState)
    : option (ReductionState * list Event) :=
  '(handle, derez) ← read_handle derez;
  '(did, derez) ← read_did derez;
  red_process_update derez s.

(** ** Vocabulary of the properties *)

(** A dependence type that makes the caller wait. *)
Definition is_dependence (dt : DependenceType) : bool :=
  match dt with
  | TRUE_DEPENDENCE | ANTI_DEPENDENCE => true
  | NO_DEPENDENCE | ATOMIC_DEPENDENCE | SIMULTANEOUS_DEPENDENCE => false
  end.

(** The same-child and disjoint-children rules. *)
Definition cut_off (logical_node : RegionTreeNode) (child_color : ColorPoint)
    (prev_user : PhysicalUser) : bool :=
  same_child child_color prev_user ||
  disjoint_children logical_node child_color prev_user.

(** Versions are recorded only for read-only users: what [new_user]
    establishes for every user a view creates. *)
Definition versions_only_if_read_only `{Analysis} (user : PhysicalUser) : Prop :=
  versions user <> None -> IS_READ_ONLY (usage user) = true.

(** An instance of the interface to run the analyzers on: read-only and
    reduce are the privileges of that name; two readers, and two
    reducers with the same operator, do not depend on each other, a
    write after a read is an anti-dependence and everything else a true
    dependence. *)
Definition sample_analysis : Analysis := {|
  IS_READ_ONLY u := bool_decide (privilege u = READ_ONLY);
  IS_REDUCE u := bool_decide (privilege u = REDUCE);
  check_dependence_type u1 u2 :=
    if bool_decide (privilege u1 = READ_ONLY) && bool_decide (privilege u2 = READ_ONLY)
    then NO_DEPENDENCE
    else if bool_decide (privilege u1 = REDUCE) && bool_decide (privilege u2 = REDUCE)
            && N.eqb (redop u1) (redop u2)
    then NO_DEPENDENCE
    else if bool_decide (privilege u1 = READ_ONLY) then ANTI_DEPENDENCE
    else TRUE_DEPENDENCE
|}.

Definition sample_node : RegionTreeNode := mkNode 0 None (fun _ _ => false).
Definition read_write : RegionUsage := mkUsage READ_WRITE EXCLUSIVE 0.
Definition read_only : RegionUsage := mkUsage READ_ONLY EXCLUSIVE 0.

(** The masks a bucket records, one per user, and their union. *)
Definition recorded_masks (eu : EventUsers) : list FieldMask :=
  match users eu with
  | single_user _ => [user_mask eu]
  | multi_users m => (fun kv : N * (PhysicalUser * FieldMask) => kv.2.2) <$> entries m
  end.

Definition union_of (l : list FieldMask) : FieldMask := foldr Mask.union Mask.empty l.

(** The invariant of a bucket: the summary mask is the union of the
    masks of its users. *)
Definition summary_is_union (eu : EventUsers) : Prop :=
  user_mask eu = union_of (recorded_masks eu).

Definition table_summaries (table : gmap Event EventUsers) : Prop :=
  forall e eu, table !! e = Some eu -> summary_is_union eu.

(** Some user of the bucket is recorded with a field of [mask]. *)
Definition overlaps_request (mask : FieldMask) (eu : EventUsers) : bool :=
  existsb (fun m => negb (Mask.is_empty (mask &&& m))) (recorded_masks eu).

(** A precondition map that holds at least what another one holds. *)
Definition covers (pre pre' : gmap Event FieldMask) : Prop :=
  forall e m, pre !! e = Some m ->
    exists m', pre' !! e = Some m' /\ Mask.subseteq m m'.

(** A composite node with one valid view (at address 10) and one
    reduction view (at address 20), and no children. *)
Definition sample_composite_node : CompositeNode :=
  mkCompositeNode {[10 := 1]} {[20 := 1]} [].

Definition empty_state : MaterializedState :=
  mkState ∅ ∅ ∅ ∅ (mkHeap ∅ 0).

Definition empty_red_state : ReductionState :=
  mkRedState ∅ ∅ ∅ ∅ (mkHeap ∅ 0).

(** A reduction view with one reducer, recorded under event 1 on the
    first field. *)
Definition one_reducer : ReductionState :=
  mkRedState {[1 := mkEventUsers 1 (single_user (0, mkUser (mkUsage REDUCE EXCLUSIVE 3) None None))]}
             ∅ {[1]} ∅ (mkHeap {[0 := 0%nat]} 1).

(** Every event of the epoch tables has a collection pending. *)
Definition gc_covers (s : MaterializedState) : Prop :=
  dom (current_epoch_users s) ∪ dom (previous_epoch_users s)
    ⊆ outstanding_gc_events s.

Definition red_gc_covers (s : ReductionState) : Prop :=
  dom (reduction_users s) ∪ dom (reading_users s) ⊆ red_outstanding_gc_events s.

(** The users a table holds under an event, in the order of the bucket. *)
Definition bucket_users (eu : EventUsers) : list N :=
  match users eu with
  | single_user u => [u.1]
  | multi_users m => (fun kv : N * (PhysicalUser * FieldMask) => kv.1) <$> entries m
  end.

Definition users_under (table : gmap Event EventUsers) (e : Event) : list N :=
  match table !! e with
  | Some eu => bucket_users eu
  | None => []
  end.

(** One reference released per listed user, the user deleted with its
    last reference. *)
Definition release_all (l : list N) (h : UserHeap) : UserHeap :=
  foldl (fun h u => release_user u h) h l.

Definition delete_all (l : list N) (h : UserHeap) : UserHeap :=
  foldl (fun h u => legion_delete u h) h l.

(** A materialized view with a user under event 1 in the current epoch
    and one under event 2 in the previous epoch. *)
Definition two_epochs : MaterializedState :=
  mkState {[1 := mkEventUsers 1 (single_user (0, mkUser read_write None None))]}
          {[2 := mkEventUsers 1 (single_user (1, mkUser read_write None None))]}
          {[1; 2]} ∅ (mkHeap {[0 := 1%nat; 1 := 1%nat]} 2).

(** The previous-epoch events the task path looks at: not triggered,
    not the caller's own event, not yet a precondition.  The copy path
    looks at every event that has not triggered. *)
Definition examined_task (has_triggered : Event -> bool) (term_event : Event)
    (pre : gset Event) (e : Event) : bool :=
  negb (has_triggered e) && negb (N.eqb e term_event) && bool_decide (e ∉ pre).

Definition examined_copy (has_triggered : Event -> bool) (e : Event) : bool :=
  negb (has_triggered e).

(** The fields of a previous-epoch bucket that the dominated mask
    supersedes, if any. *)
Definition superseded (dominated : FieldMask) (eu : EventUsers) : option FieldMask :=
  if negb (Mask.is_empty dominated) &&
     negb (Mask.is_empty (user_mask eu &&& dominated))
  then Some (user_mask eu &&& dominated) else None.

(** The reading of the skip rule under which the whole previous-epoch
    pass, the building of [filter_previous] included, is left out when
    no field is non-dominated; stated for the task path and for the copy
    path. *)
Definition previous_pass_left_out `{Analysis} : Prop :=
  forall has_triggered node usage term_event child_color mask pre s
         redop reading versions cpre,
    let ta := task_analysis has_triggered node usage term_event child_color
                mask pre s in
    let ca := copy_analysis has_triggered node redop reading mask child_color
                versions cpre s in
    (ta_non_dominated ta = 0 ->
       ta_preconditions ta = ta_current_preconditions ta /\
       ta_filter_previous ta = ∅) /\
    (ta_skip_analysis ta = true ->
       ta_preconditions ta = ta_current_preconditions ta /\
       ta_filter_previous ta = ∅) /\
    (ca_non_dominated ca = 0 ->
       ca_preconditions ca = ca_current_preconditions ca /\
       ca_filter_previous ca = ∅) /\
    (ca_skip_analysis ca = true ->
       ca_preconditions ca = ca_current_preconditions ca /\
       ca_filter_previous ca = ∅).

(** The skip rule as the code has it, on both paths: the flag is set
    when the request mask has no field outside [dominated]; no
    precondition then comes from the previous epoch; and each examined
    previous-epoch event whose summary meets [dominated] gets its entry
    in [filter_previous] all the same. *)
Definition skip_rule_task `{Analysis} (has_triggered : Event -> bool)
    (term_event : Event) (mask : FieldMask) (s : MaterializedState)
    (ta : TaskAnalysis) : Prop :=
  ta_dominated ta = ta_observed ta &&& (mask \\\ ta_non_dominated ta) /\
  ta_skip_analysis ta = Mask.is_empty (mask \\\ ta_dominated ta) /\
  (ta_skip_analysis ta = true ->
     ta_preconditions ta = ta_current_preconditions ta) /\
  (forall e,
     ta_filter_previous ta !! e =
       match previous_epoch_users s !! e with
       | Some eu =>
           if examined_task has_triggered term_event (ta_current_preconditions ta) e
           then superseded (ta_dominated ta) eu else None
       | None => None
       end).

Definition skip_rule_copy `{Analysis} (has_triggered : Event -> bool)
    (mask : FieldMask) (s : MaterializedState) (ca : CopyAnalysis) : Prop :=
  ca_dominated ca = ca_observed ca &&& (mask \\\ ca_non_dominated ca) /\
  ca_skip_analysis ca = Mask.is_empty (mask \\\ ca_dominated ca) /\
  (ca_skip_analysis ca = true ->
     ca_preconditions ca = ca_current_preconditions ca) /\
  (forall e,
     ca_filter_previous ca !! e =
       match previous_epoch_users s !! e with
       | Some eu =>
           if examined_copy has_triggered e
           then superseded (ca_dominated ca) eu else None
       | None => None
       end).

(** The mask a user map holds for an address, none read as empty. *)
Definition mask_at (m : UserMap) (a : N) : FieldMask :=
  match m !! a with Some um => um.2 | None => Mask.empty end.

(** The fields a bucket records for the user at an address, and the
    same for the bucket found under an event, if any. *)
Definition bucket_fields (eu : EventUsers) (a : N) : FieldMask :=
  match users eu with
  | single_user u => if decide (a = u.1) then user_mask eu else Mask.empty
  | multi_users m => mask_at m a
  end.

Definition fields_of (o : option EventUsers) (a : N) : FieldMask :=
  match o with Some eu => bucket_fields eu a | None => Mask.empty end.

Definition summary_of (o : option EventUsers) : FieldMask :=
  match o with Some eu => user_mask eu | None => Mask.empty end.

(** The addresses of the users of a bucket. *)
Definition bucket_addrs (eu : EventUsers) : gset N :=
  match users eu with
  | single_user u => {[u.1]}
  | multi_users m => dom m
  end.

Definition addrs_of (o : option EventUsers) : gset N :=
  match o with Some eu => bucket_addrs eu | None => ∅ end.

(** What one step of the walk of [filter_current_users] does to the
    entries of an event [e]: nothing; or, for an event that has
    triggered, a mark for deletion; or the move of the dominated fields
    of the bucket [eu] found in the current epoch. *)
Definition untouched (r acc : MaterializedState * list Event) (e : Event) : Prop :=
  current_epoch_users r.1 !! e = current_epoch_users acc.1 !! e /\
  previous_epoch_users r.1 !! e = previous_epoch_users acc.1 !! e /\
  (e ∈ r.2 <-> e ∈ acc.2).

Definition marked (r acc : MaterializedState * list Event) (e : Event) : Prop :=
  current_epoch_users r.1 !! e = current_epoch_users acc.1 !! e /\
  previous_epoch_users r.1 !! e = previous_epoch_users acc.1 !! e /\
  e ∈ r.2.

Definition moved (dominated : FieldMask) (eu : EventUsers)
    (r acc : MaterializedState * list Event) (e : Event) : Prop :=
  exists h,
    let so := user_mask eu &&& dominated in
    let m := move_bucket eu (user_mask eu \\\ so) so
               (previous_epoch_users acc.1 !! e) h in
    current_epoch_users r.1 !! e = Some m.1.1.1 /\
    previous_epoch_users r.1 !! e = Some m.1.1.2 /\
    (e ∈ r.2 <-> e ∈ acc.2 \/ m.2 = true).

Definition walked (has_triggered : Event -> bool) (dominated : FieldMask)
    (eu : EventUsers) (r acc : MaterializedState * list Event) (e : Event) : Prop :=
  if has_triggered e then marked r acc e
  else if Mask.is_empty (user_mask eu &&& dominated) then untouched r acc e
  else moved dominated eu r acc e.

(** The fields of the user at [a] under event [e] that lie in
    [dominated] have moved from the current epoch of [s] to the previous
    epoch of [s']; and the event is gone from the current epoch exactly
    when it was not there or its summary lost all its fields. *)
Definition migrated (dominated : FieldMask) (s s' : MaterializedState)
    (e : Event) (a : N) : Prop :=
  fields_of (current_epoch_users s' !! e) a
    = fields_of (current_epoch_users s !! e) a \\\ dominated /\
  Mask.subseteq (fields_of (current_epoch_users s !! e) a &&& dominated)
                (fields_of (previous_epoch_users s' !! e) a).

Definition erased (dominated : FieldMask) (s s' : MaterializedState)
    (e : Event) : Prop :=
  current_epoch_users s' !! e = None <->
  current_epoch_users s !! e = None \/
  (summary_of (current_epoch_users s !! e) &&& dominated <> 0 /\
   summary_of (current_epoch_users s !! e) \\\ dominated = 0).

(** The dominated mask the copy path computes. *)
Definition copy_dominated `{Analysis} (has_triggered : Event -> bool)
    (logical_node : RegionTreeNode) (redop : ReductionOpID) (reading : bool)
    (copy_mask : FieldMask) (child_color : ColorPoint) (version_info : VersionInfo)
    (pre : gmap Event FieldMask) (s : MaterializedState) : FieldMask :=
  ca_dominated
    (copy_analysis has_triggered logical_node redop reading copy_mask child_color
       (if is_valid child_color then None else get_versions version_info logical_node)
       pre s).

(** Modelled from the spec: the reading under which the fields in
    [dominated] of every current-epoch user, whatever its event, are
    found in the previous epoch after the copy-path analyzer. *)
Definition every_user_migrates `{Analysis} : Prop :=
  forall has_triggered has_triggered' node redop reading mask child_color version_info
    pre s e a, table_summaries (current_epoch_users s) -> gc_covers s ->
    migrated
      (copy_dominated has_triggered node redop reading mask child_color
         version_info pre s)
      s
      (find_local_copy_preconditions has_triggered has_triggered' node redop reading mask
         child_color version_info pre s).2
      e a.

(** Two writers of the first field in the current epoch, under events
    1 and 2. *)
Definition two_writers : MaterializedState :=
  mkState {[1 := mkEventUsers 1 (single_user (0, mkUser read_write None None));
            2 := mkEventUsers 1 (single_user (1, mkUser read_write None None))]}
          ∅ {[1; 2]} ∅ (mkHeap {[0 := 1%nat; 1 := 1%nat]} 2).

(** *** Remote updates

    What an update for [update_mask] carries of a table: the events
    whose summary overlaps the mask, in the order of the table, and for
    each the users that overlap, with the overlapping fields. *)
Fixpoint overlapping (overlap : FieldMask) (l : list (N * (PhysicalUser * FieldMask)))
    : list (N * FieldMask) :=
  match l with
  | [] => []
  | it :: l' =>
      if Mask.is_empty (it.2.2 &&& overlap) then overlapping overlap l'
      else (it.1, it.2.2 &&& overlap) :: overlapping overlap l'
  end.

Definition carried_users (update_mask : FieldMask) (eu : EventUsers)
    : list (N * FieldMask) :=
  let overlap := user_mask eu &&& update_mask in
  match users eu with
  | single_user user => [(user.1, overlap)]
  | multi_users m => overlapping overlap (entries m)
  end.

Fixpoint carried_events (update_mask : FieldMask) (l : list (Event * EventUsers))
    : list (Event * list (N * FieldMask)) :=
  match l with
  | [] => []
  | it :: l' =>
      if Mask.is_empty (user_mask it.2 &&& update_mask)
      then carried_events update_mask l'
      else (it.1, carried_users update_mask it.2) :: carried_events update_mask l'
  end.

Definition carried (update_mask : FieldMask) (table : gmap Event EventUsers)
    : list (Event * list (N * FieldMask)) :=
  carried_events update_mask (entries table).

(** The addresses of the users carried, with repetitions. *)
Definition carried_addrs (ups : list (Event * list (N * FieldMask))) : list N :=
  flat_map (fun ev => ev.2.*1) ups.

(** The number of events and of user entries of an update. *)
Definition update_load (ups : list (Event * list (N * FieldMask))) : nat :=
  length ups + length (carried_addrs ups).

(** The wire format as the design states it: an entry is an index and
    a mask; a block of exactly one entry is written bare, any other
    block of [n] entries follows the count [-(n+1)]. *)
Definition encode_user (idx : N -> Z) (u : N * FieldMask) : list Token :=
  [TInt (idx u.1); TMask u.2].

Definition encode_block (idx : N -> Z) (l : list (N * FieldMask)) : list Token :=
  match l with
  | [u] => encode_user idx u
  | _ => TInt (- (Z.of_nat (length l) + 1)) :: flat_map (encode_user idx) l
  end.

Definition encode_events (idx : N -> Z) (ups : list (Event * list (N * FieldMask)))
    : list Token :=
  flat_map (fun ev => TEvent ev.1 :: encode_block idx ev.2) ups.

Definition encode_table (table : list (N * (PhysicalUser * Z))) : list Token :=
  flat_map (fun it => [TInt it.2.2; TUser it.2.1]) table.

Definition message (is_region : bool) (handle did : N) (idx : N -> Z)
    (table : list (N * (PhysicalUser * Z)))
    (current previous : list (Event * list (N * FieldMask))) : list Token :=
  [TBool is_region; THandle handle; TDid did]
    ++ [TSize (N.of_nat (length table))] ++ encode_table table
    ++ [TUnsigned (N.of_nat (length current))] ++ encode_events idx current
    ++ [TUnsigned (N.of_nat (length previous))] ++ encode_events idx previous.

(** The same update applied with the primitives of the tables, where
    [copy] gives the receiver's user for the address of a sender's
    user. *)
Definition install
    (add : N * PhysicalUser -> Event -> FieldMask -> MaterializedState -> MaterializedState)
    (copy : N -> N * PhysicalUser) (ev : Event * list (N * FieldMask))
    (r : MaterializedState) : MaterializedState :=
  set_gc (fun gc => {[ev.1]} ∪ gc)
         (foldl (fun r u => add (copy u.1) ev.1 u.2 r) r ev.2).

Definition apply_locally (copy : N -> N * PhysicalUser)
    (current previous : list (Event * list (N * FieldMask)))
    (r : MaterializedState) : MaterializedState :=
  foldl (fun r ev => install add_previous_user copy ev r)
        (foldl (fun r ev => install add_current_user copy ev r) r current)
        previous.

(** Two states with the same tables and the same events to collect. *)
Definition same_tables (r r' : MaterializedState) : Prop :=
  current_epoch_users r = current_epoch_users r' /\
  previous_epoch_users r = previous_epoch_users r' /\
  outstanding_gc_events r = outstanding_gc_events r'.

(** Every user of the two tables is a record that [store] has at its
    address. *)
Definition bucket_stored (store : N -> PhysicalUser -> Prop) (eu : EventUsers) : Prop :=
  match users eu with
  | single_user user => store user.1 user.2
  | multi_users m => forall a um, m !! a = Some um -> store a um.1
  end.

Definition stored_at (store : N -> PhysicalUser -> Prop) (s : MaterializedState) : Prop :=
  (forall e eu, current_epoch_users s !! e = Some eu -> bucket_stored store eu) /\
  (forall e eu, previous_epoch_users s !! e = Some eu -> bucket_stored store eu).

(** The table of needed users: what it records of each user, and the
    index it gives. *)
Definition indexed (store : N -> PhysicalUser -> Prop) (p : Packer) : Prop :=
  forall a record i, needed_users p !! a = Some (record, i) ->
    store a record /\
    (0 <= i < Z.of_nat (size (needed_users p)))%Z /\
    forall b record', needed_users p !! b = Some (record', i) -> b = a.

Definition index_in (p : Packer) (a : N) : Z :=
  match needed_users p !! a with Some finder => finder.2 | None => 0%Z end.

(** The receiver finds, at the index of each user at [addrs], the copy
    of that user. *)
Definition resolves (idx : N -> Z) (copy : N -> N * PhysicalUser)
    (users : list (option (N * PhysicalUser))) (addrs : list N) : Prop :=
  forall a, a ∈ addrs ->
    (0 <= idx a)%Z /\ users !! Z.to_nat (idx a) = Some (Some (copy a)).

(** The user the receiver holds for the sender's user at [a]. *)
Definition copy_of (idx : N -> Z) (users : list (option (N * PhysicalUser)))
    (a : N) : N * PhysicalUser :=
  match users !! Z.to_nat (idx a) with
  | Some (Some user) => user
  | _ => (0, mkUser (mkUsage NO_ACCESS EXCLUSIVE 0) None None)
  end.

(** The users that [send_view_updates] finds while it walks the current
    epoch are found once. *)
Definition fresh_for (l : list N) (p : Packer) : Prop :=
  NoDup l /\ forall a, a ∈ l -> a ∉ dom (needed_users p).

(** What packing a user does to the table of needed users. *)
Definition packs_index (store : N -> PhysicalUser -> Prop) (u : N * PhysicalUser)
    (p : Packer) (r : Z * Packer) : Prop :=
  needed_users p ⊆ needed_users r.2 /\
  indexed store r.2 /\
  (exists record, needed_users r.2 !! u.1 = Some (record, r.1)) /\
  dom (needed_users r.2) = {[u.1]} ∪ dom (needed_users p) /\
  (size (needed_users r.2) <= S (size (needed_users p)))%nat.

(** The table after a run of the packer over the users at [addrs]. *)
Definition grown (store : N -> PhysicalUser -> Prop) (p p' : Packer) (addrs : list N) : Prop :=
  needed_users p ⊆ needed_users p' /\
  indexed store p' /\
  (forall a, a ∈ addrs -> a ∈ dom (needed_users p')) /\
  (size (needed_users p') <= size (needed_users p) + length addrs)%nat.

(** *** The states a view goes through

    Every user of a table lies below [n]; no user is held under two
    events of a table. *)
Definition bounded (n : N) (table : gmap Event EventUsers) : Prop :=
  forall e a, a ∈ addrs_of (table !! e) -> a < n.

Definition unshared (table : gmap Event EventUsers) : Prop :=
  forall e e' a,
    a ∈ addrs_of (table !! e) -> a ∈ addrs_of (table !! e') -> e = e'.

Definition tables_ok (n : N) (s : MaterializedState) : Prop :=
  table_summaries (current_epoch_users s) /\
  table_summaries (previous_epoch_users s) /\
  bounded n (current_epoch_users s) /\
  bounded n (previous_epoch_users s) /\
  unshared (current_epoch_users s).

(** The users of the tables were allocated in the heap of the view. *)
Definition well_formed (s : MaterializedState) : Prop :=
  tables_ok (next_addr (heap s)) s.

Definition red_tables_ok (n : N) (s : ReductionState) : Prop :=
  table_summaries (reduction_users s) /\
  table_summaries (reading_users s) /\
  bounded n (reduction_users s) /\
  bounded n (reading_users s).

Definition red_well_formed (s : ReductionState) : Prop :=
  red_tables_ok (next_addr (red_heap s)) s.

(** The states of a materialized view: a new view is empty, and every
    operation on the tables of a view leads from a state to a state.
    The operations of the hierarchy ([add_user], [add_copy_user],
    [find_copy_preconditions], [collect_users]) run the local ones on
    the view and on its ancestors.  A remote update is a message of a
    view in one of these states, read by [handle_send_update]. *)
Inductive reachable `{Analysis} : MaterializedState -> Prop :=
  | reach_new : reachable empty_state
  | reach_add_initial_user term_event usage mask s :
      reachable s -> reachable (add_initial_user term_event usage mask s)
  | reach_add_local_user has_triggered has_triggered' node usage term_event base_user
        child_color version_info mask pre s :
      reachable s ->
      reachable (add_local_user has_triggered has_triggered' node usage term_event
                   base_user child_color version_info mask pre s).2
  | reach_add_local_copy_user node usage copy_term base_user child_color
        version_info mask s :
      reachable s ->
      reachable (add_local_copy_user node usage copy_term base_user child_color
                   version_info mask s).2
  | reach_find_local_copy_preconditions has_triggered has_triggered' node redop reading
        mask child_color version_info pre s :
      reachable s ->
      reachable (find_local_copy_preconditions has_triggered has_triggered' node redop
                   reading mask child_color version_info pre s).2
  | reach_filter_local_users term_event s :
      reachable s -> reachable (filter_local_users term_event s)
  | reach_update_gc_events gc_events s :
      reachable s -> reachable (update_gc_events gc_events s)
  | reach_send_view_updates is_region handle did update_mask s :
      reachable s ->
      reachable (send_view_updates is_region handle did update_mask s).2
  | reach_handle_send_update is_region handle did update_mask s r r' collected :
      reachable s -> reachable r ->
      (Z.of_nat (update_load (carried update_mask (current_epoch_users s)) +
                 update_load (carried update_mask (previous_epoch_users s)))
         < 2 ^ 31)%Z ->
      handle_send_update
        (send_view_updates is_region handle did update_mask s).1 r
        = Some (r', collected) ->
      reachable r'.

(** The states of a reduction view; a remote update is any message that
    [handle_send_update] reads to its end. *)
Inductive red_reachable `{Analysis} : ReductionState -> Prop :=
  | red_reach_new : red_reachable empty_red_state
  | red_reach_add_initial_user term_event usage mask s :
      red_reachable s -> red_reachable (red_add_initial_user term_event usage mask s)
  | red_reach_add_user man usage term_event mask s :
      red_reachable s -> red_reachable (red_add_user man usage term_event mask s).2
  | red_reach_add_copy_user redop copy_term mask reading s :
      red_reachable s ->
      red_reachable (red_add_copy_user redop copy_term mask reading s).2
  | red_reach_filter_local_users term_event s :
      red_reachable s -> red_reachable (red_filter_local_users term_event s)
  | red_reach_handle_send_update derez s s' collected :
      red_reachable s ->
      red_handle_send_update derez s = Some (s', collected) ->
      red_reachable s'.

(** The users an update carries, each with its event; and a table that
    takes the copy of each of them, as [add_current_user] and
    [add_previous_user] put it in. *)
Definition carried_pairs (ups : list (Event * list (N * FieldMask)))
    : list (Event * (N * FieldMask)) :=
  flat_map (fun ev => (fun u : N * FieldMask => (ev.1, u)) <$> ev.2) ups.

Definition insert_all (copy : N -> N * PhysicalUser)
    (l : list (Event * (N * FieldMask))) (table : gmap Event EventUsers)
    : gmap Event EventUsers :=
  foldl (fun t x => <[x.1 := insert_user (copy x.2.1) x.2.2 (t !! x.1)]> t) table l.

(** The event and the address of the copy. *)
Definition copy_tag (copy : N -> N * PhysicalUser) (x : Event * (N * FieldMask))
    : Event * N :=
  (x.1, (copy x.2.1).1).

(** While a reduction view reads an update: the users before the index
    are in the tables, the others, allocated from [base] on, are not. *)
Definition red_installed (users : list (N * PhysicalUser)) (base : N)
    (u : RedUpdate) : Prop :=
  red_tables_ok (base + red_index u) (red_update_state u) /\
  red_index u <= N.of_nat (length users).

(** A view after a writer of the first two fields under event 1 and a
    reader of the second field under event 2. *)
Definition two_users : MaterializedState :=
  (@add_local_copy_user sample_analysis sample_node read_only 2 true None
     (mkVersionInfo (fun _ => true) (fun _ => None)) 2
     (@add_local_user sample_analysis (fun _ => false) (fun _ => false) sample_node
        read_write 1 true
        None (mkVersionInfo (fun _ => true) (fun _ => None)) 3 ∅ empty_state).2).2.

(** The events a walk over [table] contributes for [mask]. *)
Definition contributes (table : gmap Event EventUsers) (mask : FieldMask)
    (e : Event) : Prop :=
  exists eu, table !! e = Some eu /\ overlaps_request mask eu = true.

(** The users of a map that lose all their fields to [so]. *)
Definition leaving (so : FieldMask) (l : list (N * (PhysicalUser * FieldMask)))
    : list N :=
  (List.filter (fun it : N * (PhysicalUser * FieldMask) =>
                  negb (Mask.is_empty (so &&& it.2.2)) &&
                  Mask.is_empty (it.2.2 \\\ (so &&& it.2.2))) l).*1.

(** Every view from [v] up to the root is in a state it can reach. *)
Fixpoint chain_reachable `{Analysis} (v : MaterializedView) : Prop :=
  match v with
  | mkView st _ _ par =>
      reachable st /\
      match par with Some p => chain_reachable p | None => True end
  end.

(** The user at address [a] of a bucket, with its record; the users a
    view holds in its two tables. *)
Definition bucket_has (eu : EventUsers) (a : N) (record : PhysicalUser) : Prop :=
  match users eu with
  | single_user user => user = (a, record)
  | multi_users m => exists mask, m !! a = Some (record, mask)
  end.

Definition holds_user (s : MaterializedState) (a : N) (record : PhysicalUser) : Prop :=
  exists e eu,
    (current_epoch_users s !! e = Some eu \/ previous_epoch_users s !! e = Some eu) /\
    bucket_has eu a record.

(** A view after a writer of the first two fields and a reader of the
    third under event 1, and then a writer of the first field under
    event 2: the first writer is left in both epochs. *)
Definition sample_view : MaterializedState :=
  (@add_local_user sample_analysis (fun _ => false) (fun _ => false) sample_node
     read_write 2 true None (mkVersionInfo (fun _ => true) (fun _ => None)) 1 ∅
     (@add_local_copy_user sample_analysis sample_node read_only 1 true None
        (mkVersionInfo (fun _ => true) (fun _ => None)) 4
        (@add_local_user sample_analysis (fun _ => false) (fun _ => false) sample_node
           read_write 1 true
           None (mkVersionInfo (fun _ => true) (fun _ => None)) 3 ∅ empty_state).2).2).2.

(** ** Write-after-read tests of a materialized view

    [has_local_war_dependence] walks the current epoch and returns as
    soon as a read-only user overlaps the request; the fields it saw in
    no current bucket send it to the previous epoch.  The usage and the
    two colors it is passed play no role in the walk. *)

(** The users of a map: true as soon as one that overlaps is
    read-only. *)
Definition war_multi_users `{Analysis} (user_mask0 : FieldMask)
    (l : list (N * (PhysicalUser * FieldMask))) : bool :=
  existsb (fun it : N * (PhysicalUser * FieldMask) =>
             negb (Mask.is_empty (user_mask0 &&& it.2.2)) &&
             IS_READ_ONLY (usage it.2.1)) l.

(** The walk of the current epoch: whether it returned true, and the
    fields observed. *)
Fixpoint war_current `{Analysis} (user_mask0 : FieldMask)
    (l : list (Event * EventUsers)) (observed : FieldMask) : bool * FieldMask :=
  match l with
  | [] => (false, observed)
  | cit :: l' =>
      let overlap := user_mask0 &&& user_mask cit.2 in
      if Mask.is_empty overlap then war_current user_mask0 l' observed
      else
        let observed := observed ||| overlap in
        match users cit.2 with
        | single_user user =>
            if IS_READ_ONLY (usage user.2) then (true, observed)
            else war_current user_mask0 l' observed
        | multi_users m =>
            if war_multi_users user_mask0 (entries m) then (true, observed)
            else war_current user_mask0 l' observed
        end
  end.

(** The walk of the previous epoch. *)
Definition war_previous `{Analysis} (user_mask0 : FieldMask)
    (l : list (Event * EventUsers)) : bool :=
  existsb (fun pit : Event * EventUsers =>
             match users pit.2 with
             | single_user user =>
                 negb (Mask.is_empty (user_mask0 &&& user_mask pit.2)) &&
                 IS_READ_ONLY (usage user.2)
             | multi_users m => war_multi_users user_mask0 (entries m)
             end) l.

Definition has_local_war_dependence `{Analysis} (usage : RegionUsage)
    (user_mask0 : FieldMask) (child_color local_color : ColorPoint)
    (s : MaterializedState) : bool :=
  let '(found, observed) :=
    war_current user_mask0 (entries (current_epoch_users s)) Mask.empty in
  if found then true
  else
    let not_observed := user_mask0 \\\ observed in
    if negb (Mask.is_empty not_observed)
    then war_previous user_mask0 (entries (previous_epoch_users s))
    else false.

Fixpoint has_war_dependence_above `{Analysis} (v : MaterializedView)
    (usage : RegionUsage) (user_mask0 : FieldMask) (child_color : ColorPoint) : bool :=
  match v with
  | mkView st node man par =>
      let local_color := get_color node in
      if has_local_war_dependence usage user_mask0 child_color local_color st then true
      else
        match par with
        | Some p => has_war_dependence_above p usage user_mask0 local_color
        | None => false
        end
  end.

Definition has_war_dependence `{Analysis} (v : MaterializedView)
    (usage : RegionUsage) (user_mask0 : FieldMask) : bool :=
  if IS_READ_ONLY usage || IS_REDUCE usage then false
  else
    let local_color := get_color (logical_node v) in
    if has_local_war_dependence usage user_mask0 None local_color (view_state v)
    then true
    else
      match parent v with
      | Some p => has_war_dependence_above p usage user_mask0 local_color
      | None => false
      end.

(** A bucket holds a read-only user with a field of [mask]. *)
Definition reader_overlaps `{Analysis} (mask : FieldMask) (eu : EventUsers) : Prop :=
  exists a record,
    bucket_has eu a record /\ mask &&& bucket_fields eu a <> 0 /\
    IS_READ_ONLY (usage record) = true.

(** The summaries of the buckets of a table. *)
Definition summaries (table : gmap Event EventUsers) : list FieldMask :=
  (fun it : Event * EventUsers => user_mask it.2) <$> entries table.

(** The view and its ancestors. *)
Fixpoint view_chain (v : MaterializedView) : list MaterializedView :=
  match v with
  | mkView st node man par =>
      v :: match par with Some p => view_chain p | None => [] end
  end.

(** ** Remote updates of a reduction view: the sender

    [ReductionView::send_view_updates] writes, for every event whose
    summary overlaps the update mask, the event, the number of its users
    and their masks, and queues the users; the users are packed ahead of
    the events.  A single user is sent with the overlap, the users of a
    map are all sent, each with the mask it is recorded with. *)

(** One user of a map: [rez.serialize(it->second)] and
    [users.push_back(it->first)]. *)
Definition red_pack_multi_user (it : N * (PhysicalUser * FieldMask))
    (acc : list Token * list (N * PhysicalUser)) : list Token * list (N * PhysicalUser) :=
  (acc.1 ++ [TMask it.2.2], acc.2 ++ [(it.1, it.2.1)]).

(** One event of a table: the number of events written so far, the
    buffer of the table and the queue of users. *)
Definition red_pack_event (update_mask : FieldMask) (rit : Event * EventUsers)
    (acc : N * list Token * list (N * PhysicalUser))
    : N * list Token * list (N * PhysicalUser) :=
  let '(events, rez, queue) := acc in
  let overlap := user_mask rit.2 &&& update_mask in
  if Mask.is_empty overlap then acc
  else
    match users rit.2 with
    | single_user user =>
        (to_unsigned (events + 1),
         rez ++ [TEvent rit.1; TSize 1; TMask overlap], queue ++ [user])
    | multi_users m =>
        let '(rez', queue') :=
          foldl (fun acc it => red_pack_multi_user it acc)
                (rez ++ [TEvent rit.1; TSize (N.of_nat (size m))], queue) (entries m) in
        (to_unsigned (events + 1), rez', queue')
    end.

Definition red_send_view_updates (handle did : N) (update_mask : FieldMask)
    (s : ReductionState) : list Token :=
  let '(reduction_events, reduction_rez, red_users) :=
    foldl (fun acc rit => red_pack_event update_mask rit acc) (0, [], [])
          (entries (reduction_users s)) in
  let '(reading_events, reading_rez, read_users) :=
    foldl (fun acc rit => red_pack_event update_mask rit acc) (0, [], [])
          (entries (reading_users s)) in
  [THandle handle; TDid did]
    ++ [TSize (N.of_nat (length red_users))]
    ++ flat_map (fun u : N * PhysicalUser => pack_user u.2) red_users
    ++ [TSize (N.of_nat (length read_users))]
    ++ flat_map (fun u : N * PhysicalUser => pack_user u.2) read_users
    ++ [TUnsigned reduction_events] ++ reduction_rez
    ++ [TUnsigned reading_events] ++ reading_rez.

(** What an update of a reduction view carries of a table: the events
    whose summary overlaps the mask and, for each, the records of its
    users with the masks sent. *)
Definition red_carried_users (update_mask : FieldMask) (eu : EventUsers)
    : list (PhysicalUser * FieldMask) :=
  match users eu with
  | single_user user => [(user.2, user_mask eu &&& update_mask)]
  | multi_users m =>
      (fun it : N * (PhysicalUser * FieldMask) => (it.2.1, it.2.2)) <$> entries m
  end.

Fixpoint red_carried_events (update_mask : FieldMask) (l : list (Event * EventUsers))
    : list (Event * list (PhysicalUser * FieldMask)) :=
  match l with
  | [] => []
  | rit :: l' =>
      if Mask.is_empty (user_mask rit.2 &&& update_mask)
      then red_carried_events update_mask l'
      else (rit.1, red_carried_users update_mask rit.2)
             :: red_carried_events update_mask l'
  end.

Definition red_carried (update_mask : FieldMask) (table : gmap Event EventUsers)
    : list (Event * list (PhysicalUser * FieldMask)) :=
  red_carried_events update_mask (entries table).

(** The records of the users carried, in the order they are queued. *)
Definition red_carried_records (ups : list (Event * list (PhysicalUser * FieldMask)))
    : list PhysicalUser :=
  flat_map (fun ev : Event * list (PhysicalUser * FieldMask) => ev.2.*1) ups.

(** The same update applied with [add_physical_user]: the users of the
    events are the new users at the addresses from [a] on, one after the
    other; an event that has no collection pending gets one. *)
Definition red_install_user (reading : bool) (e : Event)
    (acc : N * ReductionState) (um : PhysicalUser * FieldMask) : N * ReductionState :=
  (acc.1 + 1, add_physical_user (acc.1, um.1) reading e um.2 acc.2).

Definition red_pend (e : Event) (acc : list Event * ReductionState)
    : list Event * ReductionState :=
  if decide (e ∈ red_outstanding_gc_events acc.2) then acc
  else (acc.1 ++ [e],
        mkRedState (reduction_users acc.2) (reading_users acc.2)
          ({[e]} ∪ red_outstanding_gc_events acc.2)
          (red_initial_user_events acc.2) (red_heap acc.2)).

Definition red_install (reading : bool)
    (acc : N * list Event * ReductionState)
    (ev : Event * list (PhysicalUser * FieldMask)) : N * list Event * ReductionState :=
  let '(a, collected, r) := acc in
  let '(a', r') := foldl (red_install_user reading ev.1) (a, r) ev.2 in
  let '(collected', r'') := red_pend ev.1 (collected, r') in
  (a', collected', r'').

(** The heap after the users of an update were unpacked. *)
Definition unpack_all (records : list PhysicalUser) (h : UserHeap) : UserHeap :=
  foldl (fun h record => (unpack_user record h).2) h records.

Definition red_apply_locally
    (reducers readers : list (Event * list (PhysicalUser * FieldMask)))
    (r : ReductionState) : ReductionState * list Event :=
  let base := next_addr (red_heap r) in
  let h := unpack_all (red_carried_records reducers ++ red_carried_records readers)
             (red_heap r) in
  let r0 := mkRedState (reduction_users r) (reading_users r)
              (red_outstanding_gc_events r) (red_initial_user_events r) h in
  let '(_, collected1, r1) := foldl (red_install false) (base, [], r0) reducers in
  let '(_, collected2, r2) :=
    foldl (red_install true)
          (base + N.of_nat (length (red_carried_records reducers)), collected1, r1)
          readers in
  (r2, collected2).

(** The users a receiver makes for the records it unpacks: one for each
    record, at the addresses from [base] on. *)
Fixpoint new_users (base : N) (records : list PhysicalUser) : list (N * PhysicalUser) :=
  match records with
  | [] => []
  | record :: l => (base, record) :: new_users (base + 1) l
  end.

(** The events of a table as they are written: the event, the number of
    its users, their masks. *)
Definition red_encode_events (ups : list (Event * list (PhysicalUser * FieldMask)))
    : list Token :=
  flat_map (fun ev : Event * list (PhysicalUser * FieldMask) =>
              [TEvent ev.1; TSize (N.of_nat (length ev.2))] ++ (TMask <$> ev.2.*2)) ups.

(** A reduction view with a reducer of the first field under event 1,
    and two readers, of the first and of the second field, under
    event 2. *)
Definition sample_red_view : ReductionState :=
  mkRedState
    {[1 := mkEventUsers 1 (single_user (0, mkUser (mkUsage REDUCE EXCLUSIVE 3) None None))]}
    {[2 := mkEventUsers 3 (multi_users {[1 := (mkUser read_only None None, 1);
                                         2 := (mkUser read_only None None, 2)]})]}
    {[1; 2]} ∅ (mkHeap {[0 := 0%nat; 1 := 0%nat; 2 := 0%nat]} 3).

(** ** Composite nodes: the masks of the children

    [finalize] walks the children: each child is finalized with the mask
    recorded for it, which takes the masks found below, and the mask
    passed in takes the mask of each child. *)
Fixpoint finalize (n : CompositeNode) (final_mask : FieldMask)
    : CompositeNode * FieldMask :=
  match n with
  | mkCompositeNode views reductions kids =>
      let r :=
        (fix walk (l : list (CompositeNode * FieldMask)) (acc : FieldMask)
           : list (CompositeNode * FieldMask) * FieldMask :=
           match l with
           | [] => ([], acc)
           | it :: l' =>
               let c := finalize it.1 it.2 in
               let w := walk l' (acc ||| c.2) in
               (c :: w.1, w.2)
           end) kids final_mask in
      (mkCompositeNode views reductions r.1, r.2)
  end.

(** The walk of [finalize] over the children. *)
Definition finalize_children (l : list (CompositeNode * FieldMask)) (acc : FieldMask)
    : list (CompositeNode * FieldMask) * FieldMask :=
  (fix walk (l : list (CompositeNode * FieldMask)) (acc : FieldMask)
     : list (CompositeNode * FieldMask) * FieldMask :=
     match l with
     | [] => ([], acc)
     | it :: l' =>
         let c := finalize it.1 it.2 in
         let w := walk l' (acc ||| c.2) in
         (c :: w.1, w.2)
     end) l acc.

(** Induction on a composite node, with the property known of every
    child. *)
Fixpoint CompositeNode_tree_ind (P : CompositeNode -> Prop)
    (Hnode : forall views reductions kids,
       Forall (fun it : CompositeNode * FieldMask => P it.1) kids ->
       P (mkCompositeNode views reductions kids))
    (n : CompositeNode) : P n :=
  match n with
  | mkCompositeNode views reductions kids =>
      Hnode views reductions kids
        ((fix all (l : list (CompositeNode * FieldMask))
            : Forall (fun it : CompositeNode * FieldMask => P it.1) l :=
            match l with
            | [] => @List.Forall_nil _ _
            | it :: l' =>
                @List.Forall_cons _ _ it l' (CompositeNode_tree_ind P Hnode it.1) (all l')
            end) kids)
  end.

(** The masks recorded for the children of a node and below them. *)
Fixpoint masks_below (n : CompositeNode) : list FieldMask :=
  match n with
  | mkCompositeNode _ _ kids =>
      flat_map (fun it : CompositeNode * FieldMask => it.2 :: masks_below it.1) kids
  end.

(** The mask recorded for each child holds the masks recorded below
    it, at every level. *)
Fixpoint covers_below (n : CompositeNode) : Prop :=
  match n with
  | mkCompositeNode _ _ kids =>
      (fix all (l : list (CompositeNode * FieldMask)) : Prop :=
         match l with
         | [] => True
         | it :: l' =>
             Mask.subseteq (union_of (masks_below it.1)) it.2 /\
             covers_below it.1 /\ all l'
         end) kids
  end.

(** The number of nodes of a tree that hold a view as a valid view, and
    as a reduction view. *)
Fixpoint held_valid (n : CompositeNode) (view : N) : nat :=
  match n with
  | mkCompositeNode views _ kids =>
      ((if decide (view ∈ dom views) then 1 else 0) +
       (fix sum (l : list (CompositeNode * FieldMask)) : nat :=
          match l with
          | [] => 0
          | it :: l' => held_valid it.1 view + sum l'
          end) kids)%nat
  end.

Fixpoint held_reduction (n : CompositeNode) (view : N) : nat :=
  match n with
  | mkCompositeNode _ reductions kids =>
      ((if decide (view ∈ dom reductions) then 1 else 0) +
       (fix sum (l : list (CompositeNode * FieldMask)) : nat :=
          match l with
          | [] => 0
          | it :: l' => held_reduction it.1 view + sum l'
          end) kids)%nat
  end.

(** A call that moves the counters of one view. *)
Definition bump_view (bump : RefCounts -> RefCounts) (view : N) (store : ViewStore)
    : ViewStore :=
  <[view := bump (counts store view)]> store.

(** A node with two children; the first has a child of its own that
    captured the third field. *)
Definition sample_composite_tree : CompositeNode :=
  mkCompositeNode ∅ ∅
    [(mkCompositeNode ∅ ∅ [(mkCompositeNode ∅ ∅ [], 4)], 1);
     (mkCompositeNode ∅ ∅ [], 2)].

(** ** Composite nodes: the next root

    [find_next_root] looks among the children of a node for the one
    below which a target node lies.  The three questions it asks of the
    region tree are methods of [RegionTreeNode], outside this file; they
    are an interface here.  The children are given in the order of the
    map, each with what the walk reads of it, its logical node. *)

Class RegionTree := {
  dominates : RegionTreeNode -> RegionTreeNode -> bool;
  intersects_with : RegionTreeNode -> RegionTreeNode -> bool;
  are_all_children_disjoint : RegionTreeNode -> bool
}.

(** The last of the three walks: one child that dominates and none
    that intersects. *)
Fixpoint unique_dominator `{RegionTree} {C} (node_of : C -> RegionTreeNode)
    (target : RegionTreeNode) (l : list C) (child : option C) : option C :=
  match l with
  | [] => child
  | c :: l' =>
      if dominates (node_of c) target then
        match child with
        | Some _ => None
        | None => unique_dominator node_of target l' (Some c)
        end
      else if intersects_with (node_of c) target then None
      else unique_dominator node_of target l' child
  end.

Definition find_next_root `{RegionTree} {C} (node_of : C -> RegionTreeNode)
    (logical_node : RegionTreeNode) (children : list C) (target : RegionTreeNode)
    : option C :=
  match children with
  | [] => None
  | [child] => if dominates (node_of child) target then Some child else None
  | _ =>
      if are_all_children_disjoint logical_node then
        List.find (fun c => dominates (node_of c) target) children
      else unique_dominator node_of target children None
  end.

(** A region tree in which node 1 dominates every target and node 2
    intersects every target; and two children, with the nodes 1 and 3. *)
Definition sample_region_tree : RegionTree := {|
  dominates a _ := N.eqb (node_id a) 1;
  intersects_with a _ := N.eqb (node_id a) 2;
  are_all_children_disjoint _ := false
|}.

Definition sample_children : list RegionTreeNode :=
  [mkNode 1 None (fun _ _ => false); mkNode 3 None (fun _ _ => false)].

(** ** Composite nodes: the valid views of a node

    [find_valid_views] asks the parent for the fields that are not dirty
    at the node, takes the subview of each view the parent found, and
    adds the views of the node itself.  What it reads: the node, its
    dirty mask, its valid views and its parent.  [get_subview] is a
    virtual method of the views; it is a parameter here. *)

#[local] Unset Elimination Schemes.
Inductive CompositeLevel := mkLevel {
  level_node : RegionTreeNode;
  level_dirty_mask : FieldMask;
  level_valid_views : gmap N FieldMask;
  level_parent : option CompositeLevel
}.
#[local] Set Elimination Schemes.

(** Induction along the parent chain. *)
Fixpoint CompositeLevel_chain_ind (P : CompositeLevel -> Prop)
    (Hroot : forall node dirty views, P (mkLevel node dirty views None))
    (Hchild : forall node dirty views p, P p -> P (mkLevel node dirty views (Some p)))
    (n : CompositeLevel) : P n :=
  match n with
  | mkLevel node dirty views None => Hroot node dirty views
  | mkLevel node dirty views (Some p) =>
      Hchild node dirty views p (CompositeLevel_chain_ind P Hroot Hchild p)
  end.

(** [valid[it->first] = overlap], or [finder->second |= overlap] where
    the view has to be looked up first. *)
Definition add_valid_view (need_check : bool) (search_mask : FieldMask)
    (valid : gmap N FieldMask) (it : N * FieldMask) : gmap N FieldMask :=
  let overlap := search_mask &&& it.2 in
  if Mask.is_empty overlap then valid
  else if need_check then
    match valid !! it.1 with
    | None => <[it.1 := overlap]> valid
    | Some m => <[it.1 := m ||| overlap]> valid
    end
  else <[it.1 := overlap]> valid.

Fixpoint find_valid_views (get_subview : N -> ColorPoint -> N) (n : CompositeLevel)
    (search_mask : FieldMask) (valid : gmap N FieldMask) : gmap N FieldMask :=
  match n with
  | mkLevel node dirty views par =>
      let r :=
        match par with
        | Some p =>
            let up_mask := search_mask \\\ dirty in
            if negb (Mask.is_empty up_mask) then
              let valid_up := find_valid_views get_subview p up_mask ∅ in
              if bool_decide (valid_up = ∅) then (valid, false)
              else
                (foldl (fun valid (it : N * FieldMask) =>
                          <[get_subview it.1 (get_color node) := it.2]> valid)
                       valid (entries valid_up), true)
            else (valid, false)
        | None => (valid, false)
        end in
      foldl (add_valid_view r.2 search_mask) r.1 (entries views)
  end.

(** ** Composite nodes: capturing reduction views

    [capture_reductions] takes, of the views it is given, those with a
    field of the capture mask.  A view the node did not hold gets a
    resource reference; the calls of [add_base_resource_ref] are returned
    as the list of the views they were made on. *)
Definition capture_reduction (capture_mask : FieldMask)
    (acc : gmap N FieldMask * list N) (it : N * FieldMask)
    : gmap N FieldMask * list N :=
  let overlap := it.2 &&& capture_mask in
  if Mask.is_empty overlap then acc
  else
    match acc.1 !! it.1 with
    | None => (<[it.1 := overlap]> acc.1, acc.2 ++ [it.1])
    | Some m => (<[it.1 := m ||| overlap]> acc.1, acc.2)
    end.

Definition capture_reductions (capture_mask : FieldMask) (views : gmap N FieldMask)
    (n : CompositeNode) : CompositeNode * list N :=
  let r := foldl (capture_reduction capture_mask) (reduction_views n, [])
                 (entries views) in
  (mkCompositeNode (valid_views n) r.1 (children n), r.2).

(** What a map of views holds for a view, none read as empty. *)
Definition view_mask (m : gmap N FieldMask) (view : N) : FieldMask :=
  default Mask.empty (m !! view).

(** ** Atomic reservations

    The root of a hierarchy of materialized views keeps a reservation
    for every field that was ever used atomically.  The owner makes the
    reservations; a view on another node asks the owner for those it does
    not know yet.  A [FieldID], a [Reservation] and a [UserEvent] are
    handles, natural numbers here. *)

Abbreviation ReservationTable := (gmap N N).

(** Modelled from the spec: [Reservation::create_reservation] belongs to
    the low-level runtime.  It hands out a reservation that was not
    handed out before: the next of a counter. *)
Definition create_reservation (next : N) : N * N := (next, next + 1).

(** One field of [find_field_reservations]: the results so far, the
    table and the counter. *)
Definition find_field_reservation (acc : list N * ReservationTable * N) (fid : N)
    : list N * ReservationTable * N :=
  let '(results, table, next) := acc in
  match table !! fid with
  | None =>
      let '(handle, next') := create_reservation next in
      (results ++ [handle], <[fid := handle]> table, next')
  | Some handle => (results ++ [handle], table, next)
  end.

Definition find_field_reservations (needed_fields : list N)
    (table : ReservationTable) (next : N) : list N * ReservationTable * N :=
  foldl find_field_reservation ([], table, next) needed_fields.

(** [atomic_reservations[fields[idx]] = reservations[idx]], for each
    index. *)
Definition update_field_reservations (fields reservations : list N)
    (table : ReservationTable) : ReservationTable :=
  foldl (fun table (x : N * N) => <[x.1 := x.2]> table) table (zip fields reservations).

(** The two messages. *)
Inductive AtomicToken :=
  | ADid (did : N)
  | ASize (n : N)
  | AField (fid : N)
  | AReservation (r : N)
  | AUserEvent (e : N).

(** What [find_atomic_reservations] does on a view that is not the
    owner, before it waits: the fields it knows go to the operation, the
    others are asked for. *)
Definition split_known (table : ReservationTable) (atomic_fields : list N)
    : list N * list N :=
  foldl (fun (acc : list N * list N) fid =>
           match table !! fid with
           | None => (acc.1 ++ [fid], acc.2)
           | Some r => (acc.1, acc.2 ++ [r])
           end) ([], []) atomic_fields.

Definition pack_reservation_request (did : N) (needed_fields : list N) (wait_on : N)
    : list AtomicToken :=
  [ADid did; ASize (N.of_nat (length needed_fields))]
    ++ (AField <$> needed_fields) ++ [AUserEvent wait_on].

(** [fields[idx]] is read [num_fields] times. *)
Fixpoint read_fields (num : nat) (derez : list AtomicToken)
    : option (list N * list AtomicToken) :=
  match num with
  | O => Some ([], derez)
  | S n =>
      match derez with
      | AField fid :: rest =>
          '(fields, rest') ← read_fields n rest; Some (fid :: fields, rest')
      | _ => None
      end
  end.

Fixpoint read_reservations (num : nat) (derez : list AtomicToken)
    : option (list N * list N * list AtomicToken) :=
  match num with
  | O => Some ([], [], derez)
  | S n =>
      match derez with
      | AField fid :: AReservation r :: rest =>
          '(fields, reservations, rest') ← read_reservations n rest;
          Some (fid :: fields, r :: reservations, rest')
      | _ => None
      end
  end.

(** The owner answers a request: the response, the table and the
    counter.  The loops have an [unsigned] index and a [size_t] bound. *)
Definition handle_send_atomic_reservation_request (derez : list AtomicToken)
    (table : ReservationTable) (next : N)
    : option (list AtomicToken * ReservationTable * N) :=
  match derez with
  | ADid did :: ASize num_fields :: rest =>
      if 2 ^ 32 <=? num_fields then None
      else
        '(fields, rest') ← read_fields (N.to_nat num_fields) rest;
        match rest' with
        | AUserEvent to_trigger :: _ =>
            let '(reservations, table', next') :=
              find_field_reservations fields table next in
            Some ([ADid did; ASize num_fields]
                    ++ flat_map (fun x : N * N => [AField x.1; AReservation x.2])
                                (zip fields reservations)
                    ++ [AUserEvent to_trigger],
                  table', next')
        | _ => None
        end
  | _ => None
  end.

(** The view that asked reads the response: its table, and the event
    it triggers. *)
Definition handle_send_atomic_reservation_response (derez : list AtomicToken)
    (table : ReservationTable) : option (ReservationTable * N) :=
  match derez with
  | ADid did :: ASize num_fields :: rest =>
      if 2 ^ 32 <=? num_fields then None
      else
        '(fields, reservations, rest') ← read_reservations (N.to_nat num_fields) rest;
        match rest' with
        | AUserEvent to_trigger :: _ =>
            Some (update_field_reservations fields reservations table, to_trigger)
        | _ => None
        end
  | _ => None
  end.

(** The reservations the view hands to the operation after the wait:
    [finder->second] for each needed field; a field that is still not
    there trips the assertion. *)
Definition found_reservations (table : ReservationTable) (needed_fields : list N)
    : option (list N) :=
  mapM (fun fid => table !! fid) needed_fields.

(** The reservations of a table are below the counter, and no two
    fields share one. *)
Definition reservations_ok (table : ReservationTable) (next : N) : Prop :=
  (forall fid r, table !! fid = Some r -> r < next) /\
  (forall fid fid' r, table !! fid = Some r -> table !! fid' = Some r -> fid = fid').

(** The tables and the events to collect of [s'] are those of [s]
    without the events of [T]. *)
Definition collected (T : gset Event) (s s' : MaterializedState) : Prop :=
  (forall e, current_epoch_users s' !! e
             = if decide (e ∈ T) then None else current_epoch_users s !! e) /\
  (forall e, previous_epoch_users s' !! e
             = if decide (e ∈ T) then None else previous_epoch_users s !! e) /\
  outstanding_gc_events s' = outstanding_gc_events s ∖ T.

Definition red_collected (T : gset Event) (s s' : ReductionState) : Prop :=
  (forall e, reduction_users s' !! e
             = if decide (e ∈ T) then None else reduction_users s !! e) /\
  (forall e, reading_users s' !! e
             = if decide (e ∈ T) then None else reading_users s !! e) /\
  red_outstanding_gc_events s' = red_outstanding_gc_events s ∖ T.

(** ** What a task waits for

    A user of the bucket [o] that makes a task with usage [next_user] on
    the fields [mask] wait: the user holds a field of [mask], neither
    child rule cuts the test short, and the dependence table gives a
    true or an anti dependence. *)
Definition makes_wait `{Analysis} (logical_node : RegionTreeNode)
    (next_user : RegionUsage) (child_color : ColorPoint) (mask : FieldMask)
    (o : option EventUsers) : Prop :=
  exists eu a record,
    o = Some eu /\ bucket_has eu a record /\
    bucket_fields eu a &&& mask <> 0 /\
    cut_off logical_node child_color record = false /\
    is_dependence (check_dependence_type (usage record) next_user) = true.

(** A user under the event [e], in either epoch of the view, that holds a
    field of [mask] and on which [next_user] depends. *)
Definition conflicting_user `{Analysis} (next_user : RegionUsage) (mask : FieldMask)
    (s : MaterializedState) (e : Event) : Prop :=
  exists eu a record,
    (current_epoch_users s !! e = Some eu \/ previous_epoch_users s !! e = Some eu) /\
    bucket_has eu a record /\
    bucket_fields eu a &&& mask <> 0 /\
    is_dependence (check_dependence_type (usage record) next_user) = true.

(** ** What a copy waits for

    A user of the bucket [o] that makes a copy on the fields [mask]
    wait, and the fields [overlap] it shares with [mask]: the child
    rules do not cut the test short, the copy is not a reader next to a
    reader nor a reduction next to the same reduction, and the user does
    not hold the versions that the copy brings for [overlap]. *)
Definition makes_copy_wait `{Analysis} (logical_node : RegionTreeNode)
    (redop : ReductionOpID) (reading : bool) (child_color : ColorPoint)
    (versions : option FieldVersions) (mask : FieldMask)
    (o : option EventUsers) (overlap : FieldMask) : Prop :=
  exists eu a record,
    o = Some eu /\ bucket_has eu a record /\
    overlap = bucket_fields eu a &&& mask /\ overlap <> 0 /\
    cut_off logical_node child_color record = false /\
    reading && IS_READ_ONLY (usage record) = false /\
    N.ltb 0 redop && N.eqb (user_redop record) redop = false /\
    same_version_skip record redop reading overlap versions = false.

(** The fields a precondition map holds for an event, none read as
    empty. *)
Definition fields_for (pre : gmap Event FieldMask) (e : Event) : FieldMask :=
  default Mask.empty (pre !! e).

(** Two readings of a precondition map at an event: the event is a key
    of the map, or the map holds the field [i] for it; and the matching
    reading of an overlap. *)
Definition seen (j : option N) (pre : gmap Event FieldMask) (e : Event) : Prop :=
  match j with
  | None => e ∈ dom pre
  | Some i => N.testbit (fields_for pre e) i = true
  end.

Definition hit (j : option N) (overlap : FieldMask) : Prop :=
  match j with
  | None => True
  | Some i => N.testbit overlap i = true
  end.

(** ** The references of the users of a view

    One for a proposition that holds, none otherwise. *)
Definition ind (P : Prop) `{Decision P} : nat := if decide P then 1%nat else 0%nat.

(** The number of buckets of a table that hold the user at [a]. *)
Definition holders (table : gmap Event EventUsers) (a : N) : nat :=
  sum_list_with (fun it : Event * EventUsers => ind (a ∈ bucket_addrs it.2))
                (map_to_list table).

(** A user with no reference is not in the heap. *)
Definition to_count (n : nat) : option nat :=
  match n with O => None | S _ => Some n end.

(** The heap holds the users that [c] counts, each with its count. *)
Definition refs_as (h : UserHeap) (c : N -> nat) : Prop :=
  forall a, references h !! a = to_count (c a).

(** The users of the heap are those of the two tables, each with one
    reference for every bucket that holds it; [x] counts the references
    held beside the tables. *)
Definition counted_with (x : N -> nat) (s : MaterializedState) : Prop :=
  refs_as (heap s)
    (fun a => (holders (current_epoch_users s) a +
               holders (previous_epoch_users s) a + x a)%nat).

Definition counted (s : MaterializedState) : Prop :=
  forall a,
    references (heap s) !! a =
    to_count (holders (current_epoch_users s) a + holders (previous_epoch_users s) a).

(** What [install_user] does to the heap and to [need_reference] for
    the user at [c] that it finds at index [i]: the first use of an
    index takes the reference the user was unpacked with, the later ones
    add a reference. *)
Definition note_reference (c : N) (i : nat) (hf : UserHeap * list bool)
    : UserHeap * list bool :=
  (if default false (hf.2 !! i) then add_reference c hf.1 else hf.1,
   <[i := true]> hf.2).

Definition log_references (idx : N -> Z) (copy : N -> N * PhysicalUser)
    (addrs : list N) (hf : UserHeap * list bool) : UserHeap * list bool :=
  foldl (fun hf a => note_reference (copy a).1 (Z.to_nat (idx a)) hf) hf addrs.

(** The number of entries of [l] whose copy is at [a]. *)
Definition copies_at (copy : N -> N * PhysicalUser) (l : list N) (a : N) : nat :=
  sum_list_with (fun b => ind ((copy b).1 = a)) l.

(** ** The users of a reduction view

    A user is in at most one bucket of the two tables, and a user that
    a bucket holds is alive in the heap. *)
Definition held_once (s : ReductionState) : Prop :=
  forall a,
    (holders (reduction_users s) a + holders (reading_users s) a <= 1)%nat /\
    ((1 <= holders (reduction_users s) a + holders (reading_users s) a)%nat ->
     is_Some (references (red_heap s) !! a)).

(** ** The users of the tables

    A property of the address and the record of every user of a bucket,
    of the bucket found under an event, and of a map of users. *)
Definition bucket_all (R : N -> PhysicalUser -> Prop) (eu : EventUsers) : Prop :=
  forall a record, bucket_has eu a record -> R a record.

Definition all_users (R : N -> PhysicalUser -> Prop) (o : option EventUsers) : Prop :=
  forall eu, o = Some eu -> bucket_all R eu.

Definition records_in (R : N -> PhysicalUser -> Prop) (m : UserMap) : Prop :=
  forall a um, m !! a = Some um -> R a um.1.

(** Versions are recorded only for the read-only users a view holds. *)
Definition versions_of_readers `{Analysis} (s : MaterializedState) : Prop :=
  forall a record, holds_user s a record -> versions_only_if_read_only record.

(** ** The dependence table on the task path *)

(** A user under the event [e] that a task for [mask] is tested
    against: a user of the current epoch with a field of [mask], or a
    user of the previous epoch with a field of [mask] outside
    [dominated]. *)
Definition tested_user (mask dominated : FieldMask) (s : MaterializedState)
    (e : Event) (a : N) (record : PhysicalUser) : Prop :=
  exists eu,
    bucket_has eu a record /\
    ((current_epoch_users s !! e = Some eu /\ bucket_fields eu a &&& mask <> 0) \/
     (previous_epoch_users s !! e = Some eu /\
      bucket_fields eu a &&& (mask \\\ dominated) <> 0)).

(** Modelled from the spec: the general rule read for every prior user
    of either epoch.  In a state the view reaches, a user under an event
    that has not triggered, that is not the caller's own and that is not
    a precondition yet, with a field of the caller's mask and not cut
    off by the child rules, has its event among the preconditions
    [add_local_user] returns exactly when the dependence table gives a
    true or an anti dependence. *)
Definition every_overlapping_user_decides `{Analysis} : Prop :=
  forall has_triggered has_triggered' node next_user term_event base_user child_color
         version_info mask pre s e eu a record,
    reachable s ->
    has_triggered e = false -> e <> term_event -> e ∉ pre ->
    current_epoch_users s !! e = Some eu \/ previous_epoch_users s !! e = Some eu ->
    bucket_has eu a record ->
    bucket_fields eu a &&& mask <> 0 ->
    cut_off node child_color record = false ->
    (e ∈ (add_local_user has_triggered has_triggered' node next_user term_event
            base_user child_color version_info mask pre s).1.2 <->
     check_dependence_type (usage record) next_user = TRUE_DEPENDENCE \/
     check_dependence_type (usage record) next_user = ANTI_DEPENDENCE).

(** A view after a writer of the first field under event 2 and then a
    writer of the same field under event 1: the first writer has moved
    to the previous epoch. *)
Definition writers_in_turn : MaterializedState :=
  (@add_local_user sample_analysis (fun _ => false) (fun _ => false) sample_node
     read_write 1 true None (mkVersionInfo (fun _ => true) (fun _ => None)) 1 ∅
     (@add_local_user sample_analysis (fun _ => false) (fun _ => false) sample_node
        read_write 2 true None (mkVersionInfo (fun _ => true) (fun _ => None)) 1 ∅
        empty_state).2).2.

(** ** What the clean-up of the analyzers does under an event

    The user at [a] is under no event but [e]; the user is in no bucket
    of the view. *)
Definition only_under (s : MaterializedState) (e : Event) (a : N) : Prop :=
  forall e', e' <> e ->
    (a ∉ addrs_of (current_epoch_users s !! e')) /\
    (a ∉ addrs_of (previous_epoch_users s !! e')).

Definition unheld (s : MaterializedState) (a : N) : Prop :=
  forall e',
    (a ∉ addrs_of (current_epoch_users s !! e')) /\
    (a ∉ addrs_of (previous_epoch_users s !! e')).

(** The three things that happen to the users of an event [e] between
    the state [s] an analyzer finds and the state [s'] it leaves, for
    the dominated mask [d]; [ht] is what the analysis was answered and
    [ht'] what [filter_current_users] is answered.  An event that has
    not triggered has the dominated fields of its users moved to the
    previous epoch.  An event of the current epoch that had triggered
    when the analysis asked is taken out of both epochs.  An event that
    has triggered since is taken out of the current epoch and nothing is
    moved: the previous epoch gains no field under it.  In both cases a
    user that no other bucket held is left in no bucket. *)
Definition cleaned_up (ht ht' : Event -> bool) (d : FieldMask)
    (s s' : MaterializedState) (e : Event) (a : N) : Prop :=
  (ht e = false -> ht' e = false \/ d = 0 ->
     migrated d s s' e a /\ erased d s s' e) /\
  (ht e = true -> is_Some (current_epoch_users s !! e) ->
     current_epoch_users s' !! e = None /\
     previous_epoch_users s' !! e = None /\
     (a ∈ addrs_of (current_epoch_users s !! e) -> only_under s e a -> unheld s' a)) /\
  (ht e = false -> ht' e = true -> d <> 0 ->
     current_epoch_users s' !! e = None /\
     Mask.subseteq (fields_of (previous_epoch_users s' !! e) a)
                   (fields_of (previous_epoch_users s !! e) a) /\
     (a ∈ addrs_of (current_epoch_users s !! e) ->
      a ∉ addrs_of (previous_epoch_users s !! e) ->
      only_under s e a -> unheld s' a)).

(** * Properties *)

(** ** Field masks *)

Lemma is_empty_true (m : FieldMask) : Mask.is_empty m = true <-> m = 0.
Proof. unfold Mask.is_empty. apply N.eqb_eq. Qed.

Lemma is_empty_false (m : FieldMask) : Mask.is_empty m = false <-> m <> 0.
Proof. unfold Mask.is_empty. apply N.eqb_neq. Qed.

Lemma mask_zero_bits (m : FieldMask) : m = 0 <-> forall i, N.testbit m i = false.
Proof.
  split.
  - intros -> i. apply N.bits_0.
  - intros Hb. apply N.bits_inj. intros i. rewrite Hb. symmetry. apply N.bits_0.
Qed.

(** ** The versions of a new user *)

Lemma new_user_versions `{Analysis} (logical_node : RegionTreeNode)
    (usage : RegionUsage) (child_color : ColorPoint) (version_info : VersionInfo)
    (h : UserHeap) :
  versions_only_if_read_only
    (new_user logical_node usage child_color version_info h).1.2.
Proof.
  unfold versions_only_if_read_only, new_user.
  destruct (IS_READ_ONLY usage) eqn:Hro; simpl; [auto | congruence].
Qed.

Lemma same_versions_recorded (user : PhysicalUser) (mask : FieldMask)
    (vs : FieldVersions) :
  same_versions user mask vs = true -> versions user <> None.
Proof. unfold same_versions. destruct (versions user); [discriminate | congruence]. Qed.

(** ** Walking a table in key order *)

Lemma elem_of_entries {A} (m : gmap N A) (k : N) (v : A) :
  (k, v) ∈ entries m <-> m !! k = Some v.
Proof.
  unfold entries. rewrite merge_sort_Permutation. apply elem_of_map_to_list.
Qed.

Lemma NoDup_fst_entries {A} (m : gmap N A) : NoDup (entries m).*1.
Proof.
  unfold entries.
  assert (Hp : (merge_sort key_le (map_to_list m)).*1 ≡ₚ (map_to_list m).*1).
  { apply fmap_Permutation, merge_sort_Permutation. }
  rewrite Hp. apply NoDup_fst_map_to_list.
Qed.

Lemma entries_empty {A} : entries (∅ : gmap N A) = [].
Proof.
  apply Permutation_nil_r. unfold entries.
  rewrite merge_sort_Permutation, map_to_list_empty. reflexivity.
Qed.

Lemma elem_of_entries_pair {A} (m : gmap N A) (kv : N * A) :
  kv ∈ entries m <-> m !! kv.1 = Some kv.2.
Proof. destruct kv as [k v]. apply elem_of_entries. Qed.

(** ** Unions of masks *)

Lemma union_of_bits (l : list FieldMask) (i : N) :
  N.testbit (union_of l) i = true <-> exists m, m ∈ l /\ N.testbit m i = true.
Proof.
  induction l as [|a l IH]; simpl.
  - split; [discriminate|]. intros (m & Hm & _). inversion Hm.
  - unfold Mask.union at 1. rewrite N.lor_spec, orb_true_iff, IH. split.
    + intros [Ha | (m & Hm & Hb)].
      * exists a. split; [left | assumption].
      * exists m. split; [right; assumption | assumption].
    + intros (m & Hm & Hb). apply elem_of_cons in Hm as [-> | Hm].
      * left. assumption.
      * right. exists m. split; assumption.
Qed.

Lemma inter_nonzero_bits (a b : FieldMask) :
  a &&& b <> 0 <-> exists i, N.testbit a i = true /\ N.testbit b i = true.
Proof.
  unfold Mask.inter. split.
  - intros Hne.
    destruct (N.eq_dec (N.land a b) 0) as [Hz | Hnz]; [contradiction|].
    assert (Hex : exists i, N.testbit (N.land a b) i = true).
    { destruct (N.land a b) as [|p] eqn:Hp; [contradiction|].
      exists (N.log2 (N.pos p)). apply N.bit_log2. discriminate. }
    destruct Hex as [i Hi]. rewrite N.land_spec, andb_true_iff in Hi.
    exists i. exact Hi.
  - intros (i & Ha & Hb) Hz.
    assert (Hi : N.testbit (N.land a b) i = true)
      by (rewrite N.land_spec, Ha, Hb; reflexivity).
    rewrite Hz, N.bits_0 in Hi. discriminate.
Qed.

Lemma overlap_union_of (mask : FieldMask) (l : list FieldMask) :
  mask &&& union_of l <> 0 <-> exists m, m ∈ l /\ mask &&& m <> 0.
Proof.
  rewrite inter_nonzero_bits. split.
  - intros (i & Ha & Hu). apply union_of_bits in Hu as (m & Hm & Hb).
    exists m. split; [assumption|]. apply inter_nonzero_bits. eauto.
  - intros (m & Hm & Hne). apply inter_nonzero_bits in Hne as (i & Ha & Hb).
    exists i. split; [assumption|]. apply union_of_bits. eauto.
Qed.

Lemma overlaps_request_spec (mask : FieldMask) (eu : EventUsers) :
  overlaps_request mask eu = true <->
  exists m, m ∈ recorded_masks eu /\ mask &&& m <> 0.
Proof.
  unfold overlaps_request. rewrite existsb_exists. split.
  - intros (m & Hin & Hne). exists m. split; [apply list_elem_of_In; assumption|].
    apply negb_true_iff, is_empty_false in Hne. assumption.
  - intros (m & Hin & Hne). exists m. split; [apply list_elem_of_In; assumption|].
    apply negb_true_iff, is_empty_false. assumption.
Qed.

Lemma overlaps_request_summary (mask : FieldMask) (eu : EventUsers) :
  summary_is_union eu ->
  overlaps_request mask eu = true <-> mask &&& user_mask eu <> 0.
Proof.
  intros Hsum. rewrite Hsum, overlap_union_of. apply overlaps_request_spec.
Qed.

(** ** C2: reduction views, readers against reducers *)

Lemma dom_record_precondition (e : Event) (overlap : FieldMask)
    (pre : gmap Event FieldMask) :
  dom (record_precondition e overlap pre) = {[e]} ∪ dom pre.
Proof.
  unfold record_precondition. destruct (pre !! e); apply dom_insert_L.
Qed.

Lemma existsb_fmap {A B} (f : B -> bool) (g : A -> B) (l : list A) :
  existsb f (g <$> l) = existsb (fun x => f (g x)) l.
Proof. induction l as [|a l IH]; csimpl; [reflexivity | rewrite IH; reflexivity]. Qed.

Lemma disjoint_not_overlaps (mask : FieldMask) (eu : EventUsers) :
  summary_is_union eu ->
  Mask.disjoint mask (user_mask eu) = negb (overlaps_request mask eu).
Proof.
  intros Hsum. unfold Mask.disjoint.
  destruct (overlaps_request mask eu) eqn:Hov; simpl.
  - apply N.eqb_neq. apply overlaps_request_summary in Hov; assumption.
  - apply N.eqb_eq.
    destruct (N.eq_dec (N.land mask (user_mask eu)) 0) as [Hz | Hnz]; [assumption|].
    apply (overlaps_request_summary mask eu Hsum) in Hnz. congruence.
Qed.

Lemma reduction_copy_users_dom (e : Event) (copy_mask : FieldMask)
    (l : list (N * (PhysicalUser * FieldMask))) (pre : gmap Event FieldMask) :
  dom (foldl (fun pre (it : N * (PhysicalUser * FieldMask)) =>
                let overlap := copy_mask &&& it.2.2 in
                if Mask.is_empty overlap then pre
                else record_precondition e overlap pre) pre l)
  = if existsb (fun it : N * (PhysicalUser * FieldMask) =>
                  negb (Mask.is_empty (copy_mask &&& it.2.2))) l
    then {[e]} ∪ dom pre else dom pre.
Proof.
  revert pre. induction l as [|it l IH]; intros pre; simpl; [reflexivity|].
  rewrite IH. destruct (Mask.is_empty (copy_mask &&& it.2.2)); simpl.
  - reflexivity.
  - rewrite dom_record_precondition.
    destruct (existsb _ l); set_solver.
Qed.

Lemma reduction_copy_entry_dom (copy_mask : FieldMask) (rit : Event * EventUsers)
    (pre : gmap Event FieldMask) :
  summary_is_union rit.2 ->
  dom (reduction_copy_entry copy_mask rit pre)
  = if overlaps_request copy_mask rit.2 then {[rit.1]} ∪ dom pre else dom pre.
Proof.
  intros Hsum. unfold reduction_copy_entry.
  rewrite (disjoint_not_overlaps copy_mask rit.2 Hsum).
  unfold overlaps_request, recorded_masks.
  destruct (users rit.2) as [u | m]; simpl.
  - rewrite orb_false_r.
    destruct (Mask.is_empty (copy_mask &&& user_mask rit.2)); simpl;
      [reflexivity | apply dom_record_precondition].
  - rewrite existsb_fmap.
    destruct (existsb _ (entries m)) eqn:Hex; simpl; [|reflexivity].
    rewrite reduction_copy_users_dom, Hex. reflexivity.
Qed.

Lemma reduction_wait_entry_spec (mask : FieldMask) (rit : Event * EventUsers)
    (wait_on : gset Event) :
  summary_is_union rit.2 ->
  reduction_wait_entry mask rit wait_on
  = if overlaps_request mask rit.2 then {[rit.1]} ∪ wait_on else wait_on.
Proof.
  intros Hsum. unfold reduction_wait_entry.
  rewrite (disjoint_not_overlaps mask rit.2 Hsum).
  unfold overlaps_request, recorded_masks.
  destruct (users rit.2) as [u | m]; simpl.
  - rewrite orb_false_r.
    destruct (Mask.is_empty (mask &&& user_mask rit.2)); reflexivity.
  - rewrite existsb_fmap.
    destruct (existsb _ (entries m)); reflexivity.
Qed.

Lemma reduction_copy_table_dom (copy_mask : FieldMask)
    (l : list (Event * EventUsers)) (pre : gmap Event FieldMask) (e : Event) :
  (forall rit, rit ∈ l -> summary_is_union rit.2) ->
  e ∈ dom (foldl (fun pre rit => reduction_copy_entry copy_mask rit pre) pre l) <->
  e ∈ dom pre \/ exists eu, (e, eu) ∈ l /\ overlaps_request copy_mask eu = true.
Proof.
  revert pre. induction l as [|rit l IH]; intros pre Hsum; simpl.
  - split; [auto|]. intros [?|(eu & Hin & _)]; [assumption | inversion Hin].
  - rewrite IH by (intros r Hr; apply Hsum; right; assumption).
    rewrite reduction_copy_entry_dom by (apply Hsum; left).
    destruct rit as [e' eu']; simpl. split.
    + intros [Hd | (eu & Hin & Hov)].
      * destruct (overlaps_request copy_mask eu') eqn:Hov'; [|auto].
        apply elem_of_union in Hd as [He | Hd]; [|auto].
        apply elem_of_singleton in He as ->.
        right. exists eu'. split; [left | assumption].
      * right. exists eu. split; [right; assumption | assumption].
    + intros [Hd | (eu & Hin & Hov)].
      * left. destruct (overlaps_request copy_mask eu'); set_solver.
      * apply elem_of_cons in Hin as [Heq | Hin].
        -- injection Heq as -> ->. left. rewrite Hov. set_solver.
        -- right. exists eu. split; assumption.
Qed.

Lemma reduction_wait_table (mask : FieldMask)
    (l : list (Event * EventUsers)) (wait_on : gset Event) (e : Event) :
  (forall rit, rit ∈ l -> summary_is_union rit.2) ->
  e ∈ foldl (fun w rit => reduction_wait_entry mask rit w) wait_on l <->
  e ∈ wait_on \/ exists eu, (e, eu) ∈ l /\ overlaps_request mask eu = true.
Proof.
  revert wait_on. induction l as [|rit l IH]; intros wait_on Hsum; simpl.
  - split; [auto|]. intros [?|(eu & Hin & _)]; [assumption | inversion Hin].
  - rewrite IH by (intros r Hr; apply Hsum; right; assumption).
    rewrite reduction_wait_entry_spec by (apply Hsum; left).
    destruct rit as [e' eu']; simpl. split.
    + intros [Hd | (eu & Hin & Hov)].
      * destruct (overlaps_request mask eu') eqn:Hov'; [|auto].
        apply elem_of_union in Hd as [He | Hd]; [|auto].
        apply elem_of_singleton in He as ->.
        right. exists eu'. split; [left | assumption].
      * right. exists eu. split; [right; assumption | assumption].
    + intros [Hd | (eu & Hin & Hov)].
      * left. destruct (overlaps_request mask eu'); set_solver.
      * apply elem_of_cons in Hin as [Heq | Hin].
        -- injection Heq as -> ->. left. rewrite Hov. set_solver.
        -- right. exists eu. split; assumption.
Qed.

Lemma table_summaries_entries (table : gmap Event EventUsers) :
  table_summaries table -> forall rit, rit ∈ entries table -> summary_is_union rit.2.
Proof.
  intros Ht [e eu] Hin. apply elem_of_entries in Hin. exact (Ht e eu Hin).
Qed.

(** C2. On a reduction view whose buckets satisfy the summary invariant,
    the events that [find_copy_preconditions] adds for a reading caller
    are exactly the events of the reducers table recorded with a mask
    that overlaps the request, and for a reducing caller exactly those of
    the readers table; the same holds for the events [add_user] waits
    on.  Beside them the result only holds what the caller passed in and
    the use event of the allocation.  So a reader waits for every
    overlapping reducer and a reducer for every overlapping reader, and
    no event is contributed by the caller's own side. *)
Theorem reduction_view_coherence `{Analysis} (man : ReductionManager)
    (redop : ReductionOpID) (copy_mask : FieldMask) (pre : gmap Event FieldMask)
    (usage : RegionUsage) (term_event : Event) (s : ReductionState) :
  table_summaries (reduction_users s) ->
  table_summaries (reading_users s) ->
  let use := red_use_event man in
  (forall e,
     e ∈ dom (red_find_copy_preconditions man redop true copy_mask pre s) <->
     e ∈ dom pre \/ (event_exists use = true /\ e = use) \/
     contributes (reduction_users s) copy_mask e) /\
  (forall e,
     e ∈ dom (red_find_copy_preconditions man redop false copy_mask pre s) <->
     e ∈ dom pre \/ (event_exists use = true /\ e = use) \/
     contributes (reading_users s) copy_mask e) /\
  (forall e,
     e ∈ (red_add_user man usage term_event copy_mask s).1.1 <->
     (event_exists use = true /\ e = use) \/
     contributes (if IS_READ_ONLY usage then reduction_users s else reading_users s)
       copy_mask e).
Proof.
  intros Hred Hread use.
  assert (Hcopy : forall reading e,
     e ∈ dom (red_find_copy_preconditions man redop reading copy_mask pre s) <->
     e ∈ dom pre \/ (event_exists use = true /\ e = use) \/
     contributes (if reading then reduction_users s else reading_users s)
       copy_mask e).
  { intros reading e. unfold red_find_copy_preconditions. fold use.
    rewrite reduction_copy_table_dom
      by (apply table_summaries_entries; destruct reading; assumption).
    unfold contributes. setoid_rewrite elem_of_entries.
    destruct (event_exists use) eqn:Hex.
    - rewrite dom_record_precondition, elem_of_union, elem_of_singleton.
      intuition congruence.
    - intuition congruence. }
  split; [exact (Hcopy true)|]. split; [exact (Hcopy false)|].
  intros e. unfold red_add_user. fold use. simpl.
  rewrite reduction_wait_table
    by (apply table_summaries_entries; destruct (IS_READ_ONLY usage); assumption).
  unfold contributes. setoid_rewrite elem_of_entries.
  destruct (event_exists use) eqn:Hex.
  - rewrite elem_of_singleton. intuition congruence.
  - rewrite elem_of_empty. intuition congruence.
Qed.

Lemma table_summaries_empty : table_summaries ∅.
Proof. intros e eu Hl. rewrite lookup_empty in Hl. discriminate. Qed.

Lemma summary_is_union_single (mask : FieldMask) (u : N * PhysicalUser) :
  summary_is_union (mkEventUsers mask (single_user u)).
Proof.
  unfold summary_is_union, recorded_masks. simpl. unfold Mask.union, Mask.empty.
  rewrite N.lor_0_r. reflexivity.
Qed.

Lemma reduction_view_coherence_witness :
  (table_summaries (reduction_users one_reducer) /\
   table_summaries (reading_users one_reducer)) /\
  (1 ∈ dom (red_find_copy_preconditions (mkRedManager 0 3) 3 true 1 ∅ one_reducer) <->
   1 ∈ dom (∅ : gmap Event FieldMask) \/
   (event_exists 0 = true /\ 1 = 0) \/
   contributes (reduction_users one_reducer) 1 1).
Proof.
  assert (H1 : table_summaries (reduction_users one_reducer)).
  { intros e eu Hl. unfold one_reducer in Hl. simpl in Hl.
    apply lookup_singleton_Some in Hl as [_ <-].
    apply summary_is_union_single. }
  assert (H2 : table_summaries (reading_users one_reducer))
    by apply table_summaries_empty.
  split; [auto|].
  exact (proj1 (@reduction_view_coherence sample_analysis (mkRedManager 0 3) 3 1 ∅
                  read_only 2 one_reducer H1 H2) 1).
Defined.

(** ** C10: the use event of the allocation *)

Lemma foldl_preserves {A B} (R : B -> B -> Prop) (f : B -> A -> B) :
  (forall b, R b b) -> (forall a b c, R a b -> R b c -> R a c) ->
  (forall b a, R b (f b a)) ->
  forall l b, R b (foldl f b l).
Proof.
  intros Hrefl Htrans Hstep l. induction l as [|a l IH]; intros b; simpl.
  - apply Hrefl.
  - eapply Htrans; [apply Hstep | apply IH].
Qed.

Lemma subseteq_refl (m : FieldMask) : Mask.subseteq m m.
Proof. apply N.ldiff_diag. Qed.

Lemma subseteq_bits (a b : FieldMask) :
  Mask.subseteq a b <-> forall i, N.testbit a i = true -> N.testbit b i = true.
Proof.
  unfold Mask.subseteq. rewrite mask_zero_bits. split.
  - intros Hd i Ha. specialize (Hd i). rewrite N.ldiff_spec, Ha in Hd.
    simpl in Hd. apply negb_false_iff in Hd. exact Hd.
  - intros Hs i. rewrite N.ldiff_spec.
    destruct (N.testbit a i) eqn:Ha; [|reflexivity].
    rewrite (Hs i Ha). reflexivity.
Qed.

Lemma subseteq_trans (a b c : FieldMask) :
  Mask.subseteq a b -> Mask.subseteq b c -> Mask.subseteq a c.
Proof. rewrite !subseteq_bits. auto. Qed.

Lemma subseteq_union_l (a b : FieldMask) : Mask.subseteq a (a ||| b).
Proof.
  apply subseteq_bits. intros i Ha. unfold Mask.union.
  rewrite N.lor_spec, Ha. reflexivity.
Qed.

Lemma subseteq_union_r (a b : FieldMask) : Mask.subseteq b (a ||| b).
Proof.
  apply subseteq_bits. intros i Hb. unfold Mask.union.
  rewrite N.lor_spec, Hb. apply orb_true_r.
Qed.

Lemma covers_refl (pre : gmap Event FieldMask) : covers pre pre.
Proof. intros e m Hm. exists m. split; [assumption | apply subseteq_refl]. Qed.

Lemma covers_trans (a b c : gmap Event FieldMask) :
  covers a b -> covers b c -> covers a c.
Proof.
  intros Hab Hbc e m Hm.
  destruct (Hab e m Hm) as (m1 & H1 & Hs1).
  destruct (Hbc e m1 H1) as (m2 & H2 & Hs2).
  exists m2. split; [assumption | eapply subseteq_trans; eassumption].
Qed.

Lemma covers_record (e : Event) (overlap : FieldMask) (pre : gmap Event FieldMask) :
  covers pre (record_precondition e overlap pre).
Proof.
  intros e' m Hm. unfold record_precondition.
  destruct (decide (e = e')) as [<- | Hne].
  - rewrite Hm. rewrite lookup_insert_eq. eexists. split; [reflexivity|].
    apply subseteq_union_l.
  - destruct (pre !! e); rewrite lookup_insert_ne by assumption;
      (exists m; split; [assumption | apply subseteq_refl]).
Qed.

Lemma record_precondition_holds (e : Event) (overlap : FieldMask)
    (pre : gmap Event FieldMask) :
  exists m, record_precondition e overlap pre !! e = Some m /\ Mask.subseteq overlap m.
Proof.
  unfold record_precondition. destruct (pre !! e) as [m0|].
  - rewrite lookup_insert_eq. eexists. split; [reflexivity | apply subseteq_union_r].
  - rewrite lookup_insert_eq. eexists. split; [reflexivity | apply subseteq_refl].
Qed.

(** *** The task path only adds events *)

Lemma find_current_preconditions_mono `{Analysis} node e u pm nu nm cc acc :
  preconditions acc ⊆ preconditions (find_current_preconditions node e u pm nu nm cc acc).2.
Proof.
  unfold find_current_preconditions.
  repeat match goal with
         | |- context [if ?b then _ else _] => destruct b
         | |- context [match ?d with NO_DEPENDENCE => _ | _ => _ end] => destruct d
         end; simpl; set_solver.
Qed.

Lemma find_current_multi_mono `{Analysis} node e l nu nm cc acc :
  preconditions acc ⊆ preconditions (find_current_multi node e l nu nm cc acc).
Proof.
  revert acc. induction l as [|it l IH]; intros acc; simpl; [reflexivity|].
  pose proof (find_current_preconditions_mono node e it.2.1 it.2.2 nu nm cc acc) as Hm.
  destruct (find_current_preconditions node e it.2.1 it.2.2 nu nm cc acc) as [b acc'].
  simpl in *. destruct b; [assumption|].
  etransitivity; [exact Hm | apply IH].
Qed.

Lemma find_previous_preconditions_mono `{Analysis} node e u pm nu nm cc pre :
  pre ⊆ (find_previous_preconditions node e u pm nu nm cc pre).2.
Proof.
  unfold find_previous_preconditions.
  repeat match goal with
         | |- context [if ?b then _ else _] => destruct b
         | |- context [match ?d with NO_DEPENDENCE => _ | _ => _ end] => destruct d
         end; simpl; set_solver.
Qed.

Lemma find_previous_multi_mono `{Analysis} node e l nu nm cc pre :
  pre ⊆ find_previous_multi node e l nu nm cc pre.
Proof.
  revert pre. induction l as [|it l IH]; intros pre; simpl; [reflexivity|].
  pose proof (find_previous_preconditions_mono node e it.2.1 it.2.2 nu nm cc pre) as Hm.
  destruct (find_previous_preconditions node e it.2.1 it.2.2 nu nm cc pre) as [b pre'].
  simpl in *. destruct b; [assumption|].
  etransitivity; [exact Hm | apply IH].
Qed.

Lemma current_task_entry_mono `{Analysis} ht node usage te mask cc cit st :
  preconditions st.2 ⊆
  preconditions (current_task_entry ht node usage te mask cc cit st).2.
Proof.
  unfold current_task_entry.
  destruct (ht cit.1); [reflexivity|].
  destruct (N.eqb cit.1 te); [reflexivity|].
  destruct (decide (cit.1 ∈ preconditions st.2)); [reflexivity|].
  destruct (users cit.2) as [u|m]; simpl.
  - apply find_current_preconditions_mono.
  - destruct (Mask.disjoint mask (user_mask cit.2)); [reflexivity|].
    apply find_current_multi_mono.
Qed.

Lemma previous_task_entry_mono `{Analysis} ht node usage te nd dom skip cc pit st :
  prev_preconditions st ⊆
  prev_preconditions (previous_task_entry ht node usage te nd dom skip cc pit st).
Proof.
  unfold previous_task_entry.
  destruct (ht pit.1); [reflexivity|].
  destruct (N.eqb pit.1 te); [reflexivity|].
  destruct (decide (pit.1 ∈ prev_preconditions st)); [reflexivity|].
  destruct skip; [reflexivity|].
  destruct (users pit.2) as [u|m]; simpl.
  - apply find_previous_preconditions_mono.
  - destruct (Mask.disjoint nd (user_mask pit.2)); [reflexivity|].
    apply find_previous_multi_mono.
Qed.

Lemma current_task_pass_mono `{Analysis} ht node usage te mask cc l st :
  preconditions st.2 ⊆
  preconditions
    (foldl (fun st cit => current_task_entry ht node usage te mask cc cit st) st l).2.
Proof.
  revert st. induction l as [|cit l IH]; intros st; simpl; [reflexivity|].
  etransitivity; [apply current_task_entry_mono | apply IH].
Qed.

Lemma previous_task_pass_mono `{Analysis} ht node usage te nd dom skip cc l st :
  prev_preconditions st ⊆
  prev_preconditions
    (foldl (fun st pit => previous_task_entry ht node usage te nd dom skip cc pit st)
           st l).
Proof.
  revert st. induction l as [|pit l IH]; intros st; simpl; [reflexivity|].
  etransitivity; [apply previous_task_entry_mono | apply IH].
Qed.

Lemma task_analysis_mono `{Analysis} ht node usage te cc mask pre s :
  pre ⊆ ta_preconditions (task_analysis ht node usage te cc mask pre s).
Proof.
  unfold task_analysis. simpl.
  etransitivity; [|apply previous_task_pass_mono]. simpl.
  apply (current_task_pass_mono ht node usage te mask cc _
           (∅, mkTaskAcc pre Mask.empty Mask.empty)).
Qed.

Lemma add_local_user_preconditions `{Analysis} ht ht' node usage te base cc vi mask pre
  s : (add_local_user ht ht' node usage te base cc vi mask pre s).1.2
  = ta_preconditions (task_analysis ht node usage te cc mask pre s).
Proof.
  unfold add_local_user.
  destruct (event_exists te); [|reflexivity].
  destruct (new_user node usage cc vi (heap s)) as [user h].
  destruct (decide _); reflexivity.
Qed.

Lemma add_user_above_mono `{Analysis} ht ht' v usage te cc vi mask pre :
  pre ⊆ (add_user_above ht ht' v usage te cc vi mask pre).1.
Proof.
  revert cc pre. induction v as [st node man | st node man p IH]
    using MaterializedView_chain_ind; intros cc pre; simpl.
  - rewrite add_local_user_preconditions. apply task_analysis_mono.
  - destruct (negb (is_upper_bound_node vi node)); simpl;
      rewrite add_local_user_preconditions.
    + etransitivity; [apply IH | apply task_analysis_mono].
    + apply task_analysis_mono.
Qed.

(** *** The copy path only adds events and fields *)

Lemma find_current_copy_preconditions_covers `{Analysis} node e u m redop reading
    cm cc vs acc :
  covers (copy_preconditions acc)
    (copy_preconditions
       (find_current_copy_preconditions node e u m redop reading cm cc vs acc)).
Proof.
  unfold find_current_copy_preconditions.
  repeat match goal with
         | |- context [if ?b then _ else _] => destruct b
         end; simpl; try apply covers_refl.
  apply covers_record.
Qed.

Lemma find_previous_copy_preconditions_covers `{Analysis} node e u m redop reading
    cm cc vs pre :
  covers pre (find_previous_copy_preconditions node e u m redop reading cm cc vs pre).
Proof.
  unfold find_previous_copy_preconditions.
  repeat match goal with
         | |- context [if ?b then _ else _] => destruct b
         end; simpl; try apply covers_refl.
  apply covers_record.
Qed.

Lemma current_copy_users_covers `{Analysis} node e redop reading cm cc vs
    (l : list (N * (PhysicalUser * FieldMask))) acc :
  covers (copy_preconditions acc)
    (copy_preconditions
       (foldl (fun acc (it : N * (PhysicalUser * FieldMask)) =>
                 find_current_copy_preconditions node e it.2.1 it.2.2
                   redop reading cm cc vs acc) acc l)).
Proof.
  revert acc. induction l as [|it l IH]; intros acc; simpl; [apply covers_refl|].
  eapply covers_trans; [apply find_current_copy_preconditions_covers | apply IH].
Qed.

Lemma previous_copy_users_covers `{Analysis} node e redop reading cm cc vs
    (l : list (N * (PhysicalUser * FieldMask))) pre :
  covers pre
    (foldl (fun pre (it : N * (PhysicalUser * FieldMask)) =>
              find_previous_copy_preconditions node e it.2.1 it.2.2
                redop reading cm cc vs pre) pre l).
Proof.
  revert pre. induction l as [|it l IH]; intros pre; simpl; [apply covers_refl|].
  eapply covers_trans; [apply find_previous_copy_preconditions_covers | apply IH].
Qed.

Lemma current_copy_entry_covers `{Analysis} ht node redop reading cm cc vs cit st :
  covers (copy_preconditions st.2)
    (copy_preconditions (current_copy_entry ht node redop reading cm cc vs cit st).2).
Proof.
  unfold current_copy_entry.
  destruct (ht cit.1); [apply covers_refl|].
  destruct (users cit.2) as [u|m]; simpl.
  - apply find_current_copy_preconditions_covers.
  - destruct (Mask.disjoint cm (user_mask cit.2)); [apply covers_refl|].
    apply current_copy_users_covers.
Qed.

Lemma previous_copy_entry_covers `{Analysis} ht node redop reading nd dom skip cc vs
    pit st :
  covers (prevc_preconditions st)
    (prevc_preconditions
       (previous_copy_entry ht node redop reading nd dom skip cc vs pit st)).
Proof.
  unfold previous_copy_entry.
  destruct (ht pit.1); [apply covers_refl|].
  destruct skip; [apply covers_refl|].
  destruct (users pit.2) as [u|m]; simpl.
  - apply find_previous_copy_preconditions_covers.
  - destruct (Mask.disjoint nd (user_mask pit.2)); [apply covers_refl|].
    apply previous_copy_users_covers.
Qed.

Lemma current_copy_pass_covers `{Analysis} ht node redop reading cm cc vs l st :
  covers (copy_preconditions st.2)
    (copy_preconditions
       (foldl (fun st cit => current_copy_entry ht node redop reading cm cc vs cit st)
              st l).2).
Proof.
  revert st. induction l as [|cit l IH]; intros st; simpl; [apply covers_refl|].
  eapply covers_trans; [apply current_copy_entry_covers | apply IH].
Qed.

Lemma previous_copy_pass_covers `{Analysis} ht node redop reading nd dom skip cc vs
    l st :
  covers (prevc_preconditions st)
    (prevc_preconditions
       (foldl (fun st pit => previous_copy_entry ht node redop reading nd dom skip
                               cc vs pit st) st l)).
Proof.
  revert st. induction l as [|pit l IH]; intros st; simpl; [apply covers_refl|].
  eapply covers_trans; [apply previous_copy_entry_covers | apply IH].
Qed.

Lemma copy_analysis_covers `{Analysis} ht node redop reading cm cc vs pre s :
  covers pre (ca_preconditions (copy_analysis ht node redop reading cm cc vs pre s)).
Proof.
  unfold copy_analysis. simpl.
  eapply covers_trans; [|apply previous_copy_pass_covers]. simpl.
  apply (current_copy_pass_covers ht node redop reading cm cc vs _
           (∅, mkCopyAcc pre Mask.empty Mask.empty)).
Qed.

Lemma find_local_copy_preconditions_covers `{Analysis} ht ht' node redop reading cm cc
  vi pre s :
  covers pre (find_local_copy_preconditions ht ht' node redop reading cm cc vi pre s).1.
Proof. unfold find_local_copy_preconditions. simpl. apply copy_analysis_covers. Qed.

Lemma find_copy_preconditions_above_covers `{Analysis} ht ht' v redop reading cm cc vi
  pre : covers pre (find_copy_preconditions_above ht ht' v redop reading cm cc vi pre).1.
Proof.
  revert cc pre. induction v as [st node man | st node man p IH]
    using MaterializedView_chain_ind; intros cc pre; simpl.
  - apply (find_local_copy_preconditions_covers ht ht').
  - destruct (negb (is_upper_bound_node vi node)); simpl.
    + eapply covers_trans; [apply IH | apply (find_local_copy_preconditions_covers ht
        ht')].
    + apply (find_local_copy_preconditions_covers ht ht').
Qed.

Lemma reduction_copy_entry_covers (cm : FieldMask) (rit : Event * EventUsers)
    (pre : gmap Event FieldMask) :
  covers pre (reduction_copy_entry cm rit pre).
Proof.
  unfold reduction_copy_entry. destruct (users rit.2) as [u|m].
  - simpl. destruct (Mask.is_empty _); [apply covers_refl | apply covers_record].
  - destruct (Mask.disjoint cm (user_mask rit.2)); [apply covers_refl|].
    generalize (entries m). intros l. revert pre.
    induction l as [|it l IH]; intros pre; simpl; [apply covers_refl|].
    eapply covers_trans; [|apply IH].
    destruct (Mask.is_empty _); [apply covers_refl | apply covers_record].
Qed.

Lemma reduction_copy_table_covers (cm : FieldMask) (l : list (Event * EventUsers))
    (pre : gmap Event FieldMask) :
  covers pre (foldl (fun pre rit => reduction_copy_entry cm rit pre) pre l).
Proof.
  revert pre. induction l as [|rit l IH]; intros pre; simpl; [apply covers_refl|].
  eapply covers_trans; [apply reduction_copy_entry_covers | apply IH].
Qed.

Lemma reduction_wait_table_mono (mask : FieldMask) (l : list (Event * EventUsers))
    (wait_on : gset Event) :
  wait_on ⊆ foldl (fun w rit => reduction_wait_entry mask rit w) wait_on l.
Proof.
  revert wait_on. induction l as [|rit l IH]; intros w; simpl; [reflexivity|].
  etransitivity; [|apply IH].
  unfold reduction_wait_entry.
  destruct (users rit.2); repeat (case_match; try reflexivity); set_solver.
Qed.

(** C10. When the use event of the backing allocation exists, it is part
    of every precondition result, whatever the epoch tables hold: the
    set of events merged by [add_user] of a materialized view and of a
    reduction view contains it, and the precondition map returned by
    [find_copy_preconditions] of either view holds it with a mask that
    covers the whole requested mask. *)
Theorem use_event_always_waited `{Analysis} (has_triggered has_triggered' : Event -> bool)
    (v : MaterializedView) (rman : ReductionManager) (rs : ReductionState)
    (usage : RegionUsage) (term_event : Event) (mask : FieldMask)
    (version_info : VersionInfo) (redop : ReductionOpID) (reading : bool)
    (pre : gmap Event FieldMask) :
  (event_exists (get_use_event (manager v)) = true ->
     get_use_event (manager v)
       ∈ (add_user has_triggered has_triggered' v usage term_event mask
           version_info).1.1 /\
     exists m,
       (find_copy_preconditions has_triggered has_triggered' v redop reading mask
         version_info pre).1
         !! get_use_event (manager v) = Some m /\ Mask.subseteq mask m) /\
  (event_exists (red_use_event rman) = true ->
     red_use_event rman ∈ (red_add_user rman usage term_event mask rs).1.1 /\
     exists m,
       red_find_copy_preconditions rman redop reading mask pre rs
         !! red_use_event rman = Some m /\ Mask.subseteq mask m).
Proof.
  split; intros Hex.
  - split.
    + unfold add_user. rewrite Hex.
      destruct (parent v) as [p|]; simpl.
      * destruct (negb (is_upper_bound_node version_info (logical_node v))); simpl;
          rewrite add_local_user_preconditions.
        -- apply task_analysis_mono, add_user_above_mono. set_solver.
        -- apply task_analysis_mono. set_solver.
      * rewrite add_local_user_preconditions. apply task_analysis_mono. set_solver.
    + unfold find_copy_preconditions. rewrite Hex.
      destruct (record_precondition_holds (get_use_event (manager v)) mask pre)
        as (m0 & Hm0 & Hs0).
      assert (Hcov : forall pre', covers (record_precondition
                        (get_use_event (manager v)) mask pre) pre' ->
                exists m, pre' !! get_use_event (manager v) = Some m /\
                          Mask.subseteq mask m).
      { intros pre' Hc. destruct (Hc _ _ Hm0) as (m & Hm & Hs).
        exists m. split; [assumption | eapply subseteq_trans; eassumption]. }
      destruct (parent v) as [p|]; simpl.
      * destruct (negb (is_upper_bound_node version_info (logical_node v))); simpl;
          apply Hcov.
        -- exact (covers_trans _ _ _
                    (find_copy_preconditions_above_covers has_triggered has_triggered'
                       _ _ _ _ _ _ _)
                    (find_local_copy_preconditions_covers has_triggered has_triggered'
                       _ _ _ _ _ _ _ _)).
        -- exact (find_local_copy_preconditions_covers has_triggered has_triggered'
                       _ _ _ _ _ _ _ _).
      * apply Hcov. exact (find_local_copy_preconditions_covers has_triggered
          has_triggered'
                       _ _ _ _ _ _ _ _).
  - split.
    + unfold red_add_user. rewrite Hex. simpl.
      apply reduction_wait_table_mono. set_solver.
    + unfold red_find_copy_preconditions. rewrite Hex.
      destruct (record_precondition_holds (red_use_event rman) mask pre)
        as (m0 & Hm0 & Hs0).
      destruct (reduction_copy_table_covers mask
                  (entries (if reading then reduction_users rs else reading_users rs))
                  (record_precondition (red_use_event rman) mask pre) _ _ Hm0)
        as (m & Hm & Hs).
      exists m. split; [assumption | eapply subseteq_trans; eassumption].
Qed.

Lemma use_event_always_waited_witness :
  let v := mkView empty_state sample_node (mkManager 5) None in
  event_exists (get_use_event (manager v)) = true /\
  get_use_event (manager v)
    ∈ (@add_user sample_analysis (fun _ => false) (fun _ => false) v read_write 7 1
         (mkVersionInfo (fun _ => true) (fun _ => None))).1.1.
Proof.
  intros v. split; [reflexivity|].
  exact (proj1 (proj1 (@use_event_always_waited sample_analysis (fun _ => false) (fun _
      => false) v
                         (mkRedManager 5 0) empty_red_state read_write 7 1
                         (mkVersionInfo (fun _ => true) (fun _ => None)) 0 false ∅)
                  eq_refl)).
Defined.

(** ** C9: references held by a composite node *)

Lemma from_end_nil {A} (m : gmap N A) : from_end m = [].
Proof. unfold from_end. apply drop_all. Qed.

(** C9. A composite node that holds one valid view and one reduction
    view is activated and deactivated, then validated and invalidated.
    The walk over the valid views in [notify_inactive] and in
    [notify_invalid] starts at the end of the map, and [notify_invalid]
    adds a valid reference to each reduction view where it should remove
    one: after the first cycle the valid view is left with one gc
    reference too many, after the second it is left with one valid
    reference and the reduction view with two. *)
Theorem composite_node_cycle_counts :
  let active := notify_inactive sample_composite_node
                  (notify_active sample_composite_node ∅) in
  let valid := notify_invalid sample_composite_node
                 (notify_valid sample_composite_node ∅) in
  gc_references (counts active 10) = 1%Z /\
  gc_references (counts active 20) = 0%Z /\
  valid_references (counts valid 10) = 1%Z /\
  valid_references (counts valid 20) = 2%Z.
Proof. vm_compute. repeat split. Qed.

(** ** C8: dropping the users of an event *)

Lemma foldl_fmap {A B C} (f : C -> B -> C) (g : A -> B) (l : list A) (c : C) :
  foldl f c (g <$> l) = foldl (fun c a => f c (g a)) c l.
Proof. revert c. induction l as [|a l IH]; intros c; csimpl; [reflexivity | apply IH]. Qed.

Lemma release_users_all (eu : EventUsers) (h : UserHeap) :
  release_users eu h = release_all (bucket_users eu) h.
Proof.
  unfold release_users, release_all, bucket_users.
  destruct (users eu) as [u|m]; [reflexivity|].
  rewrite foldl_fmap. reflexivity.
Qed.

Lemma delete_users_all (eu : EventUsers) (h : UserHeap) :
  delete_users eu h = delete_all (bucket_users eu) h.
Proof.
  unfold delete_users, delete_all, bucket_users.
  destruct (users eu) as [u|m]; [reflexivity|].
  rewrite foldl_fmap. reflexivity.
Qed.

Lemma drop_bucket_spec (e : Event) (table : gmap Event EventUsers) (h : UserHeap) :
  drop_bucket e table h = (delete e table, release_all (users_under table e) h).
Proof.
  unfold drop_bucket, users_under. destruct (table !! e) as [eu|] eqn:Hl.
  - rewrite release_users_all. reflexivity.
  - rewrite delete_id by assumption. reflexivity.
Qed.

Lemma red_drop_bucket_spec (e : Event) (table : gmap Event EventUsers) (h : UserHeap) :
  red_drop_bucket e table h = (delete e table, delete_all (users_under table e) h).
Proof.
  unfold red_drop_bucket, users_under. destruct (table !! e) as [eu|] eqn:Hl.
  - rewrite delete_users_all. reflexivity.
  - rewrite delete_id by assumption. reflexivity.
Qed.

Lemma filter_local_users_recorded (e : Event) (s : MaterializedState) :
  e ∈ outstanding_gc_events s ->
  filter_local_users e s =
    mkState (delete e (current_epoch_users s)) (delete e (previous_epoch_users s))
            (outstanding_gc_events s ∖ {[e]}) (initial_user_events s)
            (release_all (users_under (current_epoch_users s) e ++
                          users_under (previous_epoch_users s) e) (heap s)).
Proof.
  intros Hin. unfold filter_local_users.
  destruct (decide (e ∈ outstanding_gc_events s)); [|contradiction].
  rewrite !drop_bucket_spec. unfold release_all. rewrite foldl_app. reflexivity.
Qed.

Lemma filter_local_users_unrecorded (e : Event) (s : MaterializedState) :
  e ∉ outstanding_gc_events s -> filter_local_users e s = s.
Proof.
  intros Hin. unfold filter_local_users.
  destruct (decide (e ∈ outstanding_gc_events s)); [contradiction | reflexivity].
Qed.

Lemma red_filter_local_users_recorded (e : Event) (s : ReductionState) :
  e ∈ red_outstanding_gc_events s ->
  red_filter_local_users e s =
    mkRedState (delete e (reduction_users s)) (delete e (reading_users s))
               (red_outstanding_gc_events s ∖ {[e]}) (red_initial_user_events s)
               (delete_all (users_under (reduction_users s) e ++
                            users_under (reading_users s) e) (red_heap s)).
Proof.
  intros Hin. unfold red_filter_local_users.
  destruct (decide (e ∈ red_outstanding_gc_events s)); [|contradiction].
  rewrite !red_drop_bucket_spec. unfold delete_all. rewrite foldl_app. reflexivity.
Qed.

Lemma red_filter_local_users_unrecorded (e : Event) (s : ReductionState) :
  e ∉ red_outstanding_gc_events s -> red_filter_local_users e s = s.
Proof.
  intros Hin. unfold red_filter_local_users.
  destruct (decide (e ∈ red_outstanding_gc_events s)); [contradiction | reflexivity].
Qed.

Lemma users_under_absent (table : gmap Event EventUsers) (e : Event) :
  e ∉ dom table -> users_under table e = [].
Proof.
  intros Hd. unfold users_under. apply not_elem_of_dom in Hd. rewrite Hd. reflexivity.
Qed.

(** C8. In a view whose table events all have a collection pending,
    [filter_local_users e] leaves no entry for [e] in either table nor
    in [outstanding_gc_events], touches no other event, and releases one
    reference for each user the two buckets held (a reduction view
    deletes those users).  It is a total function; on an event that is
    not recorded, or was removed by an earlier call, it returns the state
    it was given. *)
Theorem filter_local_users_drops_event (e : Event) (s : MaterializedState)
    (rs : ReductionState) :
  (gc_covers s ->
     let s' := filter_local_users e s in
     current_epoch_users s' = delete e (current_epoch_users s) /\
     previous_epoch_users s' = delete e (previous_epoch_users s) /\
     outstanding_gc_events s' = outstanding_gc_events s ∖ {[e]} /\
     heap s' = release_all (users_under (current_epoch_users s) e ++
                            users_under (previous_epoch_users s) e) (heap s)) /\
  (red_gc_covers rs ->
     let rs' := red_filter_local_users e rs in
     reduction_users rs' = delete e (reduction_users rs) /\
     reading_users rs' = delete e (reading_users rs) /\
     red_outstanding_gc_events rs' = red_outstanding_gc_events rs ∖ {[e]} /\
     red_heap rs' = delete_all (users_under (reduction_users rs) e ++
                                users_under (reading_users rs) e) (red_heap rs)) /\
  (e ∉ outstanding_gc_events s -> filter_local_users e s = s) /\
  (e ∉ red_outstanding_gc_events rs -> red_filter_local_users e rs = rs) /\
  filter_local_users e (filter_local_users e s) = filter_local_users e s /\
  red_filter_local_users e (red_filter_local_users e rs) = red_filter_local_users e rs.
Proof.
  split; [|split; [|split; [|split; [|split]]]].
  - intros Hgc s'. subst s'.
    destruct (decide (e ∈ outstanding_gc_events s)) as [Hin | Hout].
    + rewrite filter_local_users_recorded by assumption. simpl. auto.
    + rewrite filter_local_users_unrecorded by assumption.
      assert (Hc : e ∉ dom (current_epoch_users s)) by (unfold gc_covers in Hgc; set_solver).
      assert (Hp : e ∉ dom (previous_epoch_users s)) by (unfold gc_covers in Hgc; set_solver).
      rewrite !users_under_absent by assumption.
      apply not_elem_of_dom in Hc, Hp. rewrite !delete_id by assumption.
      repeat split. set_solver.
  - intros Hgc rs'. subst rs'.
    destruct (decide (e ∈ red_outstanding_gc_events rs)) as [Hin | Hout].
    + rewrite red_filter_local_users_recorded by assumption. simpl. auto.
    + rewrite red_filter_local_users_unrecorded by assumption.
      assert (Hc : e ∉ dom (reduction_users rs)) by (unfold red_gc_covers in Hgc; set_solver).
      assert (Hp : e ∉ dom (reading_users rs)) by (unfold red_gc_covers in Hgc; set_solver).
      rewrite !users_under_absent by assumption.
      apply not_elem_of_dom in Hc, Hp. rewrite !delete_id by assumption.
      repeat split. set_solver.
  - apply filter_local_users_unrecorded.
  - apply red_filter_local_users_unrecorded.
  - apply filter_local_users_unrecorded.
    destruct (decide (e ∈ outstanding_gc_events s)) as [Hin | Hout].
    + rewrite filter_local_users_recorded by assumption. simpl. set_solver.
    + rewrite filter_local_users_unrecorded by assumption. assumption.
  - apply red_filter_local_users_unrecorded.
    destruct (decide (e ∈ red_outstanding_gc_events rs)) as [Hin | Hout].
    + rewrite red_filter_local_users_recorded by assumption. simpl. set_solver.
    + rewrite red_filter_local_users_unrecorded by assumption. assumption.
Qed.

Lemma filter_local_users_drops_event_witness :
  gc_covers two_epochs /\
  current_epoch_users (filter_local_users 1 two_epochs)
    = delete 1 (current_epoch_users two_epochs).
Proof.
  assert (Hgc : gc_covers two_epochs).
  { unfold gc_covers, two_epochs. simpl. rewrite !dom_singleton_L. set_solver. }
  split; [exact Hgc|].
  exact (proj1 (proj1 (filter_local_users_drops_event 1 two_epochs one_reducer) Hgc)).
Defined.

Lemma release_user_other (u : N) (h : UserHeap) (a : N) :
  a <> u -> references (release_user u h) !! a = references h !! a.
Proof.
  intros Hne. unfold release_user, remove_reference, legion_delete.
  destruct (references h !! u) as [n|]; [|reflexivity].
  destruct (bool_decide (n = 1%nat)); simpl.
  - rewrite lookup_delete_ne, lookup_insert_ne by congruence. reflexivity.
  - rewrite lookup_insert_ne by congruence. reflexivity.
Qed.

Lemma release_user_shared (u : N) (h : UserHeap) (n : nat) :
  references h !! u = Some (S (S n)) ->
  references (release_user u h) !! u = Some (S n).
Proof.
  intros Hl. unfold release_user, remove_reference. rewrite Hl. simpl.
  apply lookup_insert_eq.
Qed.

Lemma release_user_last (u : N) (h : UserHeap) :
  references h !! u = Some 1%nat ->
  references (release_user u h) !! u = None.
Proof.
  intros Hl. unfold release_user, remove_reference, legion_delete. rewrite Hl. simpl.
  apply lookup_delete_eq.
Qed.

(** ** C4: what is skipped when every field is dominated *)

Lemma list_to_map_entries {A} (m : gmap N A) : list_to_map (entries m) = m.
Proof.
  rewrite <- (list_to_map_to_list m) at 2.
  apply list_to_map_proper; [apply NoDup_fst_entries|].
  unfold entries. apply merge_sort_Permutation.
Qed.

Lemma note_dominated_lookup (dominated : FieldMask) (pit : Event * EventUsers)
    (fp : gmap Event FieldMask) (e : Event) :
  note_dominated dominated pit fp !! e =
    if decide (e = pit.1) then
      match superseded dominated pit.2 with Some m => Some m | None => fp !! e end
    else fp !! e.
Proof.
  unfold note_dominated, superseded.
  destruct (negb (Mask.is_empty dominated)); simpl;
    [destruct (negb (Mask.is_empty (user_mask pit.2 &&& dominated))); simpl|].
  - destruct (decide (e = pit.1)) as [-> | Hne];
      [apply lookup_insert_eq | apply lookup_insert_ne; congruence].
  - destruct (decide (e = pit.1)); reflexivity.
  - destruct (decide (e = pit.1)); reflexivity.
Qed.

Lemma find_previous_preconditions_adds `{Analysis} node e u pm nu nm cc pre :
  (find_previous_preconditions node e u pm nu nm cc pre).2 ⊆ {[e]} ∪ pre.
Proof.
  unfold find_previous_preconditions.
  repeat match goal with
         | |- context [if ?b then _ else _] => destruct b
         | |- context [match ?d with NO_DEPENDENCE => _ | _ => _ end] => destruct d
         end; simpl; set_solver.
Qed.

Lemma find_previous_multi_adds `{Analysis} node e l nu nm cc pre :
  find_previous_multi node e l nu nm cc pre ⊆ {[e]} ∪ pre.
Proof.
  revert pre. induction l as [|it l IH]; intros pre; simpl; [set_solver|].
  pose proof (find_previous_preconditions_adds node e it.2.1 it.2.2 nu nm cc pre) as Hm.
  destruct (find_previous_preconditions node e it.2.1 it.2.2 nu nm cc pre) as [b pre'].
  simpl in *. destruct b; [assumption|].
  specialize (IH pre'). set_solver.
Qed.

Lemma previous_task_entry_adds `{Analysis} ht node usage te nd dom skip cc pit st :
  prev_preconditions (previous_task_entry ht node usage te nd dom skip cc pit st)
    ⊆ {[pit.1]} ∪ prev_preconditions st.
Proof.
  unfold previous_task_entry.
  destruct (ht pit.1); [set_solver|].
  destruct (N.eqb pit.1 te); [set_solver|].
  destruct (decide (pit.1 ∈ prev_preconditions st)); [set_solver|].
  destruct skip; [simpl; set_solver|].
  destruct (users pit.2) as [u|m]; simpl.
  - apply find_previous_preconditions_adds.
  - destruct (Mask.disjoint nd (user_mask pit.2)); [simpl; set_solver|].
    apply find_previous_multi_adds.
Qed.

Lemma previous_task_entry_filter `{Analysis} ht node usage te nd dom skip cc pit st e :
  prev_filter_previous
    (previous_task_entry ht node usage te nd dom skip cc pit st) !! e =
  if decide (e = pit.1) then
    if examined_task ht te (prev_preconditions st) e then
      match superseded dom pit.2 with
      | Some m => Some m
      | None => prev_filter_previous st !! e
      end
    else prev_filter_previous st !! e
  else prev_filter_previous st !! e.
Proof.
  unfold previous_task_entry, examined_task.
  destruct (decide (e = pit.1)) as [-> | Hne].
  - destruct (ht pit.1); [reflexivity|].
    destruct (N.eqb pit.1 te); [reflexivity|]. simpl.
    destruct (decide (pit.1 ∈ prev_preconditions st)) as [Hin | Hout].
    + rewrite bool_decide_eq_false_2 by (intros Hn; contradiction). reflexivity.
    + rewrite bool_decide_eq_true_2 by assumption.
      assert (Hnote := note_dominated_lookup dom pit (prev_filter_previous st) pit.1).
      destruct (decide (pit.1 = pit.1)); [|congruence].
      destruct skip; [exact Hnote|].
      destruct (users pit.2); [exact Hnote|].
      destruct (Mask.disjoint nd (user_mask pit.2)); exact Hnote.
  - assert (Hnote := note_dominated_lookup dom pit (prev_filter_previous st) e).
    destruct (decide (e = pit.1)); [congruence|].
    destruct (ht pit.1); [reflexivity|].
    destruct (N.eqb pit.1 te); [reflexivity|].
    destruct (decide (pit.1 ∈ prev_preconditions st)); [reflexivity|].
    destruct skip; [exact Hnote|].
    destruct (users pit.2); [exact Hnote|].
    destruct (Mask.disjoint nd (user_mask pit.2)); exact Hnote.
Qed.

Lemma previous_task_pass_filter `{Analysis} ht node usage te nd dom skip cc
    (l : list (Event * EventUsers)) st e :
  NoDup l.*1 ->
  prev_filter_previous
    (foldl (fun st pit => previous_task_entry ht node usage te nd dom skip cc pit st)
           st l) !! e =
  match (list_to_map l : gmap Event EventUsers) !! e with
  | Some eu =>
      if examined_task ht te (prev_preconditions st) e then
        match superseded dom eu with
        | Some m => Some m
        | None => prev_filter_previous st !! e
        end
      else prev_filter_previous st !! e
  | None => prev_filter_previous st !! e
  end.
Proof.
  revert st. induction l as [|pit l IH]; intros st Hnd; simpl.
  - rewrite lookup_empty. reflexivity.
  - apply NoDup_cons in Hnd as [Hnotin Hnd].
    rewrite IH by assumption.
    rewrite previous_task_entry_filter.
    destruct pit as [e1 eu1]. simpl in *.
    destruct (decide (e = e1)) as [-> | Hne].
    + rewrite lookup_insert_eq.
      rewrite (not_elem_of_list_to_map_1 l e1) by assumption. reflexivity.
    + rewrite lookup_insert_ne by congruence.
      destruct (list_to_map l !! e) as [eu|]; [|reflexivity].
      assert (Hex : examined_task ht te
                (prev_preconditions
                   (previous_task_entry ht node usage te nd dom skip cc (e1, eu1) st)) e
              = examined_task ht te (prev_preconditions st) e).
      { unfold examined_task. f_equal. apply bool_decide_ext.
        pose proof (previous_task_entry_adds ht node usage te nd dom skip cc (e1, eu1) st).
        pose proof (previous_task_entry_mono ht node usage te nd dom skip cc (e1, eu1) st).
        simpl in *. set_solver. }
      rewrite Hex. reflexivity.
Qed.

Lemma previous_task_entry_skipped `{Analysis} ht node usage te nd dom cc pit st :
  prev_preconditions (previous_task_entry ht node usage te nd dom true cc pit st)
  = prev_preconditions st.
Proof.
  unfold previous_task_entry.
  repeat (case_match; try reflexivity).
Qed.

Lemma previous_task_pass_skipped `{Analysis} ht node usage te nd dom cc l st :
  prev_preconditions
    (foldl (fun st pit => previous_task_entry ht node usage te nd dom true cc pit st)
           st l)
  = prev_preconditions st.
Proof.
  revert st. induction l as [|pit l IH]; intros st; simpl; [reflexivity|].
  rewrite IH. apply previous_task_entry_skipped.
Qed.

Lemma previous_copy_entry_filter `{Analysis} ht node redop reading nd dom skip cc vs
    pit st e :
  prevc_filter_previous
    (previous_copy_entry ht node redop reading nd dom skip cc vs pit st) !! e =
  if decide (e = pit.1) then
    if examined_copy ht e then
      match superseded dom pit.2 with
      | Some m => Some m
      | None => prevc_filter_previous st !! e
      end
    else prevc_filter_previous st !! e
  else prevc_filter_previous st !! e.
Proof.
  unfold previous_copy_entry, examined_copy.
  assert (Hnote := note_dominated_lookup dom pit (prevc_filter_previous st) e).
  destruct (decide (e = pit.1)) as [-> | Hne].
  - destruct (ht pit.1); [reflexivity|]. simpl.
    destruct skip; [exact Hnote|].
    destruct (users pit.2); [exact Hnote|].
    destruct (Mask.disjoint nd (user_mask pit.2)); exact Hnote.
  - destruct (ht pit.1); [reflexivity|].
    destruct skip; [exact Hnote|].
    destruct (users pit.2); [exact Hnote|].
    destruct (Mask.disjoint nd (user_mask pit.2)); exact Hnote.
Qed.

Lemma previous_copy_pass_filter `{Analysis} ht node redop reading nd dom skip cc vs
    (l : list (Event * EventUsers)) st e :
  NoDup l.*1 ->
  prevc_filter_previous
    (foldl (fun st pit => previous_copy_entry ht node redop reading nd dom skip
                            cc vs pit st) st l) !! e =
  match (list_to_map l : gmap Event EventUsers) !! e with
  | Some eu =>
      if examined_copy ht e then
        match superseded dom eu with
        | Some m => Some m
        | None => prevc_filter_previous st !! e
        end
      else prevc_filter_previous st !! e
  | None => prevc_filter_previous st !! e
  end.
Proof.
  revert st. induction l as [|pit l IH]; intros st Hnd; simpl.
  - rewrite lookup_empty. reflexivity.
  - apply NoDup_cons in Hnd as [Hnotin Hnd].
    rewrite IH by assumption.
    rewrite previous_copy_entry_filter.
    destruct pit as [e1 eu1]. simpl in *.
    destruct (decide (e = e1)) as [-> | Hne].
    + rewrite lookup_insert_eq.
      rewrite (not_elem_of_list_to_map_1 l e1) by assumption. reflexivity.
    + rewrite lookup_insert_ne by congruence. reflexivity.
Qed.

Lemma previous_copy_pass_skipped `{Analysis} ht node redop reading nd dom cc vs l st :
  prevc_preconditions
    (foldl (fun st pit => previous_copy_entry ht node redop reading nd dom true
                            cc vs pit st) st l)
  = prevc_preconditions st.
Proof.
  revert st. induction l as [|pit l IH]; intros st; simpl; [reflexivity|].
  rewrite IH. unfold previous_copy_entry. destruct (ht pit.1); reflexivity.
Qed.

(** C4, as the code has it.  In both analyzers the previous-epoch
    dependence tests are skipped when the request mask minus [dominated]
    is empty, and then the preconditions are those of the current-epoch
    pass.  The [filter_previous] map is built in the same loop before the
    skip is tested: whether or not the tests are skipped, it holds, for
    each examined previous-epoch event whose summary mask meets
    [dominated], that overlap. *)
Theorem previous_pass_skip_rule `{Analysis} (has_triggered : Event -> bool)
    (logical_node : RegionTreeNode) (usage : RegionUsage) (term_event : Event)
    (child_color : ColorPoint) (mask : FieldMask) (pre : gset Event)
    (redop : ReductionOpID) (reading : bool) (versions : option FieldVersions)
    (cpre : gmap Event FieldMask) (s : MaterializedState) :
  skip_rule_task has_triggered term_event mask s
    (task_analysis has_triggered logical_node usage term_event child_color
       mask pre s) /\
  skip_rule_copy has_triggered mask s
    (copy_analysis has_triggered logical_node redop reading mask child_color
       versions cpre s).
Proof.
  split.
  - unfold skip_rule_task, task_analysis. simpl.
    split; [reflexivity|]. split; [reflexivity|]. split.
    + intros ->. apply previous_task_pass_skipped.
    + intros e.
      rewrite previous_task_pass_filter by apply NoDup_fst_entries.
      rewrite list_to_map_entries. simpl. rewrite lookup_empty.
      destruct (previous_epoch_users s !! e) as [eu|]; [|reflexivity].
      destruct (examined_task _ _ _ e); [|reflexivity].
      destruct (superseded _ eu); reflexivity.
  - unfold skip_rule_copy, copy_analysis. simpl.
    split; [reflexivity|]. split; [reflexivity|]. split.
    + intros ->. apply previous_copy_pass_skipped.
    + intros e.
      rewrite previous_copy_pass_filter by apply NoDup_fst_entries.
      rewrite list_to_map_entries. simpl. rewrite lookup_empty.
      destruct (previous_epoch_users s !! e) as [eu|]; [|reflexivity].
      destruct (examined_copy _ e); [|reflexivity].
      destruct (superseded _ eu); reflexivity.
Qed.

(** A copy that writes the first field finds a writer of that field in
    the current epoch (event 1) and an older one in the previous epoch
    (event 2).  Nothing is non-dominated, the previous-epoch tests are
    skipped, and event 2 is entered in [filter_previous].  None of the
    tests on the way consults the privilege macros or the dependence
    table. *)
Lemma previous_pass_builds_filter (A : Analysis) :
  let ca := @copy_analysis A (fun _ => false) sample_node 0 false 1 None None ∅
              two_epochs in
  ca_non_dominated ca = 0 /\ ca_skip_analysis ca = true /\
  ca_preconditions ca = ca_current_preconditions ca /\
  ca_filter_previous ca !! 2 = Some 1.
Proof. vm_compute. repeat split. Qed.

Lemma previous_pass_left_out_fails : ~ @previous_pass_left_out sample_analysis.
Proof.
  intros Hclaim.
  destruct (Hclaim (fun _ => false) sample_node read_write 3 None 1 ∅ two_epochs
              0 false None ∅) as (_ & _ & Hnd & Hskip).
  destruct (previous_pass_builds_filter sample_analysis) as (H0 & H1 & _ & H2).
  destruct (Hskip H1) as [_ Hfp]. rewrite Hfp, lookup_empty in H2. discriminate.
Qed.

(** ** Moving dominated fields to the previous epoch *)

Ltac mask_bits i :=
  apply N.bits_inj; intros i;
  unfold Mask.inter, Mask.union, Mask.diff, Mask.empty;
  repeat (rewrite N.land_spec || rewrite N.lor_spec || rewrite N.ldiff_spec
          || rewrite N.bits_0).

Ltac split_bits i :=
  repeat match goal with
         | |- context [N.testbit ?x i] =>
             let E := fresh "Hbit" in destruct (N.testbit x i) eqn:E
         end; simpl; try reflexivity; try congruence.

Lemma union_empty_l (m : FieldMask) : Mask.empty ||| m = m.
Proof. reflexivity. Qed.

Lemma union_empty_r (m : FieldMask) : m ||| Mask.empty = m.
Proof. apply N.lor_0_r. Qed.

Lemma mask_at_insert (m : UserMap) (k a : N) (um : PhysicalUser * FieldMask) :
  mask_at (<[k := um]> m) a = if decide (a = k) then um.2 else mask_at m a.
Proof.
  unfold mask_at. destruct (decide (a = k)) as [-> | Hne].
  - rewrite lookup_insert_eq. reflexivity.
  - rewrite lookup_insert_ne by congruence. reflexivity.
Qed.

Lemma mask_at_empty (a : N) : mask_at ∅ a = Mask.empty.
Proof. unfold mask_at. rewrite lookup_empty. reflexivity. Qed.

Lemma move_single_spec (user : N * PhysicalUser) (current_mask so : FieldMask)
    (po : option EventUsers) (h : UserHeap) (a : N) :
  let r := (move_single user current_mask so po h).1 in
  bucket_fields r a
    = fields_of po a ||| (if decide (a = user.1) then so else Mask.empty) /\
  user_mask r = summary_of po ||| so /\
  bucket_addrs r = addrs_of po ∪ {[user.1]}.
Proof.
  unfold move_single. destruct po as [pu|]; simpl.
  - unfold bucket_fields, bucket_addrs.
    destruct (users pu) as [pu_user | pm]; simpl.
    + destruct (N.eqb_spec (pu_user.1) (user.1)) as [Heq | Hne]; simpl.
      * rewrite Heq. split; [|split; [reflexivity | set_solver]].
        case_decide; [reflexivity | symmetry; apply union_empty_r].
      * split; [|split; [reflexivity|]].
        -- rewrite !mask_at_insert, mask_at_empty. simpl.
           repeat case_decide; subst; try congruence;
             rewrite ?union_empty_r; reflexivity.
        -- rewrite !dom_insert_L, dom_empty_L. set_solver.
    + destruct (pm !! user.1) as [found|] eqn:Hf; simpl.
      * split; [|split; [reflexivity|]].
        -- rewrite mask_at_insert. simpl.
           case_decide; subst; [|symmetry; apply union_empty_r].
           unfold mask_at. rewrite Hf. reflexivity.
        -- rewrite dom_insert_L. apply elem_of_dom_2 in Hf. set_solver.
      * split; [|split; [reflexivity|]].
        -- rewrite mask_at_insert. simpl.
           case_decide; subst; [|symmetry; apply union_empty_r].
           unfold mask_at. rewrite Hf. reflexivity.
        -- rewrite dom_insert_L. set_solver.
  - unfold bucket_fields, bucket_addrs. simpl.
    split; [|split; [reflexivity | set_solver]].
    case_decide; reflexivity.
Qed.

Lemma mask_at_list_to_map_cons (it : N * (PhysicalUser * FieldMask))
    (l : list (N * (PhysicalUser * FieldMask))) (a : N) :
  mask_at (list_to_map (it :: l)) a
  = if decide (a = it.1) then it.2.2 else mask_at (list_to_map l) a.
Proof. destruct it as [k um]. simpl. apply mask_at_insert. Qed.

Lemma mask_at_absent (m : UserMap) (a : N) : a ∉ dom m -> mask_at m a = Mask.empty.
Proof.
  intros Hd. unfold mask_at. apply not_elem_of_dom in Hd. rewrite Hd. reflexivity.
Qed.

Lemma dom_list_to_map_keys (l : list (N * (PhysicalUser * FieldMask))) (a : N) :
  a ∈ dom (list_to_map l : UserMap) <-> a ∈ l.*1.
Proof. rewrite dom_list_to_map. apply elem_of_list_to_set. Qed.

Lemma merge_user_spec (it : N * (PhysicalUser * FieldMask))
    (acc : UserMap * UserHeap) (a : N) :
  mask_at (merge_user it acc).1 a
    = mask_at acc.1 a ||| (if decide (a = it.1) then it.2.2 else Mask.empty) /\
  dom (merge_user it acc).1 = dom acc.1 ∪ {[it.1]}.
Proof.
  unfold merge_user. destruct (acc.1 !! it.1) as [found|] eqn:Hf; simpl.
  - rewrite mask_at_insert, dom_insert_L. simpl.
    split; [|apply elem_of_dom_2 in Hf; set_solver].
    case_decide; subst; [|symmetry; apply union_empty_r].
    unfold mask_at. rewrite Hf. reflexivity.
  - rewrite mask_at_insert, dom_insert_L.
    split; [|set_solver].
    case_decide; subst; [|symmetry; apply union_empty_r].
    unfold mask_at. rewrite Hf. reflexivity.
Qed.

Lemma merge_users_spec (l : list (N * (PhysicalUser * FieldMask)))
    (acc : UserMap * UserHeap) (a : N) :
  NoDup l.*1 ->
  mask_at (foldl (fun acc it => merge_user it acc) acc l).1 a
    = mask_at acc.1 a ||| mask_at (list_to_map l) a /\
  dom (foldl (fun acc it => merge_user it acc) acc l).1
    = dom acc.1 ∪ dom (list_to_map l : UserMap).
Proof.
  revert acc. induction l as [|it l IH]; intros acc Hnd.
  - simpl. rewrite mask_at_empty, union_empty_r, dom_empty_L. split; [reflexivity|set_solver].
  - apply NoDup_cons in Hnd as [Hnotin Hnd].
    change (foldl (fun acc it => merge_user it acc) acc (it :: l))
      with (foldl (fun acc it => merge_user it acc) (merge_user it acc) l).
    destruct (IH (merge_user it acc) Hnd) as [IHm IHd].
    destruct (merge_user_spec it acc a) as [Hm Hd].
    pose proof (merge_user_spec it acc) as Hm'.
    rewrite IHm, IHd, Hm, (proj2 (Hm' a)), mask_at_list_to_map_cons.
    split.
    + case_decide; subst.
      * rewrite (mask_at_absent (list_to_map l))
          by (rewrite dom_list_to_map_keys; assumption).
        rewrite union_empty_r. reflexivity.
      * rewrite union_empty_r. reflexivity.
    + destruct it as [k um]. simpl. rewrite dom_insert_L. set_solver.
Qed.

Lemma union_comm (a b : FieldMask) : a ||| b = b ||| a.
Proof. apply N.lor_comm. Qed.

Lemma move_all_spec (cm : UserMap) (so : FieldMask) (po : option EventUsers)
    (h : UserHeap) (a : N) :
  let r := (move_all cm so po h).1 in
  bucket_fields r a = fields_of po a ||| mask_at cm a /\
  user_mask r = summary_of po ||| so /\
  bucket_addrs r = addrs_of po ∪ dom cm.
Proof.
  unfold move_all. destruct po as [pu|]; simpl.
  - unfold bucket_fields, bucket_addrs.
    destruct (users pu) as [user | pm]; simpl.
    + destruct (merge_user (user.1, (user.2, user_mask pu)) (cm, h)) as [cm' h'] eqn:Hm.
      simpl.
      destruct (merge_user_spec (user.1, (user.2, user_mask pu)) (cm, h) a) as [Hf Hd].
      rewrite Hm in Hf, Hd. simpl in Hf, Hd. rewrite Hf, Hd.
      split; [apply union_comm|]. split; [reflexivity | set_solver].
    + destruct (foldl _ (pm, h) (entries cm)) as [pm' h'] eqn:Hm. simpl.
      destruct (merge_users_spec (entries cm) (pm, h) a (NoDup_fst_entries cm))
        as [Hf Hd].
      rewrite Hm in Hf, Hd. simpl in Hf, Hd.
      rewrite list_to_map_entries in Hf, Hd. rewrite Hf, Hd.
      split; [reflexivity|]. split; reflexivity.
  - unfold bucket_fields, bucket_addrs. simpl.
    split; [reflexivity|]. split; [reflexivity | set_solver].
Qed.

Lemma leaving_cons (so : FieldMask) (it : N * (PhysicalUser * FieldMask))
    (l : list (N * (PhysicalUser * FieldMask))) :
  leaving so (it :: l)
  = (if negb (Mask.is_empty (so &&& it.2.2)) &&
        Mask.is_empty (it.2.2 \\\ (so &&& it.2.2))
     then [it.1] else []) ++ leaving so l.
Proof.
  unfold leaving. simpl.
  destruct (negb (Mask.is_empty (so &&& it.2.2)) &&
            Mask.is_empty (it.2.2 \\\ (so &&& it.2.2))); reflexivity.
Qed.

Lemma lookup_list_to_map_cons (it : N * (PhysicalUser * FieldMask))
    (l : list (N * (PhysicalUser * FieldMask))) (a : N) :
  (list_to_map (it :: l) : UserMap) !! a
  = if decide (a = it.1) then Some it.2 else (list_to_map l : UserMap) !! a.
Proof.
  destruct it as [k um]. simpl.
  destruct (decide (a = k)) as [-> | Hne];
    [apply lookup_insert_eq | apply lookup_insert_ne; congruence].
Qed.

Lemma dom_list_to_map_cons (it : N * (PhysicalUser * FieldMask))
    (l : list (N * (PhysicalUser * FieldMask))) :
  dom (list_to_map (it :: l) : UserMap) = {[it.1]} ∪ dom (list_to_map l : UserMap).
Proof. destruct it as [k um]. simpl. apply dom_insert_L. Qed.

Lemma send_new_step (so : FieldMask) (it : N * (PhysicalUser * FieldMask))
    (acc : Filtered) (a : N) :
  let r := send_new so it acc in
  mask_at (kept r) a =
    (if decide (a = it.1) then
       if Mask.is_empty (so &&& it.2.2) then mask_at (kept acc) a
       else it.2.2 \\\ (so &&& it.2.2)
     else mask_at (kept acc) a) /\
  mask_at (sent r) a =
    (if decide (a = it.1) then
       if Mask.is_empty (so &&& it.2.2) then mask_at (sent acc) a
       else so &&& it.2.2
     else mask_at (sent acc) a) /\
  to_delete r = to_delete acc ++ leaving so [it] /\
  dom (kept r) ⊆ dom (kept acc) ∪ {[it.1]} /\
  dom (sent r) ⊆ dom (sent acc) ∪ {[it.1]}.
Proof.
  unfold send_new. rewrite leaving_cons. unfold leaving.
  destruct (Mask.is_empty (so &&& it.2.2)) eqn:Hov; cbn [negb andb fmap list_fmap List.filter app].
  - rewrite app_nil_r.
    split; [case_decide; reflexivity|]. split; [case_decide; reflexivity|].
    split; [reflexivity|]. split; apply union_subseteq_l.
  - cbn [kept sent to_delete]. rewrite !mask_at_insert, !dom_insert_L.
    cbn [fst snd].
    split; [reflexivity|]. split; [reflexivity|].
    split; [destruct (Mask.is_empty (it.2.2 \\\ (so &&& it.2.2)));
            rewrite ?app_nil_r; reflexivity|].
    split; (intros x Hx; apply elem_of_union in Hx as [Hx | Hx];
            [apply elem_of_union_r | apply elem_of_union_l]; assumption).
Qed.

Lemma send_existing_step (so : FieldMask) (it : N * (PhysicalUser * FieldMask))
    (acc : Filtered) (a : N) :
  let r := send_existing so it acc in
  mask_at (kept r) a =
    (if decide (a = it.1) then
       if Mask.is_empty (so &&& it.2.2) then mask_at (kept acc) a
       else it.2.2 \\\ (so &&& it.2.2)
     else mask_at (kept acc) a) /\
  mask_at (sent r) a =
    (if decide (a = it.1) then
       if Mask.is_empty (so &&& it.2.2) then mask_at (sent acc) a
       else mask_at (sent acc) a ||| (so &&& it.2.2)
     else mask_at (sent acc) a) /\
  to_delete r = to_delete acc ++ leaving so [it] /\
  dom (kept r) ⊆ dom (kept acc) ∪ {[it.1]} /\
  dom (sent r) ⊆ dom (sent acc) ∪ {[it.1]}.
Proof.
  unfold send_existing. rewrite leaving_cons. unfold leaving.
  destruct (Mask.is_empty (so &&& it.2.2)) eqn:Hov; cbn [negb andb fmap list_fmap List.filter app].
  - rewrite app_nil_r.
    split; [case_decide; reflexivity|]. split; [case_decide; reflexivity|].
    split; [reflexivity|]. split; apply union_subseteq_l.
  - destruct (sent acc !! it.1) as [found|] eqn:Hf;
      cbn [kept sent to_delete]; rewrite !mask_at_insert, !dom_insert_L;
      cbn [fst snd].
    + split; [reflexivity|].
      split; [case_decide; subst; [unfold mask_at; rewrite Hf|]; reflexivity|].
      split; [destruct (Mask.is_empty (it.2.2 \\\ (so &&& it.2.2)));
              rewrite ?app_nil_r; reflexivity|].
      split; (intros x Hx; apply elem_of_union in Hx as [Hx | Hx];
              [apply elem_of_union_r | apply elem_of_union_l]; assumption).
    + split; [reflexivity|].
      split; [case_decide; subst; [unfold mask_at; rewrite Hf|]; reflexivity|].
      split; [destruct (Mask.is_empty (it.2.2 \\\ (so &&& it.2.2)));
              rewrite ?app_nil_r; reflexivity|].
      split; (intros x Hx; apply elem_of_union in Hx as [Hx | Hx];
              [apply elem_of_union_r | apply elem_of_union_l]; assumption).
Qed.

Lemma send_new_fold (so : FieldMask) (l : list (N * (PhysicalUser * FieldMask)))
    (acc : Filtered) (a : N) :
  NoDup l.*1 ->
  let r := foldl (fun acc it => send_new so it acc) acc l in
  mask_at (kept r) a =
    match (list_to_map l : UserMap) !! a with
    | Some um => if Mask.is_empty (so &&& um.2) then mask_at (kept acc) a
                 else um.2 \\\ (so &&& um.2)
    | None => mask_at (kept acc) a
    end /\
  mask_at (sent r) a =
    match (list_to_map l : UserMap) !! a with
    | Some um => if Mask.is_empty (so &&& um.2) then mask_at (sent acc) a
                 else so &&& um.2
    | None => mask_at (sent acc) a
    end /\
  to_delete r = to_delete acc ++ leaving so l /\
  dom (kept r) ⊆ dom (kept acc) ∪ dom (list_to_map l : UserMap) /\
  dom (sent r) ⊆ dom (sent acc) ∪ dom (list_to_map l : UserMap).
Proof.
  revert acc. induction l as [|it l IH]; intros acc Hnd.
  - cbn [foldl]. cbv zeta. rewrite list_to_map_nil, lookup_empty.
    change (leaving so []) with (@nil N). rewrite app_nil_r.
    split; [reflexivity|]. split; [reflexivity|]. split; [reflexivity|].
    split; apply union_subseteq_l.
  - rewrite fmap_cons in Hnd. apply NoDup_cons in Hnd as [Hnotin Hnd].
    change (foldl (fun acc it => send_new so it acc) acc (it :: l))
      with (foldl (fun acc it => send_new so it acc) (send_new so it acc) l).
    destruct (IH (send_new so it acc) Hnd) as (IHk & IHs & IHt & IHdk & IHds).
    destruct (send_new_step so it acc a) as (Sk & Ss & St & Sdk & Sds).
    cbv zeta in *.
    rewrite IHk, IHs, IHt, Sk, Ss, St, lookup_list_to_map_cons, dom_list_to_map_cons.
    rewrite (leaving_cons so it l), <- app_assoc. unfold leaving at 1.
    split; [|split; [|split; [|split]]].
    + destruct (decide (a = it.1)) as [-> | Hne]; [|reflexivity].
      rewrite (not_elem_of_list_to_map_1 l it.1) by assumption. reflexivity.
    + destruct (decide (a = it.1)) as [-> | Hne]; [|reflexivity].
      rewrite (not_elem_of_list_to_map_1 l it.1) by assumption. reflexivity.
    + cbn [List.filter fmap list_fmap].
      destruct (negb (Mask.is_empty (so &&& it.2.2)) &&
                Mask.is_empty (it.2.2 \\\ (so &&& it.2.2))); reflexivity.
    + clear -IHdk Sdk. set_solver.
    + clear -IHds Sds. set_solver.
Qed.

Lemma send_existing_fold (so : FieldMask) (l : list (N * (PhysicalUser * FieldMask)))
    (acc : Filtered) (a : N) :
  NoDup l.*1 ->
  let r := foldl (fun acc it => send_existing so it acc) acc l in
  mask_at (kept r) a =
    match (list_to_map l : UserMap) !! a with
    | Some um => if Mask.is_empty (so &&& um.2) then mask_at (kept acc) a
                 else um.2 \\\ (so &&& um.2)
    | None => mask_at (kept acc) a
    end /\
  mask_at (sent r) a =
    match (list_to_map l : UserMap) !! a with
    | Some um => if Mask.is_empty (so &&& um.2) then mask_at (sent acc) a
                 else mask_at (sent acc) a ||| (so &&& um.2)
    | None => mask_at (sent acc) a
    end /\
  to_delete r = to_delete acc ++ leaving so l /\
  dom (kept r) ⊆ dom (kept acc) ∪ dom (list_to_map l : UserMap) /\
  dom (sent r) ⊆ dom (sent acc) ∪ dom (list_to_map l : UserMap).
Proof.
  revert acc. induction l as [|it l IH]; intros acc Hnd.
  - cbn [foldl]. cbv zeta. rewrite list_to_map_nil, lookup_empty.
    change (leaving so []) with (@nil N). rewrite app_nil_r.
    split; [reflexivity|]. split; [reflexivity|]. split; [reflexivity|].
    split; apply union_subseteq_l.
  - rewrite fmap_cons in Hnd. apply NoDup_cons in Hnd as [Hnotin Hnd].
    change (foldl (fun acc it => send_existing so it acc) acc (it :: l))
      with (foldl (fun acc it => send_existing so it acc) (send_existing so it acc) l).
    destruct (IH (send_existing so it acc) Hnd) as (IHk & IHs & IHt & IHdk & IHds).
    destruct (send_existing_step so it acc a) as (Sk & Ss & St & Sdk & Sds).
    cbv zeta in *.
    rewrite IHk, IHs, IHt, Sk, Ss, St, lookup_list_to_map_cons, dom_list_to_map_cons.
    rewrite (leaving_cons so it l), <- app_assoc. unfold leaving at 1.
    split; [|split; [|split; [|split]]].
    + destruct (decide (a = it.1)) as [-> | Hne]; [|reflexivity].
      rewrite (not_elem_of_list_to_map_1 l it.1) by assumption. reflexivity.
    + destruct (decide (a = it.1)) as [-> | Hne]; [|reflexivity].
      rewrite (not_elem_of_list_to_map_1 l it.1) by assumption. reflexivity.
    + cbn [List.filter fmap list_fmap].
      destruct (negb (Mask.is_empty (so &&& it.2.2)) &&
                Mask.is_empty (it.2.2 \\\ (so &&& it.2.2))); reflexivity.
    + clear -IHdk Sdk. set_solver.
    + clear -IHds Sds. set_solver.
Qed.

Lemma lookup_erase_all {A} (keys : list N) (m : gmap N A) (a : N) :
  erase_all keys m !! a = if decide (a ∈ keys) then None else m !! a.
Proof.
  revert m. induction keys as [|k keys IH]; intros m.
  - cbn [erase_all foldl]. rewrite decide_False by apply not_elem_of_nil. reflexivity.
  - change (erase_all (k :: keys) m) with (erase_all keys (delete k m)).
    rewrite IH.
    destruct (decide (a ∈ keys)) as [Hin | Hnin].
    + rewrite decide_True by (right; assumption). reflexivity.
    + destruct (decide (a = k)) as [-> | Hne].
      * rewrite decide_True by left. apply lookup_delete_eq.
      * rewrite decide_False by (intros Hc; apply elem_of_cons in Hc as [?|?]; congruence).
        apply lookup_delete_ne. congruence.
Qed.

Lemma dom_erase_all {A} (keys : list N) (m : gmap N A) :
  dom (erase_all keys m) ⊆ dom m.
Proof.
  intros a Ha. apply elem_of_dom in Ha as [v Hv]. rewrite lookup_erase_all in Hv.
  destruct (decide (a ∈ keys)); [discriminate|]. apply elem_of_dom. eauto.
Qed.

Lemma entries_singleton {A} (m : gmap N A) (k : N) (v : A) :
  entries m = [(k, v)] -> m = {[k := v]}.
Proof.
  intros He. rewrite <- (list_to_map_entries m), He. reflexivity.
Qed.

Lemma collapse_spec (summary : FieldMask) (m : UserMap) (a : N) :
  bucket_fields (collapse summary m) a = mask_at m a /\
  bucket_addrs (collapse summary m) = dom m /\
  (single (collapse summary m) = false ->
     collapse summary m = mkEventUsers summary (multi_users m)).
Proof.
  unfold collapse.
  destruct (entries m) as [|[k [u mk]] [|it l]] eqn:He;
    try (split; [reflexivity|]; split; reflexivity).
  apply entries_singleton in He. subst m.
  unfold bucket_fields, bucket_addrs, single. cbn [users user_mask fst snd].
  split; [|split; [|discriminate]].
  - unfold mask_at. case_decide; subst.
    + rewrite lookup_singleton_eq. reflexivity.
    + rewrite lookup_singleton_ne by congruence. reflexivity.
  - rewrite dom_singleton_L. reflexivity.
Qed.

Lemma diff_inter_same (m so : FieldMask) : m \\\ (so &&& m) = m \\\ so.
Proof. mask_bits i. split_bits i. Qed.

Lemma diff_inter_same' (m d : FieldMask) : m \\\ (m &&& d) = m \\\ d.
Proof. mask_bits i. split_bits i. Qed.

Lemma diff_disjoint (m so : FieldMask) : so &&& m = 0 -> m \\\ so = m.
Proof.
  intros Hz. apply N.bits_inj. intros i.
  assert (Hi : N.testbit (so &&& m) i = false) by (rewrite Hz; apply N.bits_0).
  unfold Mask.inter, Mask.diff in *. rewrite N.land_spec in Hi. rewrite N.ldiff_spec.
  destruct (N.testbit m i), (N.testbit so i); simpl in *; congruence.
Qed.

Lemma kept_mask (so : FieldMask) (m : FieldMask) :
  (if Mask.is_empty (so &&& m) then m else m \\\ (so &&& m)) = m \\\ so.
Proof.
  destruct (Mask.is_empty (so &&& m)) eqn:He.
  - apply is_empty_true in He. symmetry. apply diff_disjoint. assumption.
  - apply diff_inter_same.
Qed.

Lemma sent_mask (so : FieldMask) (m : FieldMask) :
  (if Mask.is_empty (so &&& m) then Mask.empty else so &&& m) = so &&& m.
Proof.
  destruct (Mask.is_empty (so &&& m)) eqn:He; [|reflexivity].
  apply is_empty_true in He. rewrite He. reflexivity.
Qed.

Lemma elem_of_leaving (so : FieldMask) (l : list (N * (PhysicalUser * FieldMask)))
    (a : N) :
  NoDup l.*1 -> a ∈ leaving so l ->
  mask_at (list_to_map l) a \\\ so = Mask.empty.
Proof.
  intros Hnd Hin. unfold leaving in Hin.
  apply list_elem_of_fmap in Hin as ([k um] & -> & Hin).
  apply list_elem_of_In, filter_In in Hin as [Hin Hc].
  apply list_elem_of_In in Hin.
  apply andb_true_iff in Hc as [_ Hc]. cbn [fst snd] in *.
  apply is_empty_true in Hc. rewrite diff_inter_same in Hc.
  unfold mask_at.
  rewrite (elem_of_list_to_map_1 l k um Hnd Hin). exact Hc.
Qed.

Lemma mask_at_lookup (m : UserMap) (a : N) :
  mask_at m a = match m !! a with Some um => um.2 | None => Mask.empty end.
Proof. reflexivity. Qed.

Lemma kept_after_filter (so : FieldMask) (cm : UserMap) (a : N) :
  match cm !! a with
  | Some um => if Mask.is_empty (so &&& um.2) then mask_at cm a
               else um.2 \\\ (so &&& um.2)
  | None => mask_at cm a
  end = mask_at cm a \\\ so.
Proof.
  unfold mask_at. destruct (cm !! a) as [um|]; [apply kept_mask | reflexivity].
Qed.

Lemma sent_after_filter (so : FieldMask) (cm : UserMap) (base : FieldMask) (a : N) :
  match cm !! a with
  | Some um => if Mask.is_empty (so &&& um.2) then base
               else base ||| (so &&& um.2)
  | None => base
  end = base ||| (so &&& mask_at cm a).
Proof.
  unfold mask_at. destruct (cm !! a) as [um|].
  - destruct (Mask.is_empty (so &&& um.2)) eqn:He; [|reflexivity].
    apply is_empty_true in He. rewrite He. symmetry. apply union_empty_r.
  - unfold Mask.inter, Mask.empty. rewrite N.land_0_r. symmetry. apply union_empty_r.
Qed.

(** The current map after the walk that sends fields back, with the
    users that have nothing left erased. *)
Lemma kept_erased (so : FieldMask) (cm kept_map : UserMap) (a : N) :
  (forall a, mask_at kept_map a = mask_at cm a \\\ so) ->
  mask_at (erase_all (leaving so (entries cm)) kept_map) a = mask_at cm a \\\ so.
Proof.
  intros Hk. rewrite mask_at_lookup, lookup_erase_all.
  destruct (decide (a ∈ leaving so (entries cm))) as [Hin | Hnin].
  - apply elem_of_leaving in Hin; [|apply NoDup_fst_entries].
    rewrite list_to_map_entries in Hin. symmetry. exact Hin.
  - rewrite <- mask_at_lookup. apply Hk.
Qed.

Lemma move_some_spec (cm : UserMap) (current_mask so : FieldMask)
    (po : option EventUsers) (h : UserHeap) (a : N) :
  let r := (move_some cm current_mask so po h).1 in
  bucket_fields r.1 a = mask_at cm a \\\ so /\
  bucket_fields r.2 a = fields_of po a ||| (so &&& mask_at cm a) /\
  user_mask r.2 = summary_of po ||| so /\
  bucket_addrs r.1 ⊆ dom cm /\
  bucket_addrs r.2 ⊆ addrs_of po ∪ dom cm /\
  (single r.1 = false -> user_mask r.1 = current_mask).
Proof.
  unfold move_some.
  set (walk_new := foldl (fun acc it => send_new so it acc)
                         (mkFiltered cm ∅ [] h) (entries cm)).
  destruct (send_new_fold so (entries cm) (mkFiltered cm ∅ [] h) a
              (NoDup_fst_entries cm)) as (Nk & Ns & Nt & Ndk & Nds).
  pose proof (fun a => proj1 (send_new_fold so (entries cm) (mkFiltered cm ∅ [] h) a
                                (NoDup_fst_entries cm))) as Nk'.
  cbv zeta in Nk, Ns, Nt, Ndk, Nds, Nk'. fold walk_new in Nk, Ns, Nt, Ndk, Nds, Nk'.
  rewrite list_to_map_entries in Nk, Ns, Ndk, Nds.
  cbn [kept sent to_delete] in Nk, Ns, Nt, Ndk, Nds.
  rewrite kept_after_filter in Nk.
  rewrite mask_at_empty in Ns.
  assert (Ns' : mask_at (sent walk_new) a = so &&& mask_at cm a).
  { rewrite Ns. unfold mask_at. destruct (cm !! a) as [um|].
    - apply sent_mask.
    - unfold Mask.inter, Mask.empty. rewrite N.land_0_r. reflexivity. }
  assert (Nk'' : forall a, mask_at (kept walk_new) a = mask_at cm a \\\ so).
  { intros b. specialize (Nk' b). rewrite list_to_map_entries in Nk'.
    cbn [kept] in Nk'. rewrite kept_after_filter in Nk'. exact Nk'. }
  rewrite dom_empty_L in Nds.
  assert (Hcur : forall (f : Filtered),
            (forall a, mask_at (kept f) a = mask_at cm a \\\ so) ->
            to_delete f = leaving so (entries cm) ->
            dom (kept f) ⊆ dom cm ->
            let current :=
              match to_delete f with
              | [] => mkEventUsers current_mask (multi_users (kept f))
              | _ :: _ => collapse current_mask (erase_all (to_delete f) (kept f))
              end in
            bucket_fields current a = mask_at cm a \\\ so /\
            bucket_addrs current ⊆ dom cm /\
            (single current = false -> user_mask current = current_mask)).
  { intros f Hk Ht Hd current. subst current.
    destruct (to_delete f) as [|d td] eqn:Htd.
    - split; [apply Hk|]. split; [exact Hd | reflexivity].
    - destruct (collapse_spec current_mask (erase_all (d :: td) (kept f)) a)
        as (Cf & Ca & Cm).
      rewrite Cf, Ca. split; [|split].
      + rewrite Ht. apply kept_erased. exact Hk.
      + etransitivity; [apply dom_erase_all | exact Hd].
      + intros Hs. rewrite (Cm Hs). reflexivity. }
  destruct po as [pu|]; cbn [fields_of summary_of addrs_of].
  - destruct (users pu) as [user | pm] eqn:Hpu.
    + destruct (merge_user (user.1, (user.2, user_mask pu))
                  (sent walk_new, filtered_heap walk_new)) as [new_map h'] eqn:Hm.
      destruct (merge_user_spec (user.1, (user.2, user_mask pu))
                  (sent walk_new, filtered_heap walk_new) a) as [Mf Md].
      rewrite Hm in Mf, Md. cbn [fst snd] in Mf, Md.
      cbn [fst snd kept sent to_delete filtered_heap].
      destruct (Hcur (mkFiltered (kept walk_new) new_map (to_delete walk_new) h'))
        as (C1 & C2 & C3); [exact Nk'' | exact Nt | | ].
      { cbn [kept]. clear -Ndk. set_solver. }
      cbn [kept to_delete] in C1, C2, C3.
      split; [exact C1|]. split; [|split; [reflexivity|split; [exact C2|split; [|exact C3]]]].
      * unfold bucket_fields at 1. cbn [users]. rewrite Mf, Ns'.
        unfold bucket_fields. rewrite Hpu. apply union_comm.
      * unfold bucket_addrs. cbn [users]. rewrite Hpu, Md. clear -Nds. set_solver.
    + set (walk := foldl (fun acc it => send_existing so it acc)
                         (mkFiltered cm pm [] h) (entries cm)).
      destruct (send_existing_fold so (entries cm) (mkFiltered cm pm [] h) a
                  (NoDup_fst_entries cm)) as (Ek & Es & Et & Edk & Eds).
      pose proof (fun a => proj1 (send_existing_fold so (entries cm)
                                    (mkFiltered cm pm [] h) a
                                    (NoDup_fst_entries cm))) as Ek'.
      cbv zeta in Ek, Es, Et, Edk, Eds, Ek'. fold walk in Ek, Es, Et, Edk, Eds, Ek'.
      rewrite list_to_map_entries in Es, Edk, Eds.
      cbn [kept sent to_delete] in Es, Et, Edk, Eds.
      rewrite sent_after_filter in Es.
      cbn [fst snd].
      destruct (Hcur walk) as (C1 & C2 & C3); [ | exact Et | | ].
      { intros b. specialize (Ek' b). rewrite list_to_map_entries in Ek'.
        cbn [kept] in Ek'. rewrite kept_after_filter in Ek'. exact Ek'. }
      { clear -Edk. set_solver. }
      split; [exact C1|]. split; [|split; [reflexivity|split; [exact C2|split; [|exact C3]]]].
      * unfold bucket_fields at 1. cbn [users]. rewrite Es.
        unfold bucket_fields. rewrite Hpu. reflexivity.
      * unfold bucket_addrs. cbn [users]. rewrite Hpu. clear -Eds. set_solver.
  - cbn [fst snd].
    destruct (Hcur walk_new) as (C1 & C2 & C3); [exact Nk'' | exact Nt | | ].
    { clear -Ndk. set_solver. }
    split; [exact C1|]. split; [|split; [reflexivity|split; [exact C2|split; [|exact C3]]]].
    * unfold bucket_fields at 1. cbn [users]. rewrite Ns'. reflexivity.
    * unfold bucket_addrs. cbn [users]. clear -Nds. set_solver.
Qed.

(** ** The summary invariant, field by field *)

Lemma summary_is_union_iff (eu : EventUsers) :
  summary_is_union eu <->
  forall i, N.testbit (user_mask eu) i = true <->
            exists a, N.testbit (bucket_fields eu a) i = true.
Proof.
  unfold summary_is_union, recorded_masks, bucket_fields.
  destruct (users eu) as [u | m].
  - split.
    + intros _ i. split.
      * intros Hb. exists u.1. rewrite decide_True by reflexivity. exact Hb.
      * intros (a & Hb). case_decide; [exact Hb|].
        unfold Mask.empty in Hb. rewrite N.bits_0 in Hb. discriminate.
    + intros _. simpl. symmetry. apply union_empty_r.
  - assert (Hu : forall i,
              N.testbit (union_of ((fun kv : N * (PhysicalUser * FieldMask) => kv.2.2)
                                     <$> entries m)) i = true <->
              exists a, N.testbit (mask_at m a) i = true).
    { intros i. rewrite union_of_bits. split.
      - intros (mk & Hin & Hb).
        apply list_elem_of_fmap in Hin as ([k um] & -> & Hin).
        apply elem_of_entries in Hin. exists k. unfold mask_at. rewrite Hin. exact Hb.
      - intros (a & Hb). unfold mask_at in Hb.
        destruct (m !! a) as [um|] eqn:Hl.
        + exists um.2. split; [|exact Hb].
          apply list_elem_of_fmap. exists (a, um). split; [reflexivity|].
          apply elem_of_entries. exact Hl.
        + unfold Mask.empty in Hb. rewrite N.bits_0 in Hb. discriminate. }
    split.
    + intros -> i. apply Hu.
    + intros Hb. apply N.bits_inj. intros i.
      specialize (Hb i). specialize (Hu i).
      destruct (N.testbit (user_mask eu) i) eqn:H1;
        destruct (N.testbit (union_of _) i) eqn:H2; try reflexivity.
      * apply proj1 in Hb. apply proj2 in Hu. specialize (Hu (Hb eq_refl)). discriminate.
      * apply proj2 in Hb. apply proj1 in Hu. specialize (Hb (Hu eq_refl)). discriminate.
Qed.

Lemma summary_bounds (eu : EventUsers) (a : N) (i : N) :
  summary_is_union eu ->
  N.testbit (bucket_fields eu a) i = true -> N.testbit (user_mask eu) i = true.
Proof.
  intros Hs Hb. apply (proj1 (summary_is_union_iff eu) Hs i). exists a. exact Hb.
Qed.

Lemma summary_of_option (po : option EventUsers) (i : N) :
  (forall pu, po = Some pu -> summary_is_union pu) ->
  N.testbit (summary_of po) i = true <->
  exists a, N.testbit (fields_of po a) i = true.
Proof.
  intros Hs. destruct po as [pu|]; simpl.
  - apply (proj1 (summary_is_union_iff pu) (Hs pu eq_refl) i).
  - split.
    + unfold Mask.empty. rewrite ?N.bits_0. discriminate.
    + intros (_ & Hb). unfold Mask.empty in Hb. rewrite ?N.bits_0 in Hb. discriminate.
Qed.

(** The fields that leave the current epoch arrive in the previous one. *)
Lemma union_inter_bits (S T d : FieldMask) (F G : N -> FieldMask) :
  (forall i, N.testbit S i = true <-> exists a, N.testbit (F a) i = true) ->
  (forall i, N.testbit T i = true <-> exists a, N.testbit (G a) i = true) ->
  forall i, N.testbit (S ||| (T &&& d)) i = true <->
            exists a, N.testbit (F a ||| (G a &&& d)) i = true.
Proof.
  intros HS HT i. unfold Mask.union, Mask.inter.
  rewrite N.lor_spec, N.land_spec, orb_true_iff, andb_true_iff, HS, HT.
  split.
  - intros [(a & Ha) | ((a & Ha) & Hd)]; exists a;
      rewrite N.lor_spec, N.land_spec; [rewrite Ha | rewrite Ha, Hd];
      [reflexivity | apply orb_true_r].
  - intros (a & Ha). rewrite N.lor_spec, N.land_spec in Ha.
    apply orb_true_iff in Ha as [Ha | Ha]; [left; eauto|].
    apply andb_true_iff in Ha as [Ha Hd]. right. eauto.
Qed.

Lemma diff_bits (S d : FieldMask) (F : N -> FieldMask) :
  (forall i, N.testbit S i = true <-> exists a, N.testbit (F a) i = true) ->
  forall i, N.testbit (S \\\ d) i = true <->
            exists a, N.testbit (F a \\\ d) i = true.
Proof.
  intros HS i. unfold Mask.diff.
  rewrite N.ldiff_spec, andb_true_iff, HS. split.
  - intros ((a & Ha) & Hd). exists a. rewrite N.ldiff_spec, Ha, Hd. reflexivity.
  - intros (a & Ha). rewrite N.ldiff_spec in Ha.
    apply andb_true_iff in Ha as [Ha Hd]. eauto.
Qed.

Lemma summary_from_fields (eu : EventUsers) (S : FieldMask) (F : N -> FieldMask) :
  user_mask eu = S -> (forall a, bucket_fields eu a = F a) ->
  (forall i, N.testbit S i = true <-> exists a, N.testbit (F a) i = true) ->
  summary_is_union eu.
Proof.
  intros Hm Hf Hb. apply summary_is_union_iff. intros i.
  rewrite Hm, Hb. split; intros (a & Ha); exists a; [rewrite Hf | rewrite <- Hf]; exact Ha.
Qed.

Lemma summary_is_union_single_form (eu : EventUsers) :
  single eu = true -> summary_is_union eu.
Proof.
  unfold single, summary_is_union, recorded_masks.
  destruct (users eu); [|discriminate]. intros _. simpl. symmetry. apply union_empty_r.
Qed.

Section BoundedFields.
Context (eu : EventUsers) (d : FieldMask) (Hsum : summary_is_union eu).

Lemma overlap_of_user (a : N) :
  (user_mask eu &&& d) &&& bucket_fields eu a = bucket_fields eu a &&& d.
Proof using Hsum.
  apply N.bits_inj. intros i. pose proof (summary_bounds eu a i Hsum) as Hb.
  unfold Mask.inter. rewrite !N.land_spec.
  destruct (N.testbit (bucket_fields eu a) i); [rewrite Hb by reflexivity|];
    destruct (N.testbit d i), (N.testbit (user_mask eu) i); reflexivity.
Qed.

Lemma rest_of_user (a : N) :
  bucket_fields eu a \\\ (user_mask eu &&& d) = bucket_fields eu a \\\ d.
Proof using Hsum.
  apply N.bits_inj. intros i. pose proof (summary_bounds eu a i Hsum) as Hb.
  unfold Mask.inter, Mask.diff. rewrite !N.ldiff_spec, N.land_spec.
  destruct (N.testbit (bucket_fields eu a) i); [rewrite Hb by reflexivity|];
    destruct (N.testbit d i); reflexivity.
Qed.

Lemma nothing_left (a : N) :
  user_mask eu \\\ (user_mask eu &&& d) = 0 ->
  bucket_fields eu a \\\ d = Mask.empty /\
  bucket_fields eu a &&& d = bucket_fields eu a.
Proof using Hsum.
  intros Hz.
  assert (Hd : forall i, N.testbit (bucket_fields eu a) i = true ->
                         N.testbit d i = true).
  { intros i Hi. pose proof (summary_bounds eu a i Hsum Hi) as Hb.
    assert (Hzi : N.testbit (user_mask eu \\\ (user_mask eu &&& d)) i = false)
      by (rewrite Hz; apply N.bits_0).
    unfold Mask.diff, Mask.inter in Hzi.
    rewrite N.ldiff_spec, N.land_spec, Hb in Hzi.
    destruct (N.testbit d i); [reflexivity | discriminate]. }
  split; apply N.bits_inj; intros i; specialize (Hd i);
    unfold Mask.diff, Mask.inter, Mask.empty;
    rewrite ?N.ldiff_spec, ?N.land_spec, ?N.bits_0;
    destruct (N.testbit (bucket_fields eu a) i); try reflexivity;
    rewrite Hd by reflexivity; reflexivity.
Qed.
End BoundedFields.

Lemma move_bucket_spec (eu : EventUsers) (d : FieldMask) (po : option EventUsers)
    (h : UserHeap) (a : N) :
  summary_is_union eu ->
  let so := user_mask eu &&& d in
  let current_mask := user_mask eu \\\ so in
  let r := move_bucket eu current_mask so po h in
  r.2 = Mask.is_empty current_mask /\
  bucket_fields r.1.1.2 a = fields_of po a ||| (bucket_fields eu a &&& d) /\
  user_mask r.1.1.2 = summary_of po ||| (user_mask eu &&& d) /\
  (r.2 = false -> bucket_fields r.1.1.1 a = bucket_fields eu a \\\ d) /\
  (r.2 = true -> bucket_fields eu a \\\ d = Mask.empty) /\
  bucket_addrs r.1.1.1 ⊆ bucket_addrs eu /\
  bucket_addrs r.1.1.2 ⊆ addrs_of po ∪ bucket_addrs eu /\
  (r.2 = false -> single r.1.1.1 = false -> user_mask r.1.1.1 = current_mask).
Proof.
  intros Hsum so current_mask r. subst r. unfold move_bucket.
  pose proof (overlap_of_user eu d Hsum a) as Hov.
  pose proof (rest_of_user eu d Hsum a) as Hrest.
  pose proof (nothing_left eu d Hsum a) as Hnone.
  fold so in Hov, Hrest, Hnone. fold current_mask in Hnone.
  assert (Hbf : bucket_fields eu a =
                match users eu with
                | single_user u => if decide (a = u.1) then user_mask eu else Mask.empty
                | multi_users m => mask_at m a
                end) by reflexivity.
  assert (Hba : bucket_addrs eu =
                match users eu with
                | single_user u => {[u.1]}
                | multi_users m => dom m
                end) by reflexivity.
  destruct (users eu) as [user | cm] eqn:Hu; rewrite Hbf in *; rewrite Hba;
    clear Hbf Hba.
  - destruct (move_single user current_mask so po h) as [prev' h'] eqn:Hm.
    destruct (move_single_spec user current_mask so po h a) as (Mf & Mm & Ma).
    rewrite Hm in Mf, Mm, Ma. cbn [fst snd] in *.
    split; [reflexivity|]. split; [|split; [exact Mm|]].
    { rewrite Mf. f_equal. case_decide; [|reflexivity].
      unfold Mask.inter, Mask.empty. reflexivity. }
    split; [|split; [|split; [|split]]].
    + intros _. unfold bucket_fields. cbn [users user_mask].
      case_decide; [|reflexivity].
      unfold current_mask. rewrite <- Hrest. reflexivity.
    + intros He. apply is_empty_true in He.
      case_decide; [|reflexivity].
      rewrite <- Hrest. exact He.
    + unfold bucket_addrs. cbn [users]. reflexivity.
    + rewrite Ma. reflexivity.
    + intros _ Hs. discriminate.
  - destruct (Mask.is_empty current_mask) eqn:He.
    + destruct (move_all cm so po h) as [prev' h'] eqn:Hm.
      destruct (move_all_spec cm so po h a) as (Mf & Mm & Ma).
      rewrite Hm in Mf, Mm, Ma. cbn [fst snd] in *.
      apply is_empty_true in He. destruct (Hnone He) as [Hn1 Hn2].
      split; [reflexivity|]. split; [rewrite Mf, Hn2; reflexivity|].
      split; [exact Mm|]. split; [discriminate|]. split; [intros _; exact Hn1|].
      split; [unfold bucket_addrs; cbn [users]; reflexivity|].
      split; [rewrite Ma; reflexivity | discriminate].
    + destruct (move_some cm current_mask so po h) as [[current' prev'] h'] eqn:Hm.
      destruct (move_some_spec cm current_mask so po h a)
        as (Sc & Sp & Sm & Sa1 & Sa2 & Ss).
      rewrite Hm in Sc, Sp, Sm, Sa1, Sa2, Ss. cbn [fst snd] in *.
      split; [reflexivity|]. split; [rewrite Sp, Hov; reflexivity|].
      split; [exact Sm|]. split; [intros _; rewrite Sc; exact Hrest|].
      split; [discriminate|]. split; [exact Sa1|]. split; [exact Sa2|].
      intros _. exact Ss.
Qed.

(** ** The walk of [filter_current_users] *)

Lemma filter_current_entry_step ht d (cit : Event * EventUsers)
    (acc : MaterializedState * list Event) (e : Event) :
  let r := filter_current_entry ht d cit acc in
  (if decide (e = cit.1) then walked ht d cit.2 r acc e else untouched r acc e) /\
  outstanding_gc_events r.1 = outstanding_gc_events acc.1 /\
  initial_user_events r.1 = initial_user_events acc.1.
Proof.
  unfold filter_current_entry, walked.
  destruct (ht cit.1) eqn:Ht.
  - cbn [fst snd]. split; [|split; reflexivity].
    case_decide; subst.
    + rewrite Ht. unfold marked. cbn [fst snd].
      split; [reflexivity|]. split; [reflexivity|].
      apply elem_of_app. right. left.
    + unfold untouched. cbn [fst snd].
      split; [reflexivity|]. split; [reflexivity|].
      rewrite elem_of_app, list_elem_of_singleton. intuition congruence.
  - destruct (Mask.is_empty (user_mask cit.2 &&& d)) eqn:He.
    + split; [|split; reflexivity].
      case_decide; subst; [rewrite Ht|]; unfold untouched; intuition reflexivity.
    + destruct (move_bucket cit.2 (user_mask cit.2 \\\ (user_mask cit.2 &&& d))
                  (user_mask cit.2 &&& d) (previous_epoch_users acc.1 !! cit.1)
                  (heap acc.1)) as [[[current' prev'] h'] emptied] eqn:Hm.
      cbn [fst snd current_epoch_users previous_epoch_users outstanding_gc_events
           initial_user_events].
      split; [|split; reflexivity].
      case_decide; subst.
      * rewrite Ht. unfold moved. exists (heap acc.1). cbv zeta. rewrite Hm.
        cbn [fst snd current_epoch_users previous_epoch_users].
        rewrite !lookup_insert_eq.
        split; [reflexivity|]. split; [reflexivity|].
        destruct emptied.
        -- rewrite elem_of_app, list_elem_of_singleton. intuition.
        -- intuition discriminate.
      * unfold untouched. cbn [fst snd current_epoch_users previous_epoch_users].
        rewrite !lookup_insert_ne by congruence.
        split; [reflexivity|]. split; [reflexivity|].
        destruct emptied; [|reflexivity].
        rewrite elem_of_app, list_elem_of_singleton. intuition congruence.
Qed.

Lemma filter_current_walk ht d (l : list (Event * EventUsers))
    (acc : MaterializedState * list Event) (e : Event) :
  NoDup l.*1 ->
  let r := foldl (fun acc cit => filter_current_entry ht d cit acc) acc l in
  match (list_to_map l : gmap Event EventUsers) !! e with
  | Some eu => walked ht d eu r acc e
  | None => untouched r acc e
  end /\
  outstanding_gc_events r.1 = outstanding_gc_events acc.1 /\
  initial_user_events r.1 = initial_user_events acc.1.
Proof.
  revert acc. induction l as [|cit l IH]; intros acc Hnd.
  - cbn [foldl]. cbv zeta. rewrite list_to_map_nil, lookup_empty.
    unfold untouched. intuition reflexivity.
  - rewrite fmap_cons in Hnd. apply NoDup_cons in Hnd as [Hnotin Hnd].
    change (foldl (fun acc cit => filter_current_entry ht d cit acc) acc (cit :: l))
      with (foldl (fun acc cit => filter_current_entry ht d cit acc)
                  (filter_current_entry ht d cit acc) l).
    destruct (IH (filter_current_entry ht d cit acc) Hnd) as (IHe & IHg & IHi).
    destruct (filter_current_entry_step ht d cit acc e) as (Se & Sg & Si).
    cbv zeta in *. rewrite IHg, IHi, Sg, Si.
    split; [|split; reflexivity].
    set (r := foldl _ (filter_current_entry ht d cit acc) l) in *.
    set (acc1 := filter_current_entry ht d cit acc) in *.
    destruct cit as [e1 eu1]. cbn [fst snd list_to_map foldr] in *.
    destruct (decide (e = e1)) as [-> | Hne].
    + rewrite lookup_insert_eq.
      rewrite (not_elem_of_list_to_map_1 l e1) in IHe by assumption.
      destruct IHe as (Ic & Ip & Id).
      unfold walked in *. destruct (ht e1).
      * destruct Se as (Sc & Sp & Sd). unfold marked.
        rewrite Ic, Ip, Sc, Sp, Id. auto.
      * destruct (Mask.is_empty (user_mask eu1 &&& d)).
        -- destruct Se as (Sc & Sp & Sd). unfold untouched.
           rewrite Ic, Ip, Sc, Sp, Id, Sd. auto.
        -- destruct Se as (h & Sc & Sp & Sd). exists h. cbv zeta.
           rewrite Ic, Ip, Sc, Sp, Id, Sd. auto.
    + rewrite lookup_insert_ne by congruence.
      destruct Se as (Sc & Sp & Sd).
      destruct (list_to_map l !! e) as [eu|].
      * unfold walked in *. destruct (ht e).
        -- destruct IHe as (Ic & Ip & Id). unfold marked.
           rewrite Ic, Ip, Sc, Sp. auto.
        -- destruct (Mask.is_empty (user_mask eu &&& d)).
           ++ destruct IHe as (Ic & Ip & Id). unfold untouched.
              rewrite Ic, Ip, Sc, Sp, Id, Sd. auto.
           ++ destruct IHe as (h & Ic & Ip & Id). exists h. cbv zeta.
              rewrite Ic, Ip, Id, Sd, Sp. auto.
      * destruct IHe as (Ic & Ip & Id). unfold untouched.
        rewrite Ic, Ip, Sc, Sp, Id, Sd. auto.
Qed.

Lemma filter_current_users_at ht d (s : MaterializedState) (e : Event) :
  let s' := filter_current_users ht d s in
  outstanding_gc_events s' = outstanding_gc_events s /\
  initial_user_events s' = initial_user_events s /\
  match current_epoch_users s !! e with
  | None =>
      current_epoch_users s' !! e = None /\
      previous_epoch_users s' !! e = previous_epoch_users s !! e
  | Some eu =>
      if ht e then
        current_epoch_users s' !! e = None /\
        previous_epoch_users s' !! e = previous_epoch_users s !! e
      else if Mask.is_empty (user_mask eu &&& d) then
        current_epoch_users s' !! e = Some eu /\
        previous_epoch_users s' !! e = previous_epoch_users s !! e
      else
        exists h,
          let so := user_mask eu &&& d in
          let m := move_bucket eu (user_mask eu \\\ so) so
                     (previous_epoch_users s !! e) h in
          current_epoch_users s' !! e = (if m.2 then None else Some m.1.1.1) /\
          previous_epoch_users s' !! e = Some m.1.1.2
  end.
Proof.
  unfold filter_current_users.
  destruct (filter_current_walk ht d (entries (current_epoch_users s)) (s, []) e
              (NoDup_fst_entries _)) as (Hw & Hg & Hi).
  cbv zeta in Hw, Hg, Hi. rewrite list_to_map_entries in Hw.
  destruct (foldl (fun acc cit => filter_current_entry ht d cit acc) (s, [])
              (entries (current_epoch_users s))) as [s1 etd].
  cbn [fst snd] in *.
  unfold set_current.
  cbn [current_epoch_users previous_epoch_users outstanding_gc_events
       initial_user_events].
  split; [exact Hg|]. split; [exact Hi|].
  rewrite lookup_erase_all.
  destruct (current_epoch_users s !! e) as [eu|] eqn:Hc.
  - unfold walked in Hw. destruct (ht e).
    + destruct Hw as (_ & Hp & Hd). cbn [fst snd] in *.
      rewrite decide_True by assumption. auto.
    + destruct (Mask.is_empty (user_mask eu &&& d)).
      * destruct Hw as (Hcur & Hp & Hd). cbn [fst snd] in *.
        rewrite decide_False by (rewrite Hd; apply not_elem_of_nil).
        split; [etransitivity; [exact Hcur | exact Hc] | exact Hp].
      * destruct Hw as (h & Hcur & Hp & Hd). cbn [fst snd] in *.
        exists h. cbv zeta. split; [|exact Hp].
        destruct (move_bucket _ _ _ _ h).2 eqn:Hm.
        -- rewrite decide_True by (apply Hd; right; reflexivity). reflexivity.
        -- rewrite decide_False; [exact Hcur|].
           intros Hin. apply Hd in Hin as [Hin | Hin];
             [inversion Hin | discriminate].
  - destruct Hw as (Hcur & Hp & Hd). cbn [fst snd] in *.
    split; [|exact Hp]. case_decide; [reflexivity|].
    etransitivity; [exact Hcur | exact Hc].
Qed.

Lemma inter_empty_r (m : FieldMask) : m &&& Mask.empty = Mask.empty.
Proof. apply N.land_0_r. Qed.

Lemma diff_empty_r (m : FieldMask) : m \\\ Mask.empty = m.
Proof. apply N.ldiff_0_r. Qed.

Lemma disjoint_of_user (eu : EventUsers) (d : FieldMask) (a : N) :
  summary_is_union eu -> user_mask eu &&& d = 0 ->
  bucket_fields eu a \\\ d = bucket_fields eu a /\
  bucket_fields eu a &&& d = Mask.empty.
Proof.
  intros Hsum Hz.
  assert (Hd : forall i, N.testbit (bucket_fields eu a) i = true ->
                         N.testbit d i = false).
  { intros i Hi. pose proof (summary_bounds eu a i Hsum Hi) as Hb.
    assert (Hzi : N.testbit (user_mask eu &&& d) i = false)
      by (rewrite Hz; apply N.bits_0).
    unfold Mask.inter in Hzi. rewrite N.land_spec, Hb in Hzi. exact Hzi. }
  split; apply N.bits_inj; intros i; specialize (Hd i);
    unfold Mask.diff, Mask.inter, Mask.empty;
    rewrite ?N.ldiff_spec, ?N.land_spec, ?N.bits_0;
    destruct (N.testbit (bucket_fields eu a) i); try reflexivity;
    rewrite Hd by reflexivity; reflexivity.
Qed.

(** The fields of every user of an event that has not triggered, after
    [filter_current_users]: those in [dominated] have gone to the
    previous epoch, the others stay. *)
Lemma filter_current_users_migrates ht d (s : MaterializedState) (e : Event) (a : N) :
  table_summaries (current_epoch_users s) -> ht e = false ->
  let s' := filter_current_users ht d s in
  fields_of (current_epoch_users s' !! e) a
    = fields_of (current_epoch_users s !! e) a \\\ d /\
  fields_of (previous_epoch_users s' !! e) a
    = fields_of (previous_epoch_users s !! e) a
      ||| (fields_of (current_epoch_users s !! e) a &&& d) /\
  (current_epoch_users s' !! e = None <->
   current_epoch_users s !! e = None \/
   (summary_of (current_epoch_users s !! e) &&& d <> 0 /\
    summary_of (current_epoch_users s !! e) \\\ d = 0)).
Proof.
  intros Hsum Ht s'. subst s'.
  destruct (filter_current_users_at ht d s e) as (_ & _ & Hat).
  destruct (current_epoch_users s !! e) as [eu|] eqn:Hc.
  - rewrite Ht in Hat. specialize (Hsum e eu Hc).
    destruct (Mask.is_empty (user_mask eu &&& d)) eqn:He.
    + destruct Hat as [-> ->]. apply is_empty_true in He.
      destruct (disjoint_of_user eu d a Hsum He) as [H1 H2].
      cbn [fields_of summary_of]. rewrite H1, H2, union_empty_r.
      split; [reflexivity|]. split; [reflexivity|].
      split; [discriminate|]. intros [? | [Hne _]]; [discriminate | contradiction].
    + destruct Hat as (h & Hcur & Hprev). cbv zeta in Hcur, Hprev.
      destruct (move_bucket_spec eu d (previous_epoch_users s !! e) h a Hsum)
        as (Me & Mp & _ & Mc & Mn & _).
      cbv zeta in Me, Mp, Mc, Mn.
      rewrite Hcur, Hprev. cbn [fields_of summary_of].
      apply is_empty_false in He.
      destruct (move_bucket _ _ _ _ h).2 eqn:Hm.
      * split; [symmetry; apply Mn; reflexivity|]. split; [exact Mp|].
        split; [|reflexivity]. intros _. right. split; [exact He|].
        symmetry in Me. apply is_empty_true in Me.
        rewrite diff_inter_same' in Me. exact Me.
      * split; [apply Mc; reflexivity|]. split; [exact Mp|].
        split; [discriminate|]. intros [? | [_ Hz]]; [discriminate|].
        symmetry in Me. apply is_empty_false in Me.
        rewrite diff_inter_same' in Me. contradiction.
  - destruct Hat as [-> ->]. cbn [fields_of summary_of].
    unfold Mask.diff, Mask.inter, Mask.empty. simpl.
    rewrite union_empty_r. intuition.
Qed.

(** ** C3: events that have triggered are not migrated *)

Lemma elem_of_sorted_elements (S : gset N) (e : N) : e ∈ sorted_elements S <-> e ∈ S.
Proof.
  unfold sorted_elements. rewrite merge_sort_Permutation. apply elem_of_elements.
Qed.

Lemma filter_local_users_other (e' e : Event) (s : MaterializedState) :
  e <> e' ->
  current_epoch_users (filter_local_users e' s) !! e = current_epoch_users s !! e /\
  previous_epoch_users (filter_local_users e' s) !! e = previous_epoch_users s !! e.
Proof.
  intros Hne. destruct (decide (e' ∈ outstanding_gc_events s)) as [Hin | Hout].
  - rewrite filter_local_users_recorded by assumption.
    cbn [current_epoch_users previous_epoch_users].
    rewrite !lookup_delete_ne by congruence. auto.
  - rewrite filter_local_users_unrecorded by assumption. auto.
Qed.

Lemma filter_local_users_summaries (e' : Event) (s : MaterializedState) :
  table_summaries (current_epoch_users s) ->
  table_summaries (current_epoch_users (filter_local_users e' s)).
Proof.
  intros Hs. destruct (decide (e' ∈ outstanding_gc_events s)) as [Hin | Hout].
  - rewrite filter_local_users_recorded by assumption.
    cbn [current_epoch_users]. intros e eu Hl.
    apply lookup_delete_Some in Hl as [_ Hl]. exact (Hs e eu Hl).
  - rewrite filter_local_users_unrecorded by assumption. exact Hs.
Qed.

Lemma collect_other (l : list Event) (e : Event) (s : MaterializedState) :
  e ∉ l ->
  current_epoch_users (foldl (fun s e => filter_local_users e s) s l) !! e
    = current_epoch_users s !! e /\
  previous_epoch_users (foldl (fun s e => filter_local_users e s) s l) !! e
    = previous_epoch_users s !! e.
Proof.
  revert s. induction l as [|e' l IH]; intros s Hnin; [auto|].
  cbn [foldl]. apply not_elem_of_cons in Hnin as [Hne Hnin].
  destruct (IH (filter_local_users e' s) Hnin) as [-> ->].
  apply filter_local_users_other. exact Hne.
Qed.

Lemma collect_summaries (l : list Event) (s : MaterializedState) :
  table_summaries (current_epoch_users s) ->
  table_summaries
    (current_epoch_users (foldl (fun s e => filter_local_users e s) s l)).
Proof.
  revert s. induction l as [|e' l IH]; intros s Hs; [exact Hs|].
  cbn [foldl]. apply IH, filter_local_users_summaries, Hs.
Qed.

Lemma filter_previous_entry_current (fit : Event * FieldMask) (s : MaterializedState) :
  current_epoch_users (filter_previous_entry fit s) = current_epoch_users s.
Proof.
  unfold filter_previous_entry.
  repeat (case_match; try reflexivity).
Qed.

Lemma filter_previous_users_current (fp : gmap Event FieldMask) (s : MaterializedState) :
  current_epoch_users (filter_previous_users fp s) = current_epoch_users s.
Proof.
  unfold filter_previous_users. generalize (entries fp). intros l. revert s.
  induction l as [|fit l IH]; intros s; [reflexivity|].
  cbn [foldl]. rewrite IH. apply filter_previous_entry_current.
Qed.

Lemma subseteq_union_of_r (x y : FieldMask) : Mask.subseteq y (x ||| y).
Proof. apply subseteq_union_r. Qed.

Lemma current_task_pass_dead `{Analysis} ht node usage te mask cc l st :
  (forall x, x ∈ st.1 -> ht x = true) ->
  forall x,
    x ∈ (foldl (fun st cit => current_task_entry ht node usage te mask cc cit st) st l).1 ->
    ht x = true.
Proof.
  revert st. induction l as [|cit l IH]; intros st Hst; [exact Hst|].
  cbn [foldl]. apply IH. intros x. unfold current_task_entry.
  destruct (ht cit.1) eqn:Ht.
  - cbn [fst]. intros Hx. apply elem_of_union in Hx as [Hx | Hx]; [|auto].
    apply elem_of_singleton in Hx as ->. exact Ht.
  - repeat case_match; cbn [fst]; auto.
Qed.

Lemma previous_task_pass_dead `{Analysis} ht node usage te nd dom skip cc l st :
  (forall x, x ∈ prev_dead_events st -> ht x = true) ->
  forall x,
    x ∈ prev_dead_events
          (foldl (fun st pit => previous_task_entry ht node usage te nd dom skip cc
                                  pit st) st l) ->
    ht x = true.
Proof.
  revert st. induction l as [|pit l IH]; intros st Hst; [exact Hst|].
  cbn [foldl]. apply IH. intros x. unfold previous_task_entry.
  destruct (ht pit.1) eqn:Ht.
  - cbn [prev_dead_events]. intros Hx. apply elem_of_union in Hx as [Hx | Hx]; [|auto].
    apply elem_of_singleton in Hx as ->. exact Ht.
  - repeat case_match; cbn [prev_dead_events]; auto.
Qed.

Lemma task_analysis_dead `{Analysis} ht node usage te cc mask pre s x :
  x ∈ ta_dead_events (task_analysis ht node usage te cc mask pre s) -> ht x = true.
Proof.
  unfold task_analysis. cbn [ta_dead_events].
  apply previous_task_pass_dead. cbn [prev_dead_events].
  apply current_task_pass_dead. cbn [fst]. intros y Hy.
  apply elem_of_empty in Hy. contradiction.
Qed.

Lemma current_copy_pass_dead `{Analysis} ht node redop reading cm cc vs l st :
  (forall x, x ∈ st.1 -> ht x = true) ->
  forall x,
    x ∈ (foldl (fun st cit => current_copy_entry ht node redop reading cm cc vs cit st)
               st l).1 ->
    ht x = true.
Proof.
  revert st. induction l as [|cit l IH]; intros st Hst; [exact Hst|].
  cbn [foldl]. apply IH. intros x. unfold current_copy_entry.
  destruct (ht cit.1) eqn:Ht.
  - cbn [fst]. intros Hx. apply elem_of_union in Hx as [Hx | Hx]; [|auto].
    apply elem_of_singleton in Hx as ->. exact Ht.
  - repeat case_match; cbn [fst]; auto.
Qed.

Lemma previous_copy_pass_dead `{Analysis} ht node redop reading nd dom skip cc vs l st :
  (forall x, x ∈ prevc_dead_events st -> ht x = true) ->
  forall x,
    x ∈ prevc_dead_events
          (foldl (fun st pit => previous_copy_entry ht node redop reading nd dom skip
                                  cc vs pit st) st l) ->
    ht x = true.
Proof.
  revert st. induction l as [|pit l IH]; intros st Hst; [exact Hst|].
  cbn [foldl]. apply IH. intros x. unfold previous_copy_entry.
  destruct (ht pit.1) eqn:Ht.
  - cbn [prevc_dead_events]. intros Hx.
    apply elem_of_union in Hx as [Hx | Hx]; [|auto].
    apply elem_of_singleton in Hx as ->. exact Ht.
  - repeat case_match; cbn [prevc_dead_events]; auto.
Qed.

Lemma copy_analysis_dead `{Analysis} ht node redop reading cm cc vs pre s x :
  x ∈ ca_dead_events (copy_analysis ht node redop reading cm cc vs pre s) ->
  ht x = true.
Proof.
  unfold copy_analysis. cbn [ca_dead_events].
  apply previous_copy_pass_dead. cbn [prevc_dead_events].
  apply current_copy_pass_dead. cbn [fst]. intros y Hy.
  apply elem_of_empty in Hy. contradiction.
Qed.

Lemma sorted_elements_empty : sorted_elements ∅ = [].
Proof.
  apply Permutation_nil_r. unfold sorted_elements.
  rewrite merge_sort_Permutation, elements_empty. reflexivity.
Qed.

Lemma apply_filters_nothing ht (s : MaterializedState) :
  apply_filters ht ∅ ∅ Mask.empty s = s.
Proof.
  unfold apply_filters. cbv zeta. rewrite sorted_elements_empty. reflexivity.
Qed.

Lemma insert_user_fields (user : N * PhysicalUser) (mask : FieldMask)
    (o : option EventUsers) (a : N) :
  bucket_fields (insert_user user mask o) a
    = if decide (a = user.1) then mask else fields_of o a.
Proof.
  unfold insert_user, bucket_fields. destruct o as [eu|]; cbn [fields_of users].
  - unfold bucket_fields. destruct (users eu) as [u0 | m]; cbn [users].
    + rewrite !mask_at_insert, mask_at_empty. cbn [snd]. reflexivity.
    + rewrite mask_at_insert. reflexivity.
  - cbn [user_mask]. reflexivity.
Qed.

Lemma two_writers_summaries : table_summaries (current_epoch_users two_writers).
Proof.
  intros e eu Hl. unfold two_writers in Hl. cbn [current_epoch_users] in Hl.
  apply lookup_insert_Some in Hl as [[_ <-] | [_ Hl]];
    [apply summary_is_union_single|].
  apply lookup_singleton_Some in Hl as [_ <-]. apply summary_is_union_single.
Qed.

(** Event 1 has triggered when a copy that writes the first field is
    analyzed against [two_writers].  Event 2 gives the dependence and the
    field is dominated; the user of event 1 held the field in the current
    epoch, and after the analyzer it is in neither epoch. *)
Lemma triggered_user_is_dropped (A : Analysis) :
  let ht := fun e : Event => N.eqb e 1 in
  let vi := mkVersionInfo (fun _ => true) (fun _ => None) in
  let s' := (@find_local_copy_preconditions A ht ht sample_node 0 false 1 None vi ∅
               two_writers).2 in
  @copy_dominated A ht sample_node 0 false 1 None vi ∅ two_writers = 1 /\
  fields_of (current_epoch_users two_writers !! 1) 0 = 1 /\
  current_epoch_users s' !! 1 = None /\
  previous_epoch_users s' !! 1 = None.
Proof. vm_compute. repeat split. Qed.

Lemma every_user_migrates_fails : ~ @every_user_migrates sample_analysis.
Proof.
  intros Hclaim.
  assert (Hgc : gc_covers two_writers).
  { unfold gc_covers, two_writers.
    cbn [current_epoch_users previous_epoch_users outstanding_gc_events].
    rewrite dom_insert_L, dom_singleton_L, dom_empty_L. set_solver. }
  destruct (Hclaim (fun e => N.eqb e 1) (fun e => N.eqb e 1) sample_node 0 false 1
              None
              (mkVersionInfo (fun _ => true) (fun _ => None)) ∅ two_writers 1 0
              two_writers_summaries Hgc) as [_ Hsub].
  destruct (triggered_user_is_dropped sample_analysis) as (Hd & Hf & _ & Hp).
  cbv zeta in Hd, Hf, Hp. rewrite Hd, Hf, Hp in Hsub.
  vm_compute in Hsub. discriminate.
Qed.

(** ** C7: remote updates *)

Lemma to_int_small (z : Z) : (- 2 ^ 31 <= z < 2 ^ 31)%Z -> to_int z = z.
Proof. intros Hz. unfold to_int. rewrite Z.mod_small by lia. lia. Qed.

Lemma to_unsigned_small (n : N) : n < 2 ^ 32 -> to_unsigned n = n.
Proof. intros Hn. unfold to_unsigned. apply N.mod_small. exact Hn. Qed.

Lemma indexed_empty (store : N -> PhysicalUser -> Prop) (h : UserHeap) :
  indexed store (mkPacker ∅ h).
Proof. intros a record i Hl. simpl in Hl. rewrite lookup_empty in Hl. discriminate. Qed.

Lemma pack_new_user (store : N -> PhysicalUser -> Prop) (u : N * PhysicalUser) (p : Packer) :
  store u.1 u.2 -> indexed store p -> needed_users p !! u.1 = None ->
  (Z.of_nat (size (needed_users p)) < 2 ^ 31)%Z ->
  packs_index store u p (pack_current_user u p).
Proof.
  intros Hrec Hix Hnew Hsz. unfold packs_index, pack_current_user, indexed.
  cbn [fst snd needed_users]. rewrite to_int_small by lia.
  split; [apply insert_subseteq; exact Hnew|].
  split.
  { intros a record i Hl. rewrite map_size_insert_None by exact Hnew.
    destruct (decide (a = u.1)) as [->|Hne].
    - rewrite lookup_insert_eq in Hl. injection Hl as <- <-.
      split; [exact Hrec|]. split; [lia|].
      intros b record' Hb. destruct (decide (b = u.1)) as [->|Hbne]; [reflexivity|].
      rewrite lookup_insert_ne in Hb by congruence.
      destruct (Hix _ _ _ Hb) as (_ & Hr & _). lia.
    - rewrite lookup_insert_ne in Hl by congruence.
      destruct (Hix _ _ _ Hl) as (Hs & Hr & Hinj).
      split; [exact Hs|]. split; [lia|].
      intros b record' Hb. destruct (decide (b = u.1)) as [->|Hbne].
      + rewrite lookup_insert_eq in Hb. injection Hb as _ <-. lia.
      + rewrite lookup_insert_ne in Hb by congruence. exact (Hinj _ _ Hb). }
  split; [eexists; apply lookup_insert_eq|].
  split; [apply dom_insert_L|].
  rewrite map_size_insert_None by exact Hnew. lia.
Qed.

Lemma pack_current_user_spec (store : N -> PhysicalUser -> Prop) (u : N * PhysicalUser)
    (l : list N) (p : Packer) :
  store u.1 u.2 -> indexed store p ->
  NoDup (u.1 :: l) /\ (forall a, a ∈ u.1 :: l -> a ∉ dom (needed_users p)) ->
  (Z.of_nat (size (needed_users p)) < 2 ^ 31)%Z ->
  packs_index store u p (pack_current_user u p) /\
  (NoDup l /\ forall a, a ∈ l -> a ∉ dom (needed_users (pack_current_user u p).2)).
Proof.
  intros Hrec Hix [Hnd Hfresh] Hsz.
  assert (Hnew : needed_users p !! u.1 = None).
  { apply not_elem_of_dom. apply Hfresh. left. }
  pose proof (pack_new_user store u p Hrec Hix Hnew Hsz) as Hp.
  split; [exact Hp|]. apply NoDup_cons in Hnd as [Hnotin Hnd].
  split; [exact Hnd|]. intros a Ha.
  destruct Hp as (_ & _ & _ & Hdom & _). rewrite Hdom.
  assert (a ≠ u.1) by (intros ->; contradiction).
  assert (a ∉ dom (needed_users p)) by (apply Hfresh; right; exact Ha).
  set_solver.
Qed.

Lemma pack_previous_user_spec (store : N -> PhysicalUser -> Prop) (u : N * PhysicalUser)
    (p : Packer) :
  store u.1 u.2 -> indexed store p ->
  (Z.of_nat (size (needed_users p)) < 2 ^ 31)%Z ->
  packs_index store u p (pack_previous_user u p).
Proof.
  intros Hrec Hix Hsz. unfold pack_previous_user.
  destruct (needed_users p !! u.1) as [[record i]|] eqn:Hl.
  - unfold packs_index. cbn [fst snd].
    split; [reflexivity|]. split; [exact Hix|].
    split; [exists record; exact Hl|].
    split; [|lia]. apply elem_of_dom_2 in Hl. set_solver.
  - exact (pack_new_user store u p Hrec Hix Hl Hsz).
Qed.

Lemma grown_nil (store : N -> PhysicalUser -> Prop) (p : Packer) :
  indexed store p -> grown store p p [].
Proof.
  intros Hix. split; [reflexivity|]. split; [exact Hix|].
  split; [intros a Ha; inversion Ha | simpl; lia].
Qed.

Lemma grown_app (store : N -> PhysicalUser -> Prop) (p p1 p2 : Packer) (l1 l2 : list N) :
  grown store p p1 l1 -> grown store p1 p2 l2 -> grown store p p2 (l1 ++ l2).
Proof.
  intros (Hs1 & _ & Hd1 & Hz1) (Hs2 & Hix & Hd2 & Hz2).
  split; [etransitivity; eassumption|]. split; [exact Hix|].
  split.
  - intros a Ha. apply elem_of_app in Ha as [Ha|Ha]; [|exact (Hd2 a Ha)].
    apply Hd1 in Ha. apply elem_of_dom in Ha as [x Hx].
    apply elem_of_dom. exists x. exact (lookup_weaken _ _ _ _ Hx Hs2).
  - rewrite length_app. lia.
Qed.

Lemma grown_step (store : N -> PhysicalUser -> Prop) (u : N * PhysicalUser) (p : Packer)
    (r : Z * Packer) :
  packs_index store u p r -> grown store p r.2 [u.1].
Proof.
  intros (Hs & Hix & [record Hl] & Hdom & Hz).
  split; [exact Hs|]. split; [exact Hix|].
  split; [|simpl; lia].
  intros a Ha. apply list_elem_of_singleton in Ha as ->.
  apply elem_of_dom. eexists. exact Hl.
Qed.

Lemma index_in_weaken (p p' : Packer) (a : N) :
  needed_users p ⊆ needed_users p' -> a ∈ dom (needed_users p) ->
  index_in p' a = index_in p a.
Proof.
  intros Hs Ha. apply elem_of_dom in Ha as [x Hx]. unfold index_in.
  rewrite Hx, (lookup_weaken _ _ _ _ Hx Hs). reflexivity.
Qed.

Lemma index_in_step (store : N -> PhysicalUser -> Prop) (u : N * PhysicalUser) (p p' : Packer)
    (r : Z * Packer) :
  packs_index store u p r -> needed_users r.2 ⊆ needed_users p' ->
  index_in p' u.1 = r.1.
Proof.
  intros (_ & _ & [record Hl] & _) Hs. unfold index_in.
  rewrite (lookup_weaken _ _ _ _ Hl Hs). reflexivity.
Qed.

Lemma encode_users_ext (idx idx' : N -> Z) (l : list (N * FieldMask)) :
  (forall a, a ∈ l.*1 -> idx a = idx' a) ->
  flat_map (encode_user idx) l = flat_map (encode_user idx') l.
Proof.
  induction l as [|u l IH]; intros Hext; [reflexivity|].
  simpl. rewrite IH by (intros a Ha; apply Hext; simpl; right; exact Ha).
  unfold encode_user. rewrite (Hext u.1) by (simpl; left). reflexivity.
Qed.

Lemma encode_block_ext (idx idx' : N -> Z) (l : list (N * FieldMask)) :
  (forall a, a ∈ l.*1 -> idx a = idx' a) ->
  encode_block idx l = encode_block idx' l.
Proof.
  intros Hext. pose proof (encode_users_ext idx idx' l Hext) as He.
  destruct l as [|u [|u' l]]; [reflexivity| |].
  - simpl in He. exact He.
  - unfold encode_block. rewrite He. reflexivity.
Qed.

Lemma encode_events_ext (idx idx' : N -> Z) (ups : list (Event * list (N * FieldMask))) :
  (forall a, a ∈ carried_addrs ups -> idx a = idx' a) ->
  encode_events idx ups = encode_events idx' ups.
Proof.
  induction ups as [|ev ups IH]; intros Hext; [reflexivity|].
  unfold encode_events. simpl. fold (encode_events idx ups) (encode_events idx' ups).
  rewrite (encode_block_ext idx idx' ev.2), IH; [reflexivity| |].
  - intros a Ha. apply Hext. unfold carried_addrs. simpl. apply elem_of_app. right. exact Ha.
  - intros a Ha. apply Hext. unfold carried_addrs. simpl. apply elem_of_app. left. exact Ha.
Qed.

Section Packing.
Context (store : N -> PhysicalUser -> Prop).
Context (pack_index : N * PhysicalUser -> Packer -> Z * Packer).
Context (Pre : list N -> Packer -> Prop).
Hypothesis pack_index_spec : forall u l p,
  store u.1 u.2 -> indexed store p -> Pre (u.1 :: l) p ->
  (Z.of_nat (size (needed_users p)) < 2 ^ 31)%Z ->
  packs_index store u p (pack_index u p) /\ Pre l (pack_index u p).2.

Lemma pack_multi_fold (overlap : FieldMask) (l : list (N * (PhysicalUser * FieldMask))) :
  forall (rest : list N) (count : Z) (rez : list Token) (p : Packer),
    (forall it, it ∈ l -> store it.1 it.2.1) ->
    indexed store p ->
    Pre ((overlapping overlap l).*1 ++ rest) p ->
    (Z.of_nat (size (needed_users p) + length (overlapping overlap l)) < 2 ^ 31)%Z ->
    (- 2 ^ 31 <= count - Z.of_nat (length (overlapping overlap l)))%Z ->
    (count < 2 ^ 31)%Z ->
    exists p',
      foldl (fun acc it => pack_multi_user pack_index overlap it acc) (count, rez, p) l
        = ((count - Z.of_nat (length (overlapping overlap l)))%Z,
           rez ++ flat_map (encode_user (index_in p')) (overlapping overlap l), p') /\
      grown store p p' (overlapping overlap l).*1 /\
      Pre rest p'.
Proof using pack_index_spec.
  induction l as [|it l IH]; intros rest count rez p Hst Hix Hpre Hsz Hlo Hhi.
  - exists p. simpl. rewrite Z.sub_0_r, app_nil_r.
    split; [reflexivity|]. split; [apply grown_nil; exact Hix | exact Hpre].
  - simpl in Hpre, Hsz, Hlo |- *.
    destruct (Mask.is_empty (it.2.2 &&& overlap)) eqn:Hov.
    + apply IH; try assumption. intros it' Hit. apply Hst. right. exact Hit.
    + simpl in Hpre, Hsz, Hlo.
      assert (Hrec : store (it.1, it.2.1).1 (it.1, it.2.1).2) by (apply Hst; left).
      assert (Hsz0 : (Z.of_nat (size (needed_users p)) < 2 ^ 31)%Z) by lia.
      destruct (pack_index_spec (it.1, it.2.1) ((overlapping overlap l).*1 ++ rest) p
                  Hrec Hix Hpre Hsz0) as [Hp Hpre1].
      destruct (pack_index (it.1, it.2.1) p) as [index p1] eqn:Hpk.
      pose proof Hp as (Hs1 & Hix1 & _ & Hdom1 & Hz1). cbn [fst snd] in *.
      rewrite (to_int_small (count - 1)) by lia.
      destruct (IH rest (count - 1)%Z (rez ++ [TInt index; TMask (it.2.2 &&& overlap)]) p1)
        as (p' & Hfold & Hg & Hpre'); try assumption; try lia.
      { intros it' Hit. apply Hst. right. exact Hit. }
      exists p'. split; [|split; [|exact Hpre']].
      * rewrite Hfold, <- app_assoc. simpl. unfold encode_user at 1. cbn [fst snd].
        pose proof (index_in_step store (it.1, it.2.1) p p' (index, p1) Hp (proj1 Hg))
          as Hi. cbn [fst snd] in Hi. rewrite Hi.
        replace (count - 1 - Z.of_nat (length (overlapping overlap l)))%Z with (count - Z.of_nat (S (length (overlapping overlap l))))%Z by lia. reflexivity.
      * exact (grown_app store p p1 p' [it.1] _
                 (grown_step store (it.1, it.2.1) p (index, p1) Hp) Hg).
Qed.

Lemma pack_event_spec (update_mask : FieldMask) (it : Event * EventUsers)
    (rest : list N) (events : N) (rez : list Token) (p : Packer) :
  bucket_stored store it.2 -> indexed store p ->
  Mask.is_empty (user_mask it.2 &&& update_mask) = false ->
  Pre ((carried_users update_mask it.2).*1 ++ rest) p ->
  (Z.of_nat (size (needed_users p) + length (carried_users update_mask it.2)) + 1
     < 2 ^ 31)%Z ->
  events + 1 < 2 ^ 32 ->
  exists p',
    pack_event pack_index update_mask it (events, rez, p)
      = (events + 1,
         rez ++ TEvent it.1 :: encode_block (index_in p') (carried_users update_mask it.2),
         p') /\
    grown store p p' (carried_users update_mask it.2).*1 /\
    Pre rest p'.
Proof using pack_index_spec.
  intros Hst Hix Hov Hpre Hsz Hev. unfold pack_event. rewrite Hov.
  unfold carried_users, bucket_stored in *. rewrite (to_unsigned_small _ Hev).
  destruct (users it.2) as [user|m].
  - simpl in Hpre, Hsz.
    assert (Hsz0 : (Z.of_nat (size (needed_users p)) < 2 ^ 31)%Z) by lia.
    destruct (pack_index_spec user rest p Hst Hix Hpre Hsz0) as [Hp Hpre1].
    destruct (pack_index user p) as [index p1] eqn:Hpk. exists p1.
    split; [|split; [exact (grown_step store user p (index, p1) Hp) | exact Hpre1]].
    unfold encode_block, encode_user. cbn [fst snd].
    pose proof (index_in_step store user p p1 (index, p1) Hp (reflexivity _)) as Hi.
    cbn [fst snd] in Hi. rewrite Hi. reflexivity.
  - set (overlap := user_mask it.2 &&& update_mask) in *.
    destruct (pack_multi_fold overlap (entries m) rest (-1)%Z [] p)
      as (p' & Hfold & Hg & Hpre'); try assumption; try lia.
    { intros [a um] Hit. apply elem_of_entries in Hit. exact (Hst a um Hit). }
    exists p'. rewrite Hfold. split; [|split; assumption].
    f_equal. f_equal. f_equal. rewrite app_nil_l.
    destruct (overlapping overlap (entries m)) as [|u [|u' l]]; [reflexivity..|].
    cbn [length]. unfold encode_block.
    assert (H1 : (-1 - Z.of_nat (S (S (length l))) =? -1)%Z = false)
      by (apply Z.eqb_neq; lia).
    assert (H2 : (-1 - Z.of_nat (S (S (length l))) <? -2)%Z = true)
      by (apply Z.ltb_lt; lia).
    rewrite H1, H2. cbn [orb app length]. repeat f_equal. lia.
Qed.

Lemma pack_events_fold (update_mask : FieldMask) (l : list (Event * EventUsers)) :
  forall (rest : list N) (events : N) (rez : list Token) (p : Packer),
    (forall it, it ∈ l -> bucket_stored store it.2) ->
    indexed store p ->
    Pre (carried_addrs (carried_events update_mask l) ++ rest) p ->
    (Z.of_nat (size (needed_users p) + update_load (carried_events update_mask l))
       < 2 ^ 31)%Z ->
    events + N.of_nat (length (carried_events update_mask l)) < 2 ^ 32 ->
    exists p',
      foldl (fun acc it => pack_event pack_index update_mask it acc) (events, rez, p) l
        = (events + N.of_nat (length (carried_events update_mask l)),
           rez ++ encode_events (index_in p') (carried_events update_mask l), p') /\
      grown store p p' (carried_addrs (carried_events update_mask l)) /\
      Pre rest p'.
Proof using pack_index_spec.
  induction l as [|it l IH]; intros rest events rez p Hst Hix Hpre Hsz Hev.
  - exists p. simpl. rewrite N.add_0_r, app_nil_r.
    split; [reflexivity|]. split; [apply grown_nil; exact Hix | exact Hpre].
  - cbn [foldl carried_events] in *.
    destruct (Mask.is_empty (user_mask it.2 &&& update_mask)) eqn:Hov.
    + assert (Hskip : pack_event pack_index update_mask it (events, rez, p)
                      = (events, rez, p)) by (unfold pack_event; rewrite Hov; reflexivity).
      rewrite Hskip.
      apply IH; try assumption. intros it' Hit. apply Hst. right. exact Hit.
    + unfold carried_addrs, update_load in Hpre, Hsz. simpl in Hpre, Hsz, Hev.
      fold (carried_addrs (carried_events update_mask l)) in Hpre, Hsz.
      rewrite <- app_assoc in Hpre. rewrite length_app, length_fmap in Hsz.
      destruct (pack_event_spec update_mask it
                  (carried_addrs (carried_events update_mask l) ++ rest) events rez p)
        as (p1 & Hpk & Hg1 & Hpre1); try assumption; try lia.
      { apply Hst. left. }
      rewrite Hpk.
      pose proof Hg1 as (Hs1 & Hix1 & Hd1 & Hz1). rewrite length_fmap in Hz1.
      destruct (IH rest (events + 1)
                  (rez ++ TEvent it.1
                       :: encode_block (index_in p1) (carried_users update_mask it.2)) p1)
        as (p' & Hfold & Hg & Hpre'); try assumption.
      { intros it' Hit. apply Hst. right. exact Hit. }
      { unfold update_load. lia. }
      { lia. }
      exists p'. split; [|split; [|exact Hpre']].
      * rewrite Hfold, <- app_assoc.
        rewrite (encode_block_ext (index_in p1) (index_in p')).
        2:{ intros a Ha. symmetry.
            apply index_in_weaken; [exact (proj1 Hg) | exact (Hd1 a Ha)]. }
        replace (events + 1 + N.of_nat (length (carried_events update_mask l)))
          with (events + N.of_nat (length ((it.1, carried_users update_mask it.2)
                                             :: carried_events update_mask l)))
          by (cbn [length]; lia).
        reflexivity.
      * unfold carried_addrs. simpl. exact (grown_app store p p1 p' _ _ Hg1 Hg).
Qed.
End Packing.

(** *** The receiver *)

Lemma same_tables_refl (r : MaterializedState) : same_tables r r.
Proof. repeat split. Qed.

Lemma same_tables_trans (r1 r2 r3 : MaterializedState) :
  same_tables r1 r2 -> same_tables r2 r3 -> same_tables r1 r3.
Proof. intros (? & ? & ?) (? & ? & ?). repeat split; congruence. Qed.

Lemma same_tables_set_heap (f : UserHeap -> UserHeap) (r : MaterializedState) :
  same_tables (set_heap f r) r.
Proof. repeat split. Qed.

Lemma add_current_user_tables (user : N * PhysicalUser) (e : Event) (mask : FieldMask)
    (s s' : MaterializedState) :
  same_tables s s' ->
  same_tables (add_current_user user e mask s) (add_current_user user e mask s').
Proof.
  intros (Hc & Hp & Hg). unfold same_tables, add_current_user, set_current.
  cbn [current_epoch_users previous_epoch_users outstanding_gc_events].
  rewrite Hc, Hp, Hg. repeat split.
Qed.

Lemma add_previous_user_tables (user : N * PhysicalUser) (e : Event) (mask : FieldMask)
    (s s' : MaterializedState) :
  same_tables s s' ->
  same_tables (add_previous_user user e mask s) (add_previous_user user e mask s').
Proof.
  intros (Hc & Hp & Hg). unfold same_tables, add_previous_user, set_previous.
  cbn [current_epoch_users previous_epoch_users outstanding_gc_events].
  rewrite Hc, Hp, Hg. repeat split.
Qed.

Lemma note_event_tables (e : Event) (u : Update) (r : MaterializedState) :
  same_tables (update_state u) r ->
  update_users (note_event e u) = update_users u /\
  same_tables (update_state (note_event e u)) (set_gc (fun gc => {[e]} ∪ gc) r).
Proof.
  intros (Hc & Hp & Hg). unfold note_event.
  destruct (decide (e ∈ outstanding_gc_events (update_state u))) as [Hin|Hout].
  - split; [reflexivity|]. unfold same_tables, set_gc.
    cbn [current_epoch_users previous_epoch_users outstanding_gc_events].
    repeat split; try assumption. rewrite <- Hg. set_solver.
  - split; [reflexivity|]. unfold same_tables, set_gc.
    cbn [update_state current_epoch_users previous_epoch_users outstanding_gc_events].
    rewrite Hc, Hp, Hg. repeat split.
Qed.

Section Install.
Context (add : N * PhysicalUser -> Event -> FieldMask -> MaterializedState -> MaterializedState).
Hypothesis add_tables : forall user e mask s s',
  same_tables s s' -> same_tables (add user e mask s) (add user e mask s').
Context (idx : N -> Z) (copy : N -> N * PhysicalUser).

Lemma install_user_spec (a : N) (e : Event) (mask : FieldMask) (u : Update)
    (r : MaterializedState) :
  resolves idx copy (update_users u) [a] -> same_tables (update_state u) r ->
  exists u',
    install_user add (idx a) e mask u = Some u' /\
    update_users u' = update_users u /\
    same_tables (update_state u') (add (copy a) e mask r).
Proof using add_tables.
  intros Hres Hsame. destruct (Hres a) as [Hpos Hl]; [left|].
  unfold install_user. apply Z.leb_le in Hpos. rewrite Hpos, Hl.
  eexists. split; [reflexivity|]. split; [reflexivity|].
  cbn [update_state]. apply add_tables.
  destruct (default false (need_reference u !! Z.to_nat (idx a))); [|exact Hsame].
  exact (same_tables_trans _ _ _ (same_tables_set_heap _ _) Hsame).
Qed.

Lemma install_entries_spec (e : Event) (l : list (N * FieldMask)) :
  forall (rest : list Token) (u : Update) (r : MaterializedState),
    resolves idx copy (update_users u) l.*1 -> same_tables (update_state u) r ->
    exists u',
      install_entries add (length l) e (flat_map (encode_user idx) l ++ rest) u
        = Some (u', rest) /\
      update_users u' = update_users u /\
      same_tables (update_state u')
                  (foldl (fun r x => add (copy x.1) e x.2 r) r l).
Proof using add_tables.
  induction l as [|x l IH]; intros rest u r Hres Hsame.
  - exists u. repeat split; try reflexivity; apply Hsame.
  - destruct (install_user_spec x.1 e x.2 u r) as (u1 & Hu1 & Hus1 & Hs1);
      [intros a Ha; apply Hres; apply list_elem_of_singleton in Ha as ->; left
      | exact Hsame |].
    destruct (IH rest u1 (add (copy x.1) e x.2 r)) as (u' & Hu' & Hus' & Hs');
      [rewrite Hus1; intros a Ha; apply Hres; right; exact Ha | exact Hs1 |].
    exists u'. split; [|split; [congruence | exact Hs']].
    cbn [length flat_map encode_user app install_entries read_int read_mask mbind
         option_bind].
    simpl. rewrite Hu1. simpl. exact Hu'.
Qed.

Lemma install_event_spec (ev : Event * list (N * FieldMask)) (rest : list Token)
    (u : Update) (r : MaterializedState) :
  (Z.of_nat (length ev.2) + 1 < 2 ^ 31)%Z ->
  resolves idx copy (update_users u) ev.2.*1 -> same_tables (update_state u) r ->
  exists u',
    install_event add (TEvent ev.1 :: encode_block idx ev.2 ++ rest) u = Some (u', rest) /\
    update_users u' = update_users u /\
    same_tables (update_state u') (install add copy ev r).
Proof using add_tables.
  intros Hlen Hres Hsame. destruct ev as [e l]. cbn [fst snd] in *.
  unfold install_event, install. cbn [read_event mbind option_bind fst snd].
  assert (Hblock : exists u1,
    ('(index, derez) ← read_int (encode_block idx l ++ rest);
     (if (index <? 0)%Z then
        install_entries add (Z.to_nat (to_int (to_int (- index) - 1))) e derez u
      else
        '(mask, derez) ← read_mask derez;
        u' ← install_user add index e mask u;
        Some (u', derez))) = Some (u1, rest) /\
    update_users u1 = update_users u /\
    same_tables (update_state u1) (foldl (fun r x => add (copy x.1) e x.2 r) r l)).
  { destruct l as [|x [|x' l]].
    - exists u. simpl. repeat split; try reflexivity; apply Hsame.
    - destruct (install_user_spec x.1 e x.2 u r) as (u1 & Hu1 & Hus1 & Hs1);
        [exact Hres | exact Hsame |].
      exists u1. split; [|split; assumption].
      destruct (Hres x.1) as [Hpos _]; [left|].
      unfold encode_block, encode_user. simpl.
      assert (Hneg : (idx x.1 <? 0)%Z = false) by (apply Z.ltb_ge; exact Hpos).
      rewrite Hneg. simpl. rewrite Hu1. reflexivity.
    - set (l2 := x :: x' :: l) in *.
      destruct (install_entries_spec e l2 rest u r Hres Hsame) as (u1 & Hu1 & Hrest).
      exists u1. split; [|exact Hrest].
      unfold encode_block. fold l2.
      assert (Hl2 : exists n, length l2 = S (S n)) by (exists (length l); reflexivity).
      destruct Hl2 as [n Hn].
      replace (match l2 with [u] => encode_user idx u
               | _ => TInt (- (Z.of_nat (length l2) + 1)) :: flat_map (encode_user idx) l2
               end) with (TInt (- (Z.of_nat (length l2) + 1)) :: flat_map (encode_user idx) l2)
        by reflexivity.
      cbn [app read_int mbind option_bind].
      assert (Hneg : (- (Z.of_nat (length l2) + 1) <? 0)%Z = true)
        by (apply Z.ltb_lt; lia).
      rewrite Hneg. rewrite Z.opp_involutive.
      rewrite (to_int_small (Z.of_nat (length l2) + 1)) by lia.
      rewrite to_int_small by lia.
      replace (Z.to_nat (Z.of_nat (length l2) + 1 - 1)) with (length l2) by lia.
      exact Hu1. }
  destruct Hblock as (u1 & Hb & Hus1 & Hs1).
  destruct (note_event_tables e u1 _ Hs1) as [Hus2 Hs2].
  exists (note_event e u1). split; [|split; [congruence | exact Hs2]].
  destruct (read_int (encode_block idx l ++ rest)) as [[index derez]|]; [|discriminate].
  simpl in Hb |- *. rewrite Hb. reflexivity.
Qed.

Lemma install_events_spec (ups : list (Event * list (N * FieldMask))) :
  forall (rest : list Token) (u : Update) (r : MaterializedState),
    (Z.of_nat (update_load ups) < 2 ^ 31)%Z ->
    resolves idx copy (update_users u) (carried_addrs ups) ->
    same_tables (update_state u) r ->
    exists u',
      install_events add (length ups) (encode_events idx ups ++ rest) u = Some (u', rest) /\
      update_users u' = update_users u /\
      same_tables (update_state u')
                  (foldl (fun r ev => install add copy ev r) r ups).
Proof using add_tables.
  induction ups as [|ev ups IH]; intros rest u r Hlen Hres Hsame.
  - exists u. repeat split; try reflexivity; apply Hsame.
  - unfold update_load, carried_addrs in Hlen, Hres. simpl in Hlen, Hres.
    fold (carried_addrs ups) in Hlen, Hres. rewrite length_app, length_fmap in Hlen.
    destruct (install_event_spec ev (encode_events idx ups ++ rest) u r)
      as (u1 & Hu1 & Hus1 & Hs1);
      [lia | intros a Ha; apply Hres; apply elem_of_app; left; exact Ha | exact Hsame |].
    destruct (IH rest u1 (install add copy ev r)) as (u' & Hu' & Hus' & Hs');
      [unfold update_load; lia
      | rewrite Hus1; intros a Ha; apply Hres; apply elem_of_app; right; exact Ha
      | exact Hs1 |].
    exists u'. split; [|split; [congruence | exact Hs']].
    cbn [length install_events]. unfold encode_events. cbn [flat_map].
    fold (encode_events idx ups). rewrite <- app_assoc, <- app_comm_cons.
    rewrite Hu1. simpl. exact Hu'.
Qed.
End Install.

Lemma next_addr_add_reference (a : N) (h : UserHeap) :
  next_addr (add_reference a h) = next_addr h.
Proof. unfold add_reference. destruct (references h !! a); reflexivity. Qed.

Lemma unpack_user_spec (record : PhysicalUser) (h : UserHeap) :
  (unpack_user record h).1 = (next_addr h, record) /\
  next_addr (unpack_user record h).2 = next_addr h + 1.
Proof.
  unfold unpack_user, legion_new. cbn [fst snd].
  rewrite next_addr_add_reference. destruct record; split; reflexivity.
Qed.

Lemma unpack_users_spec (l : list (N * (PhysicalUser * Z))) :
  forall (rest : list Token) (users : list (option (N * PhysicalUser))) (h : UserHeap),
    (forall it, it ∈ l -> (0 <= it.2.2 < Z.of_nat (length users))%Z) ->
    NoDup ((fun it : N * (PhysicalUser * Z) => it.2.2) <$> l) ->
    exists users' h',
      unpack_users (length l) (encode_table l ++ rest) users h = Some (users', h', rest) /\
      length users' = length users /\
      (forall k it, l !! k = Some it ->
         users' !! Z.to_nat it.2.2 = Some (Some (next_addr h + N.of_nat k, it.2.1))) /\
      (forall j, (forall it, it ∈ l -> Z.to_nat it.2.2 <> j) -> users' !! j = users !! j).
Proof.
  induction l as [|it l IH]; intros rest users h Hrange Hnd.
  - exists users, h. split; [reflexivity|]. split; [reflexivity|].
    split; [intros k it Hk; discriminate | reflexivity].
  - rewrite fmap_cons in Hnd. apply NoDup_cons in Hnd as [Hnotin Hnd].
    destruct (Hrange it) as [Hlo Hhi]; [left|].
    destruct (unpack_user_spec it.2.1 h) as [Huser Hnext].
    destruct (unpack_user it.2.1 h) as [user h1] eqn:Hun. cbn [fst snd] in Huser, Hnext.
    destruct (IH rest (<[Z.to_nat it.2.2 := Some user]> users) h1)
      as (users' & h' & Hrun & Hlen & Hat & Hother).
    { intros it' Hit. rewrite length_insert. apply Hrange. right. exact Hit. }
    { exact Hnd. }
    exists users', h'. rewrite length_insert in Hlen.
    split; [|split; [exact Hlen|split]].
    + cbn [length encode_table flat_map app unpack_users read_int read_user mbind
           option_bind].
      apply Z.leb_le in Hlo. apply Z.ltb_lt in Hhi. rewrite Hlo, Hhi.
      cbn [andb]. rewrite Hun. exact Hrun.
    + intros [|k] it' Hk.
      * injection Hk as <-. rewrite Hother.
        -- rewrite list_lookup_insert_eq by lia. rewrite Huser, N.add_0_r. reflexivity.
        -- intros it' Hit Heq. apply Hnotin. apply list_elem_of_fmap.
           exists it'. split; [|exact Hit].
           destruct (Hrange it') as [Hlo' _]; [right; exact Hit|]. lia.
      * rewrite (Hat k it' Hk), Hnext. do 3 f_equal. lia.
    + intros j Hj. rewrite Hother.
      * apply list_lookup_insert_ne. apply Hj. left.
      * intros it' Hit. apply Hj. right. exact Hit.
Qed.

Lemma foldl_pack_needed (l : list (N * (PhysicalUser * Z))) :
  forall (rez : list Token) (h : UserHeap),
    (foldl (fun acc it => pack_needed it acc) (rez, h) l).1 = rez ++ encode_table l.
Proof.
  induction l as [|it l IH]; intros rez h; simpl.
  - rewrite app_nil_r. reflexivity.
  - unfold pack_needed at 2. cbn [fst snd]. rewrite IH, <- app_assoc. reflexivity.
Qed.

Lemma length_entries {A} (m : gmap N A) : length (entries m) = size m.
Proof.
  unfold entries. rewrite merge_sort_Permutation. apply length_map_to_list.
Qed.

(** In the table of needed users no index is given twice. *)
Lemma indexed_NoDup (store : N -> PhysicalUser -> Prop) (p : Packer) :
  indexed store p ->
  NoDup ((fun it : N * (PhysicalUser * Z) => it.2.2) <$> entries (needed_users p)).
Proof.
  intros Hix. apply NoDup_fmap_2_strong.
  - intros [a [ra i]] [b [rb j]] Ha Hb Heq. cbn [fst snd] in Heq. subst j.
    apply elem_of_entries in Ha, Hb.
    destruct (Hix _ _ _ Ha) as (_ & _ & Hinj).
    pose proof (Hinj _ _ Hb) as ->.
    rewrite Ha in Hb. injection Hb as ->. reflexivity.
  - exact (NoDup_fmap_1 fst _ (NoDup_fst_entries _)).
Qed.

(** *** The message that is sent *)

Lemma stored_entries (store : N -> PhysicalUser -> Prop) (table : gmap Event EventUsers) :
  (forall e eu, table !! e = Some eu -> bucket_stored store eu) ->
  forall it, it ∈ entries table -> bucket_stored store it.2.
Proof. intros Hst [e eu] Hit. apply elem_of_entries in Hit. exact (Hst e eu Hit). Qed.

Lemma send_view_updates_message (store : N -> PhysicalUser -> Prop) (is_region : bool)
    (handle did : N) (update_mask : FieldMask) (s : MaterializedState) :
  let current := carried update_mask (current_epoch_users s) in
  let previous := carried update_mask (previous_epoch_users s) in
  stored_at store s ->
  NoDup (carried_addrs current) ->
  (Z.of_nat (update_load current + update_load previous) < 2 ^ 31)%Z ->
  exists p,
    (send_view_updates is_region handle did update_mask s).1
      = message is_region handle did (index_in p) (entries (needed_users p))
                current previous /\
    indexed store p /\
    (size (needed_users p)
       <= length (carried_addrs current) + length (carried_addrs previous))%nat /\
    forall a, a ∈ carried_addrs current ++ carried_addrs previous ->
              a ∈ dom (needed_users p).
Proof.
  intros current previous [Hsc Hsp] Hnd Hload.
  unfold carried in current, previous.
  destruct (pack_events_fold store pack_current_user fresh_for
              (fun u l p => pack_current_user_spec store u l p)
              update_mask (entries (current_epoch_users s)) [] 0 []
              (mkPacker ∅ (heap s)))
    as (p1 & Hf1 & Hg1 & _).
  { apply stored_entries. exact Hsc. }
  { apply indexed_empty. }
  { rewrite app_nil_r. split; [exact Hnd|]. intros a _. cbn [needed_users].
    rewrite dom_empty_L. set_solver. }
  { cbn [needed_users]. rewrite map_size_empty. fold current. lia. }
  { fold current. unfold update_load in Hload. lia. }
  fold current in Hf1, Hg1.
  destruct Hg1 as (Hs1 & Hix1 & Hd1 & Hz1).
  cbn [needed_users] in Hz1. rewrite map_size_empty in Hz1.
  destruct (pack_events_fold store pack_previous_user (fun _ _ => True)
              (fun u l p Hrec Hix _ Hsz =>
                 conj (pack_previous_user_spec store u p Hrec Hix Hsz) I)
              update_mask (entries (previous_epoch_users s)) [] 0 [] p1)
    as (p2 & Hf2 & Hg2 & _).
  { apply stored_entries. exact Hsp. }
  { exact Hix1. }
  { exact I. }
  { fold previous. unfold update_load in *. lia. }
  { fold previous. unfold update_load in Hload. lia. }
  fold previous in Hf2, Hg2.
  destruct Hg2 as (Hs2 & Hix2 & Hd2 & Hz2).
  exists p2. split; [|split; [exact Hix2|split; [lia|]]].
  - unfold send_view_updates. rewrite Hf1. cbv beta match. rewrite Hf2. cbv beta match.
    pose proof (foldl_pack_needed (entries (needed_users p2)) [] (pack_heap p2)) as Htab.
    destruct (foldl (fun acc it => pack_needed it acc) ([], pack_heap p2)
                    (entries (needed_users p2))) as [table h].
    cbn [fst snd] in Htab |- *. subst table.
    unfold message. rewrite length_entries, !N.add_0_l, !app_nil_l.
    rewrite (encode_events_ext (index_in p1) (index_in p2) current); [reflexivity|].
    intros a Ha. symmetry. apply index_in_weaken; [exact Hs2 | exact (Hd1 a Ha)].
  - intros a Ha. apply elem_of_app in Ha as [Ha|Ha]; [|exact (Hd2 a Ha)].
    apply Hd1 in Ha. apply elem_of_dom in Ha as [x Hx]. apply elem_of_dom.
    exists x. exact (lookup_weaken _ _ _ _ Hx Hs2).
Qed.

(** *** The message that is read *)

Lemma handle_send_update_message (is_region : bool) (handle did : N) (idx : N -> Z)
    (table : list (N * (PhysicalUser * Z)))
    (current previous : list (Event * list (N * FieldMask))) (r : MaterializedState) :
  (forall it, it ∈ table -> (0 <= it.2.2 < Z.of_nat (length table))%Z) ->
  N.of_nat (length table) < 2 ^ 32 ->
  NoDup ((fun it : N * (PhysicalUser * Z) => it.2.2) <$> table) ->
  NoDup table.*1 ->
  (forall a, a ∈ carried_addrs current ++ carried_addrs previous ->
     exists record, (a, (record, idx a)) ∈ table) ->
  (Z.of_nat (update_load current + update_load previous) < 2 ^ 31)%Z ->
  exists users r' collected,
    handle_send_update
      (message is_region handle did idx table current previous) r = Some (r', collected) /\
    same_tables r' (apply_locally (copy_of idx users) current previous r) /\
    forall a record, (a, (record, idx a)) ∈ table ->
      (copy_of idx users a).2 = record /\
      next_addr (heap r) <= (copy_of idx users a).1
        < next_addr (heap r) + N.of_nat (length table) /\
      forall b record', (b, (record', idx b)) ∈ table ->
        (copy_of idx users b).1 = (copy_of idx users a).1 -> b = a.
Proof.
  intros Hrange Hmany Hndi Hndk Hcarried Hload.
  destruct (unpack_users_spec table
              ([TUnsigned (N.of_nat (length current))] ++ encode_events idx current
                 ++ [TUnsigned (N.of_nat (length previous))] ++ encode_events idx previous)
              (replicate (length table) None) (heap r))
    as (users & h' & Hrun & Hlen & Hat & _).
  { intros it Hit. rewrite length_replicate. exact (Hrange it Hit). }
  { exact Hndi. }
  assert (Hcopy : forall a record, (a, (record, idx a)) ∈ table ->
            (0 <= idx a)%Z /\
            exists k, table !! k = Some (a, (record, idx a)) /\
                      users !! Z.to_nat (idx a) = Some (Some (copy_of idx users a)) /\
                      copy_of idx users a = (next_addr (heap r) + N.of_nat k, record)).
  { intros a record Hin. split; [exact (proj1 (Hrange _ Hin))|].
    apply list_elem_of_lookup in Hin as [k Hk]. exists k. split; [exact Hk|].
    pose proof (Hat k _ Hk) as Hu. cbn [fst snd] in Hu.
    unfold copy_of. rewrite Hu. split; reflexivity. }
  assert (Hres : resolves idx (copy_of idx users) users
                          (carried_addrs current ++ carried_addrs previous)).
  { intros a Ha. destruct (Hcarried a Ha) as [record Hin].
    destruct (Hcopy a record Hin) as (Hpos & k & _ & Hu & _). split; assumption. }
  exists users.
  destruct (install_events_spec add_current_user add_current_user_tables idx
              (copy_of idx users) current
              ([TUnsigned (N.of_nat (length previous))] ++ encode_events idx previous)
              (mkUpdate users (replicate (length table) false) []
                        (set_heap (fun _ => h') r)) r)
    as (u1 & Hu1 & Hus1 & Hs1).
  { unfold update_load in *. lia. }
  { intros a Ha. apply Hres. apply elem_of_app. left. exact Ha. }
  { apply same_tables_set_heap. }
  destruct (install_events_spec add_previous_user add_previous_user_tables idx
              (copy_of idx users) previous [] u1
              (foldl (fun r ev => install add_current_user (copy_of idx users) ev r)
                     r current))
    as (u2 & Hu2 & Hus2 & Hs2).
  { unfold update_load in *. lia. }
  { rewrite Hus1. intros a Ha. apply Hres. apply elem_of_app. right. exact Ha. }
  { exact Hs1. }
  exists (update_state u2), (collect_events u2).
  split; [|split; [exact Hs2|]].
  - unfold handle_send_update, message, process_update.
    cbn [app read_bool read_handle read_did read_size mbind option_bind].
    apply N.leb_gt in Hmany. simpl. rewrite Hmany.
    rewrite Nat2N.id. simpl in Hrun. rewrite Hrun. simpl.
    rewrite Nat2N.id. simpl in Hu1. rewrite Hu1. simpl.
    rewrite Nat2N.id. rewrite app_nil_r in Hu2. rewrite Hu2. reflexivity.
  - intros a record Hin. destruct (Hcopy a record Hin) as (_ & k & Hk & _ & Hc).
    rewrite Hc. cbn [fst snd]. split; [reflexivity|].
    split; [apply lookup_lt_Some in Hk; lia|].
    intros b record' Hinb Heq.
    destruct (Hcopy b record' Hinb) as (_ & k' & Hk' & _ & Hc').
    rewrite Hc' in Heq. cbn [fst] in Heq.
    assert (k' = k) by lia. subst k'. congruence.
Qed.

(** *** Sending, then reading *)

Lemma update_installed (store : N -> PhysicalUser -> Prop) (is_region : bool)
    (handle did : N) (update_mask : FieldMask) (s r : MaterializedState) :
  let current := carried update_mask (current_epoch_users s) in
  let previous := carried update_mask (previous_epoch_users s) in
  let sent := (send_view_updates is_region handle did update_mask s).1 in
  stored_at store s ->
  NoDup (carried_addrs current) ->
  (Z.of_nat (update_load current + update_load previous) < 2 ^ 31)%Z ->
  exists idx table copy r' collected,
    sent = message is_region handle did idx table current previous /\
    handle_send_update sent r = Some (r', collected) /\
    same_tables r' (apply_locally copy current previous r) /\
    forall a, a ∈ carried_addrs current ++ carried_addrs previous ->
      store a (copy a).2 /\
      next_addr (heap r) <= (copy a).1 < next_addr (heap r) + N.of_nat (length table) /\
      forall b, b ∈ carried_addrs current ++ carried_addrs previous ->
        (copy b).1 = (copy a).1 -> b = a.
Proof.
  intros current previous sent Hst Hnd Hload.
  destruct (send_view_updates_message store is_region handle did update_mask s Hst Hnd Hload)
    as (p & Hsent & Hix & Hsize & Hdom).
  fold current previous sent in Hsent, Hsize, Hdom.
  assert (Hentry : forall a, a ∈ carried_addrs current ++ carried_addrs previous ->
            exists record, (a, (record, index_in p a)) ∈ entries (needed_users p)).
  { intros a Ha. apply Hdom, elem_of_dom in Ha as [[record i] Hl].
    exists record. apply elem_of_entries. unfold index_in. rewrite Hl. reflexivity. }
  destruct (handle_send_update_message is_region handle did (index_in p)
              (entries (needed_users p)) current previous r)
    as (users & r' & collected & Hrun & Hsame & Hcopy).
  { intros [a [record i]] Hit. apply elem_of_entries in Hit.
    rewrite length_entries. exact (proj1 (proj2 (Hix _ _ _ Hit))). }
  { rewrite length_entries. unfold update_load in Hload. lia. }
  { exact (indexed_NoDup store p Hix). }
  { apply NoDup_fst_entries. }
  { exact Hentry. }
  { exact Hload. }
  exists (index_in p), (entries (needed_users p)), (copy_of (index_in p) users),
         r', collected.
  split; [exact Hsent|]. split; [rewrite Hsent; exact Hrun|]. split; [exact Hsame|].
  intros a Ha. destruct (Hentry a Ha) as [record Hin].
  destruct (Hcopy a record Hin) as (Hrec & Hfresh & Hinj).
  split; [|split; [exact Hfresh|]].
  - rewrite Hrec. apply elem_of_entries in Hin. exact (proj1 (Hix _ _ _ Hin)).
  - intros b Hb Heq. destruct (Hentry b Hb) as [record' Hinb].
    exact (Hinj b record' Hinb Heq).
Qed.

(** ** C6: the summary of a bucket is the union of its masks *)

(** *** Addresses are never handed out twice *)

Lemma next_addr_remove_reference (a : N) (h : UserHeap) :
  next_addr (remove_reference a h).2 = next_addr h.
Proof. unfold remove_reference. destruct (references h !! a); reflexivity. Qed.

Lemma next_addr_release_user (a : N) (h : UserHeap) :
  next_addr (release_user a h) = next_addr h.
Proof.
  unfold release_user, remove_reference.
  destruct (references h !! a) as [n|]; [|reflexivity].
  destruct (bool_decide (n = 1%nat)); reflexivity.
Qed.

Lemma next_addr_release_all (l : list N) (h : UserHeap) :
  next_addr (release_all l h) = next_addr h.
Proof.
  revert h. induction l as [|a l IH]; intros h; [reflexivity|].
  unfold release_all in *. cbn [foldl]. rewrite IH. apply next_addr_release_user.
Qed.

Lemma next_addr_release_users (eu : EventUsers) (h : UserHeap) :
  next_addr (release_users eu h) = next_addr h.
Proof. rewrite release_users_all. apply next_addr_release_all. Qed.

Lemma next_addr_release_entries {A} (l : list (N * A)) (h : UserHeap) :
  next_addr (foldl (fun h kv => release_user kv.1 h) h l) = next_addr h.
Proof.
  revert h. induction l as [|a l IH]; intros h; [reflexivity|].
  cbn [foldl]. rewrite IH. apply next_addr_release_user.
Qed.

Lemma next_addr_delete_all (l : list N) (h : UserHeap) :
  next_addr (delete_all l h) = next_addr h.
Proof.
  revert h. induction l as [|a l IH]; intros h; [reflexivity|].
  unfold delete_all in *. cbn [foldl]. rewrite IH. reflexivity.
Qed.

(** *** One more user in a bucket *)

Lemma fields_outside (o : option EventUsers) (a : N) :
  a ∉ addrs_of o -> fields_of o a = Mask.empty.
Proof.
  destruct o as [eu|]; [|reflexivity]. unfold addrs_of, fields_of, bucket_addrs, bucket_fields.
  destruct (users eu) as [u|m]; intros Ha.
  - destruct (decide (a = u.1)) as [->|]; [|reflexivity]. set_solver.
  - apply mask_at_absent. exact Ha.
Qed.

Lemma insert_user_addrs (user : N * PhysicalUser) (mask : FieldMask)
    (o : option EventUsers) :
  bucket_addrs (insert_user user mask o) = {[user.1]} ∪ addrs_of o.
Proof.
  unfold insert_user, bucket_addrs, addrs_of.
  destruct o as [eu|]; cbn [users]; [|set_solver].
  unfold bucket_addrs. destruct (users eu) as [u0|m]; cbn [users].
  - rewrite !dom_insert_L, dom_empty_L. set_solver.
  - rewrite dom_insert_L. reflexivity.
Qed.

Lemma insert_user_mask (user : N * PhysicalUser) (mask : FieldMask)
    (o : option EventUsers) :
  user_mask (insert_user user mask o) = summary_of o ||| mask.
Proof.
  unfold insert_user, summary_of. destruct o as [eu|]; [|reflexivity].
  destruct (users eu); reflexivity.
Qed.

Lemma insert_user_summary (user : N * PhysicalUser) (mask : FieldMask)
    (o : option EventUsers) :
  (forall eu, o = Some eu -> summary_is_union eu) ->
  user.1 ∉ addrs_of o ->
  summary_is_union (insert_user user mask o).
Proof.
  intros Hsum Hnew.
  apply (summary_from_fields _ (summary_of o ||| mask)
           (fun a => if decide (a = user.1) then mask else fields_of o a)).
  - apply insert_user_mask.
  - intros a. apply insert_user_fields.
  - intros i. unfold Mask.union. rewrite N.lor_spec, orb_true_iff.
    rewrite (summary_of_option o i Hsum). split.
    + intros [[a Ha] | Hm].
      * exists a. destruct (decide (a = user.1)) as [->|]; [|exact Ha].
        rewrite (fields_outside o user.1 Hnew) in Ha.
        unfold Mask.empty in Ha. rewrite N.bits_0 in Ha. discriminate.
      * exists user.1. rewrite decide_True by reflexivity. exact Hm.
    + intros [a Ha]. destruct (decide (a = user.1)); [right; exact Ha | left; eauto].
Qed.

(** *** One more user in a table *)

Lemma insert_table_addrs (user : N * PhysicalUser) (mask : FieldMask) (e e' : Event)
    (table : gmap Event EventUsers) :
  addrs_of (<[e := insert_user user mask (table !! e)]> table !! e')
  = if decide (e' = e) then {[user.1]} ∪ addrs_of (table !! e)
    else addrs_of (table !! e').
Proof.
  destruct (decide (e' = e)) as [->|Hne].
  - rewrite lookup_insert_eq. apply insert_user_addrs.
  - rewrite lookup_insert_ne by congruence. reflexivity.
Qed.

Lemma insert_table_summaries (user : N * PhysicalUser) (mask : FieldMask) (e : Event)
    (table : gmap Event EventUsers) :
  table_summaries table -> user.1 ∉ addrs_of (table !! e) ->
  table_summaries (<[e := insert_user user mask (table !! e)]> table).
Proof.
  intros Hs Hnew e' eu Hl. destruct (decide (e' = e)) as [->|Hne].
  - rewrite lookup_insert_eq in Hl. injection Hl as <-.
    apply insert_user_summary; [|exact Hnew].
    intros eu Heu. exact (Hs e eu Heu).
  - rewrite lookup_insert_ne in Hl by congruence. exact (Hs e' eu Hl).
Qed.

Lemma insert_table_bounded (user : N * PhysicalUser) (mask : FieldMask) (e : Event)
    (n n' : N) (table : gmap Event EventUsers) :
  bounded n table -> n <= n' -> user.1 < n' ->
  bounded n' (<[e := insert_user user mask (table !! e)]> table).
Proof.
  intros Hb Hle Hu e' a. rewrite insert_table_addrs.
  destruct (decide (e' = e)) as [->|Hne]; intros Ha.
  - apply elem_of_union in Ha as [Ha|Ha].
    + apply elem_of_singleton in Ha as ->. exact Hu.
    + specialize (Hb e a Ha). lia.
  - specialize (Hb e' a Ha). lia.
Qed.

Lemma insert_table_unshared (user : N * PhysicalUser) (mask : FieldMask) (e : Event)
    (table : gmap Event EventUsers) :
  unshared table -> (forall e', e' <> e -> user.1 ∉ addrs_of (table !! e')) ->
  unshared (<[e := insert_user user mask (table !! e)]> table).
Proof.
  intros Hu Hnew e1 e2 a. rewrite !insert_table_addrs.
  destruct (decide (e1 = e)) as [->|Hne1], (decide (e2 = e)) as [->|Hne2];
    intros H1 H2; try reflexivity.
  - apply elem_of_union in H1 as [H1|H1]; [|exact (Hu _ _ _ H1 H2)].
    apply elem_of_singleton in H1 as ->. destruct (Hnew e2 Hne2 H2).
  - apply elem_of_union in H2 as [H2|H2]; [|exact (Hu _ _ _ H1 H2)].
    apply elem_of_singleton in H2 as ->. destruct (Hnew e1 Hne1 H1).
  - exact (Hu _ _ _ H1 H2).
Qed.

Lemma bounded_fresh (n : N) (table : gmap Event EventUsers) (e : Event) :
  bounded n table -> n ∉ addrs_of (table !! e).
Proof. intros Hb Hin. specialize (Hb e n Hin). lia. Qed.

Lemma bounded_mono (n n' : N) (table : gmap Event EventUsers) :
  bounded n table -> n <= n' -> bounded n' table.
Proof. intros Hb Hle e a Ha. specialize (Hb e a Ha). lia. Qed.

Lemma bounded_empty (n : N) : bounded n ∅.
Proof. intros e a Ha. rewrite lookup_empty in Ha. set_solver. Qed.

Lemma unshared_empty : unshared ∅.
Proof. intros e e' a Ha. rewrite lookup_empty in Ha. set_solver. Qed.

(** A table that lost users keeps its properties. *)
Lemma bounded_shrink (n : N) (table table' : gmap Event EventUsers) :
  (forall e, addrs_of (table' !! e) ⊆ addrs_of (table !! e)) ->
  bounded n table -> bounded n table'.
Proof. intros Hsub Hb e a Ha. exact (Hb e a (Hsub e a Ha)). Qed.

Lemma unshared_shrink (table table' : gmap Event EventUsers) :
  (forall e, addrs_of (table' !! e) ⊆ addrs_of (table !! e)) ->
  unshared table -> unshared table'.
Proof.
  intros Hsub Hu e e' a Ha Ha'. exact (Hu e e' a (Hsub e a Ha) (Hsub e' a Ha')).
Qed.

Lemma addrs_of_delete (table : gmap Event EventUsers) (e e' : Event) :
  addrs_of (delete e table !! e') ⊆ addrs_of (table !! e').
Proof.
  destruct (decide (e' = e)) as [->|Hne].
  - rewrite lookup_delete_eq. set_solver.
  - rewrite lookup_delete_ne by congruence. reflexivity.
Qed.

Lemma table_summaries_delete (table : gmap Event EventUsers) (e : Event) :
  table_summaries table -> table_summaries (delete e table).
Proof. intros Hs e' eu Hl. apply lookup_delete_Some in Hl as [_ Hl]. exact (Hs e' eu Hl). Qed.

(** *** Dropping the users of an event *)

Lemma filter_local_users_ok (n : N) (e : Event) (s : MaterializedState) :
  tables_ok n s ->
  tables_ok n (filter_local_users e s) /\
  next_addr (heap (filter_local_users e s)) = next_addr (heap s).
Proof.
  intros (Hc & Hp & Hbc & Hbp & Hu).
  destruct (decide (e ∈ outstanding_gc_events s)) as [Hin|Hout].
  - rewrite filter_local_users_recorded by assumption.
    cbn [heap]. rewrite next_addr_release_all. split; [|reflexivity].
    unfold tables_ok. cbn [current_epoch_users previous_epoch_users].
    split; [apply table_summaries_delete; exact Hc|].
    split; [apply table_summaries_delete; exact Hp|].
    split; [exact (bounded_shrink n _ _ (addrs_of_delete _ e) Hbc)|].
    split; [exact (bounded_shrink n _ _ (addrs_of_delete _ e) Hbp)|].
    exact (unshared_shrink _ _ (addrs_of_delete _ e) Hu).
  - rewrite filter_local_users_unrecorded by assumption.
    split; [repeat split; assumption | reflexivity].
Qed.

Lemma collect_ok (n : N) (l : list Event) (s : MaterializedState) :
  tables_ok n s ->
  tables_ok n (foldl (fun s e => filter_local_users e s) s l) /\
  next_addr (heap (foldl (fun s e => filter_local_users e s) s l)) = next_addr (heap s).
Proof.
  revert s. induction l as [|e l IH]; intros s Hok; [split; [exact Hok | reflexivity]|].
  cbn [foldl]. destruct (filter_local_users_ok n e s Hok) as [Hok1 Hn1].
  destruct (IH _ Hok1) as [Hok2 Hn2]. split; [exact Hok2 | congruence].
Qed.

(** *** Taking fields away from the previous epoch *)

Lemma summary_is_union_diff (eu eu' : EventUsers) (f : FieldMask) :
  summary_is_union eu ->
  (single eu' = false -> user_mask eu' = user_mask eu \\\ f) ->
  (forall a, bucket_fields eu' a = bucket_fields eu a \\\ f) ->
  summary_is_union eu'.
Proof.
  intros Hsum Hmask Hfields.
  destruct (single eu') eqn:Hsingle; [apply summary_is_union_single_form; exact Hsingle|].
  apply (summary_from_fields eu' (user_mask eu \\\ f)
           (fun a => bucket_fields eu a \\\ f)).
  - apply Hmask. reflexivity.
  - exact Hfields.
  - apply diff_bits. apply summary_is_union_iff. exact Hsum.
Qed.

Lemma mask_at_diff (m : UserMap) (f : FieldMask) (a : N) :
  mask_at ((fun um : PhysicalUser * FieldMask => (um.1, um.2 \\\ f)) <$> m) a
  = mask_at m a \\\ f.
Proof.
  unfold mask_at. rewrite lookup_fmap. destruct (m !! a) as [um|]; [reflexivity|].
  unfold Mask.diff, Mask.empty. rewrite N.ldiff_0_l. reflexivity.
Qed.

(** Erasing users that have no field left changes no mask. *)
Lemma mask_at_erase_empty (m : UserMap) (a : N) :
  mask_at (erase_all (List.filter (fun kv : N * (PhysicalUser * FieldMask) =>
                                     Mask.is_empty kv.2.2) (entries m)).*1 m) a
  = mask_at m a.
Proof.
  unfold mask_at at 1. rewrite lookup_erase_all.
  destruct (decide (a ∈ (List.filter (fun kv : N * (PhysicalUser * FieldMask) =>
                                        Mask.is_empty kv.2.2) (entries m)).*1))
    as [Hin|Hnin]; [|reflexivity].
  apply list_elem_of_fmap in Hin as ([k um] & -> & Hin).
  apply list_elem_of_In, List.filter_In in Hin as [Hin Hempty].
  apply list_elem_of_In, elem_of_entries in Hin. cbn [fst snd] in *.
  unfold mask_at. rewrite Hin. apply is_empty_true in Hempty. symmetry. exact Hempty.
Qed.

Lemma filter_previous_bucket (eu : EventUsers) (f : FieldMask) (m : UserMap) :
  users eu = multi_users m -> summary_is_union eu ->
  let m1 := (fun um : PhysicalUser * FieldMask => (um.1, um.2 \\\ f)) <$> m in
  let to_delete := List.filter (fun kv : N * (PhysicalUser * FieldMask) =>
                                  Mask.is_empty kv.2.2) (entries m1) in
  summary_is_union (mkEventUsers (user_mask eu \\\ f) (multi_users m1)) /\
  summary_is_union (collapse (user_mask eu \\\ f) (erase_all to_delete.*1 m1)) /\
  bucket_addrs (collapse (user_mask eu \\\ f) (erase_all to_delete.*1 m1))
    ⊆ bucket_addrs eu.
Proof.
  intros Hu Hsum m1 to_delete.
  assert (Hf : forall a, bucket_fields eu a = mask_at m a).
  { intros a. unfold bucket_fields. rewrite Hu. reflexivity. }
  split; [|split].
  - apply (summary_is_union_diff eu _ f Hsum); [reflexivity|].
    intros a. rewrite Hf. unfold bucket_fields. cbn [users]. apply mask_at_diff.
  - destruct (collapse_spec (user_mask eu \\\ f) (erase_all to_delete.*1 m1) 0)
      as (_ & _ & Hmulti).
    apply (summary_is_union_diff eu _ f Hsum).
    + intros Hsingle. rewrite (Hmulti Hsingle). reflexivity.
    + intros a.
      destruct (collapse_spec (user_mask eu \\\ f) (erase_all to_delete.*1 m1) a)
        as (-> & _ & _).
      unfold to_delete. rewrite mask_at_erase_empty. rewrite Hf. apply mask_at_diff.
  - destruct (collapse_spec (user_mask eu \\\ f) (erase_all to_delete.*1 m1) 0)
      as (_ & -> & _).
    unfold bucket_addrs. rewrite Hu. etransitivity; [apply dom_erase_all|].
    unfold m1. rewrite dom_fmap_L. reflexivity.
Qed.

Lemma table_summaries_insert (table : gmap Event EventUsers) (e : Event)
    (eu : EventUsers) :
  table_summaries table -> summary_is_union eu -> table_summaries (<[e := eu]> table).
Proof.
  intros Hs Heu e' eu' Hl. destruct (decide (e' = e)) as [->|Hne].
  - rewrite lookup_insert_eq in Hl. injection Hl as <-. exact Heu.
  - rewrite lookup_insert_ne in Hl by congruence. exact (Hs e' eu' Hl).
Qed.

Lemma addrs_of_insert (table : gmap Event EventUsers) (e e' : Event) (eu : EventUsers) :
  addrs_of (<[e := eu]> table !! e')
  = if decide (e' = e) then bucket_addrs eu else addrs_of (table !! e').
Proof.
  destruct (decide (e' = e)) as [->|Hne].
  - rewrite lookup_insert_eq. reflexivity.
  - rewrite lookup_insert_ne by congruence. reflexivity.
Qed.

(** A bucket replaced by one with no new user. *)
Lemma bounded_replace (n : N) (table : gmap Event EventUsers) (e : Event)
    (eu eu' : EventUsers) :
  table !! e = Some eu -> bucket_addrs eu' ⊆ bucket_addrs eu ->
  bounded n table -> bounded n (<[e := eu']> table).
Proof.
  intros Hl Hsub. apply bounded_shrink. intros e'. rewrite addrs_of_insert.
  destruct (decide (e' = e)) as [->|]; [|reflexivity]. rewrite Hl. exact Hsub.
Qed.

Lemma filter_previous_entry_ok (n : N) (fit : Event * FieldMask)
    (s : MaterializedState) :
  tables_ok n s ->
  tables_ok n (filter_previous_entry fit s) /\
  next_addr (heap (filter_previous_entry fit s)) = next_addr (heap s).
Proof.
  intros (Hc & Hp & Hbc & Hbp & Hu).
  assert (Hcur := filter_previous_entry_current fit s).
  unfold tables_ok. rewrite Hcur.
  enough (Hprev : table_summaries (previous_epoch_users (filter_previous_entry fit s)) /\
                  bounded n (previous_epoch_users (filter_previous_entry fit s)) /\
                  next_addr (heap (filter_previous_entry fit s)) = next_addr (heap s)).
  { destruct Hprev as (H1 & H2 & H3). repeat split; assumption. }
  unfold filter_previous_entry.
  destruct (previous_epoch_users s !! fit.1) as [eu|] eqn:Hl;
    [|repeat split; assumption].
  pose proof (Hp _ _ Hl) as Hsum.
  destruct (Mask.is_empty (user_mask eu \\\ fit.2)) eqn:Hempty.
  { cbn [previous_epoch_users set_heap set_previous heap].
    rewrite next_addr_release_users.
    split; [apply table_summaries_delete; exact Hp|].
    split; [exact (bounded_shrink n _ _ (addrs_of_delete _ fit.1) Hbp) | reflexivity]. }
  destruct (users eu) as [u|m] eqn:Husers.
  { cbn [previous_epoch_users set_previous heap].
    split; [apply table_summaries_insert; [exact Hp | apply summary_is_union_single]|].
    split; [|reflexivity].
    apply (bounded_replace n _ _ eu); [exact Hl | | exact Hbp].
    unfold bucket_addrs. cbn [users]. rewrite Husers. reflexivity. }
  destruct (filter_previous_bucket eu fit.2 m Husers Hsum) as (Hm1 & Hm2 & Ha2).
  cbv zeta in Hm1, Hm2, Ha2.
  destruct (List.filter _ _) as [|kv to_delete] eqn:Hdel.
  { cbn [previous_epoch_users set_previous heap].
    split; [apply table_summaries_insert; [exact Hp | exact Hm1]|].
    split; [|reflexivity].
    apply (bounded_replace n _ _ eu); [exact Hl | | exact Hbp].
    unfold bucket_addrs. cbn [users]. rewrite Husers, dom_fmap_L. reflexivity. }
  cbn [previous_epoch_users set_previous set_heap heap].
  rewrite next_addr_release_entries.
  split; [apply table_summaries_insert; [exact Hp | exact Hm2]|].
  split; [|reflexivity].
  apply (bounded_replace n _ _ eu); [exact Hl | exact Ha2 | exact Hbp].
Qed.

Lemma filter_previous_users_ok (n : N) (fp : gmap Event FieldMask)
    (s : MaterializedState) :
  tables_ok n s ->
  tables_ok n (filter_previous_users fp s) /\
  next_addr (heap (filter_previous_users fp s)) = next_addr (heap s).
Proof.
  unfold filter_previous_users. generalize (entries fp). intros l. revert s.
  induction l as [|fit l IH]; intros s Hok; [split; [exact Hok | reflexivity]|].
  cbn [foldl]. destruct (filter_previous_entry_ok n fit s Hok) as [Hok1 Hn1].
  destruct (IH _ Hok1) as [Hok2 Hn2]. split; [exact Hok2 | congruence].
Qed.

(** *** Moving fields to the previous epoch: the heap *)

Ltac next_addr_simpl :=
  cbn [fst snd filtered_heap heap];
  rewrite ?next_addr_add_reference, ?next_addr_remove_reference,
          ?next_addr_release_users, ?next_addr_release_user.

Lemma next_addr_move_single (user : N * PhysicalUser) (current_mask so : FieldMask)
    (po : option EventUsers) (h : UserHeap) :
  next_addr (move_single user current_mask so po h).2 = next_addr h.
Proof.
  unfold move_single. repeat case_match; next_addr_simpl; reflexivity.
Qed.

Lemma next_addr_merge_user (it : N * (PhysicalUser * FieldMask))
    (acc : UserMap * UserHeap) :
  next_addr (merge_user it acc).2 = next_addr acc.2.
Proof. unfold merge_user. case_match; next_addr_simpl; reflexivity. Qed.

Lemma next_addr_merge_users (l : list (N * (PhysicalUser * FieldMask)))
    (acc : UserMap * UserHeap) :
  next_addr (foldl (fun acc it => merge_user it acc) acc l).2 = next_addr acc.2.
Proof.
  revert acc. induction l as [|it l IH]; intros acc; [reflexivity|].
  cbn [foldl]. rewrite IH. apply next_addr_merge_user.
Qed.

Lemma next_addr_move_all (cm : UserMap) (so : FieldMask) (po : option EventUsers)
    (h : UserHeap) :
  next_addr (move_all cm so po h).2 = next_addr h.
Proof.
  unfold move_all. destruct po as [pu|]; [|reflexivity].
  destruct (users pu) as [user|pm].
  - pose proof (next_addr_merge_user (user.1, (user.2, user_mask pu)) (cm, h)) as Hm.
    destruct (merge_user _ _) as [cm' h']. exact Hm.
  - pose proof (next_addr_merge_users (entries cm) (pm, h)) as Hm.
    destruct (foldl _ _ _) as [pm' h']. exact Hm.
Qed.

Lemma next_addr_send_new (so : FieldMask) (it : N * (PhysicalUser * FieldMask))
    (acc : Filtered) :
  next_addr (filtered_heap (send_new so it acc)) = next_addr (filtered_heap acc).
Proof. unfold send_new. repeat case_match; next_addr_simpl; reflexivity. Qed.

Lemma next_addr_send_existing (so : FieldMask) (it : N * (PhysicalUser * FieldMask))
    (acc : Filtered) :
  next_addr (filtered_heap (send_existing so it acc)) = next_addr (filtered_heap acc).
Proof. unfold send_existing. repeat case_match; next_addr_simpl; reflexivity. Qed.

Lemma next_addr_send_new_fold (so : FieldMask)
    (l : list (N * (PhysicalUser * FieldMask))) (acc : Filtered) :
  next_addr (filtered_heap (foldl (fun acc it => send_new so it acc) acc l))
  = next_addr (filtered_heap acc).
Proof.
  revert acc. induction l as [|it l IH]; intros acc; [reflexivity|].
  cbn [foldl]. rewrite IH. apply next_addr_send_new.
Qed.

Lemma next_addr_send_existing_fold (so : FieldMask)
    (l : list (N * (PhysicalUser * FieldMask))) (acc : Filtered) :
  next_addr (filtered_heap (foldl (fun acc it => send_existing so it acc) acc l))
  = next_addr (filtered_heap acc).
Proof.
  revert acc. induction l as [|it l IH]; intros acc; [reflexivity|].
  cbn [foldl]. rewrite IH. apply next_addr_send_existing.
Qed.

Lemma next_addr_move_some (cm : UserMap) (current_mask so : FieldMask)
    (po : option EventUsers) (h : UserHeap) :
  next_addr (move_some cm current_mask so po h).2 = next_addr h.
Proof.
  unfold move_some. destruct po as [pu|].
  - destruct (users pu) as [user|pm].
    + pose proof (next_addr_send_new_fold so (entries cm) (mkFiltered cm ∅ [] h)) as Hf.
      set (f := foldl _ _ _) in *.
      pose proof (next_addr_merge_user (user.1, (user.2, user_mask pu))
                    (sent f, filtered_heap f)) as Hm.
      destruct (merge_user _ _) as [new_map h']. cbn [fst snd filtered_heap] in *.
      congruence.
    + exact (next_addr_send_existing_fold so (entries cm) (mkFiltered cm pm [] h)).
  - exact (next_addr_send_new_fold so (entries cm) (mkFiltered cm ∅ [] h)).
Qed.

Lemma next_addr_move_bucket (eu : EventUsers) (current_mask so : FieldMask)
    (po : option EventUsers) (h : UserHeap) :
  next_addr (move_bucket eu current_mask so po h).1.2 = next_addr h.
Proof.
  unfold move_bucket. destruct (users eu) as [user|cm].
  - pose proof (next_addr_move_single user current_mask so po h) as Hm.
    destruct (move_single _ _ _ _ _) as [prev' h']. exact Hm.
  - destruct (Mask.is_empty current_mask).
    + pose proof (next_addr_move_all cm so po h) as Hm.
      destruct (move_all _ _ _ _) as [prev' h']. exact Hm.
    + pose proof (next_addr_move_some cm current_mask so po h) as Hm.
      destruct (move_some _ _ _ _ _) as [[current' prev'] h']. exact Hm.
Qed.

Lemma next_addr_filter_current_entry (ht : Event -> bool) (d : FieldMask)
    (cit : Event * EventUsers) (acc : MaterializedState * list Event) :
  next_addr (heap (filter_current_entry ht d cit acc).1) = next_addr (heap acc.1).
Proof.
  unfold filter_current_entry. destruct (ht cit.1).
  - cbn [fst set_heap heap]. apply next_addr_release_users.
  - destruct (Mask.is_empty _); [reflexivity|].
    pose proof (next_addr_move_bucket cit.2 (user_mask cit.2 \\\ (user_mask cit.2 &&& d))
                  (user_mask cit.2 &&& d) (previous_epoch_users acc.1 !! cit.1)
                  (heap acc.1)) as Hm.
    destruct (move_bucket _ _ _ _ _) as [[[current' prev'] h'] emptied]. exact Hm.
Qed.

Lemma next_addr_filter_current_users (ht : Event -> bool) (d : FieldMask)
    (s : MaterializedState) :
  next_addr (heap (filter_current_users ht d s)) = next_addr (heap s).
Proof.
  unfold filter_current_users.
  assert (Hfold : forall l acc,
            next_addr (heap (foldl (fun acc cit => filter_current_entry ht d cit acc)
                                   acc l).1) = next_addr (heap acc.1)).
  { induction l as [|cit l IH]; intros acc; [reflexivity|].
    cbn [foldl]. rewrite IH. apply next_addr_filter_current_entry. }
  specialize (Hfold (entries (current_epoch_users s)) (s, [])).
  destruct (foldl _ _ _) as [s' events_to_delete]. exact Hfold.
Qed.

(** *** Moving fields to the previous epoch: the tables *)

Lemma moved_bucket_ok (eu : EventUsers) (d : FieldMask) (po : option EventUsers)
    (h : UserHeap) :
  summary_is_union eu -> (forall pu, po = Some pu -> summary_is_union pu) ->
  let so := user_mask eu &&& d in
  let r := move_bucket eu (user_mask eu \\\ so) so po h in
  (r.2 = false -> summary_is_union r.1.1.1) /\
  summary_is_union r.1.1.2 /\
  bucket_addrs r.1.1.1 ⊆ bucket_addrs eu /\
  bucket_addrs r.1.1.2 ⊆ addrs_of po ∪ bucket_addrs eu.
Proof.
  intros Hsum Hpo so r.
  pose proof (fun a => move_bucket_spec eu d po h a Hsum) as Hspec.
  cbv zeta in Hspec. fold so in Hspec. fold r in Hspec.
  destruct (Hspec 0) as (_ & _ & Hpm & _ & _ & Hca & Hpa & Hcm).
  split; [|split; [|split; assumption]].
  - intros Hkept. apply (summary_is_union_diff eu _ d Hsum).
    + intros Hsingle. rewrite (Hcm Hkept Hsingle). unfold so. apply diff_inter_same'.
    + intros a. destruct (Hspec a) as (_ & _ & _ & Hf & _). exact (Hf Hkept).
  - apply (summary_from_fields _ (summary_of po ||| (user_mask eu &&& d))
             (fun a => fields_of po a ||| (bucket_fields eu a &&& d))).
    + exact Hpm.
    + intros a. destruct (Hspec a) as (_ & Hf & _). exact Hf.
    + apply union_inter_bits.
      * intros i. apply summary_of_option. exact Hpo.
      * apply summary_is_union_iff. exact Hsum.
Qed.

(** What [filter_current_users] leaves under an event. *)
Lemma filter_current_users_event (ht : Event -> bool) (d : FieldMask)
    (s : MaterializedState) (e : Event) :
  table_summaries (current_epoch_users s) ->
  table_summaries (previous_epoch_users s) ->
  let s' := filter_current_users ht d s in
  (forall eu, current_epoch_users s' !! e = Some eu -> summary_is_union eu) /\
  (forall eu, previous_epoch_users s' !! e = Some eu -> summary_is_union eu) /\
  addrs_of (current_epoch_users s' !! e) ⊆ addrs_of (current_epoch_users s !! e) /\
  addrs_of (previous_epoch_users s' !! e)
    ⊆ addrs_of (previous_epoch_users s !! e) ∪ addrs_of (current_epoch_users s !! e).
Proof.
  intros Hc Hp s'.
  destruct (filter_current_users_at ht d s e) as (_ & _ & Hat). fold s' in Hat.
  assert (Hsame : current_epoch_users s' !! e = current_epoch_users s !! e ->
                  previous_epoch_users s' !! e = previous_epoch_users s !! e ->
    (forall eu, current_epoch_users s' !! e = Some eu -> summary_is_union eu) /\
    (forall eu, previous_epoch_users s' !! e = Some eu -> summary_is_union eu) /\
    addrs_of (current_epoch_users s' !! e) ⊆ addrs_of (current_epoch_users s !! e) /\
    addrs_of (previous_epoch_users s' !! e)
      ⊆ addrs_of (previous_epoch_users s !! e) ∪ addrs_of (current_epoch_users s !! e)).
  { intros -> ->. split; [exact (Hc e)|]. split; [exact (Hp e)|]. set_solver. }
  assert (Hgone : current_epoch_users s' !! e = None ->
                  previous_epoch_users s' !! e = previous_epoch_users s !! e ->
    (forall eu, current_epoch_users s' !! e = Some eu -> summary_is_union eu) /\
    (forall eu, previous_epoch_users s' !! e = Some eu -> summary_is_union eu) /\
    addrs_of (current_epoch_users s' !! e) ⊆ addrs_of (current_epoch_users s !! e) /\
    addrs_of (previous_epoch_users s' !! e)
      ⊆ addrs_of (previous_epoch_users s !! e) ∪ addrs_of (current_epoch_users s !! e)).
  { intros -> ->. split; [discriminate|]. split; [exact (Hp e)|]. set_solver. }
  destruct (current_epoch_users s !! e) as [eu|] eqn:Hl.
  - destruct (ht e).
    + destruct Hat as [H1 H2]. exact (Hgone H1 H2).
    + destruct (Mask.is_empty (user_mask eu &&& d)).
      * destruct Hat as [H1 H2]. apply Hsame; assumption.
      * destruct Hat as (h & Hcur & Hprev). cbv zeta in Hcur, Hprev.
        destruct (moved_bucket_ok eu d (previous_epoch_users s !! e) h (Hc e eu Hl)
                    (Hp e)) as (Hs1 & Hs2 & Ha1 & Ha2).
        cbv zeta in Hs1, Hs2, Ha1, Ha2. rewrite Hcur, Hprev.
        set (m := move_bucket eu _ _ _ h) in *.
        split; [|split; [|split]].
        -- intros eu'. destruct m.2; [discriminate|]. intros [= <-].
           apply Hs1. reflexivity.
        -- intros eu' [= <-]. exact Hs2.
        -- destruct m.2; cbn [addrs_of]; [set_solver | exact Ha1].
        -- cbn [addrs_of]. exact Ha2.
  - destruct Hat as [H1 H2]. exact (Hgone H1 H2).
Qed.

Lemma filter_current_users_ok (n : N) (ht : Event -> bool) (d : FieldMask)
    (s : MaterializedState) :
  tables_ok n s ->
  tables_ok n (filter_current_users ht d s) /\
  next_addr (heap (filter_current_users ht d s)) = next_addr (heap s).
Proof.
  intros (Hc & Hp & Hbc & Hbp & Hu).
  split; [|apply next_addr_filter_current_users].
  pose proof (fun e => filter_current_users_event ht d s e Hc Hp) as Hev.
  cbv zeta in Hev.
  split; [intros e eu; exact (proj1 (Hev e) eu)|].
  split; [intros e eu; exact (proj1 (proj2 (Hev e)) eu)|].
  split; [exact (bounded_shrink n _ _ (fun e => proj1 (proj2 (proj2 (Hev e)))) Hbc)|].
  split; [|exact (unshared_shrink _ _ (fun e => proj1 (proj2 (proj2 (Hev e)))) Hu)].
  intros e a Ha. apply (proj2 (proj2 (proj2 (Hev e)))) in Ha.
  apply elem_of_union in Ha as [Ha|Ha]; [exact (Hbp e a Ha) | exact (Hbc e a Ha)].
Qed.

(** *** The clean-up of the analyzers *)

Lemma apply_filters_ok (n : N) (ht : Event -> bool) (dead : gset Event)
    (fp : gmap Event FieldMask) (d : FieldMask) (s : MaterializedState) :
  tables_ok n s ->
  tables_ok n (apply_filters ht dead fp d s) /\
  next_addr (heap (apply_filters ht dead fp d s)) = next_addr (heap s).
Proof.
  intros Hok. unfold apply_filters. cbv zeta.
  destruct (collect_ok n (sorted_elements dead) s Hok) as [Hok1 Hn1].
  set (s1 := foldl _ s _) in *.
  assert (Hok2 : tables_ok n (if decide (fp = ∅) then s1 else filter_previous_users fp s1)
                 /\ next_addr (heap (if decide (fp = ∅) then s1
                                     else filter_previous_users fp s1))
                    = next_addr (heap s)).
  { destruct (decide (fp = ∅)); [split; assumption|].
    destruct (filter_previous_users_ok n fp s1 Hok1) as [H1 H2].
    split; [exact H1 | congruence]. }
  destruct Hok2 as [Hok2 Hn2]. set (s2 := if decide (fp = ∅) then _ else _) in *.
  destruct (negb (Mask.is_empty d)); [|split; assumption].
  destruct (filter_current_users_ok n ht d s2 Hok2) as [H1 H2].
  split; [exact H1 | congruence].
Qed.

(** *** The operations of a materialized view *)

Lemma add_current_user_ok (n : N) (user : N * PhysicalUser) (e : Event)
    (mask : FieldMask) (s : MaterializedState) :
  tables_ok n s -> user.1 = n ->
  tables_ok (n + 1) (add_current_user user e mask s).
Proof.
  intros (Hc & Hp & Hbc & Hbp & Hu) Hn. unfold tables_ok, add_current_user, set_current.
  cbn [current_epoch_users previous_epoch_users].
  split; [apply insert_table_summaries; [exact Hc|]; rewrite Hn; apply bounded_fresh;
          exact Hbc|].
  split; [exact Hp|].
  split; [apply (insert_table_bounded _ _ _ n); [exact Hbc | lia | lia]|].
  split; [apply (bounded_mono n); [exact Hbp | lia]|].
  apply insert_table_unshared; [exact Hu|]. intros e' _. rewrite Hn.
  apply bounded_fresh. exact Hbc.
Qed.

Lemma tables_ok_set_gc (n : N) (f : gset Event -> gset Event) (s : MaterializedState) :
  tables_ok n s -> tables_ok n (set_gc f s).
Proof. intros Hok. exact Hok. Qed.

Lemma tables_ok_set_heap (n : N) (f : UserHeap -> UserHeap) (s : MaterializedState) :
  tables_ok n s -> tables_ok n (set_heap f s).
Proof. intros Hok. exact Hok. Qed.

Lemma new_user_spec `{Analysis} (node : RegionTreeNode) (usage : RegionUsage)
    (child_color : ColorPoint) (version_info : VersionInfo) (h : UserHeap) :
  (new_user node usage child_color version_info h).1.1 = next_addr h /\
  next_addr (new_user node usage child_color version_info h).2 = next_addr h + 1.
Proof.
  unfold new_user, legion_new. destruct (IS_READ_ONLY usage); cbn [fst snd];
    rewrite next_addr_add_reference; split; reflexivity.
Qed.

Lemma add_local_user_ok `{Analysis} (ht ht' : Event -> bool) (node : RegionTreeNode)
    (usage : RegionUsage) (term_event : Event) (base_user : bool)
    (child_color : ColorPoint) (version_info : VersionInfo) (mask : FieldMask)
    (pre : gset Event) (s : MaterializedState) :
  well_formed s ->
  well_formed (add_local_user ht ht' node usage term_event base_user child_color
                 version_info mask pre s).2.
Proof.
  intros Hok. unfold well_formed in *. unfold add_local_user.
  set (a := task_analysis _ _ _ _ _ _ _ _).
  destruct (event_exists term_event).
  - destruct (new_user_spec node usage child_color version_info (heap s)) as [Hu Hn].
    destruct (new_user node usage child_color version_info (heap s)) as [user h].
    cbn [fst snd] in Hu, Hn.
    destruct (apply_filters_ok (next_addr (heap s)) ht' (ta_dead_events a)
                (ta_filter_previous a) (ta_dominated a) (set_heap (fun _ => h) s))
      as [Hok1 Hn1]; [exact Hok|].
    cbn [set_heap heap] in Hn1.
    set (s1 := apply_filters _ _ _ _ _) in *.
    pose proof (add_current_user_ok (next_addr (heap s)) user term_event mask s1 Hok1 Hu)
      as Hok2.
    assert (Hheap : next_addr (heap (add_current_user user term_event mask s1))
                    = next_addr (heap s) + 1)
      by (cbn [add_current_user set_current heap]; congruence).
    destruct (decide _); cbn [snd set_gc heap current_epoch_users previous_epoch_users].
    + rewrite Hheap. exact Hok2.
    + unfold add_current_user, set_current in Hheap. cbn [heap] in Hheap.
      unfold tables_ok. cbn [heap add_current_user set_current
                              current_epoch_users previous_epoch_users].
      rewrite Hheap. exact Hok2.
  - cbn [snd].
    destruct (apply_filters_ok (next_addr (heap s)) ht' (ta_dead_events a)
                (ta_filter_previous a) (ta_dominated a) s Hok) as [Hok1 Hn1].
    rewrite Hn1. exact Hok1.
Qed.

Lemma add_local_copy_user_ok `{Analysis} (node : RegionTreeNode) (usage : RegionUsage)
    (copy_term : Event) (base_user : bool) (child_color : ColorPoint)
    (version_info : VersionInfo) (mask : FieldMask) (s : MaterializedState) :
  well_formed s ->
  well_formed (add_local_copy_user node usage copy_term base_user child_color
                 version_info mask s).2.
Proof.
  intros Hok. unfold well_formed in *. unfold add_local_copy_user.
  destruct (new_user_spec node usage child_color version_info (heap s)) as [Hu Hn].
  destruct (new_user node usage child_color version_info (heap s)) as [user h].
  cbn [fst snd] in Hu, Hn |- *.
  pose proof (add_current_user_ok (next_addr (heap s)) user copy_term mask
                (set_heap (fun _ => h) s) Hok Hu) as Hok2.
  unfold tables_ok, set_gc, add_current_user, set_current, set_heap in *.
  cbn [heap current_epoch_users previous_epoch_users] in *.
  rewrite Hn. exact Hok2.
Qed.

Lemma find_local_copy_preconditions_ok `{Analysis} (ht ht' : Event -> bool)
    (node : RegionTreeNode) (redop : ReductionOpID) (reading : bool)
    (mask : FieldMask) (child_color : ColorPoint) (version_info : VersionInfo)
    (pre : gmap Event FieldMask) (s : MaterializedState) :
  well_formed s ->
  well_formed (find_local_copy_preconditions ht ht' node redop reading mask child_color
                 version_info pre s).2.
Proof.
  intros Hok. unfold well_formed in *. unfold find_local_copy_preconditions.
  cbv zeta. cbn [snd]. destruct (_ || _); [|exact Hok].
  match goal with
  | |- context [apply_filters ?ht ?dead ?fp ?d s] =>
      destruct (apply_filters_ok (next_addr (heap s)) ht dead fp d s Hok) as [Hok1 Hn1]
  end.
  rewrite Hn1. exact Hok1.
Qed.

Lemma add_initial_user_ok (term_event : Event) (usage : RegionUsage)
    (mask : FieldMask) (s : MaterializedState) :
  well_formed s -> well_formed (add_initial_user term_event usage mask s).
Proof.
  intros Hok. unfold well_formed in *. unfold add_initial_user, legion_new.
  pose proof (add_current_user_ok (next_addr (heap s))
                (next_addr (heap s), mkUser usage None None) term_event mask
                s Hok eq_refl) as Hok2.
  unfold tables_ok, add_current_user, set_current, set_heap in *.
  cbn [heap current_epoch_users previous_epoch_users] in *.
  rewrite next_addr_add_reference. exact Hok2.
Qed.

Lemma update_gc_events_ok (gc_events : list Event) (s : MaterializedState) :
  well_formed s -> well_formed (update_gc_events gc_events s).
Proof.
  unfold update_gc_events. revert s.
  induction gc_events as [|e l IH]; intros s Hok; [exact Hok|].
  cbn [foldl]. apply IH. exact Hok.
Qed.

Lemma empty_state_ok : well_formed empty_state.
Proof.
  unfold well_formed, tables_ok, empty_state.
  cbn [current_epoch_users previous_epoch_users heap].
  split; [apply table_summaries_empty|]. split; [apply table_summaries_empty|].
  split; [apply bounded_empty|]. split; [apply bounded_empty | apply unshared_empty].
Qed.

(** *** What an update carries *)

Lemma overlapping_addrs (overlap : FieldMask) (l : list (N * (PhysicalUser * FieldMask)))
    (a : N) :
  a ∈ (overlapping overlap l).*1 -> a ∈ l.*1.
Proof.
  induction l as [|it l IH]; [intros Ha; exact Ha|].
  cbn [overlapping]. rewrite (fmap_cons fst it l).
  destruct (Mask.is_empty _).
  - intros Ha. right. exact (IH Ha).
  - rewrite fmap_cons. intros Ha. apply elem_of_cons in Ha as [->|Ha]; [left|].
    right. exact (IH Ha).
Qed.

Lemma overlapping_NoDup (overlap : FieldMask) (l : list (N * (PhysicalUser * FieldMask))) :
  NoDup l.*1 -> NoDup (overlapping overlap l).*1.
Proof.
  induction l as [|it l IH]; intros Hnd; [constructor|].
  rewrite fmap_cons in Hnd. apply NoDup_cons in Hnd as [Hnotin Hnd].
  cbn [overlapping]. destruct (Mask.is_empty _); [exact (IH Hnd)|].
  rewrite fmap_cons. apply NoDup_cons. split; [|exact (IH Hnd)].
  intros Hin. apply Hnotin. exact (overlapping_addrs _ _ _ Hin).
Qed.

Lemma carried_users_addrs (update_mask : FieldMask) (eu : EventUsers) (a : N) :
  a ∈ (carried_users update_mask eu).*1 -> a ∈ bucket_addrs eu.
Proof.
  unfold carried_users, bucket_addrs. destruct (users eu) as [u|m].
  - intros Ha. apply list_elem_of_singleton in Ha as ->.
    apply elem_of_singleton. reflexivity.
  - intros Ha. apply overlapping_addrs in Ha.
    apply list_elem_of_fmap in Ha as ([k um] & -> & Hin).
    apply elem_of_entries in Hin. apply elem_of_dom. eauto.
Qed.

Lemma carried_users_NoDup (update_mask : FieldMask) (eu : EventUsers) :
  NoDup (carried_users update_mask eu).*1.
Proof.
  unfold carried_users. destruct (users eu) as [u|m].
  - apply NoDup_singleton.
  - apply overlapping_NoDup, NoDup_fst_entries.
Qed.

Lemma carried_events_addrs (update_mask : FieldMask) (l : list (Event * EventUsers))
    (a : N) :
  a ∈ carried_addrs (carried_events update_mask l) ->
  exists it, it ∈ l /\ a ∈ bucket_addrs it.2.
Proof.
  induction l as [|it l IH]; [intros Ha; inversion Ha|].
  cbn [carried_events]. destruct (Mask.is_empty _).
  - intros Ha. destruct (IH Ha) as (it' & Hit & Hb). exists it'. split; [right|]; assumption.
  - unfold carried_addrs. cbn [flat_map fst snd]. intros Ha.
    apply elem_of_app in Ha as [Ha|Ha].
    + exists it. split; [left|]. exact (carried_users_addrs _ _ _ Ha).
    + destruct (IH Ha) as (it' & Hit & Hb). exists it'. split; [right|]; assumption.
Qed.

Lemma carried_events_unshared (update_mask : FieldMask) (table : gmap Event EventUsers)
    (l : list (Event * EventUsers)) :
  unshared table -> NoDup l.*1 -> (forall it, it ∈ l -> table !! it.1 = Some it.2) ->
  NoDup (carried_addrs (carried_events update_mask l)).
Proof.
  intros Hu. induction l as [|it l IH]; intros Hnd Hl; [constructor|].
  rewrite fmap_cons in Hnd. apply NoDup_cons in Hnd as [Hnotin Hnd].
  assert (IH' := IH Hnd (fun it' Hit => Hl it' (list_elem_of_further _ _ _ Hit))).
  cbn [carried_events]. destruct (Mask.is_empty _); [exact IH'|].
  unfold carried_addrs. cbn [flat_map fst snd]. apply NoDup_app.
  split; [apply carried_users_NoDup|]. split; [|exact IH'].
  intros a Ha Ha'. apply carried_users_addrs in Ha.
  destruct (carried_events_addrs _ _ _ Ha') as (it' & Hit & Hb).
  assert (He : it.1 = it'.1).
  { apply (Hu it.1 it'.1 a).
    - rewrite (Hl it) by left. exact Ha.
    - rewrite (Hl it') by (right; exact Hit). exact Hb. }
  apply Hnotin. rewrite He. apply list_elem_of_fmap. exists it'. split; [reflexivity | exact Hit].
Qed.

Lemma carried_unshared (update_mask : FieldMask) (table : gmap Event EventUsers) :
  unshared table -> NoDup (carried_addrs (carried update_mask table)).
Proof.
  intros Hu. apply (carried_events_unshared update_mask table); [exact Hu | |].
  - apply NoDup_fst_entries.
  - intros [e eu] Hit. apply elem_of_entries in Hit. exact Hit.
Qed.

Lemma carried_events_keys (update_mask : FieldMask) (l : list (Event * EventUsers))
    (x : Event * (N * FieldMask)) :
  x ∈ carried_pairs (carried_events update_mask l) -> x.1 ∈ l.*1.
Proof.
  induction l as [|it l IH]; [intros Hx; inversion Hx|].
  cbn [carried_events]. destruct (Mask.is_empty _).
  - intros Hx. rewrite fmap_cons. right. exact (IH Hx).
  - unfold carried_pairs. cbn [flat_map fst snd]. rewrite fmap_cons. intros Hx.
    apply elem_of_app in Hx as [Hx|Hx]; [|right; exact (IH Hx)].
    apply list_elem_of_fmap in Hx as (u & -> & _). left.
Qed.

(** An update carries no user twice under an event. *)
Lemma carried_events_pairs (update_mask : FieldMask) (l : list (Event * EventUsers)) :
  NoDup l.*1 ->
  NoDup ((fun x : Event * (N * FieldMask) => (x.1, x.2.1))
           <$> carried_pairs (carried_events update_mask l)).
Proof.
  induction l as [|it l IH]; intros Hnd; [constructor|].
  rewrite fmap_cons in Hnd. apply NoDup_cons in Hnd as [Hnotin Hnd].
  cbn [carried_events]. destruct (Mask.is_empty _); [exact (IH Hnd)|].
  unfold carried_pairs. cbn [flat_map fst snd]. rewrite fmap_app. apply NoDup_app.
  split; [|split; [|exact (IH Hnd)]].
  - rewrite <- list_fmap_compose.
    apply (NoDup_fmap_2_strong _ (carried_users update_mask it.2)).
    + intros u u' Hu Hu' [= Heq].
      pose proof (carried_users_NoDup update_mask it.2) as Hn.
      apply list_elem_of_lookup in Hu as [i Hi], Hu' as [j Hj].
      assert (i = j).
      { apply (NoDup_lookup _ i j u.1 Hn); rewrite list_lookup_fmap.
        - rewrite Hi. reflexivity.
        - rewrite Hj, Heq. reflexivity. }
      subst j. congruence.
    + apply (NoDup_fmap_1 fst). apply carried_users_NoDup.
  - intros p Hp Hp'.
    apply list_elem_of_fmap in Hp as (x & -> & Hx).
    apply list_elem_of_fmap in Hx as (u & -> & _).
    apply list_elem_of_fmap in Hp' as (x' & Heq & Hx').
    apply carried_events_keys in Hx'. cbn [fst snd] in Heq.
    injection Heq as Heq _. apply Hnotin. rewrite Heq. exact Hx'.
Qed.

Lemma carried_pairs_addrs (ups : list (Event * list (N * FieldMask))) :
  (fun x : Event * (N * FieldMask) => x.2.1) <$> carried_pairs ups = carried_addrs ups.
Proof.
  induction ups as [|ev ups IH]; [reflexivity|].
  unfold carried_pairs, carried_addrs in *. cbn [flat_map]. rewrite fmap_app, IH.
  f_equal. rewrite <- list_fmap_compose. reflexivity.
Qed.

(** *** A table that takes the users of an update *)

Lemma insert_all_ok (copy : N -> N * PhysicalUser) (l : list (Event * (N * FieldMask))) :
  forall table : gmap Event EventUsers,
    table_summaries table ->
    (forall x, x ∈ l -> (copy x.2.1).1 ∉ addrs_of (table !! x.1)) ->
    NoDup (copy_tag copy <$> l) ->
    table_summaries (insert_all copy l table) /\
    forall e y, y ∈ addrs_of (insert_all copy l table !! e) ->
                y ∈ addrs_of (table !! e) \/ (e, y) ∈ copy_tag copy <$> l.
Proof.
  induction l as [|x l IH]; intros table Hs Hfresh Hnd.
  - split; [exact Hs|]. intros e y Hy. left. exact Hy.
  - rewrite fmap_cons in Hnd. apply NoDup_cons in Hnd as [Hnotin Hnd].
    unfold insert_all. cbn [foldl]. fold (insert_all copy l).
    set (table1 := <[x.1 := insert_user (copy x.2.1) x.2.2 (table !! x.1)]> table).
    destruct (IH table1) as [Hs' Haddrs].
    + apply insert_table_summaries; [exact Hs|]. apply Hfresh. left.
    + intros x' Hx'. unfold table1. rewrite insert_table_addrs.
      destruct (decide (x'.1 = x.1)) as [He|Hne]; [|apply Hfresh; right; exact Hx'].
      intros Hin. apply elem_of_union in Hin as [Hin|Hin].
      * apply elem_of_singleton in Hin. apply Hnotin. apply list_elem_of_fmap.
        exists x'. split; [|exact Hx']. unfold copy_tag. rewrite He, Hin. reflexivity.
      * rewrite <- He in Hin. revert Hin. apply Hfresh. right. exact Hx'.
    + exact Hnd.
    + split; [exact Hs'|]. intros e y Hy. rewrite fmap_cons.
      destruct (Haddrs e y Hy) as [Hold|Hnew]; [|right; right; exact Hnew].
      unfold table1 in Hold. rewrite insert_table_addrs in Hold.
      destruct (decide (e = x.1)) as [->|Hne]; [|left; exact Hold].
      apply elem_of_union in Hold as [Hold|Hold]; [|left; exact Hold].
      apply elem_of_singleton in Hold as ->. right. left.
Qed.

Lemma insert_all_app (copy : N -> N * PhysicalUser)
    (l1 l2 : list (Event * (N * FieldMask))) (table : gmap Event EventUsers) :
  insert_all copy (l1 ++ l2) table = insert_all copy l2 (insert_all copy l1 table).
Proof. unfold insert_all. apply foldl_app. Qed.

(** [apply_locally], table by table. *)
Lemma install_current_tables (copy : N -> N * PhysicalUser)
    (ev : Event * list (N * FieldMask)) (r : MaterializedState) :
  current_epoch_users (install add_current_user copy ev r)
    = insert_all copy ((fun u : N * FieldMask => (ev.1, u)) <$> ev.2)
                 (current_epoch_users r) /\
  previous_epoch_users (install add_current_user copy ev r) = previous_epoch_users r.
Proof.
  unfold install. cbn [set_gc current_epoch_users previous_epoch_users].
  generalize ev.2. intros l. revert r.
  induction l as [|u l IH]; intros r; [split; reflexivity|].
  cbn [foldl]. destruct (IH (add_current_user (copy u.1) ev.1 u.2 r)) as [-> ->].
  split; reflexivity.
Qed.

Lemma install_previous_tables (copy : N -> N * PhysicalUser)
    (ev : Event * list (N * FieldMask)) (r : MaterializedState) :
  previous_epoch_users (install add_previous_user copy ev r)
    = insert_all copy ((fun u : N * FieldMask => (ev.1, u)) <$> ev.2)
                 (previous_epoch_users r) /\
  current_epoch_users (install add_previous_user copy ev r) = current_epoch_users r.
Proof.
  unfold install. cbn [set_gc current_epoch_users previous_epoch_users].
  generalize ev.2. intros l. revert r.
  induction l as [|u l IH]; intros r; [split; reflexivity|].
  cbn [foldl]. destruct (IH (add_previous_user (copy u.1) ev.1 u.2 r)) as [-> ->].
  split; reflexivity.
Qed.

Lemma install_current_fold (copy : N -> N * PhysicalUser)
    (ups : list (Event * list (N * FieldMask))) :
  forall r : MaterializedState,
    current_epoch_users (foldl (fun r ev => install add_current_user copy ev r) r ups)
      = insert_all copy (carried_pairs ups) (current_epoch_users r) /\
    previous_epoch_users (foldl (fun r ev => install add_current_user copy ev r) r ups)
      = previous_epoch_users r.
Proof.
  induction ups as [|ev ups IH]; intros r; [split; reflexivity|].
  cbn [foldl]. destruct (IH (install add_current_user copy ev r)) as [-> ->].
  destruct (install_current_tables copy ev r) as [-> ->].
  unfold carried_pairs. cbn [flat_map]. rewrite insert_all_app. split; reflexivity.
Qed.

Lemma install_previous_fold (copy : N -> N * PhysicalUser)
    (ups : list (Event * list (N * FieldMask))) :
  forall r : MaterializedState,
    previous_epoch_users (foldl (fun r ev => install add_previous_user copy ev r) r ups)
      = insert_all copy (carried_pairs ups) (previous_epoch_users r) /\
    current_epoch_users (foldl (fun r ev => install add_previous_user copy ev r) r ups)
      = current_epoch_users r.
Proof.
  induction ups as [|ev ups IH]; intros r; [split; reflexivity|].
  cbn [foldl]. destruct (IH (install add_previous_user copy ev r)) as [-> ->].
  destruct (install_previous_tables copy ev r) as [-> ->].
  unfold carried_pairs. cbn [flat_map]. rewrite insert_all_app. split; reflexivity.
Qed.

Lemma apply_locally_tables (copy : N -> N * PhysicalUser)
    (current previous : list (Event * list (N * FieldMask))) (r : MaterializedState) :
  current_epoch_users (apply_locally copy current previous r)
    = insert_all copy (carried_pairs current) (current_epoch_users r) /\
  previous_epoch_users (apply_locally copy current previous r)
    = insert_all copy (carried_pairs previous) (previous_epoch_users r).
Proof.
  unfold apply_locally.
  destruct (install_previous_fold copy previous
              (foldl (fun r ev => install add_current_user copy ev r) r current))
    as [-> ->].
  destruct (install_current_fold copy current r) as [-> ->]. split; reflexivity.
Qed.

(** The tags of the copies are distinct when the users are. *)
Lemma copy_tags_NoDup (copy : N -> N * PhysicalUser)
    (l : list (Event * (N * FieldMask))) :
  (forall x x', x ∈ l -> x' ∈ l -> (copy x.2.1).1 = (copy x'.2.1).1 -> x.2.1 = x'.2.1) ->
  NoDup ((fun x : Event * (N * FieldMask) => (x.1, x.2.1)) <$> l) ->
  NoDup (copy_tag copy <$> l).
Proof.
  intros Hinj Hnd.
  assert (Hl : NoDup l) by exact (NoDup_fmap_1 _ _ Hnd).
  apply NoDup_fmap_2_strong; [|exact Hl].
  intros x x' Hx Hx' [= He Ha].
  pose proof (Hinj x x' Hx Hx' Ha) as Ha'.
  apply list_elem_of_lookup in Hx as [i Hi], Hx' as [j Hj].
  assert (i = j).
  { apply (NoDup_lookup _ i j (x.1, x.2.1) Hnd); rewrite list_lookup_fmap.
    - rewrite Hi. reflexivity.
    - rewrite Hj, He, Ha'. reflexivity. }
  subst j. congruence.
Qed.

(** The tables of a receiver after an update.  The copies lie between
    [n] and [n']; distinct users have distinct copies. *)
Lemma insert_all_tables (copy : N -> N * PhysicalUser) (n n' : N)
    (l : list (Event * (N * FieldMask))) (table : gmap Event EventUsers) :
  table_summaries table -> bounded n table -> n <= n' ->
  (forall x, x ∈ l -> n <= (copy x.2.1).1 < n') ->
  (forall x x', x ∈ l -> x' ∈ l -> (copy x.2.1).1 = (copy x'.2.1).1 -> x.2.1 = x'.2.1) ->
  NoDup ((fun x : Event * (N * FieldMask) => (x.1, x.2.1)) <$> l) ->
  table_summaries (insert_all copy l table) /\
  bounded n' (insert_all copy l table) /\
  (unshared table ->
   NoDup ((fun x : Event * (N * FieldMask) => x.2.1) <$> l) ->
   unshared (insert_all copy l table)).
Proof.
  intros Hs Hb Hle Hrange Hinj Hnd.
  destruct (insert_all_ok copy l table Hs) as [Hs' Haddrs].
  { intros x Hx Hin. specialize (Hb _ _ Hin). specialize (Hrange x Hx). lia. }
  { apply copy_tags_NoDup; assumption. }
  split; [exact Hs'|]. split.
  - intros e y Hy. destruct (Haddrs e y Hy) as [Hold|Hnew].
    + specialize (Hb _ _ Hold). lia.
    + apply list_elem_of_fmap in Hnew as (x & [= _ ->] & Hx).
      exact (proj2 (Hrange x Hx)).
  - intros Hu Hnda e e' y Hy Hy'.
    destruct (Haddrs e y Hy) as [Hold|Hnew], (Haddrs e' y Hy') as [Hold'|Hnew'].
    + exact (Hu e e' y Hold Hold').
    + specialize (Hb _ _ Hold).
      apply list_elem_of_fmap in Hnew' as (x & [= _ ->] & Hx).
      specialize (Hrange x Hx). lia.
    + specialize (Hb _ _ Hold').
      apply list_elem_of_fmap in Hnew as (x & [= _ ->] & Hx).
      specialize (Hrange x Hx). lia.
    + apply list_elem_of_fmap in Hnew as (x & [= -> ->] & Hx).
      apply list_elem_of_fmap in Hnew' as (x' & [= -> Heq] & Hx').
      pose proof (Hinj x x' Hx Hx' Heq) as Ha.
      apply list_elem_of_lookup in Hx as [i Hi], Hx' as [j Hj].
      assert (i = j).
      { apply (NoDup_lookup _ i j x.2.1 Hnda); rewrite list_lookup_fmap.
        - rewrite Hi. reflexivity.
        - rewrite Hj, Ha. reflexivity. }
      subst j. congruence.
Qed.

(** *** The heap of the sender *)

Section PackHeap.
Context (pack_index : N * PhysicalUser -> Packer -> Z * Packer).
Hypothesis pack_index_heap : forall u p,
  next_addr (pack_heap (pack_index u p).2) = next_addr (pack_heap p).

Lemma next_addr_pack_multi (overlap : FieldMask)
    (l : list (N * (PhysicalUser * FieldMask))) (acc : Z * list Token * Packer) :
  next_addr (pack_heap (foldl (fun acc it => pack_multi_user pack_index overlap it acc)
                              acc l).2)
  = next_addr (pack_heap acc.2).
Proof using pack_index_heap.
  revert acc. induction l as [|it l IH]; intros acc; [reflexivity|].
  cbn [foldl]. rewrite IH. unfold pack_multi_user. destruct acc as [[count rez] p].
  destruct (Mask.is_empty _); [reflexivity|].
  pose proof (pack_index_heap (it.1, it.2.1) p) as Hp.
  destruct (pack_index _ p) as [index p']. exact Hp.
Qed.

Lemma next_addr_pack_event (update_mask : FieldMask) (it : Event * EventUsers)
    (acc : N * list Token * Packer) :
  next_addr (pack_heap (pack_event pack_index update_mask it acc).2)
  = next_addr (pack_heap acc.2).
Proof using pack_index_heap.
  unfold pack_event. destruct acc as [[events rez] p].
  destruct (Mask.is_empty _); [reflexivity|].
  destruct (users it.2) as [user|m].
  - pose proof (pack_index_heap user p) as Hp.
    destruct (pack_index user p) as [index p']. exact Hp.
  - pose proof (next_addr_pack_multi (user_mask it.2 &&& update_mask) (entries m)
                  ((-1)%Z, [], p)) as Hp.
    destruct (foldl _ _ _) as [[count event_rez] p']. exact Hp.
Qed.

Lemma next_addr_pack_events (update_mask : FieldMask) (l : list (Event * EventUsers))
    (acc : N * list Token * Packer) :
  next_addr (pack_heap (foldl (fun acc it => pack_event pack_index update_mask it acc)
                              acc l).2)
  = next_addr (pack_heap acc.2).
Proof using pack_index_heap.
  revert acc. induction l as [|it l IH]; intros acc; [reflexivity|].
  cbn [foldl]. rewrite IH. apply next_addr_pack_event.
Qed.
End PackHeap.

Lemma next_addr_pack_current_user (u : N * PhysicalUser) (p : Packer) :
  next_addr (pack_heap (pack_current_user u p).2) = next_addr (pack_heap p).
Proof. apply next_addr_add_reference. Qed.

Lemma next_addr_pack_previous_user (u : N * PhysicalUser) (p : Packer) :
  next_addr (pack_heap (pack_previous_user u p).2) = next_addr (pack_heap p).
Proof.
  unfold pack_previous_user. destruct (needed_users p !! u.1); [reflexivity|].
  apply next_addr_add_reference.
Qed.

Lemma next_addr_pack_needed (l : list (N * (PhysicalUser * Z)))
    (acc : list Token * UserHeap) :
  next_addr (foldl (fun acc it => pack_needed it acc) acc l).2 = next_addr acc.2.
Proof.
  revert acc. induction l as [|it l IH]; intros acc; [reflexivity|].
  cbn [foldl]. rewrite IH. apply next_addr_release_user.
Qed.

Lemma send_view_updates_ok (is_region : bool) (handle did : N)
    (update_mask : FieldMask) (s : MaterializedState) :
  well_formed s ->
  well_formed (send_view_updates is_region handle did update_mask s).2.
Proof.
  intros Hok. unfold well_formed in *. unfold send_view_updates.
  pose proof (next_addr_pack_events pack_current_user next_addr_pack_current_user
                update_mask (entries (current_epoch_users s))
                (0, [], mkPacker ∅ (heap s))) as H1.
  destruct (foldl _ _ (entries (current_epoch_users s)))
    as [[current_events current_rez] p1].
  pose proof (next_addr_pack_events pack_previous_user next_addr_pack_previous_user
                update_mask (entries (previous_epoch_users s)) (0, [], p1)) as H2.
  destruct (foldl _ _ (entries (previous_epoch_users s)))
    as [[previous_events previous_rez] p2].
  pose proof (next_addr_pack_needed (entries (needed_users p2)) ([], pack_heap p2)) as H3.
  destruct (foldl _ _ (entries (needed_users p2))) as [table h].
  cbn [fst snd pack_heap set_heap heap] in *.
  unfold tables_ok in *. cbn [current_epoch_users previous_epoch_users].
  replace (next_addr h) with (next_addr (heap s)) by congruence. exact Hok.
Qed.

(** *** The heap of the receiver *)

Lemma unpack_users_next_addr (num_users : nat) :
  forall derez users h users' h' rest,
    unpack_users num_users derez users h = Some (users', h', rest) ->
    next_addr h' = next_addr h + N.of_nat num_users.
Proof.
  induction num_users as [|n IH]; intros derez users h users' h' rest Hrun.
  - injection Hrun as _ <- _. cbn. lia.
  - cbn [unpack_users] in Hrun.
    destruct (read_int derez) as [[index derez1]|]; [|discriminate].
    cbn [mbind option_bind] in Hrun.
    destruct (read_user derez1) as [[record derez2]|]; [|discriminate].
    cbn [mbind option_bind] in Hrun.
    destruct (_ && _); [|discriminate].
    destruct (unpack_user_spec record h) as [_ Hn].
    destruct (unpack_user record h) as [user h1]. cbn [snd] in Hn.
    apply IH in Hrun. lia.
Qed.

Section InstallHeap.
Context (add : N * PhysicalUser -> Event -> FieldMask -> MaterializedState -> MaterializedState).
Hypothesis add_heap : forall user e mask s, heap (add user e mask s) = heap s.

Lemma install_user_next_addr (index : Z) (e : Event) (mask : FieldMask) (u u' : Update) :
  install_user add index e mask u = Some u' ->
  next_addr (heap (update_state u')) = next_addr (heap (update_state u)).
Proof using add_heap.
  unfold install_user. destruct (0 <=? index)%Z; [|discriminate].
  destruct (update_users u !! Z.to_nat index) as [[user|]|]; try discriminate.
  intros [= <-]. cbn [update_state]. rewrite add_heap.
  destruct (default false _); [|reflexivity].
  cbn [set_heap heap]. apply next_addr_add_reference.
Qed.

Lemma install_entries_next_addr (count : nat) (e : Event) :
  forall derez u u' rest,
    install_entries add count e derez u = Some (u', rest) ->
    next_addr (heap (update_state u')) = next_addr (heap (update_state u)).
Proof using add_heap.
  induction count as [|n IH]; intros derez u u' rest Hrun.
  - injection Hrun as <- _. reflexivity.
  - cbn [install_entries] in Hrun.
    destruct (read_int derez) as [[index derez1]|]; [|discriminate].
    cbn [mbind option_bind] in Hrun.
    destruct (read_mask derez1) as [[mask derez2]|]; [|discriminate].
    cbn [mbind option_bind] in Hrun.
    destruct (install_user add index e mask u) as [u1|] eqn:Hu1; [|discriminate].
    cbn [mbind option_bind] in Hrun.
    apply IH in Hrun. apply install_user_next_addr in Hu1. congruence.
Qed.

Lemma note_event_next_addr (e : Event) (u : Update) :
  next_addr (heap (update_state (note_event e u))) = next_addr (heap (update_state u)).
Proof. unfold note_event. destruct (decide _); reflexivity. Qed.

Lemma install_event_next_addr (derez : list Token) (u u' : Update) (rest : list Token) :
  install_event add derez u = Some (u', rest) ->
  next_addr (heap (update_state u')) = next_addr (heap (update_state u)).
Proof using add_heap.
  unfold install_event.
  destruct (read_event derez) as [[e derez1]|]; [|discriminate].
  cbn [mbind option_bind].
  destruct (read_int derez1) as [[index derez2]|]; [|discriminate].
  cbn [mbind option_bind].
  destruct (index <? 0)%Z.
  - destruct (install_entries add _ e derez2 u) as [[u1 derez3]|] eqn:Hu1;
      [|discriminate].
    cbn [mbind option_bind]. intros [= <- _].
    rewrite note_event_next_addr. exact (install_entries_next_addr _ _ _ _ _ _ Hu1).
  - destruct (read_mask derez2) as [[mask derez3]|]; [|discriminate].
    cbn [mbind option_bind].
    destruct (install_user add index e mask u) as [u1|] eqn:Hu1; [|discriminate].
    cbn [mbind option_bind]. intros [= <- _].
    rewrite note_event_next_addr. exact (install_user_next_addr _ _ _ _ _ Hu1).
Qed.

Lemma install_events_next_addr (num_events : nat) :
  forall derez u u' rest,
    install_events add num_events derez u = Some (u', rest) ->
    next_addr (heap (update_state u')) = next_addr (heap (update_state u)).
Proof using add_heap.
  induction num_events as [|n IH]; intros derez u u' rest Hrun.
  - injection Hrun as <- _. reflexivity.
  - cbn [install_events] in Hrun.
    destruct (install_event add derez u) as [[u1 derez1]|] eqn:Hu1; [|discriminate].
    cbn [mbind option_bind] in Hrun.
    apply IH in Hrun. apply install_event_next_addr in Hu1. congruence.
Qed.
End InstallHeap.

Lemma process_update_next_addr (num_users : N) (derez : list Token)
    (r r' : MaterializedState) (collected : list Event) :
  process_update (TSize num_users :: derez) r = Some (r', collected) ->
  next_addr (heap r') = next_addr (heap r) + num_users.
Proof.
  unfold process_update. cbn [read_size mbind option_bind].
  destruct (2 ^ 32 <=? num_users); [discriminate|].
  destruct (unpack_users _ _ _ _) as [[[users h] derez1]|] eqn:Hun; [|discriminate].
  cbn [mbind option_bind].
  destruct (read_unsigned derez1) as [[num_current derez2]|]; [|discriminate].
  cbn [mbind option_bind].
  destruct (install_events add_current_user _ derez2 _) as [[u1 derez3]|] eqn:Hu1;
    [|discriminate].
  cbn [mbind option_bind].
  destruct (read_unsigned derez3) as [[num_previous derez4]|]; [|discriminate].
  cbn [mbind option_bind].
  destruct (install_events add_previous_user _ derez4 u1) as [[u2 derez5]|] eqn:Hu2;
    [|discriminate].
  cbn [mbind option_bind]. intros [= <- _].
  apply unpack_users_next_addr in Hun.
  apply (install_events_next_addr add_current_user (fun _ _ _ _ => eq_refl)) in Hu1.
  apply (install_events_next_addr add_previous_user (fun _ _ _ _ => eq_refl)) in Hu2.
  cbn [update_state set_heap heap] in Hu1. rewrite Hu2, Hu1, Hun. lia.
Qed.

(** *** A remote update of a materialized view *)

Lemma carried_pairs_addr (ups : list (Event * list (N * FieldMask)))
    (x : Event * (N * FieldMask)) :
  x ∈ carried_pairs ups -> x.2.1 ∈ carried_addrs ups.
Proof.
  intros Hx. rewrite <- carried_pairs_addrs. apply list_elem_of_fmap.
  exists x. split; [reflexivity | exact Hx].
Qed.

Lemma handle_send_update_ok (is_region : bool) (handle did : N)
    (update_mask : FieldMask) (s r r' : MaterializedState) (collected : list Event) :
  well_formed s -> well_formed r ->
  (Z.of_nat (update_load (carried update_mask (current_epoch_users s)) +
             update_load (carried update_mask (previous_epoch_users s))) < 2 ^ 31)%Z ->
  handle_send_update (send_view_updates is_region handle did update_mask s).1 r
    = Some (r', collected) ->
  well_formed r'.
Proof.
  intros (_ & _ & _ & _ & Hus) (Hc & Hp & Hbc & Hbp & Hur) Hload Hrun.
  pose proof (carried_unshared update_mask _ Hus) as Hnd.
  assert (Hst : stored_at (fun _ _ => True) s).
  { split; intros e eu _; unfold bucket_stored; destruct (users eu); auto. }
  destruct (update_installed (fun _ _ => True) is_region handle did update_mask s r
              Hst Hnd Hload)
    as (idx & table & copy & r1 & c1 & Hsent & Hrun1 & (Hc1 & Hp1 & _) & Hcopy).
  cbv zeta in Hsent, Hrun1, Hcopy.
  rewrite Hrun in Hrun1. injection Hrun1 as <- <-.
  assert (Hheap : next_addr (heap r') = next_addr (heap r) + N.of_nat (length table)).
  { rewrite Hsent in Hrun. unfold handle_send_update, message in Hrun.
    cbn [app read_bool read_handle read_did mbind option_bind] in Hrun.
    exact (process_update_next_addr _ _ _ _ _ Hrun). }
  destruct (apply_locally_tables copy (carried update_mask (current_epoch_users s))
              (carried update_mask (previous_epoch_users s)) r) as [Hc2 Hp2].
  rewrite Hc2 in Hc1. rewrite Hp2 in Hp1. clear Hc2 Hp2.
  set (current := carried update_mask (current_epoch_users s)) in *.
  set (previous := carried update_mask (previous_epoch_users s)) in *.
  destruct (insert_all_tables copy (next_addr (heap r)) (next_addr (heap r'))
              (carried_pairs current) (current_epoch_users r) Hc Hbc)
    as (Hc' & Hbc' & Hu').
  { lia. }
  { intros x Hx. rewrite Hheap. apply Hcopy. apply elem_of_app. left.
    exact (carried_pairs_addr _ _ Hx). }
  { intros x x' Hx Hx' Heq. symmetry.
    apply (proj2 (proj2 (Hcopy x.2.1 (proj2 (elem_of_app _ _ _)
                                        (or_introl (carried_pairs_addr _ _ Hx)))))).
    - apply elem_of_app. left. exact (carried_pairs_addr _ _ Hx').
    - symmetry. exact Heq. }
  { apply carried_events_pairs, NoDup_fst_entries. }
  destruct (insert_all_tables copy (next_addr (heap r)) (next_addr (heap r'))
              (carried_pairs previous) (previous_epoch_users r) Hp Hbp)
    as (Hp' & Hbp' & _).
  { lia. }
  { intros x Hx. rewrite Hheap. apply Hcopy. apply elem_of_app. right.
    exact (carried_pairs_addr _ _ Hx). }
  { intros x x' Hx Hx' Heq. symmetry.
    apply (proj2 (proj2 (Hcopy x.2.1 (proj2 (elem_of_app _ _ _)
                                        (or_intror (carried_pairs_addr _ _ Hx)))))).
    - apply elem_of_app. right. exact (carried_pairs_addr _ _ Hx').
    - symmetry. exact Heq. }
  { apply carried_events_pairs, NoDup_fst_entries. }
  unfold well_formed, tables_ok. rewrite Hc1, Hp1.
  split; [exact Hc'|]. split; [exact Hp'|]. split; [exact Hbc'|]. split; [exact Hbp'|].
  apply Hu'; [exact Hur|]. rewrite carried_pairs_addrs. exact Hnd.
Qed.

(** The states of a materialized view are well formed. *)
Lemma reachable_well_formed `{Analysis} (s : MaterializedState) :
  reachable s -> well_formed s.
Proof.
  induction 1 as [ | | | | | term_event s Hs IHs | | |
                   is_region handle did update_mask s r r' collected
                   Hs IHs Hr IHr Hload Hrun].
  - exact empty_state_ok.
  - apply add_initial_user_ok. assumption.
  - apply add_local_user_ok. assumption.
  - apply add_local_copy_user_ok. assumption.
  - apply find_local_copy_preconditions_ok. assumption.
  - unfold well_formed in *.
    destruct (filter_local_users_ok _ term_event s IHs) as [Hok Hn].
    rewrite Hn. exact Hok.
  - apply update_gc_events_ok. assumption.
  - apply send_view_updates_ok. assumption.
  - exact (handle_send_update_ok is_region handle did update_mask s r r' collected
             IHs IHr Hload Hrun).
Qed.

(** *** The operations of a reduction view *)

Lemma add_physical_user_ok (n : N) (user : N * PhysicalUser) (reading : bool)
    (e : Event) (mask : FieldMask) (s : ReductionState) :
  red_tables_ok n s -> user.1 = n ->
  red_tables_ok (n + 1) (add_physical_user user reading e mask s) /\
  red_heap (add_physical_user user reading e mask s) = red_heap s.
Proof.
  intros (Hr & Hd & Hbr & Hbd) Hn.
  unfold red_tables_ok, add_physical_user.
  destruct reading; cbn [reduction_users reading_users red_heap];
    (split; [|reflexivity]).
  - split; [exact Hr|].
    split; [apply insert_table_summaries; [exact Hd|]; rewrite Hn; apply bounded_fresh;
            exact Hbd|].
    split; [apply (bounded_mono n); [exact Hbr | lia]|].
    apply (insert_table_bounded _ _ _ n); [exact Hbd | lia | lia].
  - split; [apply insert_table_summaries; [exact Hr|]; rewrite Hn; apply bounded_fresh;
            exact Hbr|].
    split; [exact Hd|].
    split; [apply (insert_table_bounded _ _ _ n); [exact Hbr | lia | lia]|].
    apply (bounded_mono n); [exact Hbd | lia].
Qed.

Lemma red_add_user_ok `{Analysis} (man : ReductionManager) (usage : RegionUsage)
    (term_event : Event) (mask : FieldMask) (s : ReductionState) :
  red_well_formed s -> red_well_formed (red_add_user man usage term_event mask s).2.
Proof.
  intros Hok. unfold red_well_formed in *. unfold red_add_user, legion_new.
  cbv zeta. cbn [snd red_heap].
  match goal with
  | |- context [add_physical_user ?u ?rd ?e ?m ?s0] =>
      destruct (add_physical_user_ok (next_addr (red_heap s)) u rd e m s0 Hok eq_refl)
        as [Hok1 Hh1]
  end.
  rewrite Hh1. cbn [red_heap next_addr]. exact Hok1.
Qed.

Lemma red_add_copy_user_ok (redop : ReductionOpID) (copy_term : Event)
    (mask : FieldMask) (reading : bool) (s : ReductionState) :
  red_well_formed s ->
  red_well_formed (red_add_copy_user redop copy_term mask reading s).2.
Proof.
  intros Hok. unfold red_well_formed in *. unfold red_add_copy_user, legion_new.
  destruct (event_exists copy_term); [|exact Hok].
  cbv zeta. cbn [snd red_heap].
  match goal with
  | |- context [add_physical_user ?u ?rd ?e ?m ?s0] =>
      destruct (add_physical_user_ok (next_addr (red_heap s)) u rd e m s0 Hok eq_refl)
        as [Hok1 Hh1]
  end.
  rewrite Hh1. cbn [red_heap next_addr]. exact Hok1.
Qed.

Lemma red_add_initial_user_ok `{Analysis} (term_event : Event) (usage : RegionUsage)
    (mask : FieldMask) (s : ReductionState) :
  red_well_formed s -> red_well_formed (red_add_initial_user term_event usage mask s).
Proof.
  intros Hok. unfold red_well_formed in *. unfold red_add_initial_user, legion_new.
  cbv zeta. cbn [red_heap].
  match goal with
  | |- context [add_physical_user ?u ?rd ?e ?m ?s0] =>
      destruct (add_physical_user_ok (next_addr (red_heap s)) u rd e m s0 Hok eq_refl)
        as [Hok1 Hh1]
  end.
  rewrite Hh1. cbn [red_heap next_addr]. exact Hok1.
Qed.

Lemma red_filter_local_users_ok (e : Event) (s : ReductionState) :
  red_well_formed s -> red_well_formed (red_filter_local_users e s).
Proof.
  intros Hok. destruct (decide (e ∈ red_outstanding_gc_events s)) as [Hin|Hout].
  - rewrite red_filter_local_users_recorded by assumption.
    destruct Hok as (Hr & Hd & Hbr & Hbd).
    unfold red_well_formed, red_tables_ok.
    cbn [reduction_users reading_users red_heap]. rewrite next_addr_delete_all.
    split; [apply table_summaries_delete; exact Hr|].
    split; [apply table_summaries_delete; exact Hd|].
    split; [exact (bounded_shrink _ _ _ (addrs_of_delete _ e) Hbr)|].
    exact (bounded_shrink _ _ _ (addrs_of_delete _ e) Hbd).
  - rewrite red_filter_local_users_unrecorded by assumption. exact Hok.
Qed.

(** *** A remote update of a reduction view *)

Lemma red_unpack_users_spec (num_users : nat) :
  forall derez users h users' h' rest,
    red_unpack_users num_users derez users h = Some (users', h', rest) ->
    next_addr h' = next_addr h + N.of_nat num_users /\
    length users' = (length users + num_users)%nat /\
    forall base,
      (forall i user, users !! i = Some user -> user.1 = base + N.of_nat i) ->
      next_addr h = base + N.of_nat (length users) ->
      forall i user, users' !! i = Some user -> user.1 = base + N.of_nat i.
Proof.
  induction num_users as [|n IH]; intros derez users h users' h' rest Hrun.
  - injection Hrun as <- <- _. split; [lia|]. split; [lia|]. intros base Hu _. exact Hu.
  - cbn [red_unpack_users] in Hrun.
    destruct (read_user derez) as [[record derez1]|]; [|discriminate].
    cbn [mbind option_bind] in Hrun.
    destruct (unpack_user_spec record h) as [Huser Hn].
    destruct (unpack_user record h) as [user h1]. cbn [fst snd] in Huser, Hn.
    destruct (IH _ _ _ _ _ _ Hrun) as (Hn' & Hlen & Hat).
    rewrite length_app in Hlen. cbn [length] in Hlen.
    split; [lia|]. split; [lia|].
    intros base Hu Hbase. apply Hat.
    + intros i user' Hi. apply lookup_app_Some in Hi as [Hi|[Hge Hi]]; [exact (Hu _ _ Hi)|].
      apply list_lookup_singleton_Some in Hi as [Hi <-]. subst user.
      cbn [fst]. rewrite Hbase. f_equal. lia.
    + rewrite length_app. cbn [length]. lia.
Qed.

Section RedInstall.
Context (reading : bool) (users : list (N * PhysicalUser)) (base : N).
Hypothesis users_at : forall i user, users !! i = Some user -> user.1 = base + N.of_nat i.
Hypothesis users_few : N.of_nat (length users) < 2 ^ 32.

Lemma red_install_entries_ok (count : nat) (e : Event) :
  forall derez u u' rest,
    red_installed users base u ->
    red_install_entries reading users count e derez u = Some (u', rest) ->
    red_installed users base u' /\
    red_heap (red_update_state u') = red_heap (red_update_state u).
Proof using users_at users_few.
  induction count as [|n IH]; intros derez u u' rest Hinv Hrun.
  - injection Hrun as <- _. split; [exact Hinv | reflexivity].
  - cbn [red_install_entries] in Hrun.
    destruct (read_mask derez) as [[mask derez1]|]; [|discriminate].
    cbn [mbind option_bind] in Hrun.
    destruct (users !! N.to_nat (red_index u)) as [user|] eqn:Hu; [|discriminate].
    cbn [mbind option_bind] in Hrun.
    destruct Hinv as [Hok Hle].
    pose proof (lookup_lt_Some _ _ _ Hu) as Hlt.
    pose proof (users_at _ _ Hu) as Haddr. rewrite N2Nat.id in Haddr.
    destruct (add_physical_user_ok _ user reading e mask (red_update_state u) Hok Haddr)
      as [Hok1 Hh1].
    apply IH in Hrun.
    + destruct Hrun as [Hinv' Hh']. split; [exact Hinv'|].
      cbn [red_update_state] in Hh'. congruence.
    + unfold red_installed. cbn [red_index red_update_state].
      rewrite to_unsigned_small by lia.
      split; [rewrite N.add_assoc; exact Hok1 | lia].
Qed.

Lemma red_note_event_ok (e : Event) (u : RedUpdate) :
  red_installed users base u ->
  red_installed users base (red_note_event e u) /\
  red_heap (red_update_state (red_note_event e u)) = red_heap (red_update_state u).
Proof.
  intros Hinv. unfold red_note_event. cbv zeta.
  destruct (decide _); split; try reflexivity; exact Hinv.
Qed.

Lemma red_install_event_ok (derez : list Token) (u u' : RedUpdate) (rest : list Token) :
  red_installed users base u ->
  red_install_event reading users derez u = Some (u', rest) ->
  red_installed users base u' /\
  red_heap (red_update_state u') = red_heap (red_update_state u).
Proof using users_at users_few.
  intros Hinv. unfold red_install_event.
  destruct (read_event derez) as [[e derez1]|]; [|discriminate].
  cbn [mbind option_bind].
  destruct (read_size derez1) as [[num_users derez2]|]; [|discriminate].
  cbn [mbind option_bind].
  destruct (2 ^ 32 <=? num_users); [discriminate|].
  destruct (red_install_entries reading users _ e derez2 u) as [[u1 derez3]|] eqn:Hu1;
    [|discriminate].
  cbn [mbind option_bind]. intros [= <- _].
  destruct (red_install_entries_ok _ _ _ _ _ _ Hinv Hu1) as [Hinv1 Hh1].
  destruct (red_note_event_ok e u1 Hinv1) as [Hinv2 Hh2].
  split; [exact Hinv2 | congruence].
Qed.

Lemma red_install_events_ok (num_events : nat) :
  forall derez u u' rest,
    red_installed users base u ->
    red_install_events reading users num_events derez u = Some (u', rest) ->
    red_installed users base u' /\
    red_heap (red_update_state u') = red_heap (red_update_state u).
Proof using users_at users_few.
  induction num_events as [|n IH]; intros derez u u' rest Hinv Hrun.
  - injection Hrun as <- _. split; [exact Hinv | reflexivity].
  - cbn [red_install_events] in Hrun.
    destruct (red_install_event reading users derez u) as [[u1 derez1]|] eqn:Hu1;
      [|discriminate].
    cbn [mbind option_bind] in Hrun.
    destruct (red_install_event_ok _ _ _ _ Hinv Hu1) as [Hinv1 Hh1].
    destruct (IH _ _ _ _ Hinv1 Hrun) as [Hinv2 Hh2].
    split; [exact Hinv2 | congruence].
Qed.
End RedInstall.

Lemma red_installed_done (users : list (N * PhysicalUser)) (base : N) (u : RedUpdate) :
  red_installed users base u ->
  red_tables_ok (base + N.of_nat (length users)) (red_update_state u).
Proof.
  intros [(Hr & Hd & Hbr & Hbd) Hle].
  split; [exact Hr|]. split; [exact Hd|].
  split; eapply bounded_mono; try eassumption; lia.
Qed.

Lemma red_process_update_ok (derez : list Token) (s s' : ReductionState)
    (collected : list Event) :
  red_well_formed s -> red_process_update derez s = Some (s', collected) ->
  red_well_formed s'.
Proof.
  intros Hok. unfold red_process_update.
  destruct (read_size derez) as [[num_red derez1]|]; [|discriminate].
  cbn [mbind option_bind].
  destruct (2 ^ 32 <=? num_red) eqn:Hfew1; [discriminate|]. apply N.leb_gt in Hfew1.
  destruct (red_unpack_users _ derez1 [] (red_heap s)) as [[[red_users h1] derez2]|]
    eqn:Hun1; [|discriminate].
  cbn [mbind option_bind].
  destruct (read_size derez2) as [[num_read derez3]|]; [|discriminate].
  cbn [mbind option_bind].
  destruct (2 ^ 32 <=? num_read) eqn:Hfew2; [discriminate|]. apply N.leb_gt in Hfew2.
  destruct (red_unpack_users _ derez3 [] h1) as [[[read_users h2] derez4]|]
    eqn:Hun2; [|discriminate].
  cbn [mbind option_bind].
  destruct (read_unsigned derez4) as [[num_red_events derez5]|]; [|discriminate].
  cbn [mbind option_bind].
  destruct (red_install_events false red_users _ derez5 _) as [[u1 derez6]|] eqn:Hu1;
    [|discriminate].
  cbn [mbind option_bind].
  destruct (read_unsigned derez6) as [[num_read_events derez7]|]; [|discriminate].
  cbn [mbind option_bind].
  destruct (red_install_events true read_users _ derez7 _) as [[u2 derez8]|] eqn:Hu2;
    [|discriminate].
  cbn [mbind option_bind]. intros [= <- _].
  destruct (red_unpack_users_spec _ _ _ _ _ _ _ Hun1) as (Hn1 & Hlen1 & Hat1).
  destruct (red_unpack_users_spec _ _ _ _ _ _ _ Hun2) as (Hn2 & Hlen2 & Hat2).
  cbn [length] in Hlen1, Hlen2.
  specialize (Hat1 (next_addr (red_heap s))
                (fun i user Hi => ltac:(rewrite lookup_nil in Hi; discriminate))
                ltac:(cbn [length]; lia)).
  specialize (Hat2 (next_addr h1)
                (fun i user Hi => ltac:(rewrite lookup_nil in Hi; discriminate))
                ltac:(cbn [length]; lia)).
  assert (Hfew1' : N.of_nat (length red_users) < 2 ^ 32) by lia.
  assert (Hfew2' : N.of_nat (length read_users) < 2 ^ 32) by lia.
  match type of Hu1 with
  | red_install_events _ _ _ _ ?u = _ =>
      assert (Hinv0 : red_installed red_users (next_addr (red_heap s)) u)
        by (split; [cbn [red_index red_update_state]; rewrite N.add_0_r; exact Hok
                   | cbn [red_index]; lia])
  end.
  destruct (red_install_events_ok false red_users (next_addr (red_heap s)) Hat1
              Hfew1' _ _ _ _ _ Hinv0 Hu1) as [Hinv1 Hh1].
  apply red_installed_done in Hinv1.
  replace (next_addr (red_heap s) + N.of_nat (length red_users)) with (next_addr h1)
    in Hinv1 by lia.
  match type of Hu2 with
  | red_install_events _ _ _ _ ?u = _ =>
      assert (Hinv1' : red_installed read_users (next_addr h1) u)
        by (split; [cbn [red_index red_update_state]; rewrite N.add_0_r; exact Hinv1
                   | cbn [red_index]; lia])
  end.
  destruct (red_install_events_ok true read_users (next_addr h1) Hat2
              Hfew2' _ _ _ _ _ Hinv1' Hu2) as [Hinv2 Hh2].
  apply red_installed_done in Hinv2.
  unfold red_well_formed. cbn [red_update_state red_heap] in Hh1, Hh2.
  rewrite Hh2, Hh1.
  replace (next_addr h2) with (next_addr h1 + N.of_nat (length read_users)) by lia.
  exact Hinv2.
Qed.

Lemma red_handle_send_update_ok (derez : list Token) (s s' : ReductionState)
    (collected : list Event) :
  red_well_formed s -> red_handle_send_update derez s = Some (s', collected) ->
  red_well_formed s'.
Proof.
  intros Hok. unfold red_handle_send_update.
  destruct (read_handle derez) as [[handle derez1]|]; [|discriminate].
  cbn [mbind option_bind].
  destruct (read_did derez1) as [[did derez2]|]; [|discriminate].
  cbn [mbind option_bind]. apply red_process_update_ok. exact Hok.
Qed.

Lemma empty_red_state_ok : red_well_formed empty_red_state.
Proof.
  unfold red_well_formed, red_tables_ok, empty_red_state.
  cbn [reduction_users reading_users red_heap].
  split; [apply table_summaries_empty|]. split; [apply table_summaries_empty|].
  split; apply bounded_empty.
Qed.

(** The states of a reduction view are well formed. *)
Lemma red_reachable_well_formed `{Analysis} (s : ReductionState) :
  red_reachable s -> red_well_formed s.
Proof.
  induction 1 as [ | | | | | derez s s' collected Hs IHs Hrun].
  - exact empty_red_state_ok.
  - apply red_add_initial_user_ok. assumption.
  - apply red_add_user_ok. assumption.
  - apply red_add_copy_user_ok. assumption.
  - apply red_filter_local_users_ok. assumption.
  - exact (red_handle_send_update_ok derez s s' collected IHs Hrun).
Qed.

(** C6.  In every state that a materialized view reaches by
    [add_initial_user], [add_local_user], [add_local_copy_user],
    [find_local_copy_preconditions], [filter_local_users],
    [update_gc_events], by sending an update or by reading the update of
    a view in such a state, the summary mask of every bucket of the
    current and of the previous epoch is the union of the masks of its
    users; and the same holds for the reducers and the readers of a
    reduction view in every state that it reaches by [add_initial_user],
    [add_user], [add_copy_user], [filter_local_users] or by reading an
    update.  A bucket in the single form records one mask, which is its
    summary. *)
Theorem summary_is_union_of_users `{Analysis} :
  (forall s, reachable s ->
     table_summaries (current_epoch_users s) /\
     table_summaries (previous_epoch_users s)) /\
  (forall s, red_reachable s ->
     table_summaries (reduction_users s) /\
     table_summaries (reading_users s)).
Proof.
  split.
  - intros s Hs. destruct (reachable_well_formed s Hs) as (Hc & Hp & _).
    split; assumption.
  - intros s Hs. destruct (red_reachable_well_formed s Hs) as (Hr & Hd & _).
    split; assumption.
Qed.

Lemma summary_is_union_of_users_witness :
  let ht := fun _ : Event => false in
  let vi := mkVersionInfo (fun _ => true) (fun _ => None) in
  let s1 := (@add_local_user sample_analysis ht ht sample_node read_write 3 true None
               vi 1 ∅ two_users).2 in
  @reachable sample_analysis s1 /\
  table_summaries (current_epoch_users s1) /\
  table_summaries (previous_epoch_users s1).
Proof.
  intros ht vi s1.
  assert (Hs1 : @reachable sample_analysis s1).
  { apply (@reach_add_local_user sample_analysis).
    apply (@reach_add_local_copy_user sample_analysis sample_node read_only 2 true None
             vi 2).
    apply (@reach_add_local_user sample_analysis ht ht sample_node read_write 1 true None
             vi 3 ∅).
    exact (@reach_new sample_analysis). }
  split; [exact Hs1|].
  exact (proj1 (@summary_is_union_of_users sample_analysis) s1 Hs1).
Defined.

(** *** The operations of the hierarchy

    [add_user], [find_copy_preconditions], [add_copy_user] and
    [collect_users] run the local operations on the view and on its
    ancestors: they lead from reachable states to reachable states. *)

Lemma collect_reachable `{Analysis} (l : list Event) (s : MaterializedState) :
  reachable s -> reachable (foldl (fun s e => filter_local_users e s) s l).
Proof.
  revert s. induction l as [|e l IH]; intros s Hs; [exact Hs|].
  cbn [foldl]. apply IH. apply reach_filter_local_users. exact Hs.
Qed.

Lemma add_user_above_reachable `{Analysis} (ht ht' : Event -> bool) (v :
  MaterializedView) : forall usage term_event child_color version_info mask pre,
    chain_reachable v ->
    chain_reachable (add_user_above ht ht' v usage term_event child_color version_info
                       mask pre).2.
Proof.
  induction v as [st node man | st node man p IH] using MaterializedView_chain_ind;
    intros usage term_event child_color version_info mask pre [Hst Hp].
  - cbn [add_user_above fst snd chain_reachable].
    split; [apply reach_add_local_user; exact Hst | exact I].
  - cbn [add_user_above].
    destruct (negb (is_upper_bound_node version_info node)).
    + cbn [fst snd chain_reachable].
      split; [apply reach_add_local_user; exact Hst | apply IH; exact Hp].
    + cbn [fst snd chain_reachable].
      split; [apply reach_add_local_user; exact Hst | exact Hp].
Qed.

Lemma add_user_reachable `{Analysis} (ht ht' : Event -> bool) (v : MaterializedView)
    (usage : RegionUsage) (term_event : Event) (mask : FieldMask)
    (version_info : VersionInfo) :
  chain_reachable v ->
  chain_reachable (add_user ht ht' v usage term_event mask version_info).2.
Proof.
  destruct v as [st node man par]. intros [Hst Hp]. unfold add_user.
  cbn [view_state logical_node manager parent].
  destruct par as [p|].
  - destruct (negb (is_upper_bound_node version_info node)).
    + cbn [fst snd chain_reachable].
      split; [apply reach_add_local_user; exact Hst|].
      apply add_user_above_reachable. exact Hp.
    + cbn [fst snd chain_reachable].
      split; [apply reach_add_local_user; exact Hst | exact Hp].
  - cbn [fst snd chain_reachable].
    split; [apply reach_add_local_user; exact Hst | exact I].
Qed.

Lemma find_copy_preconditions_above_reachable `{Analysis} (ht ht' : Event -> bool)
  (v : MaterializedView) : forall redop reading copy_mask child_color version_info pre,
    chain_reachable v ->
    chain_reachable (find_copy_preconditions_above ht ht' v redop reading copy_mask
                       child_color version_info pre).2.
Proof.
  induction v as [st node man | st node man p IH] using MaterializedView_chain_ind;
    intros redop reading copy_mask child_color version_info pre [Hst Hp].
  - cbn [find_copy_preconditions_above fst snd chain_reachable].
    split; [apply reach_find_local_copy_preconditions; exact Hst | exact I].
  - cbn [find_copy_preconditions_above].
    destruct (negb (is_upper_bound_node version_info node)).
    + cbn [fst snd chain_reachable].
      split; [apply reach_find_local_copy_preconditions; exact Hst | apply IH; exact Hp].
    + cbn [fst snd chain_reachable].
      split; [apply reach_find_local_copy_preconditions; exact Hst | exact Hp].
Qed.

Lemma find_copy_preconditions_reachable `{Analysis} (ht ht' : Event -> bool)
    (v : MaterializedView) (redop : ReductionOpID) (reading : bool)
    (copy_mask : FieldMask) (version_info : VersionInfo) (pre : gmap Event FieldMask) :
  chain_reachable v ->
  chain_reachable (find_copy_preconditions ht ht' v redop reading copy_mask version_info
                     pre).2.
Proof.
  destruct v as [st node man par]. intros [Hst Hp]. unfold find_copy_preconditions.
  cbn [view_state logical_node manager parent].
  destruct par as [p|].
  - destruct (negb (is_upper_bound_node version_info node)).
    + cbn [fst snd chain_reachable].
      split; [apply reach_find_local_copy_preconditions; exact Hst|].
      apply find_copy_preconditions_above_reachable. exact Hp.
    + cbn [fst snd chain_reachable].
      split; [apply reach_find_local_copy_preconditions; exact Hst | exact Hp].
  - cbn [fst snd chain_reachable].
    split; [apply reach_find_local_copy_preconditions; exact Hst | exact I].
Qed.

Lemma add_copy_user_above_reachable `{Analysis} (v : MaterializedView) :
  forall usage copy_term child_color version_info copy_mask,
    chain_reachable v ->
    chain_reachable (add_copy_user_above v usage copy_term child_color version_info
                       copy_mask).
Proof.
  induction v as [st node man | st node man p IH] using MaterializedView_chain_ind;
    intros usage copy_term child_color version_info copy_mask [Hst Hp].
  - cbn [add_copy_user_above chain_reachable].
    split; [apply reach_add_local_copy_user; exact Hst | exact I].
  - cbn [add_copy_user_above chain_reachable].
    split; [apply reach_add_local_copy_user; exact Hst|].
    destruct (negb (is_upper_bound_node version_info node)); [apply IH|]; exact Hp.
Qed.

Lemma add_copy_user_reachable `{Analysis} (v : MaterializedView) (redop : ReductionOpID)
    (copy_term : Event) (version_info : VersionInfo) (copy_mask : FieldMask)
    (reading : bool) :
  chain_reachable v ->
  chain_reachable (add_copy_user v redop copy_term version_info copy_mask reading).2.
Proof.
  intros Hv. unfold add_copy_user. destruct (event_exists copy_term); [|exact Hv].
  destruct v as [st node man par]. destruct Hv as [Hst Hp].
  cbn [view_state logical_node manager parent snd chain_reachable].
  split; [apply reach_add_local_copy_user; exact Hst|].
  destruct par as [p|]; [|exact I].
  destruct (negb (is_upper_bound_node version_info node)); [|exact Hp].
  apply add_copy_user_above_reachable. exact Hp.
Qed.

Lemma collect_users_reachable `{Analysis} (term_events : gset Event)
    (v : MaterializedView) :
  chain_reachable v -> chain_reachable (collect_users term_events v).
Proof.
  induction v as [st node man | st node man p IH] using MaterializedView_chain_ind;
    intros [Hst Hp]; cbn [collect_users chain_reachable].
  - split; [apply collect_reachable; exact Hst | exact I].
  - split; [apply collect_reachable; exact Hst | apply IH; exact Hp].
Qed.

(** *** Every event of the tables has a collection pending *)

Lemma filter_local_users_pending (e : Event) (s : MaterializedState) :
  gc_covers s -> gc_covers (filter_local_users e s).
Proof.
  intros Hg. destruct (decide (e ∈ outstanding_gc_events s)) as [Hin|Hout].
  - rewrite filter_local_users_recorded by assumption. unfold gc_covers in *.
    cbn [current_epoch_users previous_epoch_users outstanding_gc_events].
    rewrite !dom_delete_L. set_solver.
  - rewrite filter_local_users_unrecorded by assumption. exact Hg.
Qed.

Lemma collect_pending (l : list Event) (s : MaterializedState) :
  gc_covers s -> gc_covers (foldl (fun s e => filter_local_users e s) s l).
Proof.
  revert s. induction l as [|e l IH]; intros s Hg; [exact Hg|].
  cbn [foldl]. apply IH, filter_local_users_pending, Hg.
Qed.

Lemma filter_previous_entry_pending (fit : Event * FieldMask) (s : MaterializedState) :
  gc_covers s -> gc_covers (filter_previous_entry fit s).
Proof.
  intros Hg. unfold filter_previous_entry.
  destruct (previous_epoch_users s !! fit.1) as [eu|] eqn:Hl; [|exact Hg].
  assert (Hin : fit.1 ∈ dom (previous_epoch_users s)) by (apply elem_of_dom; eauto).
  unfold gc_covers in *.
  repeat case_match;
    cbn [set_heap set_previous current_epoch_users previous_epoch_users
         outstanding_gc_events];
    rewrite ?dom_delete_L, ?dom_insert_L; set_solver.
Qed.

Lemma filter_previous_users_pending (fp : gmap Event FieldMask) (s : MaterializedState) :
  gc_covers s -> gc_covers (filter_previous_users fp s).
Proof.
  unfold filter_previous_users. generalize (entries fp). intros l. revert s.
  induction l as [|fit l IH]; intros s Hg; [exact Hg|].
  cbn [foldl]. apply IH, filter_previous_entry_pending, Hg.
Qed.

Lemma filter_current_users_pending (ht : Event -> bool) (d : FieldMask)
    (s : MaterializedState) :
  gc_covers s -> gc_covers (filter_current_users ht d s).
Proof.
  intros Hg e He.
  destruct (filter_current_users_at ht d s e) as (Hgc & _ & Hat).
  cbv zeta in Hgc, Hat. rewrite Hgc. apply Hg.
  apply elem_of_union in He as [He|He]; apply elem_of_dom in He as [eu' He].
  - destruct (current_epoch_users s !! e) as [eu|] eqn:Hl.
    + apply elem_of_union_l, elem_of_dom. eauto.
    + destruct Hat as [Hc _]. congruence.
  - destruct (current_epoch_users s !! e) as [eu|] eqn:Hl.
    + apply elem_of_union_l, elem_of_dom. eauto.
    + destruct Hat as [_ Hp]. apply elem_of_union_r, elem_of_dom.
      rewrite <- Hp. eauto.
Qed.

Lemma apply_filters_pending (ht : Event -> bool) (dead : gset Event)
    (fp : gmap Event FieldMask) (d : FieldMask) (s : MaterializedState) :
  gc_covers s -> gc_covers (apply_filters ht dead fp d s).
Proof.
  intros Hg. unfold apply_filters. cbv zeta.
  pose proof (collect_pending (sorted_elements dead) s Hg) as H1.
  set (s1 := foldl _ s _) in *.
  assert (H2 : gc_covers (if decide (fp = ∅) then s1 else filter_previous_users fp s1))
    by (destruct (decide (fp = ∅)); [exact H1 | apply filter_previous_users_pending, H1]).
  destruct (negb (Mask.is_empty d)); [|exact H2].
  apply filter_current_users_pending, H2.
Qed.

Lemma add_current_user_pending (user : N * PhysicalUser) (e : Event) (mask : FieldMask)
    (f : gset Event -> gset Event) (s : MaterializedState) :
  gc_covers s -> (forall gc, {[e]} ∪ gc ⊆ f gc) ->
  gc_covers (set_gc f (add_current_user user e mask s)).
Proof.
  intros Hg Hf. unfold gc_covers in *.
  cbn [set_gc add_current_user set_current current_epoch_users previous_epoch_users
       outstanding_gc_events].
  rewrite dom_insert_L. specialize (Hf (outstanding_gc_events s)). set_solver.
Qed.

Lemma add_local_user_pending `{Analysis} (ht ht' : Event -> bool) (node : RegionTreeNode)
    (usage : RegionUsage) (term_event : Event) (base_user : bool)
    (child_color : ColorPoint) (version_info : VersionInfo) (mask : FieldMask)
    (pre : gset Event) (s : MaterializedState) :
  gc_covers s ->
  gc_covers (add_local_user ht ht' node usage term_event base_user child_color
               version_info mask pre s).2.
Proof.
  intros Hg. unfold add_local_user.
  set (a := task_analysis _ _ _ _ _ _ _ _).
  destruct (event_exists term_event).
  - destruct (new_user node usage child_color version_info (heap s)) as [user h].
    pose proof (apply_filters_pending ht' (ta_dead_events a) (ta_filter_previous a)
                  (ta_dominated a) (set_heap (fun _ => h) s) Hg) as H1.
    set (s1 := apply_filters _ _ _ _ _) in *.
    destruct (decide _) as [Hin|Hout]; cbn [snd].
    + unfold gc_covers in *.
      cbn [add_current_user set_current current_epoch_users previous_epoch_users
           outstanding_gc_events] in *.
      rewrite dom_insert_L. set_solver.
    + apply add_current_user_pending; [exact H1 | set_solver].
  - cbn [snd]. apply apply_filters_pending, Hg.
Qed.

Lemma add_local_copy_user_pending `{Analysis} (node : RegionTreeNode)
    (usage : RegionUsage) (copy_term : Event) (base_user : bool)
    (child_color : ColorPoint) (version_info : VersionInfo) (mask : FieldMask)
    (s : MaterializedState) :
  gc_covers s ->
  gc_covers (add_local_copy_user node usage copy_term base_user child_color
               version_info mask s).2.
Proof.
  intros Hg. unfold add_local_copy_user.
  destruct (new_user node usage child_color version_info (heap s)) as [user h].
  cbn [snd]. apply add_current_user_pending; [exact Hg | set_solver].
Qed.

Lemma find_local_copy_preconditions_pending `{Analysis} (ht ht' : Event -> bool)
    (node : RegionTreeNode) (redop : ReductionOpID) (reading : bool)
    (mask : FieldMask) (child_color : ColorPoint) (version_info : VersionInfo)
    (pre : gmap Event FieldMask) (s : MaterializedState) :
  gc_covers s ->
  gc_covers (find_local_copy_preconditions ht ht' node redop reading mask child_color
               version_info pre s).2.
Proof.
  intros Hg. unfold find_local_copy_preconditions. cbv zeta. cbn [snd].
  destruct (_ || _); [|exact Hg]. apply apply_filters_pending, Hg.
Qed.

Lemma add_initial_user_pending (term_event : Event) (usage : RegionUsage)
    (mask : FieldMask) (s : MaterializedState) :
  gc_covers s -> gc_covers (add_initial_user term_event usage mask s).
Proof.
  intros Hg. unfold add_initial_user, legion_new, gc_covers in *.
  cbn [add_current_user set_current set_heap current_epoch_users previous_epoch_users
       outstanding_gc_events].
  rewrite dom_insert_L. set_solver.
Qed.

Lemma update_gc_events_pending (gc_events : list Event) (s : MaterializedState) :
  gc_covers s -> gc_covers (update_gc_events gc_events s).
Proof.
  unfold update_gc_events. revert s.
  induction gc_events as [|e l IH]; intros s Hg; [exact Hg|].
  cbn [foldl]. apply IH. unfold gc_covers in *.
  cbn [set_gc current_epoch_users previous_epoch_users outstanding_gc_events].
  set_solver.
Qed.

Lemma send_view_updates_tables (is_region : bool) (handle did : N)
    (update_mask : FieldMask) (s : MaterializedState) :
  same_tables (send_view_updates is_region handle did update_mask s).2 s.
Proof.
  unfold send_view_updates.
  destruct (foldl _ _ (entries (current_epoch_users s))) as [[n1 rez1] p1].
  destruct (foldl _ _ (entries (previous_epoch_users s))) as [[n2 rez2] p2].
  destruct (foldl _ _ (entries (needed_users p2))) as [table h].
  repeat split.
Qed.

Lemma note_event_pending (e : Event) (u : Update) :
  gc_covers (set_gc (fun gc => {[e]} ∪ gc) (update_state u)) ->
  gc_covers (update_state (note_event e u)).
Proof.
  intros Hg. unfold note_event. destruct (decide _) as [Hin|Hout]; [|exact Hg].
  unfold gc_covers in *.
  cbn [set_gc current_epoch_users previous_epoch_users outstanding_gc_events] in Hg.
  set_solver.
Qed.

Lemma gc_covers_pending (e : Event) (s : MaterializedState) :
  gc_covers s -> gc_covers (set_gc (fun gc => {[e]} ∪ gc) s).
Proof.
  unfold gc_covers.
  cbn [set_gc current_epoch_users previous_epoch_users outstanding_gc_events].
  set_solver.
Qed.

Section InstallCovers.
Context (add : N * PhysicalUser -> Event -> FieldMask -> MaterializedState -> MaterializedState).
Hypothesis add_events : forall user e mask s,
  dom (current_epoch_users (add user e mask s))
    ∪ dom (previous_epoch_users (add user e mask s))
    ⊆ {[e]} ∪ (dom (current_epoch_users s) ∪ dom (previous_epoch_users s)) /\
  outstanding_gc_events (add user e mask s) = outstanding_gc_events s.

Lemma install_user_pending (index : Z) (e : Event) (mask : FieldMask) (u u' : Update) :
  gc_covers (set_gc (fun gc => {[e]} ∪ gc) (update_state u)) ->
  install_user add index e mask u = Some u' ->
  gc_covers (set_gc (fun gc => {[e]} ∪ gc) (update_state u')).
Proof using add_events.
  intros Hg. unfold install_user. destruct (0 <=? index)%Z; [|discriminate].
  destruct (update_users u !! Z.to_nat index) as [[user|]|]; try discriminate.
  intros [= <-]. cbn [update_state]. unfold gc_covers in *.
  cbn [set_gc current_epoch_users previous_epoch_users outstanding_gc_events] in *.
  match goal with
  | |- context [add user e mask ?s0] =>
      destruct (add_events user e mask s0) as [Hsub Hgc];
      assert (Hsame : same_tables s0 (update_state u))
        by (destruct (default false _); repeat split)
  end.
  destruct Hsame as (Hc & Hp & Hg0). rewrite Hc, Hp in Hsub. rewrite Hgc, Hg0.
  set_solver.
Qed.

Lemma install_entries_pending (count : nat) (e : Event) :
  forall derez u u' rest,
    gc_covers (set_gc (fun gc => {[e]} ∪ gc) (update_state u)) ->
    install_entries add count e derez u = Some (u', rest) ->
    gc_covers (set_gc (fun gc => {[e]} ∪ gc) (update_state u')).
Proof using add_events.
  induction count as [|n IH]; intros derez u u' rest Hg Hrun.
  - injection Hrun as <- _. exact Hg.
  - cbn [install_entries] in Hrun.
    destruct (read_int derez) as [[index derez1]|]; [|discriminate].
    cbn [mbind option_bind] in Hrun.
    destruct (read_mask derez1) as [[mask derez2]|]; [|discriminate].
    cbn [mbind option_bind] in Hrun.
    destruct (install_user add index e mask u) as [u1|] eqn:Hu1; [|discriminate].
    cbn [mbind option_bind] in Hrun.
    exact (IH _ _ _ _ (install_user_pending _ _ _ _ _ Hg Hu1) Hrun).
Qed.

Lemma install_event_pending (derez : list Token) (u u' : Update) (rest : list Token) :
  gc_covers (update_state u) ->
  install_event add derez u = Some (u', rest) ->
  gc_covers (update_state u').
Proof using add_events.
  intros Hg. unfold install_event.
  destruct (read_event derez) as [[e derez1]|]; [|discriminate].
  cbn [mbind option_bind].
  destruct (read_int derez1) as [[index derez2]|]; [|discriminate].
  cbn [mbind option_bind].
  apply (gc_covers_pending e) in Hg.
  destruct (index <? 0)%Z.
  - destruct (install_entries add _ e derez2 u) as [[u1 derez3]|] eqn:Hu1;
      [|discriminate].
    cbn [mbind option_bind]. intros [= <- _].
    apply note_event_pending. exact (install_entries_pending _ _ _ _ _ _ Hg Hu1).
  - destruct (read_mask derez2) as [[mask derez3]|]; [|discriminate].
    cbn [mbind option_bind].
    destruct (install_user add index e mask u) as [u1|] eqn:Hu1; [|discriminate].
    cbn [mbind option_bind]. intros [= <- _].
    apply note_event_pending. exact (install_user_pending _ _ _ _ _ Hg Hu1).
Qed.

Lemma install_events_pending (num_events : nat) :
  forall derez u u' rest,
    gc_covers (update_state u) ->
    install_events add num_events derez u = Some (u', rest) ->
    gc_covers (update_state u').
Proof using add_events.
  induction num_events as [|n IH]; intros derez u u' rest Hg Hrun.
  - injection Hrun as <- _. exact Hg.
  - cbn [install_events] in Hrun.
    destruct (install_event add derez u) as [[u1 derez1]|] eqn:Hu1; [|discriminate].
    cbn [mbind option_bind] in Hrun.
    exact (IH _ _ _ _ (install_event_pending _ _ _ _ Hg Hu1) Hrun).
Qed.
End InstallCovers.

Lemma add_current_user_events (user : N * PhysicalUser) (e : Event) (mask : FieldMask)
    (s : MaterializedState) :
  dom (current_epoch_users (add_current_user user e mask s))
    ∪ dom (previous_epoch_users (add_current_user user e mask s))
    ⊆ {[e]} ∪ (dom (current_epoch_users s) ∪ dom (previous_epoch_users s)) /\
  outstanding_gc_events (add_current_user user e mask s) = outstanding_gc_events s.
Proof.
  cbn [add_current_user set_current current_epoch_users previous_epoch_users
       outstanding_gc_events].
  rewrite dom_insert_L. split; [set_solver | reflexivity].
Qed.

Lemma add_previous_user_events (user : N * PhysicalUser) (e : Event) (mask : FieldMask)
    (s : MaterializedState) :
  dom (current_epoch_users (add_previous_user user e mask s))
    ∪ dom (previous_epoch_users (add_previous_user user e mask s))
    ⊆ {[e]} ∪ (dom (current_epoch_users s) ∪ dom (previous_epoch_users s)) /\
  outstanding_gc_events (add_previous_user user e mask s) = outstanding_gc_events s.
Proof.
  cbn [add_previous_user set_previous current_epoch_users previous_epoch_users
       outstanding_gc_events].
  rewrite dom_insert_L. split; [set_solver | reflexivity].
Qed.

Lemma handle_send_update_pending (derez : list Token) (r r' : MaterializedState)
    (collected : list Event) :
  gc_covers r -> handle_send_update derez r = Some (r', collected) -> gc_covers r'.
Proof.
  intros Hg. unfold handle_send_update.
  destruct (read_bool derez) as [[is_region derez1]|]; [|discriminate].
  cbn [mbind option_bind].
  destruct (read_handle derez1) as [[handle derez2]|]; [|discriminate].
  cbn [mbind option_bind].
  destruct (read_did derez2) as [[did derez3]|]; [|discriminate].
  cbn [mbind option_bind]. unfold process_update.
  destruct (read_size derez3) as [[num_users derez4]|]; [|discriminate].
  cbn [mbind option_bind].
  destruct (2 ^ 32 <=? num_users); [discriminate|].
  destruct (unpack_users _ _ _ _) as [[[users h] derez5]|]; [|discriminate].
  cbn [mbind option_bind].
  destruct (read_unsigned derez5) as [[num_current derez6]|]; [|discriminate].
  cbn [mbind option_bind].
  destruct (install_events add_current_user _ derez6 _) as [[u1 derez7]|] eqn:Hu1;
    [|discriminate].
  cbn [mbind option_bind].
  destruct (read_unsigned derez7) as [[num_previous derez8]|]; [|discriminate].
  cbn [mbind option_bind].
  destruct (install_events add_previous_user _ derez8 u1) as [[u2 derez9]|] eqn:Hu2;
    [|discriminate].
  cbn [mbind option_bind]. intros [= <- _].
  apply (install_events_pending add_previous_user add_previous_user_events _ _ _ _ _)
    with (2 := Hu2).
  apply (install_events_pending add_current_user add_current_user_events _ _ _ _ _)
    with (2 := Hu1).
  exact Hg.
Qed.

(** In every state of a materialized view the events of the tables have
    a collection pending. *)
Lemma reachable_gc_pending `{Analysis} (s : MaterializedState) :
  reachable s -> gc_covers s.
Proof.
  induction 1 as [ | | | | | | | is_region handle did update_mask s Hs IHs |
                   is_region handle did update_mask s r r' collected
                   Hs IHs Hr IHr Hload Hrun].
  - unfold gc_covers, empty_state.
    cbn [current_epoch_users previous_epoch_users]. rewrite dom_empty_L. set_solver.
  - apply add_initial_user_pending. assumption.
  - apply add_local_user_pending. assumption.
  - apply add_local_copy_user_pending. assumption.
  - apply find_local_copy_preconditions_pending. assumption.
  - apply filter_local_users_pending. assumption.
  - apply update_gc_events_pending. assumption.
  - destruct (send_view_updates_tables is_region handle did update_mask s)
      as (Hc & Hp & Hg).
    unfold gc_covers. rewrite Hc, Hp, Hg. exact IHs.
  - exact (handle_send_update_pending _ r r' collected IHr Hrun).
Qed.

(** *** The same for a reduction view *)

Lemma add_physical_user_pending (user : N * PhysicalUser) (reading : bool) (e : Event)
    (mask : FieldMask) (s : ReductionState) :
  dom (reduction_users (add_physical_user user reading e mask s))
    ∪ dom (reading_users (add_physical_user user reading e mask s))
    ⊆ {[e]} ∪ (dom (reduction_users s) ∪ dom (reading_users s)) /\
  red_outstanding_gc_events (add_physical_user user reading e mask s)
    = red_outstanding_gc_events s.
Proof.
  unfold add_physical_user.
  destruct reading; cbn [reduction_users reading_users red_outstanding_gc_events];
    rewrite dom_insert_L; (split; [set_solver | reflexivity]).
Qed.

Lemma red_add_user_pending `{Analysis} (man : ReductionManager) (usage : RegionUsage)
    (term_event : Event) (mask : FieldMask) (s : ReductionState) :
  red_gc_covers s -> red_gc_covers (red_add_user man usage term_event mask s).2.
Proof.
  intros Hg. unfold red_add_user, legion_new. cbv zeta. cbn [snd].
  unfold red_gc_covers in *.
  cbn [reduction_users reading_users red_outstanding_gc_events].
  match goal with
  | |- context [add_physical_user ?u ?rd ?e ?m ?s0] =>
      destruct (add_physical_user_pending u rd e m s0) as [Hsub Hgc]
  end.
  rewrite Hgc. cbn [reduction_users reading_users red_outstanding_gc_events] in *.
  set_solver.
Qed.

Lemma red_add_copy_user_pending (redop : ReductionOpID) (copy_term : Event)
    (mask : FieldMask) (reading : bool) (s : ReductionState) :
  red_gc_covers s -> red_gc_covers (red_add_copy_user redop copy_term mask reading s).2.
Proof.
  intros Hg. unfold red_add_copy_user, legion_new.
  destruct (event_exists copy_term); [|exact Hg]. cbv zeta. cbn [snd].
  unfold red_gc_covers in *.
  cbn [reduction_users reading_users red_outstanding_gc_events].
  match goal with
  | |- context [add_physical_user ?u ?rd ?e ?m ?s0] =>
      destruct (add_physical_user_pending u rd e m s0) as [Hsub Hgc]
  end.
  rewrite Hgc. cbn [reduction_users reading_users red_outstanding_gc_events] in *.
  set_solver.
Qed.

Lemma red_add_initial_user_pending `{Analysis} (term_event : Event) (usage : RegionUsage)
    (mask : FieldMask) (s : ReductionState) :
  red_gc_covers s -> red_gc_covers (red_add_initial_user term_event usage mask s).
Proof.
  intros Hg. unfold red_add_initial_user, legion_new. cbv zeta.
  unfold red_gc_covers in *.
  cbn [reduction_users reading_users red_outstanding_gc_events].
  match goal with
  | |- context [add_physical_user ?u ?rd ?e ?m ?s0] =>
      destruct (add_physical_user_pending u rd e m s0) as [Hsub Hgc]
  end.
  rewrite Hgc. cbn [reduction_users reading_users red_outstanding_gc_events] in *.
  set_solver.
Qed.

Lemma red_filter_local_users_pending (e : Event) (s : ReductionState) :
  red_gc_covers s -> red_gc_covers (red_filter_local_users e s).
Proof.
  intros Hg. destruct (decide (e ∈ red_outstanding_gc_events s)) as [Hin|Hout].
  - rewrite red_filter_local_users_recorded by assumption. unfold red_gc_covers in *.
    cbn [reduction_users reading_users red_outstanding_gc_events].
    rewrite !dom_delete_L. set_solver.
  - rewrite red_filter_local_users_unrecorded by assumption. exact Hg.
Qed.

Lemma red_gc_covers_pending (e : Event) (s : ReductionState) :
  red_gc_covers s ->
  dom (reduction_users s) ∪ dom (reading_users s)
    ⊆ {[e]} ∪ red_outstanding_gc_events s.
Proof. unfold red_gc_covers. set_solver. Qed.

Lemma red_install_entries_pending (reading : bool) (users : list (N * PhysicalUser))
    (count : nat) (e : Event) :
  forall derez u u' rest,
    dom (reduction_users (red_update_state u)) ∪ dom (reading_users (red_update_state u))
      ⊆ {[e]} ∪ red_outstanding_gc_events (red_update_state u) ->
    red_install_entries reading users count e derez u = Some (u', rest) ->
    dom (reduction_users (red_update_state u')) ∪ dom (reading_users (red_update_state u'))
      ⊆ {[e]} ∪ red_outstanding_gc_events (red_update_state u').
Proof.
  induction count as [|n IH]; intros derez u u' rest Hg Hrun.
  - injection Hrun as <- _. exact Hg.
  - cbn [red_install_entries] in Hrun.
    destruct (read_mask derez) as [[mask derez1]|]; [|discriminate].
    cbn [mbind option_bind] in Hrun.
    destruct (users !! N.to_nat (red_index u)) as [user|]; [|discriminate].
    cbn [mbind option_bind] in Hrun.
    apply IH in Hrun; [exact Hrun|]. cbn [red_update_state].
    destruct (add_physical_user_pending user reading e mask (red_update_state u))
      as [Hsub Hgc].
    rewrite Hgc. clear -Hsub Hg. set_solver.
Qed.

Lemma red_note_event_pending (e : Event) (u : RedUpdate) :
  dom (reduction_users (red_update_state u)) ∪ dom (reading_users (red_update_state u))
    ⊆ {[e]} ∪ red_outstanding_gc_events (red_update_state u) ->
  red_gc_covers (red_update_state (red_note_event e u)).
Proof.
  intros Hg. unfold red_note_event, red_gc_covers. cbv zeta.
  destruct (decide _) as [Hin|Hout];
    cbn [red_update_state reduction_users reading_users red_outstanding_gc_events];
    set_solver.
Qed.

Lemma red_install_event_pending (reading : bool) (users : list (N * PhysicalUser))
    (derez : list Token) (u u' : RedUpdate) (rest : list Token) :
  red_gc_covers (red_update_state u) ->
  red_install_event reading users derez u = Some (u', rest) ->
  red_gc_covers (red_update_state u').
Proof.
  intros Hg. unfold red_install_event.
  destruct (read_event derez) as [[e derez1]|]; [|discriminate].
  cbn [mbind option_bind].
  destruct (read_size derez1) as [[num_users derez2]|]; [|discriminate].
  cbn [mbind option_bind].
  destruct (2 ^ 32 <=? num_users); [discriminate|].
  destruct (red_install_entries reading users _ e derez2 u) as [[u1 derez3]|] eqn:Hu1;
    [|discriminate].
  cbn [mbind option_bind]. intros [= <- _].
  apply red_note_event_pending.
  exact (red_install_entries_pending _ _ _ _ _ _ _ _ (red_gc_covers_pending e _ Hg) Hu1).
Qed.

Lemma red_install_events_pending (reading : bool) (users : list (N * PhysicalUser))
    (num_events : nat) :
  forall derez u u' rest,
    red_gc_covers (red_update_state u) ->
    red_install_events reading users num_events derez u = Some (u', rest) ->
    red_gc_covers (red_update_state u').
Proof.
  induction num_events as [|n IH]; intros derez u u' rest Hg Hrun.
  - injection Hrun as <- _. exact Hg.
  - cbn [red_install_events] in Hrun.
    destruct (red_install_event reading users derez u) as [[u1 derez1]|] eqn:Hu1;
      [|discriminate].
    cbn [mbind option_bind] in Hrun.
    exact (IH _ _ _ _ (red_install_event_pending _ _ _ _ _ _ Hg Hu1) Hrun).
Qed.

Lemma red_handle_send_update_pending (derez : list Token) (s s' : ReductionState)
    (collected : list Event) :
  red_gc_covers s -> red_handle_send_update derez s = Some (s', collected) ->
  red_gc_covers s'.
Proof.
  intros Hg. unfold red_handle_send_update.
  destruct (read_handle derez) as [[handle derez0]|]; [|discriminate].
  cbn [mbind option_bind].
  destruct (read_did derez0) as [[did derez00]|]; [|discriminate].
  cbn [mbind option_bind]. unfold red_process_update.
  destruct (read_size derez00) as [[num_red derez1]|]; [|discriminate].
  cbn [mbind option_bind].
  destruct (2 ^ 32 <=? num_red); [discriminate|].
  destruct (red_unpack_users _ derez1 [] (red_heap s)) as [[[red_users h1] derez2]|];
    [|discriminate].
  cbn [mbind option_bind].
  destruct (read_size derez2) as [[num_read derez3]|]; [|discriminate].
  cbn [mbind option_bind].
  destruct (2 ^ 32 <=? num_read); [discriminate|].
  destruct (red_unpack_users _ derez3 [] h1) as [[[read_users h2] derez4]|];
    [|discriminate].
  cbn [mbind option_bind].
  destruct (read_unsigned derez4) as [[num_red_events derez5]|]; [|discriminate].
  cbn [mbind option_bind].
  destruct (red_install_events false red_users _ derez5 _) as [[u1 derez6]|] eqn:Hu1;
    [|discriminate].
  cbn [mbind option_bind].
  destruct (read_unsigned derez6) as [[num_read_events derez7]|]; [|discriminate].
  cbn [mbind option_bind].
  destruct (red_install_events true read_users _ derez7 _) as [[u2 derez8]|] eqn:Hu2;
    [|discriminate].
  cbn [mbind option_bind]. intros [= <- _].
  apply (red_install_events_pending _ _ _ _ _ _ _) with (2 := Hu2).
  cbn [red_update_state].
  apply (red_install_events_pending _ _ _ _ _ _ _) with (2 := Hu1).
  exact Hg.
Qed.

Lemma red_reachable_gc_pending `{Analysis} (s : ReductionState) :
  red_reachable s -> red_gc_covers s.
Proof.
  induction 1 as [ | | | | | derez s s' collected Hs IHs Hrun].
  - unfold red_gc_covers, empty_red_state.
    cbn [reduction_users reading_users]. rewrite dom_empty_L. set_solver.
  - apply red_add_initial_user_pending. assumption.
  - apply red_add_user_pending. assumption.
  - apply red_add_copy_user_pending. assumption.
  - apply red_filter_local_users_pending. assumption.
  - exact (red_handle_send_update_pending derez s s' collected IHs Hrun).
Qed.

(** *** Senders in a reachable state *)

(** A view in a reachable state holds no user under two events of the
    current epoch: its updates carry each such user once. *)
Lemma reachable_carried_once `{Analysis} (update_mask : FieldMask)
    (s : MaterializedState) :
  reachable s ->
  NoDup (carried_addrs (carried update_mask (current_epoch_users s))).
Proof.
  intros Hs. destruct (reachable_well_formed s Hs) as (_ & _ & _ & _ & Hu).
  apply carried_unshared. exact Hu.
Qed.

Lemma holds_user_stored (s : MaterializedState) : stored_at (holds_user s) s.
Proof.
  split; intros e eu Hl; unfold bucket_stored;
    destruct (users eu) as [[a record]|m] eqn:Hu.
  - exists e, eu. split; [left; exact Hl|]. unfold bucket_has. rewrite Hu. reflexivity.
  - intros a [record mask] Hm. exists e, eu. split; [left; exact Hl|].
    unfold bucket_has. rewrite Hu. exists mask. exact Hm.
  - exists e, eu. split; [right; exact Hl|]. unfold bucket_has. rewrite Hu. reflexivity.
  - intros a [record mask] Hm. exists e, eu. split; [right; exact Hl|].
    unfold bucket_has. rewrite Hu. exists mask. exact Hm.
Qed.

(** C7.  For every state of a materialized view and every update mask,
    the update that [send_view_updates] packs is read to its end by
    [handle_send_update] and [process_update], and leaves on the
    receiver the current-epoch table, the previous-epoch table and the
    set of events to collect that the receiver gets by calling
    [add_current_user] and [add_previous_user] itself, event by event,
    with a copy of each user of the sender whose fields overlap the
    update mask and with the overlapping fields.  The copies have the
    records of the sender's users, are new on the receiver, and are
    distinct for distinct users.  The message has the stated form: an
    event with exactly one overlapping user is followed by one index and
    mask, any other number [n] of users is announced by the count
    [-(n+1)].  The numbers of events and users are taken to fit an
    [int]. *)
Theorem update_round_trip `{Analysis} (is_region : bool) (handle did : N)
    (update_mask : FieldMask) (s r : MaterializedState) :
  reachable s ->
  (Z.of_nat (update_load (carried update_mask (current_epoch_users s)) +
             update_load (carried update_mask (previous_epoch_users s))) < 2 ^ 31)%Z ->
  let current := carried update_mask (current_epoch_users s) in
  let previous := carried update_mask (previous_epoch_users s) in
  let sent := (send_view_updates is_region handle did update_mask s).1 in
  exists idx table copy r' collected,
    sent = message is_region handle did idx table current previous /\
    handle_send_update sent r = Some (r', collected) /\
    current_epoch_users r'
      = current_epoch_users (apply_locally copy current previous r) /\
    previous_epoch_users r'
      = previous_epoch_users (apply_locally copy current previous r) /\
    outstanding_gc_events r'
      = outstanding_gc_events (apply_locally copy current previous r) /\
    forall a, a ∈ carried_addrs current ++ carried_addrs previous ->
      holds_user s a (copy a).2 /\
      next_addr (heap r) <= (copy a).1 /\
      forall b, b ∈ carried_addrs current ++ carried_addrs previous ->
        (copy b).1 = (copy a).1 -> b = a.
Proof.
  intros Hs Hload current previous sent.
  destruct (update_installed (holds_user s) is_region handle did update_mask s r
              (holds_user_stored s) (reachable_carried_once update_mask s Hs) Hload)
    as (idx & table & copy & r' & collected & Hsent & Hrun & (Hc & Hp & Hg) & Hcopy).
  exists idx, table, copy, r', collected.
  split; [exact Hsent|]. split; [exact Hrun|]. split; [exact Hc|].
  split; [exact Hp|]. split; [exact Hg|].
  intros a Ha. destruct (Hcopy a Ha) as (Hrec & [Hfresh _] & Hinj).
  split; [exact Hrec|]. split; [exact Hfresh | exact Hinj].
Qed.

Lemma sample_view_reachable : @reachable sample_analysis sample_view.
Proof.
  apply (@reach_add_local_user sample_analysis).
  apply (@reach_add_local_copy_user sample_analysis).
  apply (@reach_add_local_user sample_analysis).
  exact (@reach_new sample_analysis).
Qed.

Lemma sample_view_load :
  (Z.of_nat (update_load (carried 7%N (current_epoch_users sample_view)) +
             update_load (carried 7%N (previous_epoch_users sample_view))) < 2 ^ 31)%Z.
Proof. vm_compute. reflexivity. Qed.

(** The message of the sample: the writer and the reader under event 1
    follow the count -3; event 2 and, in the previous epoch, event 1 have
    one user each and are written bare, the latter with the index the
    first writer already has. *)
Example sample_view_message :
  (send_view_updates true 7 9 7 sample_view).1
  = [TBool true; THandle 7; TDid 9; TSize 3;
     TInt 0; TUser (mkUser read_write None None);
     TInt 1; TUser (mkUser read_only None None);
     TInt 2; TUser (mkUser read_write None None);
     TUnsigned 2;
     TEvent 1; TInt (-3); TInt 0; TMask 2; TInt 1; TMask 4;
     TEvent 2; TInt 2; TMask 1;
     TUnsigned 1;
     TEvent 1; TInt 0; TMask 1].
Proof. vm_compute. reflexivity. Qed.

Lemma update_round_trip_witness :
  (@reachable sample_analysis sample_view /\
   (Z.of_nat (update_load (carried 7%N (current_epoch_users sample_view)) +
              update_load (carried 7%N (previous_epoch_users sample_view)))
      < 2 ^ 31)%Z) /\
  exists idx table copy r' collected,
    (send_view_updates true 7 9 7 sample_view).1
      = message true 7 9 idx table
          (carried 7%N (current_epoch_users sample_view))
          (carried 7%N (previous_epoch_users sample_view)) /\
    handle_send_update (send_view_updates true 7 9 7 sample_view).1 empty_state
      = Some (r', collected) /\
    current_epoch_users r'
      = current_epoch_users
          (apply_locally copy (carried 7%N (current_epoch_users sample_view))
             (carried 7%N (previous_epoch_users sample_view)) empty_state).
Proof.
  split; [split; [exact sample_view_reachable | exact sample_view_load]|].
  destruct (@update_round_trip sample_analysis true 7 9 7 sample_view empty_state
              sample_view_reachable sample_view_load)
    as (idx & table & copy & r' & collected & Hsent & Hrun & Hc & _).
  exists idx, table, copy, r', collected.
  split; [exact Hsent|]. split; [exact Hrun | exact Hc].
Defined.

(** * Further properties of the views *)

(** ** Write-after-read tests *)

Lemma war_multi_users_spec `{Analysis} (mask : FieldMask) (m : UserMap) :
  war_multi_users mask (entries m) = true <->
  exists a record fields,
    m !! a = Some (record, fields) /\ mask &&& fields <> 0 /\
    IS_READ_ONLY (usage record) = true.
Proof.
  unfold war_multi_users. rewrite existsb_exists. split.
  - intros ([a [record fields]] & Hin & Ht). apply list_elem_of_In in Hin.
    apply elem_of_entries in Hin. cbn [fst snd] in Ht.
    apply andb_true_iff in Ht as [Ho Hr]. apply negb_true_iff in Ho.
    exists a, record, fields. split; [exact Hin|]. split; [|exact Hr].
    apply is_empty_false. exact Ho.
  - intros (a & record & fields & Hl & Ho & Hr).
    exists (a, (record, fields)). split.
    + apply list_elem_of_In, elem_of_entries. exact Hl.
    + cbn [fst snd]. rewrite Hr, andb_true_r. apply negb_true_iff.
      apply is_empty_false. exact Ho.
Qed.

Lemma reader_overlaps_multi `{Analysis} (mask summary : FieldMask) (m : UserMap) :
  reader_overlaps mask (mkEventUsers summary (multi_users m)) <->
  war_multi_users mask (entries m) = true.
Proof.
  rewrite war_multi_users_spec. unfold reader_overlaps, bucket_has, bucket_fields, mask_at.
  cbn [users]. split.
  - intros (a & record & [fields Hl] & Ho & Hr). rewrite Hl in Ho.
    exists a, record, fields. auto.
  - intros (a & record & fields & Hl & Ho & Hr). exists a, record.
    split; [exists fields; exact Hl|]. rewrite Hl. auto.
Qed.

Lemma reader_overlaps_single `{Analysis} (mask summary : FieldMask)
    (user : N * PhysicalUser) :
  reader_overlaps mask (mkEventUsers summary (single_user user)) <->
  mask &&& summary <> 0 /\ IS_READ_ONLY (usage user.2) = true.
Proof.
  unfold reader_overlaps, bucket_has, bucket_fields. cbn [users user_mask]. split.
  - intros (a & record & -> & Ho & Hr). cbn [fst snd] in *.
    destruct (decide (a = a)); [|congruence]. auto.
  - intros [Ho Hr]. exists user.1, user.2. split; [destruct user; reflexivity|].
    destruct (decide (user.1 = user.1)); [|congruence]. auto.
Qed.

(** What the walk of the current epoch observes when no reader stops
    it. *)
Lemma war_current_spec `{Analysis} (mask : FieldMask) (l : list (Event * EventUsers))
    (observed : FieldMask) :
  ((war_current mask l observed).1 = true <->
   exists cit, cit ∈ l /\ mask &&& user_mask cit.2 <> 0 /\ reader_overlaps mask cit.2) /\
  ((war_current mask l observed).1 = false ->
   (war_current mask l observed).2
   = observed ||| (mask &&& union_of ((fun it : Event * EventUsers => user_mask it.2) <$> l))).
Proof.
  revert observed. induction l as [|cit l IH]; intros observed.
  - cbn [war_current fst snd fmap list_fmap union_of foldr]. split.
    + split; [discriminate|]. intros (cit & Hin & _). inversion Hin.
    + intros _. unfold Mask.inter, Mask.union, Mask.empty.
      rewrite N.land_0_r, N.lor_0_r. reflexivity.
  - cbn [war_current].
    assert (Hstep : forall ob,
      (mask &&& user_mask cit.2 <> 0 /\ reader_overlaps mask cit.2 -> False) ->
      ((war_current mask l ob).1 = true <->
       exists c, c ∈ cit :: l /\ mask &&& user_mask c.2 <> 0 /\ reader_overlaps mask c.2)).
    { intros ob Hno. rewrite (proj1 (IH ob)). split.
      - intros (c & Hin & Hc). exists c. split; [right; exact Hin | exact Hc].
      - intros (c & Hin & Hc). apply elem_of_cons in Hin as [->|Hin].
        + exfalso. exact (Hno Hc).
        + exists c. split; assumption. }
    assert (Hunion : forall ob,
      ob ||| (mask &&& union_of ((fun it : Event * EventUsers => user_mask it.2) <$> cit :: l))
      = (ob ||| (mask &&& user_mask cit.2))
          ||| (mask &&& union_of ((fun it : Event * EventUsers => user_mask it.2) <$> l))).
    { intros ob. rewrite fmap_cons. cbn [union_of foldr].
      unfold Mask.union, Mask.inter. rewrite N.land_lor_distr_r, N.lor_assoc.
      reflexivity. }
    destruct (Mask.is_empty (mask &&& user_mask cit.2)) eqn:Hov.
    + apply is_empty_true in Hov. split.
      * apply Hstep. intros [Hne _]. exact (Hne Hov).
      * intros Hf. rewrite (proj2 (IH observed) Hf), Hunion, Hov.
        unfold Mask.union. rewrite N.lor_0_r. reflexivity.
    + apply is_empty_false in Hov.
      destruct cit as [e [summary [user|m]]]; cbn [users user_mask snd fst] in *.
      * destruct (IS_READ_ONLY (usage user.2)) eqn:Hr.
        -- cbn [fst snd]. split; [|discriminate]. split; [intros _|reflexivity].
           exists (e, mkEventUsers summary (single_user user)).
           split; [left|]. split; [exact Hov|].
           apply reader_overlaps_single. auto.
        -- split.
           ++ apply Hstep. intros [_ Hro]. apply reader_overlaps_single in Hro as [_ Hro].
              congruence.
           ++ intros Hf. rewrite (proj2 (IH _) Hf), Hunion. reflexivity.
      * destruct (war_multi_users mask (entries m)) eqn:Hw.
        -- cbn [fst snd]. split; [|discriminate]. split; [intros _|reflexivity].
           exists (e, mkEventUsers summary (multi_users m)).
           split; [left|]. split; [exact Hov|].
           apply reader_overlaps_multi. exact Hw.
        -- split.
           ++ apply Hstep. intros [_ Hro]. apply reader_overlaps_multi in Hro. congruence.
           ++ intros Hf. rewrite (proj2 (IH _) Hf), Hunion. reflexivity.
Qed.

Lemma war_previous_spec `{Analysis} (mask : FieldMask) (l : list (Event * EventUsers)) :
  war_previous mask l = true <-> exists pit, pit ∈ l /\ reader_overlaps mask pit.2.
Proof.
  unfold war_previous. rewrite existsb_exists. split.
  - intros ([e [summary [user|m]]] & Hin & Ht); apply list_elem_of_In in Hin;
      eexists; (split; [exact Hin|]); cbn [snd users user_mask] in *.
    + apply reader_overlaps_single. apply andb_true_iff in Ht as [Ho Hr].
      apply negb_true_iff, is_empty_false in Ho. auto.
    + apply reader_overlaps_multi. exact Ht.
  - intros ([e [summary [user|m]]] & Hin & Hro); apply list_elem_of_In in Hin;
      eexists; (split; [exact Hin|]); cbn [snd users user_mask] in *.
    + apply reader_overlaps_single in Hro as [Ho Hr]. rewrite Hr, andb_true_r.
      apply negb_true_iff, is_empty_false. exact Ho.
    + exact (proj1 (reader_overlaps_multi mask summary m) Hro).
Qed.

Lemma diff_inter_union (mask x : FieldMask) : mask \\\ (0 ||| (mask &&& x)) = mask \\\ x.
Proof.
  unfold Mask.diff, Mask.union, Mask.inter. rewrite N.lor_0_l.
  apply N.bits_inj_iff. intros i.
  rewrite !N.ldiff_spec, N.land_spec. destruct (N.testbit mask i), (N.testbit x i); reflexivity.
Qed.

(** X1.  [has_local_war_dependence] answers true exactly when a
    read-only user stands in the way of the request: either in the
    current epoch, in a bucket whose summary overlaps the request, a
    read-only user is recorded with a field of the request; or some
    field of the request is in no summary of the current epoch and, in
    the previous epoch, a read-only user is recorded with a field of the
    request.  The usage and the colors passed in do not enter. *)
Theorem war_dependence_is_a_reader `{Analysis} (usage : RegionUsage)
    (mask : FieldMask) (child_color local_color : ColorPoint) (s : MaterializedState) :
  has_local_war_dependence usage mask child_color local_color s = true <->
  (exists e eu, current_epoch_users s !! e = Some eu /\
                mask &&& user_mask eu <> 0 /\ reader_overlaps mask eu) \/
  (mask \\\ union_of (summaries (current_epoch_users s)) <> 0 /\
   exists e eu, previous_epoch_users s !! e = Some eu /\ reader_overlaps mask eu).
Proof.
  unfold has_local_war_dependence.
  destruct (war_current_spec mask (entries (current_epoch_users s)) Mask.empty)
    as [Hfound Hobs].
  destruct (war_current mask (entries (current_epoch_users s)) Mask.empty)
    as [found observed]. cbn [fst snd] in *.
  assert (Hcur : (exists cit, cit ∈ entries (current_epoch_users s) /\
                    mask &&& user_mask cit.2 <> 0 /\ reader_overlaps mask cit.2) <->
                 exists e eu, current_epoch_users s !! e = Some eu /\
                   mask &&& user_mask eu <> 0 /\ reader_overlaps mask eu).
  { split.
    - intros ([e eu] & Hin & Hc). apply elem_of_entries in Hin. exists e, eu. auto.
    - intros (e & eu & Hl & Hc). exists (e, eu). split; [|exact Hc].
      apply elem_of_entries. exact Hl. }
  assert (Hprev : (exists pit, pit ∈ entries (previous_epoch_users s) /\
                     reader_overlaps mask pit.2) <->
                  exists e eu, previous_epoch_users s !! e = Some eu /\
                    reader_overlaps mask eu).
  { split.
    - intros ([e eu] & Hin & Hc). apply elem_of_entries in Hin. exists e, eu. auto.
    - intros (e & eu & Hl & Hc). exists (e, eu). split; [|exact Hc].
      apply elem_of_entries. exact Hl. }
  rewrite <- Hcur, <- Hprev, <- war_previous_spec.
  destruct found.
  - split; [intros _; left; apply Hfound; reflexivity | reflexivity].
  - rewrite (Hobs eq_refl). unfold Mask.empty. rewrite diff_inter_union.
    fold (summaries (current_epoch_users s)).
    destruct (Mask.is_empty (mask \\\ union_of (summaries (current_epoch_users s))))
      eqn:He; cbn [negb].
    + apply is_empty_true in He. split; [discriminate|].
      intros [Hc | [Hne _]]; [apply Hfound in Hc; discriminate | contradiction].
    + apply is_empty_false in He. split; [intros Hw; right; auto|].
      intros [Hc | [_ Hw]]; [apply Hfound in Hc; discriminate | exact Hw].
Qed.

Lemma has_local_war_dependence_colors `{Analysis} (usage usage' : RegionUsage)
    (mask : FieldMask) (c1 c2 c1' c2' : ColorPoint) (s : MaterializedState) :
  has_local_war_dependence usage mask c1 c2 s
  = has_local_war_dependence usage' mask c1' c2' s.
Proof. reflexivity. Qed.

Lemma has_war_dependence_above_spec `{Analysis} (v : MaterializedView)
    (usage : RegionUsage) (mask : FieldMask) (child_color : ColorPoint) :
  has_war_dependence_above v usage mask child_color = true <->
  exists w, w ∈ view_chain v /\
    has_local_war_dependence usage mask None (get_color (logical_node w))
      (view_state w) = true.
Proof.
  revert child_color.
  induction v as [st node man | st node man p IH] using MaterializedView_chain_ind;
    intros child_color; cbn [has_war_dependence_above view_chain].
  - rewrite (has_local_war_dependence_colors usage usage mask child_color (get_color node)
               None (get_color node)).
    destruct (has_local_war_dependence usage mask None (get_color node) st) eqn:Hl.
    + split; [intros _|reflexivity]. exists (mkView st node man None).
      split; [left | exact Hl].
    + split; [discriminate|]. intros (w & Hin & Hw).
      apply list_elem_of_singleton in Hin. subst w. cbn in Hw. congruence.
  - rewrite (has_local_war_dependence_colors usage usage mask child_color (get_color node)
               None (get_color node)).
    destruct (has_local_war_dependence usage mask None (get_color node) st) eqn:Hl.
    + split; [intros _|reflexivity]. exists (mkView st node man (Some p)).
      split; [left | exact Hl].
    + rewrite IH. split.
      * intros (w & Hin & Hw). exists w. split; [right; exact Hin | exact Hw].
      * intros (w & Hin & Hw). apply elem_of_cons in Hin as [->|Hin].
        -- cbn in Hw. congruence.
        -- exists w. split; assumption.
Qed.

(** X2.  [has_war_dependence] never reports a dependence for a
    read-only or a reduce request.  For any other request it reports one
    exactly when [has_local_war_dependence] does on the view itself or on
    one of its ancestors. *)
Theorem war_dependence_in_hierarchy `{Analysis} (v : MaterializedView)
    (usage : RegionUsage) (mask : FieldMask) :
  has_war_dependence v usage mask = true <->
  IS_READ_ONLY usage = false /\ IS_REDUCE usage = false /\
  exists w, w ∈ view_chain v /\
    has_local_war_dependence usage mask None (get_color (logical_node w))
      (view_state w) = true.
Proof.
  unfold has_war_dependence.
  destruct (IS_READ_ONLY usage); [cbn [orb]; split; [discriminate | intros [? _]; discriminate]|].
  destruct (IS_REDUCE usage);
    [cbn [orb]; split; [discriminate | intros (_ & ? & _); discriminate]|].
  cbn [orb].
  destruct v as [st node man par]. cbn [logical_node view_state parent view_chain].
  destruct (has_local_war_dependence usage mask None (get_color node) st) eqn:Hl.
  - split; [intros _|reflexivity]. split; [reflexivity|]. split; [reflexivity|].
    exists (mkView st node man par). split; [left | exact Hl].
  - destruct par as [p|].
    + rewrite has_war_dependence_above_spec. split.
      * intros (w & Hin & Hw). split; [reflexivity|]. split; [reflexivity|].
        exists w. split; [right; exact Hin | exact Hw].
      * intros (_ & _ & w & Hin & Hw). apply elem_of_cons in Hin as [->|Hin].
        -- cbn in Hw. congruence.
        -- exists w. split; assumption.
    + split; [discriminate|]. intros (_ & _ & w & Hin & Hw).
      apply list_elem_of_singleton in Hin. subst w. cbn in Hw. congruence.
Qed.

(** ** Remote updates of a reduction view *)

Example sample_red_view_message :
  red_send_view_updates 7 9 1 sample_red_view
  = [THandle 7; TDid 9;
     TSize 1; TUser (mkUser (mkUsage REDUCE EXCLUSIVE 3) None None);
     TSize 2; TUser (mkUser read_only None None); TUser (mkUser read_only None None);
     TUnsigned 1; TEvent 1; TSize 1; TMask 1;
     TUnsigned 1; TEvent 2; TSize 2; TMask 1; TMask 2].
Proof. vm_compute. reflexivity. Qed.

Lemma red_pack_multi_fold (l : list (N * (PhysicalUser * FieldMask)))
    (rez : list Token) (queue : list (N * PhysicalUser)) :
  foldl (fun acc it => red_pack_multi_user it acc) (rez, queue) l
  = (rez ++ (TMask <$> ((fun it : N * (PhysicalUser * FieldMask) => (it.2.1, it.2.2)) <$> l).*2),
     queue ++ ((fun it : N * (PhysicalUser * FieldMask) => (it.1, it.2.1)) <$> l)).
Proof.
  revert rez queue. induction l as [|it l IH]; intros rez queue.
  - cbn. rewrite !app_nil_r. reflexivity.
  - cbn [foldl]. unfold red_pack_multi_user at 2. cbn [fst snd]. rewrite IH.
    rewrite !fmap_cons, <- !app_assoc. reflexivity.
Qed.

Lemma red_pack_events_fold (update_mask : FieldMask) (l : list (Event * EventUsers)) :
  forall events rez queue,
    events + N.of_nat (length (red_carried_events update_mask l)) < 2 ^ 32 ->
    exists queue',
      foldl (fun acc rit => red_pack_event update_mask rit acc) (events, rez, queue) l
      = (events + N.of_nat (length (red_carried_events update_mask l)),
         rez ++ red_encode_events (red_carried_events update_mask l), queue') /\
      queue'.*2 = queue.*2 ++ red_carried_records (red_carried_events update_mask l).
Proof.
  induction l as [|rit l IH]; intros events rez queue Hfit.
  - exists queue. cbn. rewrite N.add_0_r, !app_nil_r. split; reflexivity.
  - cbn [foldl red_carried_events] in *. unfold red_pack_event at 2.
    destruct (Mask.is_empty (user_mask rit.2 &&& update_mask)) eqn:Hov.
    + apply IH. exact Hfit.
    + cbn [length] in Hfit.
      assert (Hev : to_unsigned (events + 1) = events + 1).
      { unfold to_unsigned. apply N.mod_small. lia. }
      unfold red_carried_users. destruct (users rit.2) as [user|m] eqn:Hu.
      * destruct (IH (to_unsigned (events + 1))
                    (rez ++ [TEvent rit.1; TSize 1; TMask (user_mask rit.2 &&& update_mask)])
                    (queue ++ [user])) as (queue' & Hrun & Hq).
        { rewrite Hev. lia. }
        exists queue'. rewrite Hrun, Hev. split.
        -- cbn [length]. rewrite Nat2N.inj_succ, <- N.add_1_l, N.add_assoc.
           unfold red_encode_events. cbn [flat_map length fmap list_fmap fst snd app].
           rewrite <- !app_assoc. reflexivity.
        -- rewrite Hq. unfold red_carried_records. cbn [flat_map fmap list_fmap fst snd app].
           rewrite fmap_app, <- app_assoc. reflexivity.
      * rewrite red_pack_multi_fold.
        destruct (IH (to_unsigned (events + 1))
                    (rez ++ [TEvent rit.1; TSize (N.of_nat (size m))]
                         ++ (TMask <$> ((fun it : N * (PhysicalUser * FieldMask) =>
                                           (it.2.1, it.2.2)) <$> entries m).*2))
                    (queue ++ ((fun it : N * (PhysicalUser * FieldMask) =>
                                  (it.1, it.2.1)) <$> entries m)))
          as (queue' & Hrun & Hq).
        { rewrite Hev. lia. }
        exists queue'. rewrite <- app_assoc, Hrun, Hev. split.
        -- cbn [length]. rewrite Nat2N.inj_succ, <- N.add_1_l, N.add_assoc.
           unfold red_encode_events. cbn [flat_map fst snd].
           rewrite length_fmap, length_entries, <- !app_assoc. reflexivity.
        -- rewrite Hq. unfold red_carried_records. cbn [flat_map fst snd].
           rewrite fmap_app, <- app_assoc. f_equal. f_equal.
           rewrite <- !list_fmap_compose. reflexivity.
Qed.

Lemma new_users_lookup (records : list PhysicalUser) :
  forall base k record,
    records !! k = Some record ->
    new_users base records !! k = Some (base + N.of_nat k, record).
Proof.
  induction records as [|r l IH]; intros base k record Hk; [discriminate|].
  destruct k as [|k]; cbn [new_users].
  - injection Hk as ->. cbn. rewrite N.add_0_r. reflexivity.
  - change (new_users (base + 1) l !! k = Some (base + N.of_nat (S k), record)).
    rewrite (IH (base + 1) k record Hk). f_equal. f_equal. lia.
Qed.

Lemma new_users_app (l1 l2 : list PhysicalUser) (base : N) :
  new_users base (l1 ++ l2)
  = new_users base l1 ++ new_users (base + N.of_nat (length l1)) l2.
Proof.
  revert base. induction l1 as [|r l1 IH]; intros base.
  - cbn. rewrite N.add_0_r. reflexivity.
  - cbn [app new_users length]. rewrite IH. do 3 f_equal. lia.
Qed.

Lemma red_unpack_all (records : list PhysicalUser) :
  forall rest users h,
    red_unpack_users (length records) ((TUser <$> records) ++ rest) users h
    = Some (users ++ new_users (next_addr h) records, unpack_all records h, rest).
Proof.
  induction records as [|record l IH]; intros rest users h.
  - cbn. rewrite app_nil_r. reflexivity.
  - cbn [length red_unpack_users fmap list_fmap app read_user mbind option_bind].
    destruct (unpack_user_spec record h) as [Huser Hn].
    unfold unpack_all. cbn [foldl new_users].
    destruct (unpack_user record h) as [user h1]. cbn [fst snd] in *. subst user.
    rewrite IH, Hn, <- app_assoc. reflexivity.
Qed.

Lemma next_addr_unpack_all (records : list PhysicalUser) (h : UserHeap) :
  next_addr (unpack_all records h) = next_addr h + N.of_nat (length records).
Proof.
  revert h. induction records as [|record l IH]; intros h.
  - cbn. lia.
  - unfold unpack_all in *. cbn [foldl length]. rewrite IH.
    rewrite (proj2 (unpack_user_spec record h)). lia.
Qed.

Lemma red_install_entries_run (reading : bool) (users : list (N * PhysicalUser))
    (e : Event) (base : N) (ums : list (PhysicalUser * FieldMask)) :
  forall (i : N) rest collected state,
    (forall k record, ums.*1 !! k = Some record ->
       users !! (N.to_nat i + k)%nat = Some (base + i + N.of_nat k, record)) ->
    i + N.of_nat (length ums) < 2 ^ 32 ->
    red_install_entries reading users (length ums) e ((TMask <$> ums.*2) ++ rest)
      (mkRedUpdate i collected state)
    = Some (mkRedUpdate (i + N.of_nat (length ums)) collected
              (foldl (red_install_user reading e) (base + i, state) ums).2, rest) /\
    (foldl (red_install_user reading e) (base + i, state) ums).1
    = base + i + N.of_nat (length ums).
Proof.
  induction ums as [|um ums IH]; intros i rest collected state Hat Hfit.
  - cbn. rewrite !N.add_0_r. split; reflexivity.
  - cbn [length red_install_entries fmap list_fmap app read_mask mbind option_bind
         red_index red_collect_events red_update_state foldl].
    pose proof (Hat 0%nat um.1 eq_refl) as H0. rewrite Nat.add_0_r, N.add_0_r in H0.
    rewrite H0. cbn [mbind option_bind].
    cbn [length] in Hfit.
    assert (Hi : to_unsigned (i + 1) = i + 1).
    { unfold to_unsigned. apply N.mod_small. lia. }
    rewrite Hi.
    destruct (IH (i + 1) rest collected
                (add_physical_user (base + i, um.1) reading e um.2 state)) as [Hrun Haddr].
    { intros k record Hk. pose proof (Hat (S k) record Hk) as H1.
      replace (N.to_nat (i + 1) + k)%nat with (N.to_nat i + S k)%nat by lia.
      rewrite H1. do 2 f_equal. lia. }
    { lia. }
    unfold red_install_user at 2 4. cbn [fst snd].
    replace (base + i + 1) with (base + (i + 1)) by lia.
    rewrite Hrun, Haddr. split; [do 3 f_equal; lia | lia].
Qed.

Lemma red_note_event_pend (e : Event) (i : N) (collected : list Event)
    (state : ReductionState) :
  red_note_event e (mkRedUpdate i collected state)
  = mkRedUpdate i (red_pend e (collected, state)).1 (red_pend e (collected, state)).2.
Proof.
  unfold red_note_event, red_pend. cbn [red_update_state red_index red_collect_events snd fst].
  destruct (decide (e ∈ red_outstanding_gc_events state)); reflexivity.
Qed.

Lemma red_carried_records_cons (ev : Event * list (PhysicalUser * FieldMask))
    (ups : list (Event * list (PhysicalUser * FieldMask))) :
  red_carried_records (ev :: ups) = ev.2.*1 ++ red_carried_records ups.
Proof. reflexivity. Qed.

Lemma red_encode_events_cons (ev : Event * list (PhysicalUser * FieldMask))
    (ups : list (Event * list (PhysicalUser * FieldMask))) (rest : list Token) :
  red_encode_events (ev :: ups) ++ rest
  = TEvent ev.1 :: TSize (N.of_nat (length ev.2))
      :: (TMask <$> ev.2.*2) ++ red_encode_events ups ++ rest.
Proof. unfold red_encode_events. cbn [flat_map]. rewrite <- !app_assoc. reflexivity. Qed.

Lemma red_install_events_run (reading : bool) (users : list (N * PhysicalUser))
    (base : N) (ups : list (Event * list (PhysicalUser * FieldMask))) :
  forall (i : N) rest collected state,
    (forall k record, red_carried_records ups !! k = Some record ->
       users !! (N.to_nat i + k)%nat = Some (base + i + N.of_nat k, record)) ->
    i + N.of_nat (length (red_carried_records ups)) < 2 ^ 32 ->
    red_install_events reading users (length ups) (red_encode_events ups ++ rest)
      (mkRedUpdate i collected state)
    = Some (mkRedUpdate (i + N.of_nat (length (red_carried_records ups)))
              (foldl (red_install reading) (base + i, collected, state) ups).1.2
              (foldl (red_install reading) (base + i, collected, state) ups).2,
            rest).
Proof.
  induction ups as [|ev ups IH]; intros i rest collected state Hat Hfit.
  - cbn. rewrite N.add_0_r. reflexivity.
  - rewrite red_carried_records_cons, length_app, length_fmap in Hfit.
    rewrite red_carried_records_cons in Hat.
    cbn [length red_install_events]. unfold red_install_event.
    rewrite red_encode_events_cons.
    cbn [read_event read_size mbind option_bind].
    replace (2 ^ 32 <=? N.of_nat (length ev.2)) with false
      by (symmetry; apply N.leb_gt; lia).
    rewrite Nat2N.id.
    destruct (red_install_entries_run reading users ev.1 base ev.2 i
                (red_encode_events ups ++ rest) collected state) as [Hrun Haddr].
    { intros k record Hk. apply Hat. apply lookup_app_l_Some. exact Hk. }
    { lia. }
    rewrite Hrun. cbn [mbind option_bind].
    rewrite red_note_event_pend.
    cbn [foldl]. unfold red_install at 2 4.
    destruct (foldl (red_install_user reading ev.1) (base + i, state) ev.2)
      as [a' r'] eqn:Hfold. cbn [fst snd] in Haddr |- *. subst a'.
    destruct (red_pend ev.1 (collected, r')) as [collected' r''] eqn:Hpend.
    cbn [fst snd].
    replace (base + i + N.of_nat (length ev.2))
      with (base + (i + N.of_nat (length ev.2))) by lia.
    rewrite IH.
    + rewrite red_carried_records_cons, length_app, length_fmap.
      do 3 f_equal. lia.
    + intros k record Hk.
      pose proof (Hat (length ev.2 + k)%nat record) as H1.
      rewrite lookup_app_r in H1 by (rewrite length_fmap; lia).
      rewrite length_fmap in H1.
      replace (length ev.2 + k - length ev.2)%nat with k in H1 by lia.
      specialize (H1 Hk).
      replace (N.to_nat (i + N.of_nat (length ev.2)) + k)%nat
        with (N.to_nat i + (length ev.2 + k))%nat by lia.
      rewrite H1. do 2 f_equal. lia.
    + lia.
Qed.

Lemma flat_map_pack_user (queue : list (N * PhysicalUser)) :
  flat_map (fun u : N * PhysicalUser => pack_user u.2) queue = TUser <$> queue.*2.
Proof. induction queue as [|u l IH]; [reflexivity|]. cbn. rewrite IH. reflexivity. Qed.

Lemma unpack_all_app (l1 l2 : list PhysicalUser) (h : UserHeap) :
  unpack_all (l1 ++ l2) h = unpack_all l2 (unpack_all l1 h).
Proof. unfold unpack_all. apply foldl_app. Qed.

(** X3.  An update of a reduction view that [send_view_updates] packs
    is read to its end by [handle_send_update] and [process_update], and
    leaves the receiver in the state it gets by unpacking the users and
    calling [add_physical_user] itself: for every event whose summary
    overlaps the update mask, in the order of the table, one new user
    for each user of the event, with the record of the sender's user;
    the user of a single bucket with the overlapping fields, the users
    of a map all of them, with the masks they are recorded with.  The
    events for which a collection is launched are those that had none
    pending, once each.  The numbers of events and users are taken to
    fit an [unsigned]. *)
Theorem red_update_round_trip (handle did : N) (update_mask : FieldMask)
    (s r : ReductionState) :
  let reducers := red_carried update_mask (reduction_users s) in
  let readers := red_carried update_mask (reading_users s) in
  N.of_nat (length reducers + length (red_carried_records reducers)) < 2 ^ 32 ->
  N.of_nat (length readers + length (red_carried_records readers)) < 2 ^ 32 ->
  red_handle_send_update (red_send_view_updates handle did update_mask s) r
  = Some (red_apply_locally reducers readers r).
Proof.
  intros reducers readers Hfit1 Hfit2. unfold red_send_view_updates.
  destruct (red_pack_events_fold update_mask (entries (reduction_users s)) 0 [] [])
    as (queue1 & Hrun1 & Hq1).
  { change (red_carried_events update_mask (entries (reduction_users s))) with reducers.
    lia. }
  destruct (red_pack_events_fold update_mask (entries (reading_users s)) 0 [] [])
    as (queue2 & Hrun2 & Hq2).
  { change (red_carried_events update_mask (entries (reading_users s))) with readers.
    lia. }
  rewrite Hrun1, Hrun2.
  change (red_carried_events update_mask (entries (reduction_users s))) with reducers
    in Hq1 |- *.
  change (red_carried_events update_mask (entries (reading_users s))) with readers
    in Hq2 |- *.
  cbn [fmap list_fmap app] in Hq1, Hq2.
  assert (Hlen1 : length queue1 = length (red_carried_records reducers))
    by (rewrite <- Hq1, length_fmap; reflexivity).
  assert (Hlen2 : length queue2 = length (red_carried_records readers))
    by (rewrite <- Hq2, length_fmap; reflexivity).
  rewrite !flat_map_pack_user, Hq1, Hq2, Hlen1, Hlen2, !N.add_0_l.
  unfold red_handle_send_update, red_process_update.
  cbn [app read_handle read_did read_size mbind option_bind].
  replace (2 ^ 32 <=? N.of_nat (length (red_carried_records reducers))) with false
    by (symmetry; apply N.leb_gt; lia).
  rewrite Nat2N.id, red_unpack_all. cbn [mbind option_bind app read_size].
  replace (2 ^ 32 <=? N.of_nat (length (red_carried_records readers))) with false
    by (symmetry; apply N.leb_gt; lia).
  rewrite Nat2N.id, red_unpack_all. cbn [mbind option_bind app read_unsigned].
  rewrite Nat2N.id.
  set (base := next_addr (red_heap r)).
  rewrite next_addr_unpack_all. fold base.
  rewrite <- unpack_all_app.
  set (h := unpack_all (red_carried_records reducers ++ red_carried_records readers)
              (red_heap r)).
  set (r0 := mkRedState (reduction_users r) (reading_users r)
               (red_outstanding_gc_events r) (red_initial_user_events r) h).
  rewrite (red_install_events_run false (new_users base (red_carried_records reducers))
             base reducers 0).
  2:{ intros k record Hk. rewrite N.add_0_r. cbn [N.to_nat Nat.add].
      apply new_users_lookup. exact Hk. }
  2:{ lia. }
  cbn [mbind option_bind app read_unsigned red_collect_events red_update_state].
  rewrite Nat2N.id, <- (app_nil_r (red_encode_events readers)).
  rewrite (red_install_events_run true
             (new_users (base + N.of_nat (length (red_carried_records reducers)))
                (red_carried_records readers))
             (base + N.of_nat (length (red_carried_records reducers))) readers 0 []).
  2:{ intros k record Hk. rewrite N.add_0_r. cbn [N.to_nat Nat.add].
      apply new_users_lookup. exact Hk. }
  2:{ lia. }
  cbn [mbind option_bind red_collect_events red_update_state].
  unfold red_apply_locally. fold base h r0. rewrite !N.add_0_r.
  destruct (foldl (red_install false) (base, [], r0) reducers) as [[a1 c1] r1].
  cbn [fst snd].
  destruct (foldl (red_install true) _ readers) as [[a2 c2] r2].
  reflexivity.
Qed.

Lemma red_update_round_trip_witness :
  (N.of_nat (length (red_carried 1 (reduction_users sample_red_view)) +
             length (red_carried_records (red_carried 1 (reduction_users sample_red_view))))
     < 2 ^ 32 /\
   N.of_nat (length (red_carried 1 (reading_users sample_red_view)) +
             length (red_carried_records (red_carried 1 (reading_users sample_red_view))))
     < 2 ^ 32) /\
  red_handle_send_update (red_send_view_updates 7 9 1 sample_red_view) empty_red_state
  = Some (red_apply_locally (red_carried 1 (reduction_users sample_red_view))
            (red_carried 1 (reading_users sample_red_view)) empty_red_state).
Proof.
  assert (H1 : N.of_nat (length (red_carried 1 (reduction_users sample_red_view)) +
                 length (red_carried_records
                           (red_carried 1 (reduction_users sample_red_view)))) < 2 ^ 32)
    by (vm_compute; reflexivity).
  assert (H2 : N.of_nat (length (red_carried 1 (reading_users sample_red_view)) +
                 length (red_carried_records
                           (red_carried 1 (reading_users sample_red_view)))) < 2 ^ 32)
    by (vm_compute; reflexivity).
  split; [split; assumption|].
  exact (red_update_round_trip 7 9 1 sample_red_view empty_red_state H1 H2).
Defined.

(** ** Composite nodes *)

Example sample_composite_tree_finalize :
  finalize sample_composite_tree 0
  = (mkCompositeNode ∅ ∅
       [(mkCompositeNode ∅ ∅ [(mkCompositeNode ∅ ∅ [], 4)], 5);
        (mkCompositeNode ∅ ∅ [], 2)], 7).
Proof. vm_compute. reflexivity. Qed.

Lemma finalize_node (views reductions : gmap N FieldMask)
    (kids : list (CompositeNode * FieldMask)) (final_mask : FieldMask) :
  finalize (mkCompositeNode views reductions kids) final_mask
  = (mkCompositeNode views reductions (finalize_children kids final_mask).1,
     (finalize_children kids final_mask).2).
Proof. reflexivity. Qed.

Lemma finalize_children_cons (it : CompositeNode * FieldMask)
    (l : list (CompositeNode * FieldMask)) (acc : FieldMask) :
  finalize_children (it :: l) acc
  = (finalize it.1 it.2 :: (finalize_children l (acc ||| (finalize it.1 it.2).2)).1,
     (finalize_children l (acc ||| (finalize it.1 it.2).2)).2).
Proof. reflexivity. Qed.

Lemma union_of_app (l1 l2 : list FieldMask) :
  union_of (l1 ++ l2) = union_of l1 ||| union_of l2.
Proof.
  induction l1 as [|m l1 IH]; cbn [app union_of foldr].
  - rewrite union_empty_l. reflexivity.
  - fold (union_of (l1 ++ l2)). fold (union_of l1). rewrite IH.
    unfold Mask.union. rewrite N.lor_assoc. reflexivity.
Qed.

Lemma union_of_cons (m : FieldMask) (l : list FieldMask) :
  union_of (m :: l) = m ||| union_of l.
Proof. reflexivity. Qed.

Lemma masks_below_node (views reductions : gmap N FieldMask)
    (kids : list (CompositeNode * FieldMask)) :
  masks_below (mkCompositeNode views reductions kids)
  = flat_map (fun it : CompositeNode * FieldMask => it.2 :: masks_below it.1) kids.
Proof. reflexivity. Qed.

Lemma union_absorb (a b : FieldMask) : Mask.subseteq b a -> a ||| b = a.
Proof.
  intros Hs. apply N.bits_inj_iff. intros i. unfold Mask.union. rewrite N.lor_spec.
  rewrite subseteq_bits in Hs. specialize (Hs i).
  destruct (N.testbit a i), (N.testbit b i); try reflexivity.
  discriminate (Hs eq_refl).
Qed.

(** What [finalize] returns, and that the masks below a node are, as a
    union, what they were. *)
Lemma finalize_masks (n : CompositeNode) :
  forall final_mask,
    (finalize n final_mask).2 = final_mask ||| union_of (masks_below n) /\
    union_of (masks_below (finalize n final_mask).1) = union_of (masks_below n).
Proof.
  induction n as [views reductions kids IH] using CompositeNode_tree_ind.
  intros final_mask. rewrite finalize_node. cbn [fst snd]. rewrite !masks_below_node.
  revert final_mask. induction IH as [|it l Hit _ IHl]; intros final_mask.
  - cbn. rewrite union_empty_r. split; reflexivity.
  - rewrite finalize_children_cons. cbn [fst snd flat_map].
    destruct (Hit it.2) as [Hmask Hbelow].
    destruct (IHl (final_mask ||| (finalize it.1 it.2).2)) as [Hrest Hrest_below].
    rewrite Hrest, !union_of_app, !union_of_cons, Hrest_below, Hbelow, Hmask.
    split.
    + unfold Mask.union. rewrite !N.lor_assoc. reflexivity.
    + f_equal. unfold Mask.union. rewrite <- N.lor_assoc, N.lor_diag. reflexivity.
Qed.

Lemma covers_below_node (views reductions : gmap N FieldMask)
    (it : CompositeNode * FieldMask) (l : list (CompositeNode * FieldMask)) :
  covers_below (mkCompositeNode views reductions (it :: l)) <->
  Mask.subseteq (union_of (masks_below it.1)) it.2 /\ covers_below it.1 /\
  covers_below (mkCompositeNode views reductions l).
Proof. reflexivity. Qed.

Lemma finalize_covers (n : CompositeNode) :
  forall final_mask, covers_below (finalize n final_mask).1.
Proof.
  induction n as [views reductions kids IH] using CompositeNode_tree_ind.
  intros final_mask. rewrite finalize_node. cbn [fst].
  revert final_mask. induction IH as [|it l Hit _ IHl]; intros final_mask.
  - exact I.
  - rewrite finalize_children_cons. cbn [fst snd]. apply covers_below_node.
    split; [|split; [apply Hit | apply IHl]].
    destruct (finalize_masks it.1 it.2) as [Hmask Hbelow].
    rewrite Hbelow, Hmask. apply subseteq_union_r.
Qed.

Lemma finalize_again (n : CompositeNode) :
  forall final_mask acc,
    Mask.subseteq (finalize n final_mask).2 acc ->
    finalize (finalize n final_mask).1 acc = ((finalize n final_mask).1, acc).
Proof.
  induction n as [views reductions kids IH] using CompositeNode_tree_ind.
  intros final_mask acc. rewrite finalize_node. cbn [fst snd]. rewrite finalize_node.
  intros Hsub.
  enough (Hw : finalize_children (finalize_children kids final_mask).1 acc
               = ((finalize_children kids final_mask).1, acc))
    by (rewrite Hw; reflexivity).
  revert final_mask acc Hsub. induction IH as [|it l Hit _ IHl]; intros final_mask acc Hsub.
  - reflexivity.
  - rewrite finalize_children_cons in Hsub |- *. cbn [fst snd] in Hsub |- *.
    rewrite finalize_children_cons. cbn [fst snd].
    rewrite (Hit it.2 (finalize it.1 it.2).2 (subseteq_refl _)). cbn [fst snd].
    assert (Hc : Mask.subseteq (finalize it.1 it.2).2 acc).
    { refine (subseteq_trans _ _ _ _ Hsub).
      destruct (finalize_masks (mkCompositeNode views reductions l)
                  (final_mask ||| (finalize it.1 it.2).2)) as [Hm _].
      rewrite finalize_node in Hm. cbn [snd] in Hm. rewrite Hm.
      refine (subseteq_trans _ _ _ (subseteq_union_r final_mask _) (subseteq_union_l _ _)). }
    rewrite (union_absorb acc _ Hc).
    rewrite (IHl (final_mask ||| (finalize it.1 it.2).2) acc Hsub). cbn [fst snd].
    destruct (finalize it.1 it.2); reflexivity.
Qed.

(** X4.  [finalize] adds to the mask it is given the masks recorded for
    the children of the node and below them.  In the node it leaves, the
    mask recorded for each child holds every mask recorded below that
    child, at every level; and a second call changes nothing. *)
Theorem finalize_closes_masks (n : CompositeNode) (final_mask : FieldMask) :
  (finalize n final_mask).2 = final_mask ||| union_of (masks_below n) /\
  covers_below (finalize n final_mask).1 /\
  finalize (finalize n final_mask).1 (finalize n final_mask).2 = finalize n final_mask.
Proof.
  split; [exact (proj1 (finalize_masks n final_mask))|].
  split; [apply finalize_covers|].
  rewrite (finalize_again n final_mask _ (subseteq_refl _)).
  destruct (finalize n final_mask); reflexivity.
Qed.

(** *** The references a composite node takes and gives back *)

Section Bump.
Context (bump : RefCounts -> RefCounts).

Lemma counts_bump_view (x view : N) (store : ViewStore) :
  counts (bump_view bump x store) view
  = if decide (view = x) then bump (counts store view) else counts store view.
Proof.
  unfold bump_view, counts, ViewStore in *. destruct (decide (view = x)) as [->|Hne].
  - rewrite lookup_insert_eq. reflexivity.
  - rewrite lookup_insert_ne by congruence. reflexivity.
Qed.

Lemma counts_bump_entries (m : gmap N FieldMask) (view : N) (store : ViewStore) :
  counts (foldl (fun st (it : N * FieldMask) => bump_view bump it.1 st) store (entries m))
         view
  = Nat.iter (if decide (view ∈ dom m) then 1 else 0) bump (counts store view).
Proof.
  assert (Hgen : forall (l : list (N * FieldMask)) st,
            NoDup l.*1 ->
            counts (foldl (fun st (it : N * FieldMask) => bump_view bump it.1 st) st l) view
            = Nat.iter (if decide (view ∈ l.*1) then 1 else 0) bump (counts st view)).
  { induction l as [|it l IH]; intros st Hnd.
    - cbn [foldl fmap list_fmap]. destruct (decide (view ∈ [])) as [Hin|_];
        [inversion Hin | reflexivity].
    - rewrite fmap_cons in Hnd |- *. apply NoDup_cons in Hnd as [Hnotin Hnd].
      cbn [foldl]. rewrite IH by exact Hnd. rewrite counts_bump_view.
      destruct (decide (view = it.1)) as [->|Hne].
      + destruct (decide (it.1 ∈ l.*1)); [contradiction|].
        destruct (decide (it.1 ∈ it.1 :: l.*1)) as [_|Hout];
          [reflexivity | exfalso; apply Hout; left].
      + destruct (decide (view ∈ l.*1)) as [Hin|Hout].
        * destruct (decide (view ∈ it.1 :: l.*1)) as [_|Hout'];
            [reflexivity | exfalso; apply Hout'; right; exact Hin].
        * destruct (decide (view ∈ it.1 :: l.*1)) as [Hin'|_]; [|reflexivity].
          apply elem_of_cons in Hin' as [?|?]; contradiction. }
  rewrite Hgen by apply NoDup_fst_entries.
  destruct (decide (view ∈ (entries m).*1)) as [Hin|Hout],
           (decide (view ∈ dom m)) as [Hd|Hd]; try reflexivity; exfalso.
  - apply Hd. apply list_elem_of_fmap in Hin as ([k mk] & -> & Hin).
    apply elem_of_entries in Hin. apply elem_of_dom. eauto.
  - apply Hout. apply elem_of_dom in Hd as [mk Hl]. apply list_elem_of_fmap.
    exists (view, mk). split; [reflexivity | apply elem_of_entries; exact Hl].
Qed.
End Bump.

Lemma walk_foldl (g : CompositeNode -> ViewStore -> ViewStore)
    (kids : list (CompositeNode * FieldMask)) (store : ViewStore) :
  (fix walk (l : list (CompositeNode * FieldMask)) (st : ViewStore) : ViewStore :=
     match l with
     | [] => st
     | it :: l' => walk l' (g it.1 st)
     end) kids store
  = foldl (fun st (it : CompositeNode * FieldMask) => g it.1 st) store kids.
Proof.
  revert store. induction kids as [|it l IH]; intros store; [reflexivity|].
  cbn [foldl]. rewrite <- IH. reflexivity.
Qed.

Lemma held_valid_sum (views reductions : gmap N FieldMask)
    (kids : list (CompositeNode * FieldMask)) (view : N) :
  held_valid (mkCompositeNode views reductions kids) view
  = ((if decide (view ∈ dom views) then 1 else 0) +
     sum_list_with (fun it : CompositeNode * FieldMask => held_valid it.1 view) kids)%nat.
Proof. reflexivity. Qed.

Lemma held_reduction_sum (views reductions : gmap N FieldMask)
    (kids : list (CompositeNode * FieldMask)) (view : N) :
  held_reduction (mkCompositeNode views reductions kids) view
  = ((if decide (view ∈ dom reductions) then 1 else 0) +
     sum_list_with (fun it : CompositeNode * FieldMask => held_reduction it.1 view) kids)%nat.
Proof. reflexivity. Qed.

Section Walk.
Context (bump : RefCounts -> RefCounts) (with_views : bool)
        (f : CompositeNode -> ViewStore -> ViewStore).
Hypothesis f_node : forall views reductions kids store,
  f (mkCompositeNode views reductions kids) store
  = foldl (fun st (it : CompositeNode * FieldMask) => f it.1 st)
      (foldl (fun st (it : N * FieldMask) => bump_view bump it.1 st)
         (foldl (fun st (it : N * FieldMask) => bump_view bump it.1 st) store
            (if with_views then from_begin views else from_end views))
         (from_begin reductions))
      kids.

Lemma counts_walk (n : CompositeNode) :
  forall view store,
    counts (f n store) view
    = Nat.iter ((if with_views then held_valid n view else 0) + held_reduction n view)
        bump (counts store view).
Proof using f_node.
  induction n as [views reductions kids IH] using CompositeNode_tree_ind.
  intros view store. rewrite f_node.
  assert (Hkids : forall st,
            counts (foldl (fun st (it : CompositeNode * FieldMask) => f it.1 st) st kids)
                   view
            = Nat.iter
                ((if with_views
                  then sum_list_with
                         (fun it : CompositeNode * FieldMask => held_valid it.1 view) kids
                  else 0)
                 + sum_list_with
                     (fun it : CompositeNode * FieldMask => held_reduction it.1 view) kids)
                bump (counts st view)).
  { induction IH as [|it l Hit _ IHl]; intros st.
    - cbn [foldl sum_list_with]. destruct with_views; reflexivity.
    - cbn [foldl sum_list_with]. rewrite IHl, Hit, <- Nat.iter_add. f_equal.
      destruct with_views; lia. }
  rewrite Hkids. unfold from_begin at 1. rewrite counts_bump_entries, <- Nat.iter_add.
  rewrite held_valid_sum, held_reduction_sum.
  destruct with_views.
  - unfold from_begin. rewrite counts_bump_entries, <- Nat.iter_add. f_equal. lia.
  - rewrite from_end_nil. cbn [foldl]. f_equal. lia.
Qed.
End Walk.

Lemma notify_active_counts (n : CompositeNode) (view : N) (store : ViewStore) :
  counts (notify_active n store) view
  = Nat.iter (held_valid n view + held_reduction n view)
      (fun c => mkRefCounts (gc_references c + 1) (valid_references c))
      (counts store view).
Proof.
  apply (counts_walk _ true notify_active).
  intros views reductions kids st. cbn [notify_active]. rewrite walk_foldl. reflexivity.
Qed.

Lemma notify_inactive_counts (n : CompositeNode) (view : N) (store : ViewStore) :
  counts (notify_inactive n store) view
  = Nat.iter (held_reduction n view)
      (fun c => mkRefCounts (gc_references c - 1) (valid_references c))
      (counts store view).
Proof.
  apply (counts_walk _ false notify_inactive).
  intros views reductions kids st. cbn [notify_inactive]. rewrite walk_foldl. reflexivity.
Qed.

Lemma notify_valid_counts (n : CompositeNode) (view : N) (store : ViewStore) :
  counts (notify_valid n store) view
  = Nat.iter (held_valid n view + held_reduction n view)
      (fun c => mkRefCounts (gc_references c) (valid_references c + 1))
      (counts store view).
Proof.
  apply (counts_walk _ true notify_valid).
  intros views reductions kids st. cbn [notify_valid]. rewrite walk_foldl. reflexivity.
Qed.

Lemma notify_invalid_counts (n : CompositeNode) (view : N) (store : ViewStore) :
  counts (notify_invalid n store) view
  = Nat.iter (held_reduction n view)
      (fun c => mkRefCounts (gc_references c) (valid_references c + 1))
      (counts store view).
Proof.
  apply (counts_walk _ false notify_invalid).
  intros views reductions kids st. cbn [notify_invalid]. rewrite walk_foldl. reflexivity.
Qed.

Lemma iter_gc (k : nat) (d : Z) (c : RefCounts) :
  Nat.iter k (fun c => mkRefCounts (gc_references c + d) (valid_references c)) c
  = mkRefCounts (gc_references c + Z.of_nat k * d) (valid_references c).
Proof.
  induction k as [|k IH].
  - cbn. rewrite Z.add_0_r. destruct c; reflexivity.
  - rewrite Nat.iter_succ, IH. cbn [gc_references valid_references]. f_equal. lia.
Qed.

Lemma iter_valid (k : nat) (d : Z) (c : RefCounts) :
  Nat.iter k (fun c => mkRefCounts (gc_references c) (valid_references c + d)) c
  = mkRefCounts (gc_references c) (valid_references c + Z.of_nat k * d).
Proof.
  induction k as [|k IH].
  - cbn. rewrite Z.add_0_r. destruct c; reflexivity.
  - rewrite Nat.iter_succ, IH. cbn [gc_references valid_references]. f_equal. lia.
Qed.

(** X5.  What the two cycles of a composite node leave on the counters
    of a view, whatever the tree.  [notify_inactive] gives back the gc
    references that [notify_active] took for the reduction views of the
    tree and none of those it took for the valid views: after the cycle
    the view has one gc reference more for every node that holds it as a
    valid view, and its valid references are untouched.  After
    [notify_valid] and [notify_invalid] the view has one valid reference
    more for every node that holds it as a valid view and two more for
    every node that holds it as a reduction view, and its gc references
    are untouched.  A tree without valid views goes through the first
    cycle with every counter as it was. *)
Theorem composite_cycle_references (n : CompositeNode) (store : ViewStore) (view : N) :
  let active := notify_inactive n (notify_active n store) in
  let valid := notify_invalid n (notify_valid n store) in
  gc_references (counts active view)
    = (gc_references (counts store view) + Z.of_nat (held_valid n view))%Z /\
  valid_references (counts active view) = valid_references (counts store view) /\
  valid_references (counts valid view)
    = (valid_references (counts store view) + Z.of_nat (held_valid n view)
       + 2 * Z.of_nat (held_reduction n view))%Z /\
  gc_references (counts valid view) = gc_references (counts store view).
Proof.
  intros active valid. subst active valid.
  rewrite notify_inactive_counts, notify_active_counts.
  rewrite notify_invalid_counts, notify_valid_counts.
  rewrite (iter_gc _ 1), (iter_gc _ (-1)), (iter_valid _ 1), (iter_valid _ 1).
  cbn [gc_references valid_references]. repeat split; lia.
Qed.

(** *** The next root *)

Lemma unique_dominator_spec `{RegionTree} {C} (node_of : C -> RegionTreeNode)
    (target : RegionTreeNode) (l : list C) :
  forall child c,
    unique_dominator node_of target l child = Some c ->
    (forall c', c' ∈ l -> dominates (node_of c') target = false ->
                intersects_with (node_of c') target = false) /\
    match child with
    | Some c0 => c = c0 /\ forall c', c' ∈ l -> dominates (node_of c') target = false
    | None =>
        exists l1 l2, l = l1 ++ c :: l2 /\ dominates (node_of c) target = true /\
          forall c', c' ∈ l1 ++ l2 -> dominates (node_of c') target = false
    end.
Proof.
  induction l as [|x l IH]; intros child c Hrun.
  - cbn in Hrun. subst child. split; [intros c' Hin; inversion Hin|].
    split; [reflexivity|]. intros c' Hin. inversion Hin.
  - cbn [unique_dominator] in Hrun.
    destruct (dominates (node_of x) target) eqn:Hd.
    + destruct child as [c0|]; [discriminate|].
      destruct (IH _ _ Hrun) as [Hint [-> Hnone]]. split.
      * intros c' Hin Hnd. apply elem_of_cons in Hin as [->|Hin]; [congruence|].
        exact (Hint c' Hin Hnd).
      * exists [], l. split; [reflexivity|]. split; [exact Hd | exact Hnone].
    + destruct (intersects_with (node_of x) target) eqn:Hi; [discriminate|].
      destruct (IH _ _ Hrun) as [Hint Hrest]. split.
      * intros c' Hin Hnd. apply elem_of_cons in Hin as [->|Hin]; [exact Hi|].
        exact (Hint c' Hin Hnd).
      * destruct child as [c0|].
        -- destruct Hrest as [-> Hnone]. split; [reflexivity|].
           intros c' Hin. apply elem_of_cons in Hin as [->|Hin]; [exact Hd|].
           exact (Hnone c' Hin).
        -- destruct Hrest as (l1 & l2 & -> & Hc & Hnone).
           exists (x :: l1), l2. split; [reflexivity|]. split; [exact Hc|].
           intros c' Hin. rewrite <- app_comm_cons in Hin.
           apply elem_of_cons in Hin as [->|Hin]; [exact Hd|]. exact (Hnone c' Hin).
Qed.

(** X6.  The child that [find_next_root] returns is a child of the node
    whose logical node dominates the target.  When the node has several
    children that are not all disjoint, the child returned is moreover
    the only one that dominates the target, and no other child
    intersects it. *)
Theorem find_next_root_dominates `{RegionTree} {C} (node_of : C -> RegionTreeNode)
    (logical_node : RegionTreeNode) (children : list C) (target : RegionTreeNode)
    (c : C) :
  find_next_root node_of logical_node children target = Some c ->
  (exists l1 l2, children = l1 ++ c :: l2) /\
  dominates (node_of c) target = true /\
  (are_all_children_disjoint logical_node = false ->
   exists l1 l2, children = l1 ++ c :: l2 /\
     forall c', c' ∈ l1 ++ l2 ->
       dominates (node_of c') target = false /\
       intersects_with (node_of c') target = false).
Proof.
  unfold find_next_root. destruct children as [|x [|y l]]; [discriminate| |].
  - destruct (dominates (node_of x) target) eqn:Hd; [|discriminate].
    intros [= ->]. split; [exists [], []; reflexivity|]. split; [exact Hd|].
    intros _. exists [], []. split; [reflexivity|]. intros c' Hin. inversion Hin.
  - destruct (are_all_children_disjoint logical_node).
    + intros Hfind. apply find_some in Hfind as [Hin Hd].
      split; [|split; [exact Hd | discriminate]].
      apply list_elem_of_In, list_elem_of_split in Hin. exact Hin.
    + intros Hrun. destruct (unique_dominator_spec _ _ _ _ _ Hrun)
        as [Hint (l1 & l2 & Heq & Hd & Hnone)].
      split; [exists l1, l2; exact Heq|]. split; [exact Hd|].
      intros _. exists l1, l2. split; [exact Heq|].
      intros c' Hin. split; [exact (Hnone c' Hin)|].
      apply Hint; [|exact (Hnone c' Hin)].
      rewrite Heq. apply elem_of_app in Hin as [Hin|Hin].
      * apply elem_of_app. left. exact Hin.
      * apply elem_of_app. right. right. exact Hin.
Qed.

Lemma find_next_root_dominates_witness :
  @find_next_root sample_region_tree _ id (mkNode 0 None (fun _ _ => false))
    sample_children (mkNode 9 None (fun _ _ => false))
  = Some (mkNode 1 None (fun _ _ => false)) /\
  @dominates sample_region_tree (mkNode 1 None (fun _ _ => false))
    (mkNode 9 None (fun _ _ => false)) = true.
Proof.
  assert (Hrun : @find_next_root sample_region_tree _ id (mkNode 0 None (fun _ _ => false))
                   sample_children (mkNode 9 None (fun _ _ => false))
                 = Some (mkNode 1 None (fun _ _ => false))) by reflexivity.
  split; [exact Hrun|].
  exact (proj1 (proj2 (@find_next_root_dominates sample_region_tree _ id _ _ _ _ Hrun))).
Defined.

(** *** Capturing reduction views *)

Lemma capture_reduction_fold (capture_mask : FieldMask) (l : list (N * FieldMask)) :
  NoDup l.*1 ->
  forall held log,
    let r := foldl (capture_reduction capture_mask) (held, log) l in
    (forall view,
       r.1 !! view =
       match list_to_map (M := gmap N FieldMask) l !! view with
       | Some m =>
           if Mask.is_empty (m &&& capture_mask) then held !! view
           else Some (view_mask held view ||| (m &&& capture_mask))
       | None => held !! view
       end) /\
    r.2 = log ++ (List.filter (fun it : N * FieldMask =>
                     negb (Mask.is_empty (it.2 &&& capture_mask)) &&
                     bool_decide (held !! it.1 = None)) l).*1.
Proof.
  induction l as [|it l IH]; intros Hnd held log.
  - cbn. rewrite app_nil_r. split; [intros view; reflexivity | reflexivity].
  - rewrite fmap_cons in Hnd. apply NoDup_cons in Hnd as [Hnotin Hnd].
    cbn [foldl]. unfold capture_reduction at 2 4. cbn [fst snd].
    assert (Hfresh : list_to_map (M := gmap N FieldMask) l !! it.1 = None)
      by (apply not_elem_of_list_to_map_1; exact Hnotin).
    cbn [List.filter list_to_map foldr].
    destruct (Mask.is_empty (it.2 &&& capture_mask)) eqn:Hov; cbn [negb andb].
    + destruct (IH Hnd held log) as [Hmap Hlog]. cbv zeta in Hmap, Hlog. split.
      * intros view. rewrite Hmap. destruct (decide (view = it.1)) as [->|Hne].
        -- rewrite Hfresh, lookup_insert_eq, Hov. reflexivity.
        -- rewrite lookup_insert_ne by congruence. reflexivity.
      * exact Hlog.
    + assert (Hsame : forall held' : gmap N FieldMask,
                (forall x : N * FieldMask, x ∈ l -> held' !! x.1 = held !! x.1) ->
                List.filter (fun x : N * FieldMask =>
                     negb (Mask.is_empty (x.2 &&& capture_mask)) &&
                     bool_decide (held' !! x.1 = None)) l
                = List.filter (fun x : N * FieldMask =>
                     negb (Mask.is_empty (x.2 &&& capture_mask)) &&
                     bool_decide (held !! x.1 = None)) l).
      { intros held' Hh. apply filter_ext_in. intros x Hx.
        apply list_elem_of_In in Hx. rewrite (Hh x Hx). reflexivity. }
      assert (Hother : forall (v : FieldMask) (x : N * FieldMask),
                x ∈ l -> <[it.1 := v]> held !! x.1 = held !! x.1).
      { intros v x Hx. apply lookup_insert_ne. intros Heq. apply Hnotin.
        rewrite Heq. apply list_elem_of_fmap. exists x. split; [reflexivity | exact Hx]. }
      destruct (held !! it.1) as [m|] eqn:Hheld; cbn [bool_decide].
      * destruct (IH Hnd (<[it.1 := m ||| (it.2 &&& capture_mask)]> held) log)
          as [Hmap Hlog]. cbv zeta in Hmap, Hlog. split.
        -- intros view. rewrite Hmap. destruct (decide (view = it.1)) as [->|Hne].
           ++ rewrite Hfresh, !lookup_insert_eq, Hov. unfold view_mask. rewrite Hheld.
              reflexivity.
           ++ rewrite !lookup_insert_ne by congruence. unfold view_mask.
              rewrite lookup_insert_ne by congruence. reflexivity.
        -- rewrite Hlog, (Hsame _ (Hother _)).
           rewrite bool_decide_eq_false_2 by congruence. reflexivity.
      * destruct (IH Hnd (<[it.1 := it.2 &&& capture_mask]> held) (log ++ [it.1]))
          as [Hmap Hlog]. cbv zeta in Hmap, Hlog. split.
        -- intros view. rewrite Hmap. destruct (decide (view = it.1)) as [->|Hne].
           ++ rewrite Hfresh, !lookup_insert_eq, Hov. unfold view_mask. rewrite Hheld.
              rewrite union_empty_l. reflexivity.
           ++ rewrite !lookup_insert_ne by congruence. unfold view_mask.
              rewrite lookup_insert_ne by congruence. reflexivity.
        -- rewrite Hlog, (Hsame _ (Hother _)).
           rewrite bool_decide_eq_true_2 by reflexivity.
           rewrite fmap_cons, <- app_assoc. reflexivity.
Qed.

Lemma inter_empty_l (m : FieldMask) : Mask.empty &&& m = Mask.empty.
Proof. reflexivity. Qed.

Lemma NoDup_filter_keys {A} (P : N * A -> bool) (l : list (N * A)) :
  NoDup l.*1 -> NoDup (List.filter P l).*1.
Proof.
  induction l as [|it l IH]; intros Hnd; [constructor|].
  rewrite fmap_cons in Hnd. apply NoDup_cons in Hnd as [Hnotin Hnd].
  cbn [List.filter]. destruct (P it); [|exact (IH Hnd)].
  rewrite fmap_cons. apply NoDup_cons. split; [|exact (IH Hnd)].
  intros Hin. apply Hnotin. apply list_elem_of_fmap in Hin as (x & -> & Hx).
  apply list_elem_of_In, filter_In in Hx as [Hx _].
  apply list_elem_of_fmap. exists x. split; [reflexivity | apply list_elem_of_In; exact Hx].
Qed.

Lemma union_idem_r (a b : FieldMask) : a ||| b ||| b = a ||| b.
Proof. unfold Mask.union. rewrite <- N.lor_assoc, N.lor_diag. reflexivity. Qed.

(** X7.  After [capture_reductions] the node holds, for every view it
    was given with a field of the capture mask, the fields it held for
    the view and the captured ones; nothing else of the node changes.  A
    resource reference is taken once on each view that the node did not
    hold and now holds, and on no other; and a second capture of the
    same views changes nothing and takes no reference. *)
Theorem capture_reductions_once (capture_mask : FieldMask) (views : gmap N FieldMask)
    (n : CompositeNode) :
  let r := capture_reductions capture_mask views n in
  (forall view,
     reduction_views r.1 !! view =
     if Mask.is_empty (view_mask views view &&& capture_mask)
     then reduction_views n !! view
     else Some (view_mask (reduction_views n) view
                ||| (view_mask views view &&& capture_mask))) /\
  valid_views r.1 = valid_views n /\ children r.1 = children n /\
  NoDup r.2 /\
  (forall view, view ∈ r.2 <->
     reduction_views n !! view = None /\ view_mask views view &&& capture_mask <> 0) /\
  capture_reductions capture_mask views r.1 = (r.1, []).
Proof.
  assert (Hspec : forall held : gmap N FieldMask,
    let r := foldl (capture_reduction capture_mask) (held, []) (entries views) in
    (forall view,
       r.1 !! view =
       if Mask.is_empty (view_mask views view &&& capture_mask) then held !! view
       else Some (view_mask held view ||| (view_mask views view &&& capture_mask))) /\
    r.2 = (List.filter (fun it : N * FieldMask =>
                     negb (Mask.is_empty (it.2 &&& capture_mask)) &&
                     bool_decide (held !! it.1 = None)) (entries views)).*1 /\
    NoDup r.2 /\
    forall view, view ∈ r.2 <->
      held !! view = None /\ view_mask views view &&& capture_mask <> 0).
  { intros held r.
    destruct (capture_reduction_fold capture_mask (entries views)
                (NoDup_fst_entries views) held []) as [Hmap Hlog].
    cbv zeta in Hmap, Hlog. fold r in Hmap, Hlog. cbn [app] in Hlog.
    split; [|split; [exact Hlog|split]].
    - intros view. rewrite Hmap, list_to_map_entries. unfold view_mask.
      destruct (views !! view) as [m|]; cbn [default]; [reflexivity|].
      rewrite inter_empty_l. reflexivity.
    - rewrite Hlog. apply NoDup_filter_keys, NoDup_fst_entries.
    - intros view. rewrite Hlog. rewrite list_elem_of_fmap. split.
      + intros ([k m] & -> & Hx). apply list_elem_of_In, filter_In in Hx as [Hx Ht].
        apply list_elem_of_In, elem_of_entries in Hx. cbn [fst snd] in *.
        apply andb_true_iff in Ht as [Ho Hh]. apply bool_decide_eq_true in Hh.
        apply negb_true_iff, is_empty_false in Ho.
        split; [exact Hh|]. unfold view_mask. rewrite Hx. exact Ho.
      + intros [Hh Ho]. unfold view_mask in Ho.
        destruct (views !! view) as [m|] eqn:Hv; [|exfalso; apply Ho; reflexivity].
        exists (view, m). split; [reflexivity|].
        apply list_elem_of_In, filter_In. split.
        * apply list_elem_of_In, elem_of_entries. exact Hv.
        * cbn [fst snd]. apply andb_true_iff. split.
          -- apply negb_true_iff, is_empty_false. exact Ho.
          -- apply bool_decide_eq_true. exact Hh. }
  intros r. unfold capture_reductions in r.
  destruct (Hspec (reduction_views n)) as (Hmap & _ & Hnd & Hin). cbv zeta in Hmap, Hnd, Hin.
  set (f := foldl (capture_reduction capture_mask) (reduction_views n, []) (entries views))
    in *.
  subst r. cbn [fst snd reduction_views valid_views children].
  split; [exact Hmap|]. split; [reflexivity|]. split; [reflexivity|].
  split; [exact Hnd|]. split; [exact Hin|].
  unfold capture_reductions. cbn [reduction_views valid_views children].
  destruct (Hspec f.1) as (Hmap2 & _ & _ & Hin2). cbv zeta in Hmap2, Hin2.
  set (g := foldl (capture_reduction capture_mask) (f.1, []) (entries views)) in *.
  assert (H1 : g.1 = f.1).
  { apply map_eq. intros view. rewrite Hmap2.
    destruct (Mask.is_empty (view_mask views view &&& capture_mask)) eqn:Hov;
      [reflexivity|].
    rewrite Hmap, Hov. f_equal. unfold view_mask at 1. rewrite Hmap, Hov. cbn [default].
    apply union_idem_r. }
  assert (H2 : g.2 = []).
  { destruct g.2 as [|view l] eqn:Hg; [reflexivity|]. exfalso.
    destruct (proj1 (Hin2 view)) as [Hnone Hov]; [left|].
    rewrite Hmap in Hnone. apply is_empty_false in Hov. rewrite Hov in Hnone.
    discriminate. }
  rewrite H1, H2. reflexivity.
Qed.

(** *** The valid views of a node *)

Lemma add_valid_view_fold (need_check : bool) (search_mask : FieldMask)
    (l : list (N * FieldMask)) :
  NoDup l.*1 ->
  forall (valid : gmap N FieldMask) view,
    foldl (add_valid_view need_check search_mask) valid l !! view =
    match list_to_map (M := gmap N FieldMask) l !! view with
    | Some m =>
        if Mask.is_empty (search_mask &&& m) then valid !! view
        else if need_check then Some (view_mask valid view ||| (search_mask &&& m))
        else Some (search_mask &&& m)
    | None => valid !! view
    end.
Proof.
  induction l as [|it l IH]; intros Hnd valid view; [reflexivity|].
  rewrite fmap_cons in Hnd. apply NoDup_cons in Hnd as [Hnotin Hnd].
  cbn [foldl list_to_map foldr]. rewrite (IH Hnd).
  assert (Hfresh : list_to_map (M := gmap N FieldMask) l !! it.1 = None)
    by (apply not_elem_of_list_to_map_1; exact Hnotin).
  unfold add_valid_view.
  destruct (decide (view = it.1)) as [->|Hne].
  - rewrite Hfresh, lookup_insert_eq.
    destruct (Mask.is_empty (search_mask &&& it.2)); [reflexivity|].
    destruct need_check; [|apply lookup_insert_eq].
    unfold view_mask. destruct (valid !! it.1) as [m|]; rewrite lookup_insert_eq;
      cbn [default]; [reflexivity | rewrite union_empty_l; reflexivity].
  - rewrite lookup_insert_ne by congruence.
    assert (Hsame : forall valid' : gmap N FieldMask,
              valid' !! view = valid !! view ->
              match list_to_map (M := gmap N FieldMask) l !! view with
              | Some m =>
                  if Mask.is_empty (search_mask &&& m) then valid' !! view
                  else if need_check
                       then Some (view_mask valid' view ||| (search_mask &&& m))
                       else Some (search_mask &&& m)
              | None => valid' !! view
              end
              = match list_to_map (M := gmap N FieldMask) l !! view with
                | Some m =>
                    if Mask.is_empty (search_mask &&& m) then valid !! view
                    else if need_check
                         then Some (view_mask valid view ||| (search_mask &&& m))
                         else Some (search_mask &&& m)
                | None => valid !! view
                end).
    { intros valid' Hv. unfold view_mask. rewrite Hv. reflexivity. }
    apply Hsame.
    destruct (Mask.is_empty (search_mask &&& it.2)); [reflexivity|].
    destruct need_check; [|apply lookup_insert_ne; congruence].
    destruct (valid !! it.1); apply lookup_insert_ne; congruence.
Qed.

Lemma subviews_fold (f : N -> N) (l : list (N * FieldMask)) :
  forall (valid : gmap N FieldMask) view m,
    foldl (fun valid (it : N * FieldMask) => <[f it.1 := it.2]> valid) valid l !! view
      = Some m ->
    valid !! view = Some m \/ exists it, it ∈ l /\ it.2 = m.
Proof.
  induction l as [|it l IH]; intros valid view m Hl; [left; exact Hl|].
  cbn [foldl] in Hl. apply IH in Hl as [Hl | (x & Hx & Hm)].
  - destruct (decide (view = f it.1)) as [->|Hne].
    + rewrite lookup_insert_eq in Hl. injection Hl as <-. right. exists it.
      split; [left | reflexivity].
    + rewrite lookup_insert_ne in Hl by congruence. left. exact Hl.
  - right. exists x. split; [right; exact Hx | exact Hm].
Qed.

Lemma subseteq_inter_l (a b : FieldMask) : Mask.subseteq (a &&& b) a.
Proof.
  apply subseteq_bits. intros i. unfold Mask.inter. rewrite N.land_spec.
  intros Hi. apply andb_true_iff in Hi as [Hi _]. exact Hi.
Qed.

Lemma subseteq_inter_r (a b : FieldMask) : Mask.subseteq (a &&& b) b.
Proof.
  apply subseteq_bits. intros i. unfold Mask.inter. rewrite N.land_spec.
  intros Hi. apply andb_true_iff in Hi as [_ Hi]. exact Hi.
Qed.

Lemma subseteq_diff_l (a b : FieldMask) : Mask.subseteq (a \\\ b) a.
Proof.
  apply subseteq_bits. intros i. unfold Mask.diff. rewrite N.ldiff_spec.
  intros Hi. apply andb_true_iff in Hi as [Hi _]. exact Hi.
Qed.

Lemma diff_inter_disjoint (a b m : FieldMask) :
  Mask.subseteq m (a \\\ b) -> m &&& b = 0.
Proof.
  intros Hs. apply mask_zero_bits. intros i. unfold Mask.inter. rewrite N.land_spec.
  rewrite subseteq_bits in Hs. specialize (Hs i). unfold Mask.diff in Hs.
  rewrite N.ldiff_spec in Hs.
  destruct (N.testbit m i), (N.testbit b i); try reflexivity.
  specialize (Hs eq_refl). apply andb_true_iff in Hs as [_ Hs]. discriminate.
Qed.

Lemma union_nonzero_r (a b : FieldMask) : b <> 0 -> a ||| b <> 0.
Proof.
  intros Hb Hz. apply Hb. unfold Mask.union in Hz. apply N.lor_eq_0_iff in Hz as [_ Hz].
  exact Hz.
Qed.

Lemma subseteq_union_both (a b c : FieldMask) :
  Mask.subseteq a c -> Mask.subseteq b c -> Mask.subseteq (a ||| b) c.
Proof.
  rewrite !subseteq_bits. intros Ha Hb i. unfold Mask.union. rewrite N.lor_spec.
  intros Hi. apply orb_true_iff in Hi as [Hi|Hi]; auto.
Qed.

Lemma inter_union_distr (a b d : FieldMask) : (a ||| b) &&& d = (a &&& d) ||| (b &&& d).
Proof. unfold Mask.inter, Mask.union. apply N.land_lor_distr_l. Qed.

(** X8.  The views that [find_valid_views] reports, starting from no
    view: each with a mask that is not empty and lies in the search mask,
    and of the fields that are dirty at the node only those that the node
    itself holds for the view.  A view of the node with a field of the
    search mask is reported with every such field. *)
Theorem find_valid_views_within_search (get_subview : N -> ColorPoint -> N)
    (n : CompositeLevel) (search_mask : FieldMask) :
  let valid := find_valid_views get_subview n search_mask ∅ in
  (forall view m, valid !! view = Some m ->
     m <> 0 /\ Mask.subseteq m search_mask /\
     (level_parent n <> None ->
      Mask.subseteq (m &&& level_dirty_mask n)
        (view_mask (level_valid_views n) view))) /\
  (forall view, search_mask &&& view_mask (level_valid_views n) view <> 0 ->
     exists m, valid !! view = Some m /\
       Mask.subseteq (search_mask &&& view_mask (level_valid_views n) view) m).
Proof.
  revert search_mask.
  induction n as [node dirty views | node dirty views p IH]
    using CompositeLevel_chain_ind; intros search_mask valid; subst valid;
    cbn [find_valid_views level_parent level_dirty_mask level_valid_views fst snd].
  - split.
    + intros view m. rewrite (add_valid_view_fold false search_mask _
                                (NoDup_fst_entries views)), list_to_map_entries.
      rewrite lookup_empty.
      destruct (views !! view) as [mv|]; [|discriminate].
      destruct (Mask.is_empty (search_mask &&& mv)) eqn:Hov; [discriminate|].
      intros [= <-]. apply is_empty_false in Hov.
      split; [exact Hov|]. split; [apply subseteq_inter_l | congruence].
    + intros view Hov. rewrite (add_valid_view_fold false search_mask _
                                  (NoDup_fst_entries views)), list_to_map_entries.
      unfold view_mask in *. destruct (views !! view) as [mv|]; cbn [default from_option id] in *;
        [|exfalso; apply Hov; apply N.land_0_r].
      apply is_empty_false in Hov. rewrite Hov. eexists. split; [reflexivity|].
      apply subseteq_refl.
  - set (r := if negb (Mask.is_empty (search_mask \\\ dirty)) then _ else _).
    assert (Hr : forall view m, r.1 !! view = Some m ->
              m <> 0 /\ Mask.subseteq m (search_mask \\\ dirty)).
    { subst r. intros view m.
      destruct (negb (Mask.is_empty (search_mask \\\ dirty)));
        [|cbn [fst]; rewrite lookup_empty; discriminate].
      destruct (bool_decide _); [cbn [fst]; rewrite lookup_empty; discriminate|].
      cbn [fst]. intros Hl.
      apply (subviews_fold (fun v => get_subview v (get_color node))) in Hl
        as [Hl | ([x mx] & Hx & Hm)];
        [rewrite lookup_empty in Hl; discriminate|].
      apply elem_of_entries in Hx. cbn [snd] in Hm. subst mx.
      destruct (proj1 (IH (search_mask \\\ dirty)) x m Hx) as (Hnz & Hsub & _).
      split; assumption. }
    clearbody r. split.
    + intros view m. rewrite (add_valid_view_fold r.2 search_mask _
                                (NoDup_fst_entries views)), list_to_map_entries.
      unfold view_mask at 2.
      destruct (views !! view) as [mv|] eqn:Hv; cbn [default from_option id].
      * destruct (Mask.is_empty (search_mask &&& mv)) eqn:Hov.
        -- intros Hl. destruct (Hr view m Hl) as [Hnz Hsub].
           split; [exact Hnz|].
           split; [exact (subseteq_trans _ _ _ Hsub (subseteq_diff_l _ _))|].
           intros _. rewrite (diff_inter_disjoint _ _ _ Hsub).
           apply subseteq_bits. intros i Hi. rewrite N.bits_0 in Hi. discriminate.
        -- apply is_empty_false in Hov. destruct (r.2).
           ++ intros [= <-]. split; [apply union_nonzero_r; exact Hov|].
              unfold view_mask. destruct (r.1 !! view) as [m0|] eqn:Hm0; cbn [default from_option id].
              ** destruct (Hr view m0 Hm0) as [_ Hsub]. split.
                 --- apply subseteq_union_both; [|apply subseteq_inter_l].
                     exact (subseteq_trans _ _ _ Hsub (subseteq_diff_l _ _)).
                 --- intros _. rewrite inter_union_distr.
                     rewrite (diff_inter_disjoint _ _ _ Hsub).
                     change (0 ||| ?x) with (Mask.empty ||| x).
                     rewrite union_empty_l.
                     refine (subseteq_trans _ _ _ (subseteq_inter_l _ _)
                               (subseteq_inter_r _ _)).
              ** rewrite union_empty_l. split; [apply subseteq_inter_l|].
                 intros _. refine (subseteq_trans _ _ _ (subseteq_inter_l _ _)
                                     (subseteq_inter_r _ _)).
           ++ intros [= <-]. split; [exact Hov|]. split; [apply subseteq_inter_l|].
              intros _. refine (subseteq_trans _ _ _ (subseteq_inter_l _ _)
                                  (subseteq_inter_r _ _)).
      * intros Hl. destruct (Hr view m Hl) as [Hnz Hsub].
        split; [exact Hnz|].
        split; [exact (subseteq_trans _ _ _ Hsub (subseteq_diff_l _ _))|].
        intros _. rewrite (diff_inter_disjoint _ _ _ Hsub).
        apply subseteq_bits. intros i Hi. rewrite N.bits_0 in Hi. discriminate.
    + intros view Hov. rewrite (add_valid_view_fold r.2 search_mask _
                                  (NoDup_fst_entries views)), list_to_map_entries.
      unfold view_mask in Hov |- *. destruct (views !! view) as [mv|]; cbn [default from_option id] in *;
        [|exfalso; apply Hov; apply N.land_0_r].
      apply is_empty_false in Hov. rewrite Hov.
      destruct (r.2); eexists; (split; [reflexivity|]);
        [apply subseteq_union_r | apply subseteq_refl].
Qed.

(** ** Atomic reservations *)

Lemma reservations_ok_insert (table : ReservationTable) (next fid : N) :
  reservations_ok table next -> table !! fid = None ->
  reservations_ok (<[fid := next]> table) (next + 1).
Proof.
  intros [Hlt Hinj] Hfid. split.
  - intros f r Hl. destruct (decide (f = fid)) as [->|Hne].
    + rewrite lookup_insert_eq in Hl. injection Hl as <-. lia.
    + rewrite lookup_insert_ne in Hl by congruence. specialize (Hlt _ _ Hl). lia.
  - intros f f' r Hl Hl'.
    destruct (decide (f = fid)) as [->|Hne], (decide (f' = fid)) as [->|Hne'];
      [reflexivity | | |].
    + rewrite lookup_insert_eq in Hl. injection Hl as <-.
      rewrite lookup_insert_ne in Hl' by congruence.
      specialize (Hlt _ _ Hl'). lia.
    + rewrite lookup_insert_eq in Hl'. injection Hl' as <-.
      rewrite lookup_insert_ne in Hl by congruence.
      specialize (Hlt _ _ Hl). lia.
    + rewrite lookup_insert_ne in Hl, Hl' by congruence.
      exact (Hinj _ _ _ Hl Hl').
Qed.

Lemma find_field_reservations_fold (fields : list N) :
  forall results (table : ReservationTable) next,
    reservations_ok table next ->
    exists res table' next',
      foldl find_field_reservation (results, table, next) fields
        = (results ++ res, table', next') /\
      table ⊆ table' /\ reservations_ok table' next' /\ next <= next' /\
      Forall2 (fun fid r => table' !! fid = Some r) fields res /\
      dom table' = dom table ∪ list_to_set fields.
Proof.
  induction fields as [|fid l IH]; intros results table next Hok.
  - exists [], table, next. cbn. rewrite app_nil_r. split; [reflexivity|].
    split; [reflexivity|]. split; [exact Hok|]. split; [lia|].
    split; [constructor | set_solver].
  - cbn [foldl]. unfold find_field_reservation at 2.
    destruct (table !! fid) as [handle|] eqn:Hfid.
    + destruct (IH (results ++ [handle]) table next Hok)
        as (res & table' & next' & Hrun & Hsub & Hok' & Hle & Hres & Hdom).
      exists (handle :: res), table', next'.
      split; [rewrite Hrun, <- app_assoc; reflexivity|].
      split; [exact Hsub|]. split; [exact Hok'|]. split; [exact Hle|]. split.
      * constructor; [|exact Hres].
        exact (lookup_weaken table table' fid handle Hfid Hsub).
      * rewrite Hdom. cbn [list_to_set foldr]. apply elem_of_dom_2 in Hfid. set_solver.
    + unfold create_reservation.
      destruct (IH (results ++ [next]) (<[fid := next]> table) (next + 1)
                  (reservations_ok_insert table next fid Hok Hfid))
        as (res & table' & next' & Hrun & Hsub & Hok' & Hle & Hres & Hdom).
      exists (next :: res), table', next'.
      split; [rewrite Hrun, <- app_assoc; reflexivity|].
      split; [exact (transitivity (insert_subseteq table fid next Hfid) Hsub)|].
      split; [exact Hok'|]. split; [lia|]. split.
      * constructor; [|exact Hres].
        exact (lookup_weaken _ table' fid next (lookup_insert_eq table fid next) Hsub).
      * rewrite Hdom, dom_insert_L. cbn [list_to_set foldr]. set_solver.
Qed.

(** X9.  [find_field_reservations] returns one reservation for each
    field asked for, the one its table holds for the field afterwards.
    A field that had a reservation keeps it; the reservations it makes
    are new, so that no two fields ever share one; no other field enters
    the table; and asking again for the same fields returns the same
    reservations and changes nothing. *)
Theorem find_field_reservations_stable (needed_fields : list N)
    (table : ReservationTable) (next : N) :
  reservations_ok table next ->
  exists results table' next',
    find_field_reservations needed_fields table next = (results, table', next') /\
    Forall2 (fun fid r => table' !! fid = Some r) needed_fields results /\
    table ⊆ table' /\ dom table' = dom table ∪ list_to_set needed_fields /\
    reservations_ok table' next' /\
    find_field_reservations needed_fields table' next' = (results, table', next').
Proof.
  intros Hok. unfold find_field_reservations.
  destruct (find_field_reservations_fold needed_fields [] table next Hok)
    as (res & table' & next' & Hrun & Hsub & Hok' & Hle & Hres & Hdom).
  exists res, table', next'. cbn [app] in Hrun.
  split; [exact Hrun|]. split; [exact Hres|]. split; [exact Hsub|].
  split; [exact Hdom|]. split; [exact Hok'|].
  clear Hrun Hdom Hsub Hle Hok Hok'.
  enough (Hgen : forall results,
            foldl find_field_reservation (results, table', next') needed_fields
            = (results ++ res, table', next')) by exact (Hgen []).
  induction Hres as [|fid r fields res Hfid _ IH]; intros results.
  - cbn. rewrite app_nil_r. reflexivity.
  - cbn [foldl]. unfold find_field_reservation at 2.
    rewrite Hfid, IH, <- app_assoc. reflexivity.
Qed.

Lemma find_field_reservations_stable_witness :
  reservations_ok {[5 := 0]} 1 /\
  exists results table' next',
    find_field_reservations [5; 7] {[5 := 0]} 1 = (results, table', next') /\
    Forall2 (fun fid r => table' !! fid = Some r) [5; 7] results.
Proof.
  assert (Hok : reservations_ok {[5 := 0]} 1).
  { split.
    - intros fid r Hl. apply lookup_singleton_Some in Hl as [_ <-]. lia.
    - intros fid fid' r Hl Hl'. apply lookup_singleton_Some in Hl as [<- _].
      apply lookup_singleton_Some in Hl' as [<- _]. reflexivity. }
  split; [exact Hok|].
  destruct (find_field_reservations_stable [5; 7] {[5 := 0]} 1 Hok)
    as (results & table' & next' & Hrun & Hres & _).
  exists results, table', next'. split; assumption.
Defined.

Lemma split_known_spec (table : ReservationTable) (atomic_fields : list N) :
  split_known table atomic_fields
  = (List.filter (fun fid => bool_decide (table !! fid = None)) atomic_fields,
     omap (fun fid => table !! fid) atomic_fields).
Proof.
  unfold split_known.
  enough (Hgen : forall acc : list N * list N,
            foldl (fun (acc : list N * list N) fid =>
                     match table !! fid with
                     | None => (acc.1 ++ [fid], acc.2)
                     | Some r => (acc.1, acc.2 ++ [r])
                     end) acc atomic_fields
            = (acc.1 ++ List.filter (fun fid => bool_decide (table !! fid = None))
                          atomic_fields,
               acc.2 ++ omap (fun fid => table !! fid) atomic_fields))
    by exact (Hgen ([], [])).
  induction atomic_fields as [|fid l IH]; intros acc.
  - cbn. rewrite !app_nil_r. destruct acc; reflexivity.
  - cbn [foldl List.filter omap list_omap]. rewrite IH.
    destruct (table !! fid) as [r|]; cbn [fst snd bool_decide];
      [rewrite bool_decide_eq_false_2 by congruence
      |rewrite bool_decide_eq_true_2 by reflexivity];
      rewrite <- app_assoc; reflexivity.
Qed.

Lemma read_fields_all (fields : list N) (rest : list AtomicToken) :
  read_fields (length fields) ((AField <$> fields) ++ rest) = Some (fields, rest).
Proof.
  induction fields as [|fid l IH]; [reflexivity|].
  cbn [length read_fields fmap list_fmap app]. rewrite IH. reflexivity.
Qed.

Lemma read_reservations_all (fields reservations : list N) (rest : list AtomicToken) :
  length fields = length reservations ->
  read_reservations (length fields)
    (flat_map (fun x : N * N => [AField x.1; AReservation x.2]) (zip fields reservations)
       ++ rest)
  = Some (fields, reservations, rest).
Proof.
  revert reservations. induction fields as [|fid l IH]; intros [|r rs] Hlen;
    try discriminate; [reflexivity|].
  cbn [length read_reservations zip zip_with flat_map app fst snd].
  rewrite IH by (cbn in Hlen; lia). reflexivity.
Qed.

Lemma update_field_reservations_lookup (fields reservations : list N)
    (owner : ReservationTable) :
  Forall2 (fun fid r => owner !! fid = Some r) fields reservations ->
  forall (table : ReservationTable) fid,
    update_field_reservations fields reservations table !! fid
    = if decide (fid ∈ fields) then owner !! fid else table !! fid.
Proof.
  unfold update_field_reservations.
  induction 1 as [|f r fields reservations Hf _ IH]; intros table fid.
  - cbn. destruct (decide (fid ∈ [])) as [Hin|_]; [inversion Hin | reflexivity].
  - cbn [zip zip_with foldl fst snd]. rewrite IH.
    destruct (decide (fid ∈ fields)) as [Hin|Hout].
    + destruct (decide (fid ∈ f :: fields)) as [_|Hno]; [reflexivity|].
      exfalso. apply Hno. right. exact Hin.
    + destruct (decide (fid = f)) as [->|Hne].
      * rewrite lookup_insert_eq.
        destruct (decide (f ∈ f :: fields)) as [_|Hno];
          [symmetry; exact Hf | exfalso; apply Hno; left].
      * rewrite lookup_insert_ne by congruence.
        destruct (decide (fid ∈ f :: fields)) as [Hin|_]; [|reflexivity].
        apply elem_of_cons in Hin as [?|?]; contradiction.
Qed.

Lemma found_reservations_all (table : ReservationTable) (fields reservations : list N) :
  Forall2 (fun fid r => table !! fid = Some r) fields reservations ->
  found_reservations table fields = Some reservations.
Proof.
  unfold found_reservations. intros Hall. apply mapM_Some. exact Hall.
Qed.

(** X10.  The exchange that [find_atomic_reservations] starts on a view
    that is not the owner.  The view knows only reservations of the
    owner, and asks for the fields it has none for.  The owner reads the
    request and answers; the view reads the answer and triggers the event
    it waited on; it then finds a reservation for every field it asked
    for, the one the owner holds, so that the assertion after the wait
    holds.  The view still knows only reservations of the owner, now one
    for every atomic field. *)
Theorem atomic_reservation_exchange (did wait_on : N) (atomic_fields : list N)
    (local owner : ReservationTable) (next : N) :
  reservations_ok owner next -> local ⊆ owner ->
  N.of_nat (length atomic_fields) < 2 ^ 32 ->
  let needed_fields := (split_known local atomic_fields).1 in
  exists response owner' next' local' locks,
    handle_send_atomic_reservation_request
      (pack_reservation_request did needed_fields wait_on) owner next
      = Some (response, owner', next') /\
    handle_send_atomic_reservation_response response local = Some (local', wait_on) /\
    found_reservations local' needed_fields = Some locks /\
    Forall2 (fun fid r => owner' !! fid = Some r) needed_fields locks /\
    local ⊆ local' /\ local' ⊆ owner' /\ owner ⊆ owner' /\
    reservations_ok owner' next' /\
    forall fid, fid ∈ atomic_fields -> is_Some (local' !! fid).
Proof.
  intros Hok Hsub Hfit needed_fields. subst needed_fields.
  rewrite split_known_spec. cbn [fst].
  set (needed := List.filter (fun fid => bool_decide (local !! fid = None)) atomic_fields).
  assert (Hneeded : forall fid, fid ∈ needed <-> fid ∈ atomic_fields /\ local !! fid = None).
  { intros fid. subst needed. rewrite !list_elem_of_In, filter_In, bool_decide_eq_true.
    reflexivity. }
  assert (Hlen : (length needed <= length atomic_fields)%nat)
    by (subst needed; apply filter_length_le).
  destruct (find_field_reservations_stable needed owner next Hok)
    as (res & owner' & next' & Hrun & Hres & Hsub' & _ & Hok' & _).
  pose proof (Forall2_length _ _ _ Hres) as Hlen2.
  pose proof (update_field_reservations_lookup needed res owner' Hres local) as Hup.
  exists ([ADid did; ASize (N.of_nat (length needed))]
            ++ flat_map (fun x : N * N => [AField x.1; AReservation x.2]) (zip needed res)
            ++ [AUserEvent wait_on]),
         owner', next', (update_field_reservations needed res local), res.
  split.
  { unfold handle_send_atomic_reservation_request, pack_reservation_request.
    cbn [app].
    replace (2 ^ 32 <=? N.of_nat (length needed)) with false
      by (symmetry; apply N.leb_gt; lia).
    rewrite Nat2N.id, read_fields_all. cbn [mbind option_bind]. rewrite Hrun.
    reflexivity. }
  split.
  { unfold handle_send_atomic_reservation_response. cbn [app].
    replace (2 ^ 32 <=? N.of_nat (length needed)) with false
      by (symmetry; apply N.leb_gt; lia).
    rewrite Nat2N.id, (read_reservations_all needed res _ Hlen2).
    reflexivity. }
  split.
  { apply found_reservations_all.
    apply Forall2_same_length_lookup. split; [exact Hlen2|].
    intros i fid r Hi Hr. rewrite Hup.
    rewrite decide_True by (apply list_elem_of_lookup; eauto).
    exact (Forall2_lookup_lr _ _ _ _ _ _ Hres Hi Hr). }
  split; [exact Hres|].
  split.
  { apply map_subseteq_spec. intros fid r Hl. rewrite Hup.
    destruct (decide (fid ∈ needed)) as [Hin|_]; [|exact Hl].
    apply Hneeded in Hin as [_ Hnone]. congruence. }
  split.
  { apply map_subseteq_spec. intros fid r. rewrite Hup.
    destruct (decide (fid ∈ needed)) as [_|_]; [auto|].
    intros Hl. apply (lookup_weaken _ _ _ _ Hl). exact (transitivity Hsub Hsub'). }
  split; [exact Hsub'|]. split; [exact Hok'|].
  intros fid Hin. rewrite Hup. destruct (decide (fid ∈ needed)) as [Hn|Hn].
  - apply list_elem_of_lookup in Hn as [i Hi].
    destruct (Forall2_lookup_l _ _ _ _ _ Hres Hi) as (r & _ & Hr). eauto.
  - destruct (local !! fid) as [r|] eqn:Hl; [eauto|].
    exfalso. apply Hn. apply Hneeded. auto.
Qed.

Lemma atomic_reservation_exchange_witness :
  (reservations_ok {[5 := 0]} 1 /\ ({[5 := 0]} : ReservationTable) ⊆ {[5 := 0]} /\
   N.of_nat (length [5; 7]) < 2 ^ 32) /\
  exists response owner' next' local' locks,
    handle_send_atomic_reservation_request
      (pack_reservation_request 3 (split_known {[5 := 0]} [5; 7]).1 9) {[5 := 0]} 1
      = Some (response, owner', next') /\
    handle_send_atomic_reservation_response response {[5 := 0]} = Some (local', 9) /\
    found_reservations local' (split_known {[5 := 0]} [5; 7]).1 = Some locks.
Proof.
  assert (Hok : reservations_ok {[5 := 0]} 1).
  { split.
    - intros fid r Hl. apply lookup_singleton_Some in Hl as [_ <-]. lia.
    - intros fid fid' r Hl Hl'. apply lookup_singleton_Some in Hl as [<- _].
      apply lookup_singleton_Some in Hl' as [<- _]. reflexivity. }
  assert (Hsub : ({[5 := 0]} : ReservationTable) ⊆ {[5 := 0]}) by reflexivity.
  assert (Hfit : N.of_nat (length [5; 7]) < 2 ^ 32) by (vm_compute; reflexivity).
  split; [split; [exact Hok | split; [exact Hsub | exact Hfit]]|].
  destruct (atomic_reservation_exchange 3 9 [5; 7] {[5 := 0]} {[5 := 0]} 1 Hok Hsub Hfit)
    as (response & owner' & next' & local' & locks & Hreq & Hresp & Hfound & _).
  exists response, owner', next', local', locks.
  split; [exact Hreq|]. split; [exact Hresp | exact Hfound].
Defined.

(** ** Collections *)

(** X11.  In every state that a materialized view or a reduction view
    reaches, each event under which a table holds users is an event for
    which a collection is pending: no user is left in a table without
    the collection that will remove it. *)
Theorem table_events_await_collection `{Analysis} :
  (forall s, reachable s -> gc_covers s) /\
  (forall s, red_reachable s -> red_gc_covers s).
Proof. split; [exact reachable_gc_pending | exact red_reachable_gc_pending]. Qed.

Lemma table_events_await_collection_witness :
  @reachable sample_analysis sample_view /\ gc_covers sample_view.
Proof.
  split; [exact sample_view_reachable|].
  exact (proj1 (@table_events_await_collection sample_analysis) sample_view
           sample_view_reachable).
Defined.

Lemma filter_local_users_collected (e : Event) (s : MaterializedState) :
  gc_covers s -> collected {[e]} s (filter_local_users e s).
Proof.
  intros Hgc. destruct (decide (e ∈ outstanding_gc_events s)) as [Hin|Hout].
  - rewrite filter_local_users_recorded by exact Hin.
    unfold collected. cbn [current_epoch_users previous_epoch_users outstanding_gc_events].
    split; [|split; [|reflexivity]]; intros x;
      (destruct (decide (x ∈ ({[e]} : gset Event))) as [Hx|Hx];
       [apply elem_of_singleton in Hx; subst x; apply lookup_delete_eq
       |apply lookup_delete_ne; set_solver]).
  - rewrite filter_local_users_unrecorded by exact Hout.
    assert (Hc : current_epoch_users s !! e = None)
      by (apply not_elem_of_dom; unfold gc_covers in Hgc; set_solver).
    assert (Hp : previous_epoch_users s !! e = None)
      by (apply not_elem_of_dom; unfold gc_covers in Hgc; set_solver).
    split; [|split; [|set_solver]]; intros x;
      (destruct (decide (x ∈ ({[e]} : gset Event))) as [Hx|Hx]; [|reflexivity];
       apply elem_of_singleton in Hx; subst x; assumption).
Qed.

Lemma collected_trans (T1 T2 : gset Event) (s1 s2 s3 : MaterializedState) :
  collected T1 s1 s2 -> collected T2 s2 s3 -> collected (T1 ∪ T2) s1 s3.
Proof.
  intros (Hc1 & Hp1 & Hg1) (Hc2 & Hp2 & Hg2).
  split; [|split; [|rewrite Hg2, Hg1; set_solver]]; intros e.
  - rewrite Hc2, Hc1.
    destruct (decide (e ∈ T2)), (decide (e ∈ T1)), (decide (e ∈ T1 ∪ T2));
      try reflexivity; set_solver.
  - rewrite Hp2, Hp1.
    destruct (decide (e ∈ T2)), (decide (e ∈ T1)), (decide (e ∈ T1 ∪ T2));
      try reflexivity; set_solver.
Qed.

Lemma collect_collected (l : list Event) (s : MaterializedState) :
  gc_covers s ->
  collected (list_to_set l) s (foldl (fun s e => filter_local_users e s) s l).
Proof.
  revert s. induction l as [|e l IH]; intros s Hgc.
  - cbn [foldl list_to_set]. split; [|split; [|set_solver]]; intros x;
      (destruct (decide (x ∈ (∅ : gset Event))); [set_solver | reflexivity]).
  - cbn [foldl list_to_set].
    exact (collected_trans _ _ _ _ _ (filter_local_users_collected e s Hgc)
             (IH _ (filter_local_users_pending e s Hgc))).
Qed.

Lemma list_to_set_sorted_elements (T : gset Event) :
  list_to_set (sorted_elements T) = T.
Proof.
  apply set_eq. intros e. rewrite elem_of_list_to_set. apply elem_of_sorted_elements.
Qed.

Lemma red_filter_local_users_collected (e : Event) (s : ReductionState) :
  red_gc_covers s -> red_collected {[e]} s (red_filter_local_users e s).
Proof.
  intros Hgc. destruct (decide (e ∈ red_outstanding_gc_events s)) as [Hin|Hout].
  - rewrite red_filter_local_users_recorded by exact Hin.
    unfold red_collected. cbn [reduction_users reading_users red_outstanding_gc_events].
    split; [|split; [|reflexivity]]; intros x;
      (destruct (decide (x ∈ ({[e]} : gset Event))) as [Hx|Hx];
       [apply elem_of_singleton in Hx; subst x; apply lookup_delete_eq
       |apply lookup_delete_ne; set_solver]).
  - rewrite red_filter_local_users_unrecorded by exact Hout.
    assert (Hc : reduction_users s !! e = None)
      by (apply not_elem_of_dom; unfold red_gc_covers in Hgc; set_solver).
    assert (Hp : reading_users s !! e = None)
      by (apply not_elem_of_dom; unfold red_gc_covers in Hgc; set_solver).
    split; [|split; [|set_solver]]; intros x;
      (destruct (decide (x ∈ ({[e]} : gset Event))) as [Hx|Hx]; [|reflexivity];
       apply elem_of_singleton in Hx; subst x; assumption).
Qed.

Lemma red_collected_trans (T1 T2 : gset Event) (s1 s2 s3 : ReductionState) :
  red_collected T1 s1 s2 -> red_collected T2 s2 s3 -> red_collected (T1 ∪ T2) s1 s3.
Proof.
  intros (Hc1 & Hp1 & Hg1) (Hc2 & Hp2 & Hg2).
  split; [|split; [|rewrite Hg2, Hg1; set_solver]]; intros e.
  - rewrite Hc2, Hc1.
    destruct (decide (e ∈ T2)), (decide (e ∈ T1)), (decide (e ∈ T1 ∪ T2));
      try reflexivity; set_solver.
  - rewrite Hp2, Hp1.
    destruct (decide (e ∈ T2)), (decide (e ∈ T1)), (decide (e ∈ T1 ∪ T2));
      try reflexivity; set_solver.
Qed.

Lemma red_collect_collected (l : list Event) (s : ReductionState) :
  red_gc_covers s ->
  red_collected (list_to_set l) s (foldl (fun s e => red_filter_local_users e s) s l).
Proof.
  revert s. induction l as [|e l IH]; intros s Hgc.
  - cbn [foldl list_to_set]. split; [|split; [|set_solver]]; intros x;
      (destruct (decide (x ∈ (∅ : gset Event))); [set_solver | reflexivity]).
  - cbn [foldl list_to_set].
    exact (red_collected_trans _ _ _ _ _ (red_filter_local_users_collected e s Hgc)
             (IH _ (red_filter_local_users_pending e s Hgc))).
Qed.

(** X12.  [collect_users] removes the events it is given, and only
    those, from both tables and from the events to collect, of the view
    and of every ancestor of the view; [ReductionView::collect_users]
    does so for the reducers, the readers and the events to collect of a
    reduction view.  The views are in states they reach by their
    operations. *)
Theorem collect_users_removes `{Analysis} (term_events : gset Event)
    (v : MaterializedView) (rs : ReductionState) :
  (chain_reachable v ->
   Forall2 (fun w w' => collected term_events (view_state w) (view_state w'))
     (view_chain v) (view_chain (collect_users term_events v))) /\
  (red_reachable rs -> red_collected term_events rs (red_collect_users term_events rs)).
Proof.
  split.
  - induction v as [st node man | st node man p IH] using MaterializedView_chain_ind;
      cbn [chain_reachable collect_users view_chain]; intros [Hst Hp].
    + constructor; [|constructor]. cbn [view_state].
      rewrite <- (list_to_set_sorted_elements term_events) at 1.
      apply collect_collected, reachable_gc_pending, Hst.
    + constructor; [|exact (IH Hp)]. cbn [view_state].
      rewrite <- (list_to_set_sorted_elements term_events) at 1.
      apply collect_collected, reachable_gc_pending, Hst.
  - intros Hrs. unfold red_collect_users.
    rewrite <- (list_to_set_sorted_elements term_events) at 1.
    apply red_collect_collected, red_reachable_gc_pending, Hrs.
Qed.

Lemma collect_users_removes_witness :
  let v := mkView sample_view sample_node (mkManager 5) None in
  @chain_reachable sample_analysis v /\
  Forall2 (fun w w' => collected {[1]} (view_state w) (view_state w'))
    (view_chain v) (view_chain (collect_users {[1]} v)).
Proof.
  intros v.
  assert (Hv : @chain_reachable sample_analysis v)
    by (split; [exact sample_view_reachable | exact I]).
  split; [exact Hv|].
  exact (proj1 (@collect_users_removes sample_analysis {[1]} v empty_red_state) Hv).
Defined.

(** ** What [add_local_user] leaves behind *)

Lemma filter_local_users_gc (e : Event) (s : MaterializedState) :
  outstanding_gc_events (filter_local_users e s) = outstanding_gc_events s ∖ {[e]}.
Proof.
  destruct (decide (e ∈ outstanding_gc_events s)) as [Hin|Hout].
  - rewrite filter_local_users_recorded by exact Hin. reflexivity.
  - rewrite filter_local_users_unrecorded by exact Hout. set_solver.
Qed.

Lemma collect_gc (l : list Event) (s : MaterializedState) :
  outstanding_gc_events (foldl (fun s e => filter_local_users e s) s l)
  = outstanding_gc_events s ∖ list_to_set l.
Proof.
  revert s. induction l as [|e l IH]; intros s; cbn [foldl list_to_set].
  - set_solver.
  - rewrite IH, filter_local_users_gc. set_solver.
Qed.

Lemma filter_previous_entry_gc (fit : Event * FieldMask) (s : MaterializedState) :
  outstanding_gc_events (filter_previous_entry fit s) = outstanding_gc_events s.
Proof. unfold filter_previous_entry. repeat case_match; reflexivity. Qed.

Lemma filter_previous_users_gc (fp : gmap Event FieldMask) (s : MaterializedState) :
  outstanding_gc_events (filter_previous_users fp s) = outstanding_gc_events s.
Proof.
  unfold filter_previous_users. generalize (entries fp). intros l. revert s.
  induction l as [|fit l IH]; intros s; [reflexivity|].
  cbn [foldl]. rewrite IH. apply filter_previous_entry_gc.
Qed.

Lemma apply_filters_gc (ht : Event -> bool) (dead : gset Event)
    (fp : gmap Event FieldMask) (d : FieldMask) (s : MaterializedState) :
  outstanding_gc_events (apply_filters ht dead fp d s) = outstanding_gc_events s ∖ dead.
Proof.
  unfold apply_filters. cbv zeta.
  assert (H1 : outstanding_gc_events
                 (foldl (fun s e => filter_local_users e s) s (sorted_elements dead))
               = outstanding_gc_events s ∖ dead).
  { rewrite collect_gc. f_equal. apply set_eq. intros e.
    rewrite elem_of_list_to_set. apply elem_of_sorted_elements. }
  set (s1 := foldl _ s _) in *.
  assert (H2 : outstanding_gc_events
                 (if decide (fp = ∅) then s1 else filter_previous_users fp s1)
               = outstanding_gc_events s ∖ dead).
  { destruct (decide (fp = ∅)); [exact H1|]. rewrite filter_previous_users_gc. exact H1. }
  destruct (negb (Mask.is_empty d)); [|exact H2].
  rewrite (proj1 (filter_current_users_at ht d _ 0)). exact H2.
Qed.

Lemma next_addr_filter_local_users (e : Event) (s : MaterializedState) :
  next_addr (heap (filter_local_users e s)) = next_addr (heap s).
Proof.
  destruct (decide (e ∈ outstanding_gc_events s)) as [Hin|Hout].
  - rewrite filter_local_users_recorded by exact Hin. apply next_addr_release_all.
  - rewrite filter_local_users_unrecorded by exact Hout. reflexivity.
Qed.

Lemma next_addr_filter_previous_entry (fit : Event * FieldMask) (s : MaterializedState) :
  next_addr (heap (filter_previous_entry fit s)) = next_addr (heap s).
Proof.
  unfold filter_previous_entry.
  repeat case_match; cbn [set_heap set_previous heap];
    rewrite ?next_addr_release_users, ?next_addr_release_entries; reflexivity.
Qed.

Lemma apply_filters_ok_heap (ht : Event -> bool) (dead : gset Event)
    (fp : gmap Event FieldMask) (d : FieldMask) (s : MaterializedState) :
  next_addr (heap (apply_filters ht dead fp d s)) = next_addr (heap s).
Proof.
  unfold apply_filters. cbv zeta.
  assert (H1 : forall l s0,
            next_addr (heap (foldl (fun s e => filter_local_users e s) s0 l))
            = next_addr (heap s0)).
  { induction l as [|e l IH]; intros s0; [reflexivity|].
    cbn [foldl]. rewrite IH. apply next_addr_filter_local_users. }
  assert (H2 : forall l s0,
            next_addr (heap (foldl (fun s fit => filter_previous_entry fit s) s0 l))
            = next_addr (heap s0)).
  { induction l as [|e l IH]; intros s0; [reflexivity|].
    cbn [foldl]. rewrite IH. apply next_addr_filter_previous_entry. }
  destruct (negb (Mask.is_empty d)); [rewrite next_addr_filter_current_users|];
    (destruct (decide (fp = ∅)); [|unfold filter_previous_users; rewrite H2]); apply H1.
Qed.

Lemma insert_user_has (user : N * PhysicalUser) (mask : FieldMask)
    (o : option EventUsers) :
  bucket_has (insert_user user mask o) user.1 user.2.
Proof.
  unfold insert_user, bucket_has. destruct o as [eu|]; [|destruct user; reflexivity].
  destruct (users eu) as [u0|m]; cbn [users]; exists mask; apply lookup_insert_eq.
Qed.

(** X13.  What [add_local_user] leaves behind when the termination
    event exists: a new user, at an address that was never used, with
    the usage and the child color of the caller and with the versions of
    the node when the usage is read-only; the user stands in the current
    epoch under the termination event with exactly the fields asked for;
    a collection is pending for the event.  The caller is told to launch
    a collection exactly when it is the base view and no collection was
    pending for the event, the events found triggered apart.  When the
    termination event does not exist no user is made and no collection is
    asked for. *)
Theorem add_local_user_registers `{Analysis}
    (has_triggered has_triggered' : Event -> bool)
    (node : RegionTreeNode) (usage : RegionUsage) (term_event : Event)
    (base_user : bool) (child_color : ColorPoint) (version_info : VersionInfo)
    (mask : FieldMask) (pre : gset Event) (s : MaterializedState) :
  let r := add_local_user has_triggered has_triggered' node usage term_event base_user
             child_color version_info mask pre s in
  let dead := ta_dead_events (task_analysis has_triggered node usage term_event
                                child_color mask pre s) in
  (event_exists term_event = true ->
   (exists eu,
      current_epoch_users r.2 !! term_event = Some eu /\
      bucket_has eu (next_addr (heap s))
        (mkUser usage child_color
           (if IS_READ_ONLY usage then get_versions version_info node else None)) /\
      bucket_fields eu (next_addr (heap s)) = mask) /\
   term_event ∈ outstanding_gc_events r.2 /\
   next_addr (heap r.2) = next_addr (heap s) + 1 /\
   r.1.1 = base_user && bool_decide (term_event ∉ outstanding_gc_events s ∖ dead)) /\
  (event_exists term_event = false ->
   r.1.1 = false /\ next_addr (heap r.2) = next_addr (heap s) /\
   outstanding_gc_events r.2 = outstanding_gc_events s ∖ dead).
Proof.
  intros r dead. subst r dead. unfold add_local_user.
  set (a := task_analysis _ _ _ _ _ _ _ _).
  destruct (event_exists term_event) eqn:Hex; (split; [|]); try discriminate;
    intros _.
  - destruct (new_user_spec node usage child_color version_info (heap s)) as [Hu Hn].
    assert (Hrec : (new_user node usage child_color version_info (heap s)).1.2
                   = mkUser usage child_color
                       (if IS_READ_ONLY usage then get_versions version_info node
                        else None)).
    { unfold new_user, legion_new. destruct (IS_READ_ONLY usage); reflexivity. }
    destruct (new_user node usage child_color version_info (heap s)) as [user h].
    cbn [fst snd] in Hu, Hn, Hrec.
    pose proof (apply_filters_gc has_triggered' (ta_dead_events a) (ta_filter_previous a)
                  (ta_dominated a) (set_heap (fun _ => h) s)) as Hgc.
    pose proof (apply_filters_ok_heap has_triggered' (ta_dead_events a)
                  (ta_filter_previous a) (ta_dominated a) (set_heap (fun _ => h) s))
      as Hheap.
    cbn [set_heap heap outstanding_gc_events] in Hgc, Hheap.
    set (s1 := apply_filters _ _ _ _ _) in *.
    assert (Hbucket : exists eu,
              current_epoch_users (add_current_user user term_event mask s1) !! term_event
                = Some eu /\
              bucket_has eu (next_addr (heap s))
                (mkUser usage child_color
                   (if IS_READ_ONLY usage then get_versions version_info node else None)) /\
              bucket_fields eu (next_addr (heap s)) = mask).
    { unfold add_current_user, set_current. cbn [current_epoch_users].
      rewrite lookup_insert_eq. eexists. split; [reflexivity|]. split.
      - rewrite <- Hu, <- Hrec. apply insert_user_has.
      - rewrite insert_user_fields, <- Hu. rewrite decide_True by reflexivity.
        reflexivity. }
    destruct (decide (term_event ∈ outstanding_gc_events
                        (add_current_user user term_event mask s1))) as [Hin|Hout];
      cbn [fst snd]; cbn [add_current_user set_current outstanding_gc_events
                          current_epoch_users heap set_gc] in *.
    + split; [exact Hbucket|]. split; [exact Hin|]. split; [congruence|].
      rewrite Hgc in Hin. rewrite bool_decide_eq_false_2 by (intros Hno; exact (Hno Hin)).
      rewrite andb_false_r. reflexivity.
    + split; [exact Hbucket|]. split; [set_solver|]. split; [congruence|].
      rewrite Hgc in Hout. rewrite bool_decide_eq_true_2 by exact Hout.
      rewrite andb_true_r. reflexivity.
  - cbn [fst snd]. split; [reflexivity|]. split.
    + apply apply_filters_ok_heap.
    + apply apply_filters_gc.
Qed.

Lemma add_local_user_registers_witness :
  let vi := mkVersionInfo (fun _ => true) (fun _ => None) in
  let r := @add_local_user sample_analysis (fun _ => false) (fun _ => false)
             sample_node read_write 3 true None vi 1 ∅ sample_view in
  event_exists 3 = true /\
  3 ∈ outstanding_gc_events r.2 /\
  next_addr (heap r.2) = next_addr (heap sample_view) + 1.
Proof.
  intros vi r. split; [reflexivity|].
  pose proof (proj1 (@add_local_user_registers sample_analysis (fun _ => false) (fun _
      => false)
                       sample_node read_write 3 true None vi 1 ∅ sample_view)
                eq_refl) as Hreg.
  exact (conj (proj1 (proj2 Hreg)) (proj1 (proj2 (proj2 Hreg)))).
Defined.

(** ** What a task waits for *)

Lemma find_current_preconditions_in `{Analysis} node te u pm nu nm cc acc e :
  let r := find_current_preconditions node te u pm nu nm cc acc in
  (e ∈ preconditions r.2 <->
   e ∈ preconditions acc \/
   (e = te /\ pm &&& nm <> 0 /\ cut_off node cc u = false /\
    is_dependence (check_dependence_type (usage u) nu) = true)) /\
  (r.1 = true -> te ∈ preconditions r.2).
Proof.
  unfold find_current_preconditions, cut_off. cbv zeta.
  destruct (Mask.is_empty (pm &&& nm)) eqn:He.
  - apply is_empty_true in He. cbn [fst snd]. split; [|discriminate].
    split; [auto|]. intros [Hin | (_ & Hne & _)]; [exact Hin | contradiction].
  - apply is_empty_false in He.
    destruct (same_child cc u); cbn [orb fst snd add_non_dominated add_observed
                                      preconditions].
    { split; [|discriminate]. split; [auto|].
      intros [Hin | (_ & _ & Hc & _)]; [exact Hin | discriminate]. }
    destruct (disjoint_children node cc u); cbn [fst snd add_non_dominated
                                                  add_observed preconditions].
    { split; [|discriminate]. split; [auto|].
      intros [Hin | (_ & _ & Hc & _)]; [exact Hin | discriminate]. }
    destruct (check_dependence_type (usage u) nu);
      cbn [fst snd add_non_dominated add_observed add_precondition preconditions
           is_dependence];
      (split; [|try discriminate; intros _; set_solver]);
      try (split; [auto|]; intros [Hin | (_ & _ & _ & Hd)];
           [exact Hin | discriminate]);
      (split; [intros Hin; apply elem_of_union in Hin as [Hin | Hin];
               [apply elem_of_singleton in Hin; right; auto | left; exact Hin]
              |intros [Hin | (-> & _)]; set_solver]).
Qed.

Lemma find_current_multi_in `{Analysis} node te l nu nm cc acc e :
  e ∈ preconditions (find_current_multi node te l nu nm cc acc) <->
  e ∈ preconditions acc \/
  (e = te /\ exists it : N * (PhysicalUser * FieldMask),
     it ∈ l /\ it.2.2 &&& nm <> 0 /\ cut_off node cc it.2.1 = false /\
     is_dependence (check_dependence_type (usage it.2.1) nu) = true).
Proof.
  revert acc. induction l as [|it l IH]; intros acc; cbn [find_current_multi].
  - split; [auto|]. intros [Hin | (_ & it & Hit & _)]; [exact Hin | inversion Hit].
  - cbv zeta.
    destruct (find_current_preconditions_in node te it.2.1 it.2.2 nu nm cc acc e)
      as [Hiff Hbrk].
    cbv zeta in Hiff, Hbrk.
    destruct (find_current_preconditions node te it.2.1 it.2.2 nu nm cc acc).1 eqn:Hr.
    + rewrite Hiff. split.
      * intros [Hin | (-> & Hne & Hc & Hd)]; [left; exact Hin|].
        right. split; [reflexivity|]. exists it. split; [left|auto].
      * intros [Hin | (-> & _)]; [left; exact Hin|].
        apply Hiff. apply Hbrk. reflexivity.
    + rewrite IH, Hiff. split.
      * intros [[Hin | (-> & Hne & Hc & Hd)] | (-> & it' & Hit & Hrest)].
        -- left; exact Hin.
        -- right. split; [reflexivity|]. exists it. split; [left|auto].
        -- right. split; [reflexivity|]. exists it'. split; [right; exact Hit|auto].
      * intros [Hin | (-> & it' & Hit & Hne & Hc & Hd)]; [left; left; exact Hin|].
        apply elem_of_cons in Hit as [-> | Hit].
        -- left. right. auto.
        -- right. split; [reflexivity|]. exists it'. auto.
Qed.

Lemma find_previous_preconditions_in `{Analysis} node te u pm nu nm cc pre e :
  let r := find_previous_preconditions node te u pm nu nm cc pre in
  (e ∈ r.2 <->
   e ∈ pre \/
   (e = te /\ pm &&& nm <> 0 /\ cut_off node cc u = false /\
    is_dependence (check_dependence_type (usage u) nu) = true)) /\
  (r.1 = true -> te ∈ r.2).
Proof.
  unfold find_previous_preconditions, cut_off. cbv zeta.
  destruct (same_child cc u); cbn [orb fst snd].
  { split; [|discriminate]. split; [auto|].
    intros [Hin | (_ & _ & Hc & _)]; [exact Hin | discriminate]. }
  destruct (disjoint_children node cc u); cbn [fst snd].
  { split; [|discriminate]. split; [auto|].
    intros [Hin | (_ & _ & Hc & _)]; [exact Hin | discriminate]. }
  destruct (Mask.is_empty (pm &&& nm)) eqn:He.
  - apply is_empty_true in He. cbn [fst snd]. split; [|discriminate].
    split; [auto|]. intros [Hin | (_ & Hne & _)]; [exact Hin | contradiction].
  - apply is_empty_false in He.
    destruct (check_dependence_type (usage u) nu); cbn [fst snd is_dependence];
      (split; [|try discriminate; intros _; set_solver]);
      try (split; [auto|]; intros [Hin | (_ & _ & _ & Hd)];
           [exact Hin | discriminate]);
      (split; [intros Hin; apply elem_of_union in Hin as [Hin | Hin];
               [apply elem_of_singleton in Hin; right; auto | left; exact Hin]
              |intros [Hin | (-> & _)]; set_solver]).
Qed.

Lemma find_previous_multi_in `{Analysis} node te l nu nm cc pre e :
  e ∈ find_previous_multi node te l nu nm cc pre <->
  e ∈ pre \/
  (e = te /\ exists it : N * (PhysicalUser * FieldMask),
     it ∈ l /\ it.2.2 &&& nm <> 0 /\ cut_off node cc it.2.1 = false /\
     is_dependence (check_dependence_type (usage it.2.1) nu) = true).
Proof.
  revert pre. induction l as [|it l IH]; intros pre; cbn [find_previous_multi].
  - split; [auto|]. intros [Hin | (_ & it & Hit & _)]; [exact Hin | inversion Hit].
  - cbv zeta.
    destruct (find_previous_preconditions_in node te it.2.1 it.2.2 nu nm cc pre e)
      as [Hiff Hbrk].
    cbv zeta in Hiff, Hbrk.
    destruct (find_previous_preconditions node te it.2.1 it.2.2 nu nm cc pre).1 eqn:Hr.
    + rewrite Hiff. split.
      * intros [Hin | (-> & Hne & Hc & Hd)]; [left; exact Hin|].
        right. split; [reflexivity|]. exists it. split; [left|auto].
      * intros [Hin | (-> & _)]; [left; exact Hin|].
        apply Hiff. apply Hbrk. reflexivity.
    + rewrite IH, Hiff. split.
      * intros [[Hin | (-> & Hne & Hc & Hd)] | (-> & it' & Hit & Hrest)].
        -- left; exact Hin.
        -- right. split; [reflexivity|]. exists it. split; [left|auto].
        -- right. split; [reflexivity|]. exists it'. split; [right; exact Hit|auto].
      * intros [Hin | (-> & it' & Hit & Hne & Hc & Hd)]; [left; left; exact Hin|].
        apply elem_of_cons in Hit as [-> | Hit].
        -- left. right. auto.
        -- right. split; [reflexivity|]. exists it'. auto.
Qed.

(** The users of a bucket, as the analysis meets them. *)
Lemma makes_wait_single `{Analysis} node nu cc mask (eu : EventUsers)
    (u : N * PhysicalUser) :
  users eu = single_user u ->
  makes_wait node nu cc mask (Some eu) <->
  user_mask eu &&& mask <> 0 /\ cut_off node cc u.2 = false /\
  is_dependence (check_dependence_type (usage u.2) nu) = true.
Proof.
  intros Hu. unfold makes_wait, bucket_has, bucket_fields. split.
  - intros (eu' & a & record & [= <-] & Hhas & Hov & Hc & Hd).
    rewrite Hu in Hhas, Hov. subst u. cbn [fst snd] in *.
    rewrite decide_True in Hov by reflexivity. auto.
  - intros (Hov & Hc & Hd). exists eu, u.1, u.2. rewrite Hu.
    rewrite decide_True by reflexivity.
    split; [reflexivity|]. split; [destruct u; reflexivity|]. auto.
Qed.

Lemma makes_wait_multi `{Analysis} node nu cc mask (eu : EventUsers) (m : UserMap) :
  users eu = multi_users m ->
  makes_wait node nu cc mask (Some eu) <->
  exists it : N * (PhysicalUser * FieldMask),
    it ∈ entries m /\ it.2.2 &&& mask <> 0 /\ cut_off node cc it.2.1 = false /\
    is_dependence (check_dependence_type (usage it.2.1) nu) = true.
Proof.
  intros Hu. unfold makes_wait, bucket_has, bucket_fields. split.
  - intros (eu' & a & record & [= <-] & Hhas & Hov & Hc & Hd).
    rewrite Hu in Hhas, Hov. destruct Hhas as [fm Hl].
    unfold mask_at in Hov. rewrite Hl in Hov. cbn [snd] in Hov.
    exists (a, (record, fm)). split; [apply elem_of_entries; exact Hl|]. auto.
  - intros ([a [record fm]] & Hin & Hov & Hc & Hd). cbn [fst snd] in *.
    apply elem_of_entries in Hin.
    exists eu, a, record. rewrite Hu. split; [reflexivity|].
    split; [exists fm; exact Hin|].
    unfold mask_at. rewrite Hin. auto.
Qed.

Lemma makes_wait_summary `{Analysis} node nu cc mask (eu : EventUsers) :
  summary_is_union eu -> mask &&& user_mask eu = 0 ->
  ~ makes_wait node nu cc mask (Some eu).
Proof.
  intros Hsum Hz (eu' & a & record & [= <-] & _ & Hov & _).
  apply Hov. eapply disjoint_of_user; [exact Hsum|].
  unfold Mask.inter in *. rewrite N.land_comm. exact Hz.
Qed.

Lemma makes_wait_nothing `{Analysis} node nu cc (o : option EventUsers) :
  ~ makes_wait node nu cc Mask.empty o.
Proof.
  intros (eu & a & record & _ & _ & Hov & _). apply Hov. apply N.land_0_r.
Qed.

Lemma current_task_entry_in `{Analysis} ht node nu te mask cc
    (cit : Event * EventUsers) (st : gset Event * TaskAcc) (e : Event) :
  summary_is_union cit.2 ->
  e ∈ preconditions (current_task_entry ht node nu te mask cc cit st).2 <->
  e ∈ preconditions st.2 \/
  (e = cit.1 /\ ht e = false /\ e <> te /\ makes_wait node nu cc mask (Some cit.2)).
Proof.
  intros Hsum. unfold current_task_entry.
  destruct (ht cit.1) eqn:Hht.
  { cbn [snd]. split; [auto|]. intros [Hin | (-> & Hf & _)]; [exact Hin | congruence]. }
  destruct (N.eqb cit.1 te) eqn:Hte.
  { apply N.eqb_eq in Hte. split; [auto|].
    intros [Hin | (-> & _ & Hne & _)]; [exact Hin | contradiction]. }
  apply N.eqb_neq in Hte.
  destruct (decide (cit.1 ∈ preconditions st.2)) as [Hin1 | Hout1].
  { split; [auto|]. intros [Hin | (-> & _)]; [exact Hin | exact Hin1]. }
  destruct (users cit.2) as [u | m] eqn:Hu; cbn [snd].
  - rewrite (proj1 (find_current_preconditions_in node cit.1 u.2 (user_mask cit.2)
                      nu mask cc st.2 e)).
    rewrite (makes_wait_single node nu cc mask cit.2 u Hu). split.
    + intros [Hin | (-> & Hrest)]; [left; exact Hin | right; auto].
    + intros [Hin | (-> & _ & _ & Hrest)]; [left; exact Hin | right; auto].
  - destruct (Mask.disjoint mask (user_mask cit.2)) eqn:Hdis.
    + apply N.eqb_eq in Hdis. split; [auto|].
      intros [Hin | (_ & _ & _ & Hw)]; [exact Hin|].
      exfalso. exact (makes_wait_summary node nu cc mask cit.2 Hsum Hdis Hw).
    + cbn [snd]. rewrite find_current_multi_in.
      rewrite (makes_wait_multi node nu cc mask cit.2 m Hu). split.
      * intros [Hin | (-> & Hrest)]; [left; exact Hin | right; auto].
      * intros [Hin | (-> & _ & _ & Hrest)]; [left; exact Hin | right; auto].
Qed.

Lemma current_task_pass_in `{Analysis} ht node nu te mask cc
    (l : list (Event * EventUsers)) (st : gset Event * TaskAcc) (e : Event) :
  (forall cit, cit ∈ l -> summary_is_union cit.2) ->
  e ∈ preconditions
        (foldl (fun st cit => current_task_entry ht node nu te mask cc cit st) st l).2 <->
  e ∈ preconditions st.2 \/
  (ht e = false /\ e <> te /\
   exists eu, (e, eu) ∈ l /\ makes_wait node nu cc mask (Some eu)).
Proof.
  revert st. induction l as [|cit l IH]; intros st Hsum; cbn [foldl].
  - split; [auto|]. intros [Hin | (_ & _ & eu & Hin & _)]; [exact Hin | inversion Hin].
  - rewrite IH by (intros c Hc; apply Hsum; right; exact Hc).
    rewrite (current_task_entry_in ht node nu te mask cc cit st e)
      by (apply Hsum; left). split.
    + intros [[Hin | (-> & Hf & Hne & Hw)] | (Hf & Hne & eu & Hin & Hw)].
      * left; exact Hin.
      * right. split; [exact Hf|]. split; [exact Hne|]. exists cit.2.
        split; [destruct cit; left | exact Hw].
      * right. split; [exact Hf|]. split; [exact Hne|]. exists eu.
        split; [right; exact Hin | exact Hw].
    + intros [Hin | (Hf & Hne & eu & Hin & Hw)]; [left; left; exact Hin|].
      apply elem_of_cons in Hin as [<- | Hin].
      * left. right. auto.
      * right. split; [exact Hf|]. split; [exact Hne|]. exists eu. auto.
Qed.

Lemma previous_task_entry_in `{Analysis} ht node nu te nd dom cc
    (pit : Event * EventUsers) (st : PreviousTask) (e : Event) :
  summary_is_union pit.2 ->
  e ∈ prev_preconditions
        (previous_task_entry ht node nu te nd dom (Mask.is_empty nd) cc pit st) <->
  e ∈ prev_preconditions st \/
  (e = pit.1 /\ ht e = false /\ e <> te /\ makes_wait node nu cc nd (Some pit.2)).
Proof.
  intros Hsum. unfold previous_task_entry.
  destruct (ht pit.1) eqn:Hht.
  { cbn [prev_preconditions]. split; [auto|].
    intros [Hin | (-> & Hf & _)]; [exact Hin | congruence]. }
  destruct (N.eqb pit.1 te) eqn:Hte.
  { apply N.eqb_eq in Hte. split; [auto|].
    intros [Hin | (-> & _ & Hne & _)]; [exact Hin | contradiction]. }
  apply N.eqb_neq in Hte.
  destruct (decide (pit.1 ∈ prev_preconditions st)) as [Hin1 | Hout1].
  { split; [auto|]. intros [Hin | (-> & _)]; [exact Hin | exact Hin1]. }
  cbv zeta.
  destruct (Mask.is_empty nd) eqn:Hskip.
  { apply is_empty_true in Hskip. subst nd. cbn [prev_preconditions].
    split; [auto|]. intros [Hin | (_ & _ & _ & Hw)]; [exact Hin|].
    exfalso. exact (makes_wait_nothing node nu cc _ Hw). }
  destruct (users pit.2) as [u | m] eqn:Hu; cbn [prev_preconditions].
  - rewrite (proj1 (find_previous_preconditions_in node pit.1 u.2 (user_mask pit.2)
                      nu nd cc (prev_preconditions st) e)).
    rewrite (makes_wait_single node nu cc nd pit.2 u Hu). split.
    + intros [Hin | (-> & Hrest)]; [left; exact Hin | right; auto].
    + intros [Hin | (-> & _ & _ & Hrest)]; [left; exact Hin | right; auto].
  - destruct (Mask.disjoint nd (user_mask pit.2)) eqn:Hdis; cbn [prev_preconditions].
    + apply N.eqb_eq in Hdis. split; [auto|].
      intros [Hin | (_ & _ & _ & Hw)]; [exact Hin|].
      exfalso. exact (makes_wait_summary node nu cc nd pit.2 Hsum Hdis Hw).
    + rewrite find_previous_multi_in.
      rewrite (makes_wait_multi node nu cc nd pit.2 m Hu). split.
      * intros [Hin | (-> & Hrest)]; [left; exact Hin | right; auto].
      * intros [Hin | (-> & _ & _ & Hrest)]; [left; exact Hin | right; auto].
Qed.

Lemma previous_task_pass_in `{Analysis} ht node nu te nd dom cc
    (l : list (Event * EventUsers)) (st : PreviousTask) (e : Event) :
  (forall pit, pit ∈ l -> summary_is_union pit.2) ->
  e ∈ prev_preconditions
        (foldl (fun st pit => previous_task_entry ht node nu te nd dom
                                (Mask.is_empty nd) cc pit st) st l) <->
  e ∈ prev_preconditions st \/
  (ht e = false /\ e <> te /\
   exists eu, (e, eu) ∈ l /\ makes_wait node nu cc nd (Some eu)).
Proof.
  revert st. induction l as [|pit l IH]; intros st Hsum; cbn [foldl].
  - split; [auto|]. intros [Hin | (_ & _ & eu & Hin & _)]; [exact Hin | inversion Hin].
  - rewrite IH by (intros c Hc; apply Hsum; right; exact Hc).
    rewrite (previous_task_entry_in ht node nu te nd dom cc pit st e)
      by (apply Hsum; left). split.
    + intros [[Hin | (-> & Hf & Hne & Hw)] | (Hf & Hne & eu & Hin & Hw)].
      * left; exact Hin.
      * right. split; [exact Hf|]. split; [exact Hne|]. exists pit.2.
        split; [destruct pit; left | exact Hw].
      * right. split; [exact Hf|]. split; [exact Hne|]. exists eu.
        split; [right; exact Hin | exact Hw].
    + intros [Hin | (Hf & Hne & eu & Hin & Hw)]; [left; left; exact Hin|].
      apply elem_of_cons in Hin as [<- | Hin].
      * left. right. auto.
      * right. split; [exact Hf|]. split; [exact Hne|]. exists eu. auto.
Qed.

Lemma makes_wait_table `{Analysis} node nu cc mask (table : gmap Event EventUsers)
    (e : Event) :
  (exists eu, (e, eu) ∈ entries table /\ makes_wait node nu cc mask (Some eu)) <->
  makes_wait node nu cc mask (table !! e).
Proof.
  split.
  - intros (eu & Hin & Hw). apply elem_of_entries in Hin. rewrite Hin. exact Hw.
  - intros Hw. destruct Hw as (eu & a & record & Hl & Hrest).
    exists eu. split; [apply elem_of_entries; exact Hl|].
    exists eu, a, record. split; [reflexivity | exact Hrest].
Qed.

Lemma task_analysis_in `{Analysis} ht node nu te cc mask pre (s : MaterializedState)
    (e : Event) :
  table_summaries (current_epoch_users s) ->
  table_summaries (previous_epoch_users s) ->
  let a := task_analysis ht node nu te cc mask pre s in
  e ∈ ta_preconditions a <->
  e ∈ pre \/
  (ht e = false /\ e <> te /\
   (makes_wait node nu cc mask (current_epoch_users s !! e) \/
    makes_wait node nu cc (mask \\\ ta_dominated a) (previous_epoch_users s !! e))).
Proof.
  intros Hc Hp a. subst a. unfold task_analysis. cbv zeta.
  cbn [ta_preconditions ta_dominated].
  rewrite previous_task_pass_in
    by (intros [k eu] Hin; apply elem_of_entries in Hin; exact (Hp k eu Hin)).
  cbn [prev_preconditions].
  rewrite current_task_pass_in
    by (intros [k eu] Hin; apply elem_of_entries in Hin; exact (Hc k eu Hin)).
  cbn [snd preconditions].
  rewrite !makes_wait_table. tauto.
Qed.

(** X14.  What a task is made to wait for.  In a state the view reaches
    by its operations, an event is among the preconditions that
    [add_local_user] returns exactly when it was among those handed in,
    or when it has not triggered, is not the termination event of the
    caller, and some user under it makes the caller wait: a user of the
    current epoch that holds a field of the request, or a user of the
    previous epoch that holds a field of the request that the current
    epoch did not dominate; in both cases a user the child rules do not
    cut off and on which the dependence table gives a true or an anti
    dependence. *)
Theorem task_preconditions_exact `{Analysis}
    (has_triggered has_triggered' : Event -> bool)
    (node : RegionTreeNode) (next_user : RegionUsage) (term_event : Event)
    (base_user : bool) (child_color : ColorPoint) (version_info : VersionInfo)
    (mask : FieldMask) (pre : gset Event) (s : MaterializedState) (e : Event) :
  reachable s ->
  let dominated := ta_dominated (task_analysis has_triggered node next_user term_event
                                   child_color mask pre s) in
  e ∈ (add_local_user has_triggered has_triggered' node next_user term_event base_user
         child_color version_info mask pre s).1.2 <->
  e ∈ pre \/
  (has_triggered e = false /\ e <> term_event /\
   (makes_wait node next_user child_color mask (current_epoch_users s !! e) \/
    makes_wait node next_user child_color (mask \\\ dominated)
      (previous_epoch_users s !! e))).
Proof.
  intros Hs dominated. subst dominated.
  rewrite add_local_user_preconditions.
  destruct (reachable_well_formed s Hs) as (Hc & Hp & _).
  apply task_analysis_in; assumption.
Qed.

Lemma task_preconditions_exact_witness :
  let vi := mkVersionInfo (fun _ => true) (fun _ => None) in
  let dominated := ta_dominated (@task_analysis sample_analysis (fun _ => false)
                                   sample_node read_write 3 None 1 ∅ sample_view) in
  @reachable sample_analysis sample_view /\
  (2 ∈ (@add_local_user sample_analysis (fun _ => false) (fun _ => false) sample_node
          read_write 3 true None vi 1 ∅ sample_view).1.2 <->
   2 ∈ (∅ : gset Event) \/
   ((fun _ : Event => false) 2 = false /\ 2 <> 3 /\
    (@makes_wait sample_analysis sample_node read_write None 1
       (current_epoch_users sample_view !! 2) \/
     @makes_wait sample_analysis sample_node read_write None (1 \\\ dominated)
       (previous_epoch_users sample_view !! 2)))).
Proof.
  intros vi dominated. split; [exact sample_view_reachable|].
  exact (@task_preconditions_exact sample_analysis (fun _ => false) (fun _ => false)
           sample_node read_write 3 true None vi 1 ∅ sample_view 2 sample_view_reachable).
Defined.

(** ** What a task waits for in a hierarchy of views *)

Lemma makes_wait_conflicting `{Analysis} node nu cc mask d (s : MaterializedState)
    (e : Event) :
  makes_wait node nu cc mask (current_epoch_users s !! e) \/
  makes_wait node nu cc (mask \\\ d) (previous_epoch_users s !! e) ->
  conflicting_user nu mask s e.
Proof.
  intros [(eu & a & record & Hl & Hhas & Hov & _ & Hd)
         |(eu & a & record & Hl & Hhas & Hov & _ & Hd)].
  - exists eu, a, record. auto.
  - exists eu, a, record. split; [right; exact Hl|]. split; [exact Hhas|].
    split; [|exact Hd].
    apply inter_nonzero_bits in Hov as (i & Hi & Hm).
    apply inter_nonzero_bits. exists i. split; [exact Hi|].
    unfold Mask.diff in Hm. rewrite N.ldiff_spec in Hm.
    apply andb_true_iff in Hm as [Hm _]. exact Hm.
Qed.

Lemma add_user_above_in `{Analysis} ht ht' (v : MaterializedView) nu te vi mask (e :
  Event) : forall cc pre,
    chain_reachable v ->
    e ∈ (add_user_above ht ht' v nu te cc vi mask pre).1 ->
    e ∈ pre \/
    (ht e = false /\ e <> te /\
     exists w, w ∈ view_chain v /\ conflicting_user nu mask (view_state w) e).
Proof.
  induction v as [st node man | st node man p IH] using MaterializedView_chain_ind;
    intros cc pre [Hst Hp]; cbn [add_user_above view_chain].
  - cbn [fst snd]. rewrite add_local_user_preconditions.
    destruct (reachable_well_formed st Hst) as (Hc & Hpr & _).
    intros Hin. apply task_analysis_in in Hin; [|exact Hc|exact Hpr].
    destruct Hin as [Hin | (Hf & Hne & Hw)]; [left; exact Hin|].
    right. split; [exact Hf|]. split; [exact Hne|].
    eexists. split; [left|]. cbn [view_state].
    eapply makes_wait_conflicting. exact Hw.
  - destruct (reachable_well_formed st Hst) as (Hc & Hpr & _).
    destruct (negb (is_upper_bound_node vi node)); cbn [fst snd];
      rewrite add_local_user_preconditions; intros Hin;
      (apply task_analysis_in in Hin; [|exact Hc|exact Hpr]);
      (destruct Hin as [Hin | (Hf & Hne & Hw)];
       [|right; split; [exact Hf|]; split; [exact Hne|];
         eexists; split; [left|]; cbn [view_state];
         eapply makes_wait_conflicting; exact Hw]).
    + apply IH in Hin; [|exact Hp].
      destruct Hin as [Hin | (Hf & Hne & w & Hw & Hcu)]; [left; exact Hin|].
      right. split; [exact Hf|]. split; [exact Hne|].
      exists w. split; [right; exact Hw | exact Hcu].
    + left. exact Hin.
Qed.

(** X15.  A task does not wait for itself.  For a view whose ancestors
    and itself are in states they reach by their operations, and whose
    allocation is not made ready by the termination event of the caller,
    every event that [add_user] merges into the event it returns is
    another event than the termination event; it is the use event of the
    allocation, or an event that has not triggered and under which the
    view or one of its ancestors holds a user with a field of the
    request on which the dependence table gives a true or an anti
    dependence for the caller. *)
Theorem add_user_waits_on_others `{Analysis}
    (has_triggered has_triggered' : Event -> bool)
    (v : MaterializedView) (next_user : RegionUsage) (term_event : Event)
    (mask : FieldMask) (version_info : VersionInfo) (e : Event) :
  chain_reachable v ->
  get_use_event (manager v) <> term_event ->
  e ∈ (add_user has_triggered has_triggered' v next_user term_event mask
      version_info).1.1 ->
  e <> term_event /\
  (e = get_use_event (manager v) /\ event_exists e = true \/
   has_triggered e = false /\
   exists w, w ∈ view_chain v /\ conflicting_user next_user mask (view_state w) e).
Proof.
  intros Hv Huse.
  assert (Hstart : forall x,
            x ∈ (if event_exists (get_use_event (manager v))
                 then ({[get_use_event (manager v)]} : gset Event) else ∅) ->
            x = get_use_event (manager v) /\ event_exists x = true).
  { intros x Hx. destruct (event_exists (get_use_event (manager v))) eqn:Hex.
    - apply elem_of_singleton in Hx. subst x. auto.
    - inversion Hx. }
  destruct v as [st node man par]. destruct Hv as [Hst Hp].
  destruct (reachable_well_formed st Hst) as (Hc & Hpr & _).
  unfold add_user. cbn [view_state logical_node manager parent view_chain] in *.
  assert (Hlocal : forall pre',
            (forall x, x ∈ pre' ->
               x <> term_event /\
               (x = get_use_event man /\ event_exists x = true \/
                has_triggered x = false /\
                exists w, w ∈ match par with Some p => view_chain p | None => [] end /\
                          conflicting_user next_user mask (view_state w) x)) ->
            e ∈ (add_local_user has_triggered has_triggered' node next_user term_event
                   true None version_info mask pre' st).1.2 ->
            e <> term_event /\
            (e = get_use_event man /\ event_exists e = true \/
             has_triggered e = false /\
             exists w, w ∈ mkView st node man par ::
                             match par with Some p => view_chain p | None => [] end /\
                       conflicting_user next_user mask (view_state w) e)).
  { intros pre' Hpre. rewrite add_local_user_preconditions. intros Hin.
    apply task_analysis_in in Hin; [|exact Hc|exact Hpr].
    destruct Hin as [Hin | (Hf & Hne & Hw)].
    - destruct (Hpre e Hin) as [Hne [Hu | (Hf & w & Hw & Hcu)]].
      + split; [exact Hne|]. left. exact Hu.
      + split; [exact Hne|]. right. split; [exact Hf|].
        exists w. split; [right; exact Hw | exact Hcu].
    - split; [exact Hne|]. right. split; [exact Hf|].
      eexists. split; [left|]. cbn [view_state].
      eapply makes_wait_conflicting. exact Hw. }
  assert (Hbase : forall x,
            x ∈ (if event_exists (get_use_event man)
                 then ({[get_use_event man]} : gset Event) else ∅) ->
            x <> term_event /\
            (x = get_use_event man /\ event_exists x = true \/
             has_triggered x = false /\
             exists w, w ∈ match par with Some p => view_chain p | None => [] end /\
                       conflicting_user next_user mask (view_state w) x)).
  { intros x Hx. destruct (Hstart x Hx) as [-> Hex].
    split; [exact Huse|]. left. auto. }
  destruct par as [p|].
  - destruct (negb (is_upper_bound_node version_info node)); cbn [fst snd].
    + apply Hlocal. intros x Hx.
      apply add_user_above_in in Hx; [|exact Hp].
      destruct Hx as [Hx | (Hf & Hne & Hw)]; [apply Hbase; exact Hx|].
      split; [exact Hne|]. right. auto.
    + apply Hlocal. exact Hbase.
  - cbn [fst snd]. apply Hlocal. exact Hbase.
Qed.

Lemma add_user_waits_on_others_witness :
  let vi := mkVersionInfo (fun _ => true) (fun _ => None) in
  let v := mkView sample_view sample_node (mkManager 5) None in
  (@chain_reachable sample_analysis v /\ get_use_event (manager v) <> 3 /\
   2 ∈ (@add_user sample_analysis (fun _ => false) (fun _ => false) v read_write 3 1
       vi).1.1) /\
  2 <> 3.
Proof.
  intros vi v.
  assert (Hv : @chain_reachable sample_analysis v)
    by (split; [exact sample_view_reachable | exact I]).
  assert (Hu : get_use_event (manager v) <> 3) by (cbn; discriminate).
  assert (Hin : 2 ∈ (@add_user sample_analysis (fun _ => false) (fun _ => false) v
                       read_write 3 1 vi).1.1) by (vm_compute; reflexivity).
  split; [auto|].
  exact (proj1 (@add_user_waits_on_others sample_analysis (fun _ => false) (fun _ =>
      false) v
                  read_write 3 1 vi 2 Hv Hu Hin)).
Defined.

(** ** What a copy waits for *)

Lemma record_precondition_seen (j : option N) (te : Event) (overlap : FieldMask)
    (pre : gmap Event FieldMask) (e : Event) :
  seen j (record_precondition te overlap pre) e <->
  seen j pre e \/ (e = te /\ hit j overlap).
Proof.
  destruct j as [i|]; cbn [seen hit].
  - unfold fields_for, record_precondition.
    destruct (decide (e = te)) as [->|Hne].
    + destruct (pre !! te) as [m|] eqn:Hl; rewrite lookup_insert_eq;
        cbn [default from_option id].
      * unfold Mask.union. rewrite N.lor_spec, orb_true_iff. tauto.
      * unfold Mask.empty. rewrite N.bits_0. split; [auto|].
        intros [Hd | [_ Hb]]; [discriminate | exact Hb].
    + destruct (pre !! te) as [m|] eqn:Hl; rewrite lookup_insert_ne by congruence;
        (split; [auto|]; intros [Hd | [He _]]; [exact Hd | contradiction]).
  - rewrite dom_record_precondition. set_solver.
Qed.

Lemma find_current_copy_preconditions_seen `{Analysis} j node te u m redop reading
    cm cc vs acc e :
  seen j (copy_preconditions
            (find_current_copy_preconditions node te u m redop reading cm cc vs acc)) e <->
  seen j (copy_preconditions acc) e \/
  (e = te /\ hit j (m &&& cm) /\ m &&& cm <> 0 /\ cut_off node cc u = false /\
   reading && IS_READ_ONLY (usage u) = false /\
   N.ltb 0 redop && N.eqb (user_redop u) redop = false /\
   same_version_skip u redop reading (m &&& cm) vs = false).
Proof.
  unfold find_current_copy_preconditions, cut_off. cbv zeta.
  assert (Hcomm : cm &&& m = m &&& cm) by apply N.land_comm.
  rewrite Hcomm.
  destruct (Mask.is_empty (m &&& cm)) eqn:He.
  { apply is_empty_true in He. split; [auto|].
    intros [Hs | (_ & _ & Hne & _)]; [exact Hs | contradiction]. }
  apply is_empty_false in He.
  destruct (same_child cc u); cbn [orb copy_add_non_dominated copy_add_observed
                                    copy_preconditions].
  { split; [auto|]. intros [Hs | (_ & _ & _ & Hc & _)]; [exact Hs | discriminate]. }
  destruct (disjoint_children node cc u);
    cbn [copy_add_non_dominated copy_add_observed copy_preconditions].
  { split; [auto|]. intros [Hs | (_ & _ & _ & Hc & _)]; [exact Hs | discriminate]. }
  destruct (reading && IS_READ_ONLY (usage u));
    cbn [copy_add_non_dominated copy_add_observed copy_preconditions].
  { split; [auto|]. intros [Hs | (_ & _ & _ & _ & Hc & _)]; [exact Hs | discriminate]. }
  destruct (N.ltb 0 redop && N.eqb (user_redop u) redop);
    cbn [copy_add_non_dominated copy_add_observed copy_preconditions].
  { split; [auto|].
    intros [Hs | (_ & _ & _ & _ & _ & Hc & _)]; [exact Hs | discriminate]. }
  destruct (same_version_skip u redop reading (m &&& cm) vs);
    cbn [copy_add_non_dominated copy_add_observed copy_add_precondition
         copy_preconditions].
  { split; [auto|].
    intros [Hs | (_ & _ & _ & _ & _ & _ & Hc)]; [exact Hs | discriminate]. }
  rewrite record_precondition_seen. split.
  - intros [Hs | (-> & Hh)]; [left; exact Hs | right; auto 10].
  - intros [Hs | (-> & Hh & _)]; [left; exact Hs | right; auto].
Qed.

Lemma find_previous_copy_preconditions_seen `{Analysis} j node te u m redop reading
    cm cc vs pre e :
  seen j (find_previous_copy_preconditions node te u m redop reading cm cc vs pre) e <->
  seen j pre e \/
  (e = te /\ hit j (m &&& cm) /\ m &&& cm <> 0 /\ cut_off node cc u = false /\
   reading && IS_READ_ONLY (usage u) = false /\
   N.ltb 0 redop && N.eqb (user_redop u) redop = false /\
   same_version_skip u redop reading (m &&& cm) vs = false).
Proof.
  unfold find_previous_copy_preconditions, cut_off. cbv zeta.
  destruct (same_child cc u); cbn [orb].
  { split; [auto|]. intros [Hs | (_ & _ & _ & Hc & _)]; [exact Hs | discriminate]. }
  destruct (disjoint_children node cc u).
  { split; [auto|]. intros [Hs | (_ & _ & _ & Hc & _)]; [exact Hs | discriminate]. }
  destruct (Mask.is_empty (m &&& cm)) eqn:He.
  { apply is_empty_true in He. split; [auto|].
    intros [Hs | (_ & _ & Hne & _)]; [exact Hs | contradiction]. }
  apply is_empty_false in He.
  destruct (reading && IS_READ_ONLY (usage u)).
  { split; [auto|]. intros [Hs | (_ & _ & _ & _ & Hc & _)]; [exact Hs | discriminate]. }
  destruct (N.ltb 0 redop && N.eqb (user_redop u) redop).
  { split; [auto|].
    intros [Hs | (_ & _ & _ & _ & _ & Hc & _)]; [exact Hs | discriminate]. }
  destruct (same_version_skip u redop reading (m &&& cm) vs).
  { split; [auto|].
    intros [Hs | (_ & _ & _ & _ & _ & _ & Hc)]; [exact Hs | discriminate]. }
  rewrite record_precondition_seen. split.
  - intros [Hs | (-> & Hh)]; [left; exact Hs | right; auto 10].
  - intros [Hs | (-> & Hh & _)]; [left; exact Hs | right; auto].
Qed.

(** The users of a multi bucket, one after the other. *)
Lemma current_copy_users_seen `{Analysis} j node te redop reading cm cc vs
    (l : list (N * (PhysicalUser * FieldMask))) (acc : CopyAcc) (e : Event) :
  seen j (copy_preconditions
            (foldl (fun acc (it : N * (PhysicalUser * FieldMask)) =>
                      find_current_copy_preconditions node te it.2.1 it.2.2
                        redop reading cm cc vs acc) acc l)) e <->
  seen j (copy_preconditions acc) e \/
  (e = te /\ exists it : N * (PhysicalUser * FieldMask),
     it ∈ l /\ hit j (it.2.2 &&& cm) /\ it.2.2 &&& cm <> 0 /\
     cut_off node cc it.2.1 = false /\
     reading && IS_READ_ONLY (usage it.2.1) = false /\
     N.ltb 0 redop && N.eqb (user_redop it.2.1) redop = false /\
     same_version_skip it.2.1 redop reading (it.2.2 &&& cm) vs = false).
Proof.
  revert acc. induction l as [|it l IH]; intros acc; cbn [foldl].
  - split; [auto|]. intros [Hs | (_ & it & Hit & _)]; [exact Hs | inversion Hit].
  - rewrite IH, find_current_copy_preconditions_seen. split.
    + intros [[Hs | (-> & Hrest)] | (-> & it' & Hit & Hrest)].
      * left; exact Hs.
      * right. split; [reflexivity|]. exists it. split; [left | exact Hrest].
      * right. split; [reflexivity|]. exists it'. split; [right; exact Hit | exact Hrest].
    + intros [Hs | (-> & it' & Hit & Hrest)]; [left; left; exact Hs|].
      apply elem_of_cons in Hit as [-> | Hit].
      * left. right. split; [reflexivity | exact Hrest].
      * right. split; [reflexivity|]. exists it'. split; [exact Hit | exact Hrest].
Qed.

Lemma previous_copy_users_seen `{Analysis} j node te redop reading cm cc vs
    (l : list (N * (PhysicalUser * FieldMask))) (pre : gmap Event FieldMask)
    (e : Event) :
  seen j (foldl (fun pre (it : N * (PhysicalUser * FieldMask)) =>
                   find_previous_copy_preconditions node te it.2.1 it.2.2
                     redop reading cm cc vs pre) pre l) e <->
  seen j pre e \/
  (e = te /\ exists it : N * (PhysicalUser * FieldMask),
     it ∈ l /\ hit j (it.2.2 &&& cm) /\ it.2.2 &&& cm <> 0 /\
     cut_off node cc it.2.1 = false /\
     reading && IS_READ_ONLY (usage it.2.1) = false /\
     N.ltb 0 redop && N.eqb (user_redop it.2.1) redop = false /\
     same_version_skip it.2.1 redop reading (it.2.2 &&& cm) vs = false).
Proof.
  revert pre. induction l as [|it l IH]; intros pre; cbn [foldl].
  - split; [auto|]. intros [Hs | (_ & it & Hit & _)]; [exact Hs | inversion Hit].
  - rewrite IH, find_previous_copy_preconditions_seen. split.
    + intros [[Hs | (-> & Hrest)] | (-> & it' & Hit & Hrest)].
      * left; exact Hs.
      * right. split; [reflexivity|]. exists it. split; [left | exact Hrest].
      * right. split; [reflexivity|]. exists it'. split; [right; exact Hit | exact Hrest].
    + intros [Hs | (-> & it' & Hit & Hrest)]; [left; left; exact Hs|].
      apply elem_of_cons in Hit as [-> | Hit].
      * left. right. split; [reflexivity | exact Hrest].
      * right. split; [reflexivity|]. exists it'. split; [exact Hit | exact Hrest].
Qed.

(** A bucket, as the analysis meets its users. *)
Lemma makes_copy_wait_single `{Analysis} j node redop reading cc vs mask
    (eu : EventUsers) (u : N * PhysicalUser) :
  users eu = single_user u ->
  (exists ov, hit j ov /\ makes_copy_wait node redop reading cc vs mask (Some eu) ov) <->
  hit j (user_mask eu &&& mask) /\ user_mask eu &&& mask <> 0 /\
  cut_off node cc u.2 = false /\
  reading && IS_READ_ONLY (usage u.2) = false /\
  N.ltb 0 redop && N.eqb (user_redop u.2) redop = false /\
  same_version_skip u.2 redop reading (user_mask eu &&& mask) vs = false.
Proof.
  intros Hu. unfold makes_copy_wait, bucket_has, bucket_fields. split.
  - intros (ov & Hh & eu' & a & record & [= <-] & Hhas & -> & Hrest).
    rewrite Hu in Hhas, Hh, Hrest. subst u. cbn [fst snd] in *.
    rewrite decide_True in Hh, Hrest by reflexivity. auto.
  - intros (Hh & Hrest). exists (user_mask eu &&& mask). split; [exact Hh|].
    exists eu, u.1, u.2. rewrite Hu. rewrite decide_True by reflexivity.
    split; [reflexivity|]. split; [destruct u; reflexivity|].
    split; [reflexivity | exact Hrest].
Qed.

Lemma makes_copy_wait_multi `{Analysis} j node redop reading cc vs mask
    (eu : EventUsers) (m : UserMap) :
  users eu = multi_users m ->
  (exists ov, hit j ov /\ makes_copy_wait node redop reading cc vs mask (Some eu) ov) <->
  exists it : N * (PhysicalUser * FieldMask),
    it ∈ entries m /\ hit j (it.2.2 &&& mask) /\ it.2.2 &&& mask <> 0 /\
    cut_off node cc it.2.1 = false /\
    reading && IS_READ_ONLY (usage it.2.1) = false /\
    N.ltb 0 redop && N.eqb (user_redop it.2.1) redop = false /\
    same_version_skip it.2.1 redop reading (it.2.2 &&& mask) vs = false.
Proof.
  intros Hu. unfold makes_copy_wait, bucket_has, bucket_fields. split.
  - intros (ov & Hh & eu' & a & record & [= <-] & Hhas & -> & Hrest).
    rewrite Hu in Hhas, Hh, Hrest. destruct Hhas as [fm Hl].
    unfold mask_at in Hh, Hrest. rewrite Hl in Hh, Hrest. cbn [snd] in Hh, Hrest.
    exists (a, (record, fm)). split; [apply elem_of_entries; exact Hl|]. auto.
  - intros ([a [record fm]] & Hin & Hh & Hrest). cbn [fst snd] in *.
    apply elem_of_entries in Hin.
    exists (fm &&& mask). split; [exact Hh|].
    exists eu, a, record. rewrite Hu. split; [reflexivity|].
    split; [exists fm; exact Hin|].
    unfold mask_at. rewrite Hin. cbn [snd]. split; [reflexivity | exact Hrest].
Qed.

Lemma makes_copy_wait_summary `{Analysis} node redop reading cc vs mask
    (eu : EventUsers) (ov : FieldMask) :
  summary_is_union eu -> mask &&& user_mask eu = 0 ->
  ~ makes_copy_wait node redop reading cc vs mask (Some eu) ov.
Proof.
  intros Hsum Hz (eu' & a & record & [= <-] & _ & -> & Hov & _).
  apply Hov. eapply disjoint_of_user; [exact Hsum|].
  unfold Mask.inter in *. rewrite N.land_comm. exact Hz.
Qed.

Lemma makes_copy_wait_nothing `{Analysis} node redop reading cc vs
    (o : option EventUsers) (ov : FieldMask) :
  ~ makes_copy_wait node redop reading cc vs Mask.empty o ov.
Proof.
  intros (eu & a & record & _ & _ & -> & Hov & _). apply Hov. apply N.land_0_r.
Qed.

Lemma current_copy_entry_seen `{Analysis} j ht node redop reading cm cc vs
    (cit : Event * EventUsers) (st : gset Event * CopyAcc) (e : Event) :
  summary_is_union cit.2 ->
  seen j (copy_preconditions
            (current_copy_entry ht node redop reading cm cc vs cit st).2) e <->
  seen j (copy_preconditions st.2) e \/
  (e = cit.1 /\ ht e = false /\
   exists ov, hit j ov /\ makes_copy_wait node redop reading cc vs cm (Some cit.2) ov).
Proof.
  intros Hsum. unfold current_copy_entry.
  destruct (ht cit.1) eqn:Hht.
  { cbn [snd]. split; [auto|]. intros [Hs | (-> & Hf & _)]; [exact Hs | congruence]. }
  destruct (users cit.2) as [u | m] eqn:Hu; cbn [snd].
  - rewrite find_current_copy_preconditions_seen.
    rewrite (makes_copy_wait_single j node redop reading cc vs cm cit.2 u Hu). split.
    + intros [Hs | (-> & Hrest)]; [left; exact Hs | right; auto].
    + intros [Hs | (-> & _ & Hrest)]; [left; exact Hs | right; auto].
  - destruct (Mask.disjoint cm (user_mask cit.2)) eqn:Hdis.
    + apply N.eqb_eq in Hdis. split; [auto|].
      intros [Hs | (_ & _ & ov & _ & Hw)]; [exact Hs|].
      exfalso. exact (makes_copy_wait_summary node redop reading cc vs cm cit.2 ov
                        Hsum Hdis Hw).
    + cbn [snd]. rewrite current_copy_users_seen.
      rewrite (makes_copy_wait_multi j node redop reading cc vs cm cit.2 m Hu). split.
      * intros [Hs | (-> & Hrest)]; [left; exact Hs | right; auto].
      * intros [Hs | (-> & _ & Hrest)]; [left; exact Hs | right; auto].
Qed.

Lemma previous_copy_entry_seen `{Analysis} j ht node redop reading nd dom cc vs
    (pit : Event * EventUsers) (st : PreviousCopy) (e : Event) :
  summary_is_union pit.2 ->
  seen j (prevc_preconditions
            (previous_copy_entry ht node redop reading nd dom (Mask.is_empty nd)
               cc vs pit st)) e <->
  seen j (prevc_preconditions st) e \/
  (e = pit.1 /\ ht e = false /\
   exists ov, hit j ov /\ makes_copy_wait node redop reading cc vs nd (Some pit.2) ov).
Proof.
  intros Hsum. unfold previous_copy_entry.
  destruct (ht pit.1) eqn:Hht.
  { cbn [prevc_preconditions]. split; [auto|].
    intros [Hs | (-> & Hf & _)]; [exact Hs | congruence]. }
  cbv zeta.
  destruct (Mask.is_empty nd) eqn:Hskip.
  { apply is_empty_true in Hskip. subst nd. cbn [prevc_preconditions].
    split; [auto|]. intros [Hs | (_ & _ & ov & _ & Hw)]; [exact Hs|].
    exfalso. exact (makes_copy_wait_nothing node redop reading cc vs _ ov Hw). }
  destruct (users pit.2) as [u | m] eqn:Hu; cbn [prevc_preconditions].
  - rewrite find_previous_copy_preconditions_seen.
    rewrite (makes_copy_wait_single j node redop reading cc vs nd pit.2 u Hu). split.
    + intros [Hs | (-> & Hrest)]; [left; exact Hs | right; auto].
    + intros [Hs | (-> & _ & Hrest)]; [left; exact Hs | right; auto].
  - destruct (Mask.disjoint nd (user_mask pit.2)) eqn:Hdis; cbn [prevc_preconditions].
    + apply N.eqb_eq in Hdis. split; [auto|].
      intros [Hs | (_ & _ & ov & _ & Hw)]; [exact Hs|].
      exfalso. exact (makes_copy_wait_summary node redop reading cc vs nd pit.2 ov
                        Hsum Hdis Hw).
    + rewrite previous_copy_users_seen.
      rewrite (makes_copy_wait_multi j node redop reading cc vs nd pit.2 m Hu). split.
      * intros [Hs | (-> & Hrest)]; [left; exact Hs | right; auto].
      * intros [Hs | (-> & _ & Hrest)]; [left; exact Hs | right; auto].
Qed.

Lemma current_copy_pass_seen `{Analysis} j ht node redop reading cm cc vs
    (l : list (Event * EventUsers)) (st : gset Event * CopyAcc) (e : Event) :
  (forall cit, cit ∈ l -> summary_is_union cit.2) ->
  seen j (copy_preconditions
            (foldl (fun st cit => current_copy_entry ht node redop reading cm cc vs
                                    cit st) st l).2) e <->
  seen j (copy_preconditions st.2) e \/
  (ht e = false /\
   exists eu ov, (e, eu) ∈ l /\ hit j ov /\
                 makes_copy_wait node redop reading cc vs cm (Some eu) ov).
Proof.
  revert st. induction l as [|cit l IH]; intros st Hsum; cbn [foldl].
  - split; [auto|]. intros [Hs | (_ & eu & ov & Hin & _)]; [exact Hs | inversion Hin].
  - rewrite IH by (intros c Hc; apply Hsum; right; exact Hc).
    rewrite (current_copy_entry_seen j ht node redop reading cm cc vs cit st e)
      by (apply Hsum; left). split.
    + intros [[Hs | (-> & Hf & ov & Hh & Hw)] | (Hf & eu & ov & Hin & Hh & Hw)].
      * left; exact Hs.
      * right. split; [exact Hf|]. exists cit.2, ov.
        split; [destruct cit; left | auto].
      * right. split; [exact Hf|]. exists eu, ov. split; [right; exact Hin | auto].
    + intros [Hs | (Hf & eu & ov & Hin & Hh & Hw)]; [left; left; exact Hs|].
      apply elem_of_cons in Hin as [<- | Hin].
      * left. right. cbn [fst snd]. split; [reflexivity|]. split; [exact Hf|].
        exists ov. auto.
      * right. split; [exact Hf|]. exists eu, ov. auto.
Qed.

Lemma previous_copy_pass_seen `{Analysis} j ht node redop reading nd dom cc vs
    (l : list (Event * EventUsers)) (st : PreviousCopy) (e : Event) :
  (forall pit, pit ∈ l -> summary_is_union pit.2) ->
  seen j (prevc_preconditions
            (foldl (fun st pit => previous_copy_entry ht node redop reading nd dom
                                    (Mask.is_empty nd) cc vs pit st) st l)) e <->
  seen j (prevc_preconditions st) e \/
  (ht e = false /\
   exists eu ov, (e, eu) ∈ l /\ hit j ov /\
                 makes_copy_wait node redop reading cc vs nd (Some eu) ov).
Proof.
  revert st. induction l as [|pit l IH]; intros st Hsum; cbn [foldl].
  - split; [auto|]. intros [Hs | (_ & eu & ov & Hin & _)]; [exact Hs | inversion Hin].
  - rewrite IH by (intros c Hc; apply Hsum; right; exact Hc).
    rewrite (previous_copy_entry_seen j ht node redop reading nd dom cc vs pit st e)
      by (apply Hsum; left). split.
    + intros [[Hs | (-> & Hf & ov & Hh & Hw)] | (Hf & eu & ov & Hin & Hh & Hw)].
      * left; exact Hs.
      * right. split; [exact Hf|]. exists pit.2, ov.
        split; [destruct pit; left | auto].
      * right. split; [exact Hf|]. exists eu, ov. split; [right; exact Hin | auto].
    + intros [Hs | (Hf & eu & ov & Hin & Hh & Hw)]; [left; left; exact Hs|].
      apply elem_of_cons in Hin as [<- | Hin].
      * left. right. cbn [fst snd]. split; [reflexivity|]. split; [exact Hf|].
        exists ov. auto.
      * right. split; [exact Hf|]. exists eu, ov. auto.
Qed.

Lemma makes_copy_wait_table `{Analysis} j node redop reading cc vs mask
    (table : gmap Event EventUsers) (e : Event) :
  (exists eu ov, (e, eu) ∈ entries table /\ hit j ov /\
                 makes_copy_wait node redop reading cc vs mask (Some eu) ov) <->
  exists ov, hit j ov /\ makes_copy_wait node redop reading cc vs mask (table !! e) ov.
Proof.
  split.
  - intros (eu & ov & Hin & Hh & Hw). apply elem_of_entries in Hin. rewrite Hin.
    exists ov. auto.
  - intros (ov & Hh & Hw). destruct Hw as (eu & a & record & Hl & Hrest).
    exists eu, ov. split; [apply elem_of_entries; exact Hl|]. split; [exact Hh|].
    exists eu, a, record. split; [reflexivity | exact Hrest].
Qed.

Lemma copy_analysis_seen `{Analysis} j ht node redop reading cm cc vs pre
    (s : MaterializedState) (e : Event) :
  table_summaries (current_epoch_users s) ->
  table_summaries (previous_epoch_users s) ->
  let a := copy_analysis ht node redop reading cm cc vs pre s in
  seen j (ca_preconditions a) e <->
  seen j pre e \/
  (ht e = false /\
   exists ov, hit j ov /\
     (makes_copy_wait node redop reading cc vs cm (current_epoch_users s !! e) ov \/
      makes_copy_wait node redop reading cc vs (cm \\\ ca_dominated a)
        (previous_epoch_users s !! e) ov)).
Proof.
  intros Hc Hp a. subst a. unfold copy_analysis. cbv zeta.
  cbn [ca_preconditions ca_dominated].
  rewrite previous_copy_pass_seen
    by (intros [k eu] Hin; apply elem_of_entries in Hin; exact (Hp k eu Hin)).
  cbn [prevc_preconditions].
  rewrite current_copy_pass_seen
    by (intros [k eu] Hin; apply elem_of_entries in Hin; exact (Hc k eu Hin)).
  cbn [snd copy_preconditions].
  rewrite !makes_copy_wait_table. split.
  - intros [[Hs | (Hf & ov & Hh & Hw)] | (Hf & ov & Hh & Hw)].
    + left; exact Hs.
    + right. split; [exact Hf|]. exists ov. auto.
    + right. split; [exact Hf|]. exists ov. auto.
  - intros [Hs | (Hf & ov & Hh & [Hw | Hw])].
    + left; left; exact Hs.
    + left. right. split; [exact Hf|]. exists ov. auto.
    + right. split; [exact Hf|]. exists ov. auto.
Qed.

(** X16.  What a copy is made to wait for.  In a state the view reaches
    by its operations, the map that [find_local_copy_preconditions]
    returns holds an event exactly when the map handed in held it, or
    when the event has not triggered and some user under it makes the
    copy wait; and it holds a field for the event exactly when the map
    handed in did, or when such a user shares the field with the copy.
    The users are those of the current epoch with a field of the copy,
    and those of the previous epoch with a field of the copy that the
    current epoch did not dominate; the versions are looked at only when
    the call did not come from a child. *)
Theorem copy_preconditions_exact `{Analysis}
    (has_triggered has_triggered' : Event -> bool)
    (node : RegionTreeNode) (redop : ReductionOpID) (reading : bool)
    (copy_mask : FieldMask) (child_color : ColorPoint) (version_info : VersionInfo)
    (pre : gmap Event FieldMask) (s : MaterializedState) (e : Event) :
  reachable s ->
  let versions :=
    if is_valid child_color then None else get_versions version_info node in
  let dominated := ca_dominated (copy_analysis has_triggered node redop reading
                                   copy_mask child_color versions pre s) in
  let waits overlap :=
    makes_copy_wait node redop reading child_color versions copy_mask
      (current_epoch_users s !! e) overlap \/
    makes_copy_wait node redop reading child_color versions (copy_mask \\\ dominated)
      (previous_epoch_users s !! e) overlap in
  let r := find_local_copy_preconditions has_triggered has_triggered' node redop
             reading copy_mask child_color version_info pre s in
  (e ∈ dom r.1 <->
   e ∈ dom pre \/ (has_triggered e = false /\ exists overlap, waits overlap)) /\
  (forall i,
     N.testbit (fields_for r.1 e) i = true <->
     N.testbit (fields_for pre e) i = true \/
     (has_triggered e = false /\
      exists overlap, N.testbit overlap i = true /\ waits overlap)).
Proof.
  intros Hs versions dominated waits r. subst r waits dominated.
  unfold find_local_copy_preconditions. cbn [fst]. fold versions.
  destruct (reachable_well_formed s Hs) as (Hc & Hp & _).
  split.
  - pose proof (copy_analysis_seen None has_triggered node redop reading copy_mask
                  child_color versions pre s e Hc Hp) as Hseen.
    cbv zeta in Hseen. cbn [seen hit] in Hseen. rewrite Hseen. split.
    + intros [Hd | (Hf & ov & _ & Hw)]; [left; exact Hd|].
      right. split; [exact Hf|]. exists ov. exact Hw.
    + intros [Hd | (Hf & ov & Hw)]; [left; exact Hd|].
      right. split; [exact Hf|]. exists ov. split; [exact I | exact Hw].
  - intros i.
    pose proof (copy_analysis_seen (Some i) has_triggered node redop reading copy_mask
                  child_color versions pre s e Hc Hp) as Hseen.
    cbv zeta in Hseen. cbn [seen hit] in Hseen. exact Hseen.
Qed.

Lemma copy_preconditions_exact_witness :
  let vi := mkVersionInfo (fun _ => true) (fun _ => None) in
  let r := @find_local_copy_preconditions sample_analysis (fun _ => false) (fun _ =>
      false) sample_node
             0 false 1 None vi ∅ sample_view in
  @reachable sample_analysis sample_view /\
  (2 ∈ dom r.1 <->
   2 ∈ dom (∅ : gmap Event FieldMask) \/
   ((fun _ : Event => false) 2 = false /\
    exists overlap,
      @makes_copy_wait sample_analysis sample_node 0 false None None 1
        (current_epoch_users sample_view !! 2) overlap \/
      @makes_copy_wait sample_analysis sample_node 0 false None None
        (1 \\\ ca_dominated (@copy_analysis sample_analysis (fun _ => false)
                               sample_node 0 false 1 None None ∅ sample_view))
        (previous_epoch_users sample_view !! 2) overlap)).
Proof.
  intros vi r. split; [exact sample_view_reachable|].
  exact (proj1 (@copy_preconditions_exact sample_analysis (fun _ => false) (fun _ =>
      false) sample_node
                  0 false 1 None vi ∅ sample_view 2 sample_view_reachable)).
Defined.

(** ** A new user is seen by the next task *)

Lemma cut_off_child (node : RegionTreeNode) (cc : ColorPoint) (u u' : PhysicalUser) :
  child u = child u' -> cut_off node cc u = cut_off node cc u'.
Proof.
  intros Hc. unfold cut_off, same_child, disjoint_children. rewrite Hc. reflexivity.
Qed.

Lemma new_user_record `{Analysis} (node : RegionTreeNode) (usage0 : RegionUsage)
    (cc : ColorPoint) (vi : VersionInfo) (h : UserHeap) :
  usage (new_user node usage0 cc vi h).1.2 = usage0 /\
  child (new_user node usage0 cc vi h).1.2 = cc.
Proof.
  unfold new_user, legion_new. destruct (IS_READ_ONLY usage0); split; reflexivity.
Qed.

Lemma add_current_user_holds (user : N * PhysicalUser) (e : Event) (mask : FieldMask)
    (s : MaterializedState) :
  exists eu,
    current_epoch_users (add_current_user user e mask s) !! e = Some eu /\
    bucket_has eu user.1 user.2 /\ bucket_fields eu user.1 = mask.
Proof.
  unfold add_current_user, set_current. cbn [current_epoch_users].
  rewrite lookup_insert_eq. eexists. split; [reflexivity|]. split.
  - apply insert_user_has.
  - rewrite insert_user_fields. rewrite decide_True by reflexivity. reflexivity.
Qed.

Lemma add_local_user_holds `{Analysis} ht ht' node usage0 te base cc vi mask pre
  (s : MaterializedState) : event_exists te = true ->
  exists eu a record,
    current_epoch_users (add_local_user ht ht' node usage0 te base cc vi mask pre s).2
      !! te = Some eu /\
    bucket_has eu a record /\ bucket_fields eu a = mask /\
    usage record = usage0 /\ child record = cc.
Proof.
  intros Hex. unfold add_local_user. rewrite Hex.
  destruct (new_user_record node usage0 cc vi (heap s)) as [Hu Hc].
  destruct (new_user node usage0 cc vi (heap s)) as [user h]. cbn [fst snd] in Hu, Hc.
  set (s1 := apply_filters _ _ _ _ _).
  destruct (add_current_user_holds user te mask s1) as (eu & Hl & Hhas & Hf).
  exists eu, user.1, user.2.
  destruct (decide _); cbn [snd set_gc current_epoch_users]; auto.
Qed.

Lemma add_local_copy_user_holds `{Analysis} node usage0 te base cc vi mask
    (s : MaterializedState) :
  exists eu a record,
    current_epoch_users (add_local_copy_user node usage0 te base cc vi mask s).2 !! te
      = Some eu /\
    bucket_has eu a record /\ bucket_fields eu a = mask /\
    usage record = usage0 /\ child record = cc.
Proof.
  unfold add_local_copy_user.
  destruct (new_user_record node usage0 cc vi (heap s)) as [Hu Hc].
  destruct (new_user node usage0 cc vi (heap s)) as [user h]. cbn [fst snd] in Hu, Hc.
  destruct (add_current_user_holds user te mask (set_heap (fun _ => h) s))
    as (eu & Hl & Hhas & Hf).
  exists eu, user.1, user.2. cbn [snd set_gc current_epoch_users]. auto.
Qed.

(** X17.  A task or a copy that has just been added is seen by the next
    task.  Let a user be added to a view, in a state the view reaches by
    its operations, under an event [e1]; let a task then come for fields
    that overlap those of the user, with a usage that the dependence
    table orders after the user by a true or an anti dependence, from a
    child that the child rules do not set apart, and under another
    termination event.  If [e1] has not triggered by then, the task is
    made to wait for [e1]. *)
Theorem new_user_is_waited_for `{Analysis} (ht lt ht' lt' : Event -> bool)
    (node : RegionTreeNode) (first next_user : RegionUsage) (e1 e2 : Event)
    (b1 b2 : bool) (cc1 cc2 : ColorPoint) (vi1 vi2 : VersionInfo)
    (mask1 mask2 : FieldMask) (pre1 pre2 : gset Event) (s : MaterializedState) :
  reachable s ->
  ht' e1 = false -> e1 <> e2 ->
  mask1 &&& mask2 <> 0 ->
  cut_off node cc2 (mkUser first cc1 None) = false ->
  is_dependence (check_dependence_type first next_user) = true ->
  (event_exists e1 = true ->
   e1 ∈ (add_local_user ht' lt' node next_user e2 b2 cc2 vi2 mask2 pre2
           (add_local_user ht lt node first e1 b1 cc1 vi1 mask1 pre1 s).2).1.2) /\
  e1 ∈ (add_local_user ht' lt' node next_user e2 b2 cc2 vi2 mask2 pre2
          (add_local_copy_user node first e1 b1 cc1 vi1 mask1 s).2).1.2.
Proof.
  intros Hs Hht Hne Hov Hcut Hdep.
  assert (Hwait : forall s1 : MaterializedState,
            reachable s1 ->
            (exists eu a record,
               current_epoch_users s1 !! e1 = Some eu /\
               bucket_has eu a record /\ bucket_fields eu a = mask1 /\
               usage record = first /\ child record = cc1) ->
            e1 ∈ (add_local_user ht' lt' node next_user e2 b2 cc2 vi2 mask2 pre2 s1).1.2).
  { intros s1 Hs1 (eu & a & record & Hl & Hhas & Hf & Hu & Hc).
    rewrite add_local_user_preconditions.
    destruct (reachable_well_formed s1 Hs1) as (Hcur & Hprev & _).
    apply task_analysis_in; [exact Hcur | exact Hprev|].
    right. split; [exact Hht|]. split; [exact Hne|]. left.
    exists eu, a, record. split; [exact Hl|]. split; [exact Hhas|].
    split; [rewrite Hf; exact Hov|]. split.
    - rewrite <- Hcut. apply cut_off_child. exact Hc.
    - rewrite Hu. exact Hdep. }
  split.
  - intros Hex. apply Hwait.
    + apply reach_add_local_user. exact Hs.
    + apply add_local_user_holds. exact Hex.
  - apply Hwait.
    + apply reach_add_local_copy_user. exact Hs.
    + apply add_local_copy_user_holds.
Qed.

Lemma new_user_is_waited_for_witness :
  let vi := mkVersionInfo (fun _ => true) (fun _ => None) in
  (@reachable sample_analysis sample_view /\ 3 <> 4 /\ 1 &&& 3 <> 0) /\
  3 ∈ (@add_local_user sample_analysis (fun _ => false) (fun _ => false) sample_node
         read_write 4 true None vi 3 ∅
         (@add_local_copy_user sample_analysis sample_node read_only 3 true None vi 1
            sample_view).2).1.2.
Proof.
  intros vi.
  assert (Hne : (3 : Event) <> 4) by discriminate.
  assert (Hov : 1 &&& 3 <> 0) by (vm_compute; discriminate).
  split; [split; [exact sample_view_reachable | auto]|].
  exact (proj2 (@new_user_is_waited_for sample_analysis (fun _ => false) (fun _ => false)
                  (fun _ => false) (fun _ => false) sample_node read_only read_write 3
                      4 true true
                  None None vi vi 1 3 ∅ ∅ sample_view sample_view_reachable
                  eq_refl Hne Hov eq_refl eq_refl)).
Defined.

(** ** The references of the users of a view *)

Ltac ind_solve :=
  unfold ind; repeat case_decide; try lia; try (exfalso; set_solver); try set_solver.

Lemma counted_with_zero (s : MaterializedState) :
  counted s <-> counted_with (fun _ => 0%nat) s.
Proof.
  unfold counted, counted_with, refs_as.
  split; intros Hc a; specialize (Hc a); rewrite Hc; f_equal; lia.
Qed.

Lemma refs_as_ext (h : UserHeap) (c c' : N -> nat) :
  (forall a, c a = c' a) -> refs_as h c -> refs_as h c'.
Proof. intros He Hc a. rewrite <- He. apply Hc. Qed.

Lemma holders_split (table : gmap Event EventUsers) (e : Event) (a : N) :
  holders table a
  = (ind (a ∈ addrs_of (table !! e)) + holders (delete e table) a)%nat.
Proof.
  unfold holders. destruct (table !! e) as [eu|] eqn:Hl; cbn [addrs_of].
  - rewrite <- (map_to_list_delete table e eu Hl). reflexivity.
  - rewrite delete_id by exact Hl. ind_solve.
Qed.

Lemma holders_empty (a : N) : holders ∅ a = 0%nat.
Proof. unfold holders. rewrite map_to_list_empty. reflexivity. Qed.

(** Two tables that differ at one event. *)
Lemma holders_agree (table table' : gmap Event EventUsers) (e : Event) (a : N) :
  (forall e', e' <> e -> table' !! e' = table !! e') ->
  (holders table' a + ind (a ∈ addrs_of (table !! e)))%nat
  = (holders table a + ind (a ∈ addrs_of (table' !! e)))%nat.
Proof.
  intros Hag.
  assert (Hd : delete e table' = delete e table).
  { apply map_eq. intros k. destruct (decide (k = e)) as [->|Hne].
    - rewrite !lookup_delete_eq. reflexivity.
    - rewrite !lookup_delete_ne by congruence. apply Hag. exact Hne. }
  rewrite (holders_split table e a), (holders_split table' e a), Hd. lia.
Qed.

Lemma holders_insert (table : gmap Event EventUsers) (e : Event) (eu : EventUsers)
    (a : N) :
  (holders (<[e := eu]> table) a + ind (a ∈ addrs_of (table !! e)))%nat
  = (holders table a + ind (a ∈ bucket_addrs eu))%nat.
Proof.
  rewrite (holders_agree table (<[e := eu]> table) e a).
  - rewrite lookup_insert_eq. reflexivity.
  - intros e' Hne. apply lookup_insert_ne. congruence.
Qed.

Lemma holders_delete (table : gmap Event EventUsers) (e : Event) (a : N) :
  (holders (delete e table) a + ind (a ∈ addrs_of (table !! e)))%nat = holders table a.
Proof. rewrite (holders_split table e a). lia. Qed.

Lemma holders_bounded (n : N) (table : gmap Event EventUsers) (a : N) :
  bounded n table -> n <= a -> holders table a = 0%nat.
Proof.
  intros Hb Hle. unfold holders.
  assert (Hall : forall it, it ∈ map_to_list table -> a ∉ bucket_addrs it.2).
  { intros [e eu] Hin Ha. apply elem_of_map_to_list in Hin.
    specialize (Hb e a). rewrite Hin in Hb. cbn [addrs_of] in Hb.
    specialize (Hb Ha). lia. }
  induction (map_to_list table) as [|it l IH]; [reflexivity|].
  cbn [sum_list_with]. rewrite IH by (intros it' Hin; apply Hall; right; exact Hin).
  assert (a ∉ bucket_addrs it.2) by (apply Hall; left). ind_solve.
Qed.

(** *** The heap *)

Lemma refs_as_release (h : UserHeap) (c : N -> nat) (a0 : N) :
  refs_as h (fun a => (c a + ind (a = a0))%nat) ->
  refs_as (release_user a0 h) c.
Proof.
  intros Hc a. unfold release_user, remove_reference.
  pose proof (Hc a0) as H0. cbv beta in H0. unfold ind in H0.
  rewrite decide_True in H0 by reflexivity.
  replace (c a0 + 1)%nat with (S (c a0)) in H0 by lia. cbn [to_count] in H0.
  rewrite H0.
  destruct (bool_decide (S (c a0) = 1%nat)) eqn:Hlast.
  - apply bool_decide_eq_true in Hlast.
    unfold legion_delete. cbn [references].
    destruct (decide (a = a0)) as [->|Hne].
    + rewrite lookup_delete_eq. replace (c a0) with 0%nat by lia. reflexivity.
    + rewrite lookup_delete_ne by congruence. rewrite lookup_insert_ne by congruence.
      rewrite (Hc a). unfold ind. rewrite decide_False by exact Hne.
      f_equal. lia.
  - apply bool_decide_eq_false in Hlast. cbn [references].
    destruct (decide (a = a0)) as [->|Hne].
    + rewrite lookup_insert_eq. cbn [pred].
      destruct (c a0) as [|k]; [lia|]. reflexivity.
    + rewrite lookup_insert_ne by congruence.
      rewrite (Hc a). unfold ind. rewrite decide_False by exact Hne.
      f_equal. lia.
Qed.

Lemma refs_as_remove (h : UserHeap) (c : N -> nat) (a0 : N) :
  refs_as h (fun a => (c a + ind (a = a0))%nat) -> (1 <= c a0)%nat ->
  refs_as (remove_reference a0 h).2 c.
Proof.
  intros Hc Hpos a. unfold remove_reference.
  pose proof (Hc a0) as H0. cbv beta in H0. unfold ind in H0.
  rewrite decide_True in H0 by reflexivity.
  replace (c a0 + 1)%nat with (S (c a0)) in H0 by lia. cbn [to_count] in H0.
  rewrite H0. cbn [snd references].
  destruct (decide (a = a0)) as [->|Hne].
  - rewrite lookup_insert_eq. cbn [pred].
    destruct (c a0) as [|k]; [lia|]. reflexivity.
  - rewrite lookup_insert_ne by congruence.
    rewrite (Hc a). unfold ind. rewrite decide_False by exact Hne.
    f_equal. lia.
Qed.

Lemma refs_as_add (h : UserHeap) (c : N -> nat) (a0 : N) :
  refs_as h c -> (1 <= c a0)%nat ->
  refs_as (add_reference a0 h) (fun a => (c a + ind (a = a0))%nat).
Proof.
  intros Hc Hpos a. unfold add_reference.
  pose proof (Hc a0) as H0.
  destruct (c a0) as [|k] eqn:Hk; [lia|]. cbn [to_count] in H0.
  rewrite H0. cbn [references].
  destruct (decide (a = a0)) as [->|Hne].
  - rewrite lookup_insert_eq. unfold ind. rewrite decide_True by reflexivity.
    rewrite Hk. replace (S k + 1)%nat with (S (S k)) by lia. reflexivity.
  - rewrite lookup_insert_ne by congruence. rewrite (Hc a).
    unfold ind. rewrite decide_False by exact Hne. f_equal. lia.
Qed.

(** A new user with its first reference. *)
Lemma refs_as_new (h : UserHeap) (c : N -> nat) :
  refs_as h c -> c (next_addr h) = 0%nat ->
  refs_as (add_reference (next_addr h)
             (mkHeap (<[next_addr h := 0%nat]> (references h)) (next_addr h + 1)))
          (fun a => (c a + ind (a = next_addr h))%nat).
Proof.
  intros Hc Hz a. unfold add_reference. cbn [references next_addr].
  rewrite lookup_insert_eq. cbn [references].
  destruct (decide (a = next_addr h)) as [->|Hne].
  - rewrite lookup_insert_eq. unfold ind. rewrite decide_True by reflexivity.
    rewrite Hz. reflexivity.
  - rewrite !lookup_insert_ne by congruence. rewrite (Hc a).
    unfold ind. rewrite decide_False by exact Hne. f_equal. lia.
Qed.

Lemma refs_as_release_all (l : list N) :
  forall (h : UserHeap) (c : N -> nat),
    NoDup l ->
    refs_as h (fun a => (c a + ind (a ∈ l))%nat) ->
    refs_as (release_all l h) c.
Proof.
  induction l as [|u l IH]; intros h c Hnd Hc.
  - cbn [release_all foldl]. eapply refs_as_ext; [|exact Hc].
    intros a. cbv beta. assert (a ∉ ([] : list N)) by apply not_elem_of_nil. ind_solve.
  - apply NoDup_cons in Hnd as [Hu Hnd].
    change (release_all (u :: l) h) with (release_all l (release_user u h)).
    apply IH; [exact Hnd|]. apply refs_as_release.
    eapply refs_as_ext; [|exact Hc]. intros a. cbv beta.
    unfold ind. destruct (decide (a = u)) as [->|Hne].
    + rewrite (decide_True (P := u ∈ u :: l)) by left.
      rewrite (decide_False (P := u ∈ l)) by exact Hu. lia.
    + destruct (decide (a ∈ l)) as [Hin|Hout].
      * rewrite (decide_True (P := a ∈ u :: l)) by (right; exact Hin). lia.
      * rewrite (decide_False (P := a ∈ u :: l))
          by (intros Hc'; apply elem_of_cons in Hc' as [?|?]; contradiction).
        lia.
Qed.

(** *** The users of a bucket *)

Lemma bucket_users_addrs (eu : EventUsers) (a : N) :
  a ∈ bucket_users eu <-> a ∈ bucket_addrs eu.
Proof.
  unfold bucket_users, bucket_addrs. destruct (users eu) as [u|m].
  - rewrite list_elem_of_singleton, elem_of_singleton. reflexivity.
  - rewrite list_elem_of_fmap. split.
    + intros ([k v] & -> & Hin). apply elem_of_entries in Hin.
      apply elem_of_dom. eauto.
    + intros Hin. apply elem_of_dom in Hin as [v Hv].
      exists (a, v). split; [reflexivity|]. apply elem_of_entries. exact Hv.
Qed.

Lemma bucket_users_NoDup (eu : EventUsers) : NoDup (bucket_users eu).
Proof.
  unfold bucket_users. destruct (users eu) as [u|m].
  - apply NoDup_singleton.
  - apply NoDup_fst_entries.
Qed.

Lemma users_under_addrs (table : gmap Event EventUsers) (e : Event) (a : N) :
  a ∈ users_under table e <-> a ∈ addrs_of (table !! e).
Proof.
  unfold users_under, addrs_of. destruct (table !! e) as [eu|].
  - apply bucket_users_addrs.
  - split; [intros Hin; inversion Hin | set_solver].
Qed.

Lemma users_under_NoDup (table : gmap Event EventUsers) (e : Event) :
  NoDup (users_under table e).
Proof.
  unfold users_under. destruct (table !! e); [apply bucket_users_NoDup | apply NoDup_nil_2].
Qed.

Lemma ind_iff (P Q : Prop) `{Decision P} `{Decision Q} : (P <-> Q) -> ind P = ind Q.
Proof. intros Hiff. unfold ind. repeat case_decide; tauto. Qed.

Lemma refs_as_release_users (eu : EventUsers) (h : UserHeap) (c : N -> nat) :
  refs_as h (fun a => (c a + ind (a ∈ bucket_addrs eu))%nat) ->
  refs_as (release_users eu h) c.
Proof.
  intros Hc. rewrite release_users_all.
  apply refs_as_release_all; [apply bucket_users_NoDup|].
  eapply refs_as_ext; [|exact Hc]. intros a. cbv beta. f_equal.
  apply ind_iff. symmetry. apply bucket_users_addrs.
Qed.

(** *** [filter_local_users] *)

Lemma filter_local_users_counted (x : N -> nat) (e : Event) (s : MaterializedState) :
  counted_with x s -> counted_with x (filter_local_users e s).
Proof.
  intros Hc. destruct (decide (e ∈ outstanding_gc_events s)) as [Hin|Hout].
  2:{ rewrite filter_local_users_unrecorded by exact Hout. exact Hc. }
  rewrite filter_local_users_recorded by exact Hin.
  unfold counted_with. cbn [heap current_epoch_users previous_epoch_users].
  unfold release_all. rewrite foldl_app.
  apply (refs_as_release_all (users_under (previous_epoch_users s) e));
    [apply users_under_NoDup|].
  apply (refs_as_release_all (users_under (current_epoch_users s) e));
    [apply users_under_NoDup|].
  eapply refs_as_ext; [|exact Hc]. intros a. cbv beta.
  rewrite <- (holders_delete (current_epoch_users s) e a).
  rewrite <- (holders_delete (previous_epoch_users s) e a).
  rewrite (ind_iff _ _ (users_under_addrs (current_epoch_users s) e a)).
  rewrite (ind_iff _ _ (users_under_addrs (previous_epoch_users s) e a)).
  lia.
Qed.

(** *** [filter_previous_users] *)

Lemma dom_erase_all_iff {A} (keys : list N) (m : gmap N A) (a : N) :
  a ∈ dom (erase_all keys m) <-> a ∈ dom m /\ a ∉ keys.
Proof.
  rewrite !elem_of_dom, lookup_erase_all.
  destruct (decide (a ∈ keys)) as [Hin|Hout].
  - split; [intros [v Hv]; discriminate | intros [_ Hn]; contradiction].
  - split; [intros Hs; split; assumption | intros [Hs _]; exact Hs].
Qed.

Lemma release_entries_all {A} (l : list (N * A)) (h : UserHeap) :
  foldl (fun h (kv : N * A) => release_user kv.1 h) h l = release_all l.*1 h.
Proof. unfold release_all. rewrite foldl_fmap. reflexivity. Qed.

Lemma NoDup_fst_filter {A} (f : N * A -> bool) (l : list (N * A)) :
  NoDup l.*1 -> NoDup (List.filter f l).*1.
Proof.
  induction l as [|kv l IH]; intros Hn; [constructor|].
  cbn [fmap list_fmap] in Hn. apply NoDup_cons in Hn as [Hk Hn].
  cbn [List.filter]. destruct (f kv).
  - cbn [fmap list_fmap]. apply NoDup_cons. split; [|apply IH; exact Hn].
    intros Hin. apply Hk. apply list_elem_of_fmap in Hin as (kv' & -> & Hin').
    apply list_elem_of_fmap. exists kv'. split; [reflexivity|].
    apply list_elem_of_In in Hin'. apply List.filter_In in Hin' as [Hin' _].
    apply list_elem_of_In. exact Hin'.
  - apply IH. exact Hn.
Qed.

Lemma filter_previous_entry_counted (x : N -> nat) (fit : Event * FieldMask)
    (s : MaterializedState) :
  counted_with x s -> counted_with x (filter_previous_entry fit s).
Proof.
  intros Hc. unfold filter_previous_entry.
  destruct (previous_epoch_users s !! fit.1) as [eu|] eqn:Hl; [|exact Hc].
  cbv zeta.
  destruct (Mask.is_empty (user_mask eu \\\ fit.2)).
  { unfold counted_with, set_heap, set_previous.
    cbn [heap current_epoch_users previous_epoch_users].
    apply refs_as_release_users. eapply refs_as_ext; [|exact Hc].
    intros a. cbv beta.
    rewrite <- (holders_delete (previous_epoch_users s) fit.1 a), Hl.
    cbn [addrs_of]. lia. }
  destruct (users eu) as [u|m] eqn:Hu.
  { unfold counted_with, set_previous.
    cbn [heap current_epoch_users previous_epoch_users].
    eapply refs_as_ext; [|exact Hc]. intros a. cbv beta.
    pose proof (holders_insert (previous_epoch_users s) fit.1
                  (mkEventUsers (user_mask eu \\\ fit.2) (single_user u)) a) as Hh.
    rewrite Hl in Hh. cbn [addrs_of] in Hh.
    unfold bucket_addrs in Hh. cbn [users] in Hh. rewrite Hu in Hh. lia. }
  set (m1 := (fun um : PhysicalUser * FieldMask => (um.1, um.2 \\\ fit.2)) <$> m).
  set (td := List.filter _ (entries m1)).
  assert (Hdom1 : dom m1 = dom m) by (subst m1; apply dom_fmap_L).
  destruct td as [|k0 td'] eqn:Htd.
  { unfold counted_with, set_previous.
    cbn [heap current_epoch_users previous_epoch_users].
    eapply refs_as_ext; [|exact Hc]. intros a. cbv beta.
    pose proof (holders_insert (previous_epoch_users s) fit.1
                  (mkEventUsers (user_mask eu \\\ fit.2) (multi_users m1)) a) as Hh.
    rewrite Hl in Hh. cbn [addrs_of] in Hh.
    unfold bucket_addrs in Hh. cbn [users] in Hh. rewrite Hu, Hdom1 in Hh. lia. }
  rewrite <- Htd. clear Htd.
  unfold counted_with, set_heap, set_previous.
  cbn [heap current_epoch_users previous_epoch_users].
  rewrite release_entries_all.
  assert (Hsub : forall kv, kv ∈ td -> kv ∈ entries m1).
  { intros kv Hin. subst td. apply list_elem_of_In in Hin.
    apply List.filter_In in Hin as [Hin _]. apply list_elem_of_In. exact Hin. }
  assert (Hnd : NoDup td.*1)
    by (subst td; apply NoDup_fst_filter, NoDup_fst_entries).
  apply refs_as_release_all; [exact Hnd|].
  eapply refs_as_ext; [|exact Hc]. intros a. cbv beta.
  pose proof (holders_insert (previous_epoch_users s) fit.1
                (collapse (user_mask eu \\\ fit.2) (erase_all td.*1 m1)) a) as Hh.
  rewrite Hl in Hh. cbn [addrs_of] in Hh.
  rewrite (proj1 (proj2 (collapse_spec (user_mask eu \\\ fit.2)
                           (erase_all td.*1 m1) a))) in Hh.
  assert (Hba : bucket_addrs eu = dom m) by (unfold bucket_addrs; rewrite Hu; reflexivity).
  rewrite Hba in Hh.
  assert (Hin : a ∈ td.*1 -> a ∈ dom m).
  { intros Ha. apply list_elem_of_fmap in Ha as ([k v] & -> & Hkv).
    apply Hsub, elem_of_entries in Hkv. rewrite <- Hdom1. apply elem_of_dom. eauto. }
  assert (Hsplit : ind (a ∈ dom m)
                   = (ind (a ∈ dom (erase_all td.*1 m1)) + ind (a ∈ td.*1))%nat).
  { unfold ind.
    destruct (decide (a ∈ td.*1)) as [Ht|Ht].
    - rewrite (decide_True (P := a ∈ dom m)) by (apply Hin; exact Ht).
      rewrite (decide_False (P := a ∈ dom (erase_all td.*1 m1)))
        by (rewrite dom_erase_all_iff; tauto). lia.
    - destruct (decide (a ∈ dom m)) as [Hm|Hm].
      + rewrite (decide_True (P := a ∈ dom (erase_all td.*1 m1)))
          by (rewrite dom_erase_all_iff, Hdom1; tauto). lia.
      + rewrite (decide_False (P := a ∈ dom (erase_all td.*1 m1)))
          by (rewrite dom_erase_all_iff, Hdom1; tauto). lia. }
  lia.
Qed.

Lemma filter_previous_users_counted (x : N -> nat) (fp : gmap Event FieldMask)
    (s : MaterializedState) :
  counted_with x s -> counted_with x (filter_previous_users fp s).
Proof.
  unfold filter_previous_users. revert s.
  induction (entries fp) as [|fit l IH]; intros s Hc; [exact Hc|].
  cbn [foldl]. apply IH. apply filter_previous_entry_counted. exact Hc.
Qed.

(** *** [filter_current_users]: one bucket *)

Lemma move_single_refs (user : N * PhysicalUser) (current_mask so : FieldMask)
    (po : option EventUsers) (h : UserHeap) (b : N -> nat) :
  refs_as h (fun a => (b a + ind (a = user.1) + ind (a ∈ addrs_of po))%nat) ->
  let r := move_single user current_mask so po h in
  refs_as r.2
    (fun a => (b a + (if Mask.is_empty current_mask then 0 else ind (a = user.1))
               + ind (a ∈ bucket_addrs r.1))%nat).
Proof.
  intros Hc r.
  assert (Hnew : user.1 ∉ addrs_of po ->
            bucket_addrs r.1 = addrs_of po ∪ {[user.1]} ->
            r.2 = (if Mask.is_empty current_mask then h else add_reference user.1 h) ->
            refs_as r.2
              (fun a => (b a + (if Mask.is_empty current_mask then 0
                                else ind (a = user.1))
                         + ind (a ∈ bucket_addrs r.1))%nat)).
  { intros Hout Hb Hh. rewrite Hh, Hb.
    destruct (Mask.is_empty current_mask).
    - eapply refs_as_ext; [|exact Hc]. intros a. cbv beta.
      unfold ind. destruct (decide (a = user.1)) as [->|Hne].
      + rewrite (decide_False (P := user.1 ∈ addrs_of po)) by exact Hout.
        rewrite decide_True by set_solver. lia.
      + destruct (decide (a ∈ addrs_of po)).
        * rewrite decide_True by set_solver. lia.
        * rewrite decide_False by set_solver. lia.
    - eapply refs_as_ext; [|apply (refs_as_add h _ user.1 Hc)].
      + intros a. cbv beta.
        unfold ind. destruct (decide (a = user.1)) as [->|Hne].
        * rewrite (decide_False (P := user.1 ∈ addrs_of po)) by exact Hout.
          rewrite decide_True by set_solver. lia.
        * destruct (decide (a ∈ addrs_of po)).
          -- rewrite decide_True by set_solver. lia.
          -- rewrite decide_False by set_solver. lia.
      + cbv beta. unfold ind. rewrite (decide_True (P := user.1 = user.1)) by reflexivity.
        lia. }
  assert (Hold : user.1 ∈ addrs_of po ->
            bucket_addrs r.1 = addrs_of po ->
            r.2 = (if Mask.is_empty current_mask then (remove_reference user.1 h).2
                   else h) ->
            refs_as r.2
              (fun a => (b a + (if Mask.is_empty current_mask then 0
                                else ind (a = user.1))
                         + ind (a ∈ bucket_addrs r.1))%nat)).
  { intros Hin Hb Hh. rewrite Hh, Hb.
    destruct (Mask.is_empty current_mask).
    - apply refs_as_remove.
      + eapply refs_as_ext; [|exact Hc]. intros a. cbv beta. lia.
      + cbv beta. unfold ind. rewrite decide_True by exact Hin. lia.
    - exact Hc. }
  subst r. clear Hc.
  destruct po as [[pmask [pu_user|pm]]|]; unfold move_single in *;
    cbn [addrs_of users user_mask] in *; cbv zeta in *.
  - unfold bucket_addrs at 1 2 3 in Hnew. unfold bucket_addrs at 1 2 in Hold.
    cbn [users] in Hnew, Hold.
    destruct (N.eqb pu_user.1 user.1) eqn:Heq.
    + apply N.eqb_eq in Heq.
      apply Hold; [set_solver| |reflexivity].
      cbn [fst]. unfold bucket_addrs. cbn [users]. reflexivity.
    + apply N.eqb_neq in Heq.
      apply Hnew; [set_solver| |reflexivity].
      cbn [fst]. unfold bucket_addrs. cbn [users].
      rewrite !dom_insert_L, dom_empty_L. set_solver.
  - unfold bucket_addrs at 1 2 3 in Hnew. unfold bucket_addrs at 1 2 in Hold.
    cbn [users] in Hnew, Hold.
    destruct (pm !! user.1) as [found|] eqn:Hf.
    + apply Hold; [apply elem_of_dom; eauto| |reflexivity].
      cbn [fst]. unfold bucket_addrs. cbn [users].
      rewrite dom_insert_L. apply elem_of_dom_2 in Hf. set_solver.
    + apply Hnew; [apply not_elem_of_dom; exact Hf| |reflexivity].
      cbn [fst]. unfold bucket_addrs. cbn [users].
      rewrite dom_insert_L. set_solver.
  - apply Hnew; [set_solver | cbn [fst]; unfold bucket_addrs; cbn [users]; set_solver
                | reflexivity].
Qed.

Lemma merge_user_refs (it : N * (PhysicalUser * FieldMask)) (acc : UserMap * UserHeap)
    (b : N -> nat) :
  refs_as acc.2 (fun a => (b a + ind (a = it.1) + ind (a ∈ dom acc.1))%nat) ->
  refs_as (merge_user it acc).2 (fun a => (b a + ind (a ∈ dom (merge_user it acc).1))%nat).
Proof.
  intros Hc. unfold merge_user.
  destruct (acc.1 !! it.1) as [found|] eqn:Hf; cbn [fst snd].
  - assert (Hin : it.1 ∈ dom acc.1) by (apply elem_of_dom; eauto).
    apply refs_as_remove.
    + eapply refs_as_ext; [|exact Hc]. intros a. cbv beta.
      rewrite dom_insert_L.
      assert (Heq : ind (a ∈ {[it.1]} ∪ dom acc.1) = ind (a ∈ dom acc.1))
        by (apply ind_iff; set_solver).
      rewrite Heq. lia.
    + cbv beta. rewrite dom_insert_L. unfold ind.
      rewrite decide_True by set_solver. lia.
  - assert (Hout : it.1 ∉ dom acc.1) by (apply not_elem_of_dom; exact Hf).
    eapply refs_as_ext; [|exact Hc]. intros a. cbv beta.
    rewrite dom_insert_L. unfold ind.
    destruct (decide (a = it.1)) as [->|Hne].
    + rewrite (decide_False (P := it.1 ∈ dom acc.1)) by exact Hout.
      rewrite decide_True by set_solver. lia.
    + destruct (decide (a ∈ dom acc.1)).
      * rewrite decide_True by set_solver. lia.
      * rewrite decide_False by set_solver. lia.
Qed.

Lemma ind_cons_fresh (a u : N) (l : list N) :
  u ∉ l -> ind (a ∈ u :: l) = (ind (a = u) + ind (a ∈ l))%nat.
Proof.
  intros Hu. unfold ind. destruct (decide (a = u)) as [->|Hne].
  - rewrite (decide_True (P := u ∈ u :: l)) by left.
    rewrite (decide_False (P := u ∈ l)) by exact Hu. lia.
  - destruct (decide (a ∈ l)) as [Hin|Hout].
    + rewrite (decide_True (P := a ∈ u :: l)) by (right; exact Hin). lia.
    + rewrite (decide_False (P := a ∈ u :: l))
        by (intros Hc'; apply elem_of_cons in Hc' as [?|?]; contradiction).
      lia.
Qed.

Lemma ind_nil (a : N) : ind (a ∈ ([] : list N)) = 0%nat.
Proof. unfold ind. rewrite decide_False by apply not_elem_of_nil. reflexivity. Qed.

Lemma merge_users_refs (l : list (N * (PhysicalUser * FieldMask))) :
  forall (acc : UserMap * UserHeap) (b : N -> nat),
    NoDup l.*1 ->
    refs_as acc.2 (fun a => (b a + ind (a ∈ l.*1) + ind (a ∈ dom acc.1))%nat) ->
    refs_as (foldl (fun acc it => merge_user it acc) acc l).2
      (fun a => (b a + ind (a ∈ dom (foldl (fun acc it => merge_user it acc) acc l).1))%nat).
Proof.
  induction l as [|it l IH]; intros acc b Hnd Hc; cbn [foldl].
  - eapply refs_as_ext; [|exact Hc]. intros a. cbv beta.
    cbn [fmap list_fmap]. rewrite ind_nil. lia.
  - cbn [fmap list_fmap] in Hnd, Hc. apply NoDup_cons in Hnd as [Hk Hnd].
    apply IH; [exact Hnd|].
    apply (merge_user_refs it acc (fun a => (b a + ind (a ∈ l.*1))%nat)).
    eapply refs_as_ext; [|exact Hc]. intros a. cbv beta.
    rewrite (ind_cons_fresh a it.1 l.*1 Hk). lia.
Qed.

Lemma entries_keys_dom {A} (m : gmap N A) (a : N) : a ∈ (entries m).*1 <-> a ∈ dom m.
Proof.
  rewrite list_elem_of_fmap, elem_of_dom. split.
  - intros ([k v] & -> & Hin). apply elem_of_entries in Hin. eauto.
  - intros [v Hv]. exists (a, v). split; [reflexivity|]. apply elem_of_entries. exact Hv.
Qed.

Lemma move_all_refs (cm : UserMap) (so : FieldMask) (po : option EventUsers)
    (h : UserHeap) (b : N -> nat) :
  refs_as h (fun a => (b a + ind (a ∈ dom cm) + ind (a ∈ addrs_of po))%nat) ->
  let r := move_all cm so po h in
  refs_as r.2 (fun a => (b a + ind (a ∈ bucket_addrs r.1))%nat).
Proof.
  intros Hc r. subst r.
  destruct po as [[pmask [user|pm]]|]; unfold move_all;
    cbn [addrs_of users user_mask] in *.
  - unfold bucket_addrs in Hc. cbn [users] in Hc.
    pose proof (merge_user_refs (user.1, (user.2, pmask)) (cm, h) b) as Hm.
    cbn [fst snd] in Hm.
    destruct (merge_user (user.1, (user.2, pmask)) (cm, h)) as [cm' h'].
    cbn [fst snd] in *. unfold bucket_addrs. cbn [users].
    apply Hm. eapply refs_as_ext; [|exact Hc]. intros a. cbv beta.
    assert (Heq : ind (a ∈ ({[user.1]} : gset N)) = ind (a = user.1))
      by (apply ind_iff; set_solver).
    rewrite Heq. lia.
  - unfold bucket_addrs in Hc. cbn [users] in Hc.
    pose proof (merge_users_refs (entries cm) (pm, h) b (NoDup_fst_entries cm)) as Hm.
    cbn [fst snd] in Hm.
    destruct (foldl (fun acc it => merge_user it acc) (pm, h) (entries cm)) as [pm' h'].
    cbn [fst snd] in *. unfold bucket_addrs. cbn [users].
    apply Hm. eapply refs_as_ext; [|exact Hc]. intros a. cbv beta.
    rewrite (ind_iff _ _ (entries_keys_dom cm a)). lia.
  - cbn [fst snd]. unfold bucket_addrs. cbn [users].
    eapply refs_as_ext; [|exact Hc]. intros a. cbv beta.
    unfold ind. repeat case_decide; try lia; set_solver.
Qed.

(** The users of a current map that stay in the current epoch. *)
Lemma send_existing_refs (so : FieldMask) (it : N * (PhysicalUser * FieldMask))
    (acc : Filtered) (b : N -> nat) :
  it.1 ∈ dom (kept acc) -> it.1 ∉ to_delete acc ->
  refs_as (filtered_heap acc)
    (fun a => (b a + ind (a ∈ dom (kept acc) /\ a ∉ to_delete acc)
               + ind (a ∈ dom (sent acc)))%nat) ->
  let r := send_existing so it acc in
  refs_as (filtered_heap r)
    (fun a => (b a + ind (a ∈ dom (kept r) /\ a ∉ to_delete r)
               + ind (a ∈ dom (sent r)))%nat) /\
  dom (kept r) = dom (kept acc) /\
  (forall a, a ∈ to_delete r -> a ∈ to_delete acc \/ a = it.1).
Proof.
  intros Hk Hnd Hc r. subst r. unfold send_existing. cbv zeta.
  destruct (Mask.is_empty (so &&& it.2.2)).
  { split; [exact Hc|]. split; [reflexivity|]. auto. }
  assert (Hkept : forall um, dom (<[it.1 := um]> (kept acc)) = dom (kept acc)).
  { intros um. rewrite dom_insert_L. set_solver. }
  assert (Hpos : (1 <= ind (it.1 ∈ dom (kept acc) /\ it.1 ∉ to_delete acc))%nat).
  { unfold ind. rewrite decide_True by tauto. lia. }
  destruct (sent acc !! it.1) as [found|] eqn:Hf; cbn [kept sent to_delete filtered_heap].
  - assert (Hin : it.1 ∈ dom (sent acc)) by (apply elem_of_dom; eauto).
    assert (Hsent : dom (<[it.1 := (found.1, found.2 ||| (so &&& it.2.2))]> (sent acc))
                    = dom (sent acc)) by (rewrite dom_insert_L; set_solver).
    rewrite Hsent, Hkept.
    destruct (Mask.is_empty (it.2.2 \\\ (so &&& it.2.2))).
    + split; [|split; [reflexivity|]].
      * apply refs_as_remove.
        -- eapply refs_as_ext; [|exact Hc]. intros a. cbv beta.
           unfold ind. destruct (decide (a = it.1)) as [->|Hne].
           ++ rewrite (decide_True (P := it.1 ∈ dom (kept acc) /\ it.1 ∉ to_delete acc))
                by tauto.
              rewrite (decide_False
                         (P := it.1 ∈ dom (kept acc) /\ it.1 ∉ to_delete acc ++ [it.1]))
                by (intros [_ Hn]; apply Hn; apply elem_of_app; right; left).
              lia.
           ++ destruct (decide (a ∈ dom (kept acc) /\ a ∉ to_delete acc)) as [Hy|Hn].
              ** rewrite (decide_True
                            (P := a ∈ dom (kept acc) /\ a ∉ to_delete acc ++ [it.1])).
                 { lia. }
                 split; [tauto|]. intros Hx. apply elem_of_app in Hx as [Hx|Hx];
                   [tauto|]. apply list_elem_of_singleton in Hx. contradiction.
              ** rewrite (decide_False
                            (P := a ∈ dom (kept acc) /\ a ∉ to_delete acc ++ [it.1])).
                 { lia. }
                 intros [Hx1 Hx2]. apply Hn. split; [exact Hx1|].
                 intros Hx. apply Hx2. apply elem_of_app. left. exact Hx.
        -- cbv beta. unfold ind.
           rewrite (decide_True (P := it.1 ∈ dom (sent acc))) by exact Hin. lia.
      * intros a Ha. apply elem_of_app in Ha as [Ha|Ha]; [left; exact Ha|].
        apply list_elem_of_singleton in Ha. right. exact Ha.
    + split; [exact Hc|]. split; [reflexivity|]. auto.
  - assert (Hout : it.1 ∉ dom (sent acc)) by (apply not_elem_of_dom; exact Hf).
    rewrite Hkept.
    assert (Hsent : forall a,
              ind (a ∈ dom (<[it.1 := (it.2.1, so &&& it.2.2)]> (sent acc)))
              = (ind (a = it.1) + ind (a ∈ dom (sent acc)))%nat).
    { intros a. rewrite dom_insert_L. unfold ind.
      destruct (decide (a = it.1)) as [->|Hne].
      - rewrite (decide_False (P := it.1 ∈ dom (sent acc))) by exact Hout.
        rewrite decide_True by set_solver. lia.
      - destruct (decide (a ∈ dom (sent acc))).
        + rewrite decide_True by set_solver. lia.
        + rewrite decide_False by set_solver. lia. }
    destruct (Mask.is_empty (it.2.2 \\\ (so &&& it.2.2))).
    + split; [|split; [reflexivity|]].
      * eapply refs_as_ext; [|exact Hc]. intros a. cbv beta. rewrite Hsent.
        unfold ind. destruct (decide (a = it.1)) as [->|Hne].
        -- rewrite (decide_True (P := it.1 ∈ dom (kept acc) /\ it.1 ∉ to_delete acc))
             by tauto.
           rewrite (decide_False
                      (P := it.1 ∈ dom (kept acc) /\ it.1 ∉ to_delete acc ++ [it.1]))
             by (intros [_ Hn]; apply Hn; apply elem_of_app; right; left).
           lia.
        -- destruct (decide (a ∈ dom (kept acc) /\ a ∉ to_delete acc)) as [Hy|Hn].
           ++ rewrite (decide_True
                         (P := a ∈ dom (kept acc) /\ a ∉ to_delete acc ++ [it.1])).
              { lia. }
              split; [tauto|]. intros Hx. apply elem_of_app in Hx as [Hx|Hx];
                [tauto|]. apply list_elem_of_singleton in Hx. contradiction.
           ++ rewrite (decide_False
                         (P := a ∈ dom (kept acc) /\ a ∉ to_delete acc ++ [it.1])).
              { lia. }
              intros [Hx1 Hx2]. apply Hn. split; [exact Hx1|].
              intros Hx. apply Hx2. apply elem_of_app. left. exact Hx.
      * intros a Ha. apply elem_of_app in Ha as [Ha|Ha]; [left; exact Ha|].
        apply list_elem_of_singleton in Ha. right. exact Ha.
    + split; [|split; [reflexivity|auto]].
      eapply refs_as_ext; [|apply (refs_as_add _ _ it.1 Hc)].
      * intros a. cbv beta. rewrite Hsent. lia.
      * cbv beta. lia.
Qed.

Lemma send_new_existing (so : FieldMask) (it : N * (PhysicalUser * FieldMask))
    (acc : Filtered) :
  it.1 ∉ dom (sent acc) -> send_new so it acc = send_existing so it acc.
Proof.
  intros Hout. unfold send_new, send_existing.
  apply not_elem_of_dom in Hout. rewrite Hout. reflexivity.
Qed.

Lemma send_existing_sent (so : FieldMask) (it : N * (PhysicalUser * FieldMask))
    (acc : Filtered) :
  dom (sent (send_existing so it acc)) ⊆ dom (sent acc) ∪ {[it.1]}.
Proof.
  unfold send_existing. cbv zeta.
  destruct (Mask.is_empty (so &&& it.2.2)); [set_solver|].
  destruct (sent acc !! it.1); cbn [sent]; rewrite dom_insert_L; set_solver.
Qed.

Lemma send_existing_fold_refs (so : FieldMask)
    (l : list (N * (PhysicalUser * FieldMask))) :
  forall (acc : Filtered) (b : N -> nat),
    NoDup l.*1 ->
    (forall k, k ∈ l.*1 -> k ∈ dom (kept acc) /\ k ∉ to_delete acc) ->
    refs_as (filtered_heap acc)
      (fun a => (b a + ind (a ∈ dom (kept acc) /\ a ∉ to_delete acc)
                 + ind (a ∈ dom (sent acc)))%nat) ->
    let r := foldl (fun acc it => send_existing so it acc) acc l in
    refs_as (filtered_heap r)
      (fun a => (b a + ind (a ∈ dom (kept r) /\ a ∉ to_delete r)
                 + ind (a ∈ dom (sent r)))%nat).
Proof.
  induction l as [|it l IH]; intros acc b Hnd Hk Hc; cbn [foldl]; [exact Hc|].
  cbn [fmap list_fmap] in Hnd, Hk. apply NoDup_cons in Hnd as [Hit Hnd].
  destruct (Hk it.1) as [Hk1 Hk2]; [left|].
  destruct (send_existing_refs so it acc b Hk1 Hk2 Hc) as (Hc1 & Hd1 & Ht1).
  cbv zeta in Hc1, Hd1, Ht1.
  apply IH; [exact Hnd| |exact Hc1].
  intros k Hin. destruct (Hk k) as [Hk3 Hk4]; [right; exact Hin|].
  rewrite Hd1. split; [exact Hk3|].
  intros Hx. apply Ht1 in Hx as [Hx| ->]; [contradiction|]. contradiction.
Qed.

Lemma send_new_fold_existing (so : FieldMask)
    (l : list (N * (PhysicalUser * FieldMask))) :
  forall (acc : Filtered),
    NoDup l.*1 ->
    (forall k, k ∈ l.*1 -> k ∉ dom (sent acc)) ->
    foldl (fun acc it => send_new so it acc) acc l
    = foldl (fun acc it => send_existing so it acc) acc l.
Proof.
  induction l as [|it l IH]; intros acc Hnd Hout; cbn [foldl]; [reflexivity|].
  cbn [fmap list_fmap] in Hnd, Hout. apply NoDup_cons in Hnd as [Hit Hnd].
  rewrite send_new_existing by (apply Hout; left).
  apply IH; [exact Hnd|].
  intros k Hin Hx. apply send_existing_sent in Hx.
  apply elem_of_union in Hx as [Hx|Hx].
  - exact (Hout k (list_elem_of_further _ _ _ Hin) Hx).
  - apply elem_of_singleton in Hx. subst k. contradiction.
Qed.

Lemma staying_addrs (current_mask : FieldMask) (f : Filtered) (a : N) :
  a ∈ bucket_addrs
        match to_delete f with
        | [] => mkEventUsers current_mask (multi_users (kept f))
        | _ => collapse current_mask (erase_all (to_delete f) (kept f))
        end <->
  a ∈ dom (kept f) /\ a ∉ to_delete f.
Proof.
  destruct (to_delete f) as [|k l] eqn:Htd.
  - unfold bucket_addrs. cbn [users]. split; [|tauto].
    intros Hin. split; [exact Hin | apply not_elem_of_nil].
  - rewrite (proj1 (proj2 (collapse_spec current_mask (erase_all (k :: l) (kept f)) a))).
    apply dom_erase_all_iff.
Qed.

Lemma move_some_refs (cm : UserMap) (current_mask so : FieldMask)
    (po : option EventUsers) (h : UserHeap) (b : N -> nat) :
  refs_as h (fun a => (b a + ind (a ∈ dom cm) + ind (a ∈ addrs_of po))%nat) ->
  let r := move_some cm current_mask so po h in
  refs_as r.2
    (fun a => (b a + ind (a ∈ bucket_addrs r.1.1) + ind (a ∈ bucket_addrs r.1.2))%nat).
Proof.
  intros Hc r. subst r.
  assert (Hstart : forall (sent0 : UserMap) (b0 : N -> nat),
            refs_as h (fun a => (b0 a + ind (a ∈ dom cm) + ind (a ∈ dom sent0))%nat) ->
            let f := foldl (fun acc it => send_existing so it acc)
                           (mkFiltered cm sent0 [] h) (entries cm) in
            refs_as (filtered_heap f)
              (fun a => (b0 a + ind (a ∈ dom (kept f) /\ a ∉ to_delete f)
                         + ind (a ∈ dom (sent f)))%nat)).
  { intros sent0 b0 H0.
    apply (send_existing_fold_refs so (entries cm) (mkFiltered cm sent0 [] h) b0).
    - apply NoDup_fst_entries.
    - intros k Hk. cbn [kept to_delete]. split; [apply entries_keys_dom; exact Hk|].
      apply not_elem_of_nil.
    - cbn [kept to_delete sent filtered_heap].
      eapply refs_as_ext; [|exact H0]. intros a. cbv beta.
      assert (Heq : ind (a ∈ dom cm /\ a ∉ ([] : list N)) = ind (a ∈ dom cm)).
      { apply ind_iff. split; [tauto|]. intros Hin. split; [exact Hin|].
        apply not_elem_of_nil. }
      rewrite Heq. reflexivity. }
  assert (Hnew : foldl (fun acc it => send_new so it acc) (mkFiltered cm ∅ [] h) (entries cm)
                 = foldl (fun acc it => send_existing so it acc)
                         (mkFiltered cm ∅ [] h) (entries cm)).
  { apply send_new_fold_existing; [apply NoDup_fst_entries|].
    intros k _. cbn [sent]. set_solver. }
  assert (Hfinish : forall (f : Filtered) (pm : FieldMask),
            refs_as (filtered_heap f)
              (fun a => (b a + ind (a ∈ dom (kept f) /\ a ∉ to_delete f)
                         + ind (a ∈ dom (sent f)))%nat) ->
            refs_as (filtered_heap f)
              (fun a => (b a +
                         ind (a ∈ bucket_addrs
                                    match to_delete f with
                                    | [] => mkEventUsers current_mask (multi_users (kept f))
                                    | _ => collapse current_mask
                                             (erase_all (to_delete f) (kept f))
                                    end) +
                         ind (a ∈ bucket_addrs
                                    (mkEventUsers (pm ||| so) (multi_users (sent f)))))%nat)).
  { intros f pm Hf. eapply refs_as_ext; [|exact Hf]. intros a. cbv beta.
    rewrite (ind_iff _ _ (staying_addrs current_mask f a)).
    unfold bucket_addrs at 2. cbn [users]. reflexivity. }
  destruct po as [[pmask [user|pm]]|]; unfold move_some;
    cbn [addrs_of users user_mask] in *.
  - unfold bucket_addrs in Hc. cbn [users] in Hc.
    rewrite Hnew.
    pose proof (Hstart ∅ (fun a => (b a + ind (a = user.1))%nat)) as Hs.
    cbv zeta in Hs.
    set (f := foldl (fun acc it => send_existing so it acc) (mkFiltered cm ∅ [] h)
                    (entries cm)) in *.
    assert (Hf : refs_as (filtered_heap f)
                   (fun a => (b a + ind (a = user.1)
                              + ind (a ∈ dom (kept f) /\ a ∉ to_delete f)
                              + ind (a ∈ dom (sent f)))%nat)).
    { apply Hs. eapply refs_as_ext; [|exact Hc]. intros a. cbv beta.
      unfold ind. repeat case_decide; try lia; set_solver. }
    pose proof (merge_user_refs (user.1, (user.2, pmask)) (sent f, filtered_heap f)
                  (fun a => (b a + ind (a ∈ dom (kept f) /\ a ∉ to_delete f))%nat)) as Hm.
    cbn [fst snd] in Hm.
    destruct (merge_user (user.1, (user.2, pmask)) (sent f, filtered_heap f))
      as [new_map h'].
    cbn [fst snd] in *. cbn [kept sent to_delete filtered_heap].
    apply (Hfinish (mkFiltered (kept f) new_map (to_delete f) h') pmask).
    cbn [kept sent to_delete filtered_heap].
    apply Hm. eapply refs_as_ext; [|exact Hf]. intros a. cbv beta. lia.
  - unfold bucket_addrs in Hc. cbn [users] in Hc.
    cbn [fst snd].
    apply (Hfinish _ pmask). apply Hstart. exact Hc.
  - cbn [fst snd]. rewrite Hnew.
    apply (Hfinish _ Mask.empty). apply Hstart.
    eapply refs_as_ext; [|exact Hc]. intros a. cbv beta.
    unfold ind. repeat case_decide; try lia; set_solver.
Qed.

Lemma move_bucket_refs (eu : EventUsers) (current_mask so : FieldMask)
    (po : option EventUsers) (h : UserHeap) (b : N -> nat) :
  refs_as h (fun a => (b a + ind (a ∈ bucket_addrs eu) + ind (a ∈ addrs_of po))%nat) ->
  let r := move_bucket eu current_mask so po h in
  refs_as r.1.2
    (fun a => (b a + (if r.2 then 0 else ind (a ∈ bucket_addrs r.1.1.1))
               + ind (a ∈ bucket_addrs r.1.1.2))%nat).
Proof.
  intros Hc r. subst r. destruct eu as [um [user|cm]]; unfold move_bucket;
    unfold bucket_addrs at 1 in Hc; cbn [users] in *.
  - pose proof (move_single_refs user current_mask so po h b) as Hm.
    cbv zeta in Hm.
    destruct (move_single user current_mask so po h) as [prev' h'].
    cbn [fst snd] in *.
    eapply refs_as_ext; [|apply Hm].
    + intros a. cbv beta. destruct (Mask.is_empty current_mask); [reflexivity|].
      f_equal. f_equal. apply ind_iff. unfold bucket_addrs. cbn [users]. set_solver.
    + eapply refs_as_ext; [|exact Hc]. intros a. cbv beta.
      f_equal. f_equal. apply ind_iff. set_solver.
  - destruct (Mask.is_empty current_mask).
    + pose proof (move_all_refs cm so po h b Hc) as Hm. cbv zeta in Hm.
      destruct (move_all cm so po h) as [prev' h']. cbn [fst snd] in *.
      eapply refs_as_ext; [|exact Hm]. intros a. cbv beta. lia.
    + pose proof (move_some_refs cm current_mask so po h b Hc) as Hm. cbv zeta in Hm.
      destruct (move_some cm current_mask so po h) as [[current' prev'] h'].
      cbn [fst snd] in *. exact Hm.
Qed.

(** *** [filter_current_users]: the walk *)

Lemma lookup_erase_all_notin {A} (keys : list N) (m : gmap N A) (a : N) :
  a ∉ keys -> erase_all keys m !! a = m !! a.
Proof. intros Hn. rewrite lookup_erase_all. rewrite decide_False by exact Hn. reflexivity. Qed.

Lemma erase_all_app {A} (keys keys' : list N) (m : gmap N A) :
  erase_all (keys ++ keys') m = erase_all keys' (erase_all keys m).
Proof. unfold erase_all. apply foldl_app. Qed.

Lemma filter_current_entry_counted (x : N -> nat) (ht : Event -> bool) (d : FieldMask)
    (cit : Event * EventUsers) (acc : MaterializedState * list Event) :
  current_epoch_users acc.1 !! cit.1 = Some cit.2 -> cit.1 ∉ acc.2 ->
  counted_with x (set_current (erase_all acc.2) acc.1) ->
  let r := filter_current_entry ht d cit acc in
  counted_with x (set_current (erase_all r.2) r.1) /\
  (forall e, e <> cit.1 -> current_epoch_users r.1 !! e = current_epoch_users acc.1 !! e) /\
  (forall e, e ∈ r.2 -> e ∈ acc.2 \/ e = cit.1).
Proof.
  intros Hl Hnd Hc r. subst r. unfold filter_current_entry. cbv zeta.
  destruct acc as [s del]. destruct cit as [e eu]. cbn [fst snd] in *.
  assert (Hvirt : erase_all del (current_epoch_users s) !! e = Some eu)
    by (rewrite lookup_erase_all_notin by exact Hnd; exact Hl).
  destruct (ht e).
  { cbn [fst snd]. split; [|split; [reflexivity|]].
    - unfold counted_with, set_current, set_heap in *.
      cbn [heap current_epoch_users previous_epoch_users] in *.
      apply refs_as_release_users. eapply refs_as_ext; [|exact Hc].
      intros a. cbv beta. rewrite erase_all_app.
      change (erase_all [e] (erase_all del (current_epoch_users s)))
        with (delete e (erase_all del (current_epoch_users s))).
      rewrite <- (holders_delete (erase_all del (current_epoch_users s)) e a), Hvirt.
      cbn [addrs_of]. lia.
    - intros e' He'. apply elem_of_app in He' as [He'|He']; [left; exact He'|].
      apply list_elem_of_singleton in He'. right. exact He'. }
  destruct (Mask.is_empty (user_mask eu &&& d)).
  { split; [exact Hc|]. split; [reflexivity|]. auto. }
  set (so := user_mask eu &&& d).
  set (cmask := user_mask eu \\\ so).
  pose proof (move_bucket_refs eu cmask so (previous_epoch_users s !! e) (heap s)
                (fun a => (holders (delete e (erase_all del (current_epoch_users s))) a
                           + holders (delete e (previous_epoch_users s)) a + x a)%nat))
    as Hm.
  cbv zeta in Hm.
  destruct (move_bucket eu cmask so (previous_epoch_users s !! e) (heap s))
    as [[[current' prev'] h'] emptied].
  cbn [fst snd] in *.
  split; [|split].
  - unfold counted_with, set_current in *.
    cbn [heap current_epoch_users previous_epoch_users] in *.
    eapply refs_as_ext; [|apply Hm].
    + intros a. cbv beta.
      rewrite (holders_split (<[e := prev']> (previous_epoch_users s)) e a).
      rewrite lookup_insert_eq, delete_insert_eq. cbn [addrs_of].
      destruct emptied.
      * rewrite erase_all_app.
        change (erase_all [e] (erase_all del (<[e := current']> (current_epoch_users s))))
          with (delete e (erase_all del (<[e := current']> (current_epoch_users s)))).
        assert (Hd : delete e (erase_all del (<[e := current']> (current_epoch_users s)))
                     = delete e (erase_all del (current_epoch_users s))).
        { apply map_eq. intros k. destruct (decide (k = e)) as [->|Hne].
          - rewrite !lookup_delete_eq. reflexivity.
          - rewrite !lookup_delete_ne by congruence.
            rewrite !lookup_erase_all. destruct (decide (k ∈ del)); [reflexivity|].
            apply lookup_insert_ne. congruence. }
        rewrite Hd. lia.
      * rewrite (holders_split (erase_all del (<[e := current']> (current_epoch_users s)))
                   e a).
        rewrite lookup_erase_all_notin by exact Hnd.
        rewrite lookup_insert_eq. cbn [addrs_of].
        assert (Hd : delete e (erase_all del (<[e := current']> (current_epoch_users s)))
                     = delete e (erase_all del (current_epoch_users s))).
        { apply map_eq. intros k. destruct (decide (k = e)) as [->|Hne].
          - rewrite !lookup_delete_eq. reflexivity.
          - rewrite !lookup_delete_ne by congruence.
            rewrite !lookup_erase_all. destruct (decide (k ∈ del)); [reflexivity|].
            apply lookup_insert_ne. congruence. }
        rewrite Hd. lia.
    + eapply refs_as_ext; [|exact Hc]. intros a. cbv beta.
      rewrite (holders_split (erase_all del (current_epoch_users s)) e a), Hvirt.
      rewrite (holders_split (previous_epoch_users s) e a).
      cbn [addrs_of]. lia.
  - intros e' Hne. cbn [current_epoch_users]. apply lookup_insert_ne. congruence.
  - intros e' He'. destruct emptied; [|left; exact He'].
    apply elem_of_app in He' as [He'|He']; [left; exact He'|].
    apply list_elem_of_singleton in He'. right. exact He'.
Qed.

Lemma filter_current_users_counted (x : N -> nat) (ht : Event -> bool) (d : FieldMask)
    (s : MaterializedState) :
  counted_with x s -> counted_with x (filter_current_users ht d s).
Proof.
  intros Hc. unfold filter_current_users.
  assert (Hfold : forall (l : list (Event * EventUsers))
                         (acc : MaterializedState * list Event),
            NoDup l.*1 ->
            (forall cit, cit ∈ l ->
               current_epoch_users acc.1 !! cit.1 = Some cit.2 /\ cit.1 ∉ acc.2) ->
            counted_with x (set_current (erase_all acc.2) acc.1) ->
            let r := foldl (fun acc cit => filter_current_entry ht d cit acc) acc l in
            counted_with x (set_current (erase_all r.2) r.1)).
  { induction l as [|cit l IH]; intros acc Hnd Hl Hacc; cbn [foldl]; [exact Hacc|].
    cbn [fmap list_fmap] in Hnd. apply NoDup_cons in Hnd as [Hk Hnd].
    destruct (Hl cit) as [Hl1 Hl2]; [left|].
    destruct (filter_current_entry_counted x ht d cit acc Hl1 Hl2 Hacc)
      as (Hc1 & Hag & Hdel).
    cbv zeta in Hc1, Hag, Hdel.
    apply IH; [exact Hnd| |exact Hc1].
    intros cit' Hin. destruct (Hl cit') as [Hl3 Hl4]; [right; exact Hin|].
    assert (Hne : cit'.1 <> cit.1).
    { intros Heq. apply Hk. rewrite <- Heq. apply list_elem_of_fmap.
      exists cit'. split; [reflexivity | exact Hin]. }
    split.
    - rewrite Hag by exact Hne. exact Hl3.
    - intros Hx. apply Hdel in Hx as [Hx|Hx]; contradiction. }
  specialize (Hfold (entries (current_epoch_users s)) (s, [])).
  cbv zeta in Hfold.
  destruct (foldl (fun acc cit => filter_current_entry ht d cit acc) (s, [])
                  (entries (current_epoch_users s))) as [s' del].
  cbn [fst snd] in Hfold. apply Hfold.
  - apply NoDup_fst_entries.
  - intros [e eu] Hin. cbn [fst snd]. apply elem_of_entries in Hin.
    split; [exact Hin | apply not_elem_of_nil].
  - cbn [fst snd]. exact Hc.
Qed.

(** *** The operations of a view *)

Lemma apply_filters_counted (x : N -> nat) (ht : Event -> bool) (dead : gset Event)
    (fp : gmap Event FieldMask) (d : FieldMask) (s : MaterializedState) :
  counted_with x s -> counted_with x (apply_filters ht dead fp d s).
Proof.
  intros Hc. unfold apply_filters. cbv zeta.
  assert (H1 : forall l s0, counted_with x s0 ->
            counted_with x (foldl (fun s e => filter_local_users e s) s0 l)).
  { induction l as [|e l IH]; intros s0 H0; [exact H0|].
    cbn [foldl]. apply IH. apply filter_local_users_counted. exact H0. }
  assert (H2 : counted_with x
                 (if decide (fp = ∅)
                  then foldl (fun s e => filter_local_users e s) s (sorted_elements dead)
                  else filter_previous_users fp
                         (foldl (fun s e => filter_local_users e s) s
                                (sorted_elements dead)))).
  { destruct (decide (fp = ∅)); [|apply filter_previous_users_counted]; apply H1; exact Hc. }
  destruct (negb (Mask.is_empty d)); [apply filter_current_users_counted|]; exact H2.
Qed.

Lemma ind_fresh_union (a u : N) (X : gset N) :
  u ∉ X -> ind (a ∈ {[u]} ∪ X) = (ind (a = u) + ind (a ∈ X))%nat.
Proof.
  intros Hu. unfold ind. destruct (decide (a = u)) as [->|Hne].
  - rewrite (decide_False (P := u ∈ X)) by exact Hu.
    rewrite decide_True by set_solver. lia.
  - destruct (decide (a ∈ X)).
    + rewrite decide_True by set_solver. lia.
    + rewrite decide_False by set_solver. lia.
Qed.

Lemma add_current_user_counted (x : N -> nat) (user : N * PhysicalUser) (e : Event)
    (mask : FieldMask) (s : MaterializedState) :
  user.1 ∉ addrs_of (current_epoch_users s !! e) ->
  counted_with (fun a => (x a + ind (a = user.1))%nat) s ->
  counted_with x (add_current_user user e mask s).
Proof.
  intros Hout Hc. unfold counted_with, add_current_user, set_current in *.
  cbn [heap current_epoch_users previous_epoch_users].
  eapply refs_as_ext; [|exact Hc]. intros a. cbv beta.
  pose proof (holders_insert (current_epoch_users s) e
                (insert_user user mask (current_epoch_users s !! e)) a) as Hh.
  rewrite insert_user_addrs, (ind_fresh_union _ _ _ Hout) in Hh. lia.
Qed.

(** A new user, before it enters a table. *)
Lemma new_user_counted `{Analysis} (node : RegionTreeNode) (usage0 : RegionUsage)
    (cc : ColorPoint) (vi : VersionInfo) (s : MaterializedState) :
  well_formed s -> counted s ->
  let r := new_user node usage0 cc vi (heap s) in
  r.1.1 = next_addr (heap s) /\
  counted_with (fun a => ind (a = next_addr (heap s))) (set_heap (fun _ => r.2) s).
Proof.
  intros (_ & _ & Hbc & Hbp & _) Hc r. subst r.
  split; [apply new_user_spec|].
  apply counted_with_zero in Hc.
  unfold counted_with, set_heap in *.
  cbn [heap current_epoch_users previous_epoch_users].
  assert (Hz : (holders (current_epoch_users s) (next_addr (heap s)) +
                holders (previous_epoch_users s) (next_addr (heap s)) + 0)%nat = 0%nat).
  { rewrite (holders_bounded _ _ _ Hbc), (holders_bounded _ _ _ Hbp) by lia. reflexivity. }
  pose proof (refs_as_new (heap s) _ Hc Hz) as Hnew.
  unfold new_user, legion_new. destruct (IS_READ_ONLY usage0); cbn [fst snd];
    (eapply refs_as_ext; [|exact Hnew]; intros a; cbv beta; lia).
Qed.

Lemma add_local_user_counted `{Analysis} (ht ht' : Event -> bool) (node : RegionTreeNode)
    (usage0 : RegionUsage) (term_event : Event) (base_user : bool)
    (child_color : ColorPoint) (version_info : VersionInfo) (mask : FieldMask)
    (pre : gset Event) (s : MaterializedState) :
  well_formed s -> counted s ->
  counted (add_local_user ht ht' node usage0 term_event base_user child_color
             version_info mask pre s).2.
Proof.
  intros Hok Hc. unfold add_local_user.
  set (a := task_analysis _ _ _ _ _ _ _ _).
  destruct (event_exists term_event).
  - destruct (new_user_counted node usage0 child_color version_info s Hok Hc)
      as [Hu Hnew]. cbv zeta in Hu, Hnew.
    destruct (new_user node usage0 child_color version_info (heap s)) as [user h].
    cbn [fst snd] in Hu, Hnew.
    destruct (apply_filters_ok (next_addr (heap s)) ht' (ta_dead_events a)
                (ta_filter_previous a) (ta_dominated a) (set_heap (fun _ => h) s))
      as [Hok1 _]; [exact Hok|].
    pose proof (apply_filters_counted _ ht' (ta_dead_events a) (ta_filter_previous a)
                  (ta_dominated a) _ Hnew) as Hc1.
    set (s1 := apply_filters _ _ _ _ _) in *.
    assert (Hc2 : counted (add_current_user user term_event mask s1)).
    { apply counted_with_zero. apply add_current_user_counted.
      - rewrite Hu. apply bounded_fresh. exact (proj1 (proj2 (proj2 Hok1))).
      - rewrite Hu. eapply refs_as_ext; [|exact Hc1]. intros b. cbv beta. lia. }
    destruct (decide _); cbn [snd]; exact Hc2.
  - cbn [snd]. apply counted_with_zero. apply apply_filters_counted.
    apply counted_with_zero. exact Hc.
Qed.

Lemma add_local_copy_user_counted `{Analysis} (node : RegionTreeNode)
    (usage0 : RegionUsage) (copy_term : Event) (base_user : bool)
    (child_color : ColorPoint) (version_info : VersionInfo) (mask : FieldMask)
    (s : MaterializedState) :
  well_formed s -> counted s ->
  counted (add_local_copy_user node usage0 copy_term base_user child_color
             version_info mask s).2.
Proof.
  intros Hok Hc. unfold add_local_copy_user.
  destruct (new_user_counted node usage0 child_color version_info s Hok Hc)
    as [Hu Hnew]. cbv zeta in Hu, Hnew.
  destruct (new_user node usage0 child_color version_info (heap s)) as [user h].
  cbn [fst snd] in Hu, Hnew |- *.
  change (counted (add_current_user user copy_term mask (set_heap (fun _ => h) s))).
  apply counted_with_zero. apply add_current_user_counted.
  - rewrite Hu. cbn [set_heap current_epoch_users].
    apply bounded_fresh. exact (proj1 (proj2 (proj2 Hok))).
  - rewrite Hu. eapply refs_as_ext; [|exact Hnew]. intros b. cbv beta. lia.
Qed.

Lemma add_initial_user_counted (term_event : Event) (usage0 : RegionUsage)
    (mask : FieldMask) (s : MaterializedState) :
  well_formed s -> counted s -> counted (add_initial_user term_event usage0 mask s).
Proof.
  intros (_ & _ & Hbc & Hbp & _) Hc. unfold add_initial_user, legion_new.
  cbn [fst snd].
  change (counted (add_current_user (next_addr (heap s), mkUser usage0 None None)
                     term_event mask
                     (set_heap (fun _ => add_reference (next_addr (heap s))
                                           (mkHeap (<[next_addr (heap s) := 0%nat]>
                                                      (references (heap s)))
                                                   (next_addr (heap s) + 1))) s))).
  apply counted_with_zero. apply add_current_user_counted.
  - cbn [fst set_heap current_epoch_users]. apply bounded_fresh. exact Hbc.
  - apply counted_with_zero in Hc.
    unfold counted_with, set_heap in *.
    cbn [fst heap current_epoch_users previous_epoch_users].
    assert (Hz : (holders (current_epoch_users s) (next_addr (heap s)) +
                  holders (previous_epoch_users s) (next_addr (heap s)) + 0)%nat = 0%nat).
    { rewrite (holders_bounded _ _ _ Hbc), (holders_bounded _ _ _ Hbp) by lia.
      reflexivity. }
    pose proof (refs_as_new (heap s) _ Hc Hz) as Hnew.
    eapply refs_as_ext; [|exact Hnew]. intros a. cbv beta. lia.
Qed.

Lemma find_local_copy_preconditions_counted `{Analysis} (ht ht' : Event -> bool)
    (node : RegionTreeNode) (redop : ReductionOpID) (reading : bool)
    (copy_mask : FieldMask) (child_color : ColorPoint) (version_info : VersionInfo)
    (pre : gmap Event FieldMask) (s : MaterializedState) :
  counted s ->
  counted (find_local_copy_preconditions ht ht' node redop reading copy_mask child_color
             version_info pre s).2.
Proof.
  intros Hc. unfold find_local_copy_preconditions. cbn [snd].
  destruct (_ || _); [|exact Hc].
  apply counted_with_zero. apply apply_filters_counted. apply counted_with_zero. exact Hc.
Qed.

Lemma update_gc_events_counted (gc_events : list Event) (s : MaterializedState) :
  counted s -> counted (update_gc_events gc_events s).
Proof.
  unfold update_gc_events. revert s.
  induction gc_events as [|e l IH]; intros s Hc; [exact Hc|].
  cbn [foldl]. apply IH. exact Hc.
Qed.

(** *** [send_view_updates]

    While the message is written the table of needed users holds one
    reference on each of its users. *)

Lemma holders_pos (table : gmap Event EventUsers) (e : Event) (eu : EventUsers) (a : N) :
  table !! e = Some eu -> a ∈ bucket_addrs eu -> (1 <= holders table a)%nat.
Proof.
  intros Hl Ha. rewrite (holders_split table e a), Hl. cbn [addrs_of].
  unfold ind. rewrite decide_True by exact Ha. lia.
Qed.

Section PackRefs.
Context (pack_index : N * PhysicalUser -> Packer -> Z * Packer) (strict : bool).
Hypothesis pack_index_refs : forall (c : N -> nat) (user : N * PhysicalUser) (p : Packer),
  (strict = true -> user.1 ∉ dom (needed_users p)) ->
  (1 <= c user.1)%nat ->
  refs_as (pack_heap p) (fun a => (c a + ind (a ∈ dom (needed_users p)))%nat) ->
  refs_as (pack_heap (pack_index user p).2)
    (fun a => (c a + ind (a ∈ dom (needed_users (pack_index user p).2)))%nat) /\
  dom (needed_users (pack_index user p).2) = {[user.1]} ∪ dom (needed_users p).

Lemma pack_multi_refs (c : N -> nat) (overlap : FieldMask)
    (l : list (N * (PhysicalUser * FieldMask))) :
  forall acc : Z * list Token * Packer,
    NoDup l.*1 ->
    (forall k, k ∈ l.*1 ->
       (1 <= c k)%nat /\ (strict = true -> k ∉ dom (needed_users acc.2))) ->
    refs_as (pack_heap acc.2) (fun a => (c a + ind (a ∈ dom (needed_users acc.2)))%nat) ->
    let r := foldl (fun acc it => pack_multi_user pack_index overlap it acc) acc l in
    refs_as (pack_heap r.2) (fun a => (c a + ind (a ∈ dom (needed_users r.2)))%nat) /\
    (forall a, a ∈ dom (needed_users r.2) -> a ∈ dom (needed_users acc.2) \/ a ∈ l.*1).
Proof using pack_index_refs.
  induction l as [|it l IH]; intros acc Hnd Hk Hc; cbn [foldl].
  - split; [exact Hc|]. auto.
  - cbn [fmap list_fmap] in Hnd, Hk. apply NoDup_cons in Hnd as [Hit Hnd].
    destruct (Hk it.1) as [Hpos Hfresh]; [left|].
    assert (Hstep : refs_as (pack_heap (pack_multi_user pack_index overlap it acc).2)
                      (fun a => (c a + ind (a ∈ dom (needed_users
                                   (pack_multi_user pack_index overlap it acc).2)))%nat) /\
                    (forall a, a ∈ dom (needed_users
                                          (pack_multi_user pack_index overlap it acc).2) ->
                               a ∈ dom (needed_users acc.2) \/ a = it.1)).
    { unfold pack_multi_user. destruct acc as [[count rez] p]. cbn [snd] in *.
      destruct (Mask.is_empty (it.2.2 &&& overlap)); [split; [exact Hc | auto]|].
      destruct (pack_index_refs c (it.1, it.2.1) p Hfresh Hpos Hc) as [Hc' Hd'].
      destruct (pack_index (it.1, it.2.1) p) as [index p']. cbn [snd fst] in *.
      split; [exact Hc'|]. intros a Ha. rewrite Hd' in Ha. set_solver. }
    destruct Hstep as [Hc1 Hd1].
    destruct (IH (pack_multi_user pack_index overlap it acc) Hnd) as [Hc2 Hd2];
      [|exact Hc1|].
    + intros k Hin. destruct (Hk k) as [Hp Hf]; [right; exact Hin|].
      split; [exact Hp|]. intros Hs Hx. apply Hd1 in Hx as [Hx| ->].
      * exact (Hf Hs Hx).
      * contradiction.
    + split; [exact Hc2|]. intros a Ha. apply Hd2 in Ha as [Ha|Ha].
      * apply Hd1 in Ha as [Ha| ->]; [left; exact Ha | right; left].
      * right. right. exact Ha.
Qed.

Lemma pack_event_refs (c : N -> nat) (update_mask : FieldMask) (it : Event * EventUsers)
    (acc : N * list Token * Packer) :
  (forall a, a ∈ bucket_addrs it.2 ->
     (1 <= c a)%nat /\ (strict = true -> a ∉ dom (needed_users acc.2))) ->
  refs_as (pack_heap acc.2) (fun a => (c a + ind (a ∈ dom (needed_users acc.2)))%nat) ->
  let r := pack_event pack_index update_mask it acc in
  refs_as (pack_heap r.2) (fun a => (c a + ind (a ∈ dom (needed_users r.2)))%nat) /\
  (forall a, a ∈ dom (needed_users r.2) ->
     a ∈ dom (needed_users acc.2) \/ a ∈ bucket_addrs it.2).
Proof using pack_index_refs.
  intros Hk Hc r. subst r. unfold pack_event. destruct acc as [[events rez] p].
  cbn [snd] in *.
  destruct (Mask.is_empty (user_mask it.2 &&& update_mask)); [split; [exact Hc | auto]|].
  destruct it as [e [um [user|m]]]; unfold bucket_addrs in *; cbn [fst snd users] in *.
  - destruct (Hk user.1) as [Hpos Hfresh]; [set_solver|].
    destruct (pack_index_refs c user p Hfresh Hpos Hc) as [Hc' Hd'].
    destruct (pack_index user p) as [index p']. cbn [snd fst] in *.
    split; [exact Hc'|]. intros a Ha. rewrite Hd' in Ha. set_solver.
  - destruct (pack_multi_refs c (um &&& update_mask) (entries m) ((-1)%Z, [], p)
                (NoDup_fst_entries m)) as [Hc' Hd']; cbn [snd].
    + intros k Hin. apply Hk. apply entries_keys_dom. exact Hin.
    + exact Hc.
    + destruct (foldl _ _ _) as [[count event_rez] p']. cbn [snd] in *.
      split; [exact Hc'|]. intros a Ha. apply Hd' in Ha as [Ha|Ha]; [left; exact Ha|].
      right. apply entries_keys_dom. exact Ha.
Qed.

Lemma pack_events_refs (c : N -> nat) (update_mask : FieldMask)
    (l : list (Event * EventUsers)) :
  forall acc : N * list Token * Packer,
    (forall it a, it ∈ l -> a ∈ bucket_addrs it.2 ->
       (1 <= c a)%nat /\ (strict = true -> a ∉ dom (needed_users acc.2))) ->
    (strict = true ->
     NoDup l.*1 /\
     forall it it' a, it ∈ l -> it' ∈ l ->
       a ∈ bucket_addrs it.2 -> a ∈ bucket_addrs it'.2 -> it.1 = it'.1) ->
    refs_as (pack_heap acc.2) (fun a => (c a + ind (a ∈ dom (needed_users acc.2)))%nat) ->
    let r := foldl (fun acc it => pack_event pack_index update_mask it acc) acc l in
    refs_as (pack_heap r.2) (fun a => (c a + ind (a ∈ dom (needed_users r.2)))%nat).
Proof using pack_index_refs.
  induction l as [|it l IH]; intros acc Hk Hsep Hc; cbn [foldl]; [exact Hc|].
  destruct (pack_event_refs c update_mask it acc) as [Hc1 Hd1];
    [intros a Ha; apply (Hk it a); [left | exact Ha] | exact Hc |].
  cbv zeta in Hc1, Hd1.
  apply IH; [| |exact Hc1].
  - intros it' a Hin Ha. destruct (Hk it' a) as [Hp Hf]; [right; exact Hin | exact Ha |].
    split; [exact Hp|]. intros Hs Hx. apply Hd1 in Hx as [Hx|Hx]; [exact (Hf Hs Hx)|].
    destruct (Hsep Hs) as [Hnd Hun]. cbn [fmap list_fmap] in Hnd.
    apply NoDup_cons in Hnd as [Hit _]. apply Hit.
    rewrite (Hun it it' a); [|left|right; exact Hin|exact Hx|exact Ha].
    apply list_elem_of_fmap. exists it'. split; [reflexivity | exact Hin].
  - intros Hs. destruct (Hsep Hs) as [Hnd Hun]. cbn [fmap list_fmap] in Hnd.
    apply NoDup_cons in Hnd as [_ Hnd]. split; [exact Hnd|].
    intros i1 i2 a H1 H2. apply Hun; right; assumption.
Qed.
End PackRefs.

Lemma pack_current_user_refs (c : N -> nat) (user : N * PhysicalUser) (p : Packer) :
  (true = true -> user.1 ∉ dom (needed_users p)) ->
  (1 <= c user.1)%nat ->
  refs_as (pack_heap p) (fun a => (c a + ind (a ∈ dom (needed_users p)))%nat) ->
  refs_as (pack_heap (pack_current_user user p).2)
    (fun a => (c a + ind (a ∈ dom (needed_users (pack_current_user user p).2)))%nat) /\
  dom (needed_users (pack_current_user user p).2) = {[user.1]} ∪ dom (needed_users p).
Proof.
  intros Hfresh Hpos Hc. specialize (Hfresh eq_refl).
  unfold pack_current_user. cbn [snd needed_users pack_heap].
  split; [|apply dom_insert_L].
  eapply refs_as_ext; [|apply (refs_as_add _ _ user.1 Hc)].
  - intros a. cbv beta. rewrite dom_insert_L, (ind_fresh_union _ _ _ Hfresh). lia.
  - cbv beta. lia.
Qed.

Lemma pack_previous_user_refs (c : N -> nat) (user : N * PhysicalUser) (p : Packer) :
  (false = true -> user.1 ∉ dom (needed_users p)) ->
  (1 <= c user.1)%nat ->
  refs_as (pack_heap p) (fun a => (c a + ind (a ∈ dom (needed_users p)))%nat) ->
  refs_as (pack_heap (pack_previous_user user p).2)
    (fun a => (c a + ind (a ∈ dom (needed_users (pack_previous_user user p).2)))%nat) /\
  dom (needed_users (pack_previous_user user p).2) = {[user.1]} ∪ dom (needed_users p).
Proof.
  intros _ Hpos Hc. unfold pack_previous_user.
  destruct (needed_users p !! user.1) as [finder|] eqn:Hl; cbn [snd needed_users pack_heap].
  - split; [exact Hc|]. apply elem_of_dom_2 in Hl. set_solver.
  - apply not_elem_of_dom in Hl.
    split; [|apply dom_insert_L].
    eapply refs_as_ext; [|apply (refs_as_add _ _ user.1 Hc)].
    + intros a. cbv beta. rewrite dom_insert_L, (ind_fresh_union _ _ _ Hl). lia.
    + cbv beta. lia.
Qed.

Lemma pack_needed_heap (l : list (N * (PhysicalUser * Z))) (acc : list Token * UserHeap) :
  (foldl (fun acc it => pack_needed it acc) acc l).2 = release_all l.*1 acc.2.
Proof.
  revert acc. induction l as [|it l IH]; intros acc; [reflexivity|].
  cbn [foldl fmap list_fmap]. rewrite IH. reflexivity.
Qed.

Lemma refs_as_inj (h h' : UserHeap) (c : N -> nat) :
  refs_as h c -> refs_as h' c -> next_addr h = next_addr h' -> h = h'.
Proof.
  intros Hc Hc' Hn. destruct h as [r n], h' as [r' n']. cbn [next_addr] in Hn. subst n'.
  f_equal. apply map_eq. intros a. specialize (Hc a). specialize (Hc' a).
  cbn [references] in *. congruence.
Qed.

Lemma send_view_updates_heap (is_region : bool) (handle did : N)
    (update_mask : FieldMask) (s : MaterializedState) :
  well_formed s -> counted s ->
  (send_view_updates is_region handle did update_mask s).2 = s.
Proof.
  intros Hok Hc.
  pose proof (send_view_updates_ok is_region handle did update_mask s Hok) as Hok'.
  destruct Hok as (_ & _ & _ & _ & Hun).
  assert (Hnext : next_addr (heap (send_view_updates is_region handle did update_mask s).2)
                  = next_addr (heap s)).
  { unfold send_view_updates.
    pose proof (next_addr_pack_events pack_current_user next_addr_pack_current_user
                  update_mask (entries (current_epoch_users s))
                  (0, [], mkPacker ∅ (heap s))) as H1.
    destruct (foldl _ _ (entries (current_epoch_users s)))
      as [[current_events current_rez] p1].
    pose proof (next_addr_pack_events pack_previous_user next_addr_pack_previous_user
                  update_mask (entries (previous_epoch_users s)) (0, [], p1)) as H2.
    destruct (foldl _ _ (entries (previous_epoch_users s)))
      as [[previous_events previous_rez] p2].
    pose proof (next_addr_pack_needed (entries (needed_users p2)) ([], pack_heap p2)) as H3.
    destruct (foldl _ _ (entries (needed_users p2))) as [table h].
    cbn [fst snd pack_heap set_heap heap] in *. congruence. }
  set (c := fun a : N => (holders (current_epoch_users s) a +
                          holders (previous_epoch_users s) a)%nat).
  assert (Hrefs : refs_as (heap (send_view_updates is_region handle did update_mask s).2) c).
  { unfold send_view_updates.
    pose proof (pack_events_refs pack_current_user true pack_current_user_refs c
                  update_mask (entries (current_epoch_users s))
                  (0, [], mkPacker ∅ (heap s))) as H1.
    cbv zeta in H1. cbn [snd needed_users pack_heap] in H1.
    destruct (foldl _ _ (entries (current_epoch_users s)))
      as [[current_events current_rez] p1].
    pose proof (pack_events_refs pack_previous_user false pack_previous_user_refs c
                  update_mask (entries (previous_epoch_users s)) (0, [], p1)) as H2.
    cbv zeta in H2. cbn [snd] in H1, H2.
    destruct (foldl _ _ (entries (previous_epoch_users s)))
      as [[previous_events previous_rez] p2].
    pose proof (pack_needed_heap (entries (needed_users p2)) ([], pack_heap p2)) as H3.
    destruct (foldl _ _ (entries (needed_users p2))) as [table h].
    cbn [fst snd pack_heap set_heap heap] in *. subst h.
    apply refs_as_release_all; [apply NoDup_fst_entries|].
    apply (refs_as_ext _ (fun a => (c a + ind (a ∈ dom (needed_users p2)))%nat)).
    { intros a. cbv beta. f_equal. apply ind_iff. symmetry. apply entries_keys_dom. }
    apply H2.
    - intros [e eu] a Hin Ha. cbn [snd] in Ha. apply elem_of_entries in Hin.
      split; [|discriminate].
      subst c. cbv beta. pose proof (holders_pos _ e eu a Hin Ha). lia.
    - discriminate.
    - apply H1.
      + intros [e eu] a Hin Ha. cbn [snd] in Ha. apply elem_of_entries in Hin.
        split; [|intros _; set_solver].
        subst c. cbv beta. pose proof (holders_pos _ e eu a Hin Ha). lia.
      + intros _. split; [apply NoDup_fst_entries|].
        intros [e eu] [e' eu'] a Hin Hin' Ha Ha'. cbn [fst snd] in *.
        apply elem_of_entries in Hin, Hin'.
        apply (Hun e e' a); [rewrite Hin | rewrite Hin']; assumption.
      + eapply refs_as_ext; [|exact Hc]. intros a. cbv beta. subst c. cbv beta.
        unfold ind. rewrite decide_False by set_solver. lia. }
  assert (Hheap : heap (send_view_updates is_region handle did update_mask s).2 = heap s).
  { apply (refs_as_inj _ _ c); [exact Hrefs | exact Hc | exact Hnext]. }
  destruct (send_view_updates_tables is_region handle did update_mask s)
    as (Hcur & Hprev & Hgc).
  revert Hheap Hcur Hprev Hgc. unfold send_view_updates.
  destruct (foldl _ _ (entries (current_epoch_users s))) as [[n1 rez1] p1].
  destruct (foldl _ _ (entries (previous_epoch_users s))) as [[n2 rez2] p2].
  destruct (foldl _ _ (entries (needed_users p2))) as [table h].
  cbn [snd]. destruct s as [cur prev gc init hp]. unfold set_heap.
  cbn [heap current_epoch_users previous_epoch_users outstanding_gc_events
       initial_user_events].
  intros -> _ _ _. reflexivity.
Qed.

(** *** [process_update]: the references taken while a message is read *)

Lemma note_event_log (e : Event) (u : Update) :
  update_users (note_event e u) = update_users u /\
  heap (update_state (note_event e u)) = heap (update_state u) /\
  need_reference (note_event e u) = need_reference u.
Proof. unfold note_event. destruct (decide _); repeat split. Qed.

Section InstallLog.
Context (add : N * PhysicalUser -> Event -> FieldMask -> MaterializedState -> MaterializedState).
Hypothesis add_heap : forall user e mask s, heap (add user e mask s) = heap s.
Hypothesis add_tables : forall user e mask s s',
  same_tables s s' -> same_tables (add user e mask s) (add user e mask s').
Context (idx : N -> Z) (copy : N -> N * PhysicalUser).

Lemma install_user_log (a : N) (e : Event) (mask : FieldMask) (u u' : Update) :
  resolves idx copy (update_users u) [a] ->
  install_user add (idx a) e mask u = Some u' ->
  update_users u' = update_users u /\
  (heap (update_state u'), need_reference u')
  = note_reference (copy a).1 (Z.to_nat (idx a))
      (heap (update_state u), need_reference u).
Proof using add_heap.
  intros Hres Hrun. destruct (Hres a) as [Hpos Hl]; [left|].
  unfold install_user in Hrun. apply Z.leb_le in Hpos. rewrite Hpos, Hl in Hrun.
  injection Hrun as <-. cbn [update_users update_state need_reference].
  split; [reflexivity|]. unfold note_reference. cbn [fst snd].
  rewrite add_heap.
  destruct (default false (need_reference u !! Z.to_nat (idx a))); reflexivity.
Qed.

Lemma install_entries_log (e : Event) (l : list (N * FieldMask)) :
  forall (rest : list Token) (u u' : Update),
    resolves idx copy (update_users u) l.*1 ->
    install_entries add (length l) e (flat_map (encode_user idx) l ++ rest) u
      = Some (u', rest) ->
    update_users u' = update_users u /\
    (heap (update_state u'), need_reference u')
    = log_references idx copy l.*1 (heap (update_state u), need_reference u).
Proof using add_heap.
  induction l as [|x l IH]; intros rest u u' Hres Hrun.
  - cbn [length install_entries] in Hrun. injection Hrun as <-. split; reflexivity.
  - cbn [length flat_map encode_user app install_entries read_int read_mask mbind
         option_bind] in Hrun.
    simpl in Hrun.
    destruct (install_user add (idx x.1) e x.2 u) as [u1|] eqn:Hu1; [|discriminate].
    simpl in Hrun.
    destruct (install_user_log x.1 e x.2 u u1) as [Hus1 Hhf1];
      [intros a Ha; apply Hres; apply list_elem_of_singleton in Ha as ->; left
      | exact Hu1 |].
    destruct (IH rest u1 u') as [Hus' Hhf'];
      [rewrite Hus1; intros a Ha; apply Hres; right; exact Ha | exact Hrun |].
    split; [congruence|].
    cbn [fmap list_fmap]. unfold log_references in *. cbn [foldl].
    rewrite <- Hhf1. exact Hhf'.
Qed.

Lemma install_event_log (ev : Event * list (N * FieldMask)) (rest : list Token)
    (u u' : Update) :
  (Z.of_nat (length ev.2) + 1 < 2 ^ 31)%Z ->
  resolves idx copy (update_users u) ev.2.*1 ->
  install_event add (TEvent ev.1 :: encode_block idx ev.2 ++ rest) u = Some (u', rest) ->
  update_users u' = update_users u /\
  (heap (update_state u'), need_reference u')
  = log_references idx copy ev.2.*1 (heap (update_state u), need_reference u).
Proof using add_heap.
  intros Hlen Hres Hrun. destruct ev as [e l]. cbn [fst snd] in *.
  unfold install_event in Hrun. cbn [read_event mbind option_bind fst snd] in Hrun.
  assert (Hblock : forall u1,
    ('(index, derez) ← read_int (encode_block idx l ++ rest);
     (if (index <? 0)%Z then
        install_entries add (Z.to_nat (to_int (to_int (- index) - 1))) e derez u
      else
        '(mask, derez) ← read_mask derez;
        u' ← install_user add index e mask u;
        Some (u', derez))) = Some (u1, rest) ->
    update_users u1 = update_users u /\
    (heap (update_state u1), need_reference u1)
    = log_references idx copy l.*1 (heap (update_state u), need_reference u)).
  { intros u1 Hb. destruct l as [|x [|x' l]].
    - simpl in Hb. injection Hb as <-. split; reflexivity.
    - destruct (Hres x.1) as [Hpos _]; [left|].
      unfold encode_block, encode_user in Hb. simpl in Hb.
      assert (Hneg : (idx x.1 <? 0)%Z = false) by (apply Z.ltb_ge; exact Hpos).
      rewrite Hneg in Hb. simpl in Hb.
      destruct (install_user add (idx x.1) e x.2 u) as [u2|] eqn:Hu2; [|discriminate].
      simpl in Hb. injection Hb as <-.
      exact (install_user_log x.1 e x.2 u u2 Hres Hu2).
    - set (l2 := x :: x' :: l) in *.
      apply (install_entries_log e l2 rest u u1 Hres).
      unfold encode_block in Hb. fold l2 in Hb.
      replace (match l2 with [u] => encode_user idx u
               | _ => TInt (- (Z.of_nat (length l2) + 1)) :: flat_map (encode_user idx) l2
               end) with (TInt (- (Z.of_nat (length l2) + 1)) :: flat_map (encode_user idx) l2)
        in Hb by reflexivity.
      cbn [app read_int mbind option_bind] in Hb.
      assert (Hneg : (- (Z.of_nat (length l2) + 1) <? 0)%Z = true)
        by (apply Z.ltb_lt; lia).
      rewrite Hneg in Hb. rewrite Z.opp_involutive in Hb.
      rewrite (to_int_small (Z.of_nat (length l2) + 1)) in Hb by lia.
      rewrite to_int_small in Hb by lia.
      replace (Z.to_nat (Z.of_nat (length l2) + 1 - 1)) with (length l2) in Hb by lia.
      exact Hb. }
  destruct (read_int (encode_block idx l ++ rest)) as [[index derez]|]; [|discriminate].
  simpl in Hrun, Hblock.
  destruct (if (index <? 0)%Z
            then install_entries add (Z.to_nat (to_int (to_int (- index) - 1))) e derez u
            else _) as [[u1 derez1]|] eqn:Hb; [|discriminate].
  simpl in Hrun. injection Hrun as <- ->.
  destruct (Hblock u1 eq_refl) as [Hus1 Hhf1].
  destruct (note_event_log e u1) as (Hus2 & Hh2 & Hf2).
  split; [congruence|]. rewrite Hh2, Hf2. exact Hhf1.
Qed.

Lemma install_events_log (ups : list (Event * list (N * FieldMask))) :
  forall (rest : list Token) (u u' : Update),
    (Z.of_nat (update_load ups) < 2 ^ 31)%Z ->
    resolves idx copy (update_users u) (carried_addrs ups) ->
    install_events add (length ups) (encode_events idx ups ++ rest) u = Some (u', rest) ->
    update_users u' = update_users u /\
    (heap (update_state u'), need_reference u')
    = log_references idx copy (carried_addrs ups)
        (heap (update_state u), need_reference u).
Proof using add_heap add_tables.
  induction ups as [|ev ups IH]; intros rest u u' Hlen Hres Hrun.
  - cbn [length install_events] in Hrun. injection Hrun as <-. split; reflexivity.
  - unfold update_load, carried_addrs in Hlen, Hres. simpl in Hlen, Hres.
    fold (carried_addrs ups) in Hlen, Hres. rewrite length_app, length_fmap in Hlen.
    cbn [length install_events] in Hrun. unfold encode_events in Hrun.
    cbn [flat_map] in Hrun. fold (encode_events idx ups) in Hrun.
    rewrite <- app_assoc, <- app_comm_cons in Hrun.
    destruct (install_event_spec add add_tables idx copy ev
                (encode_events idx ups ++ rest) u (update_state u))
      as (u1 & Hu1 & Hus1 & _);
      [lia | intros a Ha; apply Hres; apply elem_of_app; left; exact Ha
      | apply same_tables_refl |].
    rewrite Hu1 in Hrun. simpl in Hrun.
    destruct (install_event_log ev (encode_events idx ups ++ rest) u u1) as [_ Hhf1];
      [lia | intros a Ha; apply Hres; apply elem_of_app; left; exact Ha | exact Hu1 |].
    destruct (IH rest u1 u') as [Hus' Hhf'];
      [unfold update_load; lia
      | rewrite Hus1; intros a Ha; apply Hres; apply elem_of_app; right; exact Ha
      | exact Hrun |].
    split; [congruence|].
    change (carried_addrs (ev :: ups)) with (ev.2.*1 ++ carried_addrs ups).
    unfold log_references in *. rewrite foldl_app, <- Hhf1. exact Hhf'.
Qed.
End InstallLog.

(** The users of a message, each unpacked with one reference. *)
Lemma unpack_users_refs (n : nat) :
  forall (derez : list Token) (users : list (option (N * PhysicalUser))) (h : UserHeap)
         users' h' rest (c : N -> nat),
    unpack_users n derez users h = Some (users', h', rest) ->
    refs_as h c -> (forall a, next_addr h <= a -> c a = 0%nat) ->
    refs_as h' (fun a => (c a + ind (next_addr h <= a < next_addr h + N.of_nat n)%N)%nat).
Proof.
  induction n as [|n IH]; intros derez users h users' h' rest c Hrun Hc Hz.
  - cbn [unpack_users] in Hrun. injection Hrun as <- <- <-.
    eapply refs_as_ext; [|exact Hc]. intros a. cbv beta.
    unfold ind. rewrite decide_False by lia. lia.
  - cbn [unpack_users] in Hrun.
    destruct (read_int derez) as [[index derez1]|]; [|discriminate]. simpl in Hrun.
    destruct (read_user derez1) as [[record derez2]|]; [|discriminate]. simpl in Hrun.
    destruct ((0 <=? index)%Z && (index <? Z.of_nat (length users))%Z); [|discriminate].
    unfold unpack_user, legion_new in Hrun. cbn [fst snd] in Hrun.
    pose proof (refs_as_new h c Hc (Hz _ (N.le_refl _))) as Hnew.
    specialize (IH _ _ _ _ _ _ _ Hrun Hnew).
    rewrite next_addr_add_reference in IH. cbn [next_addr] in IH.
    eapply refs_as_ext; [|apply IH].
    + intros a. cbv beta. unfold ind. repeat case_decide; lia.
    + intros a Ha. cbv beta. rewrite (Hz a) by lia. unfold ind.
      rewrite decide_False by lia. reflexivity.
Qed.

(** *** The tables after an update *)

Lemma copies_at_app (copy : N -> N * PhysicalUser) (l l' : list N) (a : N) :
  copies_at copy (l ++ l') a = (copies_at copy l a + copies_at copy l' a)%nat.
Proof. unfold copies_at. apply sum_list_with_app. Qed.

Lemma copies_at_pos (copy : N -> N * PhysicalUser) (l : list N) (b : N) :
  b ∈ l -> (1 <= copies_at copy l (copy b).1)%nat.
Proof.
  intros Hin. unfold copies_at.
  pose proof (sum_list_with_in b (fun b0 => ind ((copy b0).1 = (copy b).1)) l Hin) as Hle.
  cbv beta in Hle. unfold ind in Hle at 1. rewrite decide_True in Hle by reflexivity.
  exact Hle.
Qed.

Lemma copies_at_none (copy : N -> N * PhysicalUser) (l : list N) (a : N) :
  a ∉ (fun b => (copy b).1) <$> l -> copies_at copy l a = 0%nat.
Proof.
  unfold copies_at. induction l as [|b l IH]; intros Hn; [reflexivity|].
  cbn [sum_list_with]. rewrite IH.
  - unfold ind. rewrite decide_False; [reflexivity|].
    intros Heq. apply Hn. rewrite fmap_cons, <- Heq. left.
  - intros Hin. apply Hn. rewrite fmap_cons. right. exact Hin.
Qed.

Lemma NoDup_fmap_via {A B C} (f : A -> B) (g : A -> C) (l : list A) :
  (forall x y, x ∈ l -> y ∈ l -> f x = f y -> g x = g y) ->
  NoDup (g <$> l) -> NoDup (f <$> l).
Proof.
  induction l as [|x l IH]; intros Hfg Hnd; [constructor|].
  cbn [fmap list_fmap] in Hnd |- *. apply NoDup_cons in Hnd as [Hx Hnd].
  apply NoDup_cons. split.
  - intros Hin. apply list_elem_of_fmap in Hin as (y & Heq & Hy).
    apply Hx. apply list_elem_of_fmap. exists y. split; [|exact Hy].
    apply Hfg; [left | right; exact Hy | exact Heq].
  - apply IH; [|exact Hnd]. intros y z Hy Hz. apply Hfg; right; assumption.
Qed.

Lemma holders_insert_all (copy : N -> N * PhysicalUser)
    (P : list (Event * (N * FieldMask))) :
  forall (table : gmap Event EventUsers) (a : N),
    (forall x, x ∈ P -> (copy x.2.1).1 ∉ addrs_of (table !! x.1)) ->
    NoDup (copy_tag copy <$> P) ->
    holders (insert_all copy P table) a
    = (holders table a
       + copies_at copy ((fun x : Event * (N * FieldMask) => x.2.1) <$> P) a)%nat.
Proof.
  induction P as [|x P IH]; intros table a Hfresh Hnd.
  - cbn. unfold copies_at. cbn. lia.
  - rewrite fmap_cons in Hnd. apply NoDup_cons in Hnd as [Hx Hnd].
    change (insert_all copy (x :: P) table)
      with (insert_all copy P
              (<[x.1 := insert_user (copy x.2.1) x.2.2 (table !! x.1)]> table)).
    rewrite IH; [| |exact Hnd].
    + pose proof (holders_insert table x.1
                    (insert_user (copy x.2.1) x.2.2 (table !! x.1)) a) as Hh.
      rewrite insert_user_addrs in Hh.
      rewrite (ind_fresh_union _ _ _ (Hfresh x (list_elem_of_here _ _))) in Hh.
      rewrite fmap_cons. unfold copies_at at 2. cbn [sum_list_with].
      fold (copies_at copy ((fun x0 : Event * (N * FieldMask) => x0.2.1) <$> P) a).
      assert (Hsym : ind ((copy x.2.1).1 = a) = ind (a = (copy x.2.1).1))
        by (apply ind_iff; split; congruence).
      rewrite Hsym. lia.
    + intros y Hy. destruct (decide (y.1 = x.1)) as [Heq|Hne].
      * rewrite Heq, lookup_insert_eq. cbn [addrs_of]. rewrite insert_user_addrs.
        intros Hin. apply elem_of_union in Hin as [Hin|Hin].
        -- apply elem_of_singleton in Hin. apply Hx.
           apply list_elem_of_fmap. exists y. split; [|exact Hy].
           unfold copy_tag. rewrite Heq, Hin. reflexivity.
        -- rewrite <- Heq in Hin. exact (Hfresh y (list_elem_of_further _ _ _ Hy) Hin).
      * rewrite lookup_insert_ne by congruence.
        exact (Hfresh y (list_elem_of_further _ _ _ Hy)).
Qed.

(** *** The references after an update *)

Section LogReferences.
Context (idx : N -> Z) (copy : N -> N * PhysicalUser).
Context (K : list N) (n0 : N) (len : nat) (c0 : N -> nat).
Hypothesis copy_range : forall b, b ∈ K -> n0 <= (copy b).1 < n0 + N.of_nat len.
Hypothesis copy_inj : forall b b', b ∈ K -> b' ∈ K -> (copy b).1 = (copy b').1 -> b = b'.
Hypothesis idx_range : forall b, b ∈ K -> (0 <= idx b < Z.of_nat len)%Z.
Hypothesis idx_inj : forall b b', b ∈ K -> b' ∈ K -> idx b = idx b' -> b = b'.

Lemma log_reference_step (hf : UserHeap * list bool) (dn : list N) (b : N) :
  b ∈ K -> (forall d, d ∈ dn -> d ∈ K) ->
  length hf.2 = len ->
  (forall d, d ∈ K ->
     default false (hf.2 !! Z.to_nat (idx d)) = true <-> d ∈ dn) ->
  refs_as hf.1
    (fun a => (c0 a + copies_at copy dn a
               + ind ((n0 <= a < n0 + N.of_nat len)%N /\
                      a ∉ (fun d => (copy d).1) <$> dn))%nat) ->
  let hf' := note_reference (copy b).1 (Z.to_nat (idx b)) hf in
  length hf'.2 = len /\
  (forall d, d ∈ K ->
     default false (hf'.2 !! Z.to_nat (idx d)) = true <-> d ∈ dn ++ [b]) /\
  refs_as hf'.1
    (fun a => (c0 a + copies_at copy (dn ++ [b]) a
               + ind ((n0 <= a < n0 + N.of_nat len)%N /\
                      a ∉ (fun d => (copy d).1) <$> (dn ++ [b])))%nat).
Proof using copy_range copy_inj idx_range idx_inj.
  intros Hb Hdn Hlen Hflags Hc hf'. subst hf'. unfold note_reference. cbn [fst snd].
  split; [rewrite length_insert; exact Hlen|]. split.
  - intros d Hd. destruct (decide (d = b)) as [->|Hne].
    + rewrite list_lookup_insert_eq by (rewrite Hlen; pose proof (idx_range b Hb); lia).
      cbn. split; [intros _; apply elem_of_app; right; left | reflexivity].
    + rewrite list_lookup_insert_ne.
      * rewrite (Hflags d Hd). rewrite elem_of_app, list_elem_of_singleton. tauto.
      * intros Heq. apply Hne. apply (idx_inj d b Hd Hb).
        pose proof (idx_range b Hb). pose proof (idx_range d Hd). lia.
  - assert (Himg : forall a, a ∈ (fun d => (copy d).1) <$> (dn ++ [b]) <->
                             a ∈ (fun d => (copy d).1) <$> dn \/ a = (copy b).1).
    { intros a. rewrite fmap_app, elem_of_app. cbn [fmap list_fmap].
      rewrite list_elem_of_singleton. reflexivity. }
    destruct (default false (hf.2 !! Z.to_nat (idx b))) eqn:Hflag.
    + apply (Hflags b Hb) in Hflag.
      assert (Hin : (copy b).1 ∈ (fun d => (copy d).1) <$> dn).
      { apply list_elem_of_fmap. exists b. split; [reflexivity | exact Hflag]. }
      eapply refs_as_ext; [|apply (refs_as_add _ _ (copy b).1 Hc)].
      * intros a. cbv beta. rewrite copies_at_app.
        unfold copies_at at 3. cbn [sum_list_with].
        assert (Hsym : ind ((copy b).1 = a) = ind (a = (copy b).1))
          by (apply ind_iff; split; congruence).
        rewrite Hsym.
        assert (Hp : ind ((n0 <= a < n0 + N.of_nat len)%N /\
                          a ∉ (fun d => (copy d).1) <$> (dn ++ [b]))
                     = ind ((n0 <= a < n0 + N.of_nat len)%N /\
                            a ∉ (fun d => (copy d).1) <$> dn)).
        { apply ind_iff. rewrite Himg. split.
          - intros [Hr Hn]. split; [exact Hr|]. tauto.
          - intros [Hr Hn]. split; [exact Hr|]. intros [Hx| ->]; contradiction. }
        rewrite Hp. lia.
      * cbv beta. pose proof (copies_at_pos copy dn b Hflag). lia.
    + assert (Hout : b ∉ dn).
      { intros Hin. apply (Hflags b Hb) in Hin. congruence. }
      assert (Hnimg : (copy b).1 ∉ (fun d => (copy d).1) <$> dn).
      { intros Hin. apply list_elem_of_fmap in Hin as (d & Heq & Hd).
        apply Hout. rewrite (copy_inj b d Hb (Hdn d Hd) Heq). exact Hd. }
      eapply refs_as_ext; [|exact Hc]. intros a. cbv beta.
      rewrite copies_at_app. unfold copies_at at 3. cbn [sum_list_with].
      destruct (decide (a = (copy b).1)) as [->|Hne].
      * rewrite (copies_at_none copy dn _ Hnimg).
        unfold ind. rewrite (decide_True (P := (copy b).1 = (copy b).1)) by reflexivity.
        rewrite decide_True by (split; [apply copy_range; exact Hb | exact Hnimg]).
        rewrite decide_False by (rewrite Himg; tauto). lia.
      * assert (Hz : ind ((copy b).1 = a) = 0%nat)
          by (unfold ind; rewrite decide_False by congruence; reflexivity).
        rewrite Hz.
        assert (Hp : ind ((n0 <= a < n0 + N.of_nat len)%N /\
                          a ∉ (fun d => (copy d).1) <$> (dn ++ [b]))
                     = ind ((n0 <= a < n0 + N.of_nat len)%N /\
                            a ∉ (fun d => (copy d).1) <$> dn)).
        { apply ind_iff. rewrite Himg. tauto. }
        rewrite Hp. lia.
Qed.

Lemma log_references_fold (L : list N) :
  forall (hf : UserHeap * list bool) (dn : list N),
    (forall b, b ∈ L -> b ∈ K) -> (forall d, d ∈ dn -> d ∈ K) ->
    length hf.2 = len ->
    (forall d, d ∈ K ->
       default false (hf.2 !! Z.to_nat (idx d)) = true <-> d ∈ dn) ->
    refs_as hf.1
      (fun a => (c0 a + copies_at copy dn a
                 + ind ((n0 <= a < n0 + N.of_nat len)%N /\
                        a ∉ (fun d => (copy d).1) <$> dn))%nat) ->
    refs_as (log_references idx copy L hf).1
      (fun a => (c0 a + copies_at copy (dn ++ L) a
                 + ind ((n0 <= a < n0 + N.of_nat len)%N /\
                        a ∉ (fun d => (copy d).1) <$> (dn ++ L)))%nat).
Proof using copy_range copy_inj idx_range idx_inj.
  induction L as [|b L IH]; intros hf dn HL Hdn Hlen Hflags Hc.
  - rewrite app_nil_r. exact Hc.
  - destruct (log_reference_step hf dn b) as (Hlen' & Hflags' & Hc');
      [apply HL; left | exact Hdn | exact Hlen | exact Hflags | exact Hc |].
    cbv zeta in Hlen', Hflags', Hc'.
    unfold log_references. cbn [foldl].
    fold (log_references idx copy L (note_reference (copy b).1 (Z.to_nat (idx b)) hf)).
    replace (dn ++ b :: L) with ((dn ++ [b]) ++ L) by (rewrite <- app_assoc; reflexivity).
    apply IH; [| |exact Hlen'|exact Hflags'|exact Hc'].
    + intros d Hd. apply HL. right. exact Hd.
    + intros d Hd. apply elem_of_app in Hd as [Hd|Hd]; [apply Hdn; exact Hd|].
      apply list_elem_of_singleton in Hd as ->. apply HL. left.
Qed.
End LogReferences.

(** *** The users a message needs are users it carries *)

Section PackDom.
Context (pack_index : N * PhysicalUser -> Packer -> Z * Packer).
Hypothesis pack_index_dom : forall u p,
  dom (needed_users (pack_index u p).2) = {[u.1]} ∪ dom (needed_users p).

Lemma pack_multi_dom (overlap : FieldMask) (l : list (N * (PhysicalUser * FieldMask))) :
  forall (acc : Z * list Token * Packer) (a : N),
    a ∈ dom (needed_users
               (foldl (fun acc it => pack_multi_user pack_index overlap it acc) acc l).2) ->
    a ∈ dom (needed_users acc.2) \/ a ∈ (overlapping overlap l).*1.
Proof using pack_index_dom.
  induction l as [|it l IH]; intros acc a Ha; cbn [foldl] in Ha; [left; exact Ha|].
  apply IH in Ha. cbn [overlapping].
  unfold pack_multi_user in Ha. destruct acc as [[count rez] p].
  destruct (Mask.is_empty (it.2.2 &&& overlap)); [exact Ha|].
  destruct Ha as [Ha|Ha]; [|right; rewrite fmap_cons; right; exact Ha].
  pose proof (pack_index_dom (it.1, it.2.1) p) as Hd.
  destruct (pack_index (it.1, it.2.1) p) as [index p']. cbn [snd fst] in *.
  rewrite Hd in Ha. apply elem_of_union in Ha as [Ha|Ha]; [|left; exact Ha].
  apply elem_of_singleton in Ha. right. rewrite fmap_cons, Ha. left.
Qed.

Lemma pack_event_dom (update_mask : FieldMask) (it : Event * EventUsers)
    (acc : N * list Token * Packer) (a : N) :
  a ∈ dom (needed_users (pack_event pack_index update_mask it acc).2) ->
  a ∈ dom (needed_users acc.2) \/
  (Mask.is_empty (user_mask it.2 &&& update_mask) = false /\
   a ∈ (carried_users update_mask it.2).*1).
Proof using pack_index_dom.
  intros Ha. unfold pack_event in Ha. destruct acc as [[events rez] p].
  destruct (Mask.is_empty (user_mask it.2 &&& update_mask)) eqn:He; [left; exact Ha|].
  unfold carried_users. destruct (users it.2) as [user|m].
  - pose proof (pack_index_dom user p) as Hd.
    destruct (pack_index user p) as [index p']. cbn [snd fst] in *.
    rewrite Hd in Ha. apply elem_of_union in Ha as [Ha|Ha]; [|left; exact Ha].
    apply elem_of_singleton in Ha. right. split; [reflexivity|].
    cbn [fmap list_fmap fst]. rewrite Ha. left.
  - pose proof (pack_multi_dom (user_mask it.2 &&& update_mask) (entries m)
                  ((-1)%Z, [], p) a) as Hm.
    destruct (foldl _ _ _) as [[count event_rez] p']. cbn [snd] in *.
    destruct (Hm Ha) as [Hx|Hx]; [left; exact Hx | right; split; [reflexivity|exact Hx]].
Qed.

Lemma pack_events_dom (update_mask : FieldMask) (l : list (Event * EventUsers)) :
  forall (acc : N * list Token * Packer) (a : N),
    a ∈ dom (needed_users
               (foldl (fun acc it => pack_event pack_index update_mask it acc) acc l).2) ->
    a ∈ dom (needed_users acc.2) \/ a ∈ carried_addrs (carried_events update_mask l).
Proof using pack_index_dom.
  induction l as [|it l IH]; intros acc a Ha; cbn [foldl] in Ha; [left; exact Ha|].
  apply IH in Ha. cbn [carried_events].
  destruct Ha as [Ha|Ha].
  - apply pack_event_dom in Ha as [Ha|[He Ha]]; [left; exact Ha|].
    rewrite He. right. unfold carried_addrs. cbn [flat_map snd].
    apply elem_of_app. left. exact Ha.
  - right. destruct (Mask.is_empty (user_mask it.2 &&& update_mask)); [exact Ha|].
    unfold carried_addrs. cbn [flat_map]. apply elem_of_app. right. exact Ha.
Qed.
End PackDom.

Lemma pack_current_user_dom (u : N * PhysicalUser) (p : Packer) :
  dom (needed_users (pack_current_user u p).2) = {[u.1]} ∪ dom (needed_users p).
Proof. unfold pack_current_user. cbn [snd needed_users]. apply dom_insert_L. Qed.

Lemma pack_previous_user_dom (u : N * PhysicalUser) (p : Packer) :
  dom (needed_users (pack_previous_user u p).2) = {[u.1]} ∪ dom (needed_users p).
Proof.
  unfold pack_previous_user. destruct (needed_users p !! u.1) as [finder|] eqn:Hl.
  - cbn [snd]. apply elem_of_dom_2 in Hl. set_solver.
  - cbn [snd needed_users]. apply dom_insert_L.
Qed.

(** The message of [send_view_updates], with the table of the users it
    needs: every user of the table is carried by an entry. *)
Lemma send_view_updates_table (store : N -> PhysicalUser -> Prop) (is_region : bool)
    (handle did : N) (update_mask : FieldMask) (s : MaterializedState) :
  let current := carried update_mask (current_epoch_users s) in
  let previous := carried update_mask (previous_epoch_users s) in
  stored_at store s ->
  NoDup (carried_addrs current) ->
  (Z.of_nat (update_load current + update_load previous) < 2 ^ 31)%Z ->
  exists p,
    (send_view_updates is_region handle did update_mask s).1
      = message is_region handle did (index_in p) (entries (needed_users p))
                current previous /\
    indexed store p /\
    (size (needed_users p)
       <= length (carried_addrs current) + length (carried_addrs previous))%nat /\
    (forall a, a ∈ carried_addrs current ++ carried_addrs previous ->
               a ∈ dom (needed_users p)) /\
    (forall a, a ∈ dom (needed_users p) ->
               a ∈ carried_addrs current ++ carried_addrs previous).
Proof.
  intros current previous [Hsc Hsp] Hnd Hload.
  unfold carried in current, previous.
  destruct (pack_events_fold store pack_current_user fresh_for
              (fun u l p => pack_current_user_spec store u l p)
              update_mask (entries (current_epoch_users s)) [] 0 []
              (mkPacker ∅ (heap s)))
    as (p1 & Hf1 & Hg1 & _).
  { apply stored_entries. exact Hsc. }
  { apply indexed_empty. }
  { rewrite app_nil_r. split; [exact Hnd|]. intros a _. cbn [needed_users].
    rewrite dom_empty_L. set_solver. }
  { cbn [needed_users]. rewrite map_size_empty. fold current. lia. }
  { fold current. unfold update_load in Hload. lia. }
  fold current in Hf1, Hg1.
  destruct Hg1 as (Hs1 & Hix1 & Hd1 & Hz1).
  cbn [needed_users] in Hz1. rewrite map_size_empty in Hz1.
  destruct (pack_events_fold store pack_previous_user (fun _ _ => True)
              (fun u l p Hrec Hix _ Hsz =>
                 conj (pack_previous_user_spec store u p Hrec Hix Hsz) I)
              update_mask (entries (previous_epoch_users s)) [] 0 [] p1)
    as (p2 & Hf2 & Hg2 & _).
  { apply stored_entries. exact Hsp. }
  { exact Hix1. }
  { exact I. }
  { fold previous. unfold update_load in *. lia. }
  { fold previous. unfold update_load in Hload. lia. }
  fold previous in Hf2, Hg2.
  destruct Hg2 as (Hs2 & Hix2 & Hd2 & Hz2).
  exists p2. split; [|split; [exact Hix2|split; [lia|split]]].
  - unfold send_view_updates. rewrite Hf1. cbv beta match. rewrite Hf2. cbv beta match.
    pose proof (foldl_pack_needed (entries (needed_users p2)) [] (pack_heap p2)) as Htab.
    destruct (foldl (fun acc it => pack_needed it acc) ([], pack_heap p2)
                    (entries (needed_users p2))) as [table h].
    cbn [fst snd] in Htab |- *. subst table.
    unfold message. rewrite length_entries, !N.add_0_l, !app_nil_l.
    rewrite (encode_events_ext (index_in p1) (index_in p2) current); [reflexivity|].
    intros a Ha. symmetry. apply index_in_weaken; [exact Hs2 | exact (Hd1 a Ha)].
  - intros a Ha. apply elem_of_app in Ha as [Ha|Ha]; [|exact (Hd2 a Ha)].
    apply Hd1 in Ha. apply elem_of_dom in Ha as [x Hx]. apply elem_of_dom.
    exists x. exact (lookup_weaken _ _ _ _ Hx Hs2).
  - intros a Ha.
    pose proof (pack_events_dom pack_previous_user pack_previous_user_dom update_mask
                  (entries (previous_epoch_users s)) (0, [], p1) a) as H2.
    rewrite Hf2 in H2. cbn [snd] in H2.
    destruct (H2 Ha) as [Hx|Hx]; [|apply elem_of_app; right; exact Hx].
    pose proof (pack_events_dom pack_current_user pack_current_user_dom update_mask
                  (entries (current_epoch_users s)) (0, [], mkPacker ∅ (heap s)) a) as H1.
    rewrite Hf1 in H1. cbn [snd needed_users] in H1.
    destruct (H1 Hx) as [Hy|Hy]; [set_solver|]. apply elem_of_app. left. exact Hy.
Qed.

(** *** [handle_send_update] *)

Lemma add_current_user_heap (user : N * PhysicalUser) (e : Event) (mask : FieldMask)
    (s : MaterializedState) :
  heap (add_current_user user e mask s) = heap s.
Proof. reflexivity. Qed.

Lemma add_previous_user_heap (user : N * PhysicalUser) (e : Event) (mask : FieldMask)
    (s : MaterializedState) :
  heap (add_previous_user user e mask s) = heap s.
Proof. reflexivity. Qed.

Lemma replicate_false_lookup (n i : nat) : default false (replicate n false !! i) = false.
Proof.
  destruct (replicate n false !! i) as [b|] eqn:Hl; [|reflexivity].
  apply lookup_replicate in Hl as [-> _]. reflexivity.
Qed.

Lemma handle_send_update_counted (is_region : bool) (handle did : N)
    (update_mask : FieldMask) (s r r' : MaterializedState) (collected : list Event) :
  well_formed s -> well_formed r -> counted r ->
  (Z.of_nat (update_load (carried update_mask (current_epoch_users s)) +
             update_load (carried update_mask (previous_epoch_users s))) < 2 ^ 31)%Z ->
  handle_send_update (send_view_updates is_region handle did update_mask s).1 r
    = Some (r', collected) ->
  counted r'.
Proof.
  intros (_ & _ & _ & _ & Hus) (Hc & Hp & Hbc & Hbp & Hur) Hcnt Hload Hrun.
  pose proof (carried_unshared update_mask _ Hus) as Hnd.
  assert (Hst : stored_at (fun _ _ => True) s).
  { split; intros e eu _; unfold bucket_stored; destruct (users eu); auto. }
  destruct (send_view_updates_table (fun _ _ => True) is_region handle did update_mask s
              Hst Hnd Hload)
    as (p & Hsent & Hix & Hsize & Hdom & Hsub).
  set (current := carried update_mask (current_epoch_users s)) in *.
  set (previous := carried update_mask (previous_epoch_users s)) in *.
  set (T := entries (needed_users p)) in *.
  set (idx := index_in p) in *.
  set (n0 := next_addr (heap r)) in *.
  assert (Hrange : forall it, it ∈ T -> (0 <= it.2.2 < Z.of_nat (length T))%Z).
  { intros [a [record i]] Hit. apply elem_of_entries in Hit.
    unfold T. rewrite length_entries. exact (proj1 (proj2 (Hix _ _ _ Hit))). }
  assert (Hmany : N.of_nat (length T) < 2 ^ 32).
  { unfold T. rewrite length_entries. unfold update_load in Hload. lia. }
  pose proof (indexed_NoDup _ p Hix) as Hndi. fold T in Hndi.
  assert (Hndk : NoDup T.*1) by apply NoDup_fst_entries.
  assert (Hkey : forall b, b ∈ dom (needed_users p) ->
            exists record, needed_users p !! b = Some (record, idx b) /\
                           (b, (record, idx b)) ∈ T).
  { intros b Hb. apply elem_of_dom in Hb as [[record i] Hl].
    exists record. unfold idx, index_in. rewrite Hl. cbn [snd].
    split; [reflexivity|]. apply elem_of_entries. exact Hl. }
  assert (Hentry : forall a, a ∈ carried_addrs current ++ carried_addrs previous ->
            exists record, (a, (record, idx a)) ∈ T).
  { intros a Ha. destruct (Hkey a (Hdom a Ha)) as (record & _ & Hin). eauto. }
  destruct (unpack_users_spec T
              ([TUnsigned (N.of_nat (length current))] ++ encode_events idx current
                 ++ [TUnsigned (N.of_nat (length previous))] ++ encode_events idx previous)
              (replicate (length T) None) (heap r))
    as (users & h' & Hun & Hlen & Hat & _).
  { intros it Hit. rewrite length_replicate. exact (Hrange it Hit). }
  { exact Hndi. }
  set (copy := copy_of idx users).
  assert (Hcopy : forall a record, (a, (record, idx a)) ∈ T ->
            (0 <= idx a)%Z /\
            exists k, T !! k = Some (a, (record, idx a)) /\
                      users !! Z.to_nat (idx a) = Some (Some (copy a)) /\
                      copy a = (n0 + N.of_nat k, record)).
  { intros a record Hin. split; [exact (proj1 (Hrange _ Hin))|].
    apply list_elem_of_lookup in Hin as [k Hk]. exists k. split; [exact Hk|].
    pose proof (Hat k _ Hk) as Hu. cbn [fst snd] in Hu.
    unfold copy, copy_of. rewrite Hu. split; reflexivity. }
  assert (Hres : resolves idx copy users
                          (carried_addrs current ++ carried_addrs previous)).
  { intros a Ha. destruct (Hentry a Ha) as [record Hin].
    destruct (Hcopy a record Hin) as (Hpos & k & _ & Hu & _). split; assumption. }
  (* the users of the table *)
  set (K := T.*1).
  assert (HK : forall b, b ∈ K <-> b ∈ dom (needed_users p))
    by (intros b; apply entries_keys_dom).
  assert (copy_range : forall b, b ∈ K -> n0 <= (copy b).1 < n0 + N.of_nat (length T)).
  { intros b Hb. apply HK in Hb. destruct (Hkey b Hb) as (record & _ & Hin).
    destruct (Hcopy b record Hin) as (_ & k & Hk & _ & Hcb).
    rewrite Hcb. cbn [fst]. apply lookup_lt_Some in Hk. lia. }
  assert (copy_inj : forall b b', b ∈ K -> b' ∈ K -> (copy b).1 = (copy b').1 -> b = b').
  { intros b b' Hb Hb' Heq. apply HK in Hb, Hb'.
    destruct (Hkey b Hb) as (record & _ & Hin).
    destruct (Hkey b' Hb') as (record' & _ & Hin').
    destruct (Hcopy b record Hin) as (_ & k & Hk & _ & Hcb).
    destruct (Hcopy b' record' Hin') as (_ & k' & Hk' & _ & Hcb').
    rewrite Hcb, Hcb' in Heq. cbn [fst] in Heq.
    assert (k' = k) by lia. subst k'. congruence. }
  assert (idx_range : forall b, b ∈ K -> (0 <= idx b < Z.of_nat (length T))%Z).
  { intros b Hb. apply HK in Hb. destruct (Hkey b Hb) as (record & _ & Hin).
    exact (Hrange _ Hin). }
  assert (idx_inj : forall b b', b ∈ K -> b' ∈ K -> idx b = idx b' -> b = b').
  { intros b b' Hb Hb' Heq. apply HK in Hb, Hb'.
    destruct (Hkey b Hb) as (record & Hl & _).
    destruct (Hkey b' Hb') as (record' & Hl' & _).
    rewrite <- Heq in Hl'.
    symmetry. exact (proj2 (proj2 (Hix _ _ _ Hl)) _ _ Hl'). }
  assert (copy_onto : forall a, n0 <= a < n0 + N.of_nat (length T) ->
            exists b, b ∈ K /\ (copy b).1 = a).
  { intros a Ha.
    destruct (lookup_lt_is_Some_2 T (N.to_nat (a - n0))) as [[b [record i]] Hk]; [lia|].
    assert (Hin : (b, (record, i)) ∈ T) by (apply list_elem_of_lookup; eauto).
    assert (Hb : b ∈ dom (needed_users p)).
    { apply elem_of_entries in Hin. apply elem_of_dom. eauto. }
    destruct (Hkey b Hb) as (record' & Hl & Hin').
    pose proof Hin as Hin2. apply elem_of_entries in Hin2.
    rewrite Hl in Hin2. injection Hin2 as -> Hi.
    exists b. split; [apply HK; exact Hb|].
    pose proof (Hat _ _ Hk) as Hu. cbn [fst snd] in Hu.
    unfold copy, copy_of. rewrite Hi, Hu. cbn [fst]. fold n0. lia. }
  (* the run *)
  set (u0 := mkUpdate users (replicate (length T) false) [] (set_heap (fun _ => h') r)).
  destruct (install_events_spec add_current_user add_current_user_tables idx copy current
              ([TUnsigned (N.of_nat (length previous))] ++ encode_events idx previous)
              u0 r)
    as (u1 & Hu1 & Hus1 & Hs1).
  { unfold update_load in *. lia. }
  { intros a Ha. apply Hres. apply elem_of_app. left. exact Ha. }
  { apply same_tables_set_heap. }
  destruct (install_events_log add_current_user add_current_user_heap
              add_current_user_tables idx copy current
              ([TUnsigned (N.of_nat (length previous))] ++ encode_events idx previous)
              u0 u1) as [_ Hhf1].
  { unfold update_load in *. lia. }
  { intros a Ha. apply Hres. apply elem_of_app. left. exact Ha. }
  { exact Hu1. }
  destruct (install_events_spec add_previous_user add_previous_user_tables idx copy
              previous [] u1
              (foldl (fun r ev => install add_current_user copy ev r) r current))
    as (u2 & Hu2 & Hus2 & Hs2).
  { unfold update_load in *. lia. }
  { rewrite Hus1. intros a Ha. apply Hres. apply elem_of_app. right. exact Ha. }
  { exact Hs1. }
  destruct (install_events_log add_previous_user add_previous_user_heap
              add_previous_user_tables idx copy previous [] u1 u2) as [_ Hhf2].
  { unfold update_load in *. lia. }
  { rewrite Hus1. intros a Ha. apply Hres. apply elem_of_app. right. exact Ha. }
  { exact Hu2. }
  assert (Hrun' : handle_send_update
                    (message is_region handle did idx T current previous) r
                  = Some (update_state u2, collect_events u2)).
  { unfold handle_send_update, message, process_update.
    cbn [app read_bool read_handle read_did read_size mbind option_bind].
    apply N.leb_gt in Hmany. simpl. rewrite Hmany.
    rewrite Nat2N.id. simpl in Hun. rewrite Hun. simpl.
    rewrite Nat2N.id. simpl in Hu1. fold u0. rewrite Hu1. simpl.
    rewrite Nat2N.id. rewrite app_nil_r in Hu2. rewrite Hu2. reflexivity. }
  rewrite Hsent, Hrun' in Hrun. injection Hrun as <- _.
  (* the tables *)
  destruct Hs2 as (Hcur & Hprev & _).
  change (foldl (fun r ev => install add_previous_user copy ev r)
                (foldl (fun r ev => install add_current_user copy ev r) r current)
                previous)
    with (apply_locally copy current previous r) in Hcur, Hprev.
  destruct (apply_locally_tables copy current previous r) as [Hc2 Hp2].
  rewrite Hc2 in Hcur. rewrite Hp2 in Hprev. clear Hc2 Hp2.
  (* the heap *)
  set (c0 := fun a : N => (holders (current_epoch_users r) a +
                           holders (previous_epoch_users r) a)%nat).
  assert (Hh' : refs_as h'
                  (fun a => (c0 a + ind (n0 <= a < n0 + N.of_nat (length T))%N)%nat)).
  { apply (unpack_users_refs (length T) _ _ (heap r) users h' _ c0 Hun Hcnt).
    intros a Ha. subst c0. cbv beta.
    rewrite (holders_bounded _ _ _ Hbc), (holders_bounded _ _ _ Hbp) by exact Ha.
    reflexivity. }
  assert (Hlog : (heap (update_state u2), need_reference u2)
                 = log_references idx copy
                     (carried_addrs current ++ carried_addrs previous)
                     (h', replicate (length T) false)).
  { unfold log_references in *. rewrite foldl_app. rewrite Hhf2, Hhf1. reflexivity. }
  pose proof (log_references_fold idx copy K n0 (length T) c0 copy_range copy_inj
                idx_range idx_inj (carried_addrs current ++ carried_addrs previous)
                (h', replicate (length T) false) []) as Hfold.
  rewrite <- Hlog in Hfold. cbn [fst snd app] in Hfold.
  assert (Hrefs : refs_as (heap (update_state u2))
                    (fun a => (c0 a + copies_at copy
                                        (carried_addrs current ++ carried_addrs previous)
                                        a)%nat)).
  { eapply refs_as_ext; [|apply Hfold].
    - intros a. cbv beta.
      assert (Hz : ind ((n0 <= a < n0 + N.of_nat (length T))%N /\
                        a ∉ (fun d => (copy d).1)
                              <$> (carried_addrs current ++ carried_addrs previous))
                   = 0%nat).
      { unfold ind. rewrite decide_False; [reflexivity|].
        intros [Hr Hn]. destruct (copy_onto a Hr) as (b & Hb & Hcb).
        apply Hn. apply list_elem_of_fmap. exists b. split; [symmetry; exact Hcb|].
        apply Hsub, HK. exact Hb. }
      rewrite Hz. lia.
    - intros b Hb. apply HK, Hdom. exact Hb.
    - intros d Hd. inversion Hd.
    - apply length_replicate.
    - intros d _. rewrite replicate_false_lookup. split; [discriminate|].
      intros Hd. inversion Hd.
    - eapply refs_as_ext; [|exact Hh']. intros a. cbv beta.
      unfold copies_at. cbn [sum_list_with].
      assert (Hp0 : ind ((n0 <= a < n0 + N.of_nat (length T))%N /\
                         a ∉ (fun d => (copy d).1) <$> [])
                    = ind (n0 <= a < n0 + N.of_nat (length T))%N).
      { apply ind_iff. split; [tauto|]. intros Hr. split; [exact Hr|].
        cbn [fmap list_fmap]. apply not_elem_of_nil. }
      rewrite Hp0. lia. }
  (* the count *)
  assert (Htag : forall ups : list (Event * list (N * FieldMask)),
            (forall x, x ∈ carried_pairs ups -> x.2.1 ∈ K) ->
            NoDup ((fun x : Event * (N * FieldMask) => (x.1, x.2.1)) <$> carried_pairs ups) ->
            NoDup (copy_tag copy <$> carried_pairs ups)).
  { intros ups Hin. apply NoDup_fmap_via.
    intros x y Hx Hy Heq. unfold copy_tag in Heq. injection Heq as He Ha.
    rewrite He. f_equal. apply copy_inj; [apply Hin; exact Hx | apply Hin; exact Hy|].
    exact Ha. }
  assert (HcK : forall x, x ∈ carried_pairs current -> x.2.1 ∈ K).
  { intros x Hx. apply HK, Hdom, elem_of_app. left. exact (carried_pairs_addr _ _ Hx). }
  assert (HpK : forall x, x ∈ carried_pairs previous -> x.2.1 ∈ K).
  { intros x Hx. apply HK, Hdom, elem_of_app. right. exact (carried_pairs_addr _ _ Hx). }
  intros a. rewrite Hcur, Hprev.
  rewrite (holders_insert_all copy (carried_pairs current) (current_epoch_users r) a).
  - rewrite (holders_insert_all copy (carried_pairs previous) (previous_epoch_users r) a).
    + rewrite !carried_pairs_addrs. rewrite (Hrefs a). cbv beta.
      rewrite copies_at_app. subst c0. cbv beta. f_equal. lia.
    + intros x Hx Hin. pose proof (copy_range _ (HpK x Hx)) as Hr.
      pose proof (Hbp x.1 _ Hin). fold n0 in H. lia.
    + apply Htag; [exact HpK|]. apply carried_events_pairs, NoDup_fst_entries.
  - intros x Hx Hin. pose proof (copy_range _ (HcK x Hx)) as Hr.
    pose proof (Hbc x.1 _ Hin). fold n0 in H. lia.
  - apply Htag; [exact HcK|]. apply carried_events_pairs, NoDup_fst_entries.
Qed.

(** *** The states a view goes through *)

Lemma empty_state_counted : counted empty_state.
Proof.
  intros a. unfold empty_state. cbn [heap references current_epoch_users
                                      previous_epoch_users].
  rewrite !holders_empty, lookup_empty. reflexivity.
Qed.

Lemma filter_local_users_counted_state (e : Event) (s : MaterializedState) :
  counted s -> counted (filter_local_users e s).
Proof.
  intros Hc. apply counted_with_zero. apply filter_local_users_counted.
  apply counted_with_zero. exact Hc.
Qed.

Lemma reachable_counted `{Analysis} (s : MaterializedState) :
  reachable s -> counted s.
Proof.
  induction 1 as [ | term_event usage0 mask s Hs IHs
                   | ht ht' node usage0 term_event base cc vi mask pre s Hs IHs
                   | node usage0 copy_term base cc vi mask s Hs IHs
                   | ht ht' node redop reading mask cc vi pre s Hs IHs
                   | term_event s Hs IHs
                   | gc_events s Hs IHs
                   | is_region handle did update_mask s Hs IHs
                   | is_region handle did update_mask s r r' collected
                     Hs IHs Hr IHr Hload Hrun].
  - exact empty_state_counted.
  - apply add_initial_user_counted; [apply reachable_well_formed; exact Hs | exact IHs].
  - apply add_local_user_counted; [apply reachable_well_formed; exact Hs | exact IHs].
  - apply add_local_copy_user_counted; [apply reachable_well_formed; exact Hs | exact IHs].
  - apply find_local_copy_preconditions_counted. exact IHs.
  - apply filter_local_users_counted_state. exact IHs.
  - apply update_gc_events_counted. exact IHs.
  - rewrite send_view_updates_heap;
      [exact IHs | apply reachable_well_formed; exact Hs | exact IHs].
  - apply (handle_send_update_counted is_region handle did update_mask s r r' collected).
    + apply reachable_well_formed. exact Hs.
    + apply reachable_well_formed. exact Hr.
    + exact IHr.
    + exact Hload.
    + exact Hrun.
Qed.

(** X18.  The references of the users.  In every state a materialized
    view reaches by its operations, the users alive in the heap of the
    view are the users of its two epoch tables, and each has one
    reference for every bucket that holds it: no user of a table has been
    freed, and no user is left in the heap that no table holds. *)
Theorem references_match_tables `{Analysis} (s : MaterializedState) (a : N) :
  reachable s ->
  references (heap s) !! a
  = to_count (holders (current_epoch_users s) a + holders (previous_epoch_users s) a).
Proof. intros Hs. exact (reachable_counted s Hs a). Qed.

Lemma references_match_tables_witness :
  @reachable sample_analysis sample_view /\
  references (heap sample_view) !! 0
  = to_count (holders (current_epoch_users sample_view) 0 +
              holders (previous_epoch_users sample_view) 0).
Proof.
  split; [exact sample_view_reachable|].
  exact (@references_match_tables sample_analysis sample_view 0 sample_view_reachable).
Defined.

(** X19.  Sending an update leaves the view as it was.  In a state the
    view reaches by its operations, [send_view_updates] gives back every
    reference it takes on the users it packs: the tables, the events and
    the heap of the view after the call are those before it. *)
Theorem send_view_updates_keeps_view `{Analysis} (is_region : bool) (handle did : N)
    (update_mask : FieldMask) (s : MaterializedState) :
  reachable s ->
  (send_view_updates is_region handle did update_mask s).2 = s.
Proof.
  intros Hs. apply send_view_updates_heap.
  - apply reachable_well_formed. exact Hs.
  - apply reachable_counted. exact Hs.
Qed.

Lemma send_view_updates_keeps_view_witness :
  @reachable sample_analysis sample_view /\
  (send_view_updates true 0 0 7 sample_view).2 = sample_view.
Proof.
  split; [exact sample_view_reachable|].
  exact (@send_view_updates_keeps_view sample_analysis true 0 0 7 sample_view
           sample_view_reachable).
Defined.

(** X20.  Collection frees every user.  In a state the view reaches by
    its operations, once [filter_local_users] has run for every event
    for which a collection is pending, both epoch tables are empty, no
    collection is pending and no user is left in the heap. *)
Theorem collection_frees_users `{Analysis} (s : MaterializedState) :
  reachable s ->
  let s' := foldl (fun s e => filter_local_users e s) s
                  (sorted_elements (outstanding_gc_events s)) in
  current_epoch_users s' = ∅ /\ previous_epoch_users s' = ∅ /\
  outstanding_gc_events s' = ∅ /\ references (heap s') = ∅.
Proof.
  intros Hs s'.
  pose proof (reachable_gc_pending s Hs) as Hgc.
  pose proof (collect_collected (sorted_elements (outstanding_gc_events s)) s Hgc)
    as (Hcur & Hprev & Hg).
  fold s' in Hcur, Hprev, Hg. rewrite list_to_set_sorted_elements in Hcur, Hprev, Hg.
  assert (Hc0 : current_epoch_users s' = ∅).
  { apply map_eq. intros e. rewrite Hcur, lookup_empty.
    destruct (decide (e ∈ outstanding_gc_events s)) as [_|Hout]; [reflexivity|].
    apply not_elem_of_dom. unfold gc_covers in Hgc. set_solver. }
  assert (Hp0 : previous_epoch_users s' = ∅).
  { apply map_eq. intros e. rewrite Hprev, lookup_empty.
    destruct (decide (e ∈ outstanding_gc_events s)) as [_|Hout]; [reflexivity|].
    apply not_elem_of_dom. unfold gc_covers in Hgc. set_solver. }
  split; [exact Hc0|]. split; [exact Hp0|]. split; [rewrite Hg; set_solver|].
  assert (Hs' : reachable s') by (apply collect_reachable; exact Hs).
  apply map_eq. intros a.
  rewrite (reachable_counted s' Hs' a), Hc0, Hp0, !holders_empty, lookup_empty.
  reflexivity.
Qed.

Lemma collection_frees_users_witness :
  @reachable sample_analysis sample_view /\
  references
    (heap (foldl (fun s e => filter_local_users e s) sample_view
                 (sorted_elements (outstanding_gc_events sample_view)))) = ∅.
Proof.
  split; [exact sample_view_reachable|].
  exact (proj2 (proj2 (proj2 (@collection_frees_users sample_analysis sample_view
                                sample_view_reachable)))).
Defined.

(** ** The users of a reduction view *)

Lemma holders_add_fresh (table : gmap Event EventUsers) (user : N * PhysicalUser)
    (e : Event) (mask : FieldMask) (a : N) :
  holders table user.1 = 0%nat ->
  holders (<[e := insert_user user mask (table !! e)]> table) a
  = (holders table a + ind (a = user.1))%nat.
Proof.
  intros Hz.
  assert (Hout : user.1 ∉ addrs_of (table !! e)).
  { intros Hin. destruct (table !! e) as [eu|] eqn:Hl; [|set_solver].
    pose proof (holders_pos table e eu user.1 Hl Hin). lia. }
  pose proof (holders_insert table e (insert_user user mask (table !! e)) a) as Hh.
  rewrite insert_user_addrs, (ind_fresh_union _ _ _ Hout) in Hh. lia.
Qed.

Lemma add_physical_user_held (user : N * PhysicalUser) (reading : bool) (e : Event)
    (mask : FieldMask) (s : ReductionState) :
  holders (reduction_users s) user.1 = 0%nat ->
  holders (reading_users s) user.1 = 0%nat ->
  is_Some (references (red_heap s) !! user.1) ->
  held_once s -> held_once (add_physical_user user reading e mask s).
Proof.
  intros Hz1 Hz2 Halive Hh a. destruct (Hh a) as [Hle Hal].
  unfold add_physical_user.
  destruct reading; cbn [reduction_users reading_users red_heap].
  - rewrite (holders_add_fresh _ _ _ _ _ Hz2). unfold ind.
    destruct (decide (a = user.1)) as [->|Hne].
    + split; [lia | intros _; exact Halive].
    + split; [lia|]. intros Hp. apply Hal. lia.
  - rewrite (holders_add_fresh _ _ _ _ _ Hz1). unfold ind.
    destruct (decide (a = user.1)) as [->|Hne].
    + split; [lia | intros _; exact Halive].
    + split; [lia|]. intros Hp. apply Hal. lia.
Qed.

(** A user that is made and put in a table at once. *)
Lemma add_new_user_held (record : PhysicalUser) (reading : bool) (e : Event)
    (mask : FieldMask) (s : ReductionState) :
  red_well_formed s -> held_once s ->
  held_once
    (add_physical_user (next_addr (red_heap s), record) reading e mask
       (mkRedState (reduction_users s) (reading_users s)
          (red_outstanding_gc_events s) (red_initial_user_events s)
          (mkHeap (<[next_addr (red_heap s) := 0%nat]> (references (red_heap s)))
                  (next_addr (red_heap s) + 1)))).
Proof.
  intros (_ & _ & Hbr & Hbd) Hh. apply add_physical_user_held.
  - cbn [fst reduction_users]. apply (holders_bounded _ _ _ Hbr). lia.
  - cbn [fst reading_users]. apply (holders_bounded _ _ _ Hbd). lia.
  - cbn [fst red_heap references]. rewrite lookup_insert_eq. eauto.
  - intros a. destruct (Hh a) as [Hle Hal].
    cbn [reduction_users reading_users red_heap references].
    split; [exact Hle|]. intros Hp. specialize (Hal Hp).
    destruct (decide (a = next_addr (red_heap s))) as [->|Hne].
    + rewrite lookup_insert_eq. eauto.
    + rewrite lookup_insert_ne by congruence. exact Hal.
Qed.

Lemma red_add_user_held `{Analysis} (man : ReductionManager) (usage0 : RegionUsage)
    (term_event : Event) (mask : FieldMask) (s : ReductionState) :
  red_well_formed s -> held_once s ->
  held_once (red_add_user man usage0 term_event mask s).2.
Proof.
  intros Hok Hh. unfold red_add_user, legion_new. cbv zeta. cbn [snd].
  pose proof (add_new_user_held (mkUser usage0 None None) (IS_READ_ONLY usage0)
                term_event mask s Hok Hh) as Hnew.
  intros a. exact (Hnew a).
Qed.

Lemma red_add_copy_user_held (redop : ReductionOpID) (copy_term : Event)
    (mask : FieldMask) (reading : bool) (s : ReductionState) :
  red_well_formed s -> held_once s ->
  held_once (red_add_copy_user redop copy_term mask reading s).2.
Proof.
  intros Hok Hh. unfold red_add_copy_user, legion_new.
  destruct (event_exists copy_term); [|exact Hh].
  cbv zeta. cbn [snd].
  pose proof (add_new_user_held
                (mkUser (if reading then mkUsage READ_ONLY EXCLUSIVE 0
                         else mkUsage REDUCE EXCLUSIVE redop) None None)
                reading copy_term mask s Hok Hh) as Hnew.
  intros a. exact (Hnew a).
Qed.

Lemma red_add_initial_user_held `{Analysis} (term_event : Event) (usage0 : RegionUsage)
    (mask : FieldMask) (s : ReductionState) :
  red_well_formed s -> held_once s ->
  held_once (red_add_initial_user term_event usage0 mask s).
Proof.
  intros Hok Hh. unfold red_add_initial_user, legion_new. cbv zeta.
  pose proof (add_new_user_held (mkUser usage0 None None) (IS_READ_ONLY usage0)
                term_event mask s Hok Hh) as Hnew.
  intros a. exact (Hnew a).
Qed.

Lemma references_delete_all (l : list N) (h : UserHeap) (a : N) :
  references (delete_all l h) !! a = if decide (a ∈ l) then None else references h !! a.
Proof.
  revert h. induction l as [|u l IH]; intros h.
  - cbn. rewrite decide_False by apply not_elem_of_nil. reflexivity.
  - change (delete_all (u :: l) h) with (delete_all l (legion_delete u h)).
    rewrite IH. unfold legion_delete. cbn [references].
    destruct (decide (a ∈ l)) as [Hin|Hout].
    + rewrite decide_True by (right; exact Hin). reflexivity.
    + destruct (decide (a = u)) as [->|Hne].
      * rewrite decide_True by left. apply lookup_delete_eq.
      * rewrite decide_False
          by (intros Hc; apply elem_of_cons in Hc as [?|?]; contradiction).
        apply lookup_delete_ne. congruence.
Qed.

Lemma red_filter_local_users_held (e : Event) (s : ReductionState) :
  held_once s -> held_once (red_filter_local_users e s).
Proof.
  intros Hh. destruct (decide (e ∈ red_outstanding_gc_events s)) as [Hin|Hout].
  2:{ rewrite red_filter_local_users_unrecorded by exact Hout. exact Hh. }
  rewrite red_filter_local_users_recorded by exact Hin.
  intros a. destruct (Hh a) as [Hle Hal].
  cbn [reduction_users reading_users red_heap].
  pose proof (holders_delete (reduction_users s) e a) as H1.
  pose proof (holders_delete (reading_users s) e a) as H2.
  split; [lia|]. intros Hp.
  rewrite references_delete_all.
  rewrite decide_False; [apply Hal; lia|].
  intros Hx. apply elem_of_app in Hx as [Hx|Hx]; apply users_under_addrs in Hx.
  - unfold ind in H1. rewrite decide_True in H1 by exact Hx. lia.
  - unfold ind in H2. rewrite decide_True in H2 by exact Hx. lia.
Qed.

(** *** A remote update of a reduction view *)

Lemma red_unpack_users_alive (num_users : nat) :
  forall derez users h users' h' rest,
    red_unpack_users num_users derez users h = Some (users', h', rest) ->
    (forall a, is_Some (references h !! a) -> is_Some (references h' !! a)) /\
    (forall a, next_addr h <= a < next_addr h' -> is_Some (references h' !! a)).
Proof.
  induction num_users as [|n IH]; intros derez users h users' h' rest Hrun.
  - injection Hrun as _ <- _. split; [auto|]. intros a Ha. lia.
  - cbn [red_unpack_users] in Hrun.
    destruct (read_user derez) as [[record derez1]|]; [|discriminate].
    cbn [mbind option_bind] in Hrun.
    unfold unpack_user, legion_new in Hrun. cbn [fst snd] in Hrun.
    destruct (IH _ _ _ _ _ _ Hrun) as [Hkeep Hnew].
    rewrite next_addr_add_reference in Hnew. cbn [next_addr] in Hnew.
    assert (Hstep : forall a, is_Some (references h !! a) \/ a = next_addr h ->
              is_Some (references
                         (add_reference (next_addr h)
                            (mkHeap (<[next_addr h := 0%nat]> (references h))
                                    (next_addr h + 1))) !! a)).
    { intros a Ha. unfold add_reference. cbn [references next_addr].
      rewrite lookup_insert_eq. cbn [references].
      destruct (decide (a = next_addr h)) as [->|Hne].
      - rewrite lookup_insert_eq. eauto.
      - rewrite !lookup_insert_ne by congruence. destruct Ha as [Ha|Ha]; [exact Ha|].
        contradiction. }
    split.
    + intros a Ha. apply Hkeep, Hstep. left. exact Ha.
    + intros a Ha. destruct (decide (a = next_addr h)) as [->|Hne].
      * apply Hkeep, Hstep. right. reflexivity.
      * apply Hnew. lia.
Qed.

Section RedInstallHeld.
Context (reading : bool) (users : list (N * PhysicalUser)) (base : N) (h : UserHeap).
Hypothesis users_at : forall i user, users !! i = Some user -> user.1 = base + N.of_nat i.
Hypothesis users_few : N.of_nat (length users) < 2 ^ 32.
Hypothesis users_alive : forall i user,
  users !! i = Some user -> is_Some (references h !! user.1).

Lemma red_install_entries_held (count : nat) (e : Event) :
  forall derez u u' rest,
    red_installed users base u ->
    red_heap (red_update_state u) = h ->
    held_once (red_update_state u) ->
    red_install_entries reading users count e derez u = Some (u', rest) ->
    held_once (red_update_state u').
Proof using users_at users_few users_alive.
  induction count as [|n IH]; intros derez u u' rest Hinv Hheap Hh Hrun.
  - injection Hrun as <- _. exact Hh.
  - cbn [red_install_entries] in Hrun.
    destruct (read_mask derez) as [[mask derez1]|]; [|discriminate].
    cbn [mbind option_bind] in Hrun.
    destruct (users !! N.to_nat (red_index u)) as [user|] eqn:Hu; [|discriminate].
    cbn [mbind option_bind] in Hrun.
    destruct Hinv as [Hok Hle].
    pose proof (lookup_lt_Some _ _ _ Hu) as Hlt.
    pose proof (users_at _ _ Hu) as Haddr. rewrite N2Nat.id in Haddr.
    destruct (add_physical_user_ok _ user reading e mask (red_update_state u) Hok Haddr)
      as [Hok1 Hh1].
    apply IH in Hrun; [exact Hrun| | |].
    + unfold red_installed. cbn [red_index red_update_state].
      rewrite to_unsigned_small by lia.
      split; [rewrite N.add_assoc; exact Hok1 | lia].
    + cbn [red_update_state]. congruence.
    + cbn [red_update_state]. destruct Hok as (_ & _ & Hbr & Hbd).
      apply add_physical_user_held; [| | |exact Hh].
      * apply (holders_bounded _ _ _ Hbr). lia.
      * apply (holders_bounded _ _ _ Hbd). lia.
      * rewrite Hheap. exact (users_alive _ _ Hu).
Qed.

Lemma red_note_event_held (e : Event) (u : RedUpdate) :
  held_once (red_update_state u) -> held_once (red_update_state (red_note_event e u)).
Proof.
  intros Hh. unfold red_note_event. cbv zeta. destruct (decide _); [exact Hh|].
  intros a. exact (Hh a).
Qed.

Lemma red_install_event_held (derez : list Token) (u u' : RedUpdate) (rest : list Token) :
  red_installed users base u ->
  red_heap (red_update_state u) = h ->
  held_once (red_update_state u) ->
  red_install_event reading users derez u = Some (u', rest) ->
  held_once (red_update_state u').
Proof using users_at users_few users_alive.
  intros Hinv Hheap Hh. unfold red_install_event.
  destruct (read_event derez) as [[e derez1]|]; [|discriminate].
  cbn [mbind option_bind].
  destruct (read_size derez1) as [[num_users derez2]|]; [|discriminate].
  cbn [mbind option_bind].
  destruct (2 ^ 32 <=? num_users); [discriminate|].
  destruct (red_install_entries reading users _ e derez2 u) as [[u1 derez3]|] eqn:Hu1;
    [|discriminate].
  cbn [mbind option_bind]. intros [= <- _].
  apply red_note_event_held.
  exact (red_install_entries_held _ _ _ _ _ _ Hinv Hheap Hh Hu1).
Qed.

Lemma red_install_events_held (num_events : nat) :
  forall derez u u' rest,
    red_installed users base u ->
    red_heap (red_update_state u) = h ->
    held_once (red_update_state u) ->
    red_install_events reading users num_events derez u = Some (u', rest) ->
    held_once (red_update_state u').
Proof using users_at users_few users_alive.
  induction num_events as [|n IH]; intros derez u u' rest Hinv Hheap Hh Hrun.
  - injection Hrun as <- _. exact Hh.
  - cbn [red_install_events] in Hrun.
    destruct (red_install_event reading users derez u) as [[u1 derez1]|] eqn:Hu1;
      [|discriminate].
    cbn [mbind option_bind] in Hrun.
    destruct (red_install_event_ok reading users base users_at users_few _ _ _ _
                Hinv Hu1) as [Hinv1 Hh1].
    apply (IH _ _ _ _ Hinv1) in Hrun; [exact Hrun | congruence|].
    exact (red_install_event_held _ _ _ _ Hinv Hheap Hh Hu1).
Qed.
End RedInstallHeld.

Lemma red_process_update_held (derez : list Token) (s s' : ReductionState)
    (collected : list Event) :
  red_well_formed s -> held_once s ->
  red_process_update derez s = Some (s', collected) ->
  held_once s'.
Proof.
  intros Hok Hh. unfold red_process_update.
  destruct (read_size derez) as [[num_red derez1]|]; [|discriminate].
  cbn [mbind option_bind].
  destruct (2 ^ 32 <=? num_red) eqn:Hfew1; [discriminate|]. apply N.leb_gt in Hfew1.
  destruct (red_unpack_users _ derez1 [] (red_heap s)) as [[[red_users h1] derez2]|]
    eqn:Hun1; [|discriminate].
  cbn [mbind option_bind].
  destruct (read_size derez2) as [[num_read derez3]|]; [|discriminate].
  cbn [mbind option_bind].
  destruct (2 ^ 32 <=? num_read) eqn:Hfew2; [discriminate|]. apply N.leb_gt in Hfew2.
  destruct (red_unpack_users _ derez3 [] h1) as [[[read_users h2] derez4]|]
    eqn:Hun2; [|discriminate].
  cbn [mbind option_bind].
  destruct (read_unsigned derez4) as [[num_red_events derez5]|]; [|discriminate].
  cbn [mbind option_bind].
  destruct (red_install_events false red_users _ derez5 _) as [[u1 derez6]|] eqn:Hu1;
    [|discriminate].
  cbn [mbind option_bind].
  destruct (read_unsigned derez6) as [[num_read_events derez7]|]; [|discriminate].
  cbn [mbind option_bind].
  destruct (red_install_events true read_users _ derez7 _) as [[u2 derez8]|] eqn:Hu2;
    [|discriminate].
  cbn [mbind option_bind]. intros [= <- _].
  destruct (red_unpack_users_spec _ _ _ _ _ _ _ Hun1) as (Hn1 & Hlen1 & Hat1).
  destruct (red_unpack_users_spec _ _ _ _ _ _ _ Hun2) as (Hn2 & Hlen2 & Hat2).
  destruct (red_unpack_users_alive _ _ _ _ _ _ _ Hun1) as [Hkeep1 Hnew1].
  destruct (red_unpack_users_alive _ _ _ _ _ _ _ Hun2) as [Hkeep2 Hnew2].
  cbn [length] in Hlen1, Hlen2.
  specialize (Hat1 (next_addr (red_heap s))
                (fun i user Hi => ltac:(rewrite lookup_nil in Hi; discriminate))
                ltac:(cbn [length]; lia)).
  specialize (Hat2 (next_addr h1)
                (fun i user Hi => ltac:(rewrite lookup_nil in Hi; discriminate))
                ltac:(cbn [length]; lia)).
  assert (Hfew1' : N.of_nat (length red_users) < 2 ^ 32) by lia.
  assert (Hfew2' : N.of_nat (length read_users) < 2 ^ 32) by lia.
  assert (Halive1 : forall i user, red_users !! i = Some user ->
            is_Some (references h2 !! user.1)).
  { intros i user Hi. apply Hkeep2, Hnew1. rewrite (Hat1 _ _ Hi).
    apply lookup_lt_Some in Hi. lia. }
  assert (Halive2 : forall i user, read_users !! i = Some user ->
            is_Some (references h2 !! user.1)).
  { intros i user Hi. apply Hnew2. rewrite (Hat2 _ _ Hi).
    apply lookup_lt_Some in Hi. lia. }
  match type of Hu1 with
  | red_install_events _ _ _ _ ?u = _ =>
      assert (Hinv0 : red_installed red_users (next_addr (red_heap s)) u)
        by (split; [cbn [red_index red_update_state]; rewrite N.add_0_r; exact Hok
                   | cbn [red_index]; lia]);
      assert (Hheld0 : held_once (red_update_state u))
  end.
  { intros a. destruct (Hh a) as [Hle Hal].
    cbn [red_update_state reduction_users reading_users red_heap].
    split; [exact Hle|]. intros Hp. apply Hkeep2, Hkeep1, Hal. exact Hp. }
  destruct (red_install_events_ok false red_users (next_addr (red_heap s)) Hat1
              Hfew1' _ _ _ _ _ Hinv0 Hu1) as [Hinv1 Hh1].
  pose proof (red_install_events_held false red_users (next_addr (red_heap s)) h2
                Hat1 Hfew1' Halive1 _ _ _ _ _ Hinv0 eq_refl Hheld0 Hu1) as Hheld1.
  apply red_installed_done in Hinv1.
  replace (next_addr (red_heap s) + N.of_nat (length red_users)) with (next_addr h1)
    in Hinv1 by lia.
  match type of Hu2 with
  | red_install_events _ _ _ _ ?u = _ =>
      assert (Hinv1' : red_installed read_users (next_addr h1) u)
        by (split; [cbn [red_index red_update_state]; rewrite N.add_0_r; exact Hinv1
                   | cbn [red_index]; lia])
  end.
  cbn [red_update_state red_heap] in Hh1.
  exact (red_install_events_held true read_users (next_addr h1) h2
           Hat2 Hfew2' Halive2 _ _ _ _ _ Hinv1' Hh1 Hheld1 Hu2).
Qed.

Lemma red_handle_send_update_held (derez : list Token) (s s' : ReductionState)
    (collected : list Event) :
  red_well_formed s -> held_once s ->
  red_handle_send_update derez s = Some (s', collected) ->
  held_once s'.
Proof.
  intros Hok Hh. unfold red_handle_send_update.
  destruct (read_handle derez) as [[handle derez1]|]; [|discriminate].
  cbn [mbind option_bind].
  destruct (read_did derez1) as [[did derez2]|]; [|discriminate].
  cbn [mbind option_bind]. apply red_process_update_held; assumption.
Qed.

Lemma red_reachable_held `{Analysis} (s : ReductionState) :
  red_reachable s -> held_once s.
Proof.
  induction 1 as [ | term_event usage0 mask s Hs IHs
                   | man usage0 term_event mask s Hs IHs
                   | redop copy_term mask reading s Hs IHs
                   | term_event s Hs IHs
                   | derez s s' collected Hs IHs Hrun].
  - intros a. unfold empty_red_state. cbn [reduction_users reading_users red_heap].
    rewrite !holders_empty. split; [lia|]. intros Hp. lia.
  - apply red_add_initial_user_held; [apply red_reachable_well_formed; exact Hs | exact IHs].
  - apply red_add_user_held; [apply red_reachable_well_formed; exact Hs | exact IHs].
  - apply red_add_copy_user_held; [apply red_reachable_well_formed; exact Hs | exact IHs].
  - apply red_filter_local_users_held. exact IHs.
  - exact (red_handle_send_update_held derez s s' collected
             (red_reachable_well_formed s Hs) IHs Hrun).
Qed.

(** X21.  The users of a reduction view.  In every state a reduction
    view reaches by its operations and by the updates it reads, a user is
    held by at most one bucket of the reducers and the readers, and every
    user that a bucket holds is alive in the heap: [filter_local_users],
    which deletes the users of an event outright, has never freed a user
    that the view still holds. *)
Theorem reduction_users_alive `{Analysis} (s : ReductionState) (a : N) :
  red_reachable s ->
  (holders (reduction_users s) a + holders (reading_users s) a <= 1)%nat /\
  ((1 <= holders (reduction_users s) a + holders (reading_users s) a)%nat ->
   is_Some (references (red_heap s) !! a)).
Proof. intros Hs. exact (red_reachable_held s Hs a). Qed.

Lemma reduction_users_alive_witness :
  let s := (red_add_copy_user 3 1 1 false (@empty_red_state)).2 in
  @red_reachable sample_analysis s /\
  (holders (reduction_users s) 0 + holders (reading_users s) 0 <= 1)%nat /\
  ((1 <= holders (reduction_users s) 0 + holders (reading_users s) 0)%nat ->
   is_Some (references (red_heap s) !! 0)).
Proof.
  intros s.
  assert (Hs : @red_reachable sample_analysis s)
    by (apply red_reach_add_copy_user, red_reach_new).
  split; [exact Hs|].
  exact (@reduction_users_alive sample_analysis s 0 Hs).
Defined.

(** * The users a view holds *)

(** ** Buckets and maps of users *)

Lemma bucket_all_single (R : N -> PhysicalUser -> Prop) (mask : FieldMask)
    (u : N * PhysicalUser) :
  R u.1 u.2 -> bucket_all R (mkEventUsers mask (single_user u)).
Proof. intros Hu a record Hb. unfold bucket_has in Hb. cbn in Hb. subst u. exact Hu. Qed.

Lemma bucket_all_multi (R : N -> PhysicalUser -> Prop) (mask : FieldMask) (m : UserMap) :
  records_in R m -> bucket_all R (mkEventUsers mask (multi_users m)).
Proof. intros Hm a record [mk Hl]. exact (Hm a (record, mk) Hl). Qed.

Lemma bucket_all_users (R : N -> PhysicalUser -> Prop) (eu : EventUsers) :
  bucket_all R eu ->
  match users eu with
  | single_user u => R u.1 u.2
  | multi_users m => records_in R m
  end.
Proof.
  unfold bucket_all, bucket_has. destruct (users eu) as [u|m]; intros Hb.
  - apply Hb. destruct u; reflexivity.
  - intros a [record mk] Hl. apply (Hb a record). exists mk. exact Hl.
Qed.

Lemma bucket_all_same_users (R : N -> PhysicalUser -> Prop) (eu eu' : EventUsers) :
  users eu' = users eu -> bucket_all R eu -> bucket_all R eu'.
Proof. intros Hu Hb a record Ha. apply Hb. unfold bucket_has in *. rewrite <- Hu. exact Ha. Qed.

Lemma all_users_none (R : N -> PhysicalUser -> Prop) : all_users R None.
Proof. intros eu [=]. Qed.

Lemma all_users_some (R : N -> PhysicalUser -> Prop) (eu : EventUsers) :
  bucket_all R eu -> all_users R (Some eu).
Proof. intros Hb eu' [= <-]. exact Hb. Qed.

Lemma records_in_empty (R : N -> PhysicalUser -> Prop) : records_in R ∅.
Proof. intros a um Hl. rewrite lookup_empty in Hl. discriminate. Qed.

Lemma records_in_insert (R : N -> PhysicalUser -> Prop) (m : UserMap) (a : N)
    (um : PhysicalUser * FieldMask) :
  R a um.1 -> records_in R m -> records_in R (<[a := um]> m).
Proof.
  intros Ha Hm b um' Hl. apply lookup_insert_Some in Hl as [[<- <-]|[_ Hl]];
    [exact Ha | exact (Hm b um' Hl)].
Qed.

Lemma records_in_found (R : N -> PhysicalUser -> Prop) (m : UserMap) (a : N)
    (found : PhysicalUser * FieldMask) (mask : FieldMask) :
  m !! a = Some found -> records_in R m -> records_in R (<[a := (found.1, mask)]> m).
Proof. intros Hf Hm. apply records_in_insert; [exact (Hm a found Hf) | exact Hm]. Qed.

Lemma records_in_erase_all (R : N -> PhysicalUser -> Prop) (l : list N) (m : UserMap) :
  records_in R m -> records_in R (erase_all l m).
Proof.
  intros Hm a um Hl. rewrite lookup_erase_all in Hl.
  destruct (decide (a ∈ l)); [discriminate | exact (Hm a um Hl)].
Qed.

Lemma records_in_fmap (R : N -> PhysicalUser -> Prop) (f : FieldMask -> FieldMask)
    (m : UserMap) :
  records_in R m ->
  records_in R ((fun um : PhysicalUser * FieldMask => (um.1, f um.2)) <$> m).
Proof.
  intros Hm a um Hl. rewrite lookup_fmap in Hl.
  destruct (m !! a) as [um0|] eqn:Hl0; [|discriminate].
  injection Hl as <-. exact (Hm a um0 Hl0).
Qed.

Lemma bucket_all_collapse (R : N -> PhysicalUser -> Prop) (summary : FieldMask)
    (m : UserMap) :
  records_in R m -> bucket_all R (collapse summary m).
Proof.
  intros Hm. unfold collapse.
  destruct (entries m) as [|[user [record mask]] [|it l]] eqn:He;
    try (apply bucket_all_multi; exact Hm).
  apply bucket_all_single. cbn [fst snd].
  assert (Hin : (user, (record, mask)) ∈ entries m) by (rewrite He; left).
  apply elem_of_entries in Hin. exact (Hm user (record, mask) Hin).
Qed.

Lemma records_in_entries (R : N -> PhysicalUser -> Prop) (m : UserMap) :
  records_in R m -> forall it, it ∈ entries m -> R it.1 it.2.1.
Proof. intros Hm [a um] Hin. apply elem_of_entries in Hin. exact (Hm a um Hin). Qed.

(** ** Moving users to the previous epoch *)

Lemma merge_user_records (R : N -> PhysicalUser -> Prop)
    (it : N * (PhysicalUser * FieldMask)) (acc : UserMap * UserHeap) :
  R it.1 it.2.1 -> records_in R acc.1 -> records_in R (merge_user it acc).1.
Proof.
  intros Hit Hacc. unfold merge_user.
  destruct (acc.1 !! it.1) as [found|] eqn:Hf; cbn [fst].
  - exact (records_in_found R _ _ found _ Hf Hacc).
  - apply records_in_insert; assumption.
Qed.

Lemma merge_users_records (R : N -> PhysicalUser -> Prop)
    (l : list (N * (PhysicalUser * FieldMask))) :
  forall acc : UserMap * UserHeap,
    (forall it, it ∈ l -> R it.1 it.2.1) -> records_in R acc.1 ->
    records_in R (foldl (fun acc it => merge_user it acc) acc l).1.
Proof.
  induction l as [|it l IH]; intros acc Hl Hacc; [exact Hacc|].
  cbn [foldl]. apply IH.
  - intros it' Hin. apply Hl. right. exact Hin.
  - apply merge_user_records; [apply Hl; left | exact Hacc].
Qed.

Lemma move_single_records (R : N -> PhysicalUser -> Prop) (user : N * PhysicalUser)
    (current_mask so : FieldMask) (po : option EventUsers) (h : UserHeap) :
  R user.1 user.2 -> all_users R po ->
  bucket_all R (move_single user current_mask so po h).1.
Proof.
  intros Hu Hpo. unfold move_single. destruct po as [pu|].
  - pose proof (bucket_all_users R pu (Hpo pu eq_refl)) as Hpu.
    destruct (users pu) as [pu_user|pm].
    + destruct (N.eqb pu_user.1 user.1); cbn [fst].
      * apply bucket_all_single. exact Hpu.
      * apply bucket_all_multi. apply records_in_insert; [exact Hu|].
        apply records_in_insert; [exact Hpu | apply records_in_empty].
    + destruct (pm !! user.1) as [found|] eqn:Hf; cbn [fst]; apply bucket_all_multi.
      * exact (records_in_found R _ _ found _ Hf Hpu).
      * apply records_in_insert; assumption.
  - cbn [fst]. apply bucket_all_single. exact Hu.
Qed.

Lemma move_all_records (R : N -> PhysicalUser -> Prop) (cm : UserMap)
    (so : FieldMask) (po : option EventUsers) (h : UserHeap) :
  records_in R cm -> all_users R po -> bucket_all R (move_all cm so po h).1.
Proof.
  intros Hcm Hpo. unfold move_all. destruct po as [pu|].
  - pose proof (bucket_all_users R pu (Hpo pu eq_refl)) as Hpu.
    destruct (users pu) as [user|pm].
    + pose proof (merge_user_records R (user.1, (user.2, user_mask pu)) (cm, h)
                    Hpu Hcm) as Hm.
      destruct (merge_user _ _) as [cm' h']. cbn [fst] in *.
      apply bucket_all_multi. exact Hm.
    + pose proof (merge_users_records R (entries cm) (pm, h)
                    (records_in_entries R cm Hcm) Hpu) as Hm.
      destruct (foldl _ _ _) as [pm' h']. cbn [fst] in *.
      apply bucket_all_multi. exact Hm.
  - cbn [fst]. apply bucket_all_multi. exact Hcm.
Qed.

Lemma send_new_records (Rc Rp : N -> PhysicalUser -> Prop) (so : FieldMask)
    (it : N * (PhysicalUser * FieldMask)) (acc : Filtered) :
  Rc it.1 it.2.1 -> Rp it.1 it.2.1 ->
  records_in Rc (kept acc) /\ records_in Rp (sent acc) ->
  records_in Rc (kept (send_new so it acc)) /\ records_in Rp (sent (send_new so it acc)).
Proof.
  intros Hc Hp [Hk Hs]. unfold send_new. cbv zeta.
  destruct (Mask.is_empty (so &&& it.2.2)); [split; assumption|].
  cbn [kept sent]. split; apply records_in_insert; assumption.
Qed.

Lemma send_existing_records (Rc Rp : N -> PhysicalUser -> Prop) (so : FieldMask)
    (it : N * (PhysicalUser * FieldMask)) (acc : Filtered) :
  Rc it.1 it.2.1 -> Rp it.1 it.2.1 ->
  records_in Rc (kept acc) /\ records_in Rp (sent acc) ->
  records_in Rc (kept (send_existing so it acc)) /\
  records_in Rp (sent (send_existing so it acc)).
Proof.
  intros Hc Hp [Hk Hs]. unfold send_existing. cbv zeta.
  destruct (Mask.is_empty (so &&& it.2.2)); [split; assumption|].
  destruct (sent acc !! it.1) as [found|] eqn:Hf; cbn [kept sent].
  - split; [apply records_in_insert; assumption|].
    exact (records_in_found Rp _ _ found _ Hf Hs).
  - split; apply records_in_insert; assumption.
Qed.

Lemma send_fold_records (Rc Rp : N -> PhysicalUser -> Prop)
    (step : N * (PhysicalUser * FieldMask) -> Filtered -> Filtered)
    (l : list (N * (PhysicalUser * FieldMask))) :
  (forall it acc, Rc it.1 it.2.1 -> Rp it.1 it.2.1 ->
     records_in Rc (kept acc) /\ records_in Rp (sent acc) ->
     records_in Rc (kept (step it acc)) /\ records_in Rp (sent (step it acc))) ->
  forall acc : Filtered,
    (forall it, it ∈ l -> Rc it.1 it.2.1 /\ Rp it.1 it.2.1) ->
    records_in Rc (kept acc) /\ records_in Rp (sent acc) ->
    records_in Rc (kept (foldl (fun acc it => step it acc) acc l)) /\
    records_in Rp (sent (foldl (fun acc it => step it acc) acc l)).
Proof.
  intros Hstep. induction l as [|it l IH]; intros acc Hl Hacc; [exact Hacc|].
  cbn [foldl]. apply IH.
  - intros it' Hin. apply Hl. right. exact Hin.
  - destruct (Hl it) as [Hc Hp]; [left|]. apply Hstep; assumption.
Qed.

Lemma move_some_records (Rc Rp : N -> PhysicalUser -> Prop) (cm : UserMap)
    (current_mask so : FieldMask) (po : option EventUsers) (h : UserHeap) :
  records_in Rc cm -> records_in Rp cm -> all_users Rp po ->
  bucket_all Rc (move_some cm current_mask so po h).1.1 /\
  bucket_all Rp (move_some cm current_mask so po h).1.2.
Proof.
  intros Hc Hp Hpo.
  assert (Hl : forall it, it ∈ entries cm -> Rc it.1 it.2.1 /\ Rp it.1 it.2.1).
  { intros it Hin. split; [exact (records_in_entries Rc cm Hc it Hin)
                          | exact (records_in_entries Rp cm Hp it Hin)]. }
  assert (Hcur : forall f : Filtered, records_in Rc (kept f) ->
            bucket_all Rc
              match to_delete f with
              | [] => mkEventUsers current_mask (multi_users (kept f))
              | _ => collapse current_mask (erase_all (to_delete f) (kept f))
              end).
  { intros f Hk. destruct (to_delete f); [apply bucket_all_multi; exact Hk|].
    apply bucket_all_collapse, records_in_erase_all. exact Hk. }
  unfold move_some. destruct po as [pu|].
  - pose proof (bucket_all_users Rp pu (Hpo pu eq_refl)) as Hpu.
    destruct (users pu) as [user|pm].
    + destruct (send_fold_records Rc Rp (send_new so) (entries cm)
                  (send_new_records Rc Rp so) (mkFiltered cm ∅ [] h) Hl)
        as [Hk Hs]; [split; [exact Hc | apply records_in_empty]|].
      set (f := foldl _ _ _) in *.
      pose proof (merge_user_records Rp (user.1, (user.2, user_mask pu))
                    (sent f, filtered_heap f) Hpu Hs) as Hm.
      destruct (merge_user _ _) as [new_map h']. cbn [fst snd kept sent to_delete] in *.
      split; [exact (Hcur f Hk) | apply bucket_all_multi; exact Hm].
    + destruct (send_fold_records Rc Rp (send_existing so) (entries cm)
                  (send_existing_records Rc Rp so) (mkFiltered cm pm [] h) Hl)
        as [Hk Hs]; [split; [exact Hc | exact Hpu]|].
      set (f := foldl _ _ _) in *. cbn [fst snd].
      split; [exact (Hcur f Hk) | apply bucket_all_multi; exact Hs].
  - destruct (send_fold_records Rc Rp (send_new so) (entries cm)
                (send_new_records Rc Rp so) (mkFiltered cm ∅ [] h) Hl)
      as [Hk Hs]; [split; [exact Hc | apply records_in_empty]|].
    set (f := foldl _ _ _) in *. cbn [fst snd].
    split; [exact (Hcur f Hk) | apply bucket_all_multi; exact Hs].
Qed.

Lemma move_bucket_records (Rc Rp : N -> PhysicalUser -> Prop) (eu : EventUsers)
    (current_mask so : FieldMask) (po : option EventUsers) (h : UserHeap) :
  bucket_all Rc eu -> bucket_all Rp eu -> all_users Rp po ->
  bucket_all Rc (move_bucket eu current_mask so po h).1.1.1 /\
  bucket_all Rp (move_bucket eu current_mask so po h).1.1.2.
Proof.
  intros Hc Hp Hpo. apply bucket_all_users in Hc, Hp. unfold move_bucket.
  destruct (users eu) as [user|cm].
  - pose proof (move_single_records Rp user current_mask so po h Hp Hpo) as Hm.
    destruct (move_single _ _ _ _ _) as [prev' h']. cbn [fst snd] in *.
    split; [apply bucket_all_single; exact Hc | exact Hm].
  - destruct (Mask.is_empty current_mask).
    + pose proof (move_all_records Rp cm so po h Hp Hpo) as Hm.
      destruct (move_all _ _ _ _) as [prev' h']. cbn [fst snd] in *.
      split; [apply bucket_all_multi; exact Hc | exact Hm].
    + pose proof (move_some_records Rc Rp cm current_mask so po h Hc Hp Hpo) as Hm.
      destruct (move_some _ _ _ _ _) as [[current' prev'] h']. cbn [fst snd] in *.
      exact Hm.
Qed.

(** The users under an event after [filter_current_users]: those of the
    current epoch were there, those of the previous epoch were in one of
    the two epochs, and in the previous one when the event has
    triggered. *)
Lemma filter_current_users_records (Rc Rp : N -> PhysicalUser -> Prop)
    (ht : Event -> bool) (d : FieldMask) (s : MaterializedState) (e : Event) :
  all_users Rc (current_epoch_users s !! e) ->
  all_users Rp (previous_epoch_users s !! e) ->
  (ht e = false -> all_users Rp (current_epoch_users s !! e)) ->
  all_users Rc (current_epoch_users (filter_current_users ht d s) !! e) /\
  all_users Rp (previous_epoch_users (filter_current_users ht d s) !! e).
Proof.
  intros Hc Hp Hcp.
  destruct (filter_current_users_at ht d s e) as (_ & _ & Hat).
  destruct (current_epoch_users s !! e) as [eu|] eqn:Hl.
  - destruct (ht e).
    + destruct Hat as [-> ->]. split; [apply all_users_none | exact Hp].
    + destruct (Mask.is_empty (user_mask eu &&& d)).
      * destruct Hat as [-> ->]. split; assumption.
      * destruct Hat as (h & Hcur & Hprev). cbv zeta in Hcur, Hprev.
        destruct (move_bucket_records Rc Rp eu
                    (user_mask eu \\\ (user_mask eu &&& d)) (user_mask eu &&& d)
                    (previous_epoch_users s !! e) h (Hc eu eq_refl)
                    (Hcp eq_refl eu eq_refl) Hp) as [Hm1 Hm2].
        rewrite Hcur, Hprev. split; [|apply all_users_some; exact Hm2].
        destruct (move_bucket _ _ _ _ h).2;
          [apply all_users_none | apply all_users_some; exact Hm1].
  - destruct Hat as [-> ->]. split; [apply all_users_none | exact Hp].
Qed.

(** ** The other parts of the clean-up *)

Lemma filter_previous_entry_records (R : N -> PhysicalUser -> Prop)
    (fit : Event * FieldMask) (s : MaterializedState) (e : Event) :
  all_users R (previous_epoch_users s !! e) ->
  all_users R (previous_epoch_users (filter_previous_entry fit s) !! e).
Proof.
  intros Hp. unfold filter_previous_entry.
  destruct (previous_epoch_users s !! fit.1) as [eu|] eqn:Hl; [|exact Hp].
  assert (Hother : forall eu' : EventUsers,
            (e = fit.1 -> bucket_all R eu') ->
            all_users R (<[fit.1 := eu']> (previous_epoch_users s) !! e)).
  { intros eu' Hnew. destruct (decide (e = fit.1)) as [->|Hne].
    - rewrite lookup_insert_eq. apply all_users_some, Hnew. reflexivity.
    - rewrite lookup_insert_ne by congruence. exact Hp. }
  assert (Heu : e = fit.1 -> bucket_all R eu).
  { intros ->. apply Hp. exact Hl. }
  destruct (Mask.is_empty (user_mask eu \\\ fit.2)).
  { cbn [set_heap set_previous previous_epoch_users].
    destruct (decide (e = fit.1)) as [->|Hne].
    - rewrite lookup_delete_eq. apply all_users_none.
    - rewrite lookup_delete_ne by congruence. exact Hp. }
  destruct (users eu) as [u|m] eqn:Hu.
  { cbn [set_previous previous_epoch_users]. apply Hother. intros He.
    apply (bucket_all_same_users R eu); [cbn [users]; congruence | exact (Heu He)]. }
  assert (Hm : e = fit.1 ->
            records_in R ((fun um : PhysicalUser * FieldMask => (um.1, um.2 \\\ fit.2))
                            <$> m)).
  { intros He. apply (records_in_fmap R (fun mask => mask \\\ fit.2)).
    pose proof (bucket_all_users R eu (Heu He)) as Hb. rewrite Hu in Hb. exact Hb. }
  destruct (List.filter _ _) as [|kv to_delete].
  { cbn [set_previous previous_epoch_users]. apply Hother. intros He.
    apply bucket_all_multi, Hm, He. }
  cbn [set_heap set_previous previous_epoch_users]. apply Hother. intros He.
  apply bucket_all_collapse, records_in_erase_all, Hm, He.
Qed.

Lemma filter_previous_users_records (R : N -> PhysicalUser -> Prop)
    (fp : gmap Event FieldMask) (s : MaterializedState) (e : Event) :
  all_users R (previous_epoch_users s !! e) ->
  all_users R (previous_epoch_users (filter_previous_users fp s) !! e).
Proof.
  unfold filter_previous_users. generalize (entries fp). intros l. revert s.
  induction l as [|fit l IH]; intros s Hp; [exact Hp|].
  cbn [foldl]. apply IH, filter_previous_entry_records, Hp.
Qed.

Lemma filter_local_users_records (Rc Rp : N -> PhysicalUser -> Prop)
    (e' : Event) (s : MaterializedState) (e : Event) :
  all_users Rc (current_epoch_users s !! e) ->
  all_users Rp (previous_epoch_users s !! e) ->
  all_users Rc (current_epoch_users (filter_local_users e' s) !! e) /\
  all_users Rp (previous_epoch_users (filter_local_users e' s) !! e).
Proof.
  intros Hc Hp. destruct (decide (e' ∈ outstanding_gc_events s)) as [Hin|Hout].
  - rewrite filter_local_users_recorded by exact Hin.
    cbn [current_epoch_users previous_epoch_users].
    destruct (decide (e = e')) as [->|Hne].
    + rewrite !lookup_delete_eq. split; apply all_users_none.
    + rewrite !lookup_delete_ne by congruence. split; assumption.
  - rewrite filter_local_users_unrecorded by exact Hout. split; assumption.
Qed.

Lemma collect_records (Rc Rp : N -> PhysicalUser -> Prop) (l : list Event) (e : Event) :
  forall s : MaterializedState,
    all_users Rc (current_epoch_users s !! e) ->
    all_users Rp (previous_epoch_users s !! e) ->
    all_users Rc (current_epoch_users
                    (foldl (fun s e => filter_local_users e s) s l) !! e) /\
    all_users Rp (previous_epoch_users
                    (foldl (fun s e => filter_local_users e s) s l) !! e).
Proof.
  induction l as [|e' l IH]; intros s Hc Hp; [split; assumption|].
  cbn [foldl]. destruct (filter_local_users_records Rc Rp e' s e Hc Hp) as [Hc1 Hp1].
  exact (IH _ Hc1 Hp1).
Qed.

(** The users under an event after the clean-up of the analyzers. *)
Lemma apply_filters_records (Rc Rp : N -> PhysicalUser -> Prop) (ht : Event -> bool)
    (dead : gset Event) (fp : gmap Event FieldMask) (d : FieldMask)
    (s : MaterializedState) (e : Event) :
  all_users Rc (current_epoch_users s !! e) ->
  all_users Rp (previous_epoch_users s !! e) ->
  (ht e = false -> all_users Rp (current_epoch_users s !! e)) ->
  all_users Rc (current_epoch_users (apply_filters ht dead fp d s) !! e) /\
  all_users Rp (previous_epoch_users (apply_filters ht dead fp d s) !! e).
Proof.
  intros Hc Hp Hcp. unfold apply_filters. cbv zeta.
  destruct (collect_records Rc Rp (sorted_elements dead) e s Hc Hp) as [Hc1 Hp1].
  assert (Hcp1 : ht e = false ->
            all_users Rp (current_epoch_users
              (foldl (fun s e => filter_local_users e s) s (sorted_elements dead)) !! e)).
  { intros Ht.
    exact (proj1 (collect_records Rp Rp (sorted_elements dead) e s (Hcp Ht) Hp)). }
  set (s1 := foldl _ s _) in *.
  assert (H2 : all_users Rc (current_epoch_users
                  (if decide (fp = ∅) then s1 else filter_previous_users fp s1) !! e) /\
               all_users Rp (previous_epoch_users
                  (if decide (fp = ∅) then s1 else filter_previous_users fp s1) !! e) /\
               (ht e = false ->
                all_users Rp (current_epoch_users
                  (if decide (fp = ∅) then s1 else filter_previous_users fp s1) !! e))).
  { destruct (decide (fp = ∅)); [auto|].
    rewrite filter_previous_users_current.
    split; [exact Hc1|]. split; [|exact Hcp1].
    apply filter_previous_users_records. exact Hp1. }
  destruct H2 as (Hc2 & Hp2 & Hcp2).
  set (s2 := if decide (fp = ∅) then _ else _) in *.
  destruct (negb (Mask.is_empty d)); [|split; assumption].
  apply filter_current_users_records; assumption.
Qed.

Lemma insert_user_records (R : N -> PhysicalUser -> Prop) (user : N * PhysicalUser)
    (mask : FieldMask) (o : option EventUsers) :
  R user.1 user.2 -> all_users R o -> bucket_all R (insert_user user mask o).
Proof.
  intros Hu Ho. unfold insert_user. destruct o as [eu|].
  - pose proof (bucket_all_users R eu (Ho eu eq_refl)) as Heu.
    destruct (users eu) as [u0|m]; apply bucket_all_multi.
    + apply records_in_insert; [exact Hu|].
      apply records_in_insert; [exact Heu | apply records_in_empty].
    + apply records_in_insert; assumption.
  - apply bucket_all_single. exact Hu.
Qed.

Lemma insert_table_records (R : N -> PhysicalUser -> Prop) (user : N * PhysicalUser)
    (mask : FieldMask) (table : gmap Event EventUsers) (e' e : Event) :
  (e = e' -> R user.1 user.2) -> all_users R (table !! e) ->
  all_users R (<[e' := insert_user user mask (table !! e')]> table !! e).
Proof.
  intros Hu Ht. destruct (decide (e = e')) as [->|Hne].
  - rewrite lookup_insert_eq. apply all_users_some, insert_user_records; auto.
  - rewrite lookup_insert_ne by congruence. exact Ht.
Qed.

Lemma insert_all_records (R : N -> PhysicalUser -> Prop) (copy : N -> N * PhysicalUser)
    (l : list (Event * (N * FieldMask))) (e : Event) :
  forall table : gmap Event EventUsers,
    (forall x, x ∈ l -> R (copy x.2.1).1 (copy x.2.1).2) ->
    all_users R (table !! e) ->
    all_users R (insert_all copy l table !! e).
Proof.
  induction l as [|x l IH]; intros table Hl Ht; [exact Ht|].
  unfold insert_all. cbn [foldl]. fold (insert_all copy l). apply IH.
  - intros x' Hin. apply Hl. right. exact Hin.
  - apply insert_table_records; [|exact Ht]. intros _. apply Hl. left.
Qed.

(** ** Versions are recorded for readers only *)

Lemma versions_of_readers_events `{Analysis} (s : MaterializedState) :
  versions_of_readers s <->
  forall e,
    all_users (fun _ record => versions_only_if_read_only record)
      (current_epoch_users s !! e) /\
    all_users (fun _ record => versions_only_if_read_only record)
      (previous_epoch_users s !! e).
Proof.
  split.
  - intros Hv e. split; intros eu Hl a record Hb; apply (Hv a record);
      exists e, eu; auto.
  - intros Hev a record (e & eu & [Hl|Hl] & Hb).
    + exact (proj1 (Hev e) eu Hl a record Hb).
    + exact (proj2 (Hev e) eu Hl a record Hb).
Qed.

Lemma apply_filters_versions `{Analysis} (ht : Event -> bool) (dead : gset Event)
    (fp : gmap Event FieldMask) (d : FieldMask) (s : MaterializedState) :
  versions_of_readers s -> versions_of_readers (apply_filters ht dead fp d s).
Proof.
  rewrite !versions_of_readers_events. intros Hv e. destruct (Hv e) as [Hc Hp].
  apply apply_filters_records; [exact Hc | exact Hp | intros _; exact Hc].
Qed.

Lemma add_current_user_versions `{Analysis} (user : N * PhysicalUser)
    (term_event : Event) (mask : FieldMask) (s : MaterializedState) :
  versions_only_if_read_only user.2 -> versions_of_readers s ->
  versions_of_readers (add_current_user user term_event mask s).
Proof.
  rewrite !versions_of_readers_events. intros Hu Hv e. destruct (Hv e) as [Hc Hp].
  unfold add_current_user, set_current. cbn [current_epoch_users previous_epoch_users].
  split; [|exact Hp].
  apply (insert_table_records (fun _ record => versions_only_if_read_only record));
    [intros _; exact Hu | exact Hc].
Qed.

Lemma versions_of_readers_tables `{Analysis} (s s' : MaterializedState) :
  current_epoch_users s' = current_epoch_users s ->
  previous_epoch_users s' = previous_epoch_users s ->
  versions_of_readers s -> versions_of_readers s'.
Proof.
  intros Hc Hp Hv a record (e & eu & Hl & Hb). apply (Hv a record).
  exists e, eu. rewrite <- Hc, <- Hp. auto.
Qed.

Lemma add_local_user_versions `{Analysis} (ht ht' : Event -> bool)
    (node : RegionTreeNode) (usage0 : RegionUsage) (term_event : Event)
    (base_user : bool) (child_color : ColorPoint) (version_info : VersionInfo)
    (mask : FieldMask) (pre : gset Event) (s : MaterializedState) :
  versions_of_readers s ->
  versions_of_readers (add_local_user ht ht' node usage0 term_event base_user child_color
                         version_info mask pre s).2.
Proof.
  intros Hv. unfold add_local_user.
  set (a := task_analysis _ _ _ _ _ _ _ _).
  destruct (event_exists term_event).
  - pose proof (new_user_versions node usage0 child_color version_info (heap s)) as Hn.
    destruct (new_user node usage0 child_color version_info (heap s)) as [user h].
    cbn [fst snd] in Hn.
    assert (Hv2 : versions_of_readers
              (add_current_user user term_event mask
                 (apply_filters ht' (ta_dead_events a) (ta_filter_previous a)
                    (ta_dominated a) (set_heap (fun _ => h) s)))).
    { apply add_current_user_versions; [exact Hn|]. apply apply_filters_versions.
      exact (versions_of_readers_tables s _ eq_refl eq_refl Hv). }
    destruct (decide _); cbn [snd]; [exact Hv2|].
    exact (versions_of_readers_tables _ _ eq_refl eq_refl Hv2).
  - cbn [snd]. apply apply_filters_versions. exact Hv.
Qed.

Lemma add_local_copy_user_versions `{Analysis} (node : RegionTreeNode)
    (usage0 : RegionUsage) (copy_term : Event) (base_user : bool)
    (child_color : ColorPoint) (version_info : VersionInfo) (mask : FieldMask)
    (s : MaterializedState) :
  versions_of_readers s ->
  versions_of_readers (add_local_copy_user node usage0 copy_term base_user child_color
                         version_info mask s).2.
Proof.
  intros Hv. unfold add_local_copy_user.
  pose proof (new_user_versions node usage0 child_color version_info (heap s)) as Hn.
  destruct (new_user node usage0 child_color version_info (heap s)) as [user h].
  cbn [fst snd] in Hn |- *.
  apply (versions_of_readers_tables
           (add_current_user user copy_term mask (set_heap (fun _ => h) s)));
    [reflexivity | reflexivity|].
  apply add_current_user_versions; [exact Hn|].
  exact (versions_of_readers_tables s _ eq_refl eq_refl Hv).
Qed.

Lemma add_initial_user_versions `{Analysis} (term_event : Event) (usage0 : RegionUsage)
    (mask : FieldMask) (s : MaterializedState) :
  versions_of_readers s -> versions_of_readers (add_initial_user term_event usage0 mask s).
Proof.
  intros Hv. unfold add_initial_user, legion_new.
  apply (versions_of_readers_tables
           (add_current_user (next_addr (heap s), mkUser usage0 None None) term_event mask
              s)); [reflexivity | reflexivity|].
  apply add_current_user_versions; [|exact Hv].
  intros Hsome. cbn [snd versions] in Hsome. contradiction.
Qed.

Lemma find_local_copy_preconditions_versions `{Analysis} (ht ht' : Event -> bool)
    (node : RegionTreeNode) (redop : ReductionOpID) (reading : bool)
    (copy_mask : FieldMask) (child_color : ColorPoint) (version_info : VersionInfo)
    (pre : gmap Event FieldMask) (s : MaterializedState) :
  versions_of_readers s ->
  versions_of_readers (find_local_copy_preconditions ht ht' node redop reading copy_mask
                         child_color version_info pre s).2.
Proof.
  intros Hv. unfold find_local_copy_preconditions. cbv zeta. cbn [snd].
  destruct (_ || _); [|exact Hv]. apply apply_filters_versions. exact Hv.
Qed.

Lemma filter_local_users_versions `{Analysis} (e : Event) (s : MaterializedState) :
  versions_of_readers s -> versions_of_readers (filter_local_users e s).
Proof.
  rewrite !versions_of_readers_events. intros Hv e'. destruct (Hv e') as [Hc Hp].
  apply filter_local_users_records; assumption.
Qed.

Lemma update_gc_events_tables (gc_events : list Event) (s : MaterializedState) :
  current_epoch_users (update_gc_events gc_events s) = current_epoch_users s /\
  previous_epoch_users (update_gc_events gc_events s) = previous_epoch_users s.
Proof.
  unfold update_gc_events. revert s.
  induction gc_events as [|e l IH]; intros s; [split; reflexivity|].
  cbn [foldl]. destruct (IH (set_gc (fun gc => {[e]} ∪ gc) s)) as [-> ->].
  split; reflexivity.
Qed.

Lemma handle_send_update_versions `{Analysis} (is_region : bool) (handle did : N)
    (update_mask : FieldMask) (s r r' : MaterializedState) (collected : list Event) :
  well_formed s -> versions_of_readers s -> versions_of_readers r ->
  (Z.of_nat (update_load (carried update_mask (current_epoch_users s)) +
             update_load (carried update_mask (previous_epoch_users s))) < 2 ^ 31)%Z ->
  handle_send_update (send_view_updates is_region handle did update_mask s).1 r
    = Some (r', collected) ->
  versions_of_readers r'.
Proof.
  intros (_ & _ & _ & _ & Hus) Hvs Hvr Hload Hrun.
  destruct (update_installed (holds_user s) is_region handle did update_mask s r
              (holds_user_stored s) (carried_unshared update_mask _ Hus) Hload)
    as (idx & table & copy & r1 & collected1 & _ & Hrun1 & (Hc & Hp & _) & Hcopy).
  rewrite Hrun in Hrun1. injection Hrun1 as <- <-.
  destruct (apply_locally_tables copy (carried update_mask (current_epoch_users s))
              (carried update_mask (previous_epoch_users s)) r) as [Hc1 Hp1].
  rewrite Hc1 in Hc. rewrite Hp1 in Hp.
  assert (Hnew : forall ups x,
            (forall a, a ∈ carried_addrs ups ->
                       a ∈ carried_addrs (carried update_mask (current_epoch_users s)) ++
                           carried_addrs (carried update_mask (previous_epoch_users s))) ->
            x ∈ carried_pairs ups -> versions_only_if_read_only (copy x.2.1).2).
  { intros ups x Hsub Hx. apply (Hvs x.2.1). apply Hcopy, Hsub.
    rewrite <- carried_pairs_addrs. apply list_elem_of_fmap. exists x. auto. }
  apply versions_of_readers_events. intros e.
  destruct (proj1 (versions_of_readers_events r) Hvr e) as [Hrc Hrp].
  rewrite Hc, Hp. split.
  - apply (insert_all_records (fun _ record => versions_only_if_read_only record));
      [|exact Hrc].
    intros x Hx.
    apply (Hnew (carried update_mask (current_epoch_users s)) x); [|exact Hx].
    intros a Ha. apply elem_of_app. left. exact Ha.
  - apply (insert_all_records (fun _ record => versions_only_if_read_only record));
      [|exact Hrp].
    intros x Hx.
    apply (Hnew (carried update_mask (previous_epoch_users s)) x); [|exact Hx].
    intros a Ha. apply elem_of_app. right. exact Ha.
Qed.

(** Every user a view holds, in a state it reaches by its operations,
    has versions only if it is read-only. *)
Lemma reachable_versions `{Analysis} (s : MaterializedState) :
  reachable s -> versions_of_readers s.
Proof.
  induction 1 as [ | term_event usage0 mask s Hs IHs
                   | ht ht' node usage0 term_event base cc vi mask pre s Hs IHs
                   | node usage0 copy_term base cc vi mask s Hs IHs
                   | ht ht' node redop reading mask cc vi pre s Hs IHs
                   | term_event s Hs IHs
                   | gc_events s Hs IHs
                   | is_region handle did update_mask s Hs IHs
                   | is_region handle did update_mask s r r' collected
                     Hs IHs Hr IHr Hload Hrun].
  - intros a record (e & eu & [Hl|Hl] & _); cbn in Hl; rewrite lookup_empty in Hl;
      discriminate.
  - apply add_initial_user_versions. exact IHs.
  - apply add_local_user_versions. exact IHs.
  - apply add_local_copy_user_versions. exact IHs.
  - apply find_local_copy_preconditions_versions. exact IHs.
  - apply filter_local_users_versions. exact IHs.
  - destruct (update_gc_events_tables gc_events s) as [Hc Hp].
    exact (versions_of_readers_tables s _ Hc Hp IHs).
  - rewrite send_view_updates_heap;
      [exact IHs | apply reachable_well_formed; exact Hs
       | apply reachable_counted; exact Hs].
  - exact (handle_send_update_versions is_region handle did update_mask s r r' collected
             (reachable_well_formed s Hs) IHs IHr Hload Hrun).
Qed.

(** ** C5: the same-version skip of the copy path *)

(** C5. On the copy path the same-version test lets a prior user go
    without a dependence exactly when the caller is a writer that does
    not reduce ([reading] false, [redop] zero) and supplies field
    versions, and the prior user is read-only, not a reduction, and holds
    the caller's versions on the overlapping fields.  The prior user is
    any user the view holds in a state it reaches by its operations: the
    test of the code asks whether the user is a reduction, not whether it
    is read-only, and it is the views that record versions for read-only
    users only.  Both the current- and the previous-epoch test record
    the prior user's event unless the skip applies; a prior user that is
    not read-only is recorded even when the caller supplies versions. *)
Theorem same_version_skip_rule `{Analysis} (logical_node : RegionTreeNode)
    (test_event : Event) (a : N) (user : PhysicalUser) (mask : FieldMask)
    (redop : ReductionOpID) (reading : bool) (copy_mask : FieldMask)
    (child_color : ColorPoint) (caller_versions : option FieldVersions)
    (acc : CopyAcc) (s : MaterializedState) :
  reachable s -> holds_user s a user ->
  copy_mask &&& mask <> 0 ->
  cut_off logical_node child_color user = false ->
  reading && IS_READ_ONLY (usage user) = false ->
  N.ltb 0 redop && N.eqb (user_redop user) redop = false ->
  let overlap := copy_mask &&& mask in
  let skip := same_version_skip user redop reading overlap caller_versions in
  let cur := find_current_copy_preconditions logical_node test_event user mask
               redop reading copy_mask child_color caller_versions acc in
  let prev := find_previous_copy_preconditions logical_node test_event user mask
                redop reading copy_mask child_color caller_versions
                (copy_preconditions acc) in
  (skip = true <->
     reading = false /\ redop = 0 /\
     IS_READ_ONLY (usage user) = true /\ IS_REDUCE (usage user) = false /\
     exists vs, caller_versions = Some vs /\ same_versions user overlap vs = true) /\
  (skip = true ->
     copy_preconditions cur = copy_preconditions acc /\
     prev = copy_preconditions acc) /\
  (skip = false ->
     copy_preconditions cur =
       record_precondition test_event overlap (copy_preconditions acc) /\
     prev = record_precondition test_event overlap (copy_preconditions acc)) /\
  (IS_READ_ONLY (usage user) = false -> skip = false).
Proof.
  intros Hs Hheld Hov Hcut Hrr Hred overlap skip cur prev.
  pose proof (reachable_versions s Hs a user Hheld) as Hwf.
  apply orb_false_iff in Hcut as [Hsame Hdisj].
  assert (Hov' : mask &&& copy_mask <> 0).
  { unfold Mask.inter in *. rewrite N.land_comm. exact Hov. }
  assert (Hcomm : mask &&& copy_mask = overlap).
  { unfold overlap, Mask.inter. apply N.land_comm. }
  apply is_empty_false in Hov, Hov'.
  assert (Hskip : skip = true <->
     reading = false /\ redop = 0 /\
     IS_READ_ONLY (usage user) = true /\ IS_REDUCE (usage user) = false /\
     exists vs, caller_versions = Some vs /\ same_versions user overlap vs = true).
  { subst skip. unfold same_version_skip. split.
    - intros Hsk.
      apply andb_true_iff in Hsk as [Hsk Hv].
      apply andb_true_iff in Hsk as [Hr Hz].
      apply negb_true_iff in Hr. apply N.eqb_eq in Hz.
      destruct caller_versions as [vs|]; [|discriminate].
      apply andb_true_iff in Hv as [Hnr Hsv].
      apply negb_true_iff in Hnr.
      repeat split; try assumption.
      + apply Hwf. eapply same_versions_recorded. exact Hsv.
      + exists vs. split; [reflexivity | assumption].
    - intros (-> & -> & _ & Hnr & vs & -> & Hsv).
      simpl. rewrite Hnr, Hsv. reflexivity. }
  split; [exact Hskip|].
  subst cur prev.
  unfold find_current_copy_preconditions, find_previous_copy_preconditions.
  rewrite Hov, Hov', Hsame, Hdisj, Hrr, Hred, Hcomm. fold overlap. fold skip.
  repeat split.
  - destruct skip; [reflexivity | discriminate].
  - destruct skip; [reflexivity | discriminate].
  - destruct skip; [discriminate | reflexivity].
  - destruct skip; [discriminate | reflexivity].
  - intros Hnro. destruct skip; [|reflexivity].
    destruct Hskip as [Hsk _]. destruct (Hsk eq_refl) as (_ & _ & Hro & _).
    congruence.
Qed.

Lemma same_version_skip_rule_witness :
  let vi := mkVersionInfo (fun _ => true) (fun _ => Some [(7, 1)]) in
  let s := (@add_local_user sample_analysis (fun _ => false) (fun _ => false)
              sample_node read_only 1 true None vi 1 ∅ empty_state).2 in
  let reader := mkUser read_only None (Some [(7, 1)]) in
  let acc := mkCopyAcc ∅ 0 0 in
  (@reachable sample_analysis s /\ holds_user s 0 reader /\
   1 &&& 1 <> 0 /\ cut_off sample_node None reader = false) /\
  @same_version_skip sample_analysis reader 0 false (1 &&& 1) (Some [(7, 1)]) = true /\
  copy_preconditions
    (@find_current_copy_preconditions sample_analysis sample_node 1 reader 1
       0 false 1 None (Some [(7, 1)]) acc) = ∅.
Proof.
  intros vi s reader acc.
  assert (H0 : @reachable sample_analysis s)
    by (apply (@reach_add_local_user sample_analysis), (@reach_new sample_analysis)).
  assert (H1 : holds_user s 0 reader).
  { exists 1, (mkEventUsers 1 (single_user (0, reader))).
    split; [left; vm_compute; reflexivity | reflexivity]. }
  assert (H2 : 1 &&& 1 <> 0) by (vm_compute; discriminate).
  assert (H3 : cut_off sample_node None reader = false) by reflexivity.
  pose proof (@same_version_skip_rule sample_analysis sample_node 1 0 reader 1 0
                false 1 None (Some [(7, 1)]) acc s H0 H1 H2 H3 eq_refl eq_refl)
    as (_ & Hskip & _).
  split; [auto|]. split; [reflexivity|].
  exact (proj1 (Hskip eq_refl)).
Defined.

(** ** C1: the dependence table decides the task path *)

Lemma is_dependence_true (dt : DependenceType) :
  is_dependence dt = true <-> dt = TRUE_DEPENDENCE \/ dt = ANTI_DEPENDENCE.
Proof.
  destruct dt; cbn; split; try tauto; try discriminate;
    try (intros [?|?]; discriminate); auto.
Qed.

Lemma tested_user_waits `{Analysis} (node : RegionTreeNode) (next_user : RegionUsage)
    (child_color : ColorPoint) (mask dominated : FieldMask) (s : MaterializedState)
    (e : Event) :
  makes_wait node next_user child_color mask (current_epoch_users s !! e) \/
  makes_wait node next_user child_color (mask \\\ dominated)
    (previous_epoch_users s !! e) <->
  exists a record,
    tested_user mask dominated s e a record /\
    cut_off node child_color record = false /\
    (check_dependence_type (usage record) next_user = TRUE_DEPENDENCE \/
     check_dependence_type (usage record) next_user = ANTI_DEPENDENCE).
Proof.
  unfold makes_wait, tested_user. split.
  - intros [(eu & a & record & Hl & Hb & Hf & Hcut & Hdep)
           |(eu & a & record & Hl & Hb & Hf & Hcut & Hdep)];
      exists a, record; (split; [exists eu; split; [exact Hb|]; auto|]);
      (split; [exact Hcut | apply is_dependence_true; exact Hdep]).
  - intros (a & record & (eu & Hb & [[Hl Hf]|[Hl Hf]]) & Hcut & Hdep);
      [left | right]; exists eu, a, record; repeat split; try assumption;
      apply is_dependence_true; exact Hdep.
Qed.

(** C1, as the code has it.  Let a task come to a view in a state the
    view reaches by its operations.  A user under an event is tested
    when it is in the current epoch with a field of the caller's mask,
    or in the previous epoch with a field of the caller's mask that the
    current epoch did not dominate.  If the event has not triggered and
    is not the caller's own, and the child rules do not cut a tested
    user off, a true or an anti dependence of the table puts the event
    among the preconditions [add_local_user] returns.  Conversely an
    event that is returned was handed in, or it has not triggered, is not
    the caller's own and has a tested user, not cut off, with a true or
    an anti dependence: a user for which the table gives no dependence
    or an atomic or simultaneous one never brings its event in, and
    neither does a user of the previous epoch whose fields of the mask
    are all dominated. *)
Theorem task_path_dependence_rule `{Analysis}
    (has_triggered has_triggered' : Event -> bool)
    (node : RegionTreeNode) (next_user : RegionUsage) (term_event : Event)
    (base_user : bool) (child_color : ColorPoint) (version_info : VersionInfo)
    (mask : FieldMask) (pre : gset Event) (s : MaterializedState) (e : Event) :
  reachable s ->
  let ta := task_analysis has_triggered node next_user term_event child_color
              mask pre s in
  let waits := (add_local_user has_triggered has_triggered' node next_user term_event
                  base_user child_color version_info mask pre s).1.2 in
  ta_dominated ta = ta_observed ta &&& (mask \\\ ta_non_dominated ta) /\
  (forall a record,
     has_triggered e = false -> e <> term_event ->
     tested_user mask (ta_dominated ta) s e a record ->
     cut_off node child_color record = false ->
     check_dependence_type (usage record) next_user = TRUE_DEPENDENCE \/
     check_dependence_type (usage record) next_user = ANTI_DEPENDENCE ->
     e ∈ waits) /\
  (e ∈ waits ->
   e ∈ pre \/
   (has_triggered e = false /\ e <> term_event /\
    exists a record,
      tested_user mask (ta_dominated ta) s e a record /\
      cut_off node child_color record = false /\
      (check_dependence_type (usage record) next_user = TRUE_DEPENDENCE \/
       check_dependence_type (usage record) next_user = ANTI_DEPENDENCE))) /\
  ((forall a record,
      tested_user mask (ta_dominated ta) s e a record ->
      cut_off node child_color record = false ->
      check_dependence_type (usage record) next_user = NO_DEPENDENCE \/
      check_dependence_type (usage record) next_user = ATOMIC_DEPENDENCE \/
      check_dependence_type (usage record) next_user = SIMULTANEOUS_DEPENDENCE) ->
   e ∉ pre -> e ∉ waits).
Proof.
  intros Hs ta waits. split; [reflexivity|].
  destruct (reachable_well_formed s Hs) as (Hc & Hp & _).
  pose proof (task_analysis_in has_triggered node next_user term_event child_color
                mask pre s e Hc Hp) as Hin.
  cbv zeta in Hin. fold ta in Hin.
  rewrite tested_user_waits in Hin.
  assert (Hw : e ∈ waits <-> e ∈ ta_preconditions ta).
  { subst waits. rewrite add_local_user_preconditions. reflexivity. }
  split; [|split].
  - intros a record Ht Hne Htest Hcut Hdep. apply Hw, Hin. right.
    split; [exact Ht|]. split; [exact Hne|]. exists a, record. auto.
  - intros He. apply Hw, Hin in He. exact He.
  - intros Hnone Hpre He. apply Hw, Hin in He.
    destruct He as [He | (_ & _ & a & record & Htest & Hcut & Hdep)];
      [contradiction|].
    destruct (Hnone a record Htest Hcut) as [Hn|[Hn|Hn]];
      rewrite Hn in Hdep; destruct Hdep; discriminate.
Qed.

Lemma writers_in_turn_reachable : @reachable sample_analysis writers_in_turn.
Proof.
  apply (@reach_add_local_user sample_analysis).
  apply (@reach_add_local_user sample_analysis).
  exact (@reach_new sample_analysis).
Qed.

Lemma task_path_dependence_rule_witness :
  let vi := mkVersionInfo (fun _ => true) (fun _ => None) in
  let waits := (@add_local_user sample_analysis (fun _ => false) (fun _ => false)
                  sample_node read_write 3 true None vi 1 ∅ writers_in_turn).1.2 in
  @reachable sample_analysis writers_in_turn /\
  (1 ∈ waits ->
   1 ∈ (∅ : gset Event) \/
   ((fun _ : Event => false) 1 = false /\ 1 <> 3 /\
    exists a record,
      tested_user 1
        (ta_dominated (@task_analysis sample_analysis (fun _ => false) sample_node
                         read_write 3 None 1 ∅ writers_in_turn))
        writers_in_turn 1 a record /\
      cut_off sample_node None record = false /\
      (@check_dependence_type sample_analysis (usage record) read_write = TRUE_DEPENDENCE \/
       @check_dependence_type sample_analysis (usage record) read_write
         = ANTI_DEPENDENCE))).
Proof.
  intros vi waits. split; [exact writers_in_turn_reachable|].
  exact (proj1 (proj2 (proj2
           (@task_path_dependence_rule sample_analysis (fun _ => false) (fun _ => false)
              sample_node read_write 3 true None vi 1 ∅ writers_in_turn 1
              writers_in_turn_reachable)))).
Defined.

(** The writer under event 2 is in the previous epoch of
    [writers_in_turn] with the first field; a task that writes the field
    depends on it by the table.  The writer under event 1 gives the task
    its precondition and leaves no field of the request undominated, so
    that the previous epoch is not looked at: event 2 is not returned. *)
Lemma dominated_user_is_not_tested :
  let vi := mkVersionInfo (fun _ => true) (fun _ => None) in
  let writer := mkUser read_write None None in
  let eu := mkEventUsers 1 (single_user (0, writer)) in
  previous_epoch_users writers_in_turn !! 2 = Some eu /\
  bucket_has eu 0 writer /\
  bucket_fields eu 0 &&& 1 <> 0 /\
  cut_off sample_node None writer = false /\
  @check_dependence_type sample_analysis (usage writer) read_write = TRUE_DEPENDENCE /\
  (@add_local_user sample_analysis (fun _ => false) (fun _ => false) sample_node
     read_write 3 true None vi 1 ∅ writers_in_turn).1.2 = {[1]}.
Proof.
  intros vi writer eu.
  split; [vm_compute; reflexivity|]. split; [reflexivity|].
  split; [vm_compute; discriminate|]. split; [reflexivity|].
  split; [reflexivity|]. vm_compute. reflexivity.
Qed.

Lemma every_overlapping_user_decides_fails :
  ~ @every_overlapping_user_decides sample_analysis.
Proof.
  intros Hclaim.
  destruct dominated_user_is_not_tested as (Hl & Hb & Hf & Hcut & Hdep & Hw).
  cbv zeta in Hl, Hb, Hf, Hcut, Hdep, Hw.
  pose proof (Hclaim (fun _ => false) (fun _ => false) sample_node read_write 3 true None
                (mkVersionInfo (fun _ => true) (fun _ => None)) 1 ∅ writers_in_turn 2
                _ 0 _ writers_in_turn_reachable eq_refl ltac:(discriminate)
                ltac:(apply not_elem_of_empty) (or_intror Hl) Hb Hf Hcut) as Hiff.
  rewrite Hw in Hiff. apply proj2 in Hiff.
  specialize (Hiff (or_introl Hdep)). apply elem_of_singleton in Hiff. discriminate.
Qed.

(** ** C3: what the clean-up does to the users of an event *)

Lemma apply_filters_moves ht (dead : gset Event) (fp : gmap Event FieldMask)
    (d : FieldMask) (s : MaterializedState) (e : Event) (a : N) :
  table_summaries (current_epoch_users s) -> ht e = false \/ d = 0 -> e ∉ dead ->
  migrated d s (apply_filters ht dead fp d s) e a /\
  erased d s (apply_filters ht dead fp d s) e.
Proof.
  intros Hsum Ht Hdead. unfold apply_filters.
  set (s1 := foldl (fun s e => filter_local_users e s) s (sorted_elements dead)).
  set (s2 := if decide (fp = ∅) then s1 else filter_previous_users fp s1).
  assert (Hnin : e ∉ sorted_elements dead).
  { rewrite elem_of_sorted_elements. exact Hdead. }
  destruct (collect_other (sorted_elements dead) e s Hnin) as [Hc1 Hp1].
  fold s1 in Hc1, Hp1.
  assert (Hs1 : table_summaries (current_epoch_users s1))
    by (apply collect_summaries; exact Hsum).
  assert (Hc2 : current_epoch_users s2 = current_epoch_users s1).
  { subst s2. destruct (decide (fp = ∅)); [reflexivity|].
    apply filter_previous_users_current. }
  assert (Hs2 : table_summaries (current_epoch_users s2)) by (rewrite Hc2; exact Hs1).
  unfold migrated, erased.
  destruct (Mask.is_empty d) eqn:Hd; cbn [negb].
  - apply is_empty_true in Hd. subst d. rewrite Hc2, Hc1.
    change 0 with Mask.empty.
    rewrite inter_empty_r, diff_empty_r.
    split; [split; [reflexivity | reflexivity]|].
    rewrite inter_empty_r. intuition.
  - destruct Ht as [Ht|Hz]; [|apply is_empty_false in Hd; contradiction].
    destruct (filter_current_users_migrates ht d s2 e a Hs2 Ht) as (Fc & Fp & Fe).
    cbv zeta in Fc, Fp, Fe. rewrite Hc2, Hc1 in Fc, Fp, Fe.
    split; [split; [exact Fc|] | exact Fe].
    rewrite Fp. apply subseteq_union_of_r.
Qed.

(** *** The events the analysis finds triggered are all collected *)

Lemma current_task_pass_dead_all `{Analysis} ht node usage te mask cc l x :
  forall st,
    x ∈ st.1 \/ (ht x = true /\ x ∈ l.*1) ->
    x ∈ (foldl (fun st cit => current_task_entry ht node usage te mask cc cit st) st l).1.
Proof.
  induction l as [|cit l IH]; intros st Hx.
  - destruct Hx as [Hx|[_ Hx]]; [exact Hx | inversion Hx].
  - cbn [foldl]. apply IH.
    assert (Hgrow : x ∈ st.1 ->
              x ∈ (current_task_entry ht node usage te mask cc cit st).1).
    { intros Hin. unfold current_task_entry.
      repeat case_match; cbn [fst]; try exact Hin.
      apply elem_of_union_r. exact Hin. }
    destruct Hx as [Hx|[Ht Hx]]; [left; exact (Hgrow Hx)|].
    rewrite fmap_cons in Hx. apply elem_of_cons in Hx as [->|Hx]; [|right; auto].
    left. unfold current_task_entry. rewrite Ht. cbn [fst].
    apply elem_of_union_l, elem_of_singleton. reflexivity.
Qed.

Lemma previous_task_pass_dead_grows `{Analysis} ht node usage te nd dom skip cc l x :
  forall st,
    x ∈ prev_dead_events st ->
    x ∈ prev_dead_events
          (foldl (fun st pit => previous_task_entry ht node usage te nd dom skip cc
                                  pit st) st l).
Proof.
  induction l as [|pit l IH]; intros st Hx; [exact Hx|].
  cbn [foldl]. apply IH. unfold previous_task_entry.
  repeat case_match; cbn [prev_dead_events]; try exact Hx.
  apply elem_of_union_r. exact Hx.
Qed.

Lemma task_analysis_dead_all `{Analysis} ht node usage te cc mask pre
    (s : MaterializedState) (x : Event) :
  ht x = true -> is_Some (current_epoch_users s !! x) ->
  x ∈ ta_dead_events (task_analysis ht node usage te cc mask pre s).
Proof.
  intros Ht [eu Hl]. unfold task_analysis. cbn [ta_dead_events].
  apply previous_task_pass_dead_grows. cbn [prev_dead_events].
  apply current_task_pass_dead_all. right. split; [exact Ht|].
  apply list_elem_of_fmap. exists (x, eu). split; [reflexivity|].
  apply elem_of_entries. exact Hl.
Qed.

Lemma current_copy_pass_dead_all `{Analysis} ht node redop reading cm cc vs l x :
  forall st,
    x ∈ st.1 \/ (ht x = true /\ x ∈ l.*1) ->
    x ∈ (foldl (fun st cit => current_copy_entry ht node redop reading cm cc vs cit st)
               st l).1.
Proof.
  induction l as [|cit l IH]; intros st Hx.
  - destruct Hx as [Hx|[_ Hx]]; [exact Hx | inversion Hx].
  - cbn [foldl]. apply IH.
    assert (Hgrow : x ∈ st.1 ->
              x ∈ (current_copy_entry ht node redop reading cm cc vs cit st).1).
    { intros Hin. unfold current_copy_entry.
      repeat case_match; cbn [fst]; try exact Hin.
      apply elem_of_union_r. exact Hin. }
    destruct Hx as [Hx|[Ht Hx]]; [left; exact (Hgrow Hx)|].
    rewrite fmap_cons in Hx. apply elem_of_cons in Hx as [->|Hx]; [|right; auto].
    left. unfold current_copy_entry. rewrite Ht. cbn [fst].
    apply elem_of_union_l, elem_of_singleton. reflexivity.
Qed.

Lemma previous_copy_pass_dead_grows `{Analysis} ht node redop reading nd dom skip cc vs
    l x :
  forall st,
    x ∈ prevc_dead_events st ->
    x ∈ prevc_dead_events
          (foldl (fun st pit => previous_copy_entry ht node redop reading nd dom skip
                                  cc vs pit st) st l).
Proof.
  induction l as [|pit l IH]; intros st Hx; [exact Hx|].
  cbn [foldl]. apply IH. unfold previous_copy_entry.
  repeat case_match; cbn [prevc_dead_events]; try exact Hx.
  apply elem_of_union_r. exact Hx.
Qed.

Lemma copy_analysis_dead_all `{Analysis} ht node redop reading cm cc vs pre
    (s : MaterializedState) (x : Event) :
  ht x = true -> is_Some (current_epoch_users s !! x) ->
  x ∈ ca_dead_events (copy_analysis ht node redop reading cm cc vs pre s).
Proof.
  intros Ht [eu Hl]. unfold copy_analysis. cbn [ca_dead_events].
  apply previous_copy_pass_dead_grows. cbn [prevc_dead_events].
  apply current_copy_pass_dead_all. right. split; [exact Ht|].
  apply list_elem_of_fmap. exists (x, eu). split; [reflexivity|].
  apply elem_of_entries. exact Hl.
Qed.

(** *** Users that are in no bucket *)

Lemma elem_of_bucket_addrs (eu : EventUsers) (a : N) :
  a ∈ bucket_addrs eu <-> exists record, bucket_has eu a record.
Proof.
  unfold bucket_addrs, bucket_has. destruct (users eu) as [u|m].
  - rewrite elem_of_singleton. split.
    + intros ->. exists u.2. destruct u; reflexivity.
    + intros [record ->]. reflexivity.
  - rewrite elem_of_dom. split.
    + intros [[record mask] Hl]. exists record, mask. exact Hl.
    + intros (record & mask & Hl). eauto.
Qed.

Lemma absent_all_users (o : option EventUsers) (a : N) :
  a ∉ addrs_of o <-> all_users (fun a' _ => a' <> a) o.
Proof.
  unfold all_users, bucket_all. destruct o as [eu|]; cbn [addrs_of].
  - rewrite elem_of_bucket_addrs. split.
    + intros Hno eu' [= <-] a' record Hb ->. apply Hno. eauto.
    + intros Hall [record Hb]. exact (Hall eu eq_refl a record Hb eq_refl).
  - split; [intros _ eu [=] | intros _; apply not_elem_of_empty].
Qed.

Lemma apply_filters_absent (ht : Event -> bool) (dead : gset Event)
    (fp : gmap Event FieldMask) (d : FieldMask) (s : MaterializedState)
    (e : Event) (a : N) :
  a ∉ addrs_of (current_epoch_users s !! e) ->
  a ∉ addrs_of (previous_epoch_users s !! e) ->
  (a ∉ addrs_of (current_epoch_users (apply_filters ht dead fp d s) !! e)) /\
  (a ∉ addrs_of (previous_epoch_users (apply_filters ht dead fp d s) !! e)).
Proof.
  rewrite !absent_all_users. intros Hc Hp.
  apply apply_filters_records; [exact Hc | exact Hp | intros _; exact Hc].
Qed.

Lemma apply_filters_absent_previous (ht : Event -> bool) (dead : gset Event)
    (fp : gmap Event FieldMask) (d : FieldMask) (s : MaterializedState)
    (e : Event) (a : N) :
  ht e = true ->
  a ∉ addrs_of (previous_epoch_users s !! e) ->
  a ∉ addrs_of (previous_epoch_users (apply_filters ht dead fp d s) !! e).
Proof.
  rewrite !absent_all_users. intros Ht Hp.
  apply (apply_filters_records (fun _ _ => True) (fun (a' : N) _ => a' <> a));
    [|exact Hp|].
  - intros eu _ a' record _. exact I.
  - intros Hf. congruence.
Qed.

Lemma holders_absent (table : gmap Event EventUsers) (a : N) :
  (forall e, a ∉ addrs_of (table !! e)) -> holders table a = 0%nat.
Proof.
  intros Hno. unfold holders.
  assert (Hall : forall it, it ∈ map_to_list table -> a ∉ bucket_addrs it.2).
  { intros [e eu] Hin Ha. apply elem_of_map_to_list in Hin.
    apply (Hno e). rewrite Hin. exact Ha. }
  induction (map_to_list table) as [|it l IH]; [reflexivity|].
  cbn [sum_list_with]. rewrite IH by (intros it' Hin; apply Hall; right; exact Hin).
  assert (a ∉ bucket_addrs it.2) by (apply Hall; left). ind_solve.
Qed.

(** A user that no bucket holds is not alive. *)
Lemma unheld_not_alive `{Analysis} (s : MaterializedState) (a : N) :
  reachable s -> unheld s a -> references (heap s) !! a = None.
Proof.
  intros Hs Hun. rewrite (reachable_counted s Hs a).
  rewrite !holders_absent; [reflexivity | |]; intros e; apply (Hun e).
Qed.

(** *** The previous epoch under an event that has triggered *)

Lemma fields_of_delete (table : gmap Event EventUsers) (e' e : Event) (a : N) :
  Mask.subseteq (fields_of (delete e' table !! e) a) (fields_of (table !! e) a).
Proof.
  destruct (decide (e = e')) as [->|Hne].
  - rewrite lookup_delete_eq. cbn [fields_of]. unfold Mask.subseteq, Mask.empty.
    apply N.ldiff_0_l.
  - rewrite lookup_delete_ne by congruence. apply subseteq_refl.
Qed.

Lemma mask_at_erase_all (l : list N) (m : UserMap) (a : N) :
  Mask.subseteq (mask_at (erase_all l m) a) (mask_at m a).
Proof.
  unfold mask_at. rewrite lookup_erase_all. destruct (decide (a ∈ l)).
  - unfold Mask.subseteq, Mask.empty. apply N.ldiff_0_l.
  - apply subseteq_refl.
Qed.

Lemma filter_previous_entry_shrinks (fit : Event * FieldMask) (s : MaterializedState)
    (e : Event) (a : N) :
  Mask.subseteq (fields_of (previous_epoch_users (filter_previous_entry fit s) !! e) a)
                (fields_of (previous_epoch_users s !! e) a).
Proof.
  unfold filter_previous_entry.
  destruct (previous_epoch_users s !! fit.1) as [eu|] eqn:Hl; [|apply subseteq_refl].
  assert (Hother : forall eu' : EventUsers,
            Mask.subseteq (bucket_fields eu' a) (bucket_fields eu a) ->
            Mask.subseteq
              (fields_of (<[fit.1 := eu']> (previous_epoch_users s) !! e) a)
              (fields_of (previous_epoch_users s !! e) a)).
  { intros eu' Hsub. destruct (decide (e = fit.1)) as [->|Hne].
    - rewrite lookup_insert_eq, Hl. exact Hsub.
    - rewrite lookup_insert_ne by congruence. apply subseteq_refl. }
  destruct (Mask.is_empty (user_mask eu \\\ fit.2)).
  { cbn [set_heap set_previous previous_epoch_users]. apply fields_of_delete. }
  destruct (users eu) as [u|m] eqn:Hu.
  { cbn [set_previous previous_epoch_users]. apply Hother.
    unfold bucket_fields. cbn [users user_mask]. rewrite Hu.
    destruct (decide (a = u.1)); [apply subseteq_diff_l | apply subseteq_refl]. }
  assert (Hm : forall a,
            mask_at ((fun um : PhysicalUser * FieldMask => (um.1, um.2 \\\ fit.2)) <$> m) a
            = bucket_fields eu a \\\ fit.2).
  { intros b. rewrite mask_at_diff. unfold bucket_fields. rewrite Hu. reflexivity. }
  destruct (List.filter _ _) as [|kv to_delete].
  { cbn [set_previous previous_epoch_users]. apply Hother.
    unfold bucket_fields at 1. cbn [users]. rewrite Hm. apply subseteq_diff_l. }
  cbn [set_heap set_previous previous_epoch_users]. apply Hother.
  rewrite (proj1 (collapse_spec _ _ a)).
  eapply subseteq_trans; [apply mask_at_erase_all|].
  rewrite Hm. apply subseteq_diff_l.
Qed.

Lemma filter_previous_users_shrinks (fp : gmap Event FieldMask) (s : MaterializedState)
    (e : Event) (a : N) :
  Mask.subseteq (fields_of (previous_epoch_users (filter_previous_users fp s) !! e) a)
                (fields_of (previous_epoch_users s !! e) a).
Proof.
  unfold filter_previous_users. generalize (entries fp). intros l. revert s.
  induction l as [|fit l IH]; intros s; [apply subseteq_refl|].
  cbn [foldl]. eapply subseteq_trans; [apply IH | apply filter_previous_entry_shrinks].
Qed.

Lemma collect_shrinks (l : list Event) (e : Event) (a : N) :
  forall s : MaterializedState,
    Mask.subseteq
      (fields_of (previous_epoch_users
                    (foldl (fun s e => filter_local_users e s) s l) !! e) a)
      (fields_of (previous_epoch_users s !! e) a).
Proof.
  induction l as [|e' l IH]; intros s; [apply subseteq_refl|].
  cbn [foldl]. eapply subseteq_trans; [apply IH|].
  destruct (decide (e' ∈ outstanding_gc_events s)) as [Hin|Hout].
  - rewrite filter_local_users_recorded by exact Hin.
    cbn [previous_epoch_users]. apply fields_of_delete.
  - rewrite filter_local_users_unrecorded by exact Hout. apply subseteq_refl.
Qed.

(** Under an event that has triggered when [filter_current_users] asks,
    the previous epoch gains no field, and the event leaves the current
    epoch when there is a dominated field. *)
Lemma apply_filters_triggered (ht : Event -> bool) (dead : gset Event)
    (fp : gmap Event FieldMask) (d : FieldMask) (s : MaterializedState)
    (e : Event) (a : N) :
  ht e = true ->
  Mask.subseteq (fields_of (previous_epoch_users (apply_filters ht dead fp d s) !! e) a)
                (fields_of (previous_epoch_users s !! e) a) /\
  (d <> 0 -> current_epoch_users (apply_filters ht dead fp d s) !! e = None).
Proof.
  intros Ht. unfold apply_filters. cbv zeta.
  pose proof (collect_shrinks (sorted_elements dead) e a s) as H1.
  set (s1 := foldl _ s _) in *.
  assert (H2 : Mask.subseteq
                 (fields_of (previous_epoch_users
                    (if decide (fp = ∅) then s1 else filter_previous_users fp s1) !! e) a)
                 (fields_of (previous_epoch_users s !! e) a)).
  { destruct (decide (fp = ∅)); [exact H1|].
    eapply subseteq_trans; [apply filter_previous_users_shrinks | exact H1]. }
  set (s2 := if decide (fp = ∅) then _ else _) in *.
  destruct (Mask.is_empty d) eqn:Hd; cbn [negb].
  - split; [exact H2|]. intros Hne. apply is_empty_true in Hd. contradiction.
  - destruct (filter_current_users_at ht d s2 e) as (_ & _ & Hat).
    destruct (current_epoch_users s2 !! e) as [eu|]; [rewrite Ht in Hat|];
      destruct Hat as [Hc Hp]; rewrite Hp; split; [exact H2 | | exact H2 |];
      intros _; exact Hc.
Qed.

(** An event the analysis found triggered is in neither epoch
    afterwards. *)
Lemma apply_filters_collected (ht : Event -> bool) (dead : gset Event)
    (fp : gmap Event FieldMask) (d : FieldMask) (s : MaterializedState) (e : Event) :
  gc_covers s -> e ∈ dead ->
  current_epoch_users (apply_filters ht dead fp d s) !! e = None /\
  previous_epoch_users (apply_filters ht dead fp d s) !! e = None.
Proof.
  intros Hg Hin.
  pose proof (apply_filters_pending ht dead fp d s Hg) as Hg'.
  pose proof (apply_filters_gc ht dead fp d s) as Hgc.
  assert (Hout : e ∉ outstanding_gc_events (apply_filters ht dead fp d s)).
  { rewrite Hgc. set_solver. }
  unfold gc_covers in Hg'.
  split; apply not_elem_of_dom; intros Hd; apply Hout, Hg'; set_solver.
Qed.

(** The clean-up of the analyzers, event by event. *)
Lemma apply_filters_cleaned (ht ht' : Event -> bool) (dead : gset Event)
    (fp : gmap Event FieldMask) (d : FieldMask) (s : MaterializedState)
    (e : Event) (a : N) :
  table_summaries (current_epoch_users s) -> gc_covers s ->
  (forall x, x ∈ dead -> ht x = true) ->
  (forall x, ht x = true -> is_Some (current_epoch_users s !! x) -> x ∈ dead) ->
  cleaned_up ht ht' d s (apply_filters ht' dead fp d s) e a.
Proof.
  intros Hsum Hg Hsound Hall.
  assert (Hothers : only_under s e a ->
            forall e', e' <> e ->
              (a ∉ addrs_of (current_epoch_users (apply_filters ht' dead fp d s) !! e')) /\
              (a ∉ addrs_of (previous_epoch_users (apply_filters ht' dead fp d s) !! e'))).
  { intros Honly e' Hne. destruct (Honly e' Hne) as [Hc Hp].
    apply apply_filters_absent; assumption. }
  split; [|split].
  - intros Ht Hor. apply apply_filters_moves; [exact Hsum | exact Hor|].
    intros Hin. rewrite (Hsound e Hin) in Ht. discriminate.
  - intros Ht Hsome.
    destruct (apply_filters_collected ht' dead fp d s e Hg (Hall e Ht Hsome)) as [Hc Hp].
    split; [exact Hc|]. split; [exact Hp|].
    intros _ Honly e'. destruct (decide (e' = e)) as [->|Hne].
    + rewrite Hc, Hp. cbn [addrs_of]. split; apply not_elem_of_empty.
    + exact (Hothers Honly e' Hne).
  - intros Ht Ht' Hd.
    destruct (apply_filters_triggered ht' dead fp d s e a Ht') as [Hsub Hc].
    specialize (Hc Hd).
    split; [exact Hc|]. split; [exact Hsub|].
    intros _ Hprev Honly e'. destruct (decide (e' = e)) as [->|Hne].
    + rewrite Hc. cbn [addrs_of]. split; [apply not_elem_of_empty|].
      apply apply_filters_absent_previous; assumption.
    + exact (Hothers Honly e' Hne).
Qed.

Lemma cleaned_up_tables (ht ht' : Event -> bool) (d : FieldMask)
    (s0 s s1 s' : MaterializedState) (e : Event) (a : N) :
  current_epoch_users s = current_epoch_users s0 ->
  previous_epoch_users s = previous_epoch_users s0 ->
  current_epoch_users s' = current_epoch_users s1 ->
  previous_epoch_users s' = previous_epoch_users s1 ->
  cleaned_up ht ht' d s0 s1 e a -> cleaned_up ht ht' d s s' e a.
Proof.
  intros Hc Hp Hc' Hp'.
  unfold cleaned_up, migrated, erased, only_under, unheld.
  rewrite Hc, Hp, Hc', Hp'. auto.
Qed.

Lemma cleaned_up_add_current_user (ht ht' : Event -> bool) (d : FieldMask)
    (s s1 : MaterializedState) (user : N * PhysicalUser) (term_event : Event)
    (mask : FieldMask) (e : Event) (a : N) :
  e <> term_event ->
  (a ∈ addrs_of (current_epoch_users s !! e) -> a <> user.1) ->
  cleaned_up ht ht' d s s1 e a ->
  cleaned_up ht ht' d s (add_current_user user term_event mask s1) e a.
Proof.
  intros Hne Hnew (Hmove & Hdead & Hdrop).
  assert (Hcur : current_epoch_users (add_current_user user term_event mask s1) !! e
                 = current_epoch_users s1 !! e).
  { unfold add_current_user, set_current. cbn [current_epoch_users].
    apply lookup_insert_ne. congruence. }
  assert (Hun : a <> user.1 -> unheld s1 a ->
                unheld (add_current_user user term_event mask s1) a).
  { intros Ha Hs1 e'. destruct (Hs1 e') as [Hc Hp].
    unfold add_current_user, set_current. cbn [current_epoch_users previous_epoch_users].
    split; [|exact Hp]. rewrite insert_table_addrs.
    destruct (decide (e' = term_event)) as [->|]; [|exact Hc].
    intros Hin. apply elem_of_union in Hin as [Hin|Hin]; [|exact (Hc Hin)].
    apply elem_of_singleton in Hin. contradiction. }
  unfold cleaned_up, migrated, erased. rewrite Hcur.
  cbn [add_current_user set_current previous_epoch_users].
  split; [exact Hmove|]. split.
  - intros Ht Hsome. destruct (Hdead Ht Hsome) as (Hc & Hp & Hu).
    split; [exact Hc|]. split; [exact Hp|]. intros Ha Honly.
    exact (Hun (Hnew Ha) (Hu Ha Honly)).
  - intros Ht Ht' Hd. destruct (Hdrop Ht Ht' Hd) as (Hc & Hp & Hu).
    split; [exact Hc|]. split; [exact Hp|]. intros Ha Hprev Honly.
    exact (Hun (Hnew Ha) (Hu Ha Hprev Honly)).
Qed.

(** C3, as the code has it.  On both paths the dominated mask is
    [observed & (mask - non_dominated)], taken after the current-epoch
    pass.  What the clean-up under the exclusive lock then does to the
    users of an event depends on whether the event has triggered, which
    the analysis asks first and [filter_current_users] asks again.  For
    an event that has not triggered, the fields of each of its users
    that lie in [dominated] are found under the same event and user in
    the previous epoch, the user keeps the other fields in the current
    epoch, and the event leaves the current epoch exactly when its
    summary had fields and loses them all.  An event of the current
    epoch that the analysis found triggered is collected: it is in
    neither epoch afterwards.  An event that has triggered since is
    erased from the current epoch when some field is dominated, and none
    of its fields is moved to the previous epoch.  In both cases a user
    of the event that no other bucket held is in no bucket afterwards,
    and a user in no bucket is not alive: it has been released.  (On the
    task path the caller's own new user is set aside: it is added to the
    current epoch under the termination event afterwards.) *)
Theorem dominated_fields_migrate `{Analysis}
    (has_triggered has_triggered' : Event -> bool)
    (logical_node : RegionTreeNode) (usage : RegionUsage) (term_event : Event)
    (base_user : bool) (child_color : ColorPoint) (version_info : VersionInfo)
    (mask : FieldMask) (pre : gset Event) (redop : ReductionOpID) (reading : bool)
    (cpre : gmap Event FieldMask) (s : MaterializedState) (e : Event) (a : N) :
  reachable s ->
  let ta := task_analysis has_triggered logical_node usage term_event child_color
              mask pre s in
  let ts := (add_local_user has_triggered has_triggered' logical_node usage term_event
               base_user child_color version_info mask pre s).2 in
  let ca := copy_analysis has_triggered logical_node redop reading mask child_color
              (if is_valid child_color then None
               else get_versions version_info logical_node) cpre s in
  let cs := (find_local_copy_preconditions has_triggered has_triggered' logical_node
               redop reading mask child_color version_info cpre s).2 in
  (ta_dominated ta = ta_observed ta &&& (mask \\\ ta_non_dominated ta) /\
   ca_dominated ca = ca_observed ca &&& (mask \\\ ca_non_dominated ca)) /\
  (e <> term_event \/ event_exists term_event = false ->
     cleaned_up has_triggered has_triggered' (ta_dominated ta) s ts e a) /\
  (has_triggered e = false -> has_triggered' e = false \/ ta_dominated ta = 0 ->
   a <> next_addr (heap s) -> migrated (ta_dominated ta) s ts e a) /\
  cleaned_up has_triggered has_triggered' (ca_dominated ca) s cs e a /\
  (unheld ts a -> references (heap ts) !! a = None) /\
  (unheld cs a -> references (heap cs) !! a = None).
Proof.
  intros Hs ta ts ca cs.
  destruct (reachable_well_formed s Hs) as (Hsum & _ & Hbc & _).
  pose proof (reachable_gc_pending s Hs) as Hg.
  split; [split; reflexivity|].
  assert (Htask : forall s0 : MaterializedState,
            current_epoch_users s0 = current_epoch_users s ->
            previous_epoch_users s0 = previous_epoch_users s ->
            outstanding_gc_events s0 = outstanding_gc_events s ->
            cleaned_up has_triggered has_triggered' (ta_dominated ta) s
              (apply_filters has_triggered' (ta_dead_events ta) (ta_filter_previous ta)
                 (ta_dominated ta) s0) e a).
  { intros s0 Hc0 Hp0 Hg0.
    apply (cleaned_up_tables _ _ _ s0 s _ _ e a (eq_sym Hc0) (eq_sym Hp0)
             eq_refl eq_refl).
    apply apply_filters_cleaned.
    - rewrite Hc0. exact Hsum.
    - unfold gc_covers. rewrite Hc0, Hp0, Hg0. exact Hg.
    - intros x. apply task_analysis_dead.
    - intros x Ht Hsome. rewrite Hc0 in Hsome.
      apply task_analysis_dead_all; [exact Ht | exact Hsome]. }
  assert (Hcopy : cleaned_up has_triggered has_triggered' (ca_dominated ca) s cs e a).
  { subst cs. unfold find_local_copy_preconditions. cbn [snd]. fold ca.
    assert (Hrun : cleaned_up has_triggered has_triggered' (ca_dominated ca) s
                     (apply_filters has_triggered' (ca_dead_events ca)
                        (ca_filter_previous ca) (ca_dominated ca) s) e a).
    { apply apply_filters_cleaned; [exact Hsum | exact Hg | |].
      - intros x. apply copy_analysis_dead.
      - intros x Ht Hsome. apply copy_analysis_dead_all; [exact Ht | exact Hsome]. }
    destruct (negb (bool_decide (ca_dead_events ca = ∅)) ||
              negb (bool_decide (ca_filter_previous ca = ∅)) ||
              negb (Mask.is_empty (ca_dominated ca))) eqn:Hany; [exact Hrun|].
    apply orb_false_iff in Hany as [Hany Hd].
    apply orb_false_iff in Hany as [Hdead Hfp].
    apply negb_false_iff, bool_decide_eq_true in Hdead, Hfp.
    apply negb_false_iff, is_empty_true in Hd.
    rewrite Hdead, Hfp in Hrun. rewrite Hd in Hrun at 2.
    change 0 with Mask.empty in Hrun. rewrite apply_filters_nothing in Hrun.
    exact Hrun. }
  split; [|split; [|split; [exact Hcopy|split]]].
  - intros Hcase. subst ts. unfold add_local_user. fold ta.
    destruct (event_exists term_event) eqn:Hex.
    + destruct Hcase as [Hne | ?]; [|discriminate].
      destruct (new_user_spec logical_node usage child_color version_info (heap s))
        as [Hu _].
      destruct (new_user logical_node usage child_color version_info (heap s))
        as [user h]. cbn [fst] in Hu.
      assert (Hadd : cleaned_up has_triggered has_triggered' (ta_dominated ta) s
                (add_current_user user term_event mask
                   (apply_filters has_triggered' (ta_dead_events ta)
                      (ta_filter_previous ta) (ta_dominated ta)
                      (set_heap (fun _ => h) s))) e a).
      { apply cleaned_up_add_current_user;
          [exact Hne |
           | exact (Htask (set_heap (fun _ => h) s) eq_refl eq_refl eq_refl)].
        intros Ha. specialize (Hbc e a Ha). rewrite Hu. lia. }
      destruct (decide _); cbn [snd]; [exact Hadd|].
      exact (cleaned_up_tables _ _ _ s s _ _ e a eq_refl eq_refl eq_refl eq_refl Hadd).
    + cbn [snd]. exact (Htask s eq_refl eq_refl eq_refl).
  - intros Ht Hor Ha. subst ts. unfold add_local_user. fold ta.
    destruct (event_exists term_event) eqn:Hex.
    + destruct (new_user_spec logical_node usage child_color version_info (heap s))
        as [Hu _].
      destruct (new_user logical_node usage child_color version_info (heap s))
        as [user h]. cbn [fst] in Hu.
      destruct (proj1 (Htask (set_heap (fun _ => h) s) eq_refl eq_refl eq_refl) Ht Hor)
        as [[Hm1 Hm2] _].
      assert (Hcur : forall s1 : MaterializedState,
                fields_of (current_epoch_users
                             (add_current_user user term_event mask s1) !! e) a
                = fields_of (current_epoch_users s1 !! e) a).
      { intros s1. unfold add_current_user, set_current. cbn [current_epoch_users].
        destruct (decide (e = term_event)) as [-> | Hne].
        - rewrite lookup_insert_eq. cbn [fields_of].
          rewrite insert_user_fields. rewrite decide_False by congruence. reflexivity.
        - rewrite lookup_insert_ne by congruence. reflexivity. }
      destruct (decide _); cbn [snd]; unfold migrated, set_gc;
        cbn [current_epoch_users previous_epoch_users];
        rewrite ?Hcur; cbn [add_current_user set_current previous_epoch_users];
        (split; [exact Hm1 | exact Hm2]).
    + cbn [snd]. exact (proj1 (proj1 (Htask s eq_refl eq_refl eq_refl) Ht Hor)).
  - apply unheld_not_alive. subst ts. apply reach_add_local_user. exact Hs.
  - apply unheld_not_alive. subst cs. apply reach_find_local_copy_preconditions.
    exact Hs.
Qed.

Lemma two_writers_reachable : @reachable sample_analysis two_writers.
Proof.
  assert (Heq : two_writers =
            (@add_local_copy_user sample_analysis sample_node read_write 2 true None
               (mkVersionInfo (fun _ => true) (fun _ => None)) 1
               (@add_local_copy_user sample_analysis sample_node read_write 1 true None
                  (mkVersionInfo (fun _ => true) (fun _ => None)) 1 empty_state).2).2)
    by (vm_compute; reflexivity).
  rewrite Heq.
  apply (@reach_add_local_copy_user sample_analysis).
  apply (@reach_add_local_copy_user sample_analysis).
  exact (@reach_new sample_analysis).
Qed.

Lemma dominated_fields_migrate_witness :
  let ht := fun _ : Event => false in
  let ht' := fun e : Event => N.eqb e 1 in
  let vi := mkVersionInfo (fun _ => true) (fun _ => None) in
  let ca := @copy_analysis sample_analysis ht sample_node 0 false 1 None
              (if is_valid None then None else get_versions vi sample_node) ∅
              two_writers in
  let cs := (@find_local_copy_preconditions sample_analysis ht ht' sample_node 0 false
               1 None vi ∅ two_writers).2 in
  @reachable sample_analysis two_writers /\
  cleaned_up ht ht' (ca_dominated ca) two_writers cs 1 0 /\
  (unheld cs 0 -> references (heap cs) !! 0 = None).
Proof.
  intros ht ht' vi ca cs. split; [exact two_writers_reachable|].
  pose proof (@dominated_fields_migrate sample_analysis ht ht' sample_node read_write 3
                true None vi 1 ∅ 0 false ∅ two_writers 1 0 two_writers_reachable)
    as (_ & _ & _ & Hcopy & _ & Hfree).
  exact (conj Hcopy Hfree).
Defined.
